(* ===== verification/_CoqProject ===== *)
-Q . S2P
Prelude.v
Random.v
AutoVector.v
ThreadLocal.v
Histogram.v
Statistics.v
SpinMutex.v
Slice.v
RBTree.v
Node.v
Proto.v
PersistentTree.v
Delta.v
PathCopy.v
Rebalance.v
TreeSpec.v
MemStore.v
TransactionTree.v
Infect.v
Intention.v
Transaction.v
Iterator.v
IteratorSpec.v
LruCache.v
NodeCache.v
NodeCacheSpec.v
Images.v
Serialize.v
Vacuum.v
Matcher.v
EntryService.v
EntryServiceSpec.v
MemLog.v
EntryServiceProps.v
TxnFinder.v
CommitIndex.v
DBImpl.v
DBWalks.v
DBImplSpec.v
Publish.v
Conflict.v
DBProps.v
ConflictProps.v
Replica.v
ReplicaProps.v
Restore.v
OwnCommit.v
Writer.v
Finalizer.v
Waiters.v
