(* ===== verification/Prelude.v ===== *)
(** * CruzDB: a key-value store on a shared log

    CruzDB (src/) is a multi-version key-value database whose whole state is the
    content of a shared, append-only log (zlog).  A client's transaction runs on
    a private copy-on-write red-black tree, and records its operations in an
    _intention_ that is appended to the log.  Every database process reads the
    intentions in log order, decides for each one whether it commits, replays
    the committed ones on the newest root, and writes the nodes each replay
    created back to the log as an _after image_.  Nodes point to nodes by
    (after image, offset), so an old node can be dropped from memory and fetched
    again from the log.

    ** Parts, and where they are modelled

    - Prelude: results of calls ([res]: a value, a failed assertion, fuel), the
      state-and-error monad [M] with its weakest precondition [wp], tactics, the
      hint database [cruz], lemmas on lists and integers.
    - Slice: [zlog::Slice] comparison as a class with its laws; key prefixes.
    - Node (src/src/db/node.h, node.cc): the heap of shared nodes, weak node
      pointers ([NodePtr]) with the packed 64-bit address they are resolved
      from, [NodeStore], the interface a node cache gives to the tree.
    - Proto (src/src/db/cruzdb.proto): the messages in the log.
    - PersistentTree (src/src/db/persistent_tree.h, .cc): [Put], [Delete],
      [Get], [Copy], the rotations and the rebalancing in place, the postorder
      assignment of addresses and the serialization of a delta.
      RBTree is its reference: red-black trees as values.  Delta, PathCopy,
      Rebalance and TreeSpec prove that the heap code refines it;
      TransactionTree draws the consequences for a finite map.  MemStore is the
      node store that never drops a node.  Infect proves that
      [infect_self_pointers] numbers a delta in postorder; Images says what
      messages encode a numbered delta and how they read back; Serialize proves
      that [SerializeAfterImage] writes these messages.
    - Intention (src/src/db/intention.h), Transaction
      (src/src/db/transaction_impl.h, .cc, and [ReplayIntention] of db_impl.cc),
      Iterator (src/src/db/iterator_impl.h, .cc) with IteratorSpec.
    - LruCache (src/src/db/lru_cache.hpp), NodeCache (src/src/db/node_cache.h,
      .cc): shards of nodes by recency, the index from intentions to after
      images, fetching, publication of a delta, vacuum.  NodeCacheSpec proves
      that the cache is a node store whose addresses stand for what the log
      holds; Vacuum proves its accounts, its eviction and [Clear].
    - Matcher, EntryService (src/src/db/entry_service.h, .cc) with
      EntryServiceSpec and EntryServiceProps: the log scanner, the cache of log
      entries, reads and appends, the rendezvous of replayed intentions with
      their first after image.  MemLog is a log in memory for concrete runs.
    - TxnFinder, CommitIndex and DBImpl (src/src/db/db_impl.h, db_impl.cc,
      db.cc, snapshot.h): the rendezvous of committing clients with the
      transaction processor, the processor's tables, and the database: open,
      restore, reads, snapshots, transactions, and one round of each of its
      threads.  DBWalks and DBImplSpec hold its specifications, Conflict that of
      the decision, Publish that of a commit up to the new root; DBProps,
      ConflictProps and Waiters state properties.
    - Replica is the machine an instance implements: a finite map of keys, the
      positions committed, and the index, stepped by the intentions of the log;
      ReplicaProps and Restore prove that the processor and [DB::Open] follow it,
      OwnCommit that a client's commit on this instance steps it, Writer that the
      writer's round puts the nodes of a commit into the log, Finalizer that the
      finalizer's round puts them into the cache under their new addresses.
    - The helpers the statistics stand on: Random (src/src/util/random.h, .cc),
      AutoVector (autovector.h), ThreadLocal (thread_local.cc), SpinMutex
      (mutexlock.h), Histogram (src/src/monitoring/histogram.h, .cc; doubles are
      those of the standard library's SpecFloat) and Statistics (statistics.h,
      .cc, src/src/util/core_local.h).

    A part calls another as in the source: the database calls the tree, the
    tree resolves its pointers through [NodeStore], the node cache implements
    [NodeStore] over an [AfterImageSource], the entry service implements that
    over a log ([ZLog]) and an encoding of its messages ([Codec]).  Each of
    these is a type class with a second class of laws; the client's theorems are
    proved from the laws and the implementation's theorems give them.  The log,
    the encoding and the hash of [std::hash] are not in src/ and remain
    parameters; [MemLog] and [plain_cast] are instances with the laws proved.

    ** Conventions

    Locations are positives, memory a [gmap].  A [std::shared_ptr] is a location,
    a [std::weak_ptr] an optional location whose liveness the store decides.
    Machine integers are [Z], with their wrap-around written where the code can
    reach it.  A loop that is not structural takes fuel; the theorems state that
    the fuel they name is enough (in the tree: logarithmic in the number of
    nodes) and that the call returns.  An [assert] that fails is [AssertFail]: a
    [wp] statement therefore also says that no assertion fails.  A thread of the
    source is a round on the shared state, with the lock it takes as the
    boundary of the step; a wait whose condition does not hold is a step that
    does not return.

    A store is related to trees at a _horizon_: the intentions below it have been
    processed.  An address stands for a tree when the log holds the tree at it
    ([stored_in]), or when a committed intention whose after image is still to
    be written promised it ([promise] of Publish.v); after_image_round_trip and,
    in a running instance, commit_becomes_durable turn the second into the first.

    ** What the theorems show

    - The tree (TransactionTree): [Put] and [Delete] produce exactly the
      reference red-black insertion and deletion and keep the tree red-black;
      [Get] is a lookup in logarithmic time; any sequence of operations is the
      same sequence on a finite map, and every older snapshot keeps denoting
      what it denoted.
    - Transactions (Transaction): client calls behave as a map of user keys and
      are recorded; replaying the record on a tree of the same contents gives
      the same contents.  What the recorded keys miss for conflicts is stated.
    - Iterators (IteratorSpec): the stack of nodes is a cursor on the sorted
      entries; the prefix iterator shows one prefix, except [SeekToLast].
    - Caches and the log (LruCache, Matcher, EntryServiceProps): the recency
      list, the rendezvous of after images, reads that agree with the log; what a
      round of the scanner reads, what it skips because it is in the cache
      already and so keeps from the matcher, and the states in which the entry
      cache and the scanner fail.
    - The processor (TxnFinder, CommitIndex, ConflictProps): clients learn the
      decision on their own intention; the committed index and the committed
      keys give the positions of the conflict zone; what is aborted.
    - The node cache (Vacuum): the maps, recency lists and byte counts stay in
      step; what a round of the vacuum drops, and why its wait never settles.
    - The database (DBProps, Waiters): a database restored from the log reads
      and transacts on the map the log holds; what [Validate] accepts; callers
      that wait for a position go on exactly when it is decided, except a second
      one for the same position.
    - Log replay (ReplicaProps, Restore): one round of the transaction processor
      is one step of the log machine; [DB::Open] finds the last intention with an
      after image behind it, fills the holes above, and after the processor's
      rounds reads answer with what the machine makes of the whole log, so two
      instances on one log agree; a client's begin, calls and commit on an
      up-to-date instance answer as on the map of user keys, are decided, and
      leave the machine's next state; the after image written for a commit is
      well-formed and reads back as the tree that was published; the writer's
      round appends it, and from then on the log alone has the committed tree
      (Writer); the finalizer's round gives the new nodes their addresses in the
      image and enters them in the cache and the index (Finalizer).
    - The helpers: the generator has its full period from every seed but one
      pattern, from which it is stuck; the vector is a list; the
      thread-local pointers are a table by thread and object, with handlers
      called for what disappears; the spinning lock excludes; a histogram is a
      function of the multiset of its values, and its statistics survive what
      wraps around; tickers are totals, whatever cores the calls ran on.

    ** Bounds

    Node offsets are 16-bit and after-image positions 48-bit, as packed in the
    addresses of Node.v; tree sizes are bounded where a theorem needs it.  The
    in-memory index of commits keeps 1000 positions, and keys of positions are
    20 decimal digits, which holds every 64-bit position.

    Every theorem on a running database (those of Restore, Replica, ReplicaProps,
    OwnCommit, Writer, Finalizer, DBProps, Conflict and ConflictProps) assumes
    that the entry cache can hold the whole log: [so_bound] of [src_ok]
    (EntryServiceSpec) and [rd_bound] of [readable] (Restore).  The assumption
    cannot be dropped: once the cache is full a read below everything in it uses
    an erased iterator (read_below_full_cache_dangles).  The theorems on the
    entry service and the scanner alone do not make it.

    ** Not modelled

    Locks within one step (each operation of a component that takes its mutex is
    one step), time (retry delays), the metrics handler and logging, the
    formatting of statistics, the calls that count (the database's statistics
    do not feed back into it), lost updates of a histogram that two threads on
    one core write at once, the platform layer (src/src/port), the bindings,
    tools, tests and benchmarks.  Generated code of the messages and zlog itself are
    not in src/.

    ** Plan

    The theorems follow a transaction from its calls to the log, and an intention
    from the log to the published root, to the bytes of its after image, into
    the log and into the cache.  Left for later: runs in which the rounds of the
    four threads interleave freely (now the processor's round comes first, the
    others at any later state of the entry service), and that the index keeps
    its room in all of them (now a hypothesis on the state before the
    finalizer). *)
From Stdlib Require Export ZArith Lia Ascii Sorted String.
From stdpp Require Export base gmap sets list strings option sorting.
From Stdlib Require Import OrderedTypeEx.

#[global] Open Scope Z_scope.

(** ** Results and the state-and-error monad

    A C++ call either returns or stops the process on a failed [assert] (or an
    [exit]); [OutOfFuel] is the model's only error that is not in the source: the
    fuel of a recursion ran out. *)

Inductive res (A : Type) : Type :=
| Ok (a : A)
| AssertFail
| OutOfFuel.
Arguments Ok {_} _.
Arguments AssertFail {_}.
Arguments OutOfFuel {_}.

#[export] Instance res_ret : MRet res := @Ok.
#[export] Instance res_bind : MBind res := fun A B f m =>
  match m with Ok a => f a | AssertFail => AssertFail | OutOfFuel => OutOfFuel end.

Definition M (S A : Type) : Type := S -> res (A * S).

#[export] Instance M_ret {S} : MRet (M S) := fun A a s => Ok (a, s).
#[export] Instance M_bind {S} : MBind (M S) := fun A B f m s =>
  match m s with
  | Ok (a, s') => f a s'
  | AssertFail => AssertFail
  | OutOfFuel => OutOfFuel
  end.

Definition get {S} : M S S := fun s => Ok (s, s).
Definition put {S} (s : S) : M S unit := fun _ => Ok (tt, s).
Definition modify {S} (f : S -> S) : M S unit := fun s => Ok (tt, f s).
Definition fail {S A} : M S A := fun _ => AssertFail.
Definition no_fuel {S A} : M S A := fun _ => OutOfFuel.
Definition assert_that {S} (b : bool) : M S unit := fun s => if b then Ok (tt, s) else AssertFail.

(** Run a computation on a part of a larger state. *)
Definition zoom {S T A} (pr : S -> T) (up : T -> S -> S) (m : M T A) : M S A := fun s =>
  match m (pr s) with
  | Ok (a, t) => Ok (a, up t s)
  | AssertFail => AssertFail
  | OutOfFuel => OutOfFuel
  end.

(** Total-correctness weakest precondition: the computation returns, and the
    postcondition holds of its value and final state. *)
Definition wp {S A} (m : M S A) (Q : A -> S -> Prop) (s : S) : Prop :=
  match m s with Ok (a, s') => Q a s' | _ => False end.

(** A wait whose condition does not hold: the caller does not get any further
    in this state, and the call does not return. *)
Definition wait_until {S} (cond : S -> bool) : M S unit := fun s => if cond s then Ok (tt, s) else OutOfFuel.

(** ** Ordered maps

    [begin()] of a [std::map]: the least key. *)

Definition first_key {A} (m : gmap Z A) : option Z :=
  match (map_to_list m).*1 with [] => None | k :: ks => Some (foldr Z.min k ks) end.

(** ** Machine-width integers *)

Definition u64 (z : Z) : Z := z mod 2 ^ 64.
Definition u32 (z : Z) : Z := z mod 2 ^ 32.
Definition u16 (z : Z) : Z := z mod 2 ^ 16.
Definition i64 (z : Z) : Z := (z + 2 ^ 63) mod 2 ^ 64 - 2 ^ 63.

(** ** The byte-lexicographic order on strings *)

Definition slt (a b : string) : Prop := String.compare a b = Lt.

(** ** Lemmas on the monad *)

Section wp_lemmas.
Context {S : Type}.

Lemma wp_ret {A} (a : A) (Q : A -> S -> Prop) s : Q a s -> wp (mret a) Q s.
Proof. done. Qed.

Lemma wp_bind {A B} (m : M S A) (f : A -> M S B) (Q : B -> S -> Prop) s :
  wp m (fun a s' => wp (f a) Q s') s -> wp (m ≫= f) Q s.
Proof. unfold wp, mbind, M_bind. destruct (m s) as [[a s']| |]; done. Qed.

Lemma wp_conseq {A} (m : M S A) (P Q : A -> S -> Prop) s :
  wp m P s -> (forall a s', P a s' -> Q a s') -> wp m Q s.
Proof. unfold wp. destruct (m s) as [[a s']| |]; auto. Qed.

Lemma wp_get (Q : S -> S -> Prop) s : Q s s -> wp get Q s.
Proof. done. Qed.

Lemma wp_put (Q : unit -> S -> Prop) s s' : Q tt s' -> wp (put s') Q s.
Proof. done. Qed.

Lemma wp_modify (f : S -> S) (Q : unit -> S -> Prop) s : Q tt (f s) -> wp (modify f) Q s.
Proof. done. Qed.

Lemma wp_assert (b : bool) (Q : unit -> S -> Prop) s :
  b = true -> Q tt s -> wp (assert_that b) Q s.
Proof. intros ->. done. Qed.

Lemma wp_zoom {T A} (pr : S -> T) (up : T -> S -> S) (m : M T A) (Q : A -> S -> Prop) s :
  wp m (fun a t => Q a (up t s)) (pr s) -> wp (zoom pr up m) Q s.
Proof. unfold wp, zoom. destruct (m (pr s)) as [[a s']| |]; done. Qed.

Lemma wp_run {A} (m : M S A) (Q : A -> S -> Prop) s :
  wp m Q s <-> exists a s', m s = Ok (a, s') /\ Q a s'.
Proof.
  unfold wp. split.
  - destruct (m s) as [[a s']| |]; eauto; done.
  - by intros (a & s' & -> & HQ).
Qed.

End wp_lemmas.

(** ** What a computation may change

    [respects R m]: if [m] returns, its final state is related to its initial
    one.  With [same π] it leaves a part of the state alone, with [holding I] it
    keeps an invariant. *)

Definition respects {S A} (R : S -> S -> Prop) (m : M S A) : Prop := forall s a s', m s = Ok (a, s') -> R s s'.
Definition same {S X} (π : S -> X) (s s' : S) : Prop := π s' = π s.
Definition holding {S} (I : S -> Prop) (s s' : S) : Prop := I s -> I s'.

#[export] Instance same_preorder {S X} (π : S -> X) : PreOrder (same π).
Proof. split; [done|]. unfold same. intros ???. congruence. Qed.

#[export] Instance holding_preorder {S} (I : S -> Prop) : PreOrder (holding I).
Proof. split; unfold holding; [by intros ?|intros ???; auto]. Qed.

Create HintDb respects.

Section respects.
Context {S : Type}.

Lemma bind_Ok {A B} (m : M S A) (f : A -> M S B) s b s' :
  (m ≫= f) s = Ok (b, s') -> exists a s1, m s = Ok (a, s1) /\ f a s1 = Ok (b, s').
Proof. unfold mbind, M_bind. destruct (m s) as [[a s1]| |]; [|done|done]. eauto. Qed.

Lemma bind_get_Ok {A} (f : S -> M S A) s r : (get ≫= f) s = Ok r -> f s s = Ok r.
Proof. done. Qed.

Lemma bind_modify_Ok {A} g (f : unit -> M S A) s r : (modify g ≫= f) s = Ok r -> f tt (g s) = Ok r.
Proof. done. Qed.

Lemma bind_assert_Ok {A} b (f : unit -> M S A) s r : (assert_that b ≫= f) s = Ok r -> b = true /\ f tt s = Ok r.
Proof. unfold mbind, M_bind, assert_that. by destruct b. Qed.

Context (R : S -> S -> Prop) `{!PreOrder R}.

Lemma respects_ret {A} (a : A) : respects R (mret a).
Proof. by intros s a' s' [= _ ->]. Qed.

Lemma respects_bind {A B} (m : M S A) (f : A -> M S B) : respects R m -> (forall a, respects R (f a)) -> respects R (m ≫= f).
Proof. intros Hm Hf s b s' (a & s1 & H1 & H2)%bind_Ok. etransitivity; [by eapply Hm|by eapply Hf]. Qed.

Lemma respects_get : respects R get.
Proof. by intros s a s' [= _ ->]. Qed.

Lemma respects_modify f : (forall s, R s (f s)) -> respects R (modify f).
Proof. intros Hf s a s' [= _ <-]. apply Hf. Qed.

Lemma respects_fail {A} : respects R (@fail S A).
Proof. done. Qed.

Lemma respects_no_fuel {A} : respects R (@no_fuel S A).
Proof. done. Qed.

Lemma respects_assert b : respects R (assert_that b).
Proof. intros s a s'. unfold assert_that. destruct b; [by intros [= _ ->]|done]. Qed.

Lemma respects_wait_until c : respects R (wait_until c).
Proof. intros s a s'. unfold wait_until. destruct (c s); [by intros [= _ ->]|done]. Qed.

(** A computation on a part, whose effect on the part says what the whole does. *)
Lemma respects_zoom {T A} (RT : T -> T -> Prop) (pr : S -> T) (up : T -> S -> S) (m : M T A) :
  respects RT m -> (forall s t, RT (pr s) t -> R s (up t s)) -> respects R (zoom pr up m).
Proof.
  intros Hm Hu s a s'. unfold zoom. destruct (m (pr s)) as [[b t]| |] eqn:E; [|done|done]. intros [= _ <-].
  apply Hu. by eapply Hm.
Qed.

Lemma respects_zoom_any {T A} (pr : S -> T) (up : T -> S -> S) (m : M T A) : (forall s t, R s (up t s)) -> respects R (zoom pr up m).
Proof. intros Hu. by apply (respects_zoom (fun _ _ => True)). Qed.

Lemma wp_respects {A} (m : M S A) (Q : A -> S -> Prop) s : respects R m -> wp m Q s -> wp m (fun a s' => Q a s' /\ R s s') s.
Proof. unfold wp. intros Hm. destruct (m s) as [[a s']| |] eqn:E; [|done..]. intros HQ. split; [done|]. by eapply Hm. Qed.
End respects.

#[export] Hint Resolve respects_ret respects_get respects_fail respects_no_fuel respects_assert respects_wait_until : respects.
#[export] Hint Extern 1 (respects _ (modify _)) => apply respects_modify; reflexivity : respects.
#[export] Hint Extern 1 (respects _ (zoom _ _ _)) => apply respects_zoom_any; reflexivity : respects.
#[export] Hint Extern 2 (respects _ (_ ≫= _)) => apply respects_bind; [apply _| |intros ?] : respects.
#[export] Hint Extern 2 (respects _ (let '(_, _) := ?x in _)) => destruct x : respects.
#[export] Hint Extern 3 (respects _ (match ?x with _ => _ end)) => destruct x : respects.
#[export] Hint Extern 0 (PreOrder _) => apply _ : respects.

(** ** Lemmas on the order of strings *)

Lemma slt_lts a b : slt a b <-> String_as_OT.lts a b.
Proof. apply String_as_OT.cmp_lt. Qed.

#[export] Instance slt_dec a b : Decision (slt a b).
Proof. unfold slt. apply _. Defined.

Lemma slt_trans a b c : slt a b -> slt b c -> slt a c.
Proof. rewrite !slt_lts. apply String_as_OT.lt_trans. Qed.

Lemma slt_irrefl a : ~ slt a a.
Proof. rewrite slt_lts. intros H. by apply (String_as_OT.lt_not_eq a a H). Qed.

Lemma compare_gt_slt a b : String.compare a b = Gt <-> slt b a.
Proof. unfold slt. rewrite (String.compare_antisym a b). by destruct (String.compare b a). Qed.

Lemma compare_refl a : String.compare a a = Eq.
Proof. by apply String_as_OT.cmp_eq. Qed.

Lemma slt_asym a b : slt a b -> ~ slt b a.
Proof. intros H1 H2. by apply (slt_irrefl a), (slt_trans _ b). Qed.

Lemma slt_ne a b : slt a b -> a <> b.
Proof. intros H ->. by apply (slt_irrefl b). Qed.

Lemma slt_total a b : slt a b \/ a = b \/ slt b a.
Proof.
  destruct (String.compare a b) eqn:E.
  - right; left. by apply String.compare_eq_iff.
  - by left.
  - right; right. by apply compare_gt_slt.
Qed.

#[export] Instance slt_strict : StrictOrder slt.
Proof. split; [exact slt_irrefl | exact slt_trans]. Qed.

(** ** Lemmas on lists *)

Lemma filter_all {A} (Q : A -> Prop) `{!forall x, Decision (Q x)} l : Forall Q l -> filter Q l = l.
Proof. induction 1; [done|]. by rewrite filter_cons_True, IHForall. Qed.

Lemma filter_none {A} (Q : A -> Prop) `{!forall x, Decision (Q x)} l : Forall (fun x => ~ Q x) l -> filter Q l = [].
Proof. induction 1; [done|]. by rewrite filter_cons_False. Qed.

Lemma foldr_min_spec k ks : foldr Z.min k ks ∈ k :: ks /\ forall x, x ∈ k :: ks -> foldr Z.min k ks <= x.
Proof.
  induction ks as [|y ks [IH1 IH2]]; simpl; [split; [left|intros x Hx; apply list_elem_of_singleton in Hx; lia]|].
  split.
  - destruct (Z.min_spec y (foldr Z.min k ks)) as [[_ ->]|[_ ->]]; [set_solver|].
    apply elem_of_cons in IH1 as [->|?]; set_solver.
  - intros x [->|[->|Hx]%elem_of_cons]%elem_of_cons.
    + pose proof (IH2 k ltac:(left)). lia.
    + lia.
    + pose proof (IH2 x ltac:(set_solver)). lia.
Qed.

Lemma first_key_Some {A} (m : gmap Z A) k :
  first_key m = Some k <-> is_Some (m !! k) /\ forall j, is_Some (m !! j) -> k <= j.
Proof.
  assert (forall j, is_Some (m !! j) <-> j ∈ (map_to_list m).*1) as Hm.
  { intros j. rewrite list_elem_of_fmap. split.
    - intros [x Hx]. exists (j, x). by rewrite elem_of_map_to_list.
    - intros ([j' x] & -> & Hx). apply elem_of_map_to_list in Hx. by eexists. }
  setoid_rewrite Hm. unfold first_key. destruct (map_to_list m).*1 as [|y ks].
  - split; [done|]. intros [H%not_elem_of_nil _]. done.
  - destruct (foldr_min_spec y ks) as [H1 H2]. split; [by intros [= <-]|]. intros [H3 H4]. f_equal.
    pose proof (H2 k H3). pose proof (H4 _ H1). lia.
Qed.

Lemma first_key_None {A} (m : gmap Z A) : first_key m = None <-> m = ∅.
Proof.
  unfold first_key. rewrite <- map_to_list_empty_iff. destruct (map_to_list m) as [|[k x] l]; simpl; done.
Qed.

(** Weaken a [Forall] by transitivity of the key order. *)
Ltac forall_trans H :=
  eapply Forall_impl; [exact H|]; intros ? ?; simpl in *; eauto using slt_trans.

Create HintDb cruz.
#[export] Hint Resolve wp_ret slt_trans : cruz.
