(* ===== verification/Random.v ===== *)
(** The random number generator of the helpers (src/src/util/random.h, random.cc):
    a multiplicative congruential generator on 32 bits whose modulus is a
    Mersenne prime, so that the product is reduced by a shift and a sum. *)
From S2P Require Import Prelude.
From Stdlib Require Import Znumtheory Zpow_facts.

(** The largest value of [Next], and the multiplier. *)
Definition Random_M : Z := 2147483647.
Definition Random_A : Z := 16807.

(** A generator is its seed. *)
Definition GoodSeed (s : Z) : Z := if Z.land s Random_M =? 0 then 1 else Z.land s Random_M.

Definition Random_Reset (s : Z) : M Z unit := put (GoodSeed s).

Definition Random_Next : M Z Z :=
  seed_ ← get;
  let product := u64 (seed_ * Random_A) in
  put (u32 (u64 (Z.shiftr product 31 + Z.land product Random_M)));;
  seed_ ← get;
  (if Random_M <? seed_ then put (u32 (seed_ - Random_M)) else mret tt);;
  get.

(** [n] is an [int]; a division by zero has no result. *)
Definition Random_Uniform (n : Z) : M Z Z :=
  x ← Random_Next;
  if u32 n =? 0 then fail else mret (x mod u32 n).

Definition Random_OneIn (n : Z) : M Z bool :=
  x ← Random_Next;
  if u32 n =? 0 then fail else mret (x mod u32 n =? 0).

(** A shift of [1] by more than thirty bits is no [int]. *)
Definition Random_Skewed (max_log : Z) : M Z Z :=
  base ← Random_Uniform (max_log + 1);
  if base <? 31 then Random_Uniform (Z.shiftl 1 base) else fail.

(** The generator of the calling thread, made from [seed], the hash of its id,
    on the first call. *)
Definition GetTLSInstance (seed : Z) : M (option Z) Z :=
  tls_instance ← get;
  match tls_instance with
  | Some rv => mret rv
  | None => let rv := GoodSeed (u32 seed) in put (Some rv);; mret rv
  end.

(** ** The reduction *)

(** The sequence of the generator. *)
Definition lehmer (x : Z) : Z := x * Random_A mod Random_M.

Lemma fold_mod p : 0 <= p -> p = (Z.shiftr p 31 + Z.land p Random_M) + Random_M * Z.shiftr p 31.
Proof.
  intros Hp. change Random_M with (Z.ones 31). rewrite Z.land_ones, Z.shiftr_div_pow2 by lia.
  change (Z.ones 31) with (2 ^ 31 - 1). pose proof (Z.div_mod p (2 ^ 31) ltac:(lia)). lia.
Qed.

(** From any seed the constructor can leave, the modulus included. *)
Lemma Next_run s : 0 < s <= Random_M ->
  Random_Next s = let x := if s =? Random_M then Random_M else lehmer s in Ok (x, x).
Proof.
  intros Hs. unfold Random_M in Hs. unfold Random_Next, mbind, M_bind, get, put, mret, M_ret.
  assert (u64 (s * Random_A) = s * Random_A) as -> by (unfold u64, Random_A; apply Z.mod_small; lia).
  set (p := s * Random_A). assert (0 <= p <= 16807 * 2147483647) as Hp by (unfold p, Random_A; lia).
  pose proof (fold_mod p ltac:(lia)) as Hfold.
  assert (0 <= Z.shiftr p 31 <= 16806) as Hhi.
  { rewrite Z.shiftr_div_pow2 by lia. split; [apply Z.div_pos; lia|].
    apply Z.lt_succ_r, Z.div_lt_upper_bound; lia. }
  assert (0 <= Z.land p Random_M < 2 ^ 31) as Hlo.
  { change Random_M with (Z.ones 31). rewrite Z.land_ones by lia. apply Z.mod_pos_bound. lia. }
  set (h := Z.shiftr p 31) in *. set (l := Z.land p Random_M) in *. unfold Random_M in Hfold.
  assert (u64 (h + l) = h + l) as -> by (unfold u64; apply Z.mod_small; lia).
  assert (u32 (h + l) = h + l) as -> by (unfold u32; apply Z.mod_small; lia). cbv zeta.
  assert (lehmer s = p mod Random_M) as Hl by done. unfold Random_M in Hl. destruct (Z.eqb_spec s Random_M) as [E|Hne].
  - unfold Random_M in E. assert (h + l = 2147483647) as ->; [|done].
    unfold p, Random_A in Hfold. lia.
  - assert (0 < lehmer s) as Hpos.
    { rewrite Hl. assert (p mod 2147483647 <> 0) as Hz.
      { intros [q Hq]%Z.mod_divide; [|lia]. unfold p in Hq. assert (2147483647 | s) as [k Hk].
        { apply (Z.gauss 2147483647 Random_A s); [|by vm_compute]. exists q. lia. }
        unfold Random_M in Hne. nia. }
      pose proof (Z.mod_pos_bound p 2147483647 ltac:(lia)). lia. }
    destruct (Z.ltb_spec Random_M (h + l)) as [Hlt|Hge]; unfold Random_M in *.
    + assert (u32 (h + l - 2147483647) = h + l - 2147483647) as -> by (unfold u32; apply Z.mod_small; lia).
      assert (lehmer s = h + l - 2147483647) as ->; [|done].
      rewrite Hl. symmetry. apply (Z.mod_unique p 2147483647 (h + 1)); lia.
    + assert (lehmer s = h + l) as ->; [|done].
      assert (h + l <> 2147483647) as Hd.
      { intros E. rewrite Hl, Hfold, E in Hpos. replace (2147483647 + 2147483647 * h) with ((1 + h) * 2147483647) in Hpos by lia.
        rewrite Z.mod_mul in Hpos; lia. }
      rewrite Hl. symmetry. apply (Z.mod_unique p 2147483647 h); lia.
Qed.

(** ** The cycle *)

(** As many draws. *)
Fixpoint Random_draws (n : nat) : M Z (list Z) :=
  match n with
  | O => mret []
  | S n => x ← Random_Next; l ← Random_draws n; mret (x :: l)
  end.

(** [a] and [b] are the same number modulo the prime. *)
Definition same_mod (a b : Z) : Prop := a mod Random_M = b mod Random_M.

Lemma lehmer_small s : s mod Random_M = s -> 0 <= s < Random_M.
Proof. intros <-. apply Z.mod_pos_bound. done. Qed.

Lemma lehmer_iter s n : lehmer (s * Random_A ^ Z.of_nat n mod Random_M) = s * Random_A ^ Z.of_nat (S n) mod Random_M.
Proof.
  unfold lehmer. rewrite Z.mul_mod_idemp_l by done. f_equal. rewrite Nat2Z.inj_succ, Z.pow_succ_r by lia. lia.
Qed.

(** *** The factors of the modulus less one *)

Lemma prime_by_trial p : 1 < p -> forallb (fun n => negb (p mod n =? 0)) (seqZ 2 (p - 2)) = true -> Z.prime p.
Proof.
  intros Hp Hall. split; [done|]. intros n Hn Hd. rewrite forallb_forall in Hall.
  assert (In n (seqZ 2 (p - 2))) as Hin by (apply list_elem_of_In, elem_of_seqZ; lia).
  apply Hall in Hin. apply Z.mod_divide in Hd; [|lia]. by rewrite Hd in Hin.
Qed.

Definition predecessor_primes : list Z := [2; 3; 3; 7; 11; 31; 151; 331].

Lemma predecessor_factors : Random_M - 1 = foldr Z.mul 1 predecessor_primes.
Proof. by vm_compute. Qed.

Lemma predecessor_primes_prime : Forall Z.prime predecessor_primes.
Proof. repeat (apply Forall_cons_2; [apply prime_by_trial; by vm_compute|]). apply Forall_nil_2. Qed.

Lemma prime_divisor : forall e, 1 < e -> exists p, Z.prime p /\ (p | e).
Proof.
  enough (forall e, 0 <= e -> 1 < e -> exists p, Z.prime p /\ (p | e)) as H by (intros e He; apply H; lia).
  apply (Z_lt_induction (fun e => 1 < e -> exists p, Z.prime p /\ (p | e))). intros e IH He. destruct (prime_dec e) as [Hp|Hn].
  - exists e. split; [by apply prime_alt|apply Z.divide_refl].
  - destruct (not_prime_divide e He Hn) as (n & Hn1 & Hd). destruct (IH n) as (p & Hp & Hpn); [lia|lia|].
    exists p. split; [exact Hp|]. exact (Z.divide_trans _ _ _ Hpn Hd).
Qed.

Lemma prime_in_product p l : Z.prime p -> Forall Z.prime l -> (p | foldr Z.mul 1 l) -> p ∈ l.
Proof.
  intros Hp. induction l as [|q l IH]; intros Hl Hd.
  - apply Z.prime_ge_2 in Hp. apply Z.divide_1_r in Hd. lia.
  - apply Forall_cons in Hl as [Hq Hl]. simpl in Hd. apply Z.divide_prime_mul in Hd as [Hd|Hd]; [|right; by apply IH|done].
    apply Z.divide_prime_prime in Hd as ->; [left|done|done].
Qed.

(** *** The order of the multiplier *)

Lemma same_mod_refl a : same_mod a a.
Proof. done. Qed.

Lemma same_mod_mul a b c d : same_mod a b -> same_mod c d -> same_mod (a * c) (b * d).
Proof. unfold same_mod. intros H1 H2. by rewrite Z.mul_mod, H1, H2, <- Z.mul_mod by done. Qed.

Lemma same_mod_pow_one a n : 0 <= n -> same_mod a 1 -> same_mod (a ^ n) 1.
Proof.
  intros Hn Ha. revert n Hn. apply natlike_ind; [done|]. intros n Hn IH. rewrite Z.pow_succ_r by done.
  by apply (same_mod_mul a 1 (a ^ n) 1).
Qed.

Lemma power_fast n x : Zpow_mod Random_A n Random_M = x -> Random_A ^ n mod Random_M = x.
Proof. intros <-. by rewrite Zpow_mod_correct. Qed.

Lemma power_predecessor : same_mod (Random_A ^ (Random_M - 1)) 1.
Proof. unfold same_mod. apply power_fast. by vm_compute. Qed.

Lemma power_quotients : Forall (fun q => ~ same_mod (Random_A ^ ((Random_M - 1) / q)) 1) predecessor_primes.
Proof.
  assert (forall n, bool_decide (Zpow_mod Random_A n Random_M = 1) = false -> ~ same_mod (Random_A ^ n) 1) as H.
  { intros n Hn E. apply bool_decide_eq_false in Hn. apply Hn. rewrite Zpow_mod_correct by done. exact E. }
  repeat (apply Forall_cons_2; [apply H; by vm_compute|]). apply Forall_nil_2.
Qed.

(** No smaller power of the multiplier is one. *)
Lemma power_order d : 0 < d < Random_M - 1 -> ~ same_mod (Random_A ^ d) 1.
Proof.
  intros [H0 Hd]. assert (0 <= d) as Hge by lia. revert d Hge H0 Hd.
  apply (Z_lt_induction (fun d => 0 < d -> d < Random_M - 1 -> ~ same_mod (Random_A ^ d) 1)). intros d IH H0 Hd Hone. set (N := Random_M - 1) in *. pose proof (Z.div_mod N d ltac:(lia)) as HN.
  pose proof (Z.mod_pos_bound N d H0) as Hr. assert (0 <= N / d) as Hq by (apply Z.div_pos; unfold N, Random_M; lia).
  destruct (Z.eq_dec (N mod d) 0) as [Er|Hne].
  - rewrite Er, Z.add_0_r in HN. set (e := N / d) in *. assert (1 < e) as He by nia.
    destruct (prime_divisor e He) as (p & Hp & [k Hk]). assert (p ∈ predecessor_primes) as Hin.
    { apply prime_in_product; [done|apply predecessor_primes_prime|]. rewrite <- predecessor_factors. fold N.
      exists (d * k). rewrite HN, Hk. ring. }
    pose proof power_quotients as Hpq. rewrite Forall_forall in Hpq. apply (Hpq p Hin). fold N.
    pose proof (Z.prime_ge_2 _ Hp). replace (N / p) with (d * k).
    + rewrite Z.pow_mul_r by nia. apply same_mod_pow_one; [nia|done].
    + apply Z.div_unique_exact; [lia|]. rewrite HN, Hk. ring.
  - apply (IH (N mod d)); [lia|lia|lia|]. unfold same_mod. rewrite <- power_predecessor. fold N.
    rewrite HN at 2. rewrite Z.pow_add_r, Z.pow_mul_r by lia. rewrite <- (Z.mul_1_l (Random_A ^ (N mod d))) at 1.
    apply same_mod_mul; [|done]. symmetry. by apply same_mod_pow_one.
Qed.

(** *** A cycle through every number *)

Lemma same_mod_divide a b : same_mod a b <-> (Random_M | a - b).
Proof.
  unfold same_mod. split.
  - intros E. apply Z.mod_divide; [done|]. by rewrite Zminus_mod, E, Z.sub_diag.
  - intros [k Hk]. replace a with (b + k * Random_M) by lia. by rewrite Z_mod_plus_full.
Qed.

Lemma same_mod_cancel u x y : Z.gcd Random_M u = 1 -> same_mod (u * x) (u * y) -> same_mod x y.
Proof. rewrite !same_mod_divide. intros Hu. rewrite <- Z.mul_sub_distr_l. intros Hd. by apply (Z.gauss Random_M u). Qed.

Lemma gcd_mod_1 u : Z.gcd Random_M u = 1 -> Z.gcd Random_M (u mod Random_M) = 1.
Proof. intros Hu. rewrite Z.gcd_comm, Z.gcd_mod by done. by rewrite Z.gcd_comm, Z.gcd_comm. Qed.

Lemma gcd_power n : Z.gcd Random_M (Random_A ^ Z.of_nat n) = 1.
Proof.
  apply Z.coprime_pow_r; [lia|]. by vm_compute.
Qed.

(** The numbers the generator goes through from [s]. *)
Definition orbit (s : Z) (n : nat) : list Z := (fun i => s * Random_A ^ Z.of_nat i mod Random_M) <$> seq 0 n.

Lemma orbit_NoDup s n : Z.gcd Random_M s = 1 -> Z.of_nat n <= Random_M - 1 -> NoDup (orbit s n).
Proof.
  intros Hs Hn. unfold orbit. apply NoDup_fmap_2_strong; [|apply NoDup_seq].
  assert (forall i j, (i < j < n)%nat -> s * Random_A ^ Z.of_nat i mod Random_M <> s * Random_A ^ Z.of_nat j mod Random_M) as Hlt.
  { intros i j Hij E. apply (power_order (Z.of_nat j - Z.of_nat i)); [lia|].
    symmetry. apply (same_mod_cancel (Random_A ^ Z.of_nat i)); [apply gcd_power|].
    rewrite Z.mul_1_r, <- Z.pow_add_r by lia. replace (_ + (_ - _)) with (Z.of_nat j) by lia. by apply (same_mod_cancel s). }
  intros i j [_ Hi]%elem_of_seq [_ Hj]%elem_of_seq E. destruct (Nat.lt_trichotomy i j) as [?|[?|?]]; [|done|].
  - by destruct (Hlt i j); [lia|].
  - by destruct (Hlt j i); [lia|].
Qed.

Lemma orbit_range s n x : Z.gcd Random_M s = 1 -> x ∈ orbit s n -> x ∈ seqZ 1 (Random_M - 1).
Proof.
  intros Hs (i & -> & _)%list_elem_of_fmap. apply elem_of_seqZ. set (u := s * Random_A ^ Z.of_nat i).
  pose proof (Z.mod_pos_bound u Random_M ltac:(done)). assert (u mod Random_M <> 0) as Hne; [|lia].
  intros Hd%Z.mod_divide; [|done]. apply Z.gauss in Hd; [|done]. pose proof (gcd_power i) as Hg.
  apply Z.divide_gcd_iff in Hd; [|done]. rewrite Hd in Hg. done.
Qed.

Lemma orbit_whole s n : Z.gcd Random_M s = 1 -> Z.of_nat n = Random_M - 1 -> orbit s n ≡ₚ seqZ 1 (Random_M - 1).
Proof.
  intros Hs Hn. apply submseteq_length_Permutation.
  - apply NoDup_submseteq; [apply orbit_NoDup; [done|lia]|]. intros x. by apply orbit_range.
  - rewrite length_seqZ. unfold orbit. rewrite length_fmap, length_seq. lia.
Qed.

(** The powers of the multiplier are all the numbers, so the modulus is prime. *)
Lemma seed_coprime s : 0 < s < Random_M -> Z.gcd Random_M s = 1.
Proof.
  intros Hs. destruct (Z_of_nat_complete (Random_M - 1)) as [n Hn]; [done|].
  assert (s ∈ orbit 1 n) as Hin by (rewrite orbit_whole; [apply elem_of_seqZ; lia|done|done]).
  apply list_elem_of_fmap in Hin as (i & -> & _). rewrite Z.mul_1_l. apply gcd_mod_1, gcd_power.
Qed.

Lemma lehmer_seed s : 0 < s < Random_M -> 0 < lehmer s < Random_M.
Proof.
  intros Hs. assert (lehmer s ∈ orbit s 2) as Hin.
  { apply list_elem_of_fmap. exists 1%nat. split; [by unfold lehmer; rewrite Z.pow_1_r|]. apply elem_of_seq. lia. }
  apply orbit_range, elem_of_seqZ in Hin; [lia|by apply seed_coprime].
Qed.

Lemma orbit_step s n : 0 < s < Random_M -> orbit s (S n) = s :: orbit (lehmer s) n.
Proof.
  intros Hs. unfold orbit. cbn [seq]. rewrite fmap_cons, Z.mul_1_r, Z.mod_small by lia. f_equal.
  rewrite <- fmap_S_seq, <- list_fmap_compose. apply list_fmap_ext. intros i k _. unfold compose, lehmer.
  rewrite Z.mul_mod_idemp_l by done. f_equal. rewrite Nat2Z.inj_succ, Z.pow_succ_r by lia. ring.
Qed.

Lemma draws_run n : forall s, 0 < s < Random_M ->
  Random_draws n s = Ok (orbit (lehmer s) n, s * Random_A ^ Z.of_nat n mod Random_M).
Proof.
  induction n as [|n IH]; intros s Hs; [by rewrite Z.mul_1_r, Z.mod_small by lia|].
  pose proof (lehmer_seed s Hs) as Hl. cbn [Random_draws]. unfold mbind, M_bind. rewrite Next_run by lia.
  rewrite (proj2 (Z.eqb_neq s Random_M)) by lia. cbv beta iota zeta. rewrite IH, (orbit_step (lehmer s)) by done.
  assert (lehmer s * Random_A ^ Z.of_nat n mod Random_M = s * Random_A ^ Z.of_nat (S n) mod Random_M) as ->; [|done].
  unfold lehmer. rewrite Z.mul_mod_idemp_l by done. f_equal. rewrite Nat2Z.inj_succ, Z.pow_succ_r by lia. ring.
Qed.

Lemma orbit_lehmer s n : orbit (lehmer s) n = (fun i => s * Random_A ^ Z.of_nat (S i) mod Random_M) <$> seq 0 n.
Proof.
  unfold orbit. apply list_fmap_ext. intros k i _. unfold lehmer. rewrite Z.mul_mod_idemp_l by done. f_equal.
  rewrite Nat2Z.inj_succ, Z.pow_succ_r by lia. ring.
Qed.

Lemma full_period s : 0 < s < Random_M -> s * Random_A ^ (Random_M - 1) mod Random_M = s.
Proof.
  intros Hs. rewrite <- Z.mul_mod_idemp_r, power_predecessor, Z.mul_mod_idemp_r, Z.mul_1_r by done. apply Z.mod_small. lia.
Qed.

(** A seed whose low 31 bits are all set passes [GoodSeed], and the generator
    made from it returns the modulus for ever: the value the comment of [Next]
    rules out. *)
Lemma full_seed_is_stuck s n : Z.land s Random_M = Random_M ->
  GoodSeed s = Random_M /\ Random_draws n (GoodSeed s) = Ok (replicate n Random_M, Random_M).
Proof.
  intros Hs. assert (GoodSeed s = Random_M) as -> by (unfold GoodSeed; by rewrite Hs). split; [done|].
  induction n as [|n IH]; [done|]. cbn [Random_draws replicate]. unfold mbind, M_bind. rewrite Next_run by done.
  rewrite Z.eqb_refl. cbv beta iota zeta. by rewrite IH.
Qed.

Lemma GoodSeed_range s : 0 < GoodSeed s <= Random_M.
Proof.
  unfold GoodSeed. destruct (Z.eqb_spec (Z.land s Random_M) 0); [done|].
  change Random_M with (Z.ones 31) in *. rewrite Z.land_ones in * by lia. change (Z.ones 31) with (2 ^ 31 - 1).
  pose proof (Z.mod_pos_bound s (2 ^ 31)). lia.
Qed.

Lemma GoodSeed_proper s : Z.land s Random_M <> Random_M -> 0 < GoodSeed s < Random_M.
Proof.
  intros Hs. pose proof (GoodSeed_range s). assert (GoodSeed s <> Random_M); [|lia].
  unfold GoodSeed. by destruct (Z.eqb_spec (Z.land s Random_M) 0).
Qed.

(** C40: a generator made or reset with any seed.  [s], the state it starts from,
    is in [1, M].  If the low 31 bits of the seed are all set, every [Next] returns
    [M].  For all other seeds, [Next], with its shift and sum, is multiplication by
    16807 modulo the prime [M = 2^31 - 1]: the draws are the seed times the powers
    of 16807, and as the comment promises they go through every number of
    [1, M - 1], each once, before the state is [s] again. *)
Theorem Next_cycles seed old : let s := GoodSeed seed in 0 < s <= Random_M /\
  if Z.land seed Random_M =? Random_M
  then s = Random_M /\ forall m, (Random_Reset seed;; Random_draws m) old = Ok (replicate m Random_M, Random_M)
  else (forall m, (Random_Reset seed;; Random_draws m) old =
      Ok ((fun i => s * Random_A ^ Z.of_nat (S i) mod Random_M) <$> seq 0 m, s * Random_A ^ Z.of_nat m mod Random_M)) /\
    forall n, Z.of_nat n = Random_M - 1 ->
      exists out, (Random_Reset seed;; Random_draws n) old = Ok (out, s) /\ out ≡ₚ seqZ 1 (Random_M - 1).
Proof.
  intros s. split; [apply GoodSeed_range|].
  assert (forall m, (Random_Reset seed;; Random_draws m) old = Random_draws m s) as Hreset by done.
  destruct (Z.eqb_spec (Z.land seed Random_M) Random_M) as [E|E].
  { split; [by apply (full_seed_is_stuck seed 0)|]. intros m. rewrite Hreset. by apply full_seed_is_stuck. }
  pose proof (GoodSeed_proper seed E) as Hs. fold s in Hs. split.
  - intros m. rewrite Hreset, draws_run by done. do 2 f_equal. by apply orbit_lehmer.
  - intros n Hn. exists (orbit (lehmer s) n). split.
    + rewrite Hreset, draws_run, Hn by done. by rewrite full_period.
    + apply orbit_whole; [|done]. apply seed_coprime. by apply lehmer_seed.
Qed.

(** ** Numbers in a range *)

Lemma Next_range s : 0 < s <= Random_M -> wp Random_Next (fun x s' => x = s' /\ 0 < s' <= Random_M) s.
Proof.
  intros Hs. unfold wp. rewrite Next_run by done. destruct (Z.eqb_spec s Random_M); [done|]. cbv zeta.
  pose proof (lehmer_seed s). split; [done|lia].
Qed.

Lemma Uniform_range n s : 0 < s <= Random_M -> 0 < n < 2 ^ 31 ->
  wp (Random_Uniform n) (fun x s' => 0 <= x < n /\ 0 < s' <= Random_M) s.
Proof.
  intros Hs Hn. unfold Random_Uniform. assert (u32 n = n) as -> by (apply Z.mod_small; lia).
  apply wp_bind. eapply wp_conseq; [by apply Next_range|]. intros x s' [-> Hs'].
  rewrite (proj2 (Z.eqb_neq n 0)) by lia. apply wp_ret. split; [|done]. apply Z.mod_pos_bound. lia.
Qed.

(** [Uniform] and [Skewed] stay in the ranges their comments give, from every
    seed: below [n], and below [2^max_log]. *)
Theorem draws_in_range s n max_log : 0 < n < 2 ^ 31 -> 0 <= max_log <= 30 ->
  wp (Random_Uniform n) (fun x s' => 0 <= x < n /\ 0 < s' <= Random_M) (GoodSeed s) /\
  wp (Random_Skewed max_log) (fun x s' => 0 <= x < 2 ^ max_log /\ 0 < s' <= Random_M) (GoodSeed s).
Proof.
  intros Hn Hm. pose proof (GoodSeed_range s) as Hs. split; [by apply Uniform_range|].
  unfold Random_Skewed. apply wp_bind. eapply wp_conseq; [apply Uniform_range; lia|]. intros b s1 [Hb Hs1].
  rewrite (proj2 (Z.ltb_lt b 31)) by lia. rewrite Z.shiftl_1_l.
  assert (1 <= 2 ^ b <= 2 ^ max_log) as Hle by (split; [apply (Z.pow_le_mono_r 2 0); lia|apply Z.pow_le_mono_r; lia]).
  assert (2 ^ max_log <= 2 ^ 30) by (apply Z.pow_le_mono_r; lia).
  eapply wp_conseq; [apply Uniform_range; lia|]. intros x s2 [Hx Hs2]. split; [lia|done].
Qed.

(** ** Concrete seeds *)

Lemma Next_cycles_witness :
  (exists n out, Z.of_nat n = Random_M - 1 /\ (Random_Reset 301;; Random_draws n) 0 = Ok (out, 301) /\ out ≡ₚ seqZ 1 (Random_M - 1)) /\
  (Random_Reset 4294967295;; Random_draws 3) 0 = Ok ([2147483647; 2147483647; 2147483647], 2147483647).
Proof.
  split.
  - destruct (Z_of_nat_complete (Random_M - 1)) as [n Hn]; [done|]. exists n.
    destruct (Next_cycles 301 0) as [_ [_ H]]. destruct (H n (eq_sym Hn)) as (out & Ho & Hp). exists out. split_and!; [lia|done|done].
  - destruct (Next_cycles 4294967295 0) as [_ [_ H]]. exact (H 3%nat).
Defined.

Lemma draws_in_range_witness :
  wp (Random_Uniform 10) (fun x s' => 0 <= x < 10 /\ 0 < s' <= Random_M) (GoodSeed 301) /\
  wp (Random_Skewed 4) (fun x s' => 0 <= x < 2 ^ 4 /\ 0 < s' <= Random_M) (GoodSeed 301).
Proof. apply (draws_in_range 301 10 4); lia. Defined.
