(* ===== verification/AutoVector.v ===== *)
(** The vector of the helpers (src/src/util/autovector.h): the first elements in
    an array of the object itself, the rest in a [std::vector]. *)
From S2P Require Import Prelude.

Record autovector (T : Type) : Type := mkAutovector {
  num_stack_items_ : nat;
  values_ : list T;    (* the array, [kSize] long *)
  vect_ : list T;
}.
Arguments mkAutovector {_} _ _ _.
Arguments num_stack_items_ {_} _.
Arguments values_ {_} _.
Arguments vect_ {_} _.

Section autovector.
Context {T : Type} (zero : T) (kSize : nat).

(** The elements of a new array are [T()]. *)
Definition new_autovector : autovector T := mkAutovector 0 (replicate kSize zero) [].

Definition av_size (v : autovector T) : nat := num_stack_items_ v + length (vect_ v).
Definition av_empty (v : autovector T) : bool := (av_size v =? 0)%nat.

Definition AM : Type -> Type := M (autovector T).

(** An access to the array or to the [std::vector] past its end is no value. *)
Definition element (n : nat) (l : list T) : AM T := match l !! n with Some x => mret x | None => fail end.

(** [operator[]] and [at]. *)
Definition av_index (n : nat) : AM T :=
  v ← get;
  assert_that (n <? av_size v)%nat;;
  if (n <? kSize)%nat then element n (values_ v) else element (n - kSize) (vect_ v).

(** [v[n] = x] *)
Definition av_assign_at (n : nat) (x : T) : AM unit :=
  v ← get;
  assert_that (n <? av_size v)%nat;;
  put (if (n <? kSize)%nat then mkAutovector (num_stack_items_ v) (<[n := x]> (values_ v)) (vect_ v)
       else mkAutovector (num_stack_items_ v) (values_ v) (<[(n - kSize)%nat := x]> (vect_ v))).

(** *** Iterators: an index into the vector, a [size_t] *)

Definition begin_ : AM Z := mret 0.
Definition end_ : AM Z := v ← get; mret (Z.of_nat (av_size v)).
Definition iter_add (i len : Z) : Z := u64 (i + len).
Definition iter_sub (i len : Z) : Z := u64 (i - len).
Definition iter_distance (i j : Z) : Z := i64 (i - j).
Definition iter_deref (i : Z) : AM T :=
  v ← get;
  assert_that (i <=? Z.of_nat (av_size v));;
  av_index (Z.to_nat i).

Definition av_front : AM T :=
  v ← get;
  assert_that (negb (av_empty v));;
  b ← begin_;
  iter_deref b.

Definition av_back : AM T :=
  v ← get;
  assert_that (negb (av_empty v));;
  e ← end_;
  iter_deref (iter_sub e 1).

(** *** Changes *)

(** [vect_.resize]: new elements are [T()]; those of the array are left as they are. *)
Definition av_resize (n : nat) : AM unit :=
  modify (fun v =>
    if (kSize <? n)%nat then
      mkAutovector kSize (values_ v) (take (n - kSize) (vect_ v) ++ replicate (n - kSize - length (vect_ v)) zero)
    else mkAutovector n (values_ v) []).

Definition av_push_back (item : T) : AM unit :=
  modify (fun v =>
    if (num_stack_items_ v <? kSize)%nat then
      mkAutovector (S (num_stack_items_ v)) (<[num_stack_items_ v := item]> (values_ v)) (vect_ v)
    else mkAutovector (num_stack_items_ v) (values_ v) (vect_ v ++ [item])).

Definition av_pop_back : AM unit :=
  v ← get;
  assert_that (negb (av_empty v));;
  put (match vect_ v with
       | [] => mkAutovector (Nat.pred (num_stack_items_ v)) (values_ v) []
       | _ => mkAutovector (num_stack_items_ v) (values_ v) (take (length (vect_ v) - 1) (vect_ v))
       end).

Definition av_clear : AM unit := modify (fun v => mkAutovector 0 (values_ v) []).

(** The copy of the array takes its first [num_stack_items_] elements. *)
Definition av_assign (other : autovector T) : AM unit :=
  modify (fun v => mkAutovector (num_stack_items_ other)
    (take (num_stack_items_ other) (values_ other) ++ drop (num_stack_items_ other) (values_ v)) (vect_ other)).

Fixpoint av_push_all (items : list T) : AM unit :=
  match items with [] => mret tt | x :: items => av_push_back x;; av_push_all items end.

(** ** What the vector holds *)

Definition av_contents (v : autovector T) : list T := take (num_stack_items_ v) (values_ v) ++ vect_ v.

Record av_ok (v : autovector T) : Prop := {
  av_array : length (values_ v) = kSize;
  av_items : (num_stack_items_ v <= kSize)%nat;
  av_full : vect_ v <> [] -> num_stack_items_ v = kSize;
}.

Lemma av_contents_length v : av_ok v -> length (av_contents v) = av_size v.
Proof. intros []. unfold av_contents, av_size. rewrite length_app, length_take. lia. Qed.

Lemma new_autovector_ok : av_ok new_autovector /\ av_contents new_autovector = [].
Proof. split; [|done]. split; [apply length_replicate|simpl; lia|done]. Qed.

Lemma av_lookup v n : av_ok v -> (n < av_size v)%nat ->
  av_contents v !! n = if (n <? kSize)%nat then values_ v !! n else vect_ v !! (n - kSize)%nat.
Proof.
  intros [] Hn. unfold av_contents. unfold av_size in Hn. destruct (Nat.ltb_spec n kSize) as [Hlt|Hge].
  - destruct (decide (n < num_stack_items_ v)%nat).
    + rewrite lookup_app_l by (rewrite length_take; lia). by rewrite lookup_take_lt.
    + destruct (vect_ v) eqn:E; [simpl in Hn; lia|]. rewrite av_full0 in n0 by done. lia.
  - destruct (vect_ v) as [|x l] eqn:E; [simpl in Hn; lia|]. rewrite lookup_app_r; rewrite length_take; [|lia].
    rewrite av_full0, av_array0 by done. by rewrite Nat.min_id.
Qed.

(** ** The operations and their meaning on lists *)

Inductive av_op : Type :=
| AvIndex (n : nat)
| AvAssignAt (n : nat) (x : T)
| AvFront
| AvBack
| AvSize
| AvResize (n : nat)
| AvPush (x : T)
| AvPop
| AvClear
| AvCopy (other : autovector T).

Inductive av_out : Type := AvUnit | AvItem (x : T) | AvCount (n : nat).

Definition av_run (op : av_op) : AM av_out :=
  match op with
  | AvIndex n => x ← av_index n; mret (AvItem x)
  | AvAssignAt n x => av_assign_at n x;; mret AvUnit
  | AvFront => x ← av_front; mret (AvItem x)
  | AvBack => x ← av_back; mret (AvItem x)
  | AvSize => v ← get; mret (AvCount (av_size v))
  | AvResize n => av_resize n;; mret AvUnit
  | AvPush x => av_push_back x;; mret AvUnit
  | AvPop => av_pop_back;; mret AvUnit
  | AvClear => av_clear;; mret AvUnit
  | AvCopy other => av_assign other;; mret AvUnit
  end.

(** What an operation may do to the list; the new elements of [resize] are not
    specified. *)
Inductive av_spec (l : list T) : av_op -> av_out -> list T -> Prop :=
| SpIndex n x : l !! n = Some x -> av_spec l (AvIndex n) (AvItem x) l
| SpAssignAt n x : (n < length l)%nat -> av_spec l (AvAssignAt n x) AvUnit (<[n := x]> l)
| SpFront x : head l = Some x -> av_spec l AvFront (AvItem x) l
| SpBack x : last l = Some x -> av_spec l AvBack (AvItem x) l
| SpSize : av_spec l AvSize (AvCount (length l)) l
| SpResize n l' : length l' = n -> take (length l) l' = take n l -> av_spec l (AvResize n) AvUnit l'
| SpPush x : av_spec l (AvPush x) AvUnit (l ++ [x])
| SpPop l' x : l = l' ++ [x] -> av_spec l AvPop AvUnit l'
| SpClear : av_spec l AvClear AvUnit []
| SpCopy other : av_spec l (AvCopy other) AvUnit (av_contents other).

(** An operation that has no meaning fails its assertion. *)
Definition av_refines (l : list T) (op : av_op) (r : res (av_out * autovector T)) : Prop :=
  match r with
  | Ok (out, v) => av_ok v /\ av_spec l op out (av_contents v)
  | AssertFail => forall out l', ~ av_spec l op out l'
  | OutOfFuel => False
  end.

Lemma av_index_run v n : av_ok v ->
  av_index n v = match av_contents v !! n with Some x => Ok (x, v) | None => AssertFail end.
Proof.
  intros Hv. unfold av_index, mbind, M_bind, get, assert_that. pose proof (av_contents_length v Hv) as Hlen.
  destruct (Nat.ltb_spec n (av_size v)) as [Hlt|Hge].
  - rewrite (av_lookup v n Hv Hlt). destruct (n <? kSize)%nat; unfold element; by destruct (_ !! _).
  - by rewrite lookup_ge_None_2 by lia.
Qed.

Lemma iter_deref_run v i : av_ok v -> 0 <= i < Z.of_nat (av_size v) ->
  iter_deref i v = match av_contents v !! Z.to_nat i with Some x => Ok (x, v) | None => AssertFail end.
Proof.
  intros Hv Hi. unfold iter_deref, mbind at 1, M_bind, get, assert_that. unfold mbind, M_bind.
  rewrite (proj2 (Z.leb_le _ _)) by lia. by apply av_index_run.
Qed.

Lemma av_empty_contents v : av_ok v -> av_empty v = bool_decide (av_contents v = []).
Proof.
  intros Hv. unfold av_empty. rewrite <- (av_contents_length v Hv). destruct (av_contents v); by simpl.
Qed.

Lemma av_resize_ok n v : av_ok v -> wp (av_resize n) (fun _ v' => av_ok v' /\
  length (av_contents v') = n /\ take (length (av_contents v)) (av_contents v') = take n (av_contents v)) v.
Proof.
  intros Hv. pose proof Hv as []. apply wp_modify. rewrite (av_contents_length v Hv). unfold av_size.
  destruct (Nat.ltb_spec kSize n) as [Hlt|Hge].
  - assert (av_ok (mkAutovector kSize (values_ v) (take (n - kSize) (vect_ v) ++ replicate (n - kSize - length (vect_ v)) zero))) as Hok by (by split).
    split; [done|]. split.
    + rewrite (av_contents_length _ Hok). unfold av_size. simpl. rewrite length_app, length_take, length_replicate. lia.
    + unfold av_contents. simpl. rewrite (take_ge (values_ v)) by lia. destruct (vect_ v) as [|x l].
      * rewrite app_nil_r, take_nil. simpl. rewrite take_app_le by lia.
        rewrite Nat.add_0_r, (take_ge (take _ _)); [done|]. rewrite length_take. lia.
      * rewrite av_full0, (take_ge (values_ v)) by (done || lia).
        rewrite !take_app, av_array0. rewrite (take_ge (values_ v)), (take_ge (values_ v)) by lia. f_equal.
        rewrite take_take, length_take. replace (kSize + length (x :: l) - kSize)%nat with (length (x :: l)) by lia.
        destruct (decide (n - kSize <= length (x :: l))%nat).
        -- replace (n - kSize - length (x :: l))%nat with 0%nat by lia. cbn [replicate]. rewrite take_nil, app_nil_r. f_equal. lia.
        -- rewrite !(take_ge (x :: l)) by lia. replace (length (x :: l) - _)%nat with 0%nat by lia. by rewrite take_0, app_nil_r.
  - assert (av_ok (mkAutovector n (values_ v) [])) as Hok by (by split).
    split; [done|]. split; [rewrite (av_contents_length _ Hok); unfold av_size; simpl; lia|].
    unfold av_contents. simpl. rewrite app_nil_r, take_take. destruct (vect_ v) as [|x l].
    + rewrite app_nil_r, take_take. f_equal. simpl. lia.
    + rewrite av_full0, (take_ge (values_ v) kSize) by (done || lia). rewrite take_app_le by lia. f_equal. simpl. lia.
Qed.

Lemma av_push_ok x v : av_ok v -> wp (av_push_back x) (fun _ v' => av_ok v' /\ av_contents v' = av_contents v ++ [x]) v.
Proof.
  intros []. apply wp_modify. destruct (Nat.ltb_spec (num_stack_items_ v) kSize) as [Hlt|Hge].
  - assert (vect_ v = []) as E by (destruct (vect_ v); [done|]; rewrite av_full0 in Hlt by done; lia).
    split; [split; simpl; [by rewrite length_insert|lia|by rewrite E]|].
    unfold av_contents. simpl. rewrite E, !app_nil_r. erewrite take_S_r; [|apply list_lookup_insert_eq; lia].
    by rewrite take_insert_ge.
  - split; [split; simpl; [done|done|intros _; lia]|]. unfold av_contents. simpl. by rewrite app_assoc.
Qed.

Lemma av_pop_ok v : av_ok v -> av_contents v <> [] ->
  wp av_pop_back (fun _ v' => av_ok v' /\ exists x, av_contents v = av_contents v' ++ [x]) v.
Proof.
  intros Hv Hne. pose proof Hv as []. unfold av_pop_back. apply wp_bind, wp_get, wp_bind, wp_assert.
  { rewrite av_empty_contents by done. by rewrite bool_decide_eq_false_2. }
  unfold wp, put. destruct (vect_ v) as [|y l] eqn:E.
  - unfold av_contents in *. rewrite E, app_nil_r in *. destruct (num_stack_items_ v) as [|k] eqn:Ek; [done|].
    destruct (lookup_lt_is_Some_2 (values_ v) k ltac:(lia)) as [x Hx]. split; [split; simpl; [done|lia|done]|].
    exists x. simpl. rewrite app_nil_r. by apply take_S_r.
  - destruct (exists_last (l := y :: l) ltac:(done)) as (l' & x & El). rewrite El, length_app. simpl.
    rewrite Nat.add_sub, take_app_length. split; [split; simpl; [done|done|]|].
    + intros _. by apply av_full0.
    + exists x. unfold av_contents. simpl. by rewrite E, El, app_assoc.
Qed.

Lemma av_assign_at_ok n x v : av_ok v -> (n < length (av_contents v))%nat ->
  wp (av_assign_at n x) (fun _ v' => av_ok v' /\ av_contents v' = <[n := x]> (av_contents v)) v.
Proof.
  intros Hv Hn. pose proof Hv as []. rewrite (av_contents_length v Hv) in Hn. pose proof Hn as Hsz. unfold av_size in Hn.
  unfold av_assign_at. apply wp_bind, wp_get, wp_bind, wp_assert; [by apply Nat.ltb_lt|]. unfold wp, put.
  destruct (Nat.ltb_spec n kSize) as [Hlt|Hge].
  - split; [split; simpl; [by rewrite length_insert|done|done]|]. unfold av_contents. simpl.
    assert (n < num_stack_items_ v)%nat by (destruct (vect_ v); [simpl in Hn; lia|]; rewrite av_full0 by done; lia).
    rewrite insert_app_l by (rewrite length_take; lia). by rewrite take_insert_lt by lia.
  - destruct (vect_ v) as [|y l] eqn:E; [simpl in Hn; lia|]. pose proof (av_full0 ltac:(done)) as Hfull.
    split; [split; simpl; [done|done|done]|]. unfold av_contents. simpl. rewrite E, Hfull.
    rewrite insert_app_r_alt; rewrite length_take, av_array0, Nat.min_id; [done|lia].
Qed.

Lemma av_copy_ok other v : av_ok other -> av_ok v ->
  wp (av_assign other) (fun _ v' => av_ok v' /\ av_contents v' = av_contents other) v.
Proof.
  intros [] []. apply wp_modify. split; [split; simpl; [rewrite length_app, length_take, length_drop; lia|done|done]|].
  unfold av_contents. simpl. f_equal. rewrite take_app_le by (rewrite length_take; lia). by rewrite take_take, Nat.min_id.
Qed.

Lemma av_front_run v : av_ok v ->
  av_front v = match head (av_contents v) with Some x => Ok (x, v) | None => AssertFail end.
Proof.
  intros Hv. pose proof (av_contents_length v Hv) as Hlen. unfold av_front, mbind at 1, M_bind, get, assert_that.
  rewrite av_empty_contents by done. unfold mbind, M_bind. destruct (av_contents v) as [|x l] eqn:E; [done|].
  rewrite bool_decide_eq_false_2 by done. cbn. rewrite iter_deref_run by (done || (simpl in Hlen; lia)). by rewrite E.
Qed.

Lemma av_back_run v : av_ok v -> Z.of_nat (av_size v) < 2 ^ 64 ->
  av_back v = match last (av_contents v) with Some x => Ok (x, v) | None => AssertFail end.
Proof.
  intros Hv Hmax. pose proof (av_contents_length v Hv) as Hlen. unfold av_back, mbind at 1, M_bind, get, assert_that.
  rewrite av_empty_contents by done. unfold mbind, M_bind. destruct (av_contents v) as [|x l] eqn:E; [done|].
  rewrite bool_decide_eq_false_2 by done. unfold end_, iter_sub, u64, mbind, M_bind, get, mret, M_ret.
  cbn [negb]. simpl in Hlen. rewrite Z.mod_small by lia. rewrite iter_deref_run by (done || lia).
  rewrite E, last_lookup. replace (Z.to_nat (Z.of_nat (av_size v) - 1)) with (Nat.pred (length (x :: l))) by (simpl; lia). done.
Qed.

(** C39: an [autovector] is a list: every operation fails its assertion where the
    list operation has no result, and otherwise returns and leaves what the list
    operation does, whether the elements are in the array, in the [std::vector]
    or pass from one to the other; what [resize] adds is not specified. *)
Theorem autovector_refines_list op v : av_ok v -> Z.of_nat (av_size v) < 2 ^ 64 ->
  (forall other, op = AvCopy other -> av_ok other) -> av_refines (av_contents v) op (av_run op v).
Proof.
  intros Hv Hmax Hcopy. pose proof (av_contents_length v Hv) as Hlen.
  assert (forall m : AM unit, wp m (fun _ v' => av_ok v' /\ av_spec (av_contents v) op AvUnit (av_contents v')) v ->
    av_refines (av_contents v) op ((m;; mret AvUnit) v)) as Hunit.
  { intros m (a & v' & Hm & Hs)%wp_run. unfold mbind, M_bind. by rewrite Hm. }
  destruct op as [n|n x| | | |n|x| | |other]; cbn [av_run].
  - unfold mbind, M_bind. rewrite av_index_run by done. destruct (_ !! n) as [x|] eqn:E; [by split; [|constructor]|].
    intros out l' Hs. inversion Hs. congruence.
  - destruct (decide (n < length (av_contents v))%nat) as [Hn|Hn].
    + apply Hunit. eapply wp_conseq; [by apply av_assign_at_ok|]. intros _ v' [Hv' ->]. split; [done|by constructor].
    + unfold av_assign_at, mbind, M_bind, get, assert_that. rewrite (proj2 (Nat.ltb_ge _ _)) by lia. simpl.
      intros out l' Hs. inversion Hs. lia.
  - unfold mbind, M_bind. rewrite av_front_run by done. destruct (head _) eqn:E; [by split; [|constructor]|].
    intros out l' Hs. inversion Hs. congruence.
  - unfold mbind, M_bind. rewrite av_back_run by done. destruct (last _) eqn:E; [by split; [|constructor]|].
    intros out l' Hs. inversion Hs. congruence.
  - split; [done|]. rewrite <- Hlen. constructor.
  - apply Hunit. eapply wp_conseq; [by apply av_resize_ok|]. intros _ v' (Hv' & Hl & Ht). split; [done|by constructor].
  - apply Hunit. eapply wp_conseq; [by apply av_push_ok|]. intros _ v' [Hv' ->]. split; [done|constructor].
  - destruct (decide (av_contents v = [])) as [E|Hne].
    + unfold av_pop_back, mbind, M_bind, get, assert_that. rewrite av_empty_contents, bool_decide_eq_true_2 by done. simpl.
      intros out l' Hs. inversion Hs as [| | | | | | |l2 x El| |]. rewrite E in El. by apply app_cons_not_nil in El.
    + apply Hunit. eapply wp_conseq; [by apply av_pop_ok|]. intros _ v' (Hv' & x & E). split; [done|by eapply SpPop].
  - apply Hunit. apply wp_modify. destruct Hv. split; [split; simpl; [done|lia|done]|constructor].
  - apply Hunit. eapply wp_conseq; [by apply (av_copy_ok other); [apply Hcopy|]|]. intros _ v' [Hv' ->]. split; [done|constructor].
Qed.
End autovector.

(** A vector of two in the array, and one more. *)
Definition demo_av : autovector Z := mkAutovector 2 [5; 6] [7].

Lemma autovector_refines_list_witness :
  av_refines 2 (av_contents demo_av) AvPop (av_run 0 2 AvPop demo_av) /\
  av_refines 2 (av_contents demo_av) (AvResize 4) (av_run 0 2 (AvResize 4) demo_av) /\
  av_run 0 2 AvBack demo_av = Ok (AvItem 7, demo_av).
Proof.
  split_and!; [apply autovector_refines_list; [by split|done|done]..|reflexivity].
Defined.
