(* ===== verification/ThreadLocal.v ===== *)
(** Thread-local pointers (src/src/util/thread_local.h, thread_local.cc): every
    [ThreadLocalPtr] has an id, every thread a vector of pointers indexed by the
    ids, and the vectors are chained so that a pointer object can reach the
    values of all threads.  Ids are recycled. *)
From S2P Require Import Prelude AutoVector.

(** Pointers, handlers and threads are numbers; [0] is the null pointer.  A
    [ThreadData] has an address; the one of [head_] is [0]. *)
Record ThreadData : Type := mkThreadData {
  entries : list Z;
  td_next : Z;
  td_prev : Z;
}.
Definition with_entries (l : list Z) (d : ThreadData) : ThreadData := mkThreadData l (td_next d) (td_prev d).
Definition with_next (x : Z) (d : ThreadData) : ThreadData := mkThreadData (entries d) x (td_prev d).
Definition with_prev (x : Z) (d : ThreadData) : ThreadData := mkThreadData (entries d) (td_next d) x.

Record StaticMeta : Type := mkStaticMeta {
  next_instance_id_ : Z;
  free_instance_ids_ : autovector Z;
  thread_data : gmap Z ThreadData;      (* the [ThreadData] in memory, [head_] too *)
  next_address : Z;
  handler_map_ : gmap Z Z;
  tls_ : gmap Z Z;                      (* each thread's own [tls_] *)
  unrefs : list (Z * Z);                (* the calls of handlers so far *)
}.

Definition id_kSize : nat := 8.
Definition head_ : Z := 0.

Section setters.
Implicit Types s : StaticMeta.
Definition set_next_id x s := mkStaticMeta x (free_instance_ids_ s) (thread_data s) (next_address s) (handler_map_ s) (tls_ s) (unrefs s).
Definition set_free x s := mkStaticMeta (next_instance_id_ s) x (thread_data s) (next_address s) (handler_map_ s) (tls_ s) (unrefs s).
Definition set_data x s := mkStaticMeta (next_instance_id_ s) (free_instance_ids_ s) x (next_address s) (handler_map_ s) (tls_ s) (unrefs s).
Definition set_address x s := mkStaticMeta (next_instance_id_ s) (free_instance_ids_ s) (thread_data s) x (handler_map_ s) (tls_ s) (unrefs s).
Definition set_handlers x s := mkStaticMeta (next_instance_id_ s) (free_instance_ids_ s) (thread_data s) (next_address s) x (tls_ s) (unrefs s).
Definition set_tls x s := mkStaticMeta (next_instance_id_ s) (free_instance_ids_ s) (thread_data s) (next_address s) (handler_map_ s) x (unrefs s).
Definition set_unrefs x s := mkStaticMeta (next_instance_id_ s) (free_instance_ids_ s) (thread_data s) (next_address s) (handler_map_ s) (tls_ s) x.
End setters.

(** The constructor: [head_] is its own neighbour. *)
Definition new_static_meta : StaticMeta :=
  mkStaticMeta 0 (new_autovector 0 id_kSize) {[head_ := mkThreadData [] head_ head_]} 1 ∅ ∅ [].

Definition LM : Type -> Type := M StaticMeta.

(** ** Memory *)

Definition td (d : Z) : LM ThreadData := fun s => match thread_data s !! d with Some x => Ok (x, s) | None => AssertFail end.
Definition td_update (f : ThreadData -> ThreadData) (d : Z) : LM unit := fun s =>
  match thread_data s !! d with Some x => Ok (tt, set_data (<[d := f x]> (thread_data s)) s) | None => AssertFail end.

Definition on_free {A} (m : M (autovector Z) A) : LM A := zoom free_instance_ids_ set_free m.

(** ** The chain *)

Definition AddThreadData (d : Z) : LM unit :=
  td_update (with_next head_) d;;
  head ← td head_;
  td_update (with_prev (td_prev head)) d;;
  head ← td head_;
  td_update (with_next d) (td_prev head);;
  td_update (with_prev d) head_.

Definition RemoveThreadData (d : Z) : LM unit :=
  x ← td d;
  td_update (with_prev (td_prev x)) (td_next x);;
  x ← td d;
  td_update (with_next (td_next x)) (td_prev x);;
  td_update (with_prev d) d;;
  td_update (with_next d) d.

(** [for (t = head_.next; t != &head_; t = t->next)]; there are no more rounds
    than [ThreadData] in memory. *)
Fixpoint chain_loop {A} (fuel : nat) (body : Z -> A -> LM A) (t : Z) (acc : A) : LM A :=
  match fuel with
  | O => no_fuel
  | S fuel =>
    if t =? head_ then mret acc
    else
      acc ← body t acc;
      x ← td t;
      chain_loop fuel body (td_next x) acc
  end.

Definition for_threads {A} (body : Z -> A -> LM A) (acc : A) : LM A :=
  s ← get;
  head ← td head_;
  chain_loop (S (base.size (thread_data s))) body (td_next head) acc.

(** ** The calling thread's vector *)

Definition GetThreadLocal (thread : Z) : LM Z :=
  s ← get;
  match tls_ s !! thread with
  | Some d => mret d
  | None =>
    let d := next_address s in
    modify (set_address (d + 1));;
    modify (fun s => set_data (<[d := mkThreadData [] 0 0]> (thread_data s)) s);;
    AddThreadData d;;
    modify (fun s => set_tls (<[thread := d]> (tls_ s)) s);;
    mret d
  end.

(** [entries[id].ptr] *)
Definition entry_load (d id : Z) : LM Z :=
  x ← td d;
  match entries x !! Z.to_nat id with Some p => mret p | None => fail end.

Definition entry_exchange (d id p : Z) : LM Z :=
  old ← entry_load d id;
  td_update (fun x => with_entries (<[Z.to_nat id := p]> (entries x)) x) d;;
  mret old.

(** [entries.resize(n)] *)
Definition resize_entries (n : Z) (l : list Z) : list Z := take (Z.to_nat n) l ++ replicate (Z.to_nat n - length l) 0.

Definition in_entries (id : Z) (x : ThreadData) : bool := id <? Z.of_nat (length (entries x)).

Definition reserve_entry (d id : Z) : LM unit :=
  x ← td d;
  if in_entries id x then mret tt
  else td_update (fun x => with_entries (resize_entries (u32 (id + 1)) (entries x)) x) d.

Definition SM_Get (id thread : Z) : LM Z :=
  d ← GetThreadLocal thread;
  x ← td d;
  if in_entries id x then entry_load d id else mret 0.

Definition SM_Reset (id ptr thread : Z) : LM unit :=
  d ← GetThreadLocal thread;
  reserve_entry d id;;
  entry_exchange d id ptr;;
  mret tt.

Definition SM_Swap (id ptr thread : Z) : LM Z :=
  d ← GetThreadLocal thread;
  reserve_entry d id;;
  entry_exchange d id ptr.

(** Whether the pointer is swapped, and [expected] afterwards. *)
Definition SM_CompareAndSwap (id ptr expected thread : Z) : LM (bool * Z) :=
  d ← GetThreadLocal thread;
  reserve_entry d id;;
  cur ← entry_load d id;
  if cur =? expected then entry_exchange d id ptr;; mret (true, expected)
  else mret (false, cur).

(** ** All threads *)

Definition SM_Scrape (id : Z) (ptrs : autovector Z) (replacement : Z) : LM (autovector Z) :=
  for_threads (fun t ptrs =>
    x ← td t;
    if in_entries id x then
      ptr ← entry_exchange t id replacement;
      if ptr =? 0 then mret ptrs
      else
        match av_push_back id_kSize ptr ptrs with
        | Ok (_, ptrs) => mret ptrs
        | _ => fail
        end
    else mret ptrs) ptrs.

Definition SM_Fold {A} (id : Z) (func : Z -> A -> A) (res : A) : LM A :=
  for_threads (fun t res =>
    x ← td t;
    if in_entries id x then
      ptr ← entry_load t id;
      mret (if ptr =? 0 then res else func ptr res)
    else mret res) res.

(** ** Ids and handlers *)

Definition SetHandler (id handler : Z) : LM unit := modify (fun s => set_handlers (<[id := handler]> (handler_map_ s)) s).
Definition GetHandler (id : Z) : LM Z := s ← get; mret (default 0 (handler_map_ s !! id)).

(** [unref(ptr)]: a call out of the component. *)
Definition call_unref (unref ptr : Z) : LM unit := modify (fun s => set_unrefs (unrefs s ++ [(unref, ptr)]) s).

Definition GetId : LM Z :=
  s ← get;
  if av_empty (free_instance_ids_ s) then
    modify (set_next_id (u32 (next_instance_id_ s + 1)));;
    mret (next_instance_id_ s)
  else
    id ← on_free (av_back id_kSize);
    on_free av_pop_back;;
    mret id.

Definition PeekId : LM Z :=
  s ← get;
  if av_empty (free_instance_ids_ s) then mret (next_instance_id_ s) else on_free (av_back id_kSize).

Definition ReclaimId (id : Z) : LM unit :=
  unref ← GetHandler id;
  for_threads (fun t _ =>
    x ← td t;
    if in_entries id x then
      ptr ← entry_exchange t id 0;
      if negb (ptr =? 0) && negb (unref =? 0) then call_unref unref ptr else mret tt
    else mret tt) tt;;
  SetHandler id 0;;
  on_free (av_push_back id_kSize id).

(** ** The end of a thread: called when its [tls_] is not null *)

Fixpoint unref_entries (id : Z) (l : list Z) : LM unit :=
  match l with
  | [] => mret tt
  | raw :: l =>
    (if raw =? 0 then mret tt
     else
       unref ← GetHandler id;
       if unref =? 0 then mret tt else call_unref unref raw);;
    unref_entries (u32 (id + 1)) l
  end.

Definition OnThreadExit (thread tls : Z) : LM unit :=
  modify (fun s => set_tls (delete thread (tls_ s)) s);;
  RemoveThreadData tls;;
  x ← td tls;
  unref_entries 0 (entries x);;
  modify (fun s => set_data (delete tls (thread_data s)) s).

Definition thread_exit (thread : Z) : LM unit :=
  s ← get;
  match tls_ s !! thread with None => mret tt | Some tls => OnThreadExit thread tls end.

(** ** [ThreadLocalPtr] *)

Definition new_ThreadLocalPtr (handler : Z) : LM Z :=
  id ← GetId;
  (if handler =? 0 then mret tt else SetHandler id handler);;
  mret id.

(** ** The chain as a list *)

Section links.
Implicit Types h : gmap Z ThreadData.

(** [b] follows [a]. *)
Definition linked h (a b : Z) : Prop := td_next <$> h !! a = Some b /\ td_prev <$> h !! b = Some a.

(** From [a] through [xs] to [b]. *)
Fixpoint path h (a : Z) (xs : list Z) (b : Z) : Prop :=
  match xs with
  | [] => linked h a b
  | x :: xs => linked h a x /\ path h x xs b
  end.

Definition chained h (xs : list Z) : Prop := path h head_ xs head_ /\ NoDup (head_ :: xs).

(** [h'] has the links of [h] out of [a] and [xs] and into [xs] and [b]. *)
Definition same_next h h' (a : Z) : Prop := td_next <$> h' !! a = td_next <$> h !! a.
Definition same_prev h h' (a : Z) : Prop := td_prev <$> h' !! a = td_prev <$> h !! a.

Lemma path_frame h h' xs : forall a b, Forall (same_next h h') (a :: xs) -> Forall (same_prev h h') (xs ++ [b]) ->
  path h a xs b -> path h' a xs b.
Proof.
  induction xs as [|x xs IH]; simpl; intros a b Hn Hp.
  - apply Forall_inv in Hn, Hp. unfold same_next, same_prev, linked in *. by rewrite Hn, Hp.
  - intros [Hl Hr]. apply Forall_cons in Hn as [Hna Hn]. apply Forall_cons in Hp as [Hpx Hp]. split; [|by apply IH].
    unfold same_next, same_prev, linked in *. by rewrite Hna, Hpx.
Qed.

Lemma path_app h xs ys : forall a m b, path h a (xs ++ m :: ys) b <-> path h a xs m /\ path h m ys b.
Proof. induction xs as [|x xs IH]; intros a m b; simpl; [done|]. rewrite IH. tauto. Qed.

Definition end_of (a : Z) (xs : list Z) : Z := default a (last xs).

Lemma end_of_cons a x xs : end_of a (x :: xs) = end_of x xs.
Proof. unfold end_of. rewrite last_cons. by destruct (last xs). Qed.

Lemma end_of_in a xs : end_of a xs ∈ a :: xs.
Proof.
  unfold end_of. destruct (last xs) as [x|] eqn:E; [|by left]. right. by apply last_Some_elem_of.
Qed.

Lemma path_last h xs : forall a b, path h a xs b -> linked h (end_of a xs) b.
Proof. induction xs as [|x xs IH]; intros a b; [done|]. rewrite end_of_cons. intros [_ Hp]. by apply IH. Qed.

(** A path that ends elsewhere. *)
Lemma path_redirect h h' n ys : forall a d, path h a ys d -> NoDup (a :: ys) -> linked h' (end_of a ys) n ->
  (forall x, x ∈ a :: ys -> x <> end_of a ys -> same_next h h' x) -> (forall x, x ∈ ys -> same_prev h h' x) -> path h' a ys n.
Proof.
  induction ys as [|y ys IH]; intros a d; [done|]. rewrite end_of_cons. intros [[Hn Hp] Hr] Hnd Hl Hnext Hprev.
  apply NoDup_cons in Hnd as [Ha Hnd]. split.
  - split.
    + rewrite <- Hn. apply Hnext; [by left|]. intros E. pose proof (end_of_in y ys) as Hin. rewrite <- E in Hin. done.
    + rewrite <- Hp. apply Hprev. by left.
  - eapply IH; [exact Hr|done|done| |].
    + intros x Hx. apply Hnext. by right.
    + intros x Hx. apply Hprev. by right.
Qed.

Lemma chained_add h h' xs d : chained h xs -> d ∉ head_ :: xs -> linked h' (end_of head_ xs) d -> linked h' d head_ ->
  (forall x, x <> end_of head_ xs -> x <> d -> same_next h h' x) -> (forall x, x <> d -> x <> head_ -> same_prev h h' x) ->
  chained h' (xs ++ [d]).
Proof.
  intros [Hp Hnd] Hd Hl1 Hl2 Hn Hv. split.
  - apply path_app. split; [|exact Hl2]. eapply path_redirect; [exact Hp|exact Hnd|exact Hl1| |].
    + intros x Hx Hne. apply Hn; [done|]. by intros ->.
    + apply NoDup_cons in Hnd as [Hh _]. intros x Hx. apply Hv; [|by intros ->]. intros ->. apply Hd. by right.
  - rewrite app_comm_cons. apply NoDup_app. split_and!; [done| |by apply NoDup_singleton].
    intros x Hx ->%list_elem_of_singleton. done.
Qed.

Lemma chained_remove h h' ys d zs n : chained h (ys ++ d :: zs) -> linked h d n -> linked h' (end_of head_ ys) n ->
  (forall x, x <> end_of head_ ys -> x <> d -> same_next h h' x) -> (forall x, x <> n -> x <> d -> same_prev h h' x) ->
  chained h' (ys ++ zs).
Proof.
  intros [Hp Hnd] Hdn Hl Hn Hv. apply path_app in Hp as [Hp1 Hp2].
  assert (NoDup (head_ :: ys ++ zs) /\ d ∉ head_ :: ys ++ zs) as [Hnd' Hd].
  { rewrite app_comm_cons in Hnd |- *. rewrite <- Permutation_middle in Hnd. by apply NoDup_cons in Hnd as [? ?]. }
  split; [|done]. assert (NoDup (head_ :: ys)) as Hny by (rewrite app_comm_cons in Hnd'; by apply NoDup_app in Hnd' as [? _]).
  assert (forall m, m = n -> m ∉ ys -> path h' head_ ys m) as Hfirst.
  { intros m -> Hm. eapply path_redirect; [exact Hp1|exact Hny|exact Hl| |].
    - intros x Hx Hne. apply Hn; [done|]. intros ->. apply Hd. rewrite app_comm_cons. apply elem_of_app. by left.
    - intros x Hx. apply Hv; [by intros ->|]. intros ->. apply Hd. right. apply elem_of_app. by left. }
  assert (td_next <$> h !! d = Some n) as Ed by apply Hdn.
  destruct zs as [|z zs]; simpl in Hp2.
  - destruct Hp2 as [E _]. rewrite E in Ed. injection Ed as <-. rewrite app_nil_r. apply Hfirst; [done|].
    by apply NoDup_cons in Hny as [? _].
  - destruct Hp2 as [[E _] Hp2]. rewrite E in Ed. injection Ed as <-. apply path_app.
    rewrite app_comm_cons in Hnd', Hd. apply NoDup_app in Hnd' as (_ & Hdis & Hnz). split.
    + apply Hfirst; [done|]. intros Hz. apply (Hdis z); [by right|by left].
    + apply NoDup_cons in Hnz as [Hzz Hnz]. eapply path_frame; [| |exact Hp2]; apply Forall_forall; intros x Hx.
      * apply Hn.
        -- intros ->. apply (Hdis (end_of head_ ys)); [apply end_of_in|done].
        -- intros ->. apply Hd. apply elem_of_app. by right.
      * apply elem_of_app in Hx as [Hx| ->%list_elem_of_singleton].
        -- apply Hv; [by intros ->|]. intros ->. apply Hd, elem_of_app. right. by right.
        -- apply Hv; [intros E0|intros E0].
           ++ subst z. apply (Hdis head_); by left.
           ++ subst d. apply Hd, elem_of_app. left. by left.
Qed.
End links.

(** ** What the state says *)

(** The vector at an address, a value in it, and the value of a thread. *)
Definition vec (s : StaticMeta) (d : Z) : list Z := default [] (entries <$> thread_data s !! d).
Definition value_at (id : Z) (l : list Z) : Z := default 0 (l !! Z.to_nat id).
Definition cell (s : StaticMeta) (thread id : Z) : Z :=
  match tls_ s !! thread with Some d => value_at id (vec s d) | None => 0 end.

(** The vectors are those of the threads that have one, chained. *)
Record tl_ok (s : StaticMeta) (xs : list Z) : Prop := {
  ok_chain : chained (thread_data s) xs;
  ok_dom x : is_Some (thread_data s !! x) <-> x ∈ head_ :: xs;
  ok_address x : x ∈ head_ :: xs -> x < next_address s;
  ok_tls x : x ∈ xs <-> exists t, tls_ s !! t = Some x;
  ok_own t t' x : tls_ s !! t = Some x -> tls_ s !! t' = Some x -> t = t';
}.

(** The parts that no access touches. *)
Definition tl_rest (s : StaticMeta) := (next_instance_id_ s, free_instance_ids_ s, handler_map_ s, unrefs s).

Lemma ok_head s xs : tl_ok s xs -> head_ ∉ xs.
Proof. intros []. destruct ok_chain0 as [_ Hnd]. by apply NoDup_cons in Hnd as [? _]. Qed.

Lemma ok_data s xs t d : tl_ok s xs -> tls_ s !! t = Some d -> d ∈ xs /\ exists x, thread_data s !! d = Some x.
Proof.
  intros Hok Ht. assert (d ∈ xs) as Hd by (apply (ok_tls _ _ Hok); by exists t). split; [done|].
  apply (ok_dom _ _ Hok). by right.
Qed.

Lemma vec_eq s d x : thread_data s !! d = Some x -> vec s d = entries x.
Proof. intros E. unfold vec. by rewrite E. Qed.

(** A change of one vector. *)
Lemma set_vec_ok s xs d x l : tl_ok s xs -> thread_data s !! d = Some x ->
  tl_ok (set_data (<[d := with_entries l x]> (thread_data s)) s) xs /\
  forall d', vec (set_data (<[d := with_entries l x]> (thread_data s)) s) d' = if decide (d' = d) then l else vec s d'.
Proof.
  intros [] Hd. split.
  - split; simpl; try done.
    + destruct ok_chain0 as [Hp Hnd]. split; [|done].
      assert (forall y, same_next (thread_data s) (<[d := with_entries l x]> (thread_data s)) y /\
        same_prev (thread_data s) (<[d := with_entries l x]> (thread_data s)) y) as Hsame.
      { intros y. unfold same_next, same_prev. destruct (decide (y = d)) as [->|Hne]; [|by rewrite !lookup_insert_ne].
        by rewrite lookup_insert_eq, Hd. }
      eapply path_frame; [..|exact Hp]; apply Forall_forall; intros y _; apply Hsame.
    + intros y. rewrite <- ok_dom0, lookup_insert_is_Some'. split; [intros [->|?]; [by rewrite Hd|done]|by right].
  - intros d'. unfold vec. simpl. case_decide as E; [subst d'; by rewrite lookup_insert_eq|by rewrite lookup_insert_ne].
Qed.

Lemma wp_td (Q : ThreadData -> StaticMeta -> Prop) d x s : thread_data s !! d = Some x -> Q x s -> wp (td d) Q s.
Proof. intros E HQ. unfold wp, td. by rewrite E. Qed.

Lemma wp_td_update f d x (Q : unit -> StaticMeta -> Prop) s : thread_data s !! d = Some x ->
  Q tt (set_data (<[d := f x]> (thread_data s)) s) -> wp (td_update f d) Q s.
Proof. intros E HQ. unfold wp, td_update. by rewrite E. Qed.

(** Links and vectors after some writes, case by case. *)
Ltac heap_cases :=
  unfold linked, same_next, same_prev; intros; rewrite ?lookup_insert; repeat case_decide; subst; simplify_eq/=;
  repeat match goal with H : ?m !! ?k = Some _ |- context [?m !! ?k] => rewrite H end; simpl;
  try congruence; try (split; congruence); eauto; try naive_solver.

(** *** A new thread, and the end of one *)

Lemma AddThreadData_spec s xs d x : chained (thread_data s) xs -> d ∉ head_ :: xs -> is_Some (thread_data s !! head_) ->
  (forall y, y ∈ xs -> is_Some (thread_data s !! y)) -> thread_data s !! d = Some x ->
  wp (AddThreadData d) (fun _ s' => exists h, s' = set_data h s /\ chained h (xs ++ [d]) /\
    (forall y, entries <$> h !! y = entries <$> thread_data s !! y)) s.
Proof.
  intros Hc Hd [hd Hhd] Hxs Hx. set (p := end_of head_ xs).
  assert (td_prev hd = p /\ exists dp, thread_data s !! p = Some dp) as [Ep [dp Hdp]].
  { destruct Hc as [Hp _]. apply path_last in Hp as [Hn Hv]. fold p in Hn, Hv. rewrite Hhd in Hv. injection Hv as ->.
    split; [done|]. destruct (thread_data s !! p) eqn:E; [by eexists|done]. }
  assert (d <> head_) as Hdh by (intros ->; apply Hd; by left).
  assert (p <> d) as Hpd by (intros E; apply Hd; rewrite <- E; apply end_of_in).
  unfold AddThreadData. apply wp_bind. eapply wp_td_update; [exact Hx|]. cbn [thread_data set_data].
  apply wp_bind. eapply wp_td; [simpl; rewrite lookup_insert_ne; [exact Hhd|done]|].
  apply wp_bind. eapply wp_td_update; [simpl; apply lookup_insert_eq|]. cbn [thread_data set_data].
  apply wp_bind. eapply wp_td; [simpl; rewrite !lookup_insert_ne; [exact Hhd|done|done]|].
  apply wp_bind. rewrite Ep. eapply wp_td_update; [simpl; rewrite !lookup_insert_ne; [exact Hdp|done|done]|]. cbn [thread_data set_data].
  destruct (decide (p = head_)) as [Eph|Hph].
  - rewrite Eph in *. assert (dp = hd) as -> by congruence.
    eapply wp_td_update; [simpl; apply lookup_insert_eq|]. cbn [thread_data set_data].
    eexists. split; [reflexivity|]. split.
    + eapply chained_add; [exact Hc|exact Hd|..]; fold p; rewrite ?Eph; heap_cases.
    + intros y. heap_cases.
  - eapply wp_td_update; [simpl; rewrite !lookup_insert_ne by done; exact Hhd|]. cbn [thread_data set_data].
    eexists. split; [reflexivity|]. split.
    + eapply chained_add; [exact Hc|exact Hd|..]; fold p; heap_cases.
    + intros y. heap_cases.
Qed.

Lemma RemoveThreadData_spec s ys d zs : chained (thread_data s) (ys ++ d :: zs) ->
  wp (RemoveThreadData d) (fun _ s' => exists h, s' = set_data h s /\ chained h (ys ++ zs) /\
    (forall y, entries <$> h !! y = entries <$> thread_data s !! y)) s.
Proof.
  intros Hc. set (p := end_of head_ ys).
  assert (linked (thread_data s) p d /\ exists n, linked (thread_data s) d n /\ d <> n) as [[Hpn Hpp] (n & [Hn Hnp] & Hdn)].
  { destruct Hc as [Hp Hnd]. apply path_app in Hp as [Hp1 Hp2]. split; [by apply path_last in Hp1|].
    rewrite app_comm_cons in Hnd. apply NoDup_app in Hnd as (_ & Hdis & Hnz). apply NoDup_cons in Hnz as [Hz _].
    destruct zs as [|z zs]; [exists head_|exists z]; (split; [apply Hp2|]).
    - intros ->. apply (Hdis head_); by left.
    - intros ->. apply Hz. by left. }
  assert (p <> d) as Hpd.
  { destruct Hc as [_ Hnd]. rewrite app_comm_cons in Hnd. apply NoDup_app in Hnd as (_ & Hdis & _).
    intros E. apply (Hdis d); [rewrite <- E; apply end_of_in|by left]. }
  destruct (thread_data s !! d) as [x|] eqn:Hx; [|done]. injection Hn as En. injection Hpp as Ep.
  destruct (thread_data s !! n) as [xn|] eqn:Hxn; [|done]. destruct (thread_data s !! p) as [xp|] eqn:Hxp; [|done].
  unfold RemoveThreadData. apply wp_bind. eapply wp_td; [exact Hx|]. rewrite En, Ep.
  apply wp_bind. eapply wp_td_update; [exact Hxn|]. cbn [thread_data set_data].
  apply wp_bind. eapply wp_td; [simpl; rewrite lookup_insert_ne; [exact Hx|done]|]. rewrite En, Ep.
  assert (exists xp', <[n:=with_prev p xn]> (thread_data s) !! p = Some xp' /\ entries xp' = entries xp) as (xp' & Hxp' & Ee).
  { rewrite lookup_insert. case_decide as E; [|by eexists]. exists (with_prev p xn). split; [done|]. simpl. congruence. }
  apply wp_bind. eapply wp_td_update; [exact Hxp'|]. cbn [thread_data set_data].
  apply wp_bind. eapply wp_td_update; [simpl; rewrite !lookup_insert_ne; [exact Hx|done|done]|]. cbn [thread_data set_data].
  eapply wp_td_update; [simpl; apply lookup_insert_eq|]. cbn [thread_data set_data].
  rewrite lookup_insert in Hxp'. eexists. split; [reflexivity|]. split.
  - eapply (chained_remove (thread_data s) _ ys d zs n); [exact Hc| |fold p..].
    + split; [by rewrite Hx; simpl; rewrite En|by rewrite Hxn].
    + case_decide; heap_cases.
    + case_decide; heap_cases.
    + case_decide; heap_cases.
  - intros y. case_decide; heap_cases.
Qed.

(** *** The operations on a thread's own vector *)

(** The state is as before but for memory that holds no values, or none that changed. *)
Definition tl_same (s s' : StaticMeta) : Prop := tl_rest s' = tl_rest s /\ forall t id, cell s' t id = cell s t id.

Lemma tl_same_refl s : tl_same s s.
Proof. done. Qed.

Lemma tl_same_trans s1 s2 s3 : tl_same s1 s2 -> tl_same s2 s3 -> tl_same s1 s3.
Proof. intros [E1 H1] [E2 H2]. split; [congruence|]. intros t id. by rewrite H2. Qed.

Lemma vec_links s h y : (forall y, entries <$> h !! y = entries <$> thread_data s !! y) -> vec (set_data h s) y = vec s y.
Proof. intros He. unfold vec. simpl. by rewrite He. Qed.

Lemma GetThreadLocal_spec thread s xs : tl_ok s xs ->
  wp (GetThreadLocal thread) (fun d s' => exists xs', tl_ok s' xs' /\ tls_ s' !! thread = Some d /\ tl_same s s' /\
    (forall t e, tls_ s !! t = Some e -> tls_ s' !! t = Some e)) s.
Proof.
  intros Hok. pose proof Hok as []. unfold GetThreadLocal. apply wp_bind, wp_get.
  destruct (tls_ s !! thread) as [d|] eqn:Ht; [apply wp_ret; exists xs; by split_and!|].
  apply wp_bind, wp_modify, wp_bind, wp_modify. set (d := next_address s). set (s1 := set_data _ _).
  assert (d ∉ head_ :: xs) as Hd by (intros Hd%ok_address0; unfold d in Hd; lia).
  assert (thread_data s !! d = None) as Hdn.
  { apply eq_None_not_Some. intros Hs%ok_dom0. done. }
  assert (chained (thread_data s1) xs) as Hc1.
  { destruct ok_chain0 as [Hp Hnd]. split; [|done]. eapply path_frame; [..|exact Hp]; apply Forall_forall; intros y Hy;
      unfold same_next, same_prev; simpl; rewrite lookup_insert_ne; try done; intros <-; apply Hd.
    - done.
    - apply elem_of_app in Hy as [Hy|Hy%list_elem_of_singleton]; [by right|rewrite Hy; by left]. }
  assert (forall y, is_Some (thread_data s1 !! y) <-> y ∈ head_ :: xs \/ y = d) as Hdom1.
  { intros y. simpl. rewrite lookup_insert_is_Some', ok_dom0. naive_solver. }
  apply wp_bind. eapply wp_conseq.
  { eapply (AddThreadData_spec s1 xs d); [done|done|apply Hdom1; left; by left| |apply lookup_insert_eq].
    intros y Hy. apply Hdom1. left. by right. }
  intros [] s2 (h & -> & Hc & He). apply wp_bind, wp_modify, wp_ret. set (s2 := set_tls _ _).
  assert (forall y, vec s2 y = vec s y) as Hv.
  { intros y. change (vec (set_data h s1) y = vec s y). rewrite vec_links by done. unfold vec. simpl.
    destruct (decide (d = y)) as [<-|Hne]; [by rewrite lookup_insert_eq, Hdn|by rewrite lookup_insert_ne]. }
  assert (forall y, is_Some (h !! y) <-> y ∈ head_ :: xs \/ y = d) as Hdom.
  { intros y. rewrite <- Hdom1. specialize (He y). destruct (h !! y), (thread_data s1 !! y); try done; by split; intros []. }
  exists (xs ++ [d]). split_and!.
  - split; simpl.
    + done.
    + intros y. rewrite Hdom, !elem_of_cons, elem_of_app, list_elem_of_singleton. naive_solver.
    + intros y Hy. assert (y ∈ head_ :: xs \/ y = d) as [Hy'%ok_address0| ->]; [|lia|lia].
      rewrite elem_of_cons, elem_of_app, list_elem_of_singleton in Hy. rewrite elem_of_cons. tauto.
    + intros y. rewrite elem_of_app, list_elem_of_singleton, ok_tls0. split.
      * intros [[t Hy]| ->]; [exists t; rewrite lookup_insert_ne; [done|congruence]|exists thread; apply lookup_insert_eq].
      * intros [t Hy]. apply lookup_insert_Some in Hy as [[_ <-]|[_ Hy]]; [by right|left; by exists t].
    + intros t t' y Hy Hy'. assert (forall t, tls_ s !! t <> Some d) as Hfresh.
      { intros t0 E. apply Hd. right. apply ok_tls0. by exists t0. }
      apply lookup_insert_Some in Hy as [[<- <-]|[Hne Hy]]; apply lookup_insert_Some in Hy' as [[<- E]|[Hne' Hy']]; try done.
      * by apply Hfresh in Hy'.
      * subst. by apply Hfresh in Hy.
      * by eapply ok_own0.
  - apply lookup_insert_eq.
  - split; [done|]. intros t id. unfold cell. simpl.
    destruct (decide (t = thread)) as [->|Hne].
    + rewrite lookup_insert_eq, Ht. change (value_at id (vec s2 d) = 0). rewrite Hv. unfold vec. by rewrite Hdn.
    + rewrite lookup_insert_ne by done. destruct (tls_ s !! t); [|done]. f_equal. apply Hv.
  - intros t e Hte. simpl. rewrite lookup_insert_ne; [done|congruence].
Qed.

Lemma resize_entries_value id n l : (length l <= Z.to_nat n)%nat -> value_at id (resize_entries n l) = value_at id l.
Proof.
  intros Hl. unfold value_at, resize_entries. rewrite take_ge by lia.
  destruct (decide (Z.to_nat id < length l)%nat); [by rewrite lookup_app_l|]. rewrite (lookup_ge_None_2 l) by lia.
  rewrite lookup_app_r by lia. destruct (decide (Z.to_nat id - length l < Z.to_nat n - length l)%nat).
  - by rewrite lookup_replicate_2.
  - by rewrite lookup_ge_None_2 by (rewrite length_replicate; lia).
Qed.

Lemma reserve_entry_spec id t d s xs : tl_ok s xs -> tls_ s !! t = Some d -> 0 <= id < 2 ^ 32 - 1 ->
  wp (reserve_entry d id) (fun _ s' => tl_ok s' xs /\ tls_ s' = tls_ s /\ tl_same s s' /\
    id < Z.of_nat (length (vec s' d))) s.
Proof.
  intros Hok Ht Hid. destruct (ok_data _ _ _ _ Hok Ht) as [_ [x Hx]]. unfold reserve_entry.
  apply wp_bind. eapply wp_td; [exact Hx|]. unfold in_entries. destruct (Z.ltb_spec id (Z.of_nat (length (entries x)))) as [Hlt|Hge].
  - apply wp_ret. split_and!; [done..|]. by rewrite (vec_eq _ _ _ Hx).
  - eapply wp_td_update; [exact Hx|]. assert (u32 (id + 1) = id + 1) as Eu by (apply Z.mod_small; lia).
    destruct (set_vec_ok s xs d x (resize_entries (u32 (id + 1)) (entries x)) Hok Hx) as [Hok' Hv].
    split_and!; [exact Hok'|done| |].
    + split; [done|]. intros t' id'. unfold cell. simpl. destruct (tls_ s !! t') as [e|]; [|done]. rewrite Hv.
      case_decide as E; [|done]. rewrite E, (vec_eq _ _ _ Hx). apply resize_entries_value. rewrite Eu. lia.
    + rewrite Hv, decide_True by done. unfold resize_entries. rewrite Eu, length_app, length_take, length_replicate. lia.
Qed.

Lemma entry_load_spec (Q : Z -> StaticMeta -> Prop) d id s : is_Some (thread_data s !! d) -> 0 <= id < Z.of_nat (length (vec s d)) ->
  Q (value_at id (vec s d)) s -> wp (entry_load d id) Q s.
Proof.
  intros [x Hx] Hid HQ. rewrite (vec_eq _ _ _ Hx) in *. unfold entry_load. apply wp_bind. eapply wp_td; [exact Hx|].
  destruct (lookup_lt_is_Some_2 (entries x) (Z.to_nat id)) as [p Hp]; [lia|]. unfold value_at in HQ. rewrite Hp in *. by apply wp_ret.
Qed.

(** An exchange, on the vectors. *)
Lemma entry_exchange_vec d id p s xs : tl_ok s xs -> d ∈ xs -> 0 <= id < Z.of_nat (length (vec s d)) ->
  wp (entry_exchange d id p) (fun old s' => old = value_at id (vec s d) /\ tl_ok s' xs /\ tls_ s' = tls_ s /\ tl_rest s' = tl_rest s /\
    forall e, vec s' e = if decide (e = d) then <[Z.to_nat id := p]> (vec s d) else vec s e) s.
Proof.
  intros Hok Hd Hid. assert (is_Some (thread_data s !! d)) as Hs by (apply (ok_dom _ _ Hok); by right).
  pose proof Hs as [x Hx]. unfold entry_exchange. apply wp_bind, entry_load_spec; [done|done|].
  apply wp_bind. eapply wp_td_update; [exact Hx|]. apply wp_ret.
  destruct (set_vec_ok s xs d x (<[Z.to_nat id := p]> (entries x)) Hok Hx) as [Hok' Hv].
  split_and!; try done. intros e. by rewrite Hv, (vec_eq _ _ _ Hx).
Qed.

(** What a store does to the values. *)
Definition cell_set (c : Z -> Z -> Z) (t id p : Z) (t' id' : Z) : Z := if decide (t' = t /\ id' = id) then p else c t' id'.

Lemma entry_exchange_spec t d id p s xs : tl_ok s xs -> tls_ s !! t = Some d -> 0 <= id < Z.of_nat (length (vec s d)) ->
  wp (entry_exchange d id p) (fun old s' => old = cell s t id /\ tl_ok s' xs /\ tl_rest s' = tl_rest s /\
    forall t' id', 0 <= id' -> cell s' t' id' = cell_set (cell s) t id p t' id') s.
Proof.
  intros Hok Ht Hid. destruct (ok_data _ _ _ _ Hok Ht) as [Hd _].
  eapply wp_conseq; [by eapply entry_exchange_vec|]. intros old s' (-> & Hok' & Htls & Hrest & Hv).
  split_and!; [unfold cell; by rewrite Ht|done|done|]. intros t' id' Hid'. unfold cell, cell_set. rewrite Htls.
  destruct (tls_ s !! t') as [e|] eqn:Ht'.
  - rewrite Hv. destruct (decide (e = d)) as [->|Hne].
    + assert (t' = t) as -> by (by eapply (ok_own _ _ Hok)). unfold value_at. destruct (decide (t = t /\ id' = id)) as [[_ ->]|Hn].
      * by rewrite list_lookup_insert_eq by lia.
      * rewrite list_lookup_insert_ne; [done|]. intros E. apply Hn. split; [done|lia].
    + rewrite decide_False; [done|]. intros [-> _]. congruence.
  - rewrite decide_False; [done|]. intros [-> _]. congruence.
Qed.

(** *** The loops over all threads *)

Lemma path_follow h xs todo a : path h a (xs ++ todo) head_ -> td_next <$> h !! end_of a xs = Some (default head_ (head todo)).
Proof.
  destruct todo as [|y todo]; [rewrite app_nil_r; by intros [? _]%path_last|].
  intros [[? _]%path_last _]%path_app. done.
Qed.

Section loops.
Context {A : Type} (body : Z -> A -> LM A) (xs : list Z) (I : list Z -> A -> StaticMeta -> Prop).
Hypothesis body_ok : forall done x todo acc s, xs = done ++ x :: todo -> tl_ok s xs -> I done acc s ->
  wp (body x acc) (fun acc' s' => tl_ok s' xs /\ I (done ++ [x]) acc' s') s.

Lemma chain_loop_spec todo : forall done fuel acc s, xs = done ++ todo -> (length todo < fuel)%nat -> tl_ok s xs -> I done acc s ->
  wp (chain_loop fuel body (default head_ (head todo)) acc) (fun acc' s' => tl_ok s' xs /\ I xs acc' s') s.
Proof using body_ok.
  induction todo as [|x todo IH]; intros dn fuel acc s Hxs Hf Hok HI; (destruct fuel as [|fuel]; [simpl in Hf; lia|]); simpl.
  - rewrite app_nil_r in Hxs. apply wp_ret. split; [done|]. by rewrite Hxs.
  - assert (x ∈ xs) as Hx by (rewrite Hxs; apply elem_of_app; right; by left).
    assert ((x =? head_) = false) as ->.
    { apply Z.eqb_neq. intros ->. by apply (ok_head _ _ Hok). }
    apply wp_bind. eapply wp_conseq; [by eapply body_ok|]. intros acc1 s1 [Hok1 HI1]. apply wp_bind.
    destruct (proj2 (ok_dom _ _ Hok1 x)) as [y Hy]; [by right|]. eapply wp_td; [exact Hy|].
    assert (td_next y = default head_ (head todo)) as ->.
    { destruct (ok_chain _ _ Hok1) as [Hp _]. rewrite Hxs, cons_middle, app_assoc in Hp.
      apply path_follow in Hp. unfold end_of in Hp. rewrite last_snoc in Hp. simpl in Hp. rewrite Hy in Hp. by injection Hp. }
    apply (IH (dn ++ [x])); [by rewrite <- app_assoc|simpl in Hf; lia|done|done].
Qed.

Lemma for_threads_spec acc s : tl_ok s xs -> I [] acc s ->
  wp (for_threads body acc) (fun acc' s' => tl_ok s' xs /\ I xs acc' s') s.
Proof using body_ok.
  intros Hok HI. unfold for_threads. apply wp_bind, wp_get, wp_bind.
  destruct (proj2 (ok_dom _ _ Hok head_)) as [y Hy]; [by left|]. eapply wp_td; [exact Hy|].
  assert (td_next y = default head_ (head xs)) as ->.
  { destruct (ok_chain _ _ Hok) as [Hp _]. apply (path_follow _ []) in Hp. unfold end_of in Hp. simpl in Hp. rewrite Hy in Hp. by injection Hp. }
  apply (chain_loop_spec xs []); [done| |done|done].
  destruct (ok_chain _ _ Hok) as [_ Hnd]. assert (list_to_set (head_ :: xs) ⊆ dom (thread_data s)) as Hsub.
  { intros z Hz%elem_of_list_to_set. apply elem_of_dom. by apply (ok_dom _ _ Hok). }
  apply subseteq_size in Hsub. rewrite size_list_to_set, size_dom in Hsub by done. simpl in Hsub. lia.
Qed.
End loops.

(** The threads that have a value for [id], each once. *)
Definition holders (c : Z -> Z -> Z) (id : Z) (ts : list Z) : Prop := NoDup ts /\ forall t, t ∈ ts <-> c t id <> 0.

Lemma owners s xs : tl_ok s xs -> exists ts, Forall2 (fun t d => tls_ s !! t = Some d) ts xs.
Proof.
  intros Hok. assert (Forall (fun d => exists t, tls_ s !! t = Some d) xs) as HF.
  { apply Forall_forall. intros d Hd. by apply (ok_tls _ _ Hok). }
  clear Hok. induction HF as [|d xs [t Ht] _ [ts IH]]; [by exists []|]. exists (t :: ts). by constructor.
Qed.

Lemma owners_in (f : gmap Z Z) ts xs t : Forall2 (fun t d => f !! t = Some d) ts xs -> t ∈ ts -> exists d, d ∈ xs /\ f !! t = Some d.
Proof.
  induction 1 as [|t' d ts xs Ht _ IH]; intros Hin; [by apply not_elem_of_nil in Hin|].
  apply elem_of_cons in Hin as [->|Hin]; [exists d; split; [by left|done]|]. destruct (IH Hin) as (e & ? & ?).
  exists e. split; [by right|done].
Qed.

Lemma owners_NoDup (f : gmap Z Z) ts xs : Forall2 (fun t d => f !! t = Some d) ts xs -> NoDup xs -> NoDup ts.
Proof.
  induction 1 as [|t d ts xs Ht Hts IH]; [constructor|]. intros [Hd Hnd]%NoDup_cons. constructor; [|by apply IH].
  intros Hin. destruct (owners_in f ts xs t Hts Hin) as (e & He & E). congruence.
Qed.

(** The non-null values for [id], along the chain and thread by thread. *)
Lemma chain_holders s xs id : tl_ok s xs -> exists ts, holders (cell s) id ts /\
  filter (fun p => p <> 0) ((fun d => value_at id (vec s d)) <$> xs) = (fun t => cell s t id) <$> ts.
Proof.
  intros Hok. destruct (owners s xs Hok) as [ts Hts]. exists (filter (fun t => cell s t id <> 0) ts).
  destruct (ok_chain _ _ Hok) as [_ Hnd]. apply NoDup_cons in Hnd as [_ Hnd]. split; [split|].
  - apply NoDup_filter. by eapply owners_NoDup.
  - intros t. rewrite list_elem_of_filter. split; [by intros [? _]|]. intros Hne. split; [done|]. unfold cell in Hne.
    destruct (tls_ s !! t) as [d|] eqn:Ht; [|done]. assert (d ∈ xs) as Hd by (apply (ok_tls _ _ Hok); by exists t).
    apply list_elem_of_lookup in Hd as [i Hi]. destruct (Forall2_lookup_r _ _ _ _ _ Hts Hi) as (t' & Hi' & Ht').
    assert (t = t') as -> by (by eapply (ok_own _ _ Hok)). apply list_elem_of_lookup. by exists i.
  - clear Hnd Hok. induction Hts as [|t d ts xs' Ht _ IH]; [done|]. rewrite !fmap_cons, !filter_cons, IH.
    assert (cell s t id = value_at id (vec s d)) as E by (unfold cell; by rewrite Ht). rewrite E.
    case_decide; [by rewrite fmap_cons, E|done].
Qed.

(** The exchange of a whole column: what the loops of [Scrape] and [ReclaimId] do
    to the vectors, so far. *)
Definition exchanged (id p : Z) (l : list Z) : list Z := if id <? Z.of_nat (length l) then <[Z.to_nat id := p]> l else l.

Record column (s : StaticMeta) (id p : Z) (dn : list Z) (s' : StaticMeta) : Prop := {
  col_tls : tls_ s' = tls_ s;
  col_vec d : vec s' d = if decide (d ∈ dn) then exchanged id p (vec s d) else vec s d;
}.

Lemma column_start s id p : column s id p [] s.
Proof. split; [done|]. intros d. by rewrite decide_False by apply not_elem_of_nil. Qed.

(** One round of such a loop: [col_exchange] is the exchange and what follows it. *)
Lemma column_step {A} s xs id p dn x todo s' (f : Z -> LM A) (g : LM A) (Q : A -> StaticMeta -> Prop) :
  0 <= id -> xs = dn ++ x :: todo -> tl_ok s' xs -> column s id p dn s' ->
  (forall s2, tl_ok s2 xs -> column s id p (dn ++ [x]) s2 -> tl_rest s2 = tl_rest s' ->
    id < Z.of_nat (length (vec s x)) -> wp (f (value_at id (vec s x))) Q s2) ->
  (column s id p (dn ++ [x]) s' -> value_at id (vec s x) = 0 -> wp g Q s') ->
  wp (y ← td x; if in_entries id y then entry_exchange x id p ≫= f else g) Q s'.
Proof.
  intros Hid Hxs Hok [Htls Hvec] Hf Hg.
  assert (x ∈ xs) as Hx by (rewrite Hxs; apply elem_of_app; right; by left).
  assert (x ∉ dn) as Hnx.
  { destruct (ok_chain _ _ Hok) as [_ Hnd]. apply NoDup_cons in Hnd as [_ Hnd]. rewrite Hxs in Hnd.
    apply NoDup_app in Hnd as (_ & Hdis & _). intros Hin. apply (Hdis x Hin). by left. }
  assert (vec s' x = vec s x) as Hvx by (by rewrite Hvec, decide_False).
  destruct (proj2 (ok_dom _ _ Hok x)) as [y Hy]; [by right|]. apply wp_bind. eapply wp_td; [exact Hy|].
  unfold in_entries. rewrite <- (vec_eq _ _ _ Hy), Hvx. destruct (Z.ltb_spec id (Z.of_nat (length (vec s x)))) as [Hlt|Hge].
  - apply wp_bind. eapply wp_conseq; [eapply entry_exchange_vec; [done|done|by rewrite Hvx]|].
    intros old s2 (-> & Hok2 & Htls2 & Hrest & Hv2). rewrite Hvx in Hv2 |- *. apply Hf; [done| |done|done].
    split; [congruence|]. intros d. rewrite Hv2. destruct (decide (d = x)) as [->|Hne].
    + rewrite decide_True by (apply elem_of_app; right; by left). unfold exchanged. by rewrite (proj2 (Z.ltb_lt _ _)).
    + rewrite Hvec. destruct (decide (d ∈ dn)) as [Hd|Hd].
      * by rewrite decide_True by (apply elem_of_app; by left).
      * rewrite decide_False; [done|]. by intros [?| ?%list_elem_of_singleton]%elem_of_app.
  - apply Hg.
    + split; [done|]. intros d. rewrite Hvec. destruct (decide (d ∈ dn)) as [Hd|Hd].
      * by rewrite decide_True by (apply elem_of_app; by left).
      * case_decide as Hin; [|done]. apply elem_of_app in Hin as [?| ->%list_elem_of_singleton]; [done|].
        unfold exchanged. by rewrite (proj2 (Z.ltb_ge _ _)).
    + unfold value_at. by rewrite lookup_ge_None_2 by lia.
Qed.

(** The values once the whole column is exchanged: some threads, with all that
    had a value among them, have [p]. *)
Lemma column_cells s xs id p s' : tl_ok s xs -> column s id p xs s' -> 0 <= id ->
  exists has, (forall t, has t = false -> cell s t id = 0) /\
    forall t id', 0 <= id' -> cell s' t id' = if decide (id' = id /\ has t = true) then p else cell s t id'.
Proof.
  intros Hok [Htls Hvec] Hid.
  exists (fun t => match tls_ s !! t with Some d => id <? Z.of_nat (length (vec s d)) | None => false end). split.
  - intros t. unfold cell. destruct (tls_ s !! t) as [d|]; [|done]. intros Hl%Z.ltb_ge.
    unfold value_at. by rewrite lookup_ge_None_2 by lia.
  - intros t id' Hid'. unfold cell. rewrite Htls. destruct (tls_ s !! t) as [d|] eqn:Ht; [|by rewrite decide_False by naive_solver].
    rewrite Hvec, decide_True by (apply (ok_tls _ _ Hok); by exists t). unfold exchanged.
    destruct (Z.ltb_spec id (Z.of_nat (length (vec s d)))) as [Hlt|Hge]; [|by rewrite decide_False by naive_solver].
    unfold value_at. destruct (decide (id' = id /\ true = true)) as [[-> _]|Hne].
    + by rewrite list_lookup_insert_eq by lia.
    + rewrite list_lookup_insert_ne; [done|]. intros E. apply Hne. split; [lia|done].
Qed.

(** The non-null values in a part of the chain. *)
Definition values_in (s : StaticMeta) (id : Z) (xs : list Z) : list Z := filter (fun p => p <> 0) ((fun d => value_at id (vec s d)) <$> xs).

Lemma values_in_snoc s id dn x : values_in s id (dn ++ [x]) = values_in s id dn ++ (if value_at id (vec s x) =? 0 then [] else [value_at id (vec s x)]).
Proof.
  unfold values_in. rewrite fmap_app, filter_app. f_equal. cbn [fmap list_fmap]. rewrite filter_cons.
  destruct (Z.eqb_spec (value_at id (vec s x)) 0) as [E|E]; [by rewrite decide_False by lia|by rewrite decide_True].
Qed.

Lemma Scrape_spec id ptrs replacement s xs : tl_ok s xs -> 0 <= id -> av_ok id_kSize ptrs ->
  wp (SM_Scrape id ptrs replacement) (fun ptrs' s' => tl_ok s' xs /\ column s id replacement xs s' /\ tl_rest s' = tl_rest s /\
    av_contents ptrs' = av_contents ptrs ++ values_in s id xs) s.
Proof.
  intros Hok Hid Hptrs. unfold SM_Scrape. eapply wp_conseq.
  { eapply (for_threads_spec _ xs (fun dn ptrs' s' => column s id replacement dn s' /\ tl_rest s' = tl_rest s /\
      av_ok id_kSize ptrs' /\ av_contents ptrs' = av_contents ptrs ++ values_in s id dn));
      [|exact Hok|split_and!; [apply column_start|done|done|by rewrite app_nil_r]].
    intros dn x todo acc s1 Hxs Hok1 (Hcol & Hrest & Hacc & Hcont). eapply column_step; [done..| |].
    - intros s2 Hok2 Hcol2 Hrest2 _. destruct (value_at id (vec s x) =? 0) eqn:E.
      + apply wp_ret. rewrite values_in_snoc, E, app_nil_r. split_and!; try done. congruence.
      + pose proof (av_push_ok id_kSize (value_at id (vec s x)) acc Hacc) as (u & acc' & Hrun & Hok' & Hc)%wp_run.
        rewrite Hrun. apply wp_ret. rewrite values_in_snoc, E, Hc, Hcont, app_assoc. split_and!; try done. congruence.
    - intros Hcol2 Hz. apply wp_ret. rewrite values_in_snoc, Hz, app_nil_r. by split_and!. }
  intros ptrs' s' (Hok' & Hcol & Hrest & _ & Hc). by split_and!.
Qed.

Lemma Fold_spec {A} id (func : Z -> A -> A) res s xs : tl_ok s xs -> 0 <= id ->
  wp (SM_Fold id func res) (fun res' s' => s' = s /\ res' = foldl (fun r p => func p r) res (values_in s id xs)) s.
Proof.
  intros Hok Hid. unfold SM_Fold. eapply wp_conseq.
  { eapply (for_threads_spec _ xs (fun dn res' s' => s' = s /\ res' = foldl (fun r p => func p r) res (values_in s id dn)));
      [|exact Hok|done].
    intros dn x todo acc s1 Hxs Hok1 [-> ->]. assert (x ∈ xs) as Hx by (rewrite Hxs; apply elem_of_app; right; by left).
    destruct (proj2 (ok_dom _ _ Hok x)) as [y Hy]; [by right|]. apply wp_bind. eapply wp_td; [exact Hy|].
    unfold in_entries. rewrite <- (vec_eq _ _ _ Hy), values_in_snoc, foldl_app.
    destruct (Z.ltb_spec id (Z.of_nat (length (vec s x)))) as [Hlt|Hge].
    - apply wp_bind, entry_load_spec; [by eexists|done|]. apply wp_ret. split_and!; [done|done|]. by destruct (_ =? 0).
    - apply wp_ret. unfold value_at. rewrite lookup_ge_None_2 by lia. by split_and!. }
  by intros res' s' (_ & -> & ->).
Qed.

(** *** Ids, handlers and the end of a thread *)

Definition called (unref : Z) (ptrs : list Z) : list (Z * Z) := if unref =? 0 then [] else (fun p => (unref, p)) <$> ptrs.

Lemma set_rest_ok (f : StaticMeta -> StaticMeta) s xs : thread_data (f s) = thread_data s -> next_address (f s) = next_address s ->
  tls_ (f s) = tls_ s -> tl_ok s xs -> tl_ok (f s) xs.
Proof. intros E1 E2 E3 []. split; rewrite ?E1, ?E2, ?E3; done. Qed.

Lemma set_rest_column (f : StaticMeta -> StaticMeta) s id p xs s' : thread_data (f s') = thread_data s' ->
  tls_ (f s') = tls_ s' -> column s id p xs s' -> column s id p xs (f s').
Proof. intros E1 E2 []. split; [by rewrite E2|]. intros d. rewrite <- col_vec0. unfold vec. by rewrite E1. Qed.

Lemma ReclaimId_spec id s xs : tl_ok s xs -> 0 <= id -> av_ok id_kSize (free_instance_ids_ s) ->
  wp (ReclaimId id) (fun _ s' => tl_ok s' xs /\ column s id 0 xs s' /\ next_instance_id_ s' = next_instance_id_ s /\
    handler_map_ s' = <[id := 0]> (handler_map_ s) /\ av_ok id_kSize (free_instance_ids_ s') /\
    av_contents (free_instance_ids_ s') = av_contents (free_instance_ids_ s) ++ [id] /\
    unrefs s' = unrefs s ++ called (default 0 (handler_map_ s !! id)) (values_in s id xs)) s.
Proof.
  intros Hok Hid Hfree. unfold ReclaimId, GetHandler. apply wp_bind, wp_bind, wp_get, wp_ret.
  set (u := default 0 (handler_map_ s !! id)). apply wp_bind. eapply wp_conseq.
  { eapply (for_threads_spec _ xs (fun dn _ s' => column s id 0 dn s' /\
      tl_rest s' = (next_instance_id_ s, free_instance_ids_ s, handler_map_ s, unrefs s ++ called u (values_in s id dn))));
      [|exact Hok|split; [apply column_start|]].
    - intros dn x todo [] s1 Hxs Hok1 (Hcol & Hrest). eapply column_step; [done..| |].
      + intros s2 Hok2 Hcol2 Hrest2 _. rewrite values_in_snoc. unfold called in *. rewrite Hrest in Hrest2.
        destruct (value_at id (vec s x) =? 0), (u =? 0); cbn [negb andb]; [apply wp_ret; split_and!; [done..|]; rewrite Hrest2; by rewrite ?app_nil_r..|].
        apply wp_modify. split; [by apply set_rest_ok|]. split; [by apply set_rest_column|].
        unfold tl_rest in *. injection Hrest2 as E1 E2 E3 E4. cbn [set_unrefs next_instance_id_ free_instance_ids_ handler_map_ unrefs].
        rewrite E1, E2, E3, E4, fmap_app. by rewrite <- app_assoc.
      + intros Hcol2 Hz. apply wp_ret. rewrite values_in_snoc, Hz, app_nil_r. by split_and!.
    - unfold values_in, called. simpl. destruct (u =? 0); by rewrite app_nil_r. }
  intros [] s1 (Hok1 & Hcol & [= E1 E2 E3 E4]). apply wp_bind, wp_modify. unfold on_free. apply wp_zoom.
  cbn [set_handlers free_instance_ids_]. rewrite E2. eapply wp_conseq; [by apply av_push_ok|]. intros [] free' [Hf' Hc'].
  split_and!; [|by apply set_rest_column with (f := fun s => set_free free' (set_handlers (<[id:=0]> (handler_map_ s1)) s))|simpl; congruence|simpl; congruence|done|exact Hc'|exact E4].
  by apply set_rest_ok with (f := fun s => set_free free' (set_handlers (<[id:=0]> (handler_map_ s1)) s)).
Qed.

(** The calls at the end of a thread. *)
Fixpoint exit_calls (handlers : gmap Z Z) (id : Z) (l : list Z) : list (Z * Z) :=
  match l with
  | [] => []
  | raw :: l => (if raw =? 0 then [] else called (default 0 (handlers !! id)) [raw]) ++ exit_calls handlers (u32 (id + 1)) l
  end.

Lemma unref_entries_run l : forall id s,
  unref_entries id l s = Ok (tt, set_unrefs (unrefs s ++ exit_calls (handler_map_ s) id l) s).
Proof.
  induction l as [|raw l IH]; intros id s; simpl.
  - rewrite app_nil_r. by destruct s.
  - unfold mbind, M_bind, GetHandler, call_unref, called, get, modify, mbind, M_bind, mret, M_ret.
    destruct (raw =? 0); [by rewrite IH|]. destruct (default 0 (handler_map_ s !! id) =? 0); rewrite IH; [done|].
    simpl. by rewrite <- app_assoc.
Qed.

Lemma exit_calls_spec handlers l : forall k, 0 <= k -> (forall i raw, l !! i = Some raw -> raw <> 0 -> k + Z.of_nat i < 2 ^ 32) ->
  exists ids, NoDup ids /\ (forall j, j ∈ ids <-> k <= j /\ value_at (j - k) l <> 0 /\ default 0 (handlers !! j) <> 0) /\
    exit_calls handlers (u32 k) l = (fun j => (default 0 (handlers !! j), value_at (j - k) l)) <$> ids.
Proof.
  induction l as [|raw l IH]; intros k Hk Hl.
  { exists []. split_and!; [constructor| |done]. intros j. split; [by intros ?%not_elem_of_nil|]. by intros (_ & ? & _). }
  destruct (IH (k + 1)) as (ids & Hnd & Hin & Hcalls); [lia| |].
  { intros i r Hi Hr. specialize (Hl (S i) r Hi Hr). lia. }
  assert (forall j, k + 1 <= j -> value_at (j - k) (raw :: l) = value_at (j - (k + 1)) l) as Hval.
  { intros j Hj. unfold value_at. replace (Z.to_nat (j - k)) with (S (Z.to_nat (j - (k + 1)))) by lia. done. }
  assert (value_at (k - k) (raw :: l) = raw) as Hval0 by (by rewrite Z.sub_diag).
  simpl. assert (u32 (u32 k + 1) = u32 (k + 1)) as -> by (unfold u32; by rewrite Zplus_mod_idemp_l). rewrite Hcalls.
  assert ((fun j => (default 0 (handlers !! j), value_at (j - (k + 1)) l)) <$> ids =
    (fun j => (default 0 (handlers !! j), value_at (j - k) (raw :: l))) <$> ids) as ->.
  { apply list_fmap_ext. intros i j Hij. apply list_elem_of_lookup_2, Hin in Hij. by rewrite Hval by lia. }
  assert (forall j, j ∈ ids <-> k + 1 <= j /\ value_at (j - k) (raw :: l) <> 0 /\ default 0 (handlers !! j) <> 0) as Hin'.
  { intros j. rewrite Hin. split; intros (Hj & Hv & ?); (split; [done|]); [by rewrite Hval|by rewrite Hval in Hv]. }
  clear Hin Hcalls IH. destruct (Z.eqb_spec raw 0) as [Er|Er].
  - exists ids. split_and!; [done| |done]. intros j. rewrite Hin'. split; [intros (? & ? & ?); split; [lia|done]|].
    intros (Hj & Hv & Hh). split; [|done]. destruct (decide (j = k)) as [->|]; [congruence|lia].
  - assert (u32 k = k) as Ek by (apply Z.mod_small; specialize (Hl 0%nat raw eq_refl Er); lia). rewrite Ek. unfold called.
    destruct (Z.eqb_spec (default 0 (handlers !! k)) 0) as [Eh|Eh].
    + exists ids. split_and!; [done| |done]. intros j. rewrite Hin'. split; [intros (? & ? & ?); split; [lia|done]|].
      intros (Hj & Hv & Hh). split; [|done]. destruct (decide (j = k)) as [->|]; [congruence|lia].
    + exists (k :: ids). split_and!.
      * constructor; [|done]. rewrite Hin'. lia.
      * intros j. rewrite elem_of_cons, Hin'. split.
        -- intros [->|(? & ? & ?)]; [by rewrite Hval0|split; [lia|done]].
        -- intros (Hj & Hv & Hh). destruct (decide (j = k)); [by left|right; split; [lia|done]].
      * rewrite fmap_cons. cbn [app fmap list_fmap]. do 2 f_equal. symmetry. exact Hval0.
Qed.

Lemma OnThreadExit_spec t d s xs : tl_ok s xs -> tls_ s !! t = Some d ->
  wp (OnThreadExit t d) (fun _ s' => exists xs', tl_ok s' xs' /\
    (forall t' id, cell s' t' id = if decide (t' = t) then 0 else cell s t' id) /\
    tl_rest s' = (next_instance_id_ s, free_instance_ids_ s, handler_map_ s, unrefs s ++ exit_calls (handler_map_ s) 0 (vec s d))) s.
Proof.
  intros Hok Ht. destruct (ok_data _ _ _ _ Hok Ht) as [Hd [x Hx]]. pose proof Hok as [].
  apply list_elem_of_split in Hd as (ys & zs & ->). unfold OnThreadExit. apply wp_bind, wp_modify.
  set (s1 := set_tls _ _). apply wp_bind. eapply wp_conseq; [by apply (RemoveThreadData_spec s1 ys d zs)|].
  intros [] s2 (h & -> & Hc & He). assert (entries <$> h !! d = Some (entries x)) as Hhd by (rewrite He; simpl; by rewrite Hx).
  destruct (h !! d) as [y|] eqn:Hy; [|done]. injection Hhd as Ey. apply wp_bind. eapply wp_td; [exact Hy|]. rewrite Ey.
  apply wp_bind. unfold wp at 1. rewrite unref_entries_run. apply wp_modify. set (s3 := set_data _ _).
  assert (NoDup (head_ :: ys ++ zs) /\ d ∉ head_ :: ys ++ zs) as [Hnd Hdn].
  { destruct ok_chain0 as [_ Hnd]. rewrite app_comm_cons, <- Permutation_middle in Hnd. by apply NoDup_cons in Hnd as [? ?]. }
  assert (forall e, vec s3 e = if decide (e = d) then [] else vec s e) as Hv.
  { intros e. unfold vec. simpl. rewrite lookup_delete. destruct (decide (d = e)) as [->|Hne]; [by rewrite decide_True|].
    rewrite decide_False by congruence. by rewrite He. }
  assert (forall y, is_Some (thread_data s3 !! y) <-> y ∈ head_ :: ys ++ zs) as Hdom.
  { intros z. simpl. rewrite lookup_delete_is_Some. assert (is_Some (h !! z) <-> is_Some (thread_data s !! z)) as ->.
    { specialize (He z). simpl in He. destruct (h !! z), (thread_data s !! z); try done; by split; intros []. }
    rewrite ok_dom0. rewrite !elem_of_cons, !elem_of_app, elem_of_cons. split.
    - intros [Hne [?|[?|[?|?]]]]; try congruence; tauto.
    - intros Hz. split; [|tauto]. intros <-. apply Hdn. rewrite elem_of_cons, elem_of_app. tauto. }
  exists (ys ++ zs). split_and!.
  - split.
    + split; [|done]. destruct Hc as [Hp _]. eapply path_frame; [..|exact Hp]; apply Forall_forall; intros z Hz;
        unfold same_next, same_prev; simpl; rewrite lookup_delete_ne; try done; intros <-; apply Hdn; [done|].
      apply elem_of_app in Hz as [Hz|Hz%list_elem_of_singleton]; [by right|rewrite Hz; by left].
    + exact Hdom.
    + intros z Hz. apply ok_address0. rewrite elem_of_cons, elem_of_app in *. rewrite elem_of_cons. tauto.
    + intros z. simpl. split.
      * intros Hz. assert (z ∈ ys ++ d :: zs) as Hz' by (rewrite elem_of_app in *; rewrite elem_of_cons; tauto).
        apply ok_tls0 in Hz' as [t' Ht']. exists t'. rewrite lookup_delete_ne; [done|]. intros <-.
        assert (z = d) as -> by congruence. apply Hdn. by right.
      * intros [t' [Hne Ht']%lookup_delete_Some]. assert (z ∈ ys ++ d :: zs) as Hz by (apply ok_tls0; by exists t').
        assert (z <> d) by (intros ->; apply Hne; by eapply ok_own0). rewrite elem_of_app in *. rewrite elem_of_cons in Hz. tauto.
    + intros t1 t2 z. simpl. intros [_ H1]%lookup_delete_Some [_ H2]%lookup_delete_Some. by eapply ok_own0.
  - intros t' id. unfold cell. simpl. rewrite lookup_delete. destruct (decide (t = t')) as [->|Hne]; [by rewrite decide_True|].
    rewrite decide_False by congruence. destruct (tls_ s !! t') as [e|] eqn:Ht'; [|done].
    change (value_at id (vec s3 e) = value_at id (vec s e)). rewrite Hv, decide_False; [done|]. intros ->. apply Hne. by eapply ok_own0.
  - unfold tl_rest. simpl. by rewrite (vec_eq _ _ _ Hx).
Qed.

(** ** What the component promises *)

(** The objects that exist, with their handlers; the value of each thread and
    object, null at first; the calls of handlers. *)
Record TLSpec : Type := mkTLSpec {
  sp_live : gmap Z Z;
  sp_cell : Z -> Z -> Z;
  sp_released : list (Z * Z);
}.

Inductive tl_op : Type :=
| TLNew (handler : Z)
| TLDelete (id : Z)
| TLGet (thread id : Z)
| TLReset (thread id ptr : Z)
| TLSwap (thread id ptr : Z)
| TLCompareAndSwap (thread id ptr expected : Z)
| TLScrape (id replacement : Z)
| TLFold (id : Z)
| TLExit (thread : Z).

(** What a call returns; a [Fold] is run with a function that collects the
    values it is given. *)
Definition tl_run (op : tl_op) : LM (list Z) :=
  match op with
  | TLNew handler => id ← new_ThreadLocalPtr handler; mret [id]
  | TLDelete id => ReclaimId id;; mret []
  | TLGet t id => p ← SM_Get id t; mret [p]
  | TLReset t id p => SM_Reset id p t;; mret []
  | TLSwap t id p => old ← SM_Swap id p t; mret [old]
  | TLCompareAndSwap t id p e => '(ok, e) ← SM_CompareAndSwap id p e t; mret [if (ok : bool) then 1 else 0; e]
  | TLScrape id r => ptrs ← SM_Scrape id (new_autovector 0 id_kSize) r; mret (av_contents ptrs)
  | TLFold id => SM_Fold id (fun p l => l ++ [p]) []
  | TLExit t => thread_exit t;; mret []
  end.

(** A program only uses objects that exist, and has fewer than [2^32 - 1]. *)
Definition tl_allowed (a : TLSpec) (op : tl_op) : Prop :=
  match op with
  | TLNew _ => Z.of_nat (base.size (sp_live a)) < 2 ^ 32 - 1
  | TLDelete id | TLGet _ id | TLReset _ id _ | TLSwap _ id _ | TLCompareAndSwap _ id _ _ | TLScrape id _ | TLFold id => is_Some (sp_live a !! id)
  | TLExit _ => True
  end.

Definition handler_of (a : TLSpec) (id : Z) : Z := default 0 (sp_live a !! id).

Inductive tl_step (a : TLSpec) : tl_op -> list Z -> TLSpec -> Prop :=
| StNew h id : sp_live a !! id = None -> (forall t, sp_cell a t id = 0) ->
    tl_step a (TLNew h) [id] (mkTLSpec (<[id := h]> (sp_live a)) (sp_cell a) (sp_released a))
| StDelete id ts : holders (sp_cell a) id ts ->
    tl_step a (TLDelete id) [] (mkTLSpec (delete id (sp_live a)) (fun t id' => if decide (id' = id) then 0 else sp_cell a t id')
      (sp_released a ++ called (handler_of a id) ((fun t => sp_cell a t id) <$> ts)))
| StGet t id : tl_step a (TLGet t id) [sp_cell a t id] a
| StReset t id p : tl_step a (TLReset t id p) [] (mkTLSpec (sp_live a) (cell_set (sp_cell a) t id p) (sp_released a))
| StSwap t id p : tl_step a (TLSwap t id p) [sp_cell a t id] (mkTLSpec (sp_live a) (cell_set (sp_cell a) t id p) (sp_released a))
| StCas t id p e : sp_cell a t id = e ->
    tl_step a (TLCompareAndSwap t id p e) [1; e] (mkTLSpec (sp_live a) (cell_set (sp_cell a) t id p) (sp_released a))
| StCasFails t id p e : sp_cell a t id <> e -> tl_step a (TLCompareAndSwap t id p e) [0; sp_cell a t id] a
| StScrape id r ts (has : Z -> bool) : holders (sp_cell a) id ts -> (forall t, has t = false -> sp_cell a t id = 0) ->
    tl_step a (TLScrape id r) ((fun t => sp_cell a t id) <$> ts)
      (mkTLSpec (sp_live a) (fun t id' => if decide (id' = id /\ has t = true) then r else sp_cell a t id') (sp_released a))
| StFold id ts : holders (sp_cell a) id ts -> tl_step a (TLFold id) ((fun t => sp_cell a t id) <$> ts) a
| StExit t ids : NoDup ids -> (forall id, id ∈ ids <-> 0 <= id /\ sp_cell a t id <> 0 /\ handler_of a id <> 0) ->
    tl_step a (TLExit t) [] (mkTLSpec (sp_live a) (fun t' id => if decide (t' = t) then 0 else sp_cell a t' id)
      (sp_released a ++ ((fun id => (handler_of a id, sp_cell a t id)) <$> ids))).

(** The relation between the state of the code and the promise. *)
Record tl_refines (s : StaticMeta) (a : TLSpec) : Prop := {
  rf_ok : exists xs, tl_ok s xs;
  rf_cell t id : 0 <= id -> cell s t id = sp_cell a t id;
  rf_free : av_ok id_kSize (free_instance_ids_ s) /\ NoDup (av_contents (free_instance_ids_ s));
  rf_next : 0 <= next_instance_id_ s <= 2 ^ 32 - 1;
  rf_ids id : 0 <= id < next_instance_id_ s <-> id ∈ av_contents (free_instance_ids_ s) \/ is_Some (sp_live a !! id);
  rf_unused id : id ∈ av_contents (free_instance_ids_ s) -> sp_live a !! id = None;
  rf_dead t id : sp_live a !! id = None -> sp_cell a t id = 0;
  rf_handler id : 0 <= id -> default 0 (handler_map_ s !! id) = handler_of a id;
  rf_released : unrefs s = sp_released a;
}.

Definition tl_start : TLSpec := mkTLSpec ∅ (fun _ _ => 0) [].

Lemma start_refines : tl_refines new_static_meta tl_start.
Proof.
  split; try done.
  - exists []. split; simpl; try done.
    + split; [by split|by apply NoDup_singleton].
    + intros x. rewrite list_elem_of_singleton. split; [intros [? [-> _]%lookup_singleton_Some]; done|intros ->; by eexists].
    + intros x ->%list_elem_of_singleton. done.
    + intros x. split; [by intros ?%not_elem_of_nil|by intros [t ?]].
  - split; [apply new_autovector_ok|constructor].
  - intros id. simpl. split; [lia|]. intros [?%not_elem_of_nil|[]]; done.
Qed.

(** ** Refinement *)

Lemma TLSpec_eta a : a = mkTLSpec (sp_live a) (sp_cell a) (sp_released a).
Proof. by destruct a. Qed.

Lemma set_free_same s : set_free (free_instance_ids_ s) s = s.
Proof. by destruct s. Qed.

Lemma set_handlers_same s : set_handlers (handler_map_ s) s = s.
Proof. by destruct s. Qed.

Section refinement.
Context (s : StaticMeta) (a : TLSpec) (refines : tl_refines s a).

Lemma live_range id : is_Some (sp_live a !! id) -> 0 <= id < 2 ^ 32 - 1.
Proof using refines.
  intros Hl. pose proof (rf_next _ _ refines). assert (0 <= id < next_instance_id_ s) by (apply (rf_ids _ _ refines); by right). lia.
Qed.

(** An access changes values only. *)
Lemma refines_access s' xs c : tl_ok s' xs -> tl_rest s' = tl_rest s -> (forall t id, 0 <= id -> cell s' t id = c t id) ->
  (forall t id, sp_live a !! id = None -> c t id = 0) -> tl_refines s' (mkTLSpec (sp_live a) c (sp_released a)).
Proof using refines.
  intros Hok [= E1 E2 E3 E4] Hc Hdead. destruct refines.
  split; rewrite ?E1, ?E2, ?E3, ?E4; try done. by exists xs.
Qed.

Lemma cell_set_dead t id p t' id' : is_Some (sp_live a !! id) -> sp_live a !! id' = None -> cell_set (sp_cell a) t id p t' id' = 0.
Proof using refines.
  intros [h Hl] Hn. unfold cell_set. rewrite decide_False; [by apply (rf_dead _ _ refines)|]. intros [_ ->]. congruence.
Qed.

(** The state with a value exchanged, behind the first look at the thread's vector. *)
Lemma refines_store t id p s1 s' xs : is_Some (sp_live a !! id) -> tl_ok s' xs -> tl_rest s' = tl_rest s1 -> tl_same s s1 ->
  (forall t' id', 0 <= id' -> cell s' t' id' = cell_set (cell s1) t id p t' id') ->
  tl_refines s' (mkTLSpec (sp_live a) (cell_set (sp_cell a) t id p) (sp_released a)).
Proof using refines.
  intros Hl Hok Hr [Hr1 Hc1] Hc. eapply refines_access; [exact Hok|congruence| |].
  - intros t' id' Hid. rewrite Hc by done. unfold cell_set. case_decide; [done|]. rewrite Hc1. by apply (rf_cell _ _ refines).
  - intros t' id' Hn. by apply cell_set_dead.
Qed.

Lemma holders_spec id ts : 0 <= id -> holders (cell s) id ts -> holders (sp_cell a) id ts.
Proof using refines. intros Hid [Hnd Hin]. split; [done|]. intros t. by rewrite Hin, (rf_cell _ _ refines). Qed.

Lemma holders_values id (ts : list Z) : 0 <= id -> (fun t => cell s t id) <$> ts = (fun t => sp_cell a t id) <$> ts.
Proof using refines. intros Hid. apply list_fmap_ext. intros i t _. by apply (rf_cell _ _ refines). Qed.

(** The thread's vector, with room for the id. *)
Lemma reserved t id {B} (k : Z -> LM B) (P : B -> StaticMeta -> Prop) : is_Some (sp_live a !! id) ->
  (forall d s1 xs, tl_ok s1 xs -> tls_ s1 !! t = Some d -> tl_same s s1 -> 0 <= id < Z.of_nat (length (vec s1 d)) -> wp (k d) P s1) ->
  wp (d ← GetThreadLocal t; reserve_entry d id;; k d) P s.
Proof using refines.
  intros Hl Hk. apply live_range in Hl as Hid. destruct (rf_ok _ _ refines) as [xs Hok].
  apply wp_bind. eapply wp_conseq; [by eapply GetThreadLocal_spec|]. intros d s1 (xs1 & Hok1 & Ht & Hsame & _).
  apply wp_bind. eapply wp_conseq; [by apply (reserve_entry_spec id t d s1 xs1)|]. intros [] s2 (Hok2 & Htls & Hsame2 & Hlen).
  eapply Hk; [exact Hok2|congruence|by eapply tl_same_trans|lia].
Qed.

(** A value belongs to an object. *)
Lemma value_live t id : 0 <= id -> cell s t id <> 0 -> is_Some (sp_live a !! id).
Proof using refines.
  intros Hid Hc. rewrite (rf_cell _ _ refines) in Hc by done. destruct (sp_live a !! id) eqn:E; [by eexists|].
  by rewrite (rf_dead _ _ refines) in Hc.
Qed.

Lemma free_size : Z.of_nat (av_size (free_instance_ids_ s)) <= next_instance_id_ s.
Proof using refines.
  destruct (rf_free _ _ refines) as [Hf Hnd]. pose proof (rf_next _ _ refines). rewrite <- (av_contents_length _ _ Hf).
  assert (av_contents (free_instance_ids_ s) ⊆+ seqZ 0 (next_instance_id_ s)) as Hsub.
  { apply NoDup_submseteq; [done|]. intros x Hx. apply elem_of_seqZ. assert (0 <= x < next_instance_id_ s) by (apply (rf_ids _ _ refines); by left). lia. }
  apply submseteq_length in Hsub. rewrite length_seqZ in Hsub. lia.
Qed.

Lemma GetId_spec : tl_allowed a (TLNew 0) -> wp GetId (fun id s' => exists free' next', sp_live a !! id = None /\ 0 <= id < next' /\
  s' = set_free free' (set_next_id next' s) /\ av_ok id_kSize free' /\ NoDup (av_contents free') /\ 0 <= next' <= 2 ^ 32 - 1 /\
  id ∉ av_contents free' /\ (forall j, j ∈ av_contents free' -> sp_live a !! j = None) /\ forall j, 0 <= j < next' <-> j ∈ av_contents free' \/ is_Some (sp_live a !! j) \/ j = id) s.
Proof using refines.
  intros Hroom. simpl in Hroom. destruct (rf_free _ _ refines) as [Hf Hnd]. pose proof (rf_next _ _ refines) as Hnext.
  pose proof free_size as Hsize. unfold GetId. apply wp_bind, wp_get. rewrite (av_empty_contents _ _ Hf). case_bool_decide as E.
  - assert (next_instance_id_ s < 2 ^ 32 - 1) as Hlt.
    { assert (list_to_set (C := gset Z) (seqZ 0 (next_instance_id_ s)) ⊆ dom (sp_live a)) as Hsub.
      { intros x Hx%elem_of_list_to_set%elem_of_seqZ. apply elem_of_dom.
        assert (0 <= x < next_instance_id_ s) as [Hin|?]%(rf_ids _ _ refines) by lia; [|done]. rewrite E in Hin. by apply not_elem_of_nil in Hin. }
      apply subseteq_size in Hsub. rewrite size_list_to_set, size_dom, length_seqZ in Hsub by apply NoDup_seqZ. lia. }
    assert (u32 (next_instance_id_ s + 1) = next_instance_id_ s + 1) as -> by (apply Z.mod_small; lia).
    apply wp_bind, wp_modify, wp_ret. exists (free_instance_ids_ s), (next_instance_id_ s + 1).
    split_and!; try done; try lia.
    + destruct (sp_live a !! next_instance_id_ s) eqn:El; [|done].
      assert (0 <= next_instance_id_ s < next_instance_id_ s) by (apply (rf_ids _ _ refines); right; by eexists). lia.
    + rewrite E. apply not_elem_of_nil.
    + intros j. rewrite E. by intros ?%not_elem_of_nil.
    + intros j. pose proof (rf_ids _ _ refines j). split.
      * intros Hj. destruct (decide (j = next_instance_id_ s)); [tauto|]. assert (0 <= j < next_instance_id_ s) by lia. tauto.
      * intros Hj. destruct (decide (j = next_instance_id_ s)); [lia|]. assert (0 <= j < next_instance_id_ s) by tauto. lia.
  - destruct (av_contents (free_instance_ids_ s)) as [|y l] eqn:El; [done|]. rewrite <- El in *. clear E.
    assert (av_contents (free_instance_ids_ s) <> []) as Hne by (by rewrite El).
    apply wp_bind. unfold on_free. apply wp_zoom. unfold wp. rewrite (av_back_run _ _ Hf) by lia.
    destruct (last (av_contents (free_instance_ids_ s))) as [id|] eqn:Elast; [|by apply last_None in Elast].
    destruct (last_Some (av_contents (free_instance_ids_ s)) id) as [Hsplit _]. destruct (Hsplit Elast) as [l' El'].
    rewrite set_free_same. apply wp_bind, wp_zoom.
    eapply wp_conseq; [by apply (av_pop_ok id_kSize)|]. intros [] free' (Hf' & x & Ex). rewrite El' in Ex.
    apply app_inj_tail in Ex as [El2 ->]. subst l'. apply wp_ret.
    assert (x ∈ av_contents (free_instance_ids_ s)) as Hx by (rewrite El'; apply elem_of_app; right; by left).
    assert (0 <= x < next_instance_id_ s) as Hxr by (apply (rf_ids _ _ refines); by left).
    rewrite El' in Hnd. apply NoDup_app in Hnd as (Hnd & Hdis & _).
    exists free', (next_instance_id_ s). split_and!; try done; try lia.
    + by apply (rf_unused _ _ refines).
    + intros Hin. apply (Hdis x Hin). by left.
    + intros j Hj. apply (rf_unused _ _ refines). rewrite El'. apply elem_of_app. by left.
    + intros j. rewrite (rf_ids _ _ refines), El', elem_of_app, list_elem_of_singleton. tauto.
Qed.

(** One lemma for each call. *)
Definition simulates (op : tl_op) : Prop :=
  wp (tl_run op) (fun out s' => exists a', tl_step a op out a' /\ tl_refines s' a') s.

Lemma sim_new h : tl_allowed a (TLNew h) -> simulates (TLNew h).
Proof using refines.
  intros Hroom. unfold simulates, tl_run, new_ThreadLocalPtr. apply wp_bind, wp_bind. eapply wp_conseq; [by apply GetId_spec|].
  intros id s1 (free' & next' & Hdead & Hid & -> & Hf & Hnd & Hnext & Hfree & Hunused & Hids). apply wp_bind.
  set (s1 := set_free free' _).
  assert (forall hm, (forall j, 0 <= j -> default 0 (hm !! j) = if decide (j = id) then h else default 0 (handler_map_ s !! j)) ->
    tl_refines (set_handlers hm s1) (mkTLSpec (<[id := h]> (sp_live a)) (sp_cell a) (sp_released a))) as Hgoal.
  { intros hm Hhm. pose proof refines as []. split; simpl; try done.
    - destruct rf_ok0 as [xs Hok]. exists xs. by apply (set_rest_ok (fun s => set_handlers hm (set_free free' (set_next_id next' s)))).
    - intros j. rewrite Hids, lookup_insert_is_Some'. naive_solver.
    - intros j Hj. rewrite lookup_insert_ne by (intros ->; done). by apply Hunused.
    - intros t j [Hj _]%lookup_insert_None. by apply rf_dead0.
    - intros j Hj. rewrite Hhm by done. unfold handler_of. simpl. case_decide as E; [rewrite E; by rewrite lookup_insert_eq|].
      rewrite lookup_insert_ne by done. by apply rf_handler0. }
  assert (forall s', tl_refines s' (mkTLSpec (<[id := h]> (sp_live a)) (sp_cell a) (sp_released a)) ->
    exists a', tl_step a (TLNew h) [id] a' /\ tl_refines s' a') as Hstep.
  { intros s' Hs'. eexists. split; [|exact Hs']. constructor; [done|]. intros t. by apply (rf_dead _ _ refines). }
  destruct (Z.eqb_spec h 0) as [Eh|Eh].
  - apply wp_ret, wp_ret, Hstep. rewrite <- (set_handlers_same s1). apply Hgoal.
    intros j Hj. case_decide as E; [|done]. simpl. rewrite E, (rf_handler _ _ refines) by lia. unfold handler_of. by rewrite Hdead, Eh.
  - apply wp_modify, wp_ret, Hstep, Hgoal. intros j Hj. rewrite lookup_insert. repeat case_decide; try congruence; done.
Qed.
Lemma sim_get t id : is_Some (sp_live a !! id) -> simulates (TLGet t id).
Proof using refines.
  intros Hl. apply live_range in Hl as Hid. destruct (rf_ok _ _ refines) as [xs Hok]. unfold simulates, tl_run, SM_Get.
  apply wp_bind, wp_bind. eapply wp_conseq; [by eapply GetThreadLocal_spec|]. intros d s1 (xs1 & Hok1 & Ht & [Hrest Hcell] & _).
  destruct (ok_data _ _ _ _ Hok1 Ht) as [_ [x Hx]].
  assert (exists a', tl_step a (TLGet t id) [value_at id (vec s1 d)] a' /\ tl_refines s1 a') as Hstep.
  { exists a. split.
    - replace (value_at id (vec s1 d)) with (sp_cell a t id); [constructor|].
      rewrite <- (rf_cell _ _ refines), <- Hcell by lia. unfold cell. by rewrite Ht.
    - assert (a = mkTLSpec (sp_live a) (sp_cell a) (sp_released a)) as -> by apply TLSpec_eta.
      eapply refines_access; [done|done| |apply (rf_dead _ _ refines)]. intros t' id' Hid'. rewrite Hcell. by apply (rf_cell _ _ refines). }
  apply wp_bind. eapply wp_td; [exact Hx|]. unfold in_entries. rewrite <- (vec_eq _ _ _ Hx).
  destruct (Z.ltb_spec id (Z.of_nat (length (vec s1 d)))) as [Hlt|Hge].
  - apply entry_load_spec; [by eexists|lia|]. by apply wp_ret.
  - apply wp_ret, wp_ret. unfold value_at in Hstep. by rewrite lookup_ge_None_2 in Hstep by lia.
Qed.

(** A store, after which the old value is known. *)
Lemma stored t d id p s1 xs {B} (k : Z -> LM B) (P : B -> StaticMeta -> Prop) : is_Some (sp_live a !! id) -> tl_ok s1 xs ->
  tls_ s1 !! t = Some d -> tl_same s s1 -> 0 <= id < Z.of_nat (length (vec s1 d)) ->
  (forall s', tl_refines s' (mkTLSpec (sp_live a) (cell_set (sp_cell a) t id p) (sp_released a)) -> wp (k (sp_cell a t id)) P s') ->
  wp (old ← entry_exchange d id p; k old) P s1.
Proof using refines.
  intros Hl Hok Ht Hsame Hid Hk. apply wp_bind. eapply wp_conseq; [by eapply entry_exchange_spec|].
  intros old s' (-> & Hok' & Hrest & Hc). rewrite (proj2 Hsame), (rf_cell _ _ refines) by lia.
  apply Hk. by eapply refines_store.
Qed.

Lemma sim_reset t id p : is_Some (sp_live a !! id) -> simulates (TLReset t id p).
Proof using refines.
  intros Hl. unfold simulates, tl_run, SM_Reset. apply wp_bind, reserved; [done|]. intros d s1 xs Hok Ht Hsame Hid.
  eapply stored; [done..|]. intros s' Hs'. apply wp_ret, wp_ret. eexists. split; [constructor|exact Hs'].
Qed.

Lemma wp_bind_inv {A B} (m : LM A) (k : A -> LM B) (Q : B -> StaticMeta -> Prop) st :
  wp (x ← m; k x) Q st -> wp m (fun x => wp (k x) Q) st.
Proof. clear. unfold wp, mbind, M_bind. by destruct (m st) as [[]| |]. Qed.

Lemma sim_swap t id p : is_Some (sp_live a !! id) -> simulates (TLSwap t id p).
Proof using refines.
  intros Hl. unfold simulates, tl_run, SM_Swap. apply wp_bind, reserved; [done|]. intros d s1 xs Hok Ht Hsame Hid.
  apply wp_bind_inv. eapply stored; [done..|]. intros s' Hs'. apply wp_ret. eexists. split; [constructor|exact Hs'].
Qed.

Lemma sim_cas t id p e : is_Some (sp_live a !! id) -> simulates (TLCompareAndSwap t id p e).
Proof using refines.
  intros Hl. unfold simulates, tl_run, SM_CompareAndSwap. apply wp_bind, reserved; [done|]. intros d s1 xs Hok Ht Hsame Hid.
  destruct (ok_data _ _ _ _ Hok Ht) as [_ [x Hx]]. apply wp_bind, entry_load_spec; [by eexists|done|].
  assert (value_at id (vec s1 d) = sp_cell a t id) as ->.
  { rewrite <- (rf_cell _ _ refines), <- (proj2 Hsame) by lia. unfold cell. by rewrite Ht. }
  destruct (Z.eqb_spec (sp_cell a t id) e) as [He|He].
  - eapply stored; [done..|]. intros s' Hs'. apply wp_ret, wp_ret. eexists. split; [by constructor|exact Hs'].
  - apply wp_ret, wp_ret. exists a. split; [by constructor|]. destruct Hsame as [Hrest Hcell]. rewrite (TLSpec_eta a).
    eapply refines_access; [done|done| |apply (rf_dead _ _ refines)]. intros t' id' Hid'. rewrite Hcell. by apply (rf_cell _ _ refines).
Qed.
Lemma live_values id xs : tl_ok s xs -> 0 <= id ->
  exists ts, holders (sp_cell a) id ts /\ values_in s id xs = (fun t => sp_cell a t id) <$> ts.
Proof using refines.
  intros Hok Hid. destruct (chain_holders s xs id Hok) as (ts & Hts & Hvals). exists ts.
  split; [by apply holders_spec|]. unfold values_in. rewrite Hvals. by apply holders_values.
Qed.

Lemma foldl_collect {X} (l acc : list X) : foldl (fun r p => r ++ [p]) acc l = acc ++ l.
Proof. clear. revert acc. induction l as [|x l IH]; intros acc; simpl; [by rewrite app_nil_r|]. by rewrite IH, <- app_assoc. Qed.

Lemma sim_fold id : is_Some (sp_live a !! id) -> simulates (TLFold id).
Proof using refines.
  intros Hl. apply live_range in Hl as Hid. destruct (rf_ok _ _ refines) as [xs Hok]. unfold simulates, tl_run.
  eapply wp_conseq; [apply (Fold_spec _ _ _ s xs); [done|lia]|]. intros out s' [-> ->]. rewrite foldl_collect.
  destruct (live_values id xs Hok) as (ts & Hts & ->); [lia|]. exists a. split; [by constructor|done].
Qed.

Lemma sim_scrape id r : is_Some (sp_live a !! id) -> simulates (TLScrape id r).
Proof using refines.
  intros Hl. apply live_range in Hl as Hid. destruct (rf_ok _ _ refines) as [xs Hok]. unfold simulates, tl_run. apply wp_bind.
  eapply wp_conseq; [apply (Scrape_spec _ _ _ s xs); [done|lia|apply new_autovector_ok]|].
  intros ptrs s' (Hok' & Hcol & Hrest & Hc). apply wp_ret. rewrite Hc.
  destruct (live_values id xs Hok) as (ts & Hts & ->); [lia|].
  destruct (column_cells _ _ _ _ _ Hok Hcol) as (has & Hhas & Hcells); [lia|].
  eexists. split; [apply (StScrape a id r ts has Hts)|].
  - intros t Ht. rewrite <- (rf_cell _ _ refines) by lia. by apply Hhas.
  - eapply refines_access; [exact Hok'|done| |].
    + intros t id' Hid'. rewrite Hcells by done. case_decide; [done|]. by apply (rf_cell _ _ refines).
    + intros t id' Hn. rewrite decide_False; [by apply (rf_dead _ _ refines)|]. intros [-> _]. rewrite Hn in Hl. by destruct Hl.
Qed.

Lemma sim_delete id : is_Some (sp_live a !! id) -> simulates (TLDelete id).
Proof using refines.
  intros Hl. apply live_range in Hl as Hid. destruct (rf_ok _ _ refines) as [xs Hok]. unfold simulates, tl_run. apply wp_bind.
  destruct (rf_free _ _ refines) as [Hf Hnd]. eapply wp_conseq; [apply (ReclaimId_spec id s xs); [done|lia|done]|].
  intros [] s' (Hok' & Hcol & Hnext & Hhandlers & Hf' & Hfree & Hrel). apply wp_ret.
  destruct (live_values id xs Hok) as (ts & Hts & Evals); [lia|]. rewrite Evals in Hrel.
  destruct (column_cells _ _ _ _ _ Hok Hcol) as (has & Hhas & Hcells); [lia|].
  rewrite (rf_handler _ _ refines) in Hrel by lia. eexists. split; [apply (StDelete a id ts Hts)|].
  assert (id ∉ av_contents (free_instance_ids_ s)) as Hnin.
  { intros Hin%(rf_unused _ _ refines). rewrite Hin in Hl. by destruct Hl. }
  split; simpl.
  - by exists xs.
  - intros t id' Hid'. rewrite Hcells by done. destruct (decide (id' = id)) as [->|Hne].
    + destruct (has t) eqn:Eh; [by rewrite decide_True|]. rewrite decide_False by naive_solver. by apply Hhas.
    + rewrite decide_False by naive_solver. by apply (rf_cell _ _ refines).
  - split; [done|]. rewrite Hfree. apply NoDup_app. split_and!; [done| |apply NoDup_singleton].
    by intros x Hx ->%list_elem_of_singleton.
  - rewrite Hnext. apply (rf_next _ _ refines).
  - intros j. rewrite Hnext, (rf_ids _ _ refines), Hfree, elem_of_app, list_elem_of_singleton, lookup_delete_is_Some.
    destruct (decide (id = j)) as [<-|Hne]; [tauto|]. assert (j <> id) by congruence. tauto.
  - intros j. rewrite Hfree, elem_of_app, list_elem_of_singleton. intros [Hj| ->]; [|by rewrite lookup_delete_eq].
    rewrite lookup_delete_ne; [by apply (rf_unused _ _ refines)|]. by intros ->.
  - intros t j Hj. case_decide as E; [done|]. apply (rf_dead _ _ refines). by rewrite lookup_delete_ne in Hj.
  - intros j Hj. rewrite Hhandlers. unfold handler_of. simpl. destruct (decide (id = j)) as [<-|Hne].
    + by rewrite lookup_insert_eq, lookup_delete_eq.
    + rewrite lookup_insert_ne, lookup_delete_ne by done. by apply (rf_handler _ _ refines).
  - rewrite Hrel. by rewrite (rf_released _ _ refines).
Qed.

Lemma sim_exit t : simulates (TLExit t).
Proof using refines.
  destruct (rf_ok _ _ refines) as [xs Hok]. unfold simulates, tl_run, thread_exit. apply wp_bind, wp_bind, wp_get.
  destruct (tls_ s !! t) as [d|] eqn:Ht.
  - eapply wp_conseq; [by eapply OnThreadExit_spec|]. intros [] s' (xs' & Hok' & Hcells & [= E1 E2 E3 E4]). apply wp_ret.
    assert (forall id, value_at id (vec s d) = cell s t id) as Hval by (intros id; unfold cell; by rewrite Ht).
    destruct (exit_calls_spec (handler_map_ s) (vec s d) 0) as (ids & Hnd & Hin & Hcalls); [done| |].
    { intros i raw Hi Hraw. assert (is_Some (sp_live a !! Z.of_nat i)) as ?%live_range; [|lia].
      apply (value_live t); [lia|]. rewrite <- Hval. unfold value_at. rewrite Nat2Z.id, Hi. done. }
    assert (forall id, id ∈ ids <-> 0 <= id /\ sp_cell a t id <> 0 /\ handler_of a id <> 0) as Hids.
    { intros id. rewrite Hin, Z.sub_0_r, Hval. split; intros (H0 & Hv & Hh); (split; [done|]);
        rewrite ?(rf_cell _ _ refines), ?(rf_handler _ _ refines) in * by done; done. }
    eexists. split; [apply (StExit a t ids Hnd Hids)|].
    assert ((fun j => (default 0 (handler_map_ s !! j), value_at (j - 0) (vec s d))) <$> ids =
      (fun id => (handler_of a id, sp_cell a t id)) <$> ids) as Ecalls.
    { apply list_fmap_ext. intros i id Hi. apply list_elem_of_lookup_2, Hids in Hi as [Hid _].
      by rewrite Z.sub_0_r, Hval, (rf_cell _ _ refines), (rf_handler _ _ refines). }
    rewrite Ecalls in Hcalls. change (u32 0) with 0 in Hcalls. rewrite Hcalls, (rf_released _ _ refines) in E4.
    destruct refines. split; simpl; rewrite ?E1, ?E2, ?E3; try done.
    + by exists xs'.
    + intros t' id Hid. rewrite Hcells. case_decide; [done|]. by apply rf_cell0.
    + intros t' id Hn. case_decide; [done|]. by apply rf_dead0.
  - apply wp_ret, wp_ret. assert (forall id, 0 <= id -> sp_cell a t id = 0) as Hz.
    { intros id Hid. rewrite <- (rf_cell _ _ refines) by done. unfold cell. by rewrite Ht. }
    eexists. split.
    + apply (StExit a t []); [constructor|]. intros id. split; [by intros ?%not_elem_of_nil|]. intros (Hid & Hv & _). by rewrite Hz in Hv.
    + simpl. rewrite app_nil_r. eapply refines_access; [exact Hok|done| |].
      * intros t' id Hid. case_decide as E; [rewrite E; unfold cell; by rewrite Ht|by apply (rf_cell _ _ refines)].
      * intros t' id Hn. case_decide; [done|]. by apply (rf_dead _ _ refines).
Qed.
End refinement.

(** C35: [ThreadLocalPtr] is a table of pointers by thread and object, with
    handlers.  From the start of a program, every call a program may make --
    creation and destruction of an object, [Get], [Reset], [Swap],
    [CompareAndSwap], [Scrape], [Fold] and the end of a thread -- runs without
    fault, returns what the table says and changes it as the table's
    specification says, whatever threads have used the component before and
    whatever ids were recycled: a new object is null in every thread, [Scrape]
    and [Fold] meet the value of every thread that has one exactly once, and
    destruction and the end of a thread call the handlers for exactly the values
    that disappear. *)
Theorem thread_local_refines : tl_refines new_static_meta tl_start /\
  forall s a op, tl_refines s a -> tl_allowed a op ->
    wp (tl_run op) (fun out s' => exists a', tl_step a op out a' /\ tl_refines s' a') s.
Proof.
  split; [apply start_refines|]. intros s a op Hr Ha. destruct op; simpl in Ha.
  - by apply sim_new.
  - by apply sim_delete.
  - by apply sim_get.
  - by apply sim_reset.
  - by apply sim_swap.
  - by apply sim_cas.
  - by apply sim_scrape.
  - by apply sim_fold.
  - by apply sim_exit.
Qed.

(** The first object of a program, with a handler. *)
Example thread_local_refines_witness : tl_allowed tl_start (TLNew 5) /\
  wp (tl_run (TLNew 5)) (fun out s' => exists a', tl_step tl_start (TLNew 5) out a' /\ tl_refines s' a') new_static_meta.
Proof. split; [by vm_compute|]. apply thread_local_refines; [apply start_refines|by vm_compute]. Defined.

(** [Scrape] replaces the values of the threads whose vector reaches the id only:
    thread [1] has seen the first object and not the second. *)
Example scrape_skips_a_thread r :
  wp (first ← new_ThreadLocalPtr 0;
      second ← new_ThreadLocalPtr 0;
      SM_Reset first 7 1;;
      SM_Reset second 8 2;;
      ptrs ← SM_Scrape second (new_autovector 0 id_kSize) r;
      p ← SM_Get second 1;
      q ← SM_Get second 2;
      mret (av_contents ptrs, p, q)) (fun out _ => out = ([8], 0, r)) new_static_meta.
Proof. by vm_compute. Qed.
