(* ===== verification/Histogram.v ===== *)
(** Histograms of 64-bit values (src/src/monitoring/histogram.h, histogram.cc):
    the limits of the buckets, counts that are read and stored one atomic at a
    time, and statistics computed from them in double precision. *)
From S2P Require Import Prelude.
From Stdlib Require Import SpecFloat.

(** ** Doubles: the standard library's specification of IEEE 754, at binary64 *)

Definition dmul : spec_float -> spec_float -> spec_float := SFmul 53 1024.
Definition ddiv : spec_float -> spec_float -> spec_float := SFdiv 53 1024.
Definition dadd : spec_float -> spec_float -> spec_float := SFadd 53 1024.
Definition dsub : spec_float -> spec_float -> spec_float := SFsub 53 1024.
Definition dsqrt : spec_float -> spec_float := SFsqrt 53 1024.

(** [static_cast<double>] of an integer, and of a double to [uint64_t], which is
    defined when the truncated value fits. *)
Definition to_double (n : Z) : spec_float := binary_normalize 53 1024 n 0 false.

Definition to_u64 (x : spec_float) : option Z :=
  match x with
  | S754_zero _ => Some 0
  | S754_finite false m e => let n := Z.shiftl (Z.pos m) e in if n <? 2 ^ 64 then Some n else None
  | _ => None
  end.

Definition kMaxUint64 : Z := 2 ^ 64 - 1.

(** ** The buckets *)

Record HistogramBucketMapper : Type := mkMapper {
  bucketValues_ : list Z;
  maxBucketValue_ : Z;
  minBucketValue_ : Z;
  valueIndexMap_ : list (Z * Z);        (* in the order of its keys *)
}.

Fixpoint map_assign (k v : Z) (m : list (Z * Z)) : list (Z * Z) :=
  match m with
  | [] => [(k, v)]
  | (k', v') :: m' => if k <? k' then (k, v) :: m else if k =? k' then (k, v) :: m' else (k', v') :: map_assign k v m'
  end.

(** [lower_bound]: the first entry whose key is not less. *)
Fixpoint lower_bound (k : Z) (m : list (Z * Z)) : option (Z * Z) :=
  match m with
  | [] => None
  | (k', v) :: m => if k <=? k' then Some (k', v) else lower_bound k m
  end.

(** The two most significant digits: a limit has at most twenty. *)
Fixpoint two_digits (fuel : nat) (back pow_of_ten : Z) : option (Z * Z) :=
  match fuel with
  | O => None
  | S fuel => if 10 <? back / 10 then two_digits fuel (back / 10) (u64 (pow_of_ten * 10)) else Some (back, pow_of_ten)
  end.

Definition one_and_a_half : spec_float := S754_finite false 3 (-1).

Fixpoint mapper_loop (fuel : nat) (bucket_val : spec_float) (values : list Z) (indices : list (Z * Z)) : option (list Z * list (Z * Z)) :=
  match fuel with
  | O => None
  | S fuel =>
    let bucket_val := dmul one_and_a_half bucket_val in
    if SFleb bucket_val (to_double kMaxUint64) then
      back ← to_u64 bucket_val;
      '(back, pow_of_ten) ← two_digits 20 back 1;
      let back := u64 (back * pow_of_ten) in
      let values := values ++ [back] in
      mapper_loop fuel bucket_val values (map_assign back (Z.of_nat (length values) - 1) indices)
    else Some (values, indices)
  end.

Definition new_mapper : option HistogramBucketMapper :=
  '(values, indices) ← mapper_loop 110 (to_double 2) [1; 2] (map_assign 2 1 (map_assign 1 0 []));
  back ← last values;
  front ← head values;
  mret (mkMapper values back front indices).

(** The global [bucketMapper]. *)
Definition bucketMapper : HistogramBucketMapper :=
  Eval vm_compute in match new_mapper with Some m => m | None => mkMapper [] 0 0 [] end.

Definition BucketCount : nat := length (bucketValues_ bucketMapper).
Definition LastValue : Z := maxBucketValue_ bucketMapper.
Definition FirstValue : Z := minBucketValue_ bucketMapper.

Definition IndexForValue (value : Z) : Z :=
  if maxBucketValue_ bucketMapper <=? value then Z.of_nat BucketCount - 1
  else if minBucketValue_ bucketMapper <=? value then
    match lower_bound value (valueIndexMap_ bucketMapper) with Some (_, i) => i | None => 0 end
  else 0.

(** ** A histogram *)

Record HistogramStat : Type := mkStat {
  min_ : Z;
  max_ : Z;
  num_ : Z;
  sum_ : Z;
  sum_squares_ : Z;
  buckets_ : list Z;
}.

Section setters.
Implicit Types st : HistogramStat.
Definition set_min x st := mkStat x (max_ st) (num_ st) (sum_ st) (sum_squares_ st) (buckets_ st).
Definition set_max x st := mkStat (min_ st) x (num_ st) (sum_ st) (sum_squares_ st) (buckets_ st).
Definition set_num x st := mkStat (min_ st) (max_ st) x (sum_ st) (sum_squares_ st) (buckets_ st).
Definition set_sum x st := mkStat (min_ st) (max_ st) (num_ st) x (sum_squares_ st) (buckets_ st).
Definition set_sum_squares x st := mkStat (min_ st) (max_ st) (num_ st) (sum_ st) x (buckets_ st).
Definition set_buckets x st := mkStat (min_ st) (max_ st) (num_ st) (sum_ st) (sum_squares_ st) x.
End setters.

Definition HM : Type -> Type := M HistogramStat.

(** The array has 109 elements. *)
Definition kBuckets : nat := 109.
Definition num_buckets_ : nat := BucketCount.

Definition bucket_at (b : nat) : HM Z :=
  st ← get;
  match buckets_ st !! b with Some x => mret x | None => fail end.

Definition bucket_store (b : nat) (x : Z) : HM unit :=
  bucket_at b;;
  modify (fun st => set_buckets (<[b := x]> (buckets_ st)) st).

(** [for (b = 0; b < n; b++)], from [b] on. *)
Fixpoint for_buckets (todo : nat) (b : nat) (body : nat -> HM unit) : HM unit :=
  match todo with O => mret tt | S todo => body b;; for_buckets todo (S b) body end.

Definition Clear : HM unit :=
  modify (set_min LastValue);;
  modify (set_max 0);;
  modify (set_num 0);;
  modify (set_sum 0);;
  modify (set_sum_squares 0);;
  for_buckets num_buckets_ 0 (fun b => bucket_store b 0).

(** The constructor, on an array that holds anything. *)
Definition construct_stat : HM unit :=
  assert_that (num_buckets_ =? kBuckets)%nat;;
  Clear.

Definition Empty : HM bool := st ← get; mret (num_ st =? 0).

Definition Add (value : Z) : HM unit :=
  let index := IndexForValue value in
  assert_that (index <? Z.of_nat num_buckets_);;
  n ← bucket_at (Z.to_nat index);
  bucket_store (Z.to_nat index) (u64 (n + 1));;
  st ← get;
  (if value <? min_ st then modify (set_min value) else mret tt);;
  st ← get;
  (if max_ st <? value then modify (set_max value) else mret tt);;
  st ← get;
  modify (set_num (u64 (num_ st + 1)));;
  st ← get;
  modify (set_sum (u64 (sum_ st + value)));;
  st ← get;
  modify (set_sum_squares (u64 (sum_squares_ st + u64 (value * value)))).

(** [while (better(other, old) && !x.compare_exchange_weak(old, other)) {}]: the
    exchange may fail without reason [spurious] times, and loads the value. *)
Fixpoint exchange_loop (spurious : nat) (better : Z -> Z -> bool) (load : HistogramStat -> Z) (store : Z -> HistogramStat -> HistogramStat)
    (other old : Z) : HM unit :=
  if better other old then
    st ← get;
    match spurious with
    | S spurious => exchange_loop spurious better load store other (load st)
    | O => if load st =? old then modify (store other) else no_fuel
    end
  else mret tt.

(** [spurious] is how often the two exchanges fail. *)
Definition Merge (spurious : nat * nat) (other : HistogramStat) : HM unit :=
  st ← get;
  exchange_loop (fst spurious) Z.ltb min_ set_min (min_ other) (min_ st);;
  st ← get;
  exchange_loop (snd spurious) Z.gtb max_ set_max (max_ other) (max_ st);;
  modify (fun st => set_num (u64 (num_ st + num_ other)) st);;
  modify (fun st => set_sum (u64 (sum_ st + sum_ other)) st);;
  modify (fun st => set_sum_squares (u64 (sum_squares_ st + sum_squares_ other)) st);;
  for_buckets num_buckets_ 0 (fun b =>
    match buckets_ other !! b with
    | Some x => n ← bucket_at b; bucket_store b (u64 (n + x))
    | None => fail
    end).

(** ** Statistics *)

Definition BucketLimit (b : nat) : HM Z :=
  assert_that (b <? BucketCount)%nat;;
  match bucketValues_ bucketMapper !! b with Some x => mret x | None => fail end.

(** One value of a bucket is found: scale linearly within the bucket. *)
Definition percentile_in (b : nat) (bucket_value cumulative_sum : Z) (threshold : spec_float) : HM spec_float :=
  left_point ← (if (b =? 0)%nat then mret 0 else BucketLimit (b - 1));
  right_point ← BucketLimit b;
  let left_sum := u64 (cumulative_sum - bucket_value) in
  let right_sum := cumulative_sum in
  let right_left_diff := u64 (right_sum - left_sum) in
  let pos := if right_left_diff =? 0 then S754_zero false else ddiv (dsub threshold (to_double left_sum)) (to_double right_left_diff) in
  let r := dadd (to_double left_point) (dmul (to_double (u64 (right_point - left_point))) pos) in
  st ← get;
  let cur_min := min_ st in
  let cur_max := max_ st in
  let r := if SFltb r (to_double cur_min) then to_double cur_min else r in
  let r := if SFltb (to_double cur_max) r then to_double cur_max else r in
  mret r.

Fixpoint percentile_loop (todo b : nat) (cumulative_sum : Z) (threshold : spec_float) : HM spec_float :=
  match todo with
  | O => st ← get; mret (to_double (max_ st))
  | S todo =>
    bucket_value ← bucket_at b;
    let cumulative_sum := u64 (cumulative_sum + bucket_value) in
    if SFleb threshold (to_double cumulative_sum) then percentile_in b bucket_value cumulative_sum threshold
    else percentile_loop todo (S b) cumulative_sum threshold
  end.

Definition Percentile (p : spec_float) : HM spec_float :=
  st ← get;
  let threshold := dmul (to_double (num_ st)) (ddiv p (to_double 100)) in
  percentile_loop num_buckets_ 0 0 threshold.

Definition Median : HM spec_float := Percentile (to_double 50).

Definition Average : HM spec_float :=
  st ← get;
  let cur_num := num_ st in
  let cur_sum := sum_ st in
  if cur_num =? 0 then mret (S754_zero false) else mret (ddiv (to_double cur_sum) (to_double cur_num)).

Definition StandardDeviation : HM spec_float :=
  st ← get;
  let cur_num := num_ st in
  let cur_sum := sum_ st in
  let cur_sum_squares := sum_squares_ st in
  if cur_num =? 0 then mret (S754_zero false)
  else
    let variance := ddiv (to_double (u64 (u64 (cur_sum_squares * cur_num) - u64 (cur_sum * cur_sum)))) (to_double (u64 (cur_num * cur_num))) in
    mret (dsqrt variance).

Record HistogramData : Type := mkData {
  median : spec_float;
  percentile95 : spec_float;
  percentile99 : spec_float;
  average : spec_float;
  standard_deviation : spec_float;
  data_max : spec_float;
}.

Definition Data : HM HistogramData :=
  median ← Median;
  p95 ← Percentile (to_double 95);
  p99 ← Percentile (to_double 99);
  st ← get;
  let max := to_double (max_ st) in
  average ← Average;
  deviation ← StandardDeviation;
  mret (mkData median p95 p99 average deviation max).

(** ** The buckets are the right ones *)

Definition kU64 (v : Z) : Prop := 0 <= v < 2 ^ 64.

Lemma bucketMapper_made : new_mapper = Some bucketMapper.
Proof. by vm_compute. Qed.

Lemma bucket_count : num_buckets_ = kBuckets.
Proof. by vm_compute. Qed.

Lemma mapper_indices : valueIndexMap_ bucketMapper = imap (fun i v => (v, Z.of_nat i)) (bucketValues_ bucketMapper).
Proof. by vm_compute. Qed.

Lemma limits_increase : StronglySorted Z.lt (bucketValues_ bucketMapper).
Proof. apply Sorted_StronglySorted; [intros ???; lia|]. vm_compute. repeat constructor. Qed.

Lemma lower_bound_imap v l : forall k, StronglySorted Z.lt l ->
  match lower_bound v (imap (fun i x => (x, Z.of_nat (k + i))) l) with
  | Some (x, i) => exists j, i = Z.of_nat (k + j) /\ l !! j = Some x /\ v <= x /\ forall j' y, (j' < j)%nat -> l !! j' = Some y -> y < v
  | None => forall y, y ∈ l -> y < v
  end.
Proof.
  induction l as [|x l IH]; intros k Hs; [by intros y ?%not_elem_of_nil|]. rewrite imap_cons. simpl.
  apply StronglySorted_inv in Hs as [Hs Hx]. destruct (Z.leb_spec v x) as [Hle|Hlt].
  - exists 0%nat. rewrite Nat.add_0_r. split_and!; [done..|lia].
  - specialize (IH (S k) Hs). assert (imap ((fun i x => (x, Z.of_nat (k + i))) ∘ S) l = imap (fun i x => (x, Z.of_nat (S k + i))) l) as ->.
    { apply imap_ext. intros i y _. simpl. by rewrite Nat.add_succ_r. }
    destruct (lower_bound _ _) as [[y i]|].
    + destruct IH as (j & -> & Hj & Hv & Hb). exists (S j). rewrite Nat.add_succ_r. split_and!; try done.
      intros [|j'] z Hj' Hz; [simpl in Hz; congruence|]. apply (Hb j'); [lia|done].
    + intros y [->|Hy]%elem_of_cons; [done|by apply IH].
Qed.

(** The least limit that is not below the value, and the last one otherwise. *)
Definition right_bucket (v : Z) (b : nat) : Prop :=
  (exists limit, bucketValues_ bucketMapper !! b = Some limit /\ (v <= limit \/ S b = BucketCount)) /\
  forall b' limit, (b' < b)%nat -> bucketValues_ bucketMapper !! b' = Some limit -> limit < v.

Lemma index_right v : 0 <= v -> exists b, IndexForValue v = Z.of_nat b /\ (b < kBuckets)%nat /\ right_bucket v b.
Proof.
  intros Hv. unfold IndexForValue. destruct (Z.leb_spec (maxBucketValue_ bucketMapper) v) as [Hmax|Hmax].
  - exists 108%nat. split_and!; [done|unfold kBuckets; lia|]. split; [by eexists; split; [vm_compute; reflexivity|right]|].
    intros b' limit Hb Hl. enough (limit < maxBucketValue_ bucketMapper) by lia.
    assert (StronglySorted Z.lt (take 108 (bucketValues_ bucketMapper) ++ [maxBucketValue_ bucketMapper])) as Hs by exact limits_increase.
    assert (take 108 (bucketValues_ bucketMapper) !! b' = Some limit) as Hin by (by rewrite lookup_take_lt by lia).
    apply list_elem_of_lookup_2 in Hin. revert Hs Hin. generalize (take 108 (bucketValues_ bucketMapper)). clear.
    intros l. induction l as [|x l IH]; simpl; intros Hs Hin; [by apply not_elem_of_nil in Hin|].
    apply StronglySorted_inv in Hs as [Hs Hx]. apply elem_of_cons in Hin as [->|Hin]; [|by apply IH].
    apply Forall_app in Hx as [_ Hx]. by apply Forall_inv in Hx.
  - destruct (Z.leb_spec (minBucketValue_ bucketMapper) v) as [Hmin|Hmin].
    + rewrite mapper_indices. pose proof (lower_bound_imap v (bucketValues_ bucketMapper) 0 limits_increase) as Hlb. simpl Nat.add in Hlb.
      destruct (lower_bound _ _) as [[x i]|].
      * destruct Hlb as (j & -> & Hj & Hle & Hb). exists j. split_and!; [done|apply lookup_lt_Some in Hj; exact Hj|].
        split; [exists x; split; [done|by left]|]. intros b' limit. apply Hb.
      * assert (maxBucketValue_ bucketMapper < v); [|lia]. apply Hlb. apply list_elem_of_lookup. by exists 108%nat.
    + exists 0%nat. split_and!; [done|unfold kBuckets; lia|]. split; [|lia]. exists 1. split; [done|]. left.
      change (minBucketValue_ bucketMapper) with 1 in Hmin. lia.
Qed.

(** ** What a histogram says of the values added to it *)

Definition zsum (l : list Z) : Z := foldr Z.add 0 l.
Definition square (v : Z) : Z := v * v.
Definition count_in (b : nat) (vs : list Z) : Z := Z.of_nat (length (filter (fun v => IndexForValue v = Z.of_nat b) vs)).

Definition histogram_of (vs : list Z) : HistogramStat :=
  mkStat (foldr Z.min LastValue vs) (foldr Z.max 0 vs) (u64 (Z.of_nat (length vs))) (u64 (zsum vs)) (u64 (zsum (square <$> vs)))
    ((fun b => u64 (count_in b vs)) <$> seq 0 kBuckets).

Lemma u64_add a b : u64 (u64 a + u64 b) = u64 (a + b).
Proof. unfold u64. by rewrite <- Zplus_mod. Qed.

Lemma u64_add_l a b : u64 (u64 a + b) = u64 (a + b).
Proof. unfold u64. by rewrite Zplus_mod_idemp_l. Qed.

Lemma u64_add_r a b : u64 (a + u64 b) = u64 (a + b).
Proof. unfold u64. by rewrite Zplus_mod_idemp_r. Qed.

Lemma zsum_app a b : zsum (a ++ b) = zsum a + zsum b.
Proof. induction a as [|x a IH]; simpl; lia. Qed.

Lemma count_in_app b vs ws : count_in b (vs ++ ws) = count_in b vs + count_in b ws.
Proof. unfold count_in. rewrite filter_app, length_app. lia. Qed.

Lemma min_app vs ws : foldr Z.min LastValue (vs ++ ws) = Z.min (foldr Z.min LastValue vs) (foldr Z.min LastValue ws).
Proof.
  induction vs as [|v vs IH]; simpl; [|rewrite IH; lia]. enough (foldr Z.min LastValue ws <= LastValue) by lia.
  induction ws; simpl; lia.
Qed.

Lemma max_app vs ws : foldr Z.max 0 (vs ++ ws) = Z.max (foldr Z.max 0 vs) (foldr Z.max 0 ws).
Proof.
  induction vs as [|v vs IH]; simpl; [|rewrite IH; lia]. enough (0 <= foldr Z.max 0 ws) by lia.
  induction ws; simpl; lia.
Qed.

(** Two histograms, put together. *)
Definition stat_sum (a b : HistogramStat) : HistogramStat :=
  mkStat (Z.min (min_ a) (min_ b)) (Z.max (max_ a) (max_ b)) (u64 (num_ a + num_ b)) (u64 (sum_ a + sum_ b))
    (u64 (sum_squares_ a + sum_squares_ b)) (zip_with (fun x y => u64 (x + y)) (buckets_ a) (buckets_ b)).

Lemma histogram_app vs ws : histogram_of (vs ++ ws) = stat_sum (histogram_of vs) (histogram_of ws).
Proof.
  unfold histogram_of, stat_sum. cbn [min_ max_ num_ sum_ sum_squares_ buckets_]. f_equal.
  - apply min_app.
  - apply max_app.
  - rewrite u64_add, length_app. f_equal. lia.
  - by rewrite u64_add, zsum_app.
  - by rewrite u64_add, fmap_app, zsum_app.
  - generalize (seq 0 kBuckets). intros l. induction l as [|b l IH]; [done|]. rewrite !fmap_cons. cbn [zip_with]. rewrite IH. f_equal. by rewrite u64_add, count_in_app.
Qed.

Lemma histogram_Permutation vs ws : vs ≡ₚ ws -> histogram_of vs = histogram_of ws.
Proof.
  intros H. unfold histogram_of. f_equal.
  - apply foldr_permutation_proper; [typeclasses eauto..|intros; lia|done].
  - apply foldr_permutation_proper; [typeclasses eauto..|intros; lia|done].
  - by rewrite H.
  - f_equal. unfold zsum. apply foldr_permutation_proper; [typeclasses eauto..|intros; lia|done].
  - f_equal. unfold zsum. apply foldr_permutation_proper; [typeclasses eauto..|intros; lia|by rewrite H].
  - apply list_fmap_ext. intros i b _. unfold count_in. by rewrite H.
Qed.

Lemma buckets_length vs : length (buckets_ (histogram_of vs)) = kBuckets.
Proof. unfold histogram_of. cbn [buckets_]. by rewrite length_fmap, length_seq. Qed.

(** *** Loops over the buckets *)

Lemma bucket_at_run b st x : buckets_ st !! b = Some x -> bucket_at b st = Ok (x, st).
Proof. intros E. unfold bucket_at, mbind, M_bind, get. by rewrite E. Qed.

Lemma bucket_store_run b x y st : buckets_ st !! b = Some y -> bucket_store b x st = Ok (tt, set_buckets (<[b := x]> (buckets_ st)) st).
Proof. intros E. unfold bucket_store, mbind, M_bind. by rewrite (bucket_at_run b st y). Qed.

Lemma for_buckets_run (f : nat -> Z -> Z) (body : nat -> HM unit) todo : forall b st,
  (forall i x st, (i < kBuckets)%nat -> length (buckets_ st) = kBuckets -> buckets_ st !! i = Some x ->
    body i st = Ok (tt, set_buckets (<[i := f i x]> (buckets_ st)) st)) ->
  (b + todo <= kBuckets)%nat -> length (buckets_ st) = kBuckets ->
  for_buckets todo b body st = Ok (tt, set_buckets (imap (fun i x => if decide (b <= i < b + todo)%nat then f i x else x) (buckets_ st)) st).
Proof.
  induction todo as [|todo IH]; intros b st Hbody Hb Hlen; simpl.
  - replace (imap _ (buckets_ st)) with (buckets_ st); [by destruct st|]. apply list_eq. intros i. rewrite list_lookup_imap.
    destruct (buckets_ st !! i); [|done]. simpl. by rewrite decide_False by lia.
  - destruct (lookup_lt_is_Some_2 (buckets_ st) b) as [x Hx]; [lia|]. unfold mbind, M_bind. rewrite (Hbody b x) by (done || lia).
    rewrite IH; [|done|lia|simpl; by rewrite length_insert]. f_equal. f_equal. unfold set_buckets. simpl. f_equal.
    apply list_eq. intros i. rewrite !list_lookup_imap. destruct (decide (i = b)) as [->|Hne].
    + rewrite list_lookup_insert_eq by lia. rewrite Hx. simpl. rewrite decide_False by lia. by rewrite decide_True by lia.
    + rewrite list_lookup_insert_ne by done. destruct (buckets_ st !! i) as [y|]; [|done]. simpl.
      destruct (decide (b <= i < b + S todo)%nat); [rewrite decide_True by lia|rewrite decide_False by lia]; done.
Qed.

Lemma Clear_run st : length (buckets_ st) = kBuckets -> Clear st = Ok (tt, histogram_of []).
Proof.
  intros Hlen. unfold Clear, modify, mbind, M_bind. rewrite bucket_count.
  rewrite (for_buckets_run (fun _ _ => 0)); [|intros i x s _ _ Hx; by rewrite (bucket_store_run _ _ x)|lia|exact Hlen].
  unfold histogram_of, set_buckets. cbn [min_ max_ num_ sum_ sum_squares_ buckets_ set_min set_max set_num set_sum set_sum_squares].
  do 3 f_equal. apply list_eq. intros i. rewrite list_lookup_imap, list_lookup_fmap.
  destruct (decide (i < kBuckets)%nat) as [Hi|Hi].
  - destruct (lookup_lt_is_Some_2 (buckets_ st) i) as [x ->]; [lia|]. rewrite lookup_seq_lt by done. simpl. by rewrite decide_True by lia.
  - rewrite !lookup_ge_None_2; [done|rewrite length_seq; lia|lia].
Qed.

Lemma Add_run v vs : 0 <= v -> Add v (histogram_of vs) = Ok (tt, histogram_of (v :: vs)).
Proof.
  intros Hv. destruct (index_right v Hv) as (b & Hb & Hlt & _). unfold Add. rewrite Hb, Nat2Z.id.
  unfold mbind, M_bind, assert_that. rewrite bucket_count, (proj2 (Z.ltb_lt _ _)) by lia.
  set (n := u64 (count_in b vs)). assert (buckets_ (histogram_of vs) !! b = Some n) as Hn.
  { unfold histogram_of. cbn [buckets_]. by rewrite list_lookup_fmap, lookup_seq_lt. }
  rewrite (bucket_at_run _ _ n), (bucket_store_run _ _ n) by done.
  assert (histogram_of (v :: vs) = mkStat (Z.min v (min_ (histogram_of vs))) (Z.max v (max_ (histogram_of vs))) (u64 (num_ (histogram_of vs) + 1))
    (u64 (sum_ (histogram_of vs) + v)) (u64 (sum_squares_ (histogram_of vs) + u64 (v * v))) (<[b := u64 (n + 1)]> (buckets_ (histogram_of vs)))) as ->.
  { unfold histogram_of at 1. f_equal.
    - unfold histogram_of. cbn [num_]. rewrite u64_add_l. cbn [length]. f_equal. lia.
    - unfold histogram_of. cbn [sum_]. rewrite u64_add_l. cbn [zsum foldr]. fold (zsum vs). f_equal. lia.
    - unfold histogram_of. cbn [sum_squares_]. rewrite u64_add. rewrite fmap_cons. cbn [zsum foldr]. fold (zsum (square <$> vs)). f_equal. unfold square. lia.
    - apply list_eq. intros i. rewrite list_lookup_fmap. destruct (decide (i < kBuckets)%nat) as [Hi|Hi].
      + rewrite lookup_seq_lt by done. simpl fmap. destruct (decide (i = b)) as [->|Hne].
        * rewrite list_lookup_insert_eq by (rewrite buckets_length; lia). f_equal. unfold n. rewrite u64_add_l. unfold count_in.
          rewrite filter_cons_True by done. cbn [length]. f_equal. lia.
        * rewrite list_lookup_insert_ne by done. unfold histogram_of. cbn [buckets_]. rewrite list_lookup_fmap, lookup_seq_lt by done.
          simpl fmap. do 2 f_equal. unfold count_in. rewrite filter_cons_False; [done|]. rewrite Hb. lia.
      + rewrite lookup_ge_None_2 by (rewrite length_seq; lia). rewrite list_lookup_insert_ne by lia.
        rewrite lookup_ge_None_2; [done|]. rewrite buckets_length. lia. }
  generalize (histogram_of vs). clear. intros st. unfold get, modify, mret, M_ret, set_buckets. cbn [min_ max_ num_ sum_ sum_squares_ buckets_].
  destruct (Z.ltb_spec v (min_ st)) as [Hmin|Hmin]; unfold set_min; cbn [min_ max_ num_ sum_ sum_squares_ buckets_];
    destruct (Z.ltb_spec (max_ st) v) as [Hmax|Hmax]; unfold set_max, set_num, set_sum, set_sum_squares; cbn [min_ max_ num_ sum_ sum_squares_ buckets_];
    do 3 f_equal; lia.
Qed.

Lemma exchange_min_run spurious other st : exchange_loop spurious Z.ltb min_ set_min other (min_ st) st = Ok (tt, set_min (Z.min (min_ st) other) st).
Proof.
  assert (forall m, m = min_ st -> set_min m st = st) as Hid by (intros m ->; by destruct st).
  induction spurious as [|n IH]; cbn [exchange_loop]; (destruct (Z.ltb_spec other (min_ st));
    [|unfold mret, M_ret; by rewrite (Hid (Z.min _ _)) by lia]); unfold mbind, M_bind, get; [|exact IH].
  rewrite Z.eqb_refl. unfold modify. by rewrite Z.min_r by lia.
Qed.

Lemma exchange_max_run spurious other st : exchange_loop spurious Z.gtb max_ set_max other (max_ st) st = Ok (tt, set_max (Z.max (max_ st) other) st).
Proof.
  assert (forall m, m = max_ st -> set_max m st = st) as Hid by (intros m ->; by destruct st).
  induction spurious as [|n IH]; cbn [exchange_loop]; rewrite Z.gtb_ltb; (destruct (Z.ltb_spec (max_ st) other);
    [|unfold mret, M_ret; by rewrite (Hid (Z.max _ _)) by lia]); unfold mbind, M_bind, get; [|exact IH].
  rewrite Z.eqb_refl. unfold modify. by rewrite Z.max_r by lia.
Qed.

Lemma Merge_run spurious a b : length (buckets_ a) = kBuckets -> length (buckets_ b) = kBuckets -> Merge spurious b a = Ok (tt, stat_sum a b).
Proof.
  intros Ha Hb. unfold Merge, mbind, M_bind, get. rewrite exchange_min_run, exchange_max_run. unfold modify. rewrite bucket_count.
  rewrite (for_buckets_run (fun i n => u64 (n + default 0 (buckets_ b !! i)))); [|..|exact Ha].
  - destruct a as [amin amax anum asum asq abuckets], b as [bmin bmax bnum bsum bsq bbuckets].
    unfold stat_sum, set_min, set_max, set_num, set_sum, set_sum_squares, set_buckets. cbn [min_ max_ num_ sum_ sum_squares_ buckets_] in *.
    do 3 f_equal. apply list_eq. intros i. rewrite list_lookup_imap, lookup_zip_with. destruct (decide (i < kBuckets)%nat) as [Hi|Hi].
    + destruct (lookup_lt_is_Some_2 abuckets i) as [x ->]; [lia|]. destruct (lookup_lt_is_Some_2 bbuckets i) as [y ->]; [lia|].
      simpl. by rewrite decide_True by lia.
    + by rewrite (lookup_ge_None_2 abuckets) by lia.
  - intros i x st Hi Hlen Hx. destruct (lookup_lt_is_Some_2 (buckets_ b) i) as [y Hy]; [lia|]. rewrite Hy.
    by rewrite (bucket_at_run _ _ x), (bucket_store_run _ _ x).
  - lia.
Qed.

(** ** Percentiles lie between the least and the greatest value *)

Lemma SFltb_irrefl x : SFltb x x = false.
Proof.
  unfold SFltb. destruct x as [s|s| |s m e]; simpl; try done; [by destruct s|].
  destruct s; rewrite Z.compare_refl; change (Pos.compare_cont Eq m m) with (Pos.compare m m); by rewrite Pos.compare_refl.
Qed.

Lemma digits2_log2 p : Z.pos (digits2_pos p) = Z.log2 (Z.pos p) + 1.
Proof.
  assert (digits2_pos p = Pos.size p) as -> by (induction p; simpl; congruence).
  destruct p; simpl; lia.
Qed.

Lemma iter_xO p k : Z.pos (Pos.iter xO p k) = Z.pos p * 2 ^ Z.pos k.
Proof.
  induction k as [|k IH] using Pos.peano_ind; [simpl; lia|]. rewrite Pos.iter_succ, Pos2Z.inj_xO, IH, Pos2Z.inj_succ, Z.pow_succ_r by lia. lia.
Qed.

(** A mantissa of 53 bits is not rounded. *)
Lemma round_full m e : Z.log2 (Z.pos m) = 52 -> -1074 <= e <= 0 -> binary_round_aux 53 1024 false (Z.pos m) e loc_Exact = S754_finite false m e.
Proof.
  intros Hm He. assert (shr_fexp 53 1024 (Z.pos m) e loc_Exact = ({| shr_m := Z.pos m; shr_r := false; shr_s := false |}, e)) as Hs.
  { unfold shr_fexp, fexp, emin. unfold Zdigits2. rewrite digits2_log2, Hm. replace (Z.max _ _ - e) with 0 by lia. done. }
  unfold binary_round_aux. rewrite Hs. simpl. rewrite Hs. simpl. by rewrite (proj2 (Z.leb_le _ _)) by lia.
Qed.

Definition mantissa (n : Z) : Z := n * 2 ^ (52 - Z.log2 n).

Lemma to_double_exact n : 0 < n < 2 ^ 53 -> to_double n = S754_finite false (Z.to_pos (mantissa n)) (Z.log2 n - 52).
Proof.
  intros Hn. destruct n as [|p|p]; try lia. assert (0 <= Z.log2 (Z.pos p) < 53) as Hl by (split; [apply Z.log2_nonneg|apply Z.log2_lt_pow2; lia]).
  unfold to_double, binary_normalize, binary_round, fexp, emin. rewrite digits2_log2.
  replace (Z.max _ _) with (Z.log2 (Z.pos p) - 52) by lia. unfold shl_align, mantissa.
  remember (Z.log2 (Z.pos p)) as d eqn:Ed. rewrite Z.sub_0_r. destruct (d - 52) as [|k|k] eqn:Ek; [|lia|].
  - replace (52 - d) with 0 by lia. change (2 ^ 0) with 1. rewrite Z.mul_1_r. cbn [Z.to_pos]. apply round_full; [rewrite <- Ed; lia|lia].
  - replace (52 - d) with (Z.pos k) by lia. rewrite <- iter_xO. cbn [Z.to_pos]. apply round_full; [|lia].
    rewrite iter_xO, Z.log2_mul_pow2, <- Ed by lia. lia.
Qed.

Lemma to_double_le a b : 0 <= a <= b -> b < 2 ^ 53 -> SFltb (to_double b) (to_double a) = false.
Proof.
  intros Hab Hb. destruct (decide (b = 0)) as [->|Hb0]; [by replace a with 0 by lia|].
  destruct (decide (a = 0)) as [->|Ha0]; [rewrite (to_double_exact b) by lia; done|].
  rewrite !to_double_exact by lia. unfold SFltb, SFcompare. pose proof (Z.log2_le_mono a b ltac:(lia)) as Hl.
  assert (0 <= Z.log2 a) by apply Z.log2_nonneg.
  assert (Z.log2 b < 53) by (apply Z.log2_lt_pow2; lia).
  destruct (Z.compare_spec (Z.log2 b - 52) (Z.log2 a - 52)) as [E|E|E]; [|lia|done].
  change (Pos.compare_cont Eq) with Pos.compare. assert (Z.to_pos (mantissa a) <= Z.to_pos (mantissa b))%positive as Hm.
  { change (Z.pos (Z.to_pos (mantissa a)) <= Z.pos (Z.to_pos (mantissa b))). unfold mantissa.
    rewrite !Z2Pos.id by (apply Z.mul_pos_pos; lia).
    replace (Z.log2 b) with (Z.log2 a) by lia. apply Z.mul_le_mono_nonneg_r; lia. }
  destruct (Pos.compare_spec (Z.to_pos (mantissa b)) (Z.to_pos (mantissa a))); [done|lia|done].
Qed.

(** Within bounds, as doubles. *)
Definition between (st : HistogramStat) (r : spec_float) : Prop :=
  SFltb (to_double (max_ st)) r = false /\ (0 <= min_ st <= max_ st -> max_ st < 2 ^ 53 -> SFltb r (to_double (min_ st)) = false).

Lemma BucketLimit_run b st : (b < kBuckets)%nat -> exists limit, BucketLimit b st = Ok (limit, st).
Proof.
  intros Hb. unfold BucketLimit, mbind, M_bind, assert_that. change BucketCount with kBuckets.
  rewrite (proj2 (Nat.ltb_lt _ _)) by done. destruct (lookup_lt_is_Some_2 (bucketValues_ bucketMapper) b) as [x ->]; [exact Hb|]. by exists x.
Qed.

Lemma percentile_in_spec b value cumulative threshold st : (b < kBuckets)%nat ->
  wp (percentile_in b value cumulative threshold) (fun r st' => st' = st /\ between st r) st.
Proof.
  intros Hb. unfold percentile_in. apply wp_bind, wp_run. assert (exists left, (if (b =? 0)%nat then mret 0 else BucketLimit (b - 1)) st = Ok (left, st)) as [l Hl].
  { destruct (b =? 0)%nat; [by eexists|]. apply BucketLimit_run. lia. }
  exists l, st. split; [done|]. destruct (BucketLimit_run b st Hb) as [r Hr]. apply wp_bind, wp_run. exists r, st. split; [done|].
  apply wp_bind, wp_get, wp_ret. split; [done|]. set (r1 := if SFltb _ (to_double (min_ st)) then _ else _).
  assert (SFltb r1 (to_double (min_ st)) = false) as H1 by (unfold r1; destruct (SFltb _ _) eqn:E; [apply SFltb_irrefl|done]).
  clearbody r1. unfold between. destruct (SFltb (to_double (max_ st)) r1) eqn:E; [|done]. split; [apply SFltb_irrefl|]. intros H2 H3. by apply to_double_le.
Qed.

Lemma percentile_loop_spec threshold st : length (buckets_ st) = kBuckets -> forall todo b cumulative, (b + todo <= kBuckets)%nat ->
  wp (percentile_loop todo b cumulative threshold) (fun r st' => st' = st /\ between st r) st.
Proof.
  intros Hlen. induction todo as [|todo IH]; intros b cumulative Hb; cbn [percentile_loop].
  - apply wp_bind, wp_get, wp_ret. split; [done|]. split; [apply SFltb_irrefl|]. intros. by apply to_double_le.
  - destruct (lookup_lt_is_Some_2 (buckets_ st) b) as [x Hx]; [lia|]. apply wp_bind. unfold wp at 1. rewrite (bucket_at_run _ _ x) by done.
    destruct (SFleb _ _); [apply percentile_in_spec; lia|apply IH; lia].
Qed.

(** ** The deviation *)

(** The sum of the squared differences of all pairs. *)
Fixpoint spread (vs : list Z) : Z := match vs with [] => 0 | v :: vs => zsum ((fun w => square (v - w)) <$> vs) + spread vs end.

Lemma square_sums v vs : zsum ((fun w => square (v - w)) <$> vs) = zsum (square <$> vs) + Z.of_nat (length vs) * square v - 2 * v * zsum vs.
Proof. unfold square. induction vs as [|w vs IH]; [simpl; lia|]. rewrite !fmap_cons. cbn [zsum foldr length]. fold (zsum vs). unfold zsum in *. rewrite IH. lia. Qed.

Lemma spread_sums vs : spread vs = Z.of_nat (length vs) * zsum (square <$> vs) - square (zsum vs).
Proof.
  induction vs as [|v vs IH]; [done|]. cbn [spread]. rewrite IH, square_sums, !fmap_cons. cbn [zsum foldr length].
  fold (zsum vs) (zsum (square <$> vs)).
  generalize (zsum vs) (zsum (square <$> vs)). intros a b. rewrite Nat2Z.inj_succ. unfold square. lia.
Qed.

Lemma spread_nonneg vs : 0 <= spread vs.
Proof.
  induction vs as [|v vs IH]; [done|]. cbn [spread]. enough (0 <= zsum ((fun w => square (v - w)) <$> vs)) by lia.
  clear. induction vs as [|w vs IH]; [done|]. rewrite fmap_cons. cbn [zsum foldr]. fold (zsum ((fun w => square (v - w)) <$> vs)).
  pose proof (Z.square_nonneg (v - w)). unfold square at 1. lia.
Qed.

Lemma u64_mul_l a b : u64 (u64 a * b) = u64 (a * b).
Proof. unfold u64. by rewrite Zmult_mod_idemp_l. Qed.

Lemma u64_square a : u64 (u64 a * u64 a) = u64 (square a).
Proof. unfold u64, square. by rewrite <- Zmult_mod. Qed.

Lemma u64_sub a b : u64 (u64 a - u64 b) = u64 (a - b).
Proof. unfold u64. by rewrite <- Zminus_mod. Qed.

Lemma u64_small a : 0 <= a < 2 ^ 64 -> u64 a = a.
Proof. apply Z.mod_small. Qed.

(** The numerator of the variance, whatever has wrapped around before. *)
Lemma variance_numerator vs : u64 (u64 (sum_squares_ (histogram_of vs) * num_ (histogram_of vs)) - u64 (sum_ (histogram_of vs) * sum_ (histogram_of vs))) =
  u64 (spread vs).
Proof.
  unfold histogram_of. cbn [sum_squares_ num_ sum_]. rewrite u64_square, u64_mul_l, spread_sums. rewrite (Z.mul_comm _ (u64 _)), u64_mul_l.
  by rewrite u64_sub.
Qed.

(** ** The theorems *)

Lemma right_bucket_unique v b b' : right_bucket v b -> right_bucket v b' -> b = b'.
Proof.
  assert (forall b b', right_bucket v b -> right_bucket v b' -> ~ (b < b')%nat) as H.
  { intros c c' [(limit & Hl & Hv) _] [(limit' & Hl' & _) Hless] Hlt. specialize (Hless c limit Hlt Hl).
    apply lookup_lt_Some in Hl'. unfold BucketCount in Hv. lia. }
  intros H1 H2. pose proof (H _ _ H1 H2). pose proof (H _ _ H2 H1). lia.
Qed.

Lemma index_spec v b : 0 <= v -> IndexForValue v = Z.of_nat b <-> right_bucket v b.
Proof.
  intros Hv. destruct (index_right v Hv) as (c & Hc & _ & Hr). rewrite Hc. split; [by intros <-%Nat2Z.inj|].
  intros Hb. f_equal. by eapply right_bucket_unique.
Qed.

(** C37: A histogram is a function of the multiset of values added to it: from any
    memory the constructor makes the empty histogram ([Clear] too), [Add] adds a
    value, [Merge] adds the values of another histogram however often its
    exchanges fail, the order does not matter, and no assertion fails.  The
    counts, the sum and the sum of squares are those of the values, modulo
    [2^64]; a value is counted in the one bucket whose limit is the least that
    is not below it, or in the last. *)
Theorem histogram_refines_values :
  (forall st, length (buckets_ st) = kBuckets -> construct_stat st = Ok (tt, histogram_of []) /\ Clear st = Ok (tt, histogram_of [])) /\
  (forall vs v, 0 <= v -> Add v (histogram_of vs) = Ok (tt, histogram_of (v :: vs))) /\
  (forall spurious vs ws, Merge spurious (histogram_of ws) (histogram_of vs) = Ok (tt, histogram_of (vs ++ ws))) /\
  (forall vs ws, vs ≡ₚ ws -> histogram_of vs = histogram_of ws) /\
  (forall v b, 0 <= v -> IndexForValue v = Z.of_nat b <-> right_bucket v b).
Proof.
  split_and!.
  - intros st Hlen. split; [|by apply Clear_run]. unfold construct_stat, mbind, M_bind, assert_that. rewrite bucket_count. by apply Clear_run.
  - intros vs v. apply Add_run.
  - intros spurious vs ws. rewrite histogram_app. by apply Merge_run; apply buckets_length.
  - apply histogram_Permutation.
  - apply index_spec.
Qed.

Example histogram_refines_values_witness :
  Add 7 (histogram_of [3]) = Ok (tt, histogram_of [7; 3]) /\ buckets_ (histogram_of [7; 3]) !! 5%nat = Some 1 /\ right_bucket 7 5.
Proof.
  split_and!; [apply (proj1 (proj2 histogram_refines_values)); lia|by vm_compute|].
  apply (proj2 (proj2 (proj2 (proj2 histogram_refines_values)))); [lia|by vm_compute].
Defined.

(** The standard deviation survives the wrap-around of the sums it is
    computed from: for fewer than [2^32] values it is the root of the sum of the
    squared differences of all pairs over the squared number of values, in double
    precision, as long as that sum itself is below [2^64]. *)
Theorem deviation_survives_overflow vs : vs <> [] -> Z.of_nat (length vs) < 2 ^ 32 -> spread vs < 2 ^ 64 ->
  StandardDeviation (histogram_of vs) =
  Ok (dsqrt (ddiv (to_double (spread vs)) (to_double (square (Z.of_nat (length vs))))), histogram_of vs).
Proof.
  intros Hne Hlen Hs. unfold StandardDeviation, mbind, M_bind, get, mret, M_ret. rewrite variance_numerator.
  assert (0 < Z.of_nat (length vs)) as Hpos by (destruct vs; [done|simpl; lia]). pose proof (spread_nonneg vs).
  assert (num_ (histogram_of vs) = Z.of_nat (length vs)) as -> by (apply u64_small; lia).
  rewrite (proj2 (Z.eqb_neq _ _)) by lia. rewrite !u64_small by nia. done.
Qed.

(** Four values of [2^63] and one above: the sum of squares has wrapped around. *)
Example deviation_survives_overflow_witness :
  let vs := [2 ^ 63; 2 ^ 63; 2 ^ 63; 2 ^ 63 + 5] in
  StandardDeviation (histogram_of vs) = Ok (dsqrt (ddiv (to_double 75) (to_double 16)), histogram_of vs).
Proof. apply (deviation_survives_overflow [2 ^ 63; 2 ^ 63; 2 ^ 63; 2 ^ 63 + 5]); [done|by vm_compute|by vm_compute]. Defined.

(** A percentile is never above the greatest value and, when the values are
    exact in a double, never below the least one: its search always ends, reads
    limits that exist, and clamps what it interpolates. *)
Theorem percentile_in_range p vs : vs <> [] ->
  wp (Percentile p) (fun r st' => st' = histogram_of vs /\ SFltb (to_double (foldr Z.max 0 vs)) r = false /\
    (Forall (fun v => 0 <= v < 2 ^ 53) vs -> SFltb r (to_double (foldr Z.min LastValue vs)) = false)) (histogram_of vs).
Proof.
  intros Hne. unfold Percentile. apply wp_bind, wp_get. eapply wp_conseq.
  { apply percentile_loop_spec; [apply buckets_length|]. rewrite bucket_count. lia. }
  intros r st' (-> & Hmax & Hmin). split_and!; [done|done|]. intros Hvs. apply Hmin; unfold histogram_of; cbn [min_ max_].
  - clear - Hne Hvs. destruct vs as [|v vs]; [done|]. clear Hne. apply Forall_cons in Hvs as [Hv Hvs]. simpl.
    enough (0 <= foldr Z.min LastValue vs) by lia. clear v Hv. induction Hvs as [|v vs Hv _ IH]; simpl; [|lia]. by vm_compute.
  - clear - Hvs. induction Hvs as [|v vs Hv _ IH]; simpl; lia.
Qed.

Example percentile_in_range_witness :
  wp (Percentile (to_double 50)) (fun r st' => st' = histogram_of [3; 1000] /\
    SFltb (to_double (foldr Z.max 0 [3; 1000])) r = false /\
    (Forall (fun v => 0 <= v < 2 ^ 53) [3; 1000] -> SFltb r (to_double (foldr Z.min LastValue [3; 1000])) = false)) (histogram_of [3; 1000]).
Proof. apply (percentile_in_range (to_double 50) [3; 1000]). done. Defined.

(** The least value is not the least one when all are above the last limit. *)
Example min_of_large_values : min_ (histogram_of [2 ^ 64 - 1]) = LastValue /\ LastValue < 2 ^ 64 - 1.
Proof. by vm_compute. Qed.

(** A limit of three significant digits. *)
Example limit_of_three_digits : bucketValues_ bucketMapper !! 11%nat = Some 110 /\ bucketValues_ bucketMapper !! 79%nat = Some 108000000000000.
Proof. by vm_compute. Qed.
