(* ===== verification/Statistics.v ===== *)
(** Statistics (src/src/monitoring/statistics.h, statistics.cc) and the arrays
    they are kept in, with one element for each core (src/src/util/core_local.h):
    updates go to the element of the core the thread runs on, readers add up or
    merge all elements, and an object may forward its updates to another one. *)
From S2P Require Import Prelude Random Histogram.
From Stdlib Require Import SpecFloat.

(** ** An array with an element for each core *)

Record CoreLocalArray (T : Type) : Type := mkCoreLocal {
  data_ : list T;
  size_shift_ : Z;
}.
Arguments mkCoreLocal {_} _ _.
Arguments data_ {_} _.
Arguments size_shift_ {_} _.

(** [while (1 << size_shift_ < num_cpus)]: the shift of an [int] by more than
    thirty bits has no value. *)
Fixpoint shift_loop (fuel : nat) (num_cpus size_shift : Z) : res Z :=
  match fuel with
  | O => OutOfFuel
  | S fuel =>
    if 30 <? size_shift then AssertFail
    else if Z.shiftl 1 size_shift <? num_cpus then shift_loop fuel num_cpus (size_shift + 1)
    else Ok size_shift
  end.

Definition i32 (z : Z) : Z := (z + 2 ^ 31) mod 2 ^ 32 - 2 ^ 31.

(** [hardware_concurrency] is what the library reports, [init] a new element. *)
Definition new_core_local {T} (hardware_concurrency : Z) (init : T) : res (CoreLocalArray T) :=
  size_shift ← shift_loop 29 (i32 hardware_concurrency) 3;
  mret (mkCoreLocal (replicate (Z.to_nat (Z.shiftl 1 size_shift)) init) size_shift).

Definition CL_Size {T} (a : CoreLocalArray T) : nat := Z.to_nat (Z.shiftl 1 (size_shift_ a)).

(** The index of the calling thread's core.  [cpuid] is what [PhysicalCoreID]
    answers, [seed] the hash of the thread; the state is the thread's generator. *)
Definition core_index (size_shift cpuid seed : Z) : M (option Z) nat :=
  if cpuid <? 0 then
    GetTLSInstance seed;;
    idx ← zoom (default 0) (fun x _ => Some x) (Random_Uniform (Z.shiftl 1 size_shift));
    mret (Z.to_nat idx)
  else mret (Z.to_nat (Z.land cpuid (Z.shiftl 1 size_shift - 1))).

(** ** The objects *)

Definition TICKER_ENUM_MAX : Z := 11.
Definition INTERNAL_TICKER_ENUM_MAX : Z := 12.
Definition HISTOGRAM_ENUM_MAX : Z := 0.
Definition INTERNAL_HISTOGRAM_ENUM_MAX : Z := 1.

Record StatisticsData : Type := mkStatData {
  tickers_ : list Z;
  histograms_ : list HistogramStat;
}.

Record StatisticsImpl : Type := mkStatistics {
  stats_ : option nat;                  (* where updates are forwarded *)
  enable_internal_stats_ : bool;
  per_core_stats_ : CoreLocalArray StatisticsData;
}.

(** The objects in memory, and every thread's random number generator. *)
Record world : Type := mkWorld {
  objects : list StatisticsImpl;
  generators : gmap Z Z;
}.

Definition WM : Type -> Type := M world.

Definition data_of (o : StatisticsImpl) : list StatisticsData := data_ (per_core_stats_ o).
Definition cores (o : StatisticsImpl) : nat := CL_Size (per_core_stats_ o).
Definition map_data (f : list StatisticsData -> list StatisticsData) (o : StatisticsImpl) : StatisticsImpl :=
  mkStatistics (stats_ o) (enable_internal_stats_ o) (mkCoreLocal (f (data_of o)) (size_shift_ (per_core_stats_ o))).
Definition upd_data (i : nat) (f : list StatisticsData -> list StatisticsData) (w : world) : world :=
  mkWorld (alter (map_data f) i (objects w)) (generators w).

Definition object (i : nat) : WM StatisticsImpl :=
  w ← get;
  match objects w !! i with Some o => mret o | None => fail end.

Definition AccessAtCore (i core : nat) : WM StatisticsData :=
  o ← object i;
  assert_that (core <? cores o)%nat;;
  match data_of o !! core with Some d => mret d | None => fail end.

Definition store_core (i core : nat) (d : StatisticsData) : WM unit := modify (upd_data i (fun l => <[core := d]> l)).

(** Who calls: the thread, the hash of its id, and what [PhysicalCoreID] answers
    when an object is accessed; the thread may move between cores. *)
Record Caller : Type := mkCaller {
  thread : Z;
  thread_hash : Z;
  core_id : nat -> Z;
}.

Definition Access (c : Caller) (i : nat) : WM nat :=
  o ← object i;
  core ← zoom (fun w => generators w !! thread c) (fun g w => mkWorld (objects w) (partial_alter (fun _ => g) (thread c) (generators w)))
    (core_index (size_shift_ (per_core_stats_ o)) (core_id c i) (thread_hash c));
  AccessAtCore i core;;
  mret core.

(** [for (core_idx = 0; core_idx < per_core_stats_.Size(); ++core_idx)] *)
Fixpoint for_cores {A} (todo core : nat) (body : nat -> A -> WM A) (acc : A) : WM A :=
  match todo with O => mret acc | S todo => acc ← body core acc; for_cores todo (S core) body acc end.

Definition each_core {A} (i : nat) (body : nat -> A -> WM A) (acc : A) : WM A :=
  o ← object i;
  for_cores (cores o) 0 body acc.

(** Updates of a ticker. *)
Definition ticker (t : Z) (d : StatisticsData) : option Z := tickers_ d !! Z.to_nat t.
Definition set_ticker (t x : Z) (d : StatisticsData) : StatisticsData := mkStatData (<[Z.to_nat t := x]> (tickers_ d)) (histograms_ d).

Definition load_ticker (i core : nat) (t : Z) : WM Z :=
  d ← AccessAtCore i core;
  match ticker t d with Some x => mret x | None => fail end.
Definition store_ticker (i core : nat) (t x : Z) : WM unit :=
  d ← AccessAtCore i core;
  store_core i core (set_ticker t x d).

(** A call on a histogram. *)
Definition on_histogram {A} (i core : nat) (h : Z) (m : HM A) : WM A :=
  d ← AccessAtCore i core;
  match histograms_ d !! Z.to_nat h with
  | None => fail
  | Some st =>
    match m st with
    | Ok (a, st) => store_core i core (mkStatData (tickers_ d) (<[Z.to_nat h := st]> (histograms_ d)));; mret a
    | _ => fail
    end
  end.

(** ** The operations *)

Definition check_ticker (i : nat) (t : Z) : WM unit :=
  o ← object i;
  assert_that (t <? (if enable_internal_stats_ o then INTERNAL_TICKER_ENUM_MAX else TICKER_ENUM_MAX)).
Definition check_histogram (i : nat) (h : Z) : WM unit :=
  o ← object i;
  assert_that (h <? (if enable_internal_stats_ o then INTERNAL_HISTOGRAM_ENUM_MAX else HISTOGRAM_ENUM_MAX)).

(** [if (stats_ && guard) stats_->...]: the object, then those it forwards to. *)
Fixpoint forward (fuel : nat) (local : nat -> WM unit) (guard : bool) (i : nat) : WM unit :=
  match fuel with
  | O => no_fuel
  | S fuel =>
    local i;;
    o ← object i;
    match stats_ o with
    | Some j => if guard then forward fuel local guard j else mret tt
    | None => mret tt
    end
  end.

Definition getTickerCountLocked (i : nat) (t : Z) : WM Z :=
  check_ticker i t;;
  each_core i (fun core res => x ← load_ticker i core t; mret (u64 (res + x))) 0.

Definition getTickerCount (i : nat) (t : Z) : WM Z := getTickerCountLocked i t.

Definition setTickerCountLocked (i : nat) (t count : Z) : WM unit :=
  check_ticker i t;;
  each_core i (fun core _ => store_ticker i core t (if (core =? 0)%nat then count else 0)) tt.

(** An object forwards to older ones only, so that the chain is shorter than [S i]. *)
Definition setTickerCount (i : nat) (t count : Z) : WM unit :=
  forward (S i) (fun i => setTickerCountLocked i t count) (t <? TICKER_ENUM_MAX) i.

Definition getAndResetTickerCount (i : nat) (t : Z) : WM Z :=
  check_ticker i t;;
  sum ← each_core i (fun core sum => x ← load_ticker i core t; store_ticker i core t 0;; mret (u64 (sum + x))) 0;
  o ← object i;
  match stats_ o with
  | Some j => if t <? TICKER_ENUM_MAX then setTickerCount j t 0 else mret tt
  | None => mret tt
  end;;
  mret sum.

Definition recordTick (c : Caller) (i : nat) (t count : Z) : WM unit :=
  forward (S i) (fun i =>
    check_ticker i t;;
    core ← Access c i;
    x ← load_ticker i core t;
    store_ticker i core t (u64 (x + count))) (t <? TICKER_ENUM_MAX) i.

Definition measureTime (c : Caller) (i : nat) (h value : Z) : WM unit :=
  forward (S i) (fun i =>
    check_histogram i h;;
    core ← Access c i;
    on_histogram i core h (Add value)) (h <? HISTOGRAM_ENUM_MAX) i.

(** A new histogram, into which those of all cores are merged; [spurious] is how
    often the exchanges of [Merge] fail. *)
Definition getHistogramImplLocked (spurious : nat -> nat * nat) (i : nat) (h : Z) : WM HistogramStat :=
  check_histogram i h;;
  match construct_stat (mkStat 0 0 0 0 0 (replicate kBuckets 0)) with
  | Ok (_, res_hist) =>
    each_core i (fun core res_hist =>
      other ← on_histogram i core h get;
      match Merge (spurious core) other res_hist with Ok (_, res_hist) => mret res_hist | _ => fail end) res_hist
  | _ => fail
  end.

Definition histogramData (spurious : nat -> nat * nat) (i : nat) (h : Z) : WM HistogramData :=
  hist ← getHistogramImplLocked spurious i h;
  match Data hist with Ok (data, _) => mret data | _ => fail end.

(** [for (i = 0; i < n; ++i)] *)
Fixpoint for_types (todo : nat) (t : Z) (body : Z -> WM unit) : WM unit :=
  match todo with O => mret tt | S todo => body t;; for_types todo (t + 1) body end.

Definition Reset (i : nat) : WM bool :=
  for_types (Z.to_nat TICKER_ENUM_MAX) 0 (fun t => setTickerCountLocked i t 0);;
  for_types (Z.to_nat HISTOGRAM_ENUM_MAX) 0 (fun h => each_core i (fun core _ => on_histogram i core h Clear) tt);;
  mret true.

Definition HistEnabledForType (i : nat) (h : Z) : WM bool :=
  o ← object i;
  mret (if enable_internal_stats_ o then true else h <? HISTOGRAM_ENUM_MAX).

(** The constructor. *)
Definition new_data : res StatisticsData :=
  match construct_stat (mkStat 0 0 0 0 0 (replicate kBuckets 0)) with
  | Ok (_, st) => Ok (mkStatData (replicate (Z.to_nat INTERNAL_TICKER_ENUM_MAX) 0) (replicate (Z.to_nat INTERNAL_HISTOGRAM_ENUM_MAX) st))
  | _ => AssertFail
  end.

Definition new_StatisticsImpl (hardware_concurrency : Z) (stats : option nat) (enable_internal_stats : bool) : WM nat :=
  w ← get;
  match (d ← new_data; new_core_local hardware_concurrency d) with
  | Ok a => put (mkWorld (objects w ++ [mkStatistics stats enable_internal_stats a]) (generators w));; mret (length (objects w))
  | _ => fail
  end.

Definition CreateDBStatistics (hardware_concurrency : Z) : WM nat := new_StatisticsImpl hardware_concurrency None false.

(** The calls of the other components, on a pointer that may be null. *)
Definition MeasureTime (c : Caller) (statistics : option nat) (h value : Z) : WM unit :=
  match statistics with Some i => measureTime c i h value | None => mret tt end.
Definition RecordTick (c : Caller) (statistics : option nat) (t count : Z) : WM unit :=
  match statistics with Some i => recordTick c i t count | None => mret tt end.
Definition SetTickerCount (statistics : option nat) (t count : Z) : WM unit :=
  match statistics with Some i => setTickerCount i t count | None => mret tt end.

(** ** Sizes and cores *)

Lemma shift_loop_spec num_cpus : num_cpus <= 2 ^ 30 -> forall fuel size_shift, 3 <= size_shift <= 30 -> 31 - size_shift <= Z.of_nat fuel ->
  (size_shift = 3 \/ 2 ^ (size_shift - 1) < num_cpus) ->
  exists s, shift_loop fuel num_cpus size_shift = Ok s /\ 3 <= s <= 30 /\ num_cpus <= 2 ^ s /\ (s = 3 \/ 2 ^ (s - 1) < num_cpus).
Proof.
  intros Hn. induction fuel as [|fuel IH]; intros s Hs Hf Hmin; [lia|]. cbn [shift_loop].
  rewrite (proj2 (Z.ltb_ge 30 s)), Z.shiftl_1_l by lia. destruct (Z.ltb_spec (2 ^ s) num_cpus) as [Hlt|Hge]; [|by exists s].
  assert (s <> 30) by (intros ->; lia). apply IH; [lia|lia|]. right. by replace (s + 1 - 1) with s by lia.
Qed.

Definition gen_ok (g : option Z) : Prop := match g with Some s => 0 < s <= Random_M | None => True end.

(** Whatever the platform answers, the index is one of the array. *)
Lemma core_index_spec size_shift cpuid seed g : 3 <= size_shift <= 30 -> gen_ok g ->
  wp (core_index size_shift cpuid seed) (fun core g' => (core < Z.to_nat (Z.shiftl 1 size_shift))%nat /\ gen_ok g') g.
Proof.
  intros Hs Hg. unfold core_index. rewrite Z.shiftl_1_l. assert (8 <= 2 ^ size_shift <= 2 ^ 30).
  { split; [apply (Z.pow_le_mono_r 2 3); lia|apply Z.pow_le_mono_r; lia]. }
  destruct (Z.ltb_spec cpuid 0) as [Hneg|Hpos].
  - assert (exists s, 0 < s <= Random_M /\ wp (GetTLSInstance seed) (fun _ g' => g' = Some s) g) as (s & Hsd & HT).
    { destruct g as [s|]; [by exists s|]. exists (GoodSeed (u32 seed)). split; [apply GoodSeed_range|done]. }
    apply wp_bind. eapply wp_conseq; [exact HT|]. intros _ g' ->. apply wp_bind, wp_zoom. simpl.
    eapply wp_conseq; [apply Uniform_range; [done|lia]|]. intros x s' [Hx Hs']. apply wp_ret. split; [lia|done].
  - apply wp_ret. split; [|done]. replace (2 ^ size_shift - 1) with (Z.ones size_shift) by (rewrite Z.ones_equiv; lia).
    rewrite Z.land_ones by lia. pose proof (Z.mod_pos_bound cpuid (2 ^ size_shift)). lia.
Qed.

(** ** Changes of an object *)

Lemma upd_data_upd i f g w : upd_data i f (upd_data i g w) = upd_data i (fun l => f (g l)) w.
Proof. unfold upd_data. simpl. f_equal. rewrite list_alter_alter_eq. by apply list_alter_ext. Qed.

Lemma upd_data_ext i f g w o : objects w !! i = Some o -> f (data_of o) = g (data_of o) -> upd_data i f w = upd_data i g w.
Proof. intros Ho E. unfold upd_data. f_equal. apply list_alter_ext; [|done]. intros o' Ho'. assert (o' = o) as -> by congruence. unfold map_data. by rewrite E. Qed.

Lemma data_of_map f o : data_of (map_data f o) = f (data_of o).
Proof. done. Qed.

Lemma map_data_id o : map_data (fun _ => data_of o) o = o.
Proof. by destruct o as [? ? []]. Qed.

Lemma upd_data_id i w o : objects w !! i = Some o -> upd_data i (fun _ => data_of o) w = w.
Proof.
  intros Ho. destruct w as [os gs]. unfold upd_data. simpl in *. f_equal. apply list_eq. intros j.
  destruct (decide (i = j)) as [<-|Hne]; [|by rewrite list_lookup_alter_ne]. rewrite list_lookup_alter_eq, Ho. simpl. by rewrite map_data_id.
Qed.

Lemma upd_data_lookup i f w o : objects w !! i = Some o -> objects (upd_data i f w) !! i = Some (map_data f o).
Proof. intros Ho. simpl. by rewrite list_lookup_alter_eq, Ho. Qed.

(** ** A pass over the cores of an object *)

Section pass.
Context {A : Type} (i : nat) (o : StatisticsImpl) (f : nat -> StatisticsData -> StatisticsData) (g : A -> StatisticsData -> A) (Q : A -> Prop).
Context (body : nat -> A -> WM A).
Hypothesis body_ok : forall core d acc w l, objects w !! i = Some (map_data (fun _ => l) o) -> length l = length (data_of o) ->
  l !! core = Some d -> data_of o !! core = Some d -> Q acc ->
  body core acc w = Ok (g acc d, upd_data i (fun l => <[core := f core d]> l) w) /\ Q (g acc d).

Lemma for_cores_run todo : forall core acc w l, (core + todo = length (data_of o))%nat -> objects w !! i = Some (map_data (fun _ => l) o) ->
  length l = length (data_of o) -> (forall k, (core <= k)%nat -> l !! k = data_of o !! k) -> Q acc ->
  for_cores todo core body acc w =
    Ok (foldl g acc (drop core (data_of o)), upd_data i (imap (fun k d => if decide (core <= k)%nat then f k d else d)) w).
Proof using body_ok.
  induction todo as [|todo IH]; intros core acc w l Hc Ho Hlen Hl HQ; cbn [for_cores].
  - rewrite drop_ge by lia. unfold mret, M_ret. do 2 f_equal. rewrite <- (upd_data_id i w _ Ho) at 1.
    eapply upd_data_ext; [exact Ho|]. rewrite data_of_map. apply list_eq. intros k. rewrite list_lookup_imap. destruct (l !! k) eqn:E; [|done].
    simpl. rewrite decide_False; [done|]. apply lookup_lt_Some in E. lia.
  - destruct (lookup_lt_is_Some_2 (data_of o) core) as [d Hd]; [lia|]. assert (l !! core = Some d) as Hld by (by rewrite Hl).
    destruct (body_ok core d acc w l) as [Hb HQ']; [done..|]. unfold mbind, M_bind. rewrite Hb.
    rewrite (IH (S core) _ _ (<[core := f core d]> l)); [|lia| |by rewrite length_insert| |done].
    + rewrite (drop_S _ d core) by done. cbn [foldl]. do 2 f_equal. rewrite upd_data_upd.
      eapply upd_data_ext; [exact Ho|]. rewrite data_of_map. apply list_eq. intros k. rewrite !list_lookup_imap. destruct (decide (k = core)) as [->|Hne].
      * rewrite list_lookup_insert_eq by lia. rewrite Hld. simpl. rewrite decide_False by lia. by rewrite decide_True by lia.
      * rewrite list_lookup_insert_ne by done. destruct (l !! k); [|done]. simpl.
        destruct (decide (core <= k)%nat); [rewrite decide_True by lia|rewrite decide_False by lia]; done.
    + rewrite (upd_data_lookup _ _ _ _ Ho). done.
    + intros k Hk. rewrite list_lookup_insert_ne by lia. apply Hl. lia.
Qed.

Lemma each_core_run acc w : objects w !! i = Some o -> cores o = length (data_of o) -> Q acc ->
  each_core i body acc w = Ok (foldl g acc (data_of o), upd_data i (imap f) w).
Proof using body_ok.
  intros Ho Hlen HQ. unfold each_core, object, mbind, M_bind, get. rewrite Ho. unfold mret, M_ret. rewrite Hlen.
  rewrite (for_cores_run _ 0 acc w (data_of o)); [|done|by rewrite map_data_id|done|done|done]. by rewrite drop_0.
Qed.
End pass.

(** ** What the objects say *)

(** The elements of an object, with the values their histograms were given. *)
Record core_ok (d : StatisticsData) (vs : list Z) : Prop := {
  core_tickers : length (tickers_ d) = Z.to_nat INTERNAL_TICKER_ENUM_MAX;
  core_histograms : histograms_ d = [histogram_of vs];
}.

Definition column (t : Z) (l : list StatisticsData) : list Z := (fun d => default 0 (ticker t d)) <$> l.

Record object_ok (i : nat) (o : StatisticsImpl) (totals : Z -> Z) (values : list Z) : Prop := {
  ob_shift : 3 <= size_shift_ (per_core_stats_ o) <= 30;
  ob_cores : cores o = length (data_of o);
  ob_values : exists vss, Forall2 core_ok (data_of o) vss /\ concat vss ≡ₚ values;
  ob_totals t : 0 <= t < INTERNAL_TICKER_ENUM_MAX -> u64 (zsum (column t (data_of o))) = totals t;
  ob_stats j : stats_ o = Some j -> (j < i)%nat;
}.

(** The objects, with their links and whether they keep internal statistics;
    the total of every ticker and the values given to the histogram of each. *)
Record StSpec : Type := mkStSpec {
  sp_objects : list (option nat * bool);
  sp_total : nat -> Z -> Z;
  sp_values : nat -> list Z;
}.

Record st_refines (w : world) (a : StSpec) : Prop := {
  sr_objects : sp_objects a = (fun o => (stats_ o, enable_internal_stats_ o)) <$> objects w;
  sr_object i o : objects w !! i = Some o -> object_ok i o (sp_total a i) (sp_values a i);
  sr_generators th s : generators w !! th = Some s -> 0 < s <= Random_M;
}.

(** Changes of the tickers and of the values of some objects. *)
Definition sp_tick (js : list nat) (t : Z) (f : Z -> Z) (a : StSpec) : StSpec :=
  mkStSpec (sp_objects a) (fun k t' => if decide (k ∈ js /\ t' = t) then f (sp_total a k t) else sp_total a k t') (sp_values a).
Definition sp_value (js : list nat) (v : Z) (a : StSpec) : StSpec :=
  mkStSpec (sp_objects a) (sp_total a) (fun k => if decide (k ∈ js) then v :: sp_values a k else sp_values a k).

Definition ticker_ok (a : StSpec) (i : nat) (t : Z) : Prop :=
  exists p b, sp_objects a !! i = Some (p, b) /\ 0 <= t < if b : bool then INTERNAL_TICKER_ENUM_MAX else TICKER_ENUM_MAX.
Definition histogram_ok (a : StSpec) (i : nat) (h : Z) : Prop :=
  exists p b, sp_objects a !! i = Some (p, b) /\ 0 <= h < if b : bool then INTERNAL_HISTOGRAM_ENUM_MAX else HISTOGRAM_ENUM_MAX.

(** *** Equations of the accesses *)

Section object.
Context (w : world) (a : StSpec) (refines : st_refines w a) (i : nat) (o : StatisticsImpl) (Ho : objects w !! i = Some o).

Lemma object_run : object i w = Ok (o, w).
Proof using Ho. unfold object, mbind, M_bind, get. by rewrite Ho. Qed.

Lemma object_links : sp_objects a !! i = Some (stats_ o, enable_internal_stats_ o).
Proof using refines Ho. by rewrite (sr_objects _ _ refines), list_lookup_fmap, Ho. Qed.

Lemma check_ticker_run t : ticker_ok a i t -> check_ticker i t w = Ok (tt, w) /\ 0 <= t < INTERNAL_TICKER_ENUM_MAX.
Proof using refines Ho.
  intros (p & b & E & Ht). rewrite object_links in E. injection E as <- <-. unfold check_ticker, mbind, M_bind. rewrite object_run.
  unfold assert_that. rewrite (proj2 (Z.ltb_lt _ _)) by lia. split; [done|].
  unfold INTERNAL_TICKER_ENUM_MAX, TICKER_ENUM_MAX in *. destruct (enable_internal_stats_ o); lia.
Qed.

Lemma check_histogram_run h : histogram_ok a i h -> check_histogram i h w = Ok (tt, w) /\ h = 0.
Proof using refines Ho.
  intros (p & b & E & Ht). rewrite object_links in E. injection E as <- <-. unfold check_histogram, mbind, M_bind. rewrite object_run.
  unfold assert_that. rewrite (proj2 (Z.ltb_lt _ _)) by lia. split; [done|].
  unfold INTERNAL_HISTOGRAM_ENUM_MAX, HISTOGRAM_ENUM_MAX in *. destruct (enable_internal_stats_ o); lia.
Qed.
End object.

Lemma AccessAtCore_run w i o core d : objects w !! i = Some o -> cores o = length (data_of o) -> data_of o !! core = Some d ->
  AccessAtCore i core w = Ok (d, w).
Proof.
  intros Ho Hlen Hd. unfold AccessAtCore, mbind, M_bind. rewrite (object_run _ _ _ Ho), Hlen. unfold assert_that.
  rewrite (proj2 (Nat.ltb_lt _ _)) by (by eapply lookup_lt_Some). by rewrite Hd.
Qed.

Lemma load_ticker_run w i o core d t x : objects w !! i = Some o -> cores o = length (data_of o) -> data_of o !! core = Some d ->
  ticker t d = Some x -> load_ticker i core t w = Ok (x, w).
Proof. intros Ho Hlen Hd Hx. unfold load_ticker, mbind, M_bind. rewrite (AccessAtCore_run _ _ _ _ _ Ho Hlen Hd). by rewrite Hx. Qed.

Lemma store_ticker_run w i o core d t x : objects w !! i = Some o -> cores o = length (data_of o) -> data_of o !! core = Some d ->
  store_ticker i core t x w = Ok (tt, upd_data i (fun l => <[core := set_ticker t x d]> l) w).
Proof. intros Ho Hlen Hd. unfold store_ticker, mbind, M_bind. by rewrite (AccessAtCore_run _ _ _ _ _ Ho Hlen Hd). Qed.

Lemma on_histogram_run {A} w i o core d (m : HM A) st x st' : objects w !! i = Some o -> cores o = length (data_of o) ->
  data_of o !! core = Some d -> histograms_ d = [st] -> m st = Ok (x, st') ->
  on_histogram i core 0 m w = Ok (x, upd_data i (fun l => <[core := mkStatData (tickers_ d) [st']]> l) w).
Proof.
  intros Ho Hlen Hd Hh Hm. unfold on_histogram, mbind, M_bind. rewrite (AccessAtCore_run _ _ _ _ _ Ho Hlen Hd), Hh. simpl. by rewrite Hm.
Qed.

(** The shape of an object does not change with its elements. *)
Lemma cores_map f o : cores (map_data f o) = cores o.
Proof. done. Qed.

(** *** One object changes *)

Lemma object_change w a i o h totals values : st_refines w a -> objects w !! i = Some o ->
  object_ok i (map_data h o) totals values ->
  forall a', sp_objects a' = sp_objects a ->
    (forall t, 0 <= t < INTERNAL_TICKER_ENUM_MAX -> sp_total a' i t = totals t) -> sp_values a' i = values ->
    (forall k, k <> i -> sp_values a' k = sp_values a k /\ forall t, sp_total a' k t = sp_total a k t) ->
    st_refines (upd_data i h w) a'.
Proof.
  intros [Hobj Hok Hgen] Ho Hnew a' E1 E2 E3 E4. split.
  - rewrite E1, Hobj. apply list_eq. intros k. rewrite !list_lookup_fmap. simpl. destruct (decide (i = k)) as [<-|Hne].
    + by rewrite list_lookup_alter_eq, Ho.
    + by rewrite list_lookup_alter_ne.
  - intros k o' Hk. simpl in Hk. destruct (decide (i = k)) as [<-|Hne].
    + rewrite list_lookup_alter_eq, Ho in Hk. injection Hk as <-. destruct Hnew. split; try done; [by rewrite E3|].
      intros t Ht. rewrite E2 by done. by apply ob_totals0.
    + rewrite list_lookup_alter_ne in Hk by done. destruct (E4 k) as [Ev Et]; [done|]. destruct (Hok k o' Hk). split; try done; [by rewrite Ev|].
      intros t Ht. rewrite Et. by apply ob_totals0.
  - exact Hgen.
Qed.

Lemma st_refines_ext w a a' : sp_objects a' = sp_objects a -> (forall k t, sp_total a' k t = sp_total a k t) ->
  (forall k, sp_values a' k = sp_values a k) -> st_refines w a -> st_refines w a'.
Proof.
  intros E1 E2 E3 [H1 H2 H3]. split; [congruence| |done]. intros k o Ho. destruct (H2 k o Ho). split; try done; [by rewrite E3|].
  intros t Ht. rewrite E2. by apply ob_totals0.
Qed.

Lemma upd_same w i o core d : objects w !! i = Some o -> data_of o !! core = Some d -> upd_data i (fun l => <[core := d]> l) w = w.
Proof.
  intros Ho Hd. rewrite <- (upd_data_id i w o) at 2 by done. eapply upd_data_ext; [exact Ho|]. by apply list_insert_id.
Qed.

Lemma imap_same {T} (l : list T) : imap (fun _ d => d) l = l.
Proof. apply list_eq. intros k. rewrite list_lookup_imap. by destruct (l !! k). Qed.

Lemma upd_imap_same w i o : objects w !! i = Some o -> upd_data i (imap (fun _ d => d)) w = w.
Proof. intros Ho. rewrite <- (upd_data_id i w o) at 2 by done. eapply upd_data_ext; [exact Ho|]. apply imap_same. Qed.

(** *** Columns *)

Lemma zsum_insert l : forall k x y, l !! k = Some x -> zsum (<[k := y]> l) = zsum l - x + y.
Proof.
  induction l as [|z l IH]; intros [|k] x y Hk; simpl in *; simplify_eq; [lia|]. cbn [zsum foldr]. fold (zsum (<[k := y]> l)). rewrite (IH k x y Hk).
  unfold zsum. lia.
Qed.

Lemma ticker_defined d vs t : core_ok d vs -> 0 <= t < INTERNAL_TICKER_ENUM_MAX -> ticker t d = Some (default 0 (ticker t d)).
Proof.
  intros [Ht _] Hr. unfold ticker. destruct (lookup_lt_is_Some_2 (tickers_ d) (Z.to_nat t)) as [x Hx]; [|by rewrite Hx].
  rewrite Ht. unfold INTERNAL_TICKER_ENUM_MAX in *. lia.
Qed.

Lemma set_ticker_ok t x d vs : core_ok d vs -> core_ok (set_ticker t x d) vs.
Proof. intros []. split; [simpl; by rewrite length_insert|done]. Qed.

Lemma ticker_set t x d vs t' : core_ok d vs -> 0 <= t < INTERNAL_TICKER_ENUM_MAX -> 0 <= t' ->
  ticker t' (set_ticker t x d) = if decide (t' = t) then Some x else ticker t' d.
Proof.
  intros [Hl _] Ht Ht'. unfold ticker, set_ticker. cbn [tickers_]. case_decide as E.
  - rewrite E. apply list_lookup_insert_eq. rewrite Hl. unfold INTERNAL_TICKER_ENUM_MAX in *. lia.
  - apply list_lookup_insert_ne. lia.
Qed.

Lemma column_set t y t' l vss : Forall2 core_ok l vss -> 0 <= t < INTERNAL_TICKER_ENUM_MAX -> 0 <= t' ->
  column t' (imap (fun k d => set_ticker t (y k) d) l) = if decide (t' = t) then imap (fun k _ => y k) l else column t' l.
Proof.
  intros HF Ht Ht'. unfold column. rewrite fmap_imap. case_decide as E; [|rewrite <- (imap_same (_ <$> l)), imap_fmap]; apply imap_ext; intros k d Hd; simpl;
    destruct (Forall2_lookup_l _ _ _ _ _ HF Hd) as (vs & _ & Hok); rewrite (ticker_set _ _ _ vs) by done.
  - by rewrite decide_True.
  - by rewrite decide_False.
Qed.

Lemma Forall2_set_all t y l vss : Forall2 core_ok l vss -> Forall2 core_ok (imap (fun k d => set_ticker t (y k) d) l) vss.
Proof.
  revert y vss. induction l as [|d l IH]; intros y vss HF; [by inversion HF|]. apply Forall2_cons_inv_l in HF as (vs & vss' & Hok & HF & ->).
  rewrite imap_cons. constructor; [by apply set_ticker_ok|]. apply (IH (fun k => y (S k))). done.
Qed.

Lemma zsum_first {T} c (l : list T) : l <> [] -> zsum (imap (fun k _ => if (k =? 0)%nat then c else 0) l) = c.
Proof.
  destruct l as [|x l]; [done|]. intros _. rewrite imap_cons. cbn [zsum foldr Nat.eqb]. enough (forall f, (forall k y, f (S k) y = 0) -> zsum (imap (f ∘ S) l) = 0) as E.
  { unfold zsum in E. rewrite (E (fun k _ => if (k =? 0)%nat then c else 0)); [lia|done]. }
  clear. intros f Hf. assert (imap (f ∘ S) l = (fun _ => 0) <$> l) as ->.
  { apply list_eq. intros k. rewrite list_lookup_imap, list_lookup_fmap. destruct (l !! k); [|done]. simpl. by rewrite Hf. }
  induction l; [done|]. simpl. done.
Qed.

Lemma foldl_column t l : forall acc, foldl (fun res d => u64 (res + default 0 (ticker t d))) (u64 acc) l = u64 (acc + zsum (column t l)).
Proof.
  induction l as [|d l IH]; intros acc; [simpl; by rewrite Z.add_0_r|]. cbn [foldl column fmap list_fmap zsum foldr]. rewrite u64_add_l, IH.
  unfold column, zsum. f_equal. simpl. lia.
Qed.

Lemma foldl_totals t l : foldl (fun res d => u64 (res + default 0 (ticker t d))) 0 l = u64 (zsum (column t l)).
Proof. exact (foldl_column t l 0). Qed.

(** *** One object, one call *)

Section local.
Context (w : world) (a : StSpec) (refines : st_refines w a) (i : nat) (o : StatisticsImpl) (Ho : objects w !! i = Some o).

Lemma the_object : object_ok i o (sp_total a i) (sp_values a i).
Proof using refines Ho. by apply (sr_object _ _ refines). Qed.

Lemma the_cores : exists vss, Forall2 core_ok (data_of o) vss /\ concat vss ≡ₚ sp_values a i.
Proof using refines Ho. exact (ob_values _ _ _ _ the_object). Qed.

Lemma data_nonempty : data_of o <> [].
Proof using refines Ho.
  pose proof the_object as []. intros E. rewrite E in ob_cores0. unfold cores, CL_Size in ob_cores0. rewrite Z.shiftl_1_l in ob_cores0.
  pose proof (Z.pow_pos_nonneg 2 (size_shift_ (per_core_stats_ o))). simpl in ob_cores0. lia.
Qed.

Lemma total_run t : ticker_ok a i t -> getTickerCountLocked i t w = Ok (sp_total a i t, w).
Proof using refines Ho.
  intros Ht. destruct (check_ticker_run w a refines i o Ho t Ht) as [Hc Hr]. unfold getTickerCountLocked, mbind, M_bind. rewrite Hc.
  pose proof the_object as []. destruct ob_values0 as (vss & HF & _).
  rewrite (each_core_run i o (fun _ d => d) (fun res d => u64 (res + default 0 (ticker t d))) (fun _ => True)); [|..|exact Ho|done|done].
  - rewrite (upd_imap_same _ _ o) by done. by rewrite foldl_totals, ob_totals0.
  - intros core d acc w' l Hl Hlen Hcore Hd _. split; [|done]. destruct (Forall2_lookup_l _ _ _ _ _ HF Hd) as (vs & _ & Hok).
    rewrite (load_ticker_run w' i (map_data (fun _ => l) o) core d t (default 0 (ticker t d))); [|done|by rewrite cores_map, data_of_map; lia|done|by eapply ticker_defined].
    by rewrite (upd_same w' i (map_data (fun _ => l) o)) by done.
Qed.

(** The whole column is stored. *)
Lemma store_column_ok t y total : 0 <= t < INTERNAL_TICKER_ENUM_MAX -> u64 (zsum (imap (fun k _ => y k) (data_of o))) = total ->
  st_refines (upd_data i (imap (fun k d => set_ticker t (y k) d)) w) (sp_tick [i] t (fun _ => total) a).
Proof using refines Ho.
  intros Ht Hy. destruct the_cores as (vss & HF & Hp). pose proof the_object as Hob.
  eapply (object_change w a i o _ (fun t' => if decide (t' = t) then total else sp_total a i t') (sp_values a i)); [done|done| |done| |done|].
  - destruct Hob. split; [done| | | |done].
    + rewrite cores_map, data_of_map, length_imap. done.
    + exists vss. split; [by apply Forall2_set_all|done].
    + intros t' Ht'. rewrite data_of_map, (column_set _ _ _ _ vss) by (done || lia). case_decide; [done|]. by apply ob_totals0.
  - intros t' _. simpl. destruct (decide (t' = t)) as [->|Hne].
    + by rewrite decide_True by (split; [by left|done]).
    + by rewrite decide_False by naive_solver.
  - intros k Hk. split; [done|]. intros t'. simpl. rewrite decide_False; [done|]. intros [->%list_elem_of_singleton _]. done.
Qed.

Lemma set_locked_run t c : ticker_ok a i t -> 0 <= c < 2 ^ 64 ->
  wp (setTickerCountLocked i t c) (fun _ w' => st_refines w' (sp_tick [i] t (fun _ => c) a)) w.
Proof using refines Ho.
  intros Ht Hcr. destruct (check_ticker_run w a refines i o Ho t Ht) as [Hc Hr]. unfold setTickerCountLocked.
  apply wp_bind, wp_run. exists tt, w. split; [done|]. apply wp_run.
  rewrite (each_core_run i o (fun k d => set_ticker t (if (k =? 0)%nat then c else 0) d) (fun _ _ => tt) (fun _ => True)); [|..|exact Ho| |done].
  - eexists _, _. split; [reflexivity|]. apply (store_column_ok t (fun k => if (k =? 0)%nat then c else 0)); [done|].
    rewrite zsum_first by apply data_nonempty. by apply u64_small.
  - intros core d acc w' l Hl Hlen Hcore Hd _. split; [|done]. pose proof the_object as [].
    by rewrite (store_ticker_run w' i (map_data (fun _ => l) o) core d) by (done || (rewrite cores_map, data_of_map; lia)).
  - apply the_object.
Qed.

Lemma get_and_reset_run t : ticker_ok a i t ->
  wp (each_core i (fun core sum => x ← load_ticker i core t; store_ticker i core t 0;; mret (u64 (sum + x))) 0)
    (fun sum w' => sum = sp_total a i t /\ st_refines w' (sp_tick [i] t (fun _ => 0) a)) w.
Proof using refines Ho.
  intros Ht. destruct (check_ticker_run w a refines i o Ho t Ht) as [_ Hr]. destruct the_cores as (vss & HF & _). apply wp_run.
  rewrite (each_core_run i o (fun k d => set_ticker t ((fun _ => 0) k) d) (fun res d => u64 (res + default 0 (ticker t d))) (fun _ => True)); [|..|exact Ho| |done].
  - eexists _, _. split; [reflexivity|]. split.
    + pose proof the_object as []. by rewrite foldl_totals, ob_totals0.
    + apply store_column_ok; [done|]. clear. induction (data_of o) as [|d l IH]; [done|]. rewrite imap_cons. exact IH.
  - intros core d acc w' l Hl Hlen Hcore Hd _. split; [|done]. destruct (Forall2_lookup_l _ _ _ _ _ HF Hd) as (vs & _ & Hok).
    pose proof the_object as []. unfold mbind, M_bind.
    rewrite (load_ticker_run w' i (map_data (fun _ => l) o) core d t (default 0 (ticker t d))); [|done|by rewrite cores_map, data_of_map; lia|done|by eapply ticker_defined].
    by rewrite (store_ticker_run w' i (map_data (fun _ => l) o) core d) by (done || (rewrite cores_map, data_of_map; lia)).
  - apply the_object.
Qed.

Lemma Access_spec c : wp (Access c i) (fun core w' => (core < length (data_of o))%nat /\ objects w' = objects w /\ st_refines w' a) w.
Proof using refines Ho.
  pose proof the_object as []. unfold Access. apply wp_bind, wp_run. exists o, w. split; [by apply object_run|]. apply wp_bind, wp_zoom.
  eapply wp_conseq; [apply core_index_spec; [done|]|].
  { destruct (generators w !! thread c) eqn:E; [|done]. by eapply (sr_generators _ _ refines). }
  intros core g [Hcore Hg]. unfold cores, CL_Size in ob_cores0. assert (core < length (data_of o))%nat as Hlt by lia. set (w' := mkWorld _ _).
  destruct (lookup_lt_is_Some_2 (data_of o) core Hlt) as [d Hd]. apply wp_bind, wp_run. exists d, w'. split; [by apply (AccessAtCore_run w' i o)|].
  apply wp_ret. split_and!; [done..|]. destruct refines as [H1 H2 H3]. split; [done|done|]. intros th s. unfold w'. simpl.
  destruct (decide (thread c = th)) as [<-|Hne]; [|rewrite lookup_partial_alter_ne by done; apply H3]. rewrite lookup_partial_alter_eq. by intros ->.
Qed.
End local.

Lemma record_run w a i o c t count : st_refines w a -> objects w !! i = Some o -> ticker_ok a i t ->
  wp (check_ticker i t;; core ← Access c i; x ← load_ticker i core t; store_ticker i core t (u64 (x + count)))
    (fun _ w' => st_refines w' (sp_tick [i] t (fun total => u64 (total + count)) a)) w.
Proof.
  intros Hr Ho Ht. destruct (check_ticker_run w a Hr i o Ho t Ht) as [Hc Hrange]. apply wp_bind, wp_run. exists tt, w. split; [done|].
  apply wp_bind. eapply wp_conseq; [by eapply Access_spec|]. intros core w1 (Hcore & Eo & Hr1). assert (objects w1 !! i = Some o) as Ho1 by congruence.
  destruct (lookup_lt_is_Some_2 (data_of o) core Hcore) as [d Hd]. pose proof (the_object w1 a Hr1 i o Ho1) as Hob. pose proof Hob as [].
  destruct ob_values0 as (vss & HF & Hp). destruct (Forall2_lookup_l _ _ _ _ _ HF Hd) as (vs & Hvs & Hok). set (x := default 0 (ticker t d)).
  apply wp_bind, wp_run. exists x, w1. split; [apply (load_ticker_run w1 i o core d); [done..|by eapply ticker_defined]|].
  apply wp_run. eexists _, _. split; [by apply (store_ticker_run w1 i o core d)|].
  eapply (object_change w1 a i o _ (fun t' => if decide (t' = t) then u64 (sp_total a i t + count) else sp_total a i t') (sp_values a i)); [done|done| |done| |done|].
  - split; [done| | | |done].
    + rewrite cores_map, data_of_map, length_insert. done.
    + exists vss. split; [|done]. rewrite data_of_map. rewrite <- (list_insert_id vss core vs Hvs). apply Forall2_insert; [done|by apply set_ticker_ok].
    + intros t' Ht'. rewrite data_of_map. unfold column. rewrite list_fmap_insert. rewrite (ticker_set _ _ _ vs) by (done || lia). fold (column t' (data_of o)).
      case_decide as E.
      * rewrite E. rewrite (zsum_insert _ _ x). 2: { unfold column. by rewrite list_lookup_fmap, Hd. }
        cbn [from_option]. unfold id. rewrite u64_add_r. rewrite <- ob_totals0, u64_add_l by done. f_equal. lia.
      * rewrite list_insert_id; [by apply ob_totals0|]. unfold column. by rewrite list_lookup_fmap, Hd.
  - intros t' _. simpl. destruct (decide (t' = t)) as [->|Hne].
    + by rewrite decide_True by (split; [by left|done]).
    + by rewrite decide_False by naive_solver.
  - intros k Hk. split; [done|]. intros t'. simpl. rewrite decide_False; [done|]. intros [->%list_elem_of_singleton _]. done.
Qed.

Lemma concat_insert (vss : list (list Z)) : forall core vs v, vss !! core = Some vs -> concat (<[core := v :: vs]> vss) ≡ₚ v :: concat vss.
Proof.
  induction vss as [|ws vss IH]; intros [|core] vs v Hc; simpl in *; simplify_eq; [done|]. rewrite (IH core vs v Hc). by rewrite Permutation_middle.
Qed.

Lemma measure_run w a i o c h v : st_refines w a -> objects w !! i = Some o -> histogram_ok a i h -> 0 <= v ->
  wp (check_histogram i h;; core ← Access c i; on_histogram i core h (Add v)) (fun _ w' => st_refines w' (sp_value [i] v a)) w.
Proof.
  intros Hr Ho Hh Hv. destruct (check_histogram_run w a Hr i o Ho h Hh) as [Hc ->]. apply wp_bind, wp_run. exists tt, w. split; [done|].
  apply wp_bind. eapply wp_conseq; [by eapply Access_spec|]. intros core w1 (Hcore & Eo & Hr1). assert (objects w1 !! i = Some o) as Ho1 by congruence.
  destruct (lookup_lt_is_Some_2 (data_of o) core Hcore) as [d Hd]. pose proof (the_object w1 a Hr1 i o Ho1) as Hob. pose proof Hob as [].
  destruct ob_values0 as (vss & HF & Hp). destruct (Forall2_lookup_l _ _ _ _ _ HF Hd) as (vs & Hvs & Hok). pose proof Hok as [Hlen Hhist].
  apply wp_run. eexists _, _. split; [apply (on_histogram_run w1 i o core d _ (histogram_of vs) tt (histogram_of (v :: vs))); [done..|by apply Add_run]|].
  eapply (object_change w1 a i o _ (sp_total a i) (v :: sp_values a i)); [done|done| |done|done| |].
  - split; [done| | | |done].
    + rewrite cores_map, data_of_map, length_insert. done.
    + exists (<[core := v :: vs]> vss). rewrite data_of_map. split; [apply Forall2_insert; [done|by split]|]. by rewrite (concat_insert vss core vs v Hvs), Hp.
    + intros t' Ht'. rewrite data_of_map. unfold column. rewrite list_fmap_insert. rewrite list_insert_id; [by apply ob_totals0|]. by rewrite list_lookup_fmap, Hd.
  - simpl. by rewrite decide_True by (by left).
  - intros k Hk. split; [|done]. simpl. rewrite decide_False; [done|]. by intros ->%list_elem_of_singleton.
Qed.

(** The empty histogram of a constructor. *)
Lemma constructed : construct_stat (mkStat 0 0 0 0 0 (replicate kBuckets 0)) = Ok (tt, histogram_of []).
Proof. unfold construct_stat, mbind, M_bind, assert_that. rewrite bucket_count. apply Clear_run. apply length_replicate. Qed.

Lemma foldl_merge l : forall vss vs, Forall2 core_ok l vss ->
  foldl (fun r d => stat_sum r (default (histogram_of []) (head (histograms_ d)))) (histogram_of vs) l = histogram_of (vs ++ concat vss).
Proof.
  induction l as [|d l IH]; intros vss vs HF.
  - inversion HF. cbn [foldl concat]. by rewrite app_nil_r.
  - apply Forall2_cons_inv_l in HF as (ws & vss' & [_ Hh] & HF & ->). cbn [foldl concat]. rewrite Hh. cbn [head from_option]. unfold id.
    by rewrite <- histogram_app, (IH vss'), app_assoc by done.
Qed.

Lemma merged_run w a i o spurious h : st_refines w a -> objects w !! i = Some o -> histogram_ok a i h ->
  getHistogramImplLocked spurious i h w = Ok (histogram_of (sp_values a i), w).
Proof.
  intros Hr Ho Hh. destruct (check_histogram_run w a Hr i o Ho h Hh) as [Hc ->]. unfold getHistogramImplLocked, mbind at 1, M_bind. rewrite Hc, constructed.
  pose proof (the_object w a Hr i o Ho) as Hob. pose proof Hob as []. destruct ob_values0 as (vss & HF & Hp).
  rewrite (each_core_run i o (fun _ d => d) (fun r d => stat_sum r (default (histogram_of []) (head (histograms_ d))))
    (fun r => exists vs, r = histogram_of vs)); [|..|exact Ho|done|by eexists].
  - rewrite (upd_imap_same _ _ o), (foldl_merge _ vss []), app_nil_l by done. by rewrite (histogram_Permutation _ _ Hp).
  - intros core d acc w' l Hl Hlen Hcore Hd [vs ->]. destruct (Forall2_lookup_l _ _ _ _ _ HF Hd) as (ws & _ & Hok). pose proof Hok as [_ Hhd].
    rewrite Hhd. cbn [head from_option]. unfold id. split; [|exists (vs ++ ws); by rewrite histogram_app]. unfold mbind, M_bind.
    rewrite (on_histogram_run w' i (map_data (fun _ => l) o) core d get (histogram_of ws) (histogram_of ws) (histogram_of ws)); [|done|by rewrite cores_map, data_of_map; lia|done|done|done].
    rewrite Merge_run by apply buckets_length. unfold mret, M_ret. do 2 f_equal. rewrite <- Hhd. by destruct d.
Qed.

(** *** Forwarding *)

(** An object and those its updates reach. *)
Fixpoint chain_from (os : list (option nat * bool)) (fuel i : nat) : list nat :=
  i :: match os !! i, fuel with Some (Some j, _), S fuel => chain_from os fuel j | _, _ => [] end.
Definition chain (a : StSpec) (i : nat) : list nat := chain_from (sp_objects a) i i.

Definition reached (a : StSpec) (i : nat) (guard : bool) : list nat := if guard then chain a i else [i].

Lemma links_decrease w a i j b : st_refines w a -> sp_objects a !! i = Some (Some j, b) -> (j < i)%nat.
Proof.
  intros Hr Hi. rewrite (sr_objects _ _ Hr), list_lookup_fmap in Hi. destruct (objects w !! i) as [o|] eqn:Ho; [|done]. injection Hi as Hs _.
  by apply (ob_stats _ _ _ _ (sr_object _ _ Hr i o Ho)).
Qed.

Lemma chain_below w a fuel : st_refines w a -> forall i k, k ∈ chain_from (sp_objects a) fuel i -> (k <= i)%nat.
Proof.
  intros Hr. induction fuel as [|fuel IH]; intros i k; cbn [chain_from].
  - destruct (sp_objects a !! i) as [[[j|] b]|]; by intros ->%list_elem_of_singleton.
  - intros [->|Hk]%elem_of_cons; [done|]. destruct (sp_objects a !! i) as [[[j|] b]|] eqn:E; [|by apply not_elem_of_nil in Hk..].
    apply IH in Hk. pose proof (links_decrease w a i j b Hr E). lia.
Qed.

Section forwarding.
Context (local : nat -> WM unit) (upd : list nat -> StSpec -> StSpec).
Hypothesis upd_objects : forall js a, sp_objects (upd js a) = sp_objects a.
Hypothesis upd_cons : forall w i js a, i ∉ js -> st_refines w (upd js (upd [i] a)) -> st_refines w (upd (i :: js) a).
Hypothesis local_ok : forall w a i o, st_refines w a -> objects w !! i = Some o -> wp (local i) (fun _ w' => st_refines w' (upd [i] a)) w.

Lemma forward_chain : forall fuel w a i o, (i <= fuel)%nat -> st_refines w a -> objects w !! i = Some o ->
  wp (forward (S fuel) local true i) (fun _ w' => st_refines w' (upd (chain_from (sp_objects a) fuel i) a)) w.
Proof using local_ok upd_objects upd_cons.
  induction fuel as [|fuel IH]; intros w a i o Hi Hr Ho; cbn [forward chain_from]; (apply wp_bind; eapply wp_conseq; [by eapply local_ok|]); intros [] w1 Hr1;
    pose proof (sr_objects _ _ Hr1) as E; rewrite upd_objects in E; rewrite E.
  all: assert (exists o1, objects w1 !! i = Some o1) as [o1 Ho1] by
    (rewrite (sr_objects _ _ Hr) in E; apply (f_equal (fun l => l !! i)) in E; rewrite !list_lookup_fmap, Ho in E; destruct (objects w1 !! i); [by eexists|done]).
  all: apply wp_bind, wp_run; exists o1, w1; split; [by apply object_run|]; rewrite list_lookup_fmap, Ho1; cbn [fmap option_fmap option_map].
  all: destruct (stats_ o1) as [j|] eqn:Es; [|by apply wp_ret].
  - pose proof (ob_stats _ _ _ _ (sr_object _ _ Hr1 i o1 Ho1) j Es). lia.
  - pose proof (ob_stats _ _ _ _ (sr_object _ _ Hr1 i o1 Ho1) j Es) as Hj.
    assert (exists oj, objects w1 !! j = Some oj) as [oj Hoj].
    { apply lookup_lt_is_Some_2. apply lookup_lt_Some in Ho1. lia. }
    eapply wp_conseq; [apply (IH w1 (upd [i] a) j oj); [lia|done|done]|]. intros [] w2 Hr2. rewrite upd_objects, E in Hr2.
    apply upd_cons; [|done]. intros Hin. rewrite <- E in Hin. apply (chain_below w a fuel Hr) in Hin. lia.
Qed.
End forwarding.

(** Any fuel from the object's number on gives the chain. *)
Lemma chain_fuel w a : st_refines w a -> forall f1 f2 i, (i <= f1)%nat -> (i <= f2)%nat -> chain_from (sp_objects a) f1 i = chain_from (sp_objects a) f2 i.
Proof.
  intros Hr. induction f1 as [|f1 IH]; intros [|f2] i H1 H2; cbn [chain_from]; try done; destruct (sp_objects a !! i) as [[[j|] b]|] eqn:E; try done;
    pose proof (links_decrease w a i j b Hr E); [lia..|]. f_equal. apply IH; lia.
Qed.

Lemma chain_step w a i j b : st_refines w a -> sp_objects a !! i = Some (Some j, b) -> chain a i = i :: chain a j.
Proof.
  intros Hr E. pose proof (links_decrease w a i j b Hr E). unfold chain. destruct i as [|i]; [lia|]. cbn [chain_from]. rewrite E. f_equal. apply (chain_fuel w a Hr); lia.
Qed.

(** *** Tickers of a chain *)

Lemma tick_cons t f w i js a : i ∉ js -> st_refines w (sp_tick js t f (sp_tick [i] t f a)) -> st_refines w (sp_tick (i :: js) t f a).
Proof.
  intros Hi. apply st_refines_ext; try done. intros k t'. simpl. destruct (decide (t' = t)) as [->|Hne].
  - destruct (decide (k ∈ js)) as [Hk|Hk].
    + rewrite decide_True by (split; [by right|done]). rewrite decide_True by done. rewrite decide_False; [done|]. intros [->%list_elem_of_singleton _]. done.
    + rewrite (decide_False (P := k ∈ js /\ t = t)) by tauto. destruct (decide (k = i)) as [->|Hki].
      * rewrite decide_True by (split; [by left|done]). by rewrite decide_True by (split; [by left|done]).
      * rewrite decide_False by (rewrite elem_of_cons; tauto). by rewrite decide_False by (rewrite list_elem_of_singleton; tauto).
  - by rewrite !decide_False by tauto.
Qed.

(** A ticker that every object has. *)
Lemma common_ticker w a i o t : st_refines w a -> objects w !! i = Some o -> 0 <= t < TICKER_ENUM_MAX -> ticker_ok a i t.
Proof.
  intros Hr Ho Ht. exists (stats_ o), (enable_internal_stats_ o). split; [by eapply object_links|].
  unfold INTERNAL_TICKER_ENUM_MAX, TICKER_ENUM_MAX in *. destruct (enable_internal_stats_ o); lia.
Qed.

Lemma ticker_object w a i t : st_refines w a -> ticker_ok a i t -> 0 <= t /\ exists o, objects w !! i = Some o.
Proof.
  intros Hr (p & b & E & Ht). split; [lia|]. rewrite (sr_objects _ _ Hr), list_lookup_fmap in E. destruct (objects w !! i); [by eexists|done].
Qed.

Lemma forward_ticks (local : nat -> WM unit) t f w a i :
  (forall w a i o, st_refines w a -> objects w !! i = Some o -> ticker_ok a i t -> wp (local i) (fun _ w' => st_refines w' (sp_tick [i] t f a)) w) ->
  st_refines w a -> ticker_ok a i t ->
  wp (forward (S i) local (t <? TICKER_ENUM_MAX) i) (fun _ w' => st_refines w' (sp_tick (reached a i (t <? TICKER_ENUM_MAX)) t f a)) w.
Proof.
  intros Hlocal Hr Ht. destruct (ticker_object w a i t Hr Ht) as [Hpos [o Ho]]. destruct (Z.ltb_spec t TICKER_ENUM_MAX) as [Hlt|Hge].
  - eapply (forward_chain local (fun js => sp_tick js t f)); [done|apply tick_cons| |done|done|done].
    intros w1 a1 j oj Hr1 Hoj. apply Hlocal with oj; [done|done|]. by eapply common_ticker.
  - cbn [forward]. apply wp_bind. eapply wp_conseq; [by eapply Hlocal|]. intros [] w1 Hr1.
    destruct (ticker_object w1 _ i t Hr1) as [_ [o1 Ho1]]; [exact Ht|]. apply wp_bind, wp_run. exists o1, w1. split; [by apply object_run|].
    destruct (stats_ o1); by apply wp_ret.
Qed.

Lemma set_ticks w a i t c : st_refines w a -> ticker_ok a i t -> 0 <= c < 2 ^ 64 ->
  wp (setTickerCount i t c) (fun _ w' => st_refines w' (sp_tick (reached a i (t <? TICKER_ENUM_MAX)) t (fun _ => c) a)) w.
Proof. intros Hr Ht Hc. apply forward_ticks; [|done|done]. intros. by eapply set_locked_run. Qed.

Lemma take_ticks w a i t : st_refines w a -> ticker_ok a i t ->
  wp (getAndResetTickerCount i t) (fun sum w' => sum = sp_total a i t /\
    st_refines w' (sp_tick (reached a i (t <? TICKER_ENUM_MAX)) t (fun _ => 0) a)) w.
Proof.
  intros Hr Ht. destruct (ticker_object w a i t Hr Ht) as [Hpos [o Ho]]. unfold getAndResetTickerCount.
  apply wp_bind, wp_run. exists tt, w. split; [by apply (check_ticker_run w a Hr i o)|].
  apply wp_bind. eapply wp_conseq; [by eapply get_and_reset_run|]. intros sum w1 [-> Hr1].
  destruct (ticker_object w1 _ i t Hr1) as [_ [o1 Ho1]]; [exact Ht|]. apply wp_bind, wp_run. exists o1, w1. split; [by apply object_run|].
  pose proof (object_links w1 _ Hr1 i o1 Ho1) as Hlinks. cbn [sp_tick sp_objects] in Hlinks.
  apply wp_bind. destruct (stats_ o1) as [j|] eqn:Es.
  - pose proof (chain_step w a i j _ Hr Hlinks) as Hchain. pose proof (links_decrease w a i j _ Hr Hlinks) as Hj.
    destruct (Z.ltb_spec t TICKER_ENUM_MAX) as [Hlt|Hge]; [|by apply wp_ret, wp_ret].
    assert (exists oj, objects w1 !! j = Some oj) as [oj Hoj] by (apply lookup_lt_is_Some_2; apply lookup_lt_Some in Ho1; lia).
    eapply wp_conseq; [apply (set_ticks w1 _ j t 0 Hr1); [by eapply common_ticker|done]|]. intros [] w2 Hr2. apply wp_ret. split; [done|].
    rewrite (proj2 (Z.ltb_lt _ _)) in Hr2 by done. cbn [reached] in *. rewrite Hchain. apply tick_cons; [|exact Hr2].
    intros Hin. apply (chain_below w a j Hr) in Hin. lia.
  - apply wp_ret, wp_ret. split; [done|]. replace (reached a i (t <? TICKER_ENUM_MAX)) with [i]; [done|]. unfold reached, chain.
    destruct (t <? TICKER_ENUM_MAX); [|done]. destruct i; cbn [chain_from]; by rewrite Hlinks.
Qed.

Lemma histogram_object w a i h : st_refines w a -> histogram_ok a i h -> (h <? HISTOGRAM_ENUM_MAX) = false /\ exists o, objects w !! i = Some o.
Proof.
  intros Hr (p & b & E & Hh). split; [apply Z.ltb_ge; unfold HISTOGRAM_ENUM_MAX; lia|].
  rewrite (sr_objects _ _ Hr), list_lookup_fmap in E. destruct (objects w !! i); [by eexists|done].
Qed.

(** No histogram is forwarded: the one there is is internal. *)
Lemma measure_all w a i o c h v : st_refines w a -> objects w !! i = Some o -> histogram_ok a i h -> 0 <= v ->
  wp (measureTime c i h v) (fun _ w' => st_refines w' (sp_value [i] v a)) w.
Proof.
  intros Hr Ho Hh Hv. destruct (histogram_object w a i h Hr Hh) as [Eg _]. unfold measureTime. rewrite Eg. cbn [forward].
  apply wp_bind. eapply wp_conseq; [by eapply measure_run|]. intros [] w1 Hr1. destruct (histogram_object w1 _ i h Hr1 Hh) as [_ [o1 Ho1]].
  apply wp_bind, wp_run. exists o1, w1. split; [by apply object_run|]. destruct (stats_ o1); by apply wp_ret.
Qed.

(** *** Reset and construction *)

(** The tickers of an object below [n] are zero. *)
Definition sp_reset (i : nat) (n : Z) (a : StSpec) : StSpec :=
  mkStSpec (sp_objects a) (fun k t => if decide (k = i /\ 0 <= t < n) then 0 else sp_total a k t) (sp_values a).

Lemma reset_loop a i todo : forall t w, st_refines w (sp_reset i t a) -> (exists o, objects w !! i = Some o) -> 0 <= t -> t + Z.of_nat todo <= TICKER_ENUM_MAX ->
  wp (for_types todo t (fun t => setTickerCountLocked i t 0)) (fun _ w' => st_refines w' (sp_reset i (t + Z.of_nat todo) a)) w.
Proof.
  induction todo as [|todo IH]; intros t w Hr [o Ho] Ht Hle; cbn [for_types].
  - apply wp_ret. by rewrite Z.add_0_r.
  - assert (ticker_ok (sp_reset i t a) i t) as Hok by (eapply common_ticker; [done|done|lia]).
    apply wp_bind. eapply wp_conseq; [by apply (set_locked_run w _ Hr i o Ho t 0 Hok)|]. intros [] w1 Hr1.
    replace (t + Z.of_nat (S todo)) with (t + 1 + Z.of_nat todo) by lia. apply IH; [| |lia|lia].
    + eapply st_refines_ext; [..|exact Hr1]; [done| |done]. intros k t'. simpl.
      destruct (decide (k = i)) as [->|Hk]; [|rewrite !decide_False; [done|rewrite ?list_elem_of_singleton; tauto..]].
      destruct (decide (t' = t)) as [->|Hne].
      * rewrite decide_True by lia. by rewrite decide_True by (split; [by left|done]).
      * rewrite (decide_False (P := i ∈ [i] /\ t' = t)) by tauto. destruct (decide (0 <= t' < t)).
        -- by rewrite !decide_True by lia.
        -- by rewrite !decide_False by lia.
    + destruct (ticker_object w1 _ i t Hr1 Hok) as [_ H]. exact H.
Qed.

Lemma reset_run w a i o : st_refines w a -> objects w !! i = Some o ->
  wp (Reset i) (fun b w' => b = true /\ st_refines w' (sp_reset i TICKER_ENUM_MAX a)) w.
Proof.
  intros Hr Ho. unfold Reset. apply wp_bind. eapply wp_conseq.
  { apply (reset_loop a i (Z.to_nat TICKER_ENUM_MAX) 0 w); [|by eexists|done|done].
    eapply st_refines_ext; [..|exact Hr]; [done| |done]. intros k t. simpl. by rewrite decide_False by lia. }
  intros [] w1 Hr1. by apply wp_bind, wp_ret, wp_ret.
Qed.

Definition sp_new (stats : option nat) (internal : bool) (a : StSpec) : StSpec :=
  let n := length (sp_objects a) in
  mkStSpec (sp_objects a ++ [(stats, internal)]) (fun k t => if decide (k = n) then 0 else sp_total a k t)
    (fun k => if decide (k = n) then [] else sp_values a k).

Lemma new_data_run : new_data = Ok (mkStatData (replicate (Z.to_nat INTERNAL_TICKER_ENUM_MAX) 0) [histogram_of []]).
Proof. unfold new_data. by rewrite constructed. Qed.

Lemma new_object_run w a hw stats internal : st_refines w a -> i32 hw <= 2 ^ 30 -> (forall j, stats = Some j -> (j < length (sp_objects a))%nat) ->
  wp (new_StatisticsImpl hw stats internal) (fun i w' => i = length (sp_objects a) /\ st_refines w' (sp_new stats internal a)) w.
Proof.
  intros [H1 H2 H3] Hhw Hstats. unfold new_StatisticsImpl. apply wp_bind, wp_get. rewrite new_data_run. cbn [mbind res_bind].
  destruct (shift_loop_spec (i32 hw) Hhw 29 3) as (s & Hs & Hr & _ & _); [lia|lia|by left|]. unfold new_core_local. rewrite Hs. cbn [mbind res_bind mret res_ret].
  assert (length (sp_objects a) = length (objects w)) as El by (by rewrite H1, length_fmap).
  apply wp_bind, wp_put, wp_ret. split; [done|]. set (d := mkStatData _ [histogram_of []]). split.
  - simpl. by rewrite H1, fmap_app.
  - intros k o Hk. simpl in Hk. unfold sp_new. cbn [sp_total sp_values]. rewrite El. apply lookup_snoc_Some in Hk as [[Hlt Hk]|[-> <-]].
    + rewrite decide_False by lia. destruct (H2 k o Hk). split; try done. intros t Ht. rewrite decide_False by lia. by apply ob_totals0.
    + rewrite decide_True by done. assert (0 <= Z.shiftl 1 s) by (rewrite Z.shiftl_1_l; lia). split.
      * exact Hr.
      * unfold cores, CL_Size, data_of. cbn [per_core_stats_ size_shift_ data_]. by rewrite length_replicate.
      * exists (replicate (Z.to_nat (Z.shiftl 1 s)) []). split; [apply Forall2_replicate; by split|].
        generalize (Z.to_nat (Z.shiftl 1 s)). intros n. induction n; [done|]. simpl. done.
      * intros t Ht. rewrite decide_True by done. unfold data_of, column. cbn [per_core_stats_ data_]. rewrite fmap_replicate.
        assert (default 0 (ticker t d) = 0) as ->.
        { unfold ticker, d. cbn [tickers_]. rewrite lookup_replicate_2; [done|]. unfold INTERNAL_TICKER_ENUM_MAX in *. lia. }
        generalize (Z.to_nat (Z.shiftl 1 s)). intros n. induction n; [done|]. exact IHn.
      * intros j Hj. simpl in Hj. specialize (Hstats j Hj). lia.
  - exact H3.
Qed.

Lemma Data_total vs : exists data, Data (histogram_of vs) = Ok (data, histogram_of vs).
Proof.
  assert (forall p, wp (Percentile p) (fun _ st => st = histogram_of vs) (histogram_of vs)) as Hp.
  { intros p. unfold Percentile. apply wp_bind, wp_get. eapply wp_conseq; [apply percentile_loop_spec; [apply buckets_length|rewrite bucket_count; lia]|].
    by intros r st [-> _]. }
  assert (wp Data (fun _ st => st = histogram_of vs) (histogram_of vs)) as (data & st & E & ->)%wp_run; [|by exists data].
  unfold Data, Median, Average, StandardDeviation. do 3 (apply wp_bind; eapply wp_conseq; [apply Hp|intros ? ? ->]). apply wp_bind, wp_get.
  do 2 (apply wp_bind, wp_bind, wp_get; destruct (_ =? 0); apply wp_ret); by apply wp_ret.
Qed.

(** ** What the component promises *)

Inductive st_op : Type :=
| StNew (hardware_concurrency : Z) (stats : option nat) (internal : bool)
| StCount (i : nat) (t : Z)
| StSet (i : nat) (t count : Z)
| StTake (i : nat) (t : Z)
| StRecord (c : Caller) (i : nat) (t count : Z)
| StMeasure (c : Caller) (i : nat) (h value : Z)
| StHistogram (spurious : nat -> nat * nat) (i : nat) (h : Z)
| StReset (i : nat).

Inductive st_out : Type := OutUnit | OutObject (i : nat) | OutCount (n : Z) | OutData (d : HistogramData) | OutBool (b : bool).

Definition st_run (op : st_op) : WM st_out :=
  match op with
  | StNew hw stats internal => i ← new_StatisticsImpl hw stats internal; mret (OutObject i)
  | StCount i t => n ← getTickerCount i t; mret (OutCount n)
  | StSet i t count => setTickerCount i t count;; mret OutUnit
  | StTake i t => n ← getAndResetTickerCount i t; mret (OutCount n)
  | StRecord c i t count => recordTick c i t count;; mret OutUnit
  | StMeasure c i h value => measureTime c i h value;; mret OutUnit
  | StHistogram spurious i h => d ← histogramData spurious i h; mret (OutData d)
  | StReset i => b ← Reset i; mret (OutBool b)
  end.

Definition st_allowed (a : StSpec) (op : st_op) : Prop :=
  match op with
  | StNew hw stats _ => i32 hw <= 2 ^ 30 /\ forall j, stats = Some j -> (j < length (sp_objects a))%nat
  | StCount i t | StTake i t | StRecord _ i t _ => ticker_ok a i t
  | StSet i t count => ticker_ok a i t /\ 0 <= count < 2 ^ 64
  | StMeasure _ i h value => histogram_ok a i h /\ 0 <= value < 2 ^ 64
  | StHistogram _ i h => histogram_ok a i h
  | StReset i => is_Some (sp_objects a !! i)
  end.

Inductive st_step (a : StSpec) : st_op -> st_out -> StSpec -> Prop :=
| StepNew hw stats internal : st_step a (StNew hw stats internal) (OutObject (length (sp_objects a))) (sp_new stats internal a)
| StepCount i t : st_step a (StCount i t) (OutCount (sp_total a i t)) a
| StepSet i t count : st_step a (StSet i t count) OutUnit (sp_tick (reached a i (t <? TICKER_ENUM_MAX)) t (fun _ => count) a)
| StepTake i t : st_step a (StTake i t) (OutCount (sp_total a i t)) (sp_tick (reached a i (t <? TICKER_ENUM_MAX)) t (fun _ => 0) a)
| StepRecord c i t count :
    st_step a (StRecord c i t count) OutUnit (sp_tick (reached a i (t <? TICKER_ENUM_MAX)) t (fun total => u64 (total + count)) a)
| StepMeasure c i h value : st_step a (StMeasure c i h value) OutUnit (sp_value (reached a i (h <? HISTOGRAM_ENUM_MAX)) value a)
| StepHistogram spurious i h data : Data (histogram_of (sp_values a i)) = Ok (data, histogram_of (sp_values a i)) ->
    st_step a (StHistogram spurious i h) (OutData data) a
| StepReset i : st_step a (StReset i) (OutBool true) (sp_reset i TICKER_ENUM_MAX a).

Definition st_start : StSpec := mkStSpec [] (fun _ _ => 0) (fun _ => []).

(** C36: The statistics are totals: whatever cores and threads the calls came from,
    and wherever the generator sends a thread whose core is unknown, a ticker is
    the sum modulo [2^64] of what was recorded since it was last set, in the
    object and in all it forwards to; a histogram answers from all values it was
    given; no call fails an assertion or leaves the arrays.  [Reset] clears the
    tickers of its object and, unlike the other updates, forwards nothing. *)
Theorem statistics_refine_totals : st_refines (mkWorld [] ∅) st_start /\
  forall w a op, st_refines w a -> st_allowed a op ->
    wp (st_run op) (fun out w' => exists a', st_step a op out a' /\ st_refines w' a') w.
Proof.
  split; [by split|]. intros w a op Hr Ha. destruct op; cbn [st_run st_allowed] in *; apply wp_bind.
  - destruct Ha as [Hhw Hs]. eapply wp_conseq; [by apply (new_object_run w a)|]. intros i w1 [-> Hr1]. apply wp_ret. eexists. split; [constructor|done].
  - destruct (ticker_object w a i t Hr Ha) as [_ [o Ho]]. apply wp_run. exists (sp_total a i t), w. split; [by apply (total_run w a Hr i o)|].
    apply wp_ret. eexists. split; [constructor|done].
  - destruct Ha as [Ht Hc]. eapply wp_conseq; [by apply (set_ticks w a)|]. intros [] w1 Hr1. apply wp_ret. eexists. split; [constructor|done].
  - eapply wp_conseq; [by apply (take_ticks w a)|]. intros n w1 [-> Hr1]. apply wp_ret. eexists. split; [constructor|done].
  - eapply wp_conseq; [apply (forward_ticks _ t (fun total => u64 (total + count)) w a i); [|done|done]; intros; by eapply record_run|].
    intros [] w1 Hr1. apply wp_ret. eexists. split; [constructor|done].
  - destruct Ha as [Hh Hv]. destruct (histogram_object w a i h Hr Hh) as [Eg [o Ho]]. eapply wp_conseq; [apply (measure_all w a i o); [done|done|done|lia]|].
    intros [] w1 Hr1. apply wp_ret. eexists. split; [constructor|]. by rewrite Eg.
  - destruct (histogram_object w a i h Hr Ha) as [_ [o Ho]].
    destruct (Data_total (sp_values a i)) as [data Hd]. apply wp_run. exists data, w. split.
    + unfold histogramData, mbind, M_bind. rewrite (merged_run w a i o) by done. by rewrite Hd.
    + apply wp_ret. eexists. split; [by constructor|done].
  - destruct Ha as [x E]. assert (exists o, objects w !! i = Some o) as [o Ho].
    { rewrite (sr_objects _ _ Hr), list_lookup_fmap in E. destruct (objects w !! i); [by eexists|done]. }
    eapply wp_conseq; [by apply (reset_run w a i o)|]. intros b w1 [-> Hr1]. apply wp_ret. eexists. split; [constructor|done].
Qed.

(** The database's own object, on four cores. *)
Example statistics_refine_totals_witness : st_allowed st_start (StNew 4 None false) /\
  wp (st_run (StNew 4 None false)) (fun out w' => exists a', st_step st_start (StNew 4 None false) out a' /\ st_refines w' a') (mkWorld [] ∅).
Proof. split; [by split|]. apply statistics_refine_totals; [apply statistics_refine_totals|by split]. Defined.

(** Two objects: [Reset] of the second leaves the first, to which its ticks were
    forwarded.  The thread's core is unknown: the generator picks one. *)
Example reset_is_not_forwarded :
  wp (first ← CreateDBStatistics 4;
      second ← new_StatisticsImpl 4 (Some first) false;
      RecordTick (mkCaller 1 301 (fun _ => -1)) (Some second) 0 5;;
      before ← getTickerCount first 0;
      Reset second;;
      n ← getTickerCount first 0;
      m ← getTickerCount second 0;
      mret (before, n, m)) (fun out _ => out = (5, 5, 0)) (mkWorld [] ∅).
Proof. by vm_compute. Qed.
