(* ===== verification/SpinMutex.v ===== *)
(** The spinning lock of the helpers (src/src/util/mutexlock.h), with any number
    of threads whose atomic accesses interleave. *)
From S2P Require Import Prelude.

(** Where a thread is: outside; about to load the flag, after [tries] failures;
    about to exchange the flag it has read as free; or with the lock.  [once] says
    that the call is a [try_lock], which gives up after one failure. *)
Inductive spin_pc : Type :=
| Outside
| ToLoad (once : bool) (tries : nat)
| ToExchange (once : bool) (tries : nat)
| Holding.

Record SpinMutex : Type := mkSpin {
  locked_ : bool;
  pcs : gmap nat spin_pc;
}.

Definition new_spin (threads : list nat) : SpinMutex := mkSpin false (list_to_map ((fun t => (t, Outside)) <$> threads)).

Definition SpM : Type -> Type := M SpinMutex.

Definition set_pc (t : nat) (pc : spin_pc) : SpM unit := modify (fun s => mkSpin (locked_ s) (<[t := pc]> (pcs s))).
Definition set_locked (b : bool) : SpM unit := modify (fun s => mkSpin b (pcs s)).
Definition pc_of (t : nat) : SpM spin_pc := s ← get; match pcs s !! t with Some pc => mret pc | None => fail end.

(** [try_lock] has failed: [lock] pauses and goes on, whatever [tries] is. *)
Definition failed (t : nat) (once : bool) (tries : nat) : SpM unit :=
  set_pc t (if once then Outside else ToLoad false (S tries)).

(** The load of [try_lock]. *)
Definition try_load (t : nat) (once : bool) (tries : nat) : SpM unit :=
  s ← get;
  let currently_locked := locked_ s in
  if negb currently_locked then set_pc t (ToExchange once tries) else failed t once tries.

(** Its [compare_exchange_weak], which may fail without reason. *)
Definition try_exchange (spurious : bool) (t : nat) (once : bool) (tries : nat) : SpM unit :=
  s ← get;
  if negb (locked_ s) && negb spurious then set_locked true;; set_pc t Holding else failed t once tries.

Definition unlock (t : nat) : SpM unit := set_locked false;; set_pc t Outside.

(** The next atomic access of thread [t]; outside it calls [try_lock] or [lock],
    with the lock it calls [unlock]. *)
Definition spin_step (t : nat) (once spurious : bool) : SpM unit :=
  pc ← pc_of t;
  match pc with
  | Outside => set_pc t (ToLoad once 0)
  | ToLoad once tries => try_load t once tries
  | ToExchange once tries => try_exchange spurious t once tries
  | Holding => unlock t
  end.

Inductive spin_reachable (threads : list nat) : SpinMutex -> Prop :=
| SpinStart : spin_reachable threads (new_spin threads)
| SpinStep s t once spurious s' : spin_reachable threads s -> spin_step t once spurious s = Ok (tt, s') -> spin_reachable threads s'.

(** A schedule. *)
Fixpoint spin_run (sched : list (nat * bool * bool)) : SpM unit :=
  match sched with [] => mret tt | (t, once, spurious) :: sched => spin_step t once spurious;; spin_run sched end.

Lemma spin_run_reachable threads sched : forall s s', spin_reachable threads s -> spin_run sched s = Ok (tt, s') -> spin_reachable threads s'.
Proof.
  induction sched as [|[[t once] spurious] sched IH]; intros s s' Hs; [by intros [= <-]|].
  intros ([] & s1 & H1 & H2)%bind_Ok. eapply IH; [|exact H2]. by eapply SpinStep.
Qed.

(** The flag is set exactly when a thread has the lock, and then one has. *)
Record spin_ok (s : SpinMutex) : Prop := {
  spin_one t t' : pcs s !! t = Some Holding -> pcs s !! t' = Some Holding -> t = t';
  spin_flag : locked_ s = true <-> exists t, pcs s !! t = Some Holding;
}.

Lemma new_spin_outside threads t pc : pcs (new_spin threads) !! t = Some pc -> pc = Outside.
Proof.
  simpl. intros H%elem_of_list_to_map_2. apply list_elem_of_fmap in H as (t' & [= _ ->] & _). done.
Qed.

Lemma new_spin_ok threads : spin_ok (new_spin threads).
Proof.
  split.
  - by intros t t' ?%new_spin_outside.
  - split; [done|]. by intros [t ?%new_spin_outside].
Qed.

(** A thread without the lock moves, and does not take it. *)
Lemma set_pc_ok s t pc pc' : spin_ok s -> pcs s !! t = Some pc -> pc <> Holding -> pc' <> Holding -> spin_ok (mkSpin (locked_ s) (<[t := pc']> (pcs s))).
Proof.
  intros [H1 H2] Ht Hpc Hpc'. split; simpl.
  - intros t1 t2 [[-> ?]|[_ E1]]%lookup_insert_Some [[-> ?]|[_ E2]]%lookup_insert_Some; try congruence. by eapply H1.
  - rewrite H2. split; intros [t' E].
    + exists t'. rewrite lookup_insert_ne; [done|]. intros ->. congruence.
    + apply lookup_insert_Some in E as [[_ ?]|[_ E]]; [congruence|by exists t'].
Qed.

Lemma spin_step_ok s t once spurious s' : spin_ok s -> spin_step t once spurious s = Ok (tt, s') -> spin_ok s'.
Proof.
  intros Hok. unfold spin_step, pc_of, mbind, M_bind, get. destruct (pcs s !! t) as [pc|] eqn:Ht; [|done]. unfold mret, M_ret.
  assert (forall once tries, failed t once tries s = Ok (tt, s') -> pc <> Holding -> spin_ok s') as Hfailed.
  { intros o n [= <-] Hpc. eapply set_pc_ok; [done|exact Ht|done|by destruct o]. }
  destruct pc as [|o n|o n|].
  - intros [= <-]. by eapply set_pc_ok.
  - unfold try_load, mbind, M_bind, get. destruct (negb (locked_ s)); [intros [= <-]; by eapply set_pc_ok|]. intros H. by eapply Hfailed.
  - unfold try_exchange, mbind, M_bind, get. destruct (negb (locked_ s) && negb spurious) eqn:Eb; [|intros H; by eapply Hfailed].
    intros [= <-]. destruct Hok as [H1 H2]. apply andb_prop in Eb as [El%negb_true_iff _].
    assert (forall t', pcs s !! t' <> Some Holding) as Hnone.
    { intros t' E. assert (locked_ s = true) by (apply H2; by exists t'). congruence. }
    split; simpl.
    + intros t1 t2 [[-> _]|[_ E1]]%lookup_insert_Some [[-> _]|[_ E2]]%lookup_insert_Some; try done; exfalso; by eapply Hnone.
    + split; [|done]. intros _. exists t. apply lookup_insert_eq.
  - intros [= <-]. destruct Hok as [H1 H2]. split; simpl.
    + intros t1 t2 [[_ ?]|[Hne E1]]%lookup_insert_Some; [done|]. by destruct (Hne (H1 _ _ Ht E1)).
    + split; [done|]. intros [t' [[_ ?]|[Hne E]]%lookup_insert_Some]; [done|]. by destruct (Hne (H1 _ _ Ht E)).
Qed.

Lemma spin_reachable_ok threads s : spin_reachable threads s -> spin_ok s.
Proof. induction 1; [apply new_spin_ok|by eapply spin_step_ok]. Qed.

Lemma spin_step_total s t once spurious : is_Some (pcs s !! t) -> exists s', spin_step t once spurious s = Ok (tt, s').
Proof.
  intros [pc Ht]. unfold spin_step, pc_of, mbind, M_bind, get. rewrite Ht. unfold mret, M_ret.
  destruct pc; [by eexists|unfold try_load|unfold try_exchange|by eexists]; unfold mbind, M_bind, get; destruct (negb _); try destruct (negb _); by eexists.
Qed.

(** C38: However the threads' accesses interleave and exchanges fail, no two
    threads have the spinning lock at once; and when nobody has it, a thread that
    runs alone has it after its next two accesses, wherever its loop is. *)
Theorem spin_mutual_exclusion threads s : spin_reachable threads s ->
  (forall t t', pcs s !! t = Some Holding -> pcs s !! t' = Some Holding -> t = t') /\
  (forall t tries, (forall t', pcs s !! t' <> Some Holding) -> pcs s !! t = Some (ToLoad false tries) ->
    exists s1 s2, spin_step t false false s = Ok (tt, s1) /\ spin_step t false false s1 = Ok (tt, s2) /\ pcs s2 !! t = Some Holding).
Proof.
  intros Hr. pose proof (spin_reachable_ok _ _ Hr) as [H1 H2]. split; [exact H1|]. intros t tries Hnone Ht.
  assert (locked_ s = false) as El.
  { destruct (locked_ s) eqn:E; [|done]. destruct (proj1 H2 eq_refl) as [t' Ht']. by destruct (Hnone t'). }
  unfold spin_step, pc_of, mbind, M_bind, get. rewrite Ht. unfold mret, M_ret, try_load, mbind, M_bind, get. rewrite El. cbn [negb].
  unfold set_pc, modify. eexists _, _. split; [reflexivity|]. cbn [pcs]. rewrite lookup_insert_eq. unfold try_exchange, mbind, M_bind, get.
  cbn [locked_]. rewrite El. cbn [negb andb]. split; [reflexivity|]. cbn [pcs]. apply lookup_insert_eq.
Qed.

(** Two threads race: both see the flag free, one gets the lock. *)
Example spin_mutual_exclusion_witness : exists s,
  spin_run [(1, false, false); (2, false, false); (1, false, false); (2, false, false); (1, false, false); (2, false, false)]%nat
    (new_spin [1%nat; 2%nat]) = Ok (tt, s) /\
  pcs s !! 1%nat = Some Holding /\ pcs s !! 2%nat = Some (ToLoad false 1) /\
  (forall t t', pcs s !! t = Some Holding -> pcs s !! t' = Some Holding -> t = t').
Proof.
  eexists. split_and!; [reflexivity|reflexivity|reflexivity|].
  eapply (spin_mutual_exclusion [1%nat; 2%nat]). eapply spin_run_reachable; [apply SpinStart|].
  instantiate (1 := [(1, false, false); (2, false, false); (1, false, false); (2, false, false); (1, false, false); (2, false, false)]%nat).
  reflexivity.
Defined.
