(* ===== verification/Slice.v ===== *)
(** Keys: [zlog::Slice] comparison as an interface, and the key prefixes of
    src/src/db/persistent_tree.h. *)
From S2P Require Import Prelude.

(** [zlog::Slice::compare] is a header of the zlog library: a parameter, with
    the documented three-way byte order as its law. *)
Class SliceCompare := slice_compare : string -> string -> Z.

Class SliceLaws `{SliceCompare} : Prop :=
  slice_compare_law a b :
    match String.compare a b with
    | Lt => slice_compare a b < 0
    | Eq => slice_compare a b = 0
    | Gt => slice_compare a b > 0
    end.

(** The instance the witnesses run on. *)
Definition lex_slice : SliceCompare := fun a b =>
  match String.compare a b with Lt => -1 | Eq => 0 | Gt => 1 end.

Definition PREFIX_USER : string := "U".
Definition PREFIX_COMMITTED_INTENTION : string := "C".

(** [out.push_back(0); out.append(value)] *)
Definition prefix_string (prefix value : string) : string :=
  (prefix ++ String Ascii.zero value)%string.

Lemma lex_slice_laws : @SliceLaws lex_slice.
Proof. intros a b. unfold slice_compare, lex_slice. destruct (String.compare a b); lia. Qed.

Section laws.
Context `{SliceLaws}.

Lemma slice_compare_lt a b : slice_compare a b < 0 <-> slt a b.
Proof. unfold slt. pose proof (slice_compare_law a b). destruct (String.compare a b); split; auto; lia || done. Qed.

Lemma slice_compare_eq a b : slice_compare a b = 0 <-> a = b.
Proof.
  pose proof (slice_compare_law a b) as L. split.
  - destruct (String.compare a b) eqn:E; try lia. intros _. by apply String.compare_eq_iff.
  - intros ->. by rewrite compare_refl in L.
Qed.

Lemma slice_compare_gt a b : 0 < slice_compare a b <-> slt b a.
Proof.
  rewrite <- compare_gt_slt. pose proof (slice_compare_law a b).
  destruct (String.compare a b); split; auto; lia || done.
Qed.

(** The three branches every search of the source takes on [cmp]. *)
Lemma slice_cases a b :
  (slice_compare a b = 0 /\ a = b)
  \/ (slice_compare a b < 0 /\ slt a b)
  \/ (0 < slice_compare a b /\ slt b a).
Proof.
  destruct (Z.lt_total (slice_compare a b) 0) as [|[|]].
  - right; left. split; [done|]. by apply slice_compare_lt.
  - left. split; [done|]. by apply slice_compare_eq.
  - right; right. split; [done|]. by apply slice_compare_gt.
Qed.
End laws.

Lemma string_app_cons c (a b : string) : (String c a ++ b)%string = String c (a ++ b).
Proof. done. Qed.

Lemma slt_cons c a b : slt (String c a) (String c b) <-> slt a b.
Proof.
  unfold slt. simpl.
  assert (Ascii.compare c c = Eq) as ->; [|done].
  unfold Ascii.compare. by rewrite N.compare_refl.
Qed.

Lemma slt_app p a b : slt (p ++ a)%string (p ++ b)%string <-> slt a b.
Proof. induction p as [|c p IH]; [done|]. rewrite !string_app_cons, slt_cons. done. Qed.

(** Prefixing is an order embedding, so each prefix is a key range of its own. *)
Lemma prefix_string_slt p a b : slt (prefix_string p a) (prefix_string p b) <-> slt a b.
Proof. unfold prefix_string. by rewrite slt_app, slt_cons. Qed.

Lemma prefix_string_inj p a b : prefix_string p a = prefix_string p b -> a = b.
Proof.
  intros E. destruct (slt_total a b) as [L|[L|L]]; [|done|];
    apply (prefix_string_slt p) in L; rewrite E in L; by apply slt_irrefl in L.
Qed.
