(* ===== verification/RBTree.v ===== *)
(** Persistent red-black trees as mathematical objects: what a snapshot of the
    database denotes, and the zipper form of the rebalancing that
    src/src/db/persistent_tree.cc performs in place.  The heap-level code is in
    PersistentTree.v; this file is its reference. *)
From S2P Require Import Prelude.

Inductive tree : Type :=
| E
| T (c : bool) (l : tree) (k v : string) (r : tree).

#[export] Instance tree_eq_dec : EqDecision tree.
Proof. solve_decision. Defined.

Inductive side : Type := SideL | SideR.

#[export] Instance side_eq_dec : EqDecision side.
Proof. solve_decision. Defined.

Definition flip (s : side) : side := match s with SideL => SideR | SideR => SideL end.

(** [node_on s c a k v b]: the node whose child on side [s] is [a]. *)
Definition node_on (s : side) (c : bool) (a : tree) (k v : string) (b : tree) : tree :=
  match s with SideL => T c a k v b | SideR => T c b k v a end.

Definition is_red (t : tree) : bool := match t with E => false | T c _ _ _ _ => c end.
Definition recolor (c : bool) (t : tree) : tree :=
  match t with E => E | T _ l k v r => T c l k v r end.
Definition blacken : tree -> tree := recolor false.

Fixpoint elements (t : tree) : list (string * string) :=
  match t with E => [] | T _ l k v r => elements l ++ (k, v) :: elements r end.

Definition keys (t : tree) : list string := (elements t).*1.

Definition bst (t : tree) : Prop := StronglySorted slt (keys t).

Fixpoint height (t : tree) : nat :=
  match t with E => 0%nat | T _ l _ _ r => S (Nat.max (height l) (height r)) end.

Fixpoint find (k : string) (t : tree) : option string :=
  match t with
  | E => None
  | T _ l k' v r =>
    match String.compare k k' with Eq => Some v | Lt => find k l | Gt => find k r end
  end.

(** The database a tree stands for. *)
Definition to_map (t : tree) : gmap string string := list_to_map (elements t).

(** ** Zippers *)

Record pframe : Type := PFrame {
  pf_side : side;  (* the side the hole is on *)
  pf_red : bool;
  pf_key : string;
  pf_val : string;
  pf_sib : tree;
}.

Definition plug1 (t : tree) (f : pframe) : tree :=
  node_on (pf_side f) (pf_red f) t (pf_key f) (pf_val f) (pf_sib f).
Definition plug (fs : list pframe) (t : tree) : tree := fold_left plug1 fs t.

Fixpoint ctx_left (fs : list pframe) : list (string * string) :=
  match fs with
  | [] => []
  | f :: fs' => ctx_left fs' ++
      (match pf_side f with SideL => [] | SideR => elements (pf_sib f) ++ [(pf_key f, pf_val f)] end)
  end.
Fixpoint ctx_right (fs : list pframe) : list (string * string) :=
  match fs with
  | [] => []
  | f :: fs' =>
      (match pf_side f with SideL => (pf_key f, pf_val f) :: elements (pf_sib f) | SideR => [] end)
      ++ ctx_right fs'
  end.

(** The search path of [k]: the subtree it stops at, below the frames passed. *)
Fixpoint descend (k : string) (t : tree) (fs : list pframe) : tree * list pframe :=
  match t with
  | E => (E, fs)
  | T c l k' v r =>
    match String.compare k k' with
    | Eq => (t, fs)
    | Lt => descend k l (PFrame SideL c k' v r :: fs)
    | Gt => descend k r (PFrame SideR c k' v l :: fs)
    end
  end.

(** ** Rebalancing after an insertion *)

(** Rotation at the grandparent [f1] of the red node [t] whose parent [f0] is red. *)
Definition ins_rotate (t : tree) (f0 f1 : pframe) : tree :=
  let s := pf_side f1 in
  let gp inner := node_on s true inner (pf_key f1) (pf_val f1) (pf_sib f1) in
  if decide (pf_side f0 = s) then
    node_on s false t (pf_key f0) (pf_val f0) (gp (pf_sib f0))
  else
    match t with
    | E => E
    | T _ l k v r =>
      let '(ta, tb) := match s with SideL => (l, r) | SideR => (r, l) end in
      node_on s false (node_on s true (pf_sib f0) (pf_key f0) (pf_val f0) ta) k v (gp tb)
    end.

Fixpoint ins_fix (t : tree) (fs : list pframe) : tree :=
  match fs with
  | f0 :: ((f1 :: fs') as rest) =>
    if pf_red f0 then
      if is_red (pf_sib f1) then
        ins_fix
          (node_on (pf_side f1) true
             (node_on (pf_side f0) false t (pf_key f0) (pf_val f0) (pf_sib f0))
             (pf_key f1) (pf_val f1) (blacken (pf_sib f1))) fs'
      else plug fs' (ins_rotate t f0 f1)
    else plug fs t
  | _ => plug fs t
  end.

Definition insert_at (k v : string) (fs : list pframe) : tree :=
  blacken (ins_fix (T true E k v E) fs).

(** ** Rebalancing after a deletion *)

(** One step at a black sibling: [inl] is the deficit moved to the parent,
    [inr] the finished subtree. *)
Definition del_black (t : tree) (f : pframe) : tree + tree :=
  let s := pf_side f in
  match pf_sib f with
  | E => inr E
  | T _ l k v r =>
    let '(na, nb) := match s with SideL => (l, r) | SideR => (r, l) end in
    if negb (is_red na) && negb (is_red nb) then
      inl (node_on s (pf_red f) t (pf_key f) (pf_val f) (recolor true (pf_sib f)))
    else if negb (is_red nb) then
      match na with
      | E => inr E
      | T _ xl xk xv xr =>
        let '(xa, xb) := match s with SideL => (xl, xr) | SideR => (xr, xl) end in
        inr (node_on s (pf_red f) (node_on s false t (pf_key f) (pf_val f) xa) xk xv
               (node_on s false xb k v nb))
      end
    else
      inr (node_on s (pf_red f) (node_on s false t (pf_key f) (pf_val f) na) k v (blacken nb))
  end.

(** A red sibling is rotated above the parent, which turns red. *)
Definition del_red (f : pframe) : pframe * pframe :=
  let s := pf_side f in
  match pf_sib f with
  | E => (f, f)
  | T _ l k v r =>
    let '(na, nb) := match s with SideL => (l, r) | SideR => (r, l) end in
    (PFrame s true (pf_key f) (pf_val f) na, PFrame s (pf_red f) k v nb)
  end.

Fixpoint del_fix (t : tree) (fs : list pframe) : tree :=
  match fs with
  | [] => blacken t
  | f :: fs' =>
    if is_red t then plug fs (blacken t)
    else if is_red (pf_sib f) then
      let '(f', fb) := del_red f in
      match del_black t f' with
      | inl t' => plug (fb :: fs') (blacken t')
      | inr d => blacken (plug (fb :: fs') d)
      end
    else
      match del_black t f with
      | inl t' => del_fix t' fs'
      | inr d => blacken (plug fs' d)
      end
  end.

(** The leftmost node below a right child, with the frames down to it. *)
Fixpoint min_path (t : tree) (fs : list pframe) : tree * list pframe :=
  match t with
  | E => (E, fs)
  | T c l k v r => match l with E => (t, fs) | _ => min_path l (PFrame SideL c k v r :: fs) end
  end.

Definition unlink (c : bool) (t : tree) (fs : list pframe) : tree :=
  if c then plug fs t else del_fix t fs.

Definition delete_at (t : tree) (fs : list pframe) : tree :=
  match t with
  | E => plug fs E
  | T c E _ _ r => unlink c r fs
  | T c l _ _ E => unlink c l fs
  | T c l k v r =>
    let '(m, fm) := min_path r [] in
    match m with
    | E => plug fs t
    | T cm _ km vm rm => unlink cm rm (fm ++ PFrame SideR c km vm l :: fs)
    end
  end.

(** ** The operations on whole trees *)

Definition tree_delete (k : string) (t : tree) : tree :=
  match descend k t [] with
  | (E, _) => t
  | (s, fs) => delete_at s fs
  end.

Definition tree_insert (k v : string) (t : tree) : tree :=
  match descend k t [] with
  | (E, fs) => insert_at k v fs
  | _ => insert_at k v (snd (descend k (tree_delete k t) []))
  end.

(** ** Red-black shape *)

Inductive rb : nat -> tree -> Prop :=
| rb_E : rb 0 E
| rb_red n l k v r :
    rb n l -> rb n r -> is_red l = false -> is_red r = false -> rb n (T true l k v r)
| rb_black n l k v r : rb n l -> rb n r -> rb (S n) (T false l k v r).

(** A tree the database may publish: red-black, with a black root, sorted. *)
Definition rbtree (t : tree) : Prop := is_red t = false /\ (exists n, rb n t) /\ bst t.

(** [zok n b fs]: the hole of [fs] takes a tree of black height [n], which
    must be black when [b]. *)
Inductive zok : nat -> bool -> list pframe -> Prop :=
| zok_top n : zok n true []
| zok_black n b f fs :
    pf_red f = false -> rb n (pf_sib f) -> zok (S n) b fs -> zok n false (f :: fs)
| zok_red n f fs :
    pf_red f = true -> rb n (pf_sib f) -> is_red (pf_sib f) = false -> zok n false fs ->
    zok n true (f :: fs).

(** ** In-order contents of zippers and rebalancing *)

Lemma elements_node_on s c a k v b :
  elements (node_on s c a k v b) =
  match s with
  | SideL => elements a ++ (k, v) :: elements b
  | SideR => elements b ++ (k, v) :: elements a
  end.
Proof. by destruct s. Qed.

Lemma elements_recolor c t : elements (recolor c t) = elements t.
Proof. by destruct t. Qed.

Ltac app_norm := repeat progress (simpl; rewrite <- ?app_assoc); try done.

Lemma elements_plug fs t : elements (plug fs t) = ctx_left fs ++ elements t ++ ctx_right fs.
Proof.
  revert t. induction fs as [|f fs IH]; intros t; simpl.
  - by rewrite app_nil_r.
  - rewrite IH. unfold plug1. rewrite elements_node_on.
    destruct (pf_side f); app_norm.
Qed.

Lemma ctx_left_app fs fs' : ctx_left (fs ++ fs') = ctx_left fs' ++ ctx_left fs.
Proof. induction fs as [|f fs IH]; simpl; [by rewrite app_nil_r | by rewrite IH, app_assoc]. Qed.

Lemma ctx_right_app fs fs' : ctx_right (fs ++ fs') = ctx_right fs ++ ctx_right fs'.
Proof. induction fs as [|f fs IH]; simpl; [done | by rewrite IH, app_assoc]. Qed.

Lemma elements_plug_eq fs a b : elements a = elements b -> elements (plug fs a) = elements (plug fs b).
Proof. intros H. by rewrite !elements_plug, H. Qed.

Lemma plug_app fs fs' t : plug (fs ++ fs') t = plug fs' (plug fs t).
Proof. unfold plug. apply fold_left_app. Qed.

Ltac side_cases := repeat match goal with
  | |- context [match ?s with SideL => _ | SideR => _ end] => destruct s eqn:?
  | H : context [match ?s with SideL => _ | SideR => _ end] |- _ => destruct s eqn:?
  end; simplify_eq/=.

Lemma elements_ins_rotate t f0 f1 :
  is_red t = true -> elements (ins_rotate t f0 f1) = elements (plug [f0; f1] t).
Proof.
  intros Ht. unfold ins_rotate, plug, plug1; simpl.
  destruct t as [|c l k v r]; [done|].
  destruct (pf_side f0), (pf_side f1); simpl; app_norm.
Qed.

Lemma elements_ins_fix_len n : forall fs t, (length fs <= n)%nat ->
  is_red t = true -> elements (ins_fix t fs) = elements (plug fs t).
Proof.
  induction n as [|n IH]; intros fs t Hl Ht.
  { destruct fs; simpl in *; [done | lia]. }
  destruct fs as [|f0 [|f1 fs]]; [done..|]. simpl.
  destruct (pf_red f0); [|done].
  destruct (is_red (pf_sib f1)).
  - rewrite IH; [|simpl in *; lia | by destruct (pf_side f1)].
    apply elements_plug_eq. unfold plug1, blacken.
    destruct (pf_side f0), (pf_side f1); simpl; by rewrite elements_recolor.
  - apply elements_plug_eq. by rewrite elements_ins_rotate.
Qed.

Lemma elements_ins_fix fs t :
  is_red t = true -> elements (ins_fix t fs) = ctx_left fs ++ elements t ++ ctx_right fs.
Proof. intros. rewrite <- elements_plug. by eapply elements_ins_fix_len. Qed.

Lemma elements_insert_at k v fs :
  elements (insert_at k v fs) = ctx_left fs ++ (k, v) :: ctx_right fs.
Proof. unfold insert_at, blacken. rewrite elements_recolor, elements_ins_fix by done. done. Qed.

(** ** Red-black shape of zippers *)

Lemma rb_node_red s n a k v b :
  rb n a -> rb n b -> is_red a = false -> is_red b = false -> rb n (node_on s true a k v b).
Proof. intros. destruct s; by constructor. Qed.

Lemma rb_node_black s n a k v b : rb n a -> rb n b -> rb (S n) (node_on s false a k v b).
Proof. intros. destruct s; by constructor. Qed.

#[export] Hint Resolve rb_node_red rb_node_black rb_E : cruz.

Lemma rb_red_inv n l k v r : rb n (T true l k v r) ->
  rb n l /\ rb n r /\ is_red l = false /\ is_red r = false.
Proof. by inversion 1. Qed.

Lemma rb_black_inv n l k v r : rb n (T false l k v r) -> exists m, n = S m /\ rb m l /\ rb m r.
Proof. inversion 1; eauto. Qed.

Lemma rb_blacken n t : rb n t -> is_red t = true -> rb (S n) (blacken t).
Proof. intros H Hr. destruct t as [|[] l k v r]; try done. apply rb_red_inv in H. simpl. constructor; tauto. Qed.

Lemma rb_blacken_ex n t : rb n t -> exists m, rb m (blacken t).
Proof.
  intros H. destruct (is_red t) eqn:Hr; [eauto using rb_blacken|].
  exists n. by destruct t as [|[]].
Qed.

Lemma blacken_black t : is_red t = false -> blacken t = t.
Proof. by destruct t as [|[]]. Qed.

Lemma is_red_blacken t : is_red (blacken t) = false.
Proof. by destruct t. Qed.

Lemma rb_red_nonempty n t : rb (S n) t -> t <> E.
Proof. by intros H ->; inversion H. Qed.

Lemma zok_cons_inv n b f fs : zok n b (f :: fs) ->
  rb n (pf_sib f) /\
  ((pf_red f = false /\ b = false /\ exists b', zok (S n) b' fs)
   \/ (pf_red f = true /\ b = true /\ is_red (pf_sib f) = false /\ zok n false fs)).
Proof. inversion 1; subst; eauto 10. Qed.

(** Two shapes of a frame list, by the colour of its first frame. *)
Ltac zok_inv H :=
  let Hs := fresh "Hsib" in
  let Hc := fresh "Hcol" in
  let Hz := fresh "Hz" in
  let Hb := fresh "Hblk" in
  let b' := fresh "b" in
  let He := fresh in
  apply zok_cons_inv in H as (Hs & [(Hc & He & b' & Hz) | (Hc & He & Hb & Hz)]);
  simplify_eq.

Lemma plug1_red t f : is_red (plug1 t f) = pf_red f.
Proof. unfold plug1. by destruct (pf_side f). Qed.

Lemma rb_plug1_red n t f :
  pf_red f = true -> rb n t -> rb n (pf_sib f) -> is_red t = false -> is_red (pf_sib f) = false ->
  rb n (plug1 t f).
Proof. intros Hc. unfold plug1. rewrite Hc. auto with cruz. Qed.

Lemma rb_plug1_black n t f :
  pf_red f = false -> rb n t -> rb n (pf_sib f) -> rb (S n) (plug1 t f).
Proof. intros Hc. unfold plug1. rewrite Hc. auto with cruz. Qed.

#[export] Hint Resolve rb_plug1_red rb_plug1_black : cruz.

(** Any tree of the hole's black height fits, when it is black where it must be. *)
Lemma zok_plug fs : forall n b t, zok n b fs -> rb n t -> (b = true -> is_red t = false) ->
  (exists m, rb m (plug fs t)) /\ is_red (plug fs t) = false.
Proof.
  induction fs as [|f fs IH]; intros n b t Hz Ht Hb; simpl.
  - inversion Hz; subst. eauto.
  - zok_inv Hz; eapply IH; eauto with cruz; intros; by rewrite plug1_red.
Qed.

(** ** Insertion keeps the shape *)

Lemma ins_rotate_rb n t f0 f1 :
  rb n t -> is_red t = true ->
  rb n (pf_sib f0) -> is_red (pf_sib f0) = false ->
  rb n (pf_sib f1) -> is_red (pf_sib f1) = false ->
  rb (S n) (ins_rotate t f0 f1) /\ is_red (ins_rotate t f0 f1) = false.
Proof.
  intros Ht Hr H0 B0 H1 B1. unfold ins_rotate.
  destruct t as [|[] l k v r]; [done| |done].
  apply rb_red_inv in Ht as Hi. destruct Hi as (Hl & Hr' & Bl & Br).
  destruct (pf_side f0), (pf_side f1); simpl; split; try done; repeat constructor; auto.
Qed.

Lemma ins_fix_rb_len len : forall fs n b t, (length fs <= len)%nat ->
  rb n t -> is_red t = true -> zok n b fs -> exists m, rb m (blacken (ins_fix t fs)).
Proof.
  induction len as [|len IH]; intros fs n b t Hl Ht Hr Hz.
  { destruct fs; [simpl; eauto using rb_blacken | simpl in Hl; lia]. }
  destruct fs as [|f0 fs]; [simpl; eauto using rb_blacken|].
  assert (Hblack : forall n' b', pf_red f0 = false -> rb n (pf_sib f0) -> zok n' b' fs -> n' = S n ->
    exists m, rb m (blacken (plug (f0 :: fs) t))).
  { intros n' b' Hc Hs Hz' ->.
    destruct (zok_plug fs (S n) b' (plug1 t f0)) as [[m Hm] _]; eauto with cruz.
    { intros _. by rewrite plug1_red. }
    simpl. eapply rb_blacken_ex; eauto. }
  destruct fs as [|f1 fs]; simpl.
  { zok_inv Hz; [eauto | inversion Hz0]. }
  zok_inv Hz; rewrite Hcol; [by eapply Hblack|].
  zok_inv Hz0. destruct (is_red (pf_sib f1)) eqn:R1.
  - eapply IH; [simpl in *; lia | | | exact Hz].
    + apply rb_node_red; eauto using rb_blacken, is_red_blacken with cruz.
      by destruct (pf_side f0).
    + by destruct (pf_side f1).
  - destruct (ins_rotate_rb n t f0 f1) as [Hi Hb]; auto.
    edestruct (zok_plug fs (S n)) as [[m Hm] _]; [eassumption | exact Hi | done |].
    eapply rb_blacken_ex; eauto.
Qed.

Lemma insert_at_rb k v b fs : zok 0 b fs -> exists m, rb m (insert_at k v fs).
Proof. intros Hz. eapply ins_fix_rb_len; eauto. repeat constructor. Qed.

(** ** Deletion keeps the shape *)

Definition del_black_tree (x : tree + tree) : tree := match x with inl t => t | inr t => t end.

Lemma elements_del_black t f n :
  is_red (pf_sib f) = false -> rb (S n) (pf_sib f) ->
  elements (del_black_tree (del_black t f)) = elements (plug1 t f).
Proof.
  intros Hr Hs. unfold del_black, plug1.
  destruct (pf_sib f) as [|c l k v r] eqn:Es; [by apply rb_red_nonempty in Hs|].
  destruct (pf_side f);
    destruct l as [|[] ll lk lv lr], r as [|[] rl rk rv rr]; simpl; app_norm.
Qed.

(** A black step either hands the deficit to the parent, or ends with the
    parent's own black height and colour. *)
Lemma del_black_rb t f n :
  rb n t -> is_red t = false -> is_red (pf_sib f) = false -> rb (S n) (pf_sib f) ->
  match del_black t f with
  | inl t' => is_red t' = pf_red f /\ rb (S n) (blacken t')
  | inr d => is_red d = pf_red f /\ rb (if pf_red f then S n else S (S n)) d
  end.
Proof.
  intros Ht Hr Hb Hs. unfold del_black.
  destruct (pf_sib f) as [|c l k v r] eqn:Es; [by apply rb_red_nonempty in Hs|].
  simpl in Hb; subst c. apply rb_black_inv in Hs as (m & [= <-] & Hl & Hrr).
  destruct (pf_side f), (pf_red f);
    destruct l as [|[] ll lk lv lr], r as [|[] rl rk rv rr]; simpl; split; try done;
    repeat match goal with
    | H : rb _ (T true _ _ _ _) |- _ => apply rb_red_inv in H as (? & ? & ? & ?)
    end; repeat constructor; auto.
Qed.

(** The subtree a deletion repairs: a black one short of the hole's height, or
    one that is right once its root turns black. *)
Definition deficit (n : nat) (t : tree) : Prop :=
  if is_red t then rb (S n) (blacken t) else rb n t.

Lemma del_red_rb f n b fs :
  is_red (pf_sib f) = true -> zok (S n) b (f :: fs) ->
  exists f' fb b', del_red f = (f', fb) /\
    pf_side f' = pf_side f /\ pf_side fb = pf_side f /\
    pf_red f' = true /\ is_red (pf_sib f') = false /\ rb (S n) (pf_sib f') /\
    zok (S n) false (fb :: fs) /\ zok (S (S n)) b' fs /\
    forall t, elements (plug1 (plug1 t f') fb) = elements (plug1 t f).
Proof.
  intros Hr Hz. zok_inv Hz; [|congruence]. unfold del_red, plug1.
  destruct (pf_sib f) as [|[] l k v r] eqn:Es; [done| |done].
  apply rb_red_inv in Hsib as (? & ? & ? & ?).
  destruct (pf_side f); eexists _, _, _; split_and!; try done; simpl;
    try (econstructor; simpl; eauto); intros; app_norm.
Qed.

Lemma del_fix_rb fs : forall t n b, deficit n t -> zok (S n) b fs ->
  exists m, rb m (del_fix t fs) /\ is_red (del_fix t fs) = false.
Proof.
  unfold deficit. induction fs as [|f fs IH]; intros t n b Hd Hz; simpl.
  { destruct (is_red t) eqn:R; [exists (S n) | exists n; rewrite blacken_black by done]; auto using is_red_blacken. }
  destruct (is_red t) eqn:R.
  { destruct (zok_plug (f :: fs) _ _ (blacken t) Hz) as [[m ?] ?]; eauto using is_red_blacken. }
  destruct (is_red (pf_sib f)) eqn:Rs.
  - destruct (del_red_rb f n b fs) as (f' & fb & b' & -> & _ & _ & Rf & Bs & Hs & Hz' & _ & _); auto.
    pose proof (del_black_rb t f' n Hd R Bs Hs) as Hd'. rewrite Rf in Hd'.
    destruct (del_black t f') as [t'|d]; destruct Hd' as [Hc Hd'].
    + destruct (zok_plug _ _ _ (blacken t') Hz') as [[m ?] ?]; eauto using is_red_blacken.
    + destruct (zok_plug _ _ _ d Hz') as [[m ?] ?]; [done..|].
      rewrite blacken_black by done. eauto.
  - zok_inv Hz.
    + pose proof (del_black_rb t f n Hd R Rs Hsib) as Hd'. rewrite Hcol in Hd'.
      destruct (del_black t f) as [t'|d]; destruct Hd' as [Hc Hd'].
      * eapply IH; eauto. rewrite Hc. by rewrite blacken_black in Hd'.
      * destruct (zok_plug _ _ _ d Hz0) as [[m ?] ?]; [done..|].
        rewrite blacken_black by done. eauto.
    + pose proof (del_black_rb t f n Hd R Rs Hsib) as Hd'. rewrite Hcol in Hd'.
      destruct (del_black t f) as [t'|d]; destruct Hd' as [Hc Hd'].
      * eapply IH; eauto. by rewrite Hc.
      * destruct (zok_plug _ _ _ d Hz0) as [[m ?] ?]; [done..|].
        rewrite blacken_black by done. eauto.
Qed.

Lemma elements_del_fix fs : forall t n b, deficit n t -> zok (S n) b fs ->
  elements (del_fix t fs) = ctx_left fs ++ elements t ++ ctx_right fs.
Proof.
  intros t n b Hd Hz. rewrite <- elements_plug. revert t n b Hd Hz.
  unfold deficit. induction fs as [|f fs IH]; intros t n b Hd Hz; simpl.
  { apply elements_recolor. }
  destruct (is_red t) eqn:R.
  { apply elements_plug_eq. unfold plug1. rewrite !elements_node_on.
    unfold blacken. by rewrite elements_recolor. }
  destruct (is_red (pf_sib f)) eqn:Rs.
  - destruct (del_red_rb f n b fs) as (f' & fb & b' & -> & _ & _ & Rf & Bs & Hs & Hz' & _ & Hel); auto.
    pose proof (elements_del_black t f' n Bs Hs) as He.
    assert (forall u, elements u = elements (plug1 t f') -> elements (plug (fb :: fs) u) = elements (plug fs (plug1 t f))) as Hu.
    { intros u Hu. simpl. apply elements_plug_eq. rewrite <- Hel. unfold plug1 at 1 2.
      by rewrite !elements_node_on, Hu. }
    destruct (del_black t f') as [t'|d]; unfold blacken; rewrite ?elements_recolor; apply Hu;
      by rewrite ?elements_recolor.
  - pose proof Hz as Hz0. zok_inv Hz0.
    all: pose proof (elements_del_black t f n Rs Hsib) as He;
      pose proof (del_black_rb t f n Hd R Rs Hsib) as Hd'; rewrite Hcol in Hd';
      destruct (del_black t f) as [t'|d]; destruct Hd' as [Hc Hd'];
      unfold blacken; rewrite ?elements_recolor; simpl in He.
    all: try (erewrite IH; [by apply elements_plug_eq | | eassumption]; rewrite Hc;
              done || by rewrite blacken_black in Hd').
    all: by apply elements_plug_eq.
Qed.

(** ** Unlinking a node that has at most one child *)

Lemma deficit_rb n t : rb n t -> deficit n t.
Proof. intros H. unfold deficit. destruct (is_red t) eqn:R; auto using rb_blacken. Qed.

Definition hole_ok (c : bool) (t : tree) (fs : list pframe) : Prop :=
  exists n b, rb n t /\ zok (if c then n else S n) b fs /\ (c = true -> is_red t = false).

Lemma unlink_ok c t fs : hole_ok c t fs ->
  elements (unlink c t fs) = ctx_left fs ++ elements t ++ ctx_right fs /\
  exists m, rb m (unlink c t fs) /\ is_red (unlink c t fs) = false.
Proof.
  intros (n & b & Ht & Hz & Hc). unfold unlink. destruct c.
  - split; [apply elements_plug|].
    destruct (zok_plug _ _ _ t Hz) as [[m ?] ?]; eauto.
  - apply deficit_rb in Ht. split; [by eapply elements_del_fix | by eapply del_fix_rb].
Qed.

(** A node whose one child is [E] leaves a hole its other child fills; that
    child is empty or a red leaf. *)
Definition leaf_hole (c : bool) (t : tree) (fs : list pframe) : Prop :=
  exists b, rb 0 t /\ zok (if c then 0%nat else 1%nat) b fs /\ (c = true -> is_red t = false).

Lemma leaf_child n b c t k v fs s :
  rb n (node_on s c E k v t) -> zok n b fs -> leaf_hole c t fs.
Proof.
  intros Hr Hz. exists b. destruct c.
  - assert (rb n t /\ n = 0%nat /\ is_red t = false) as (? & -> & ?); [|done].
    destruct s; apply rb_red_inv in Hr as (H1 & H2 & ? & ?); inversion H1; inversion H2; subst; done.
  - assert (rb 0 t /\ n = 1%nat) as (? & ->); [|done].
    destruct s; apply rb_black_inv in Hr as (m & -> & H1 & H2); [inversion H1 | inversion H2]; subst; done.
Qed.

Lemma leaf_hole_ok c t fs : leaf_hole c t fs -> hole_ok c t fs.
Proof. intros (b & Hr & Hz & Hc). exists 0%nat, b. by split_and!. Qed.

Lemma leaf_child_ok n b c t k v fs s :
  rb n (node_on s c E k v t) -> zok n b fs -> hole_ok c t fs.
Proof. intros Hr Hz. apply leaf_hole_ok. by eapply leaf_child. Qed.

Lemma rb_0 t : rb 0 t -> t = E \/ is_red t = true.
Proof. inversion 1; auto. Qed.

(** ** Search paths *)

Definition focus_ok (t : tree) (fs : list pframe) : Prop :=
  exists n b, rb n t /\ zok n b fs /\ (b = true -> is_red t = false).

Lemma focus_ok_down s c a k v t fs :
  focus_ok (node_on s c a k v t) fs -> focus_ok a (PFrame s c k v t :: fs).
Proof.
  intros (n & b & Hr & Hz & Hb). destruct c.
  - assert (b = false) as -> by (destruct b, s; naive_solver).
    exists n, true. destruct s; apply rb_red_inv in Hr as (? & ? & ? & ?); split_and!; auto;
      by apply zok_red.
  - destruct s; apply rb_black_inv in Hr as (m & -> & ? & ?); exists m, false; split_and!; try done;
      by eapply zok_black.
Qed.

Lemma descend_plug k t fs : plug (snd (descend k t fs)) (fst (descend k t fs)) = plug fs t.
Proof.
  revert fs. induction t as [|c l IHl k' v r IHr]; intros fs; simpl; [done|].
  destruct (String.compare k k'); [done | by rewrite IHl | by rewrite IHr].
Qed.

Lemma descend_focus k t fs : focus_ok t fs ->
  focus_ok (fst (descend k t fs)) (snd (descend k t fs)).
Proof.
  revert fs. induction t as [|c l IHl k' v r IHr]; intros fs H; simpl; [done|].
  destruct (String.compare k k'); [done | apply IHl | apply IHr].
  - by apply (focus_ok_down SideL).
  - by apply (focus_ok_down SideR).
Qed.

Lemma descend_key k t fs c l k' v r :
  fst (descend k t fs) = T c l k' v r -> k' = k.
Proof.
  revert fs. induction t as [|c1 l1 IHl k1 v1 r1 IHr]; intros fs; simpl; [done|].
  destruct (String.compare k k1) eqn:Ek; [|apply IHl | apply IHr].
  simpl. intros [= -> -> -> -> ->]. symmetry. by apply String.compare_eq_iff.
Qed.

(** The contexts of a search path separate the smaller from the larger keys. *)
Definition separates (k : string) (fs : list pframe) : Prop :=
  Forall (fun x => slt x k) (ctx_left fs).*1 /\ Forall (slt k) (ctx_right fs).*1.

Lemma StronglySorted_app_iff {A} (R : A -> A -> Prop) l1 l2 :
  StronglySorted R (l1 ++ l2) <->
  StronglySorted R l1 /\ StronglySorted R l2 /\ Forall (fun x => Forall (R x) l2) l1.
Proof.
  induction l1 as [|x l1 IH]; simpl.
  - split; [by auto using SSorted_nil | by intros (? & ? & ?)].
  - split.
    + intros [H1 H2]%StronglySorted_inv. apply IH in H1 as (? & ? & ?).
      apply Forall_app in H2 as [? ?]. split_and!; auto using SSorted_cons.
    + intros ([H1 H2]%StronglySorted_inv & H3 & [H4 H5]%Forall_cons).
      apply SSorted_cons; [by apply IH | by apply Forall_app].
Qed.

Lemma bst_node c l k v r : bst (T c l k v r) <->
  bst l /\ bst r /\ Forall (fun x => slt x k) (keys l) /\ Forall (slt k) (keys r).
Proof.
  unfold bst, keys. simpl. rewrite fmap_app, fmap_cons, StronglySorted_app_iff. simpl. split.
  - intros (H1 & [H2 H3]%StronglySorted_inv & H4). split_and!; auto.
    eapply Forall_impl; [exact H4|]. by intros x [? _]%Forall_cons.
  - intros (H1 & H2 & H3 & H4). split_and!; auto using SSorted_cons.
    eapply Forall_impl; [exact H3|]. intros x Hx. apply Forall_cons; split; [done|].
    by forall_trans H4.
Qed.

Lemma separates_left k c k' v r fs :
  slt k k' -> Forall (slt k') (keys r) -> separates k fs ->
  separates k (PFrame SideL c k' v r :: fs).
Proof.
  intros Hk Fr [H1 H2]. split; simpl; [by rewrite app_nil_r|].
  rewrite fmap_app. apply Forall_cons; split; [done|]. apply Forall_app; split; [|done].
  by forall_trans Fr.
Qed.

Lemma separates_right k c k' v l fs :
  slt k' k -> Forall (fun x => slt x k') (keys l) -> separates k fs ->
  separates k (PFrame SideR c k' v l :: fs).
Proof.
  intros Hk Fl [H1 H2]. split; simpl; [|done].
  rewrite !fmap_app. repeat apply Forall_app_2; [done| |by apply Forall_singleton].
  by forall_trans Fl.
Qed.

Lemma descend_separates k t fs : bst t -> separates k fs -> separates k (snd (descend k t fs)).
Proof.
  revert fs. induction t as [|c l IHl k' v r IHr]; intros fs Hb Hs; simpl; [done|].
  apply bst_node in Hb as (Hl & Hr & Fl & Fr).
  destruct (String.compare k k') eqn:Ek; [done | apply IHl | apply IHr]; try done.
  - by apply separates_left.
  - apply separates_right; try done. by apply compare_gt_slt.
Qed.

(** ** The minimum of a right child *)

Lemma min_path_app t : forall fs,
  min_path t fs = (fst (min_path t []), snd (min_path t []) ++ fs).
Proof.
  induction t as [|c l IH k v r _]; intros fs; simpl; [done|].
  destruct l as [|lc ll lk lv lr]; [done|].
  rewrite IH, (IH [PFrame SideL c k v r]). simpl. by rewrite <- app_assoc.
Qed.

Lemma min_path_plug t fs : plug (snd (min_path t fs)) (fst (min_path t fs)) = plug fs t.
Proof.
  revert fs. induction t as [|c l IH k v r _]; intros fs; simpl; [done|].
  destruct l as [|lc ll lk lv lr]; [done|]. by rewrite IH.
Qed.

Lemma min_path_focus t fs : focus_ok t fs ->
  focus_ok (fst (min_path t fs)) (snd (min_path t fs)).
Proof.
  revert fs. induction t as [|c l IH k v r _]; intros fs H; simpl; [done|].
  destruct l as [|lc ll lk lv lr]; [done|]. apply IH. by apply (focus_ok_down SideL).
Qed.

Lemma min_path_shape t fs : t <> E -> exists c k v r, fst (min_path t fs) = T c E k v r.
Proof.
  revert fs. induction t as [|c l IH k v r _]; intros fs H; [done|]. simpl.
  destruct l as [|lc ll lk lv lr]; [by eexists _, _, _, _ | by apply IH].
Qed.

Lemma min_path_step c l k v r fs :
  l <> E -> min_path (T c l k v r) fs = min_path l (PFrame SideL c k v r :: fs).
Proof. by destruct l. Qed.

Lemma min_path_left t : ctx_left (snd (min_path t [])) = [].
Proof.
  induction t as [|c l IH k v r _]; [done|].
  destruct (decide (l = E)) as [->|Hl]; [done|].
  rewrite min_path_step, min_path_app by done. cbn [snd].
  by rewrite ctx_left_app, IH.
Qed.

Lemma zok_payload n b fm s c k v l fs k' v' :
  zok n b (fm ++ PFrame s c k v l :: fs) -> zok n b (fm ++ PFrame s c k' v' l :: fs).
Proof.
  revert n b. induction fm as [|f fm IH]; intros n b H; simpl in *; zok_inv H.
  1,3: eapply zok_black; simpl; eauto.
  all: eapply zok_red; simpl; eauto.
Qed.

(** ** What the two operations do to the contents *)

Lemma delete_at_node c l k v r fs : focus_ok (T c l k v r) fs ->
  elements (delete_at (T c l k v r) fs) = ctx_left fs ++ elements l ++ elements r ++ ctx_right fs /\
  exists m, rb m (delete_at (T c l k v r) fs) /\ is_red (delete_at (T c l k v r) fs) = false.
Proof.
  intros (n & b & Hr & Hz & Hb). simpl.
  destruct l as [|cl ll kl vl rl].
  { apply unlink_ok. by apply (leaf_child_ok n b c r k v fs SideL). }
  destruct r as [|cr lr kr vr rr].
  { destruct (unlink_ok c (T cl ll kl vl rl) fs) as [He Hm]; [|by rewrite He].
    by apply (leaf_child_ok n b c _ k v fs SideR). }
  set (l := T cl ll kl vl rl) in *. set (r := T cr lr kr vr rr) in *.
  destruct (min_path_shape r []) as (cm & km & vm & rm & Hm); [done|].
  pose proof (min_path_left r) as Hleft. pose proof (min_path_plug r []) as Hplug.
  pose proof (min_path_app r [PFrame SideR c k v l]) as Happ.
  assert (focus_ok r (PFrame SideR c k v l :: fs)) as Hf.
  { apply (focus_ok_down SideR). by exists n, b. }
  apply min_path_focus in Hf. rewrite min_path_app in Hf.
  destruct (min_path r []) as [m fm]. simpl in *. subst m.
  destruct Hf as (n' & b' & Hr' & Hz' & _). apply (zok_payload _ _ _ _ _ _ _ _ _ km vm) in Hz'.
  destruct (unlink_ok cm rm (fm ++ PFrame SideR c km vm l :: fs)) as [He Hm].
  { by apply (leaf_child_ok n' b' cm rm km vm _ SideL). }
  split; [|done]. rewrite He, ctx_left_app, ctx_right_app. simpl.
  apply (f_equal elements) in Hplug. rewrite elements_plug, Hleft in Hplug. simpl in Hplug.
  rewrite <- Hplug, Hleft. app_norm.
Qed.

Lemma focus_ok_root t : is_red t = false -> (exists n, rb n t) -> focus_ok t [].
Proof. intros Hb [n Hn]. exists n, true. eauto using zok_top. Qed.

(** Both operations, as surgery on the in-order list at the search path. *)
Lemma descend_elements k t : is_red t = false -> (exists n, rb n t) ->
  let '(s, fs) := descend k t [] in
  focus_ok s fs /\ elements t = ctx_left fs ++ elements s ++ ctx_right fs /\
  (bst t -> separates k fs) /\ (forall c l k' v r, s = T c l k' v r -> k' = k).
Proof.
  intros Hb Hn. pose proof (descend_plug k t []) as Hp.
  pose proof (descend_focus k t [] (focus_ok_root t Hb Hn)) as Hf.
  pose proof (descend_separates k t []) as Hs. pose proof (descend_key k t []) as Hk.
  destruct (descend k t []) as [s fs]. simpl in *. split_and!; auto.
  - by rewrite <- Hp, elements_plug.
  - intros Hbst. apply Hs; [done|]. by split; constructor.
Qed.

Definition shape_ok (t : tree) : Prop := is_red t = false /\ exists n, rb n t.

Lemma bst_infix t A s B : bst t -> elements t = A ++ elements s ++ B -> bst s.
Proof.
  unfold bst, keys. intros H He. rewrite He, !fmap_app in H.
  apply StronglySorted_app_iff in H as (_ & H & _). by apply StronglySorted_app_iff in H as (H & _ & _).
Qed.

Lemma tree_delete_elements k t : shape_ok t -> bst t ->
  exists L m R, elements t = L ++ m ++ R /\ elements (tree_delete k t) = L ++ R /\
    Forall (fun x => slt x k) L.*1 /\ Forall (slt k) R.*1 /\
    (m = [] \/ exists v, m = [(k, v)]) /\ shape_ok (tree_delete k t).
Proof.
  intros [Hb Hn] Hbst. pose proof (descend_elements k t Hb Hn) as Hd. unfold tree_delete.
  destruct (descend k t []) as [s fs]. destruct Hd as (Hf & He & Hs & Hk).
  destruct (Hs Hbst) as [Hl Hr].
  destruct s as [|c l k' v r].
  - exists (ctx_left fs), [], (ctx_right fs). split_and!; auto. by split.
  - pose proof (Hk _ _ _ _ _ eq_refl) as ->. pose proof (delete_at_node _ _ _ _ _ _ Hf) as [Hd (n & Hn' & Hb')].
    exists (ctx_left fs ++ elements l), [(k, v)], (elements r ++ ctx_right fs).
    pose proof (bst_infix _ _ _ _ Hbst He) as (_ & _ & Fl & Fr)%bst_node.
    rewrite Hd, He. split_and!.
    + app_norm.
    + app_norm.
    + rewrite fmap_app. by apply Forall_app.
    + rewrite fmap_app. by apply Forall_app.
    + eauto.
    + split; eauto.
Qed.

Lemma list_to_map_mid (L R : list (string * string)) k v :
  k ∉ L.*1 -> list_to_map (L ++ (k, v) :: R) = <[k := v]> (list_to_map (L ++ R) : gmap string string).
Proof.
  induction L as [|[k' v'] L IH]; simpl; [done|].
  intros [Hne Hin]%not_elem_of_cons. rewrite IH by done. by rewrite insert_insert_ne.
Qed.

Lemma list_to_map_without (L R : list (string * string)) k :
  k ∉ L.*1 -> k ∉ R.*1 -> (list_to_map (L ++ R) : gmap string string) !! k = None.
Proof. intros HL HR. apply not_elem_of_list_to_map. rewrite fmap_app, elem_of_app. tauto. Qed.

Lemma Forall_slt_l k l : Forall (fun x => slt x k) l -> k ∉ l.
Proof. rewrite Forall_forall. intros H Hin. by apply (slt_irrefl k), H. Qed.

Lemma Forall_slt_r k l : Forall (slt k) l -> k ∉ l.
Proof. rewrite Forall_forall. intros H Hin. by apply (slt_irrefl k), H. Qed.

Lemma bst_remove L m R : StronglySorted slt (L ++ m ++ R) -> StronglySorted slt (L ++ R).
Proof.
  rewrite !StronglySorted_app_iff. intros (H1 & (H2 & H3 & H4) & H5). split_and!; auto.
  eapply Forall_impl; [exact H5|]. intros x [? ?]%Forall_app. done.
Qed.

Lemma tree_delete_ok k t : rbtree t ->
  rbtree (tree_delete k t) /\ to_map (tree_delete k t) = delete k (to_map t).
Proof.
  intros (Hb & Hn & Hbst).
  destruct (tree_delete_elements k t) as (L & m & R & He & Hd & HL & HR & Hm & [Hb' Hn']); [by split|done|].
  apply Forall_slt_l in HL. apply Forall_slt_r in HR. split.
  - split_and!; auto. unfold bst, keys in *. rewrite Hd. rewrite He, !fmap_app in Hbst.
    rewrite fmap_app. by eapply bst_remove.
  - unfold to_map. rewrite He, Hd.
    destruct Hm as [->|[v ->]]; simpl; [|rewrite list_to_map_mid, delete_insert_eq by done];
      rewrite delete_id; auto using list_to_map_without.
Qed.

Lemma insert_between (k : string) L R :
  StronglySorted slt (L ++ R) -> Forall (fun x => slt x k) L -> Forall (slt k) R ->
  StronglySorted slt (L ++ k :: R).
Proof.
  rewrite !StronglySorted_app_iff. intros (H1 & H2 & H3) HL HR. split_and!; auto using SSorted_cons.
  rewrite Forall_forall in *. intros x Hx. apply Forall_cons; eauto.
Qed.

Lemma insert_absent k v t : rbtree t -> to_map t !! k = None ->
  fst (descend k t []) = E /\
  rbtree (insert_at k v (snd (descend k t []))) /\
  to_map (insert_at k v (snd (descend k t []))) = <[k := v]> (to_map t).
Proof.
  intros (Hb & Hn & Hbst) Habs. pose proof (descend_elements k t Hb Hn) as Hd.
  destruct (descend k t []) as [s fs]. destruct Hd as (Hf & He & Hs & Hk). simpl.
  destruct (Hs Hbst) as [HL HR].
  destruct s as [|c l k' v' r].
  2: { exfalso. rewrite (Hk _ _ _ _ _ eq_refl) in *. unfold to_map in Habs. rewrite He in Habs. simpl in Habs.
       rewrite <- app_assoc in Habs. simpl in Habs. rewrite app_assoc, list_to_map_mid in Habs.
       - by rewrite lookup_insert_eq in Habs.
       - pose proof (bst_infix _ _ _ _ Hbst He) as (_ & _ & Fl & _)%bst_node.
         rewrite fmap_app, elem_of_app. intros [H|H]; [by apply Forall_slt_l in HL | by apply Forall_slt_l in Fl]. }
  simpl in He. split_and!; [done| | ].
  - destruct Hf as (n & b & Hr & Hz & _). inversion Hr; subst.
    split_and!; [apply is_red_blacken | by eapply insert_at_rb |].
    unfold bst, keys in *. rewrite elements_insert_at. rewrite He, fmap_app in Hbst.
    rewrite fmap_app. by apply insert_between.
  - unfold to_map. rewrite elements_insert_at, He. apply list_to_map_mid. by apply Forall_slt_l.
Qed.

Lemma lookup_find k t : bst t -> find k t = to_map t !! k.
Proof.
  unfold to_map. induction t as [|c l IHl k' v r IHr]; simpl; [by rewrite lookup_empty|].
  intros (Hl & Hr & Fl & Fr)%bst_node.
  assert (k' ∉ keys l) as Hnin by (by apply Forall_slt_l).
  rewrite list_to_map_mid, list_to_map_app by done.
  destruct (String.compare k k') eqn:Ek.
  - apply String.compare_eq_iff in Ek as ->. by rewrite lookup_insert_eq.
  - rewrite lookup_insert_ne by (intros <-; by apply slt_irrefl in Ek).
    rewrite IHl by done. rewrite lookup_union_l; [done|]. apply not_elem_of_list_to_map. apply Forall_slt_r.
    by forall_trans Fr.
  - apply compare_gt_slt in Ek. rewrite lookup_insert_ne by (intros <-; by apply slt_irrefl in Ek).
    rewrite IHr by done. rewrite lookup_union_r; [done|]. apply not_elem_of_list_to_map. apply Forall_slt_l.
    by forall_trans Fl.
Qed.

Lemma descend_found k t : rbtree t ->
  (fst (descend k t []) = E <-> to_map t !! k = None).
Proof.
  intros Hrb. split; [|by intros; eapply insert_absent].
  rewrite <- lookup_find by apply Hrb. destruct Hrb as (_ & _ & Hbst). clear. generalize (@nil pframe).
  induction t as [|c l IHl k' v r IHr]; intros fs; simpl; [done|].
  destruct (String.compare k k'); naive_solver.
Qed.

Lemma tree_insert_ok k v t : rbtree t ->
  rbtree (tree_insert k v t) /\ to_map (tree_insert k v t) = <[k := v]> (to_map t).
Proof.
  intros Hrb. unfold tree_insert. pose proof (descend_found k t Hrb) as Hf.
  destruct (descend k t []) as [s fs] eqn:Ed. simpl in Hf. destruct s as [|c l k' v' r].
  - destruct (insert_absent k v t Hrb) as (_ & ? & ?); [naive_solver|]. by rewrite Ed in *.
  - destruct (tree_delete_ok k t Hrb) as [Hrb' Hm].
    destruct (insert_absent k v (tree_delete k t) Hrb') as (_ & ? & Hi).
    { by rewrite Hm, lookup_delete_eq. }
    split; [done|]. by rewrite Hi, Hm, insert_delete_eq.
Qed.

(** ** Depth *)

Definition size (t : tree) : nat := length (elements t).

Lemma height_size t : (height t <= size t)%nat.
Proof.
  unfold size. induction t as [|c l IHl k v r IHr]; simpl; [done|].
  rewrite length_app. simpl. lia.
Qed.

Lemma descend_height k t fs :
  (length (snd (descend k t fs)) + height (fst (descend k t fs)) <= length fs + height t)%nat.
Proof.
  revert fs. induction t as [|c l IHl k' v r IHr]; intros fs; [simpl; lia|]. cbn [descend].
  destruct (String.compare k k'); [done| |].
  - etransitivity; [apply IHl|]. simpl. lia.
  - etransitivity; [apply IHr|]. simpl. lia.
Qed.

Lemma min_path_height t fs :
  (length (snd (min_path t fs)) + height (fst (min_path t fs)) <= length fs + height t)%nat.
Proof.
  revert fs. induction t as [|c l IH k v r _]; intros fs; [simpl; lia|].
  destruct (decide (l = E)) as [->|Hl]; [done|]. rewrite min_path_step by done.
  etransitivity; [apply IH|]. simpl. lia.
Qed.

Lemma rb_height n t : rb n t -> (height t <= 2 * n + (if is_red t then 1 else 0))%nat.
Proof.
  induction 1 as [|n l k v r Hl IHl Hr IHr El Er|n l k v r Hl IHl Hr IHr]; simpl; [done| |].
  - rewrite El, Er in *. lia.
  - destruct (is_red l), (is_red r); lia.
Qed.

Lemma rb_size n t : rb n t -> (2 ^ n <= S (size t))%nat.
Proof.
  unfold size. induction 1; simpl; rewrite ?length_app; simpl; lia.
Qed.

(** Duplicate-free contents tell a subtree from the sibling of its frame. *)
Lemma bst_apart f fs t : bst (plug (f :: fs) t) -> t <> E -> t <> pf_sib f.
Proof.
  intros Hb Ht ->. assert (bst (plug1 (pf_sib f) f)) as Hn.
  { eapply bst_infix; [exact Hb|]. exact (elements_plug fs (plug1 (pf_sib f) f)). }
  destruct (pf_sib f) as [|c l k v r] eqn:Es; [done|].
  assert (k ∈ keys (T c l k v r)) as Hk by (unfold keys; simpl; rewrite fmap_app; set_solver).
  unfold plug1 in Hn. rewrite Es in Hn.
  destruct (pf_side f); apply bst_node in Hn as (_ & _ & Hl & Hr);
    rewrite Forall_forall in Hl, Hr; by eapply (slt_asym k (pf_key f)); auto.
Qed.

(** ** The node a deletion unlinks *)

Lemma delete_at_one s c k v t fs : focus_ok (node_on s c E k v t) fs ->
  leaf_hole c t fs /\ delete_at (node_on s c E k v t) fs = unlink c t fs.
Proof.
  intros (n & b & Hr & Hz & _). pose proof (leaf_child _ _ _ _ _ _ _ _ Hr Hz) as Hl.
  split; [done|]. destruct s; simpl; [done|]. by destruct t.
Qed.

Lemma delete_at_two c l k v r fs cm km vm rm fm : focus_ok (T c l k v r) fs -> l <> E -> r <> E ->
  min_path r [] = (T cm E km vm rm, fm) ->
  leaf_hole cm rm (fm ++ PFrame SideR c km vm l :: fs) /\
  delete_at (T c l k v r) fs = unlink cm rm (fm ++ PFrame SideR c km vm l :: fs).
Proof.
  intros Hf Hl Hr Hm. apply (focus_ok_down SideR) in Hf. apply min_path_focus in Hf.
  rewrite min_path_app, Hm in Hf. destruct Hf as (n & b & Hrb & Hz & _).
  apply (zok_payload _ _ _ _ _ _ _ _ _ km vm) in Hz. split.
  - eapply (leaf_child n b cm rm km vm _ SideL); [exact Hrb|exact Hz].
  - destruct l as [|cl ll kl vl rl]; [done|]. destruct r as [|cr lr kr vr rr]; [done|].
    unfold delete_at. by rewrite Hm.
Qed.

Lemma unlink_bst c t fs : leaf_hole c t fs -> bst (unlink c t fs) -> bst (plug fs t).
Proof.
  intros Hl%leaf_hole_ok%unlink_ok. destruct Hl as [He _].
  unfold bst, keys. by rewrite He, elements_plug.
Qed.
