(* ===== verification/Node.v ===== *)
(** Tree nodes in memory: src/src/db/node.h and node.cc.  The shared store is a
    finite map of locations; a [NodePtr] is a weak reference into it together
    with the physical address it can be resolved again from. *)
From S2P Require Import Prelude Slice RBTree.

(** ** Physical addresses *)

Record NodeAddress : Type := mkNodeAddress {
  Position : Z;   (* uint64_t *)
  Offset : Z;     (* uint16_t *)
  IsAfterImage : bool;
}.

#[export] Instance NodeAddress_eq_dec : EqDecision NodeAddress.
Proof. solve_decision. Defined.

(** The constructor takes a [uint64_t] and a [uint16_t]. *)
Definition make_address (position offset : Z) (is_afterimage : bool) : NodeAddress :=
  mkNodeAddress (u64 position) (u16 offset) is_afterimage.

(** [operator<]; the kind of the position is not compared. *)
Definition address_lt (a b : NodeAddress) : bool :=
  if Position a <? Position b then true
  else if Position b <? Position a then false
  else if Offset a <? Offset b then true
  else false.

(** ** Pointers and nodes *)

Definition loc : Type := positive.

(** The singleton [Node::Nil()]. *)
Definition Nil : loc := 1%positive.

(** [ref_] is a [weak_ptr]: [None] when null or expired.  [db_] records
    whether the back pointer is non-null. *)
Record NodePtr : Type := mkNodePtr {
  ref_ : option loc;
  address_ : option NodeAddress;
  db_ : bool;
}.

Record Node : Type := mkNode {
  left : NodePtr;
  right : NodePtr;
  key_ : string;
  val_ : string;
  red_ : bool;
  rid_ : Z;         (* int64_t *)
  read_only_ : bool;
}.

Definition null_ptr : NodePtr := mkNodePtr None None false.

(** [std::numeric_limits<int64_t>::min()] through the [uint64_t] parameter. *)
Definition nil_node : Node := mkNode null_ptr null_ptr "" "" false (i64 (u64 (- 2 ^ 63))) true.

Definition child (s : side) (n : Node) : NodePtr := match s with SideL => left n | SideR => right n end.
Definition set_child (s : side) (p : NodePtr) (n : Node) : Node :=
  match s with
  | SideL => mkNode p (right n) (key_ n) (val_ n) (red_ n) (rid_ n) (read_only_ n)
  | SideR => mkNode (left n) p (key_ n) (val_ n) (red_ n) (rid_ n) (read_only_ n)
  end.
Definition with_red (c : bool) (n : Node) : Node :=
  mkNode (left n) (right n) (key_ n) (val_ n) c (rid_ n) (read_only_ n).
Definition with_rid (rid : Z) (n : Node) : Node :=
  mkNode (left n) (right n) (key_ n) (val_ n) (red_ n) rid (read_only_ n).
Definition with_payload (k v : string) (n : Node) : Node :=
  mkNode (left n) (right n) k v (red_ n) (rid_ n) (read_only_ n).
Definition with_read_only (n : Node) : Node :=
  mkNode (left n) (right n) (key_ n) (val_ n) (red_ n) (rid_ n) true.

(** ** Pointer fields *)

Definition ptr_set_ref (x : loc) (p : NodePtr) : NodePtr := mkNodePtr (Some x) (address_ p) (db_ p).
Definition ptr_set_address (a : option NodeAddress) (p : NodePtr) : NodePtr := mkNodePtr (ref_ p) a (db_ p).

Definition SetAddress {S} (a : option NodeAddress) (p : NodePtr) : M S NodePtr :=
  assert_that (bool_decide (address_ p = None));;
  mret (ptr_set_address a p).

Definition SetIntentionAddress (position offset : Z) (p : NodePtr) : NodePtr :=
  ptr_set_address (Some (make_address position offset false)) p.

Definition SetAfterImageAddress {S} (position offset : Z) (p : NodePtr) : M S NodePtr :=
  assert_that (bool_decide (address_ p = None));;
  mret (ptr_set_address (Some (make_address position offset true)) p).

Definition ConvertToAfterImage {S} (position : Z) (p : NodePtr) : M S NodePtr :=
  match address_ p with
  | None => fail
  | Some a =>
    assert_that (negb (IsAfterImage a));;
    assert_that (Position a <? position);;
    mret (ptr_set_address (Some (make_address position (Offset a) true)) p)
  end.

(** ** What a tree needs of the database that owns it *)

(** The node store: the heap itself, and the cache entry points of [DBImpl]
    ([fetch], [UpdateLRU], [IntentionToAfterImage]).  [NodeCache] implements it. *)
Class NodeStore (W : Type) : Type := {
  ns_heap : W -> gmap loc Node;
  ns_set_heap : gmap loc Node -> W -> W;
  ns_fetch : NodeAddress -> M (W * list NodeAddress) loc;
  ns_update_lru : list NodeAddress -> W -> W;
  ns_intention_to_afterimage : Z -> W -> option Z * W;
}.

Section node_ops.
Context {W : Type} `{NodeStore W}.

(** The state of a traversal: the store and the access trace. *)
Definition TM : Type -> Type := M (W * list NodeAddress).

Definition load (l : loc) : TM Node := fun '(w, tr) =>
  match ns_heap w !! l with Some n => Ok (n, (w, tr)) | None => AssertFail end.

Definition store (l : loc) (n : Node) : TM unit := fun '(w, tr) =>
  Ok (tt, (ns_set_heap (<[l := n]> (ns_heap w)) w, tr)).

Definition alloc (n : Node) : TM loc := fun '(w, tr) =>
  let l := fresh (dom (ns_heap w)) in
  Ok (l, (ns_set_heap (<[l := n]> (ns_heap w)) w, tr)).

Definition push_trace (a : option NodeAddress) : TM unit := fun '(w, tr) =>
  Ok (tt, (w, match a with Some a => tr ++ [a] | None => tr end)).

(** [NodePtr::fetch]. *)
Definition ptr_fetch (p : NodePtr) : TM loc :=
  match address_ p with
  | None => fail
  | Some a => assert_that (db_ p);; ns_fetch a
  end.

(** [NodePtr::ref]: the target, and the pointer with its reference restored. *)
Definition ref (p : NodePtr) : TM (loc * NodePtr) :=
  push_trace (address_ p);;
  match ref_ p with
  | Some l => mret (l, p)
  | None =>
    x ← ptr_fetch p;
    mret (x, ptr_set_ref x p)
  end.

(** Run with a trace of its own that is dropped afterwards. *)
Definition notrace {A} (m : TM A) : TM A := fun '(w, tr) =>
  match m (w, []) with
  | Ok (a, (w', _)) => Ok (a, (w', tr))
  | AssertFail => AssertFail
  | OutOfFuel => OutOfFuel
  end.

Definition ref_notrace (p : NodePtr) : TM (loc * NodePtr) := notrace (ref p).

(** Dereference the pointer in a field of the node at [l], in place. *)
Definition ref_child (s : side) (l : loc) : TM loc :=
  n ← load l;
  '(x, p) ← ref (child s n);
  n' ← load l;
  store l (set_child s p n');;
  mret x.

Definition ref_child_notrace (s : side) (l : loc) : TM loc := notrace (ref_child s l).

Definition set_ref_child (s : side) (l x : loc) : TM unit :=
  n ← load l;
  store l (set_child s (ptr_set_ref x (child s n)) n).

Definition get_child (s : side) (l : loc) : TM NodePtr := n ← load l; mret (child s n).
Definition put_child (s : side) (l : loc) (p : NodePtr) : TM unit :=
  n ← load l; store l (set_child s p n).

Definition node_red (l : loc) : TM bool := n ← load l; mret (red_ n).
Definition node_rid (l : loc) : TM Z := n ← load l; mret (rid_ n).
Definition node_key (l : loc) : TM string := n ← load l; mret (key_ n).
Definition node_val (l : loc) : TM string := n ← load l; mret (val_ n).

Definition set_read_only (l : loc) : TM unit :=
  n ← load l;
  assert_that (negb (read_only_ n));;
  store l (with_read_only n).

Definition set_red (c : bool) (l : loc) : TM unit :=
  n ← load l;
  assert_that (negb (read_only_ n));;
  store l (with_red c n).

Definition swap_color (l other : loc) : TM unit :=
  n ← load l;
  assert_that (negb (read_only_ n));;
  o ← load other;
  assert_that (negb (read_only_ o));;
  store l (with_red (red_ o) n);;
  o' ← load other;
  store other (with_red (red_ n) o').

Definition set_rid (rid : Z) (l : loc) : TM unit :=
  n ← load l;
  assert_that (negb (read_only_ n));;
  store l (with_rid (i64 rid) n).

(** The moved-from strings of [other] are left empty. *)
Definition steal_payload (l other : loc) : TM unit :=
  n ← load l;
  assert_that (negb (read_only_ n));;
  o ← load other;
  assert_that (negb (read_only_ o));;
  store l (with_payload (key_ o) (val_ o) n);;
  o' ← load other;
  store other (with_payload "" "" o').

(** The constructor of [Node], on references. *)
Definition new_node (k v : string) (red : bool) (lr rr : option loc) (rid : Z) (read_only db : bool) : TM loc :=
  alloc (mkNode (mkNodePtr lr None db) (mkNodePtr rr None db) k v red (i64 (u64 rid)) read_only).

(** [Node::Copy]: both children are resolved, references and addresses copied. *)
Definition node_copy (src : loc) (db : bool) (rid : Z) : TM loc :=
  if decide (src = Nil) then mret Nil else
  x ← ref_child_notrace SideL src;
  y ← ref_child_notrace SideR src;
  n ← load src;
  l ← new_node (key_ n) (val_ n) (red_ n) (Some x) (Some y) rid false db;
  m ← load l;
  pl ← SetAddress (address_ (left n)) (left m);
  pr ← SetAddress (address_ (right n)) (right m);
  store l (set_child SideR pr (set_child SideL pl m));;
  mret l.

End node_ops.

(** [ByteSize]; [sizeof( * this)] is a constant of the build. *)
Definition node_byte_size (sizeof_node : Z) (n : Node) : Z :=
  sizeof_node + Z.of_nat (String.length (key_ n)) + Z.of_nat (String.length (val_ n)).

(** ** What a location denotes *)

(** The root id of a node of an intention before [hor]. *)
Definition published (hor rid : Z) : Prop := 0 <= rid < hor.

Section denote.
Context (hor : Z) (stored names : NodeAddress -> tree -> Prop).

(** A pointer denotes [t] through its live reference, or through the log when
    the reference has expired; a non-empty target has an address that names it. *)
Definition ptr_denotes (nd : loc -> Prop) (p : NodePtr) (t : tree) : Prop :=
  match ref_ p with
  | Some l => nd l
  | None => db_ p = true /\ exists a, address_ p = Some a /\ stored a t
  end
  /\ (t <> E -> db_ p = true /\ exists a, address_ p = Some a /\ names a t).

(** The node at [l] is the root of [t], through published nodes: those of
    intentions before [hor]. *)
Fixpoint node_denotes (h : gmap loc Node) (t : tree) (l : loc) : Prop :=
  match t with
  | E => l = Nil
  | T c tl k v tr =>
    l <> Nil /\ exists n, h !! l = Some n /\ published hor (rid_ n) /\
      red_ n = c /\ key_ n = k /\ val_ n = v /\
      ptr_denotes (node_denotes h tl) (left n) tl /\
      ptr_denotes (node_denotes h tr) (right n) tr
  end.
End denote.

(** ** The contract of a node store *)

Class NodeStoreLaws (W : Type) `{NodeStore W} : Type := {
  (* the intentions processed so far are those before it *)
  ns_hor : Z;
  (* the store is coherent *)
  ns_inv : W -> Prop;
  (* the tree an address in the log holds *)
  ns_stored : W -> NodeAddress -> tree -> Prop;
  (* the tree an address will hold once its after image is written *)
  ns_names : W -> NodeAddress -> tree -> Prop;
  ns_get_set h w : ns_heap (ns_set_heap h w) = h;
  ns_stored_set h w : ns_stored (ns_set_heap h w) = ns_stored w;
  ns_names_set h w : ns_names (ns_set_heap h w) = ns_names w;
  ns_stored_fun w a t t' : ns_stored w a t -> ns_stored w a t' -> t = t';
  ns_nil w : ns_inv w -> ns_heap w !! Nil = Some nil_node;
  ns_inv_set w h :
    ns_inv w -> h !! Nil = Some nil_node ->
    (forall t l, node_denotes ns_hor (ns_stored w) (ns_names w) (ns_heap w) t l ->
                 node_denotes ns_hor (ns_stored w) (ns_names w) h t l) ->
    ns_inv (ns_set_heap h w);
  ns_fetch_law w tr a t :
    ns_inv w -> ns_stored w a t ->
    exists x w' tr', ns_fetch a (w, tr) = Ok (x, (w', tr')) /\
      ns_inv w' /\ ns_stored w' = ns_stored w /\ ns_names w' = ns_names w /\
      ns_heap w ⊆ ns_heap w' /\
      node_denotes ns_hor (ns_stored w) (ns_names w) (ns_heap w') t x;
  ns_update_lru_law w tr :
    ns_inv w ->
    ns_inv (ns_update_lru tr w) /\ ns_heap (ns_update_lru tr w) = ns_heap w /\
    ns_stored (ns_update_lru tr w) = ns_stored w /\ ns_names (ns_update_lru tr w) = ns_names w;
  (* what the index knows of an intention is where its trees are *)
  ns_i2a_law w i :
    ns_inv w ->
    let '(o, w') := ns_intention_to_afterimage i w in
    ns_inv w' /\ ns_heap w' = ns_heap w /\ ns_stored w' = ns_stored w /\ ns_names w' = ns_names w /\
    forall p off t, o = Some p -> ns_names w (mkNodeAddress i off false) t -> ns_names w (mkNodeAddress p off true) t;
}.

(** ** Stability of what a location denotes *)

Section denote_lemmas.
Context (hor : Z) (stored names : NodeAddress -> tree -> Prop).

Abbreviation nd := (node_denotes hor stored names).
Abbreviation pd h := (fun p t => ptr_denotes stored names (nd h t) p t).

Lemma ptr_denotes_mono (P Q : loc -> Prop) p t :
  (forall l, P l -> Q l) -> ptr_denotes stored names P p t -> ptr_denotes stored names Q p t.
Proof. intros HPQ [H1 H2]. split; [|done]. destruct (ref_ p); auto. Qed.

Lemma nd_mono h h' t l : h ⊆ h' -> nd h t l -> nd h' t l.
Proof.
  intros Hs. revert l. induction t as [|c tl IHl k v tr IHr]; simpl; [done|].
  intros l (Hl & n & Hn & ? & ? & ? & ? & Hpl & Hpr). split; [done|].
  exists n. split_and!; try done.
  - by eapply lookup_weaken.
  - eapply ptr_denotes_mono; [apply IHl | done].
  - eapply ptr_denotes_mono; [apply IHr | done].
Qed.

(** In-place updates of a delta node are invisible outside the delta. *)
Lemma nd_delta_write h l0 n0 n' t l :
  h !! l0 = Some n0 -> ~ published hor (rid_ n0) -> nd h t l -> nd (<[l0 := n']> h) t l.
Proof.
  intros H0 Hr. revert l. induction t as [|c tl IHl k v tr IHr]; simpl; [done|].
  intros l (Hl & n & Hn & ? & ? & ? & ? & Hpl & Hpr). split; [done|].
  exists n. split_and!; try done.
  - rewrite lookup_insert_ne; congruence.
  - eapply ptr_denotes_mono; [apply IHl | done].
  - eapply ptr_denotes_mono; [apply IHr | done].
Qed.

(** Restoring an expired reference is invisible. *)
Lemma nd_resolve h l0 n0 s a x t0 t l :
  (forall a t t', stored a t -> stored a t' -> t = t') ->
  h !! l0 = Some n0 -> ref_ (child s n0) = None -> address_ (child s n0) = Some a ->
  stored a t0 -> nd h t0 x ->
  nd h t l -> nd (<[l0 := set_child s (ptr_set_ref x (child s n0)) n0]> h) t l.
Proof.
  intros Hfun H0 Hd Ha Hst Hx. revert l.
  induction t as [|c tl IHl k v tr IHr]; simpl; [done|].
  intros l (Hl & n & Hn & ? & ? & ? & ? & Hpl & Hpr). split; [done|].
  apply (ptr_denotes_mono _ _ _ _ IHl) in Hpl as Hpl'.
  apply (ptr_denotes_mono _ _ _ _ IHr) in Hpr as Hpr'.
  destruct (decide (l = l0)) as [->|Hne]; [|exists n; rewrite lookup_insert_ne by done; by split_and!].
  simplify_eq. eexists. rewrite lookup_insert_eq. split; [done|].
  destruct s; simpl in *; split_and!; try done; split; simpl; try apply Hpl; try apply Hpr.
  - destruct Hpl as [Hpl _]. rewrite Hd in Hpl. destruct Hpl as (_ & a' & ? & Hs').
    simplify_eq. apply IHl. by rewrite (Hfun _ _ _ Hs' Hst).
  - destruct Hpr as [Hpr _]. rewrite Hd in Hpr. destruct Hpr as (_ & a' & ? & Hs').
    simplify_eq. apply IHr. by rewrite (Hfun _ _ _ Hs' Hst).
Qed.

Lemma nd_Nil h t : nd h t Nil -> t = E.
Proof. destruct t; simpl; [done|]. by intros [? _]. Qed.

Lemma nd_not_Nil h t l : nd h t l -> l <> Nil -> t <> E.
Proof. intros H Hl ->. done. Qed.
End denote_lemmas.

(** A later horizon, with more of the log and more addresses, denotes as much. *)
Lemma nd_weaken hor hor' (stored stored' names names' : NodeAddress -> tree -> Prop) h t l : hor <= hor' ->
  (forall a t, stored a t -> stored' a t) -> (forall a t, names a t -> names' a t) ->
  node_denotes hor stored names h t l -> node_denotes hor' stored' names' h t l.
Proof.
  intros Hh Hs Hn. assert (forall (nd nd' : loc -> Prop) p t, (forall l, nd l -> nd' l) ->
    ptr_denotes stored names nd p t -> ptr_denotes stored' names' nd' p t) as Hptr.
  { intros nd nd' p u Hnd [H1 H2]. split.
    - destruct (ref_ p); [by apply Hnd|]. destruct H1 as (? & a & ? & ?). eauto.
    - intros Hne. destruct (H2 Hne) as (? & a & ? & ?). eauto. }
  revert l. induction t as [|c tl IHl k v tr IHr]; [done|]. intros l (Hl & n & Hnl & Hp & ? & ? & ? & Hpl & Hpr).
  split; [done|]. exists n. split_and!; try done; [unfold published in *; lia|by eapply Hptr|by eapply Hptr].
Qed.
