(* ===== verification/Proto.v ===== *)
(** The messages of src/src/db/cruzdb.proto.  The generated accessors are
    record fields; an [optional] field is an [option]. *)
From S2P Require Import Prelude.

Record ProtoNodePtr : Type := mkProtoNodePtr {
  np_nil : bool;
  np_self : bool;
  np_intention : option Z;
  np_afterimage : option Z;
  np_off : option Z;
}.

Record ProtoNode : Type := mkProtoNode {
  pn_red : bool;
  pn_key : string;
  pn_val : string;
  pn_left : ProtoNodePtr;
  pn_right : ProtoNodePtr;
}.

Record AfterImage : Type := mkAfterImage {
  ai_intention : Z;
  ai_tree : list ProtoNode;
}.

Inductive OpType : Type := GET | PUT | DELETE | COPY.

#[export] Instance OpType_eq_dec : EqDecision OpType.
Proof. solve_decision. Defined.

Record TransactionOp : Type := mkTransactionOp {
  op_op : OpType;
  op_key : string;
  op_val : option string;
}.

Record ProtoIntention : Type := mkProtoIntention {
  pi_snapshot : Z;
  pi_token : Z;
  pi_flush : bool;
  pi_ops : list TransactionOp;
}.

Inductive EntryType : Type := INTENTION | AFTER_IMAGE.

Record LogEntry : Type := mkLogEntry {
  le_type : EntryType;
  le_intention : option ProtoIntention;
  le_after_image : option AfterImage;
}.
