(* ===== verification/PersistentTree.v ===== *)
(** The copy-on-write red-black tree of src/src/db/persistent_tree.h and
    persistent_tree.cc, on the heap of Node.v: path copying, in-place
    rebalancing of the nodes of the delta, address fix-up and serialization. *)
From S2P Require Import Prelude Slice RBTree Node Proto.

Definition ENOENT : Z := 2.

Record PersistentTree : Type := mkPersistentTree {
  pt_db : bool;
  pt_src_root : NodePtr;
  pt_root : option loc;
  pt_rid : Z;
  pt_intention : option Z;
  pt_afterimage : option Z;
  pt_trace : list NodeAddress;
  pt_fresh_nodes : list loc;
}.

(** The two constructors. *)
Definition new_tree (db : bool) (root : NodePtr) (rid : Z) : PersistentTree :=
  mkPersistentTree db root None rid None None [] [].
Definition new_tree_for (db : bool) (root : NodePtr) (rid intention : Z) : PersistentTree :=
  mkPersistentTree db root None rid (Some intention) None [] [].

Definition with_src_root (p : NodePtr) (t : PersistentTree) : PersistentTree :=
  mkPersistentTree (pt_db t) p (pt_root t) (pt_rid t) (pt_intention t) (pt_afterimage t) (pt_trace t) (pt_fresh_nodes t).
Definition with_root (x : option loc) (t : PersistentTree) : PersistentTree :=
  mkPersistentTree (pt_db t) (pt_src_root t) x (pt_rid t) (pt_intention t) (pt_afterimage t) (pt_trace t) (pt_fresh_nodes t).
Definition with_tree_rid (r : Z) (t : PersistentTree) : PersistentTree :=
  mkPersistentTree (pt_db t) (pt_src_root t) (pt_root t) r (pt_intention t) (pt_afterimage t) (pt_trace t) (pt_fresh_nodes t).
Definition with_intention (i : option Z) (t : PersistentTree) : PersistentTree :=
  mkPersistentTree (pt_db t) (pt_src_root t) (pt_root t) (pt_rid t) i (pt_afterimage t) (pt_trace t) (pt_fresh_nodes t).
Definition with_afterimage (i : option Z) (t : PersistentTree) : PersistentTree :=
  mkPersistentTree (pt_db t) (pt_src_root t) (pt_root t) (pt_rid t) (pt_intention t) i (pt_trace t) (pt_fresh_nodes t).
Definition with_trace (tr : list NodeAddress) (t : PersistentTree) : PersistentTree :=
  mkPersistentTree (pt_db t) (pt_src_root t) (pt_root t) (pt_rid t) (pt_intention t) (pt_afterimage t) tr (pt_fresh_nodes t).
Definition with_fresh (ns : list loc) (t : PersistentTree) : PersistentTree :=
  mkPersistentTree (pt_db t) (pt_src_root t) (pt_root t) (pt_rid t) (pt_intention t) (pt_afterimage t) (pt_trace t) ns.

Definition ReadOnly (t : PersistentTree) : bool := bool_decide (pt_root t = None).

Definition SetIntention {S} (pos : Z) (t : PersistentTree) : M S PersistentTree :=
  assert_that (bool_decide (pt_intention t = None));;
  mret (with_intention (Some pos) t).
Definition Intention_pos {S} (t : PersistentTree) : M S Z :=
  match pt_intention t with Some pos => mret pos | None => fail end.
Definition SetAfterImage {S} (pos : Z) (t : PersistentTree) : M S PersistentTree :=
  assert_that (bool_decide (pt_afterimage t = None));;
  mret (with_afterimage (Some pos) t).
Definition AfterImage_pos {S} (t : PersistentTree) : M S Z :=
  match pt_afterimage t with Some pos => mret pos | None => fail end.

(** Assertions that a reference is not null cannot fail, since [ref] never
    returns null: the model makes the dereference inside such an assertion only
    where the code makes no other one, so the trace may hold fewer duplicates. *)
Section persistent_tree.
Context {W : Type} `{NodeStore W} `{SliceCompare}.

(** The state of a tree operation: the store and the tree object. *)
Definition PM : Type -> Type := M (W * PersistentTree).

(** Node operations run against the tree's own trace. *)
Definition tm {A} (m : TM A) : PM A :=
  zoom (fun '(w, t) => (w, pt_trace t)) (fun '(w, tr) '(_, t) => (w, with_trace tr t)) m.

Definition get_tree : PM PersistentTree := '(_, t) ← get; mret t.
Definition set_tree (f : PersistentTree -> PersistentTree) : PM unit := modify (fun '(w, t) => (w, f t)).

Definition push_fresh (n : loc) : PM unit :=
  set_tree (fun t => with_fresh (pt_fresh_nodes t ++ [n]) t).

(** [db_->UpdateLRU(trace_)]; an empty trace touches no member of [db_]. *)
Definition UpdateLRU : PM unit :=
  t ← get_tree;
  match pt_trace t with
  | [] => mret tt
  | tr => assert_that (pt_db t);; modify (fun '(w, t) => (ns_update_lru tr w, with_trace [] t))
  end.

(** [TraceApplier]: the destructor publishes the trace on every exit. *)
Definition TraceApplier {A} (m : PM A) : PM A := a ← m; UpdateLRU;; mret a.

Definition tree_rid : PM Z := t ← get_tree; mret (pt_rid t).

(** [Node::Copy] into this tree's delta, kept alive in [fresh_nodes_]. *)
Definition copy_fresh (node : loc) : PM loc :=
  t ← get_tree;
  n ← tm (node_copy node (pt_db t) (pt_rid t));
  push_fresh n;;
  mret n.

(** The node itself when it is part of the delta, a fresh copy otherwise. *)
Definition own (node : loc) : PM loc :=
  rid ← tm (node_rid node);
  rid_ ← tree_rid;
  if decide (rid = rid_) then mret node else copy_fresh node.

(** Copy the node below [s] of [p] into the delta unless it is in it. *)
Definition own_child (s : side) (p : loc) : PM unit :=
  x ← tm (ref_child s p);
  rid ← tm (node_rid x);
  rid_ ← tree_rid;
  if decide (rid <> rid_) then
    x ← tm (ref_child s p);
    n ← copy_fresh x;
    tm (set_ref_child s p n)
  else mret tt.

Definition pop_front (path : list loc) : PM (loc * list loc) :=
  match path with x :: path' => mret (x, path') | [] => fail end.
Definition front (path : list loc) : PM loc :=
  match path with x :: _ => mret x | [] => fail end.

(** ** Insertion *)

Fixpoint insert_recursive (fuel : nat) (path : list loc) (key value : string) (node : loc)
    : PM (option loc * list loc) :=
  match fuel with
  | O => no_fuel
  | S fuel =>
    if decide (node = Nil) then
      t ← get_tree;
      nn ← tm (new_node key value true (Some Nil) (Some Nil) (pt_rid t) false (pt_db t));
      push_fresh nn;;
      mret (Some nn, path ++ [nn])
    else
      k ← tm (node_key node);
      let cmp := slice_compare key k in
      let less := cmp <? 0 in
      if cmp =? 0 then mret (None, path)
      else
        let s := if less then SideL else SideR in
        next ← tm (ref_child s node);
        '(child, path) ← insert_recursive fuel path key value next;
        match child with
        | None => mret (None, path)
        | Some child =>
          copy ← own node;
          tm (set_ref_child s copy child);;
          mret (Some copy, path ++ [copy])
        end
  end.

(** [rotate(parent, child, child_a, child_b, root)]: [child_a] is the side [a],
    [child_b] the other one.  Returns the raised node and the new root. *)
Definition rotate (parent ch : loc) (a : side) (root : loc) : PM (loc * loc) :=
  let b := flip a in
  grand_child ← tm (get_child b ch);
  '(gc, grand_child) ← tm (ref grand_child);
  p ← tm (get_child a gc);
  tm (put_child b ch p);;
  '(root, grand_child) ←
    (if decide (root = ch) then
       '(gc, grand_child) ← tm (ref grand_child);
       mret (gc, grand_child)
     else
       x ← tm (ref_child a parent);
       (if decide (x = ch) then tm (put_child a parent grand_child)
        else tm (put_child b parent grand_child));;
       mret (root, grand_child));
  rid ← tm (node_rid ch);
  rid_ ← tree_rid;
  assert_that (bool_decide (rid = rid_));;
  '(gc, grand_child) ← tm (ref grand_child);
  tm (set_ref_child a gc ch);;
  '(gc, _) ← tm (ref grand_child);
  mret (gc, root).

(** One iteration of the loop of [Put]; the state is [(parent, nn, path, root)]. *)
Definition insert_balance (parent nn : loc) (path : list loc) (a : side) (root : loc)
    : PM (loc * loc * list loc * loc) :=
  let b := flip a in
  gp ← front path;
  assert_that (bool_decide (gp <> Nil));;
  uncle ← tm (ref_child b gp);
  red ← tm (node_red uncle);
  if (red : bool) then
    own_child b gp;;
    tm (set_red false parent);;
    uncle ← tm (ref_child b gp);
    tm (set_red false uncle);;
    gp ← front path;
    tm (set_red true gp);;
    '(nn, path) ← pop_front path;
    '(parent, path) ← pop_front path;
    mret (parent, nn, path, root)
  else
    x ← tm (ref_child b parent);
    '(parent, nn, root) ←
      (if decide (nn = x) then
         let '(parent, nn) := (nn, parent) in
         gp ← front path;
         '(_, root) ← rotate gp nn a root;
         mret (parent, nn, root)
       else mret (parent, nn, root));
    '(grand_parent, path) ← pop_front path;
    tm (swap_color grand_parent parent);;
    top ← front path;
    '(_, root) ← rotate top grand_parent b root;
    mret (parent, nn, path, root).

(** The [while (parent->red())] loop of [Put]. *)
Fixpoint insert_loop (fuel : nat) (parent nn : loc) (path : list loc) (root : loc) : PM loc :=
  match fuel with
  | O => no_fuel
  | S fuel =>
    red ← tm (node_red parent);
    if (red : bool) then
      grand_parent ← front path;
      l ← tm (ref_child SideL grand_parent);
      '(parent, nn, path, root) ←
        insert_balance parent nn path (if decide (l = parent) then SideL else SideR) root;
      insert_loop fuel parent nn path root
    else mret root
  end.

(** ** Deletion *)

Fixpoint delete_recursive (fuel : nat) (path : list loc) (key : string) (node : loc)
    : PM (option loc * list loc) :=
  match fuel with
  | O => no_fuel
  | S fuel =>
    if decide (node = Nil) then mret (None, path)
    else
      k ← tm (node_key node);
      let cmp := slice_compare key k in
      let less := cmp <? 0 in
      if cmp =? 0 then
        copy ← own node;
        mret (Some copy, path ++ [copy])
      else
        let s := if less then SideL else SideR in
        next ← tm (ref_child s node);
        '(child, path) ← delete_recursive fuel path key next;
        match child with
        | None => mret (None, path)
        | Some child =>
          copy ← own node;
          tm (set_ref_child s copy child);;
          mret (Some copy, path ++ [copy])
        end
  end.

Definition transplant (parent removed transplanted root : loc) : PM loc :=
  if decide (parent = Nil) then mret transplanted
  else
    l ← tm (ref_child SideL parent);
    (if decide (l = removed) then tm (set_ref_child SideL parent transplanted)
     else tm (set_ref_child SideR parent transplanted));;
    mret root.

Fixpoint build_min_path (fuel : nat) (node : loc) (path : list loc) : PM (loc * list loc) :=
  match fuel with
  | O => no_fuel
  | S fuel =>
    l ← tm (ref_child SideL node);
    if decide (l = Nil) then mret (node, path)
    else
      own_child SideL node;;
      next ← tm (ref_child SideL node);
      build_min_path fuel next (node :: path)
  end.

(** The brother of the deficient side, copied into the delta if need be, and
    linked from [parent]. *)
Definition own_brother (parent brother : loc) (b : side) : PM loc :=
  n ← own brother;
  tm (set_ref_child b parent n);;
  tm (ref_child b parent).

(** One iteration of the loop of [balance_delete]; the state is
    [(extra_black, parent, path, root)]. *)
Definition mirror_remove_balance (extra_black parent : loc) (path : list loc) (a : side) (root : loc)
    : PM (loc * loc * list loc * loc) :=
  let b := flip a in
  brother ← tm (ref_child b parent);
  red ← tm (node_red brother);
  '(brother, path, root) ←
    (if (red : bool) then
       brother ← own_brother parent brother b;
       tm (swap_color brother parent);;
       top ← front path;
       '(_, root) ← rotate top parent a root;
       let path := brother :: path in
       brother ← tm (ref_child b parent);
       mret (brother, path, root)
     else mret (brother, path, root));
  ln ← tm (ref_child SideL brother);
  lred ← tm (node_red ln);
  rn ← tm (ref_child SideR brother);
  rred ← tm (node_red rn);
  if negb lred && negb rred then
    brother ← own_brother parent brother b;
    tm (set_red true brother);;
    let extra_black := parent in
    '(parent, path) ← pop_front path;
    mret (extra_black, parent, path, root)
  else
    x ← tm (ref_child b brother);
    bred ← tm (node_red x);
    '(brother, root) ←
      (if negb bred then
         brother ← own_brother parent brother b;
         own_child a brother;;
         x ← tm (ref_child a brother);
         tm (swap_color brother x);;
         rotate parent brother b root
       else mret (brother, root));
    brother ← own_brother parent brother b;
    own_child b brother;;
    c ← tm (node_red parent);
    tm (set_red c brother);;
    tm (set_red false parent);;
    x ← tm (ref_child b brother);
    tm (set_red false x);;
    top ← front path;
    '(_, root) ← rotate top parent a root;
    mret (root, Nil, path, root).

Fixpoint balance_delete_loop (fuel : nat) (extra_black parent : loc) (path : list loc) (root : loc)
    : PM (loc * loc * loc) :=
  match fuel with
  | O => no_fuel
  | S fuel =>
    if decide (extra_black = root) then mret (extra_black, parent, root)
    else
      red ← tm (node_red extra_black);
      if (red : bool) then mret (extra_black, parent, root)
      else
        l ← tm (ref_child SideL parent);
        '(extra_black, parent, path, root) ←
          mirror_remove_balance extra_black parent path
            (if decide (l = extra_black) then SideL else SideR) root;
        balance_delete_loop fuel extra_black parent path root
  end.

Definition balance_delete (fuel : nat) (extra_black : loc) (path : list loc) (root : loc) : PM loc :=
  '(parent, path) ← pop_front path;
  '(extra_black, parent, root) ← balance_delete_loop fuel extra_black parent path root;
  new_node ← own extra_black;
  root ← transplant parent extra_black new_node root;
  (if decide (new_node <> Nil) then tm (set_red false new_node) else mret tt);;
  mret root.

(** ** The operations on keys that carry their prefix *)

Definition base_root : PM loc :=
  t ← get_tree;
  match pt_root t with
  | Some x => mret x
  | None =>
    '(x, p) ← tm (ref (pt_src_root t));
    set_tree (with_src_root p);;
    mret x
  end.

Definition Delete (fuel : nat) (key : string) : PM unit :=
  TraceApplier (
  base ← base_root;
  '(root, path) ← delete_recursive fuel [] key base;
  match root with
  | None => mret tt
  | Some root =>
    let path := path ++ [Nil] in
    assert_that (2 <=? Z.of_nat (length path));;
    removed ← front path;
    k ← tm (node_key removed);
    assert_that (bool_decide (k = key));;
    transplanted ← tm (ref_child SideR removed);
    l ← tm (ref_child SideL removed);
    '(removed, transplanted, path, root) ←
      (if decide (l = Nil) then
         '(_, path) ← pop_front path;
         top ← front path;
         root ← transplant top removed transplanted root;
         mret (removed, transplanted, path, root)
       else
         x ← tm (ref_child SideR removed);
         if decide (x = Nil) then
           '(_, path) ← pop_front path;
           transplanted ← tm (ref_child SideL removed);
           top ← front path;
           root ← transplant top removed transplanted root;
           mret (removed, transplanted, path, root)
         else
           let temp := removed in
           own_child SideR removed;;
           x ← tm (ref_child SideR removed);
           '(removed, path) ← build_min_path fuel x path;
           transplanted ← tm (ref_child SideR removed);
           tm (steal_payload temp removed);;
           top ← front path;
           root ← transplant top removed transplanted root;
           mret (removed, transplanted, path, root));
    red ← tm (node_red removed);
    root ← (if negb red then balance_delete fuel transplanted path root else mret root);
    set_tree (with_root (Some root))
  end).

Definition Put (fuel : nat) (prefixed_key value : string) : PM unit :=
  TraceApplier (
  base ← base_root;
  '(root, path) ← insert_recursive fuel [] prefixed_key value base;
  '(root, path) ←
    match root with
    | Some root => mret (root, path)
    | None =>
      Delete fuel prefixed_key;;
      t ← get_tree;
      match pt_root t with
      | None => fail
      | Some base =>
        '(root, path) ← insert_recursive fuel [] prefixed_key value base;
        match root with None => fail | Some root => mret (root, path) end
      end
    end;
  let path := path ++ [Nil] in
  assert_that (2 <=? Z.of_nat (length path));;
  '(nn, path) ← pop_front path;
  '(parent, path) ← pop_front path;
  root ← insert_loop fuel parent nn path root;
  tm (set_red false root);;
  set_tree (with_root (Some root))).

Fixpoint get_loop (fuel : nat) (key : string) (cur : loc) : PM (Z * option string) :=
  match fuel with
  | O => no_fuel
  | S fuel =>
    if decide (cur = Nil) then mret (- ENOENT, None)
    else
      k ← tm (node_key cur);
      let cmp := slice_compare key k in
      if cmp =? 0 then
        v ← tm (node_val cur);
        mret (0, Some v)
      else
        next ← tm (ref_child (if cmp <? 0 then SideL else SideR) cur);
        get_loop fuel key next
  end.

(** The error code, and the value assigned to [*val] if any. *)
Definition Get (fuel : nat) (key : string) : PM (Z * option string) :=
  TraceApplier (base ← base_root; get_loop fuel key base).

Fixpoint copy_recursive (fuel : nat) (key : string) (node : loc) : PM (option loc) :=
  match fuel with
  | O => no_fuel
  | S fuel =>
    if decide (node = Nil) then mret None
    else
      k ← tm (node_key node);
      let cmp := slice_compare key k in
      let less := cmp <? 0 in
      if cmp =? 0 then
        rid ← tm (node_rid node);
        rid_ ← tree_rid;
        if decide (rid = rid_) then mret None
        else copy ← copy_fresh node; mret (Some copy)
      else
        let s := if less then SideL else SideR in
        next ← tm (ref_child s node);
        child ← copy_recursive fuel key next;
        match child with
        | None => mret None
        | Some child =>
          copy ← own node;
          tm (set_ref_child s copy child);;
          mret (Some copy)
        end
  end.

Definition Copy (fuel : nat) (prefixed_key : string) : PM unit :=
  TraceApplier (
  base ← base_root;
  root ← copy_recursive fuel prefixed_key base;
  match root with
  | Some root => set_tree (with_root (Some root))
  | None => mret tt
  end).

(** ** The operations that add a prefix *)

Definition PutPrefixed (fuel : nat) (prefix key value : string) : PM unit :=
  Put fuel (prefix_string prefix key) value.
Definition DeletePrefixed (fuel : nat) (prefix key : string) : PM unit :=
  Delete fuel (prefix_string prefix key).
Definition GetPrefixed (fuel : nat) (prefix key : string) : PM (Z * option string) :=
  Get fuel (prefix_string prefix key).

(** ** Addresses of new nodes *)

Definition infect_node_ptr (intention : Z) (l : loc) (s : side) (maybe_offset : Z) : PM unit :=
  x ← tm (ref_child_notrace s l);
  if decide (x = Nil) then mret tt
  else
    x ← tm (ref_child s l);
    rid ← tm (node_rid x);
    rid_ ← tree_rid;
    if decide (rid = rid_) then
      p ← tm (get_child s l);
      tm (put_child s l (SetIntentionAddress intention maybe_offset p))
    else mret tt.

Definition infect_node (node : loc) (intention maybe_left_offset maybe_right_offset : Z) : PM unit :=
  infect_node_ptr intention node SideL maybe_left_offset;;
  infect_node_ptr intention node SideR maybe_right_offset.

Fixpoint infect_after_image (fuel : nat) (node : loc) (intention field_index : Z) : PM Z :=
  match fuel with
  | O => no_fuel
  | S fuel =>
    if decide (node = Nil) then mret field_index
    else
      rid ← tm (node_rid node);
      rid_ ← tree_rid;
      if decide (rid <> rid_) then mret field_index
      else
        l ← tm (ref_child SideL node);
        field_index ← infect_after_image fuel l intention field_index;
        let maybe_left_offset := field_index - 1 in
        r ← tm (ref_child SideR node);
        field_index ← infect_after_image fuel r intention field_index;
        let maybe_right_offset := field_index - 1 in
        infect_node node intention maybe_left_offset maybe_right_offset;;
        mret (field_index + 1)
  end.

Fixpoint set_fresh_rids (intention : Z) (expect_intention_rid : bool) (ns : list loc) : PM unit :=
  match ns with
  | [] => mret tt
  | n :: ns =>
    rid ← tm (node_rid n);
    assert_that (if expect_intention_rid then rid =? i64 intention else rid <? 0);;
    tm (set_rid intention n);;
    set_fresh_rids intention expect_intention_rid ns
  end.

Definition infect_self_pointers (fuel : nat) (intention : Z) (expect_intention_rid : bool) : PM (option Z) :=
  t ← get_tree;
  set_fresh_rids intention expect_intention_rid (pt_fresh_nodes t);;
  assert_that (if expect_intention_rid then pt_rid t =? i64 intention else pt_rid t <? 0);;
  set_tree (with_tree_rid (i64 intention));;
  match pt_root t with
  | None =>
    '(x, p) ← tm (ref_notrace (pt_src_root t));
    set_tree (with_src_root p);;
    root ← tm (node_copy x (pt_db t) (i64 intention));
    set_tree (with_root (Some root));;
    mret None
  | Some root =>
    (if decide (root = Nil) then mret tt
     else rid ← tm (node_rid root); assert_that (rid =? i64 intention));;
    field_index ← infect_after_image fuel root intention 0;
    assert_that (0 <? field_index);;
    mret (Some (field_index - 1))
  end.

(** ** Serialization *)

Definition IntentionToAfterImage (i_pos : Z) : PM (option Z) := fun '(w, t) =>
  let '(o, w) := ns_intention_to_afterimage i_pos w in Ok (o, (w, t)).

Definition serialize_node_ptr (l : loc) (s : side) (maybe_offset : Z) : PM ProtoNodePtr :=
  x ← tm (ref_child s l);
  if decide (x = Nil) then mret (mkProtoNodePtr true false None None None)
  else
    x ← tm (ref_child s l);
    rid ← tm (node_rid x);
    rid_ ← tree_rid;
    p ← tm (get_child s l);
    match address_ p with
    | None => fail
    | Some address =>
      if decide (rid = rid_) then
        assert_that (Offset address =? maybe_offset);;
        mret (mkProtoNodePtr false true None None (Some (u32 maybe_offset)))
      else
        tm (ref_child s l);;
        if IsAfterImage address then
          mret (mkProtoNodePtr false false None (Some (Position address)) (Some (Offset address)))
        else
          let i_pos := Position address in
          ai_pos ← IntentionToAfterImage i_pos;
          match ai_pos with
          | Some ai_pos => mret (mkProtoNodePtr false false None (Some ai_pos) (Some (Offset address)))
          | None => mret (mkProtoNodePtr false false (Some i_pos) None (Some (Offset address)))
          end
    end.

Definition serialize_node (node : loc) (maybe_left_offset maybe_right_offset : Z) : PM ProtoNode :=
  red ← tm (node_red node);
  k ← tm (node_key node);
  v ← tm (node_val node);
  l ← serialize_node_ptr node SideL maybe_left_offset;
  r ← serialize_node_ptr node SideR maybe_right_offset;
  mret (mkProtoNode red k v l r).

(** [serialize_intention(i, node, field_index, delta)]: the state threaded is
    [(tree of i, field_index, delta)]. *)
Fixpoint serialize_intention (fuel : nat) (i : list ProtoNode) (node : loc) (field_index : Z) (delta : list loc)
    : PM (list ProtoNode * Z * list loc) :=
  match fuel with
  | O => no_fuel
  | S fuel =>
    if decide (node = Nil) then mret (i, field_index, delta)
    else
      rid ← tm (node_rid node);
      rid_ ← tree_rid;
      if decide (rid <> rid_) then mret (i, field_index, delta)
      else
        l ← tm (ref_child SideL node);
        '(i, field_index, delta) ← serialize_intention fuel i l field_index delta;
        let maybe_left_offset := field_index - 1 in
        r ← tm (ref_child SideR node);
        '(i, field_index, delta) ← serialize_intention fuel i r field_index delta;
        let maybe_right_offset := field_index - 1 in
        dst ← serialize_node node maybe_left_offset maybe_right_offset;
        mret (i ++ [dst], field_index + 1, delta ++ [node])
  end.

Definition SerializeAfterImage (fuel : nat) (intention : Z) : PM (AfterImage * list loc) :=
  t ← get_tree;
  match pt_root t with
  | None => fail
  | Some root =>
    (if decide (root = Nil) then mret tt
     else rid ← tm (node_rid root); rid_ ← tree_rid; assert_that (bool_decide (rid = rid_)));;
    '(i, _, delta) ← serialize_intention fuel [] root 0 [];
    mret (mkAfterImage intention i, delta)
  end.

Definition set_delta_ptr (s : side) (nn : loc) (pos : Z) : PM unit :=
  x ← tm (ref_child_notrace s nn);
  rid ← tm (node_rid x);
  rid_ ← tree_rid;
  if decide (rid = rid_) then
    p ← tm (get_child s nn);
    p ← ConvertToAfterImage pos p;
    tm (put_child s nn p)
  else mret tt.

Fixpoint SetDeltaPosition (delta : list loc) (pos : Z) : PM unit :=
  match delta with
  | [] => mret tt
  | nn :: delta =>
    set_delta_ptr SideL nn pos;;
    set_delta_ptr SideR nn pos;;
    SetDeltaPosition delta pos
  end.

End persistent_tree.
