(* ===== verification/Delta.v ===== *)
(** The delta view of the heap: the nodes a transaction owns, as a finite map of
    abstract nodes, next to the trees its pointers out of the delta denote.  The
    rules of this file specify the node operations of Node.v and the small
    helpers of PersistentTree.v on that view. *)
From S2P Require Import Prelude Slice RBTree Node Proto PersistentTree.

(** A pointer field of a delta node: a plain reference, whose address is not
    yet meaningful, a reference with an address of its own, or a pointer out of
    the delta. *)
Inductive aptr : Type :=
| Ref (x : loc)
| Self (x : loc) (a : NodeAddress)
| Old (t : tree).

Record anode : Type := AN {
  an_red : bool;
  an_key : string;
  an_val : string;
  an_left : aptr;
  an_right : aptr;
}.

Definition an_child (s : side) (n : anode) : aptr :=
  match s with SideL => an_left n | SideR => an_right n end.
Definition an_set_child (s : side) (p : aptr) (n : anode) : anode :=
  match s with
  | SideL => AN (an_red n) (an_key n) (an_val n) p (an_right n)
  | SideR => AN (an_red n) (an_key n) (an_val n) (an_left n) p
  end.
Definition an_set_red (c : bool) (n : anode) : anode :=
  AN c (an_key n) (an_val n) (an_left n) (an_right n).
Definition an_set_payload (k v : string) (n : anode) : anode :=
  AN (an_red n) k v (an_left n) (an_right n).
(** The node whose child on side [s] is [pa]. *)
Definition an_on (s : side) (c : bool) (k v : string) (pa pb : aptr) : anode :=
  match s with SideL => AN c k v pa pb | SideR => AN c k v pb pa end.

(** Trees that are partly in the delta. *)
Inductive dtree : Type :=
| DL (t : tree)
| DN (l : loc) (c : bool) (a : dtree) (k v : string) (b : dtree).

Fixpoint erase (d : dtree) : tree :=
  match d with DL t => t | DN _ c a k v b => T c (erase a) k v (erase b) end.
Fixpoint dlocs (d : dtree) : list loc :=
  match d with DL _ => [] | DN l _ a _ _ b => l :: dlocs a ++ dlocs b end.

Fixpoint dt (δ : gmap loc anode) (p : aptr) (d : dtree) : Prop :=
  match d with
  | DL t => p = Old t \/ (t = E /\ p = Ref Nil)
  | DN l c a k v b =>
    p = Ref l /\ exists pa pb, δ !! l = Some (AN c k v pa pb) /\ dt δ pa a /\ dt δ pb b
  end.

Definition dnode_on (l : loc) (s : side) (c : bool) (a : dtree) (k v : string) (b : dtree) : dtree :=
  match s with SideL => DN l c a k v b | SideR => DN l c b k v a end.

Record dframe : Type := DF {
  df_loc : loc;
  df_side : side;
  df_red : bool;
  df_key : string;
  df_val : string;
  df_sib : dtree;
}.

Definition erase_frame (f : dframe) : pframe :=
  PFrame (df_side f) (df_red f) (df_key f) (df_val f) (erase (df_sib f)).
Definition dplug1 (d : dtree) (f : dframe) : dtree :=
  dnode_on (df_loc f) (df_side f) (df_red f) d (df_key f) (df_val f) (df_sib f).
Definition dplug (fs : list dframe) (d : dtree) : dtree := fold_left dplug1 fs d.
Fixpoint flocs (fs : list dframe) : list loc :=
  match fs with [] => [] | f :: fs => df_loc f :: dlocs (df_sib f) ++ flocs fs end.

(** [dctx δ fs x root]: the frames [fs] lead from [root] down to a reference to [x]. *)
Fixpoint dctx (δ : gmap loc anode) (fs : list dframe) (x root : loc) : Prop :=
  match fs with
  | [] => root = x
  | f :: fs =>
    (exists ps, δ !! df_loc f = Some (an_on (df_side f) (df_red f) (df_key f) (df_val f) (Ref x) ps)
                /\ dt δ ps (df_sib f))
    /\ dctx δ fs (df_loc f) root
  end.

(** The [path] of the code: the frames' nodes up to the root, then [Nil]. *)
Definition path_of (fs : list dframe) : list loc := (df_loc <$> fs) ++ [Nil].

(** ** Frame lemmas on the delta *)

Lemma an_child_on s c k v pa pb : an_child s (an_on s c k v pa pb) = pa.
Proof. by destruct s. Qed.
Lemma an_child_flip s c k v pa pb : an_child (flip s) (an_on s c k v pa pb) = pb.
Proof. by destruct s. Qed.
Lemma an_set_child_on s c k v pa pb q : an_set_child s q (an_on s c k v pa pb) = an_on s c k v q pb.
Proof. by destruct s. Qed.
Lemma an_set_child_flip s c k v pa pb q : an_set_child (flip s) q (an_on s c k v pa pb) = an_on s c k v pa q.
Proof. by destruct s. Qed.
Lemma an_set_red_on s c k v pa pb c' : an_set_red c' (an_on s c k v pa pb) = an_on s c' k v pa pb.
Proof. by destruct s. Qed.
Lemma an_red_on s c k v pa pb : an_red (an_on s c k v pa pb) = c.
Proof. by destruct s. Qed.
Lemma an_on_flip s c k v pa pb : an_on (flip s) c k v pa pb = an_on s c k v pb pa.
Proof. by destruct s. Qed.
Lemma flip_flip s : flip (flip s) = s.
Proof. by destruct s. Qed.
Lemma an_on_eta s n : n = an_on s (an_red n) (an_key n) (an_val n) (an_child s n) (an_child (flip s) n).
Proof. by destruct s, n. Qed.

Create Rewrite HintDb an.
#[export] Hint Rewrite an_child_on an_child_flip an_set_child_on an_set_child_flip
  an_set_red_on an_red_on an_on_flip flip_flip : an.

Lemma erase_dnode_on l s c a k v b : erase (dnode_on l s c a k v b) = node_on s c (erase a) k v (erase b).
Proof. by destruct s. Qed.

Lemma dlocs_dnode_on l s c a k v b : dlocs (dnode_on l s c a k v b) ≡ₚ l :: dlocs a ++ dlocs b.
Proof. destruct s; simpl; [done|]. by rewrite (Permutation_app_comm (dlocs b)). Qed.

Lemma dt_dnode_on δ l s c a k v b p : dt δ p (dnode_on l s c a k v b) <->
  p = Ref l /\ exists pa pb, δ !! l = Some (an_on s c k v pa pb) /\ dt δ pa a /\ dt δ pb b.
Proof. destruct s; simpl; [done|]. naive_solver. Qed.

Lemma erase_dplug fs d : erase (dplug fs d) = plug (erase_frame <$> fs) (erase d).
Proof.
  revert d. induction fs as [|f fs IH]; intros d; simpl; [done|].
  rewrite IH. unfold dplug1, plug1. by rewrite erase_dnode_on.
Qed.

Lemma dlocs_dplug fs d : dlocs (dplug fs d) ≡ₚ dlocs d ++ flocs fs.
Proof.
  revert d. induction fs as [|f fs IH]; intros d; simpl; [by rewrite app_nil_r|].
  rewrite IH. unfold dplug1. rewrite dlocs_dnode_on. simpl.
  rewrite <- app_assoc. by rewrite <- (Permutation_middle (dlocs d)).
Qed.

Lemma dt_ext δ δ' p d : (forall l, l ∈ dlocs d -> δ' !! l = δ !! l) -> dt δ p d -> dt δ' p d.
Proof.
  revert p. induction d as [t|l c a IHa k v b IHb]; simpl; [done|].
  intros p Hext (-> & pa & pb & Hl & Ha & Hb). split; [done|]. exists pa, pb.
  rewrite Hext by set_solver. split_and!; [done | apply IHa | apply IHb]; set_solver.
Qed.

Lemma dctx_ext δ δ' fs x root : (forall l, l ∈ flocs fs -> δ' !! l = δ !! l) ->
  dctx δ fs x root -> dctx δ' fs x root.
Proof.
  revert x. induction fs as [|f fs IH]; simpl; [done|].
  intros x Hext ((ps & Hl & Hs) & Hc). split.
  - exists ps. rewrite Hext by set_solver. split; [done|].
    eapply dt_ext; [|done]. set_solver.
  - apply IH; set_solver.
Qed.

Lemma dt_frame δ p d l n : l ∉ dlocs d -> dt δ p d -> dt (<[l := n]> δ) p d.
Proof. intros Hl. apply dt_ext. intros l' Hl'. rewrite lookup_insert_ne; set_solver. Qed.

Lemma dctx_frame δ fs x root l n : l ∉ flocs fs -> dctx δ fs x root -> dctx (<[l := n]> δ) fs x root.
Proof. intros Hl. apply dctx_ext. intros l' Hl'. rewrite lookup_insert_ne; set_solver. Qed.

(** Filling the hole. *)
Lemma dctx_plug δ fs x root d : dctx δ fs x root -> dt δ (Ref x) d -> dt δ (Ref root) (dplug fs d).
Proof.
  revert x d. induction fs as [|f fs IH]; simpl; intros x d; [by intros ->|].
  intros ((ps & Hl & Hs) & Hc) Hd. eapply IH; [done|]. unfold dplug1.
  apply dt_dnode_on. split; [done|]. by exists (Ref x), ps.
Qed.

Lemma dt_locs δ p d l : dt δ p d -> l ∈ dlocs d -> is_Some (δ !! l).
Proof.
  revert p. induction d as [t|l' c a IHa k v b IHb]; simpl; [set_solver|].
  intros p (-> & pa & pb & Hl & Ha & Hb). rewrite elem_of_cons, elem_of_app. naive_solver.
Qed.

Lemma dctx_locs δ fs x root l : dctx δ fs x root -> l ∈ flocs fs -> is_Some (δ !! l).
Proof.
  revert x. induction fs as [|f fs IH]; simpl; [set_solver|].
  intros x ((ps & Hl & Hs) & Hc). rewrite elem_of_cons, elem_of_app.
  intros [->|[?|?]]; [done | by eapply dt_locs | by eapply IH].
Qed.

Lemma dctx_root_in δ f fs x root : dctx δ (f :: fs) x root -> root ∈ flocs (f :: fs).
Proof.
  revert f x. induction fs as [|g fs IH]; intros f x; simpl.
  - intros (_ & ->). set_solver.
  - intros (_ & Hc). apply IH in Hc. simpl in Hc. set_solver.
Qed.

(** ** The heap, seen through the delta *)

(** The root id of a transaction in flight: no published node has it. *)
Definition delta_id (hor r : Z) : Prop := rid_ nil_node <> r /\ ~ published hor r.

Lemma negative_delta_id hor r : - 2 ^ 63 < r < 0 -> delta_id hor r.
Proof. intros Hr. unfold delta_id, published. assert (rid_ nil_node = - 2 ^ 63) as -> by reflexivity. lia. Qed.

Lemma published_ne hor r rid : delta_id hor r -> published hor rid -> rid <> r.
Proof. intros [_ Hr] Hp ->. done. Qed.

Section rules.
Context {W : Type} {NS : NodeStore W} {NSL : NodeStoreLaws W} {SC : SliceCompare} {SL : SliceLaws}.

(** [r] is the root id of the delta.  [P] says whether [Node::Nil()] may be
    among the fresh nodes, which happens when a deletion empties the tree. *)
Context (r : Z) (P : Prop).
Hypothesis r_i64 : i64 (u64 r) = r.
Hypothesis r_nil : delta_id ns_hor r.

Definition w_nd (w : W) (t : tree) (x : loc) : Prop :=
  node_denotes ns_hor (ns_stored w) (ns_names w) (ns_heap w) t x.

Definition w_ptr (w : W) (p : NodePtr) (a : aptr) : Prop :=
  match a with
  | Ref x => ref_ p = Some x /\ is_Some (ns_heap w !! x)
  | Self x a => ref_ p = Some x /\ is_Some (ns_heap w !! x) /\ address_ p = Some a
  | Old t => ptr_denotes (ns_stored w) (ns_names w) (w_nd w t) p t
  end.

(** A field: its back pointer is set. *)
Definition w_field (w : W) (p : NodePtr) (a : aptr) : Prop := db_ p = true /\ w_ptr w p a.

Definition w_node (w : W) (n : Node) (an : anode) : Prop :=
  red_ n = an_red an /\ key_ n = an_key an /\ val_ n = an_val an /\
  rid_ n = r /\ read_only_ n = false /\
  w_field w (left n) (an_left an) /\ w_field w (right n) (an_right an).

Definition winv (δ : gmap loc anode) (w : W) : Prop :=
  ns_inv w /\
  forall l an, δ !! l = Some an -> exists n, ns_heap w !! l = Some n /\ w_node w n an.

Record wext (w w' : W) : Prop := {
  wext_stored : ns_stored w' = ns_stored w;
  wext_names : ns_names w' = ns_names w;
  wext_dom l : is_Some (ns_heap w !! l) -> is_Some (ns_heap w' !! l);
  wext_nd t x : w_nd w t x -> w_nd w' t x;
}.

(** The same, for the state of a tree operation. *)
Definition tinv (δ : gmap loc anode) (t : PersistentTree) : Prop :=
  pt_rid t = r /\ pt_db t = true /\
  (forall x, x ∈ pt_fresh_nodes t -> is_Some (δ !! x) \/ (x = Nil /\ P)) /\
  (P \/ (NoDup (pt_fresh_nodes t) /\ forall x, is_Some (δ !! x) -> x ∈ pt_fresh_nodes t)).

Definition sinv (δ : gmap loc anode) (s : W * PersistentTree) : Prop := winv δ s.1 /\ tinv δ s.2.

Record sext (s s' : W * PersistentTree) : Prop := {
  sext_w : wext s.1 s'.1;
  sext_root : pt_root s'.2 = pt_root s.2;
  sext_intention : pt_intention s'.2 = pt_intention s.2;
  sext_afterimage : pt_afterimage s'.2 = pt_afterimage s.2;
  sext_src : pt_src_root s'.2 = pt_src_root s.2;
}.

#[export] Instance wext_preorder : PreOrder wext.
Proof.
  split.
  - intros w. by split.
  - intros w1 w2 w3 [? ? ? ?] [? ? ? ?]. split; try congruence; auto.
Qed.

#[export] Instance sext_preorder : PreOrder sext.
Proof.
  split.
  - intros s. by split.
  - intros s1 s2 s3 [? ? ? ?] [? ? ? ?]. split; try congruence. by etransitivity.
Qed.

Lemma w_ptr_mono w w' p a : wext w w' -> w_ptr w p a -> w_ptr w' p a.
Proof.
  intros He. destruct a as [x|x a|t]; simpl.
  - intros [? ?]. split; [done|]. by eapply wext_dom.
  - intros (? & ? & ?). split_and!; [done| |done]. by eapply wext_dom.
  - rewrite (wext_stored _ _ He), (wext_names _ _ He).
    apply ptr_denotes_mono. intros l. by apply wext_nd.
Qed.

Lemma w_field_mono w w' p a : wext w w' -> w_field w p a -> w_field w' p a.
Proof. intros He [? ?]. split; [done|]. by eapply w_ptr_mono. Qed.

Lemma w_node_mono w w' n an : wext w w' -> w_node w n an -> w_node w' n an.
Proof. intros He (? & ? & ? & ? & ? & ? & ?). split_and!; eauto using w_field_mono. Qed.

Lemma winv_lookup δ w l an : winv δ w -> δ !! l = Some an ->
  exists n, ns_heap w !! l = Some n /\ w_node w n an.
Proof. intros [_ H]. apply H. Qed.

(** A change of the store around its heap. *)
Lemma winv_frame δ w w' : winv δ w -> ns_inv w' -> ns_heap w' = ns_heap w -> ns_stored w' = ns_stored w ->
  ns_names w' = ns_names w -> winv δ w' /\ wext w w'.
Proof.
  intros [_ Hd] Hi Hh Hst Hnm. assert (wext w w') as He.
  { split; try done; [intros l; by rewrite Hh|]. intros t x. unfold w_nd. by rewrite Hh, Hst, Hnm. }
  split; [|done]. split; [done|]. intros l an Hl. rewrite Hh. destruct (Hd _ _ Hl) as (n & ? & ?).
  eauto using w_node_mono.
Qed.

Lemma winv_nil δ w : winv δ w -> ns_heap w !! Nil = Some nil_node.
Proof. intros [Hi _]. by eapply ns_nil. Qed.

Lemma delta_not_nil δ w l : winv δ w -> is_Some (δ !! l) -> l <> Nil.
Proof.
  intros Hw [an Hl] ->. destruct (winv_lookup _ _ _ _ Hw Hl) as (n & Hn & Hm).
  rewrite (winv_nil _ _ Hw) in Hn. simplify_eq. destruct Hm as (_ & _ & _ & Hr & _). by destruct r_nil.
Qed.

Lemma nd_live δ w t x : winv δ w -> w_nd w t x -> is_Some (ns_heap w !! x).
Proof.
  intros Hw. destruct t; simpl.
  - intros ->. rewrite (winv_nil _ _ Hw). eauto.
  - intros (_ & n & -> & _). eauto.
Qed.

Lemma delta_live δ w x : winv δ w -> is_Some (δ !! x) -> is_Some (ns_heap w !! x).
Proof. intros Hw [an Hx]. destruct (winv_lookup _ _ _ _ Hw Hx) as (n & -> & _). eauto. Qed.

(** A location outside the delta is not one of its nodes. *)
Lemma nd_not_delta δ w t x : winv δ w -> w_nd w t x -> δ !! x = None.
Proof.
  intros Hw Hn. destruct (δ !! x) as [an|] eqn:Hx; [|done]. exfalso.
  destruct t as [|c l k v t']; unfold w_nd in Hn; simpl in Hn.
  - subst x. by eapply (delta_not_nil δ w Nil).
  - destruct Hn as (_ & n & Hn & Hr & _).
    destruct (winv_lookup _ _ _ _ Hw Hx) as (n' & Hn' & Hm). simplify_eq.
    destruct Hm as (_ & _ & _ & E & _). rewrite E in Hr. by destruct r_nil.
Qed.

(** Two trees denoted by one location are equal. *)
Lemma nd_det w t : forall t' x, w_nd w t x -> w_nd w t' x -> t = t'.
Proof.
  induction t as [|c l IHl k v t IHt]; intros t' x Hx Hx'.
  - change (x = Nil) in Hx; subst x. symmetry. by apply nd_Nil in Hx'.
  - destruct t' as [|c' l' k' v' t']; [unfold w_nd in Hx'; simpl in Hx'; subst x; by apply nd_Nil in Hx|].
    destruct Hx as (_ & n & Hn & _ & <- & <- & <- & [Hl _] & [Hr _]).
    destruct Hx' as (_ & n' & Hn' & _ & <- & <- & <- & [Hl' _] & [Hr' _]).
    rewrite Hn in Hn'. injection Hn' as <-. f_equal.
    + destruct (ref_ (left n)); [by eapply IHl|].
      destruct Hl as (_ & a & ? & ?), Hl' as (_ & a' & ? & ?). simplify_eq. by eapply ns_stored_fun.
    + destruct (ref_ (right n)); [by eapply IHt|].
      destruct Hr as (_ & a & ? & ?), Hr' as (_ & a' & ? & ?). simplify_eq. by eapply ns_stored_fun.
Qed.

(** ** Writing the heap *)

Definition set_node (l : loc) (n : Node) (w : W) : W := ns_set_heap (<[l := n]> (ns_heap w)) w.

Lemma wext_set l n w :
  (forall t x, w_nd w t x -> node_denotes ns_hor (ns_stored w) (ns_names w) (<[l := n]> (ns_heap w)) t x) ->
  wext w (set_node l n w).
Proof.
  intros Hnd. unfold set_node. split; [apply ns_stored_set | apply ns_names_set | |].
  - intros l'. rewrite ns_get_set. intros ?. apply lookup_insert_is_Some'. by right.
  - intros t x Hx. unfold w_nd. rewrite ns_stored_set, ns_names_set, ns_get_set. by apply Hnd.
Qed.

Lemma winv_set δ δ' l n an w :
  winv δ w -> wext w (set_node l n w) -> l <> Nil ->
  (forall l', l' <> l -> δ' !! l' = δ !! l') ->
  (forall an', δ' !! l = Some an' -> an' = an) ->
  w_node (set_node l n w) n an \/ δ' !! l = None ->
  winv δ' (set_node l n w).
Proof.
  intros [Hi Hd] He Hl Hoth Han Hn. split.
  - apply ns_inv_set; [done| |].
    + rewrite lookup_insert_ne by done. by eapply ns_nil.
    + intros t x Hx. apply (wext_nd _ _ He) in Hx. unfold w_nd, set_node in Hx.
      by rewrite ns_stored_set, ns_names_set, ns_get_set in Hx.
  - intros l' an' Hl'. unfold set_node at 1. rewrite ns_get_set.
    destruct (decide (l' = l)) as [->|Hne].
    + rewrite lookup_insert_eq. exists n. split; [done|].
      rewrite (Han _ Hl'). destruct Hn; [done | congruence].
    + rewrite lookup_insert_ne by done. rewrite Hoth in Hl' by done.
      destruct (Hd _ _ Hl') as (n' & ? & ?). eauto using w_node_mono.
Qed.

Lemma wext_delta l n n' w : ns_heap w !! l = Some n -> rid_ n = r -> wext w (set_node l n' w).
Proof. intros Hl Hr. apply wext_set. intros t x Hx. eapply nd_delta_write; [done| |done]. rewrite Hr. apply r_nil. Qed.

(** Update of a delta node in place. *)
Lemma winv_update δ w l an n an' n' :
  winv δ w -> δ !! l = Some an -> ns_heap w !! l = Some n ->
  (forall w', wext w w' -> w_node w' n an -> w_node w' n' an') ->
  winv (<[l := an']> δ) (set_node l n' w) /\ wext w (set_node l n' w).
Proof.
  intros Hw Hl Hn Hup. destruct (winv_lookup _ _ _ _ Hw Hl) as (n0 & Hn0 & Hm). simplify_eq.
  assert (wext w (set_node l n' w)) as He.
  { eapply wext_delta; [done|]. by destruct Hm as (_ & _ & _ & ? & _). }
  split; [|done]. eapply (winv_set δ _ l n' an'); try done.
  - by eapply delta_not_nil.
  - intros l' Hne. by rewrite lookup_insert_ne.
  - intros a. rewrite lookup_insert_eq. congruence.
  - left. eapply Hup; eauto using w_node_mono.
Qed.

(** Allocation of a node into the delta. *)
Lemma winv_alloc δ w n an :
  winv δ w -> (forall w', wext w w' -> w_node w' n an) ->
  let l := fresh (dom (ns_heap w)) in
  δ !! l = None /\ l <> Nil /\
  winv (<[l := an]> δ) (set_node l n w) /\ wext w (set_node l n w).
Proof.
  intros Hw Hn l.
  assert (ns_heap w !! l = None) as Hfresh by (apply not_elem_of_dom, is_fresh).
  assert (l <> Nil) as Hnil by (intros Hnil; rewrite Hnil, (winv_nil _ _ Hw) in Hfresh; done).
  assert (δ !! l = None) as Hd.
  { destruct (δ !! l) as [a|] eqn:Ha; [|done].
    destruct (winv_lookup _ _ _ _ Hw Ha) as (? & ? & _). congruence. }
  assert (wext w (set_node l n w)) as He.
  { apply wext_set. intros t x. apply nd_mono. by apply insert_subseteq. }
  split_and!; try done. eapply (winv_set δ _ l n an); try done.
  - intros l' Hne. by rewrite lookup_insert_ne.
  - intros a. rewrite lookup_insert_eq. congruence.
  - left. by apply Hn.
Qed.

Lemma set_node_heap l n w : ns_heap (set_node l n w) = <[l := n]> (ns_heap w).
Proof. apply ns_get_set. Qed.

Lemma winv_same δ w l n : winv δ w -> ns_heap w !! l = Some n -> l <> Nil ->
  winv δ (set_node l n w) /\ wext w (set_node l n w).
Proof.
  intros Hw Hl Hne. assert (wext w (set_node l n w)) as He.
  { apply wext_set. intros t x Hx. by rewrite insert_id. }
  split; [|done]. destruct (δ !! l) as [an|] eqn:Ha.
  - destruct (winv_lookup _ _ _ _ Hw Ha) as (n' & Hn' & Hm). rewrite Hl in Hn'. injection Hn' as <-.
    eapply (winv_set δ δ l n an); try done; [congruence | left; eauto using w_node_mono].
  - eapply (winv_set δ δ l n (AN false "" "" (Ref Nil) (Ref Nil))); try done; [congruence | by right].
Qed.

Lemma w_node_field w n an s : w_node w n an -> w_field w (child s n) (an_child s an).
Proof. intros (_ & _ & _ & _ & _ & ? & ?). by destruct s. Qed.

Lemma w_node_child w n an s : w_node w n an -> w_ptr w (child s n) (an_child s an).
Proof. intros Hn. by apply w_node_field. Qed.

Lemma w_node_db w n an s : w_node w n an -> db_ (child s n) = true.
Proof. intros Hn. by apply (w_node_field _ _ _ s) in Hn as [? _]. Qed.

Lemma w_node_set_child w n an s p a :
  w_node w n an -> w_field w p a -> w_node w (set_child s p n) (an_set_child s a an).
Proof. intros (? & ? & ? & ? & ? & ? & ?) Hp. destruct s; by split_and!. Qed.

(** Restoring the expired reference of a node, in or out of the delta. *)
Lemma winv_resolve δ w l n s a x t :
  winv δ w -> ns_heap w !! l = Some n -> l <> Nil ->
  ref_ (child s n) = None -> address_ (child s n) = Some a ->
  ns_stored w a t -> w_nd w t x ->
  let n' := set_child s (ptr_set_ref x (child s n)) n in
  winv δ (set_node l n' w) /\ wext w (set_node l n' w).
Proof.
  intros Hw Hl Hne Hr Ha Hs Hx n'. assert (wext w (set_node l n' w)) as He.
  { apply wext_set. intros t' x' Hx'. eapply nd_resolve; eauto using ns_stored_fun. }
  split; [|done]. destruct (δ !! l) as [an|] eqn:Hd.
  - destruct (winv_lookup _ _ _ _ Hw Hd) as (m & Hm & Hn). rewrite Hl in Hm. injection Hm as <-.
    eapply (winv_set δ δ l n' an); try done; [congruence|left].
    replace an with (an_set_child s (an_child s an) an) by (by destruct s, an).
    apply w_node_set_child; [by eapply w_node_mono|]. pose proof (w_node_db _ _ _ s Hn) as Hdb. split; [done|].
    apply (w_node_child _ _ _ s) in Hn. destruct (an_child s an) as [y|y b|t']; simpl in Hn.
    + destruct Hn; congruence.
    + destruct Hn; congruence.
    + destruct Hn as [Hn1 Hn2]. rewrite Hr in Hn1. destruct Hn1 as (_ & a' & Ha' & Hs').
      rewrite Ha in Ha'. injection Ha' as <-. rewrite (ns_stored_fun _ _ _ _ Hs' Hs) in *.
      split; simpl; [by apply (wext_nd _ _ He)|].
      by rewrite (wext_names _ _ He).
  - eapply (winv_set δ δ l n' (AN false "" "" (Ref Nil) (Ref Nil))); try done; [congruence | by right].
Qed.

(** ** Rules for node operations *)

Definition twp {A} (m : TM A) (Q : A -> W -> Prop) (w : W) : Prop :=
  forall tr, wp m (fun a s' => Q a s'.1) (w, tr).

Lemma twp_bind {A B} (m : TM A) (f : A -> TM B) Q w :
  twp m (fun a w' => twp (f a) Q w') w -> twp (m ≫= f) Q w.
Proof.
  intros Hm tr. apply wp_bind. eapply wp_conseq; [apply Hm|].
  intros a [w' tr'] Hf. apply Hf.
Qed.

Lemma twp_conseq {A} (m : TM A) (Q Q' : A -> W -> Prop) w :
  twp m Q w -> (forall a w', Q a w' -> Q' a w') -> twp m Q' w.
Proof. intros Hm HQ tr. eapply wp_conseq; [apply Hm|]. auto. Qed.

Lemma twp_ret {A} (a : A) (Q : A -> W -> Prop) w : Q a w -> twp (mret a) Q w.
Proof. by intros ? ?. Qed.

Lemma twp_load l n (Q : Node -> W -> Prop) w : ns_heap w !! l = Some n -> Q n w -> twp (load l) Q w.
Proof. intros Hl HQ tr. unfold wp, load. by rewrite Hl. Qed.

Lemma twp_store l n (Q : unit -> W -> Prop) w : Q tt (set_node l n w) -> twp (store l n) Q w.
Proof. by intros ? ?. Qed.

Lemma twp_alloc n (Q : loc -> W -> Prop) w :
  Q (fresh (dom (ns_heap w))) (set_node (fresh (dom (ns_heap w))) n w) -> twp (alloc n) Q w.
Proof. by intros ? ?. Qed.

Lemma twp_assert b (Q : unit -> W -> Prop) w : b = true -> Q tt w -> twp (assert_that b) Q w.
Proof. intros -> ? ?. done. Qed.

Lemma twp_notrace {A} (m : TM A) (Q : A -> W -> Prop) w : twp m Q w -> twp (notrace m) Q w.
Proof.
  intros Hm tr. specialize (Hm []). unfold wp, notrace in *.
  by destruct (m (w, [])) as [[a [w' tr']]| |].
Qed.

Lemma twp_push a (Q : unit -> W -> Prop) w : Q tt w -> twp (push_trace a) Q w.
Proof. by intros ? ?. Qed.

(** [ref] of a plain reference. *)
Lemma twp_ref_Ref p x (Q : loc * NodePtr -> W -> Prop) w :
  ref_ p = Some x -> Q (x, p) w -> twp (ref p) Q w.
Proof.
  intros Hp HQ. unfold ref. apply twp_bind, twp_push. rewrite Hp. by apply twp_ret.
Qed.

(** [ref] of a pointer out of the delta finds the tree it denotes. *)
Lemma twp_ref_Old δ p t w : winv δ w -> w_ptr w p (Old t) ->
  twp (ref p) (fun '(x, p') w' =>
    winv δ w' /\ wext w w' /\ ns_heap w ⊆ ns_heap w' /\ w_nd w' t x /\
    ((p' = p /\ ref_ p = Some x) \/
     (ref_ p = None /\ p' = ptr_set_ref x p /\ exists a, address_ p = Some a /\ ns_stored w' a t))) w.
Proof.
  intros Hw [Hp1 Hp2]. unfold ref. apply twp_bind, twp_push.
  destruct (ref_ p) as [l|] eqn:Hr; [apply twp_ret; by split_and!; auto|].
  destruct Hp1 as (Hdb & a & Ha & Hs). apply twp_bind. unfold ptr_fetch. rewrite Ha.
  apply twp_bind, twp_assert; [done|]. intros tr. destruct Hw as [Hi Hd].
  destruct (ns_fetch_law w tr a t Hi Hs) as (x & w' & tr' & Hf & Hi' & Hst & Hnm & Hsub & Hx).
  unfold wp. rewrite Hf. simpl.
  assert (wext w w') as He.
  { split; try done.
    - intros l [n Hl]. exists n. by eapply lookup_weaken.
    - intros t' y. unfold w_nd. rewrite Hst, Hnm. by apply nd_mono. }
  apply twp_ret. split_and!; try done.
  - split; [done|]. intros l an Hl. destruct (Hd _ _ Hl) as (n & Hn & Hm).
    exists n. split; [by eapply lookup_weaken | by eapply w_node_mono].
  - unfold w_nd. by rewrite Hst, Hnm.
  - right. split_and!; [done..|]. exists a. by rewrite Hst.
Qed.

(** Dereferencing a field in place. *)
Lemma twp_ref_child_Ref δ s l n x w :
  winv δ w -> ns_heap w !! l = Some n -> l <> Nil -> ref_ (child s n) = Some x ->
  twp (ref_child s l) (fun y w' => y = x /\ winv δ w' /\ wext w w') w.
Proof.
  intros Hw Hl Hne Hx. unfold ref_child.
  apply twp_bind, (twp_load _ n); [done|]. apply twp_bind.
  apply (twp_ref_Ref _ x); [done|]. apply twp_bind, (twp_load _ n); [done|].
  apply twp_bind, twp_store, twp_ret. split; [done|].
  replace (set_child s (child s n) n) with n by (by destruct s, n). by apply winv_same.
Qed.

Lemma twp_ref_child_Old δ s l n t w :
  winv δ w -> ns_heap w !! l = Some n -> l <> Nil -> w_ptr w (child s n) (Old t) ->
  twp (ref_child s l) (fun y w' => w_nd w' t y /\ winv δ w' /\ wext w w' /\
    exists n', ns_heap w' !! l = Some n' /\ key_ n' = key_ n /\ val_ n' = val_ n /\ red_ n' = red_ n /\
      rid_ n' = rid_ n /\ address_ (child s n') = address_ (child s n) /\ db_ (child s n') = db_ (child s n) /\
      child (flip s) n' = child (flip s) n /\ ref_ (child s n') = Some y) w.
Proof.
  intros Hw Hl Hne Hp. unfold ref_child.
  apply twp_bind, (twp_load _ n); [done|]. apply twp_bind.
  eapply twp_conseq; [by eapply twp_ref_Old|].
  intros [x p] w1 (Hw1 & He1 & Hsub & Hx & Hcase).
  assert (ns_heap w1 !! l = Some n) as Hl1 by (by eapply lookup_weaken).
  apply twp_bind, (twp_load _ n); [done|]. apply twp_bind, twp_store, twp_ret.
  assert (winv δ (set_node l (set_child s p n) w1) /\ wext w1 (set_node l (set_child s p n) w1)) as [Hw2 He2].
  { destruct Hcase as [[-> _]|(Hr & -> & a & Ha & Hs)].
    - replace (set_child s (child s n) n) with n by (by destruct s, n). by apply winv_same.
    - by eapply winv_resolve. }
  split_and!; try done; [by apply (wext_nd _ _ He2) | by etransitivity|].
  eexists. rewrite set_node_heap, lookup_insert_eq. split; [done|].
  destruct Hcase as [[-> Hr]|(Hr & -> & _)]; by destruct s.
Qed.

(** [Node::Copy] of a node outside the delta: a fresh delta node with the same
    payload, colour and pointers. *)
Lemma twp_node_copy δ w c tl k v tr x : winv δ w -> w_nd w (T c tl k v tr) x ->
  twp (node_copy x true r) (fun y w' =>
    δ !! y = None /\ y <> Nil /\
    winv (<[y := AN c k v (Old tl) (Old tr)]> δ) w' /\ wext w w') w.
Proof.
  intros Hw Hx. pose proof Hx as (Hne & n & Hn & _ & _ & _ & _ & Hpl & _).
  unfold node_copy. rewrite decide_False by done.
  apply twp_bind, twp_notrace. eapply twp_conseq; [by eapply (twp_ref_child_Old _ SideL _ n tl)|].
  intros xl w1 (Hxl & Hw1 & He1 & n1 & Hn1 & Hk1 & Hv1 & Hc1 & _ & Ha1 & Hdb1 & Hr1 & Href1).
  apply (wext_nd _ _ He1) in Hx as Hx1. destruct Hx1 as (_ & n1' & Hn1' & _ & _ & _ & _ & _ & Hpr).
  rewrite Hn1 in Hn1'. injection Hn1' as <-.
  apply twp_bind, twp_notrace. eapply twp_conseq; [by eapply (twp_ref_child_Old _ SideR _ n1 tr)|].
  intros xr w2 (Hxr & Hw2 & He2 & n2 & Hn2 & Hk2 & Hv2 & Hc2 & _ & Ha2 & Hdb2 & Hl2 & Href2).
  apply (wext_nd _ _ He2) in Hxl. assert (wext w w2) as He by (by etransitivity).
  apply (wext_nd _ _ He) in Hx as (_ & n2' & Hn2' & _ & Hc & Hk & Hv & [_ HL] & [_ HR]).
  rewrite Hn2 in Hn2'. injection Hn2' as <-.
  apply twp_bind, (twp_load _ n2); [done|]. apply twp_bind. unfold new_node. apply twp_alloc.
  set (m := mkNode _ _ _ _ _ _ _).
  destruct (winv_alloc δ w2 m (AN c k v (Ref xl) (Ref xr)) Hw2) as (Hf & Hnil & Hw3 & He3).
  { intros w' He'. split_and!; try done; (split; [done|]; split; [done|]; eapply wext_dom; [done|]; by eapply nd_live). }
  set (y := fresh _) in *. set (w3 := set_node y m w2) in *.
  assert (ns_heap w3 !! y = Some m) as Hm by (unfold w3; by rewrite set_node_heap, lookup_insert_eq).
  apply twp_bind, (twp_load _ m); [done|].
  apply twp_bind. unfold SetAddress. apply twp_bind, twp_assert; [done|]. apply twp_ret.
  apply twp_bind, twp_bind, twp_assert; [done|]. apply twp_ret.
  apply twp_bind, twp_store, twp_ret.
  destruct (winv_update (<[y:=AN c k v (Ref xl) (Ref xr)]> δ) w3 y _ m (AN c k v (Old tl) (Old tr))
    (set_child SideR (ptr_set_address (address_ (right n2)) (right m))
       (set_child SideL (ptr_set_address (address_ (left n2)) (left m)) m)) Hw3
       (lookup_insert_eq _ _ _) Hm) as [Hw4 He4].
  { intros w' He' (? & ? & ? & ? & ? & _ & _). split_and!; try done; (split; [done|]); split; simpl.
    - apply (wext_nd _ _ He'), (wext_nd _ _ He3), Hxl.
    - intros Ht. apply HL in Ht as (_ & Hnm). split; [done|].
      by rewrite (wext_names _ _ He'), (wext_names _ _ He3).
    - apply (wext_nd _ _ He'), (wext_nd _ _ He3), Hxr.
    - intros Ht. apply HR in Ht as (_ & Hnm). split; [done|].
      by rewrite (wext_names _ _ He'), (wext_names _ _ He3). }
  rewrite insert_insert_eq in Hw4. split_and!; try done.
  etransitivity; [exact He|]. etransitivity; [exact He3|]. done.
Qed.

(** ** Rules for tree operations *)

Lemma wp_tm {A} (m : TM A) (Q : A -> W * PersistentTree -> Prop) (R : A -> W -> Prop) s :
  twp m R s.1 -> (forall a w tr, R a w -> Q a (w, with_trace tr s.2)) -> wp (tm m) Q s.
Proof.
  destruct s as [w t]. intros Hm HQ. apply wp_zoom. eapply wp_conseq; [apply Hm|].
  intros a [w' tr'] HR. by apply HQ.
Qed.

Lemma tinv_mono δ δ' t tr : tinv δ t -> (forall l, is_Some (δ' !! l) <-> is_Some (δ !! l)) ->
  tinv δ' (with_trace tr t).
Proof.
  intros (? & ? & Hf & Hk) Hd. split_and!; [done..| |].
  - intros x [?|?]%Hf; [left; by apply Hd|by right].
  - destruct Hk as [?|[? Hk]]; [by left|right]. split; [done|]. intros x ?%Hd. by apply Hk.
Qed.

(** A tree that has written nothing. *)
Lemma tinv_empty t : pt_rid t = r -> pt_db t = true -> pt_fresh_nodes t = [] -> tinv ∅ t.
Proof.
  intros Hr Hdb Hf. split_and!; [done|done|..]; rewrite Hf.
  - intros x Hx. by apply not_elem_of_nil in Hx.
  - right. split; [constructor|]. intros x Hx. rewrite lookup_empty in Hx. by destruct Hx.
Qed.

(** A node operation that moves the view from [δ] to [δ']. *)
Lemma wp_tm_inv {A} (m : TM A) δ δ' (R : A -> W -> Prop) s :
  sinv δ s -> (forall l, is_Some (δ' !! l) <-> is_Some (δ !! l)) ->
  twp m (fun a w' => winv δ' w' /\ wext s.1 w' /\ R a w') s.1 ->
  wp (tm m) (fun a s' => sinv δ' s' /\ sext s s' /\ R a s'.1) s.
Proof.
  intros [Hw Ht] Hd Hm. eapply wp_tm; [exact Hm|]. intros a w tr (Hw' & He & HR).
  split_and!; try done. split; [done|]. by eapply tinv_mono.
Qed.

(** Reading a field changes nothing. *)
Lemma wp_read {A} (f : Node -> A) l n (Q : A -> W * PersistentTree -> Prop) s :
  ns_heap s.1 !! l = Some n -> Q (f n) s -> wp (tm (n ← load l; mret (f n))) Q s.
Proof.
  intros Hl HQ. destruct s as [w t]. apply wp_zoom. unfold wp. simpl in *.
  unfold mbind, M_bind, load. rewrite Hl. simpl. by destruct t.
Qed.

Lemma wp_get_tree (Q : PersistentTree -> W * PersistentTree -> Prop) s :
  Q s.2 s -> wp get_tree Q s.
Proof. by destruct s. Qed.

Lemma wp_tree_rid δ (Q : Z -> W * PersistentTree -> Prop) s : sinv δ s -> Q r s -> wp tree_rid Q s.
Proof. destruct s as [w t]. intros [_ (Hr & _)] HQ. unfold wp. simpl in *. by rewrite Hr. Qed.

(** A new node joins the delta and the nodes the tree keeps alive. *)
Lemma wp_push_fresh δ x an s : winv (<[x := an]> δ) s.1 -> tinv δ s.2 -> δ !! x = None -> x <> Nil ->
  wp (push_fresh x) (fun _ s' => sinv (<[x := an]> δ) s' /\ sext s s') s.
Proof.
  destruct s as [w t]. intros Hw (Hr & Hdb & Hf & Hk) Hx Hnil. unfold wp. simpl. split; [|by split].
  split; [done|]. split_and!; [done..| |]; simpl.
  - intros y [[?|?]%Hf| ->%list_elem_of_singleton]%elem_of_app; [left; apply lookup_insert_is_Some'; by right|by right|].
    left. rewrite lookup_insert_eq. by eexists.
  - destruct Hk as [?|[Hnd Hk]]; [by left|right]. split.
    + apply NoDup_app. split_and!; [done| |by apply NoDup_singleton]. intros y Hy ->%list_elem_of_singleton.
      apply Hf in Hy as [[? ?]|[? _]]; [congruence|done].
    + intros y [<-|Hy]%lookup_insert_is_Some'; apply elem_of_app; [right; by apply list_elem_of_singleton|left; by apply Hk].
Qed.

Lemma wp_push_nil δ s : sinv δ s -> P -> wp (push_fresh Nil) (fun _ s' => sinv δ s' /\ sext s s') s.
Proof.
  destruct s as [w t]. intros [Hw (Hr & Hdb & Hf & _)] HP. unfold wp. simpl. split; [|by split].
  split; [done|]. split_and!; [done..| |by left]. simpl. intros y [?|Hy]%elem_of_app; [by apply Hf|].
  apply list_elem_of_singleton in Hy as ->. by right.
Qed.

Lemma wp_copy_fresh δ c tl k v tr x s : sinv δ s -> w_nd s.1 (T c tl k v tr) x ->
  wp (copy_fresh x) (fun y s' => δ !! y = None /\ y <> Nil /\
    sinv (<[y := AN c k v (Old tl) (Old tr)]> δ) s' /\ sext s s') s.
Proof.
  intros Hs Hx. pose proof Hs as [Hw (Hr & Hdb & _)]. unfold copy_fresh.
  apply wp_bind, wp_get_tree, wp_bind. rewrite Hr, Hdb.
  eapply wp_tm; [by eapply twp_node_copy|]. intros y w tr' (Hy & Hne & Hw' & He).
  apply wp_bind. eapply wp_conseq; [apply (wp_push_fresh δ y (AN c k v (Old tl) (Old tr))); [done| |done|done]|].
  { eapply tinv_mono; [apply Hs|done]. }
  intros _ s' [Hs'' He']. apply wp_ret. split_and!; try done.
  etransitivity; [|exact He']. by split.
Qed.

(** Copying [Nil] yields [Nil], which is then kept among the fresh nodes. *)
Lemma wp_copy_fresh_nil δ s : sinv δ s -> P ->
  wp (copy_fresh Nil) (fun y s' => y = Nil /\ sinv δ s' /\ sext s s') s.
Proof.
  intros Hs HP. unfold copy_fresh. apply wp_bind, wp_get_tree, wp_bind.
  eapply (wp_tm _ _ (fun y w => y = Nil /\ w = s.1)).
  { unfold node_copy. rewrite decide_True by done. by apply twp_ret. }
  intros ? ? tr [-> ->].
  assert (sinv δ (s.1, with_trace tr s.2)) as Hs' by (split; [apply Hs | eapply tinv_mono; [apply Hs | done]]).
  apply wp_bind. eapply wp_conseq; [by eapply wp_push_nil|].
  intros _ s' [? He]. apply wp_ret. split_and!; try done. etransitivity; [|exact He]. by split.
Qed.

(** ** Locations and the trees they root, in or out of the delta *)

Definition at_loc (δ : gmap loc anode) (w : W) (d : dtree) (x : loc) : Prop :=
  match d with
  | DL t => w_nd w t x
  | DN l _ _ _ _ _ => x = l /\ dt δ (Ref x) d
  end.

Lemma at_loc_mono δ w w' d x : wext w w' -> at_loc δ w d x -> at_loc δ w' d x.
Proof. intros He. destruct d; [|done]. apply (wext_nd _ _ He). Qed.

Lemma at_loc_ext δ δ' w d x : (forall l, l ∈ dlocs d -> δ' !! l = δ !! l) ->
  at_loc δ w d x -> at_loc δ' w d x.
Proof.
  intros Hx. destruct d as [t|l c a k v b]; [done|].
  intros [-> Hd]. split; [done|]. by eapply dt_ext.
Qed.

Lemma at_loc_live δ w d x : winv δ w -> at_loc δ w d x -> is_Some (ns_heap w !! x).
Proof.
  intros Hw. destruct d as [t|l c a k v b]; [by apply (nd_live δ)|].
  intros [-> (_ & pa & pb & Hl & _)]. by eapply delta_live.
Qed.

Lemma at_loc_delta δ w d x : winv δ w -> at_loc δ w d x -> is_Some (δ !! x) ->
  exists c a k v b, d = DN x c a k v b.
Proof.
  intros Hw Hx Hs. destruct d as [t|l c a k v b].
  - apply (nd_not_delta δ) in Hx; [|done]. rewrite Hx in Hs. by destruct Hs.
  - destruct Hx as [-> _]. eauto 10.
Qed.

Lemma at_loc_node δ w d x : winv δ w -> at_loc δ w d x ->
  exists n, ns_heap w !! x = Some n /\ red_ n = is_red (erase d) /\
    (rid_ n = r <-> is_Some (δ !! x)) /\
    (forall c l k v t, erase d = T c l k v t -> key_ n = k /\ val_ n = v /\ x <> Nil) /\
    (erase d = E -> x = Nil).
Proof.
  intros Hw. destruct d as [t|l c a k v b].
  - intros Hx. pose proof (nd_not_delta _ _ _ _ Hw Hx) as Hnd.
    assert (~ is_Some (δ !! x)) as Hns by (rewrite Hnd; by intros [? ?]).
    destruct t as [|c l k v t'].
    + change (x = Nil) in Hx; subst x. exists nil_node.
      rewrite (winv_nil _ _ Hw). destruct r_nil. by split_and!.
    + destruct Hx as (Hne & n & Hn & Hr & Hc & Hk & Hv & _). exists n.
      assert (rid_ n <> r) by (by eapply published_ne). split_and!; try done.
      intros ????? [= <- <- <- <- <-]. done.
  - intros [-> (_ & pa & pb & Hl & _)].
    destruct (winv_lookup _ _ _ _ Hw Hl) as (n & Hn & Hc & Hk & Hv & Hr & _).
    exists n. rewrite Hl. split_and!; try done.
    intros ????? [= <- <- <- <- <-]. split_and!; try done. eapply delta_not_nil; eauto.
Qed.

Lemma at_loc_E δ w d x : winv δ w -> at_loc δ w d x -> (x = Nil <-> erase d = E).
Proof.
  intros Hw Hx. destruct (at_loc_node _ _ _ _ Hw Hx) as (n & _ & _ & _ & Hn & He).
  split; [|done]. intros ->. destruct (erase d) eqn:Ee; [done|].
  by destruct (Hn _ _ _ _ _ eq_refl) as (_ & _ & ?).
Qed.

Lemma dt_of_at_loc δ w d x : winv δ w -> at_loc δ w d x -> is_Some (δ !! x) \/ x = Nil -> dt δ (Ref x) d.
Proof.
  intros Hw Hx [Hs| ->].
  - destruct (at_loc_delta _ _ _ _ Hw Hx Hs) as (c & a & k & v & b & ->). apply Hx.
  - pose proof (proj1 (at_loc_E δ w d Nil Hw Hx) eq_refl) as He.
    destruct d as [t|]; [|done]. simpl in He. by right.
Qed.

(** A reference to a delta tree is a location of it. *)
Lemma at_loc_of_dt δ w d x : winv δ w -> dt δ (Ref x) d -> at_loc δ w d x.
Proof.
  intros Hw. destruct d as [t|l c a k v b]; simpl.
  - intros [?|[-> [= ->]]]; done.
  - intros ([= ->] & pa & pb & ? & ? & ?). split; [done|]. split; [done|]. by exists pa, pb.
Qed.

(** Dereferencing a field of a delta node. *)
Lemma wp_ref_child δ l an sd d s : sinv δ s -> δ !! l = Some an -> dt δ (an_child sd an) d ->
  wp (tm (ref_child sd l)) (fun y s' => sinv δ s' /\ sext s s' /\ at_loc δ s'.1 d y) s.
Proof.
  intros Hs Hl Hd. pose proof Hs as [Hw _].
  destruct (winv_lookup _ _ _ _ Hw Hl) as (n & Hn & Hm).
  assert (l <> Nil) as Hne by (eapply delta_not_nil; eauto).
  pose proof (w_node_child _ _ _ sd Hm) as Hp.
  apply (wp_tm_inv _ δ δ (fun y w => at_loc δ w d y)); [done|done|].
  assert ((exists x, an_child sd an = Ref x) \/ (exists t, d = DL t /\ an_child sd an = Old t)) as [[x Hx]|(t & -> & Ht)].
  { destruct d; simpl in Hd; [destruct Hd as [?|[-> ?]] | destruct Hd as [? _]]; eauto. }
  - rewrite Hx in Hp, Hd. destruct Hp as [Hp _].
    eapply twp_conseq; [by eapply twp_ref_child_Ref|]. intros y w (-> & Hw' & He).
    split_and!; try done. by apply at_loc_of_dt.
  - rewrite Ht in Hp. eapply twp_conseq; [by eapply twp_ref_child_Old|].
    intros y w (Hy & Hw' & He & _). by split_and!.
Qed.

Definition sub (sd : side) (t : tree) : tree :=
  match t with E => E | T _ l _ _ b => match sd with SideL => l | SideR => b end end.

(** Dereferencing a field of a node outside the delta. *)
Lemma wp_ref_child_old δ c l k v b x sd s : sinv δ s -> w_nd s.1 (T c l k v b) x ->
  wp (tm (ref_child sd x)) (fun y s' => sinv δ s' /\ sext s s' /\ w_nd s'.1 (sub sd (T c l k v b)) y) s.
Proof.
  intros Hs Hx. pose proof Hs as [Hw _]. pose proof Hx as (Hne & n & Hn & _ & _ & _ & _ & Hl & Hr).
  apply (wp_tm_inv _ δ δ (fun y w => w_nd w (sub sd (T c l k v b)) y)); [done|done|]. eapply twp_conseq.
  { eapply (twp_ref_child_Old δ sd x n (sub sd (T c l k v b))); try done. by destruct sd. }
  intros y w (Hy & Hw' & He & _). by split_and!.
Qed.

(** ** Reading fields *)

Lemma wp_node_red δ d x (Q : bool -> W * PersistentTree -> Prop) s :
  sinv δ s -> at_loc δ s.1 d x -> Q (is_red (erase d)) s -> wp (tm (node_red x)) Q s.
Proof.
  intros [Hw _] Hx HQ. destruct (at_loc_node _ _ _ _ Hw Hx) as (n & Hn & Hc & _).
  eapply (wp_read red_); [done|]. by rewrite Hc.
Qed.

Lemma wp_node_rid δ d x (Q : Z -> W * PersistentTree -> Prop) s :
  sinv δ s -> at_loc δ s.1 d x ->
  (forall rid, (rid = r <-> is_Some (δ !! x)) -> Q rid s) -> wp (tm (node_rid x)) Q s.
Proof.
  intros [Hw _] Hx HQ. destruct (at_loc_node _ _ _ _ Hw Hx) as (n & Hn & _ & Hr & _).
  eapply (wp_read rid_); [done|]. by apply HQ.
Qed.

Lemma wp_node_key δ d x c l k v b (Q : string -> W * PersistentTree -> Prop) s :
  sinv δ s -> at_loc δ s.1 d x -> erase d = T c l k v b -> Q k s -> wp (tm (node_key x)) Q s.
Proof.
  intros [Hw _] Hx He HQ. destruct (at_loc_node _ _ _ _ Hw Hx) as (n & Hn & _ & _ & Hk & _).
  destruct (Hk _ _ _ _ _ He) as (Hkey & _). eapply (wp_read key_); [done|]. by rewrite Hkey.
Qed.

Lemma wp_node_val δ d x c l k v b (Q : string -> W * PersistentTree -> Prop) s :
  sinv δ s -> at_loc δ s.1 d x -> erase d = T c l k v b -> Q v s -> wp (tm (node_val x)) Q s.
Proof.
  intros [Hw _] Hx He HQ. destruct (at_loc_node _ _ _ _ Hw Hx) as (n & Hn & _ & _ & Hk & _).
  destruct (Hk _ _ _ _ _ He) as (_ & Hval & _). eapply (wp_read val_); [done|]. by rewrite Hval.
Qed.

(** ** Writing delta nodes *)

Lemma insert_dom (δ : gmap loc anode) (l : loc) (an : anode) : forall l', is_Some (δ !! l') -> is_Some (<[l := an]> δ !! l').
Proof. intros l' ?. apply lookup_insert_is_Some'. by right. Qed.

Lemma insert_same_dom (δ : gmap loc anode) l an an' : δ !! l = Some an ->
  forall l', is_Some (<[l := an']> δ !! l') <-> is_Some (δ !! l').
Proof. intros Hl l'. rewrite lookup_insert_is_Some'. split; [intros [<-|?]; [by eexists|done]|by right]. Qed.

(** A write to the node at [l], as an update of its abstract node. *)
Lemma wp_write δ l an f g s : sinv δ s -> δ !! l = Some an ->
  (forall w' n, wext s.1 w' -> w_node w' n an -> w_node w' (f n) (g an)) ->
  wp (tm (n ← load l; store l (f n))) (fun _ s' => sinv (<[l := g an]> δ) s' /\ sext s s') s.
Proof.
  intros Hs Hl Hf. pose proof Hs as [Hw _].
  destruct (winv_lookup _ _ _ _ Hw Hl) as (n & Hn & Hm).
  eapply wp_conseq; [eapply (wp_tm_inv _ δ (<[l := g an]> δ) (fun _ _ => True) s Hs)|].
  - by eapply insert_same_dom.
  - apply twp_bind, (twp_load _ n); [done|]. apply twp_store.
    destruct (winv_update δ s.1 l an n (g an) (f n) Hw Hl Hn) as [? ?]; [|by split_and!].
    intros w' He Hm'. by apply Hf.
  - by intros _ s' (? & ? & _).
Qed.

Lemma wp_set_ref_child δ l an sd x s : sinv δ s -> δ !! l = Some an -> is_Some (ns_heap s.1 !! x) ->
  wp (tm (set_ref_child sd l x)) (fun _ s' => sinv (<[l := an_set_child sd (Ref x) an]> δ) s' /\ sext s s') s.
Proof.
  intros Hs Hl Hx. eapply wp_write; [done..|]. intros w' n He Hm.
  apply w_node_set_child; [done|]. split; [by apply (w_node_db _ _ _ sd Hm)|]. split; [done|]. by eapply wext_dom.
Qed.

Lemma wp_put_child δ l an sd p a s : sinv δ s -> δ !! l = Some an -> w_field s.1 p a ->
  wp (tm (put_child sd l p)) (fun _ s' => sinv (<[l := an_set_child sd a an]> δ) s' /\ sext s s') s.
Proof.
  intros Hs Hl Hx. eapply (wp_write δ l an (set_child sd p)); [done..|]. intros w' n He Hm.
  apply w_node_set_child; [done|]. by eapply w_field_mono.
Qed.

Lemma wp_get_child δ l an sd (Q : NodePtr -> W * PersistentTree -> Prop) s :
  sinv δ s -> δ !! l = Some an -> (forall p, w_field s.1 p (an_child sd an) -> Q p s) ->
  wp (tm (get_child sd l)) Q s.
Proof.
  intros [Hw _] Hl HQ. destruct (winv_lookup _ _ _ _ Hw Hl) as (n & Hn & Hm).
  eapply (wp_read (child sd)); [done|]. apply HQ. by apply w_node_field.
Qed.

Lemma w_node_ro w n an : w_node w n an -> read_only_ n = false.
Proof. by intros (_ & _ & _ & _ & ? & _). Qed.

Lemma wp_set_red δ l an c s : sinv δ s -> δ !! l = Some an ->
  wp (tm (set_red c l)) (fun _ s' => sinv (<[l := an_set_red c an]> δ) s' /\ sext s s') s.
Proof.
  intros Hs Hl. pose proof Hs as [Hw _].
  destruct (winv_lookup _ _ _ _ Hw Hl) as (n & Hn & Hm).
  eapply wp_conseq; [eapply (wp_tm_inv _ δ (<[l := an_set_red c an]> δ) (fun _ _ => True) s Hs)|].
  - by eapply insert_same_dom.
  - apply twp_bind, (twp_load _ n); [done|].
    apply twp_bind, twp_assert; [by rewrite (w_node_ro _ _ _ Hm)|]. apply twp_store.
    destruct (winv_update δ s.1 l an n (an_set_red c an) (with_red c n) Hw Hl Hn) as [? ?]; [|by split_and!].
    by intros w' He (? & ? & ? & ? & ? & ? & ?).
  - by intros _ s' (? & ? & _).
Qed.

(** Two delta nodes updated together. *)
Lemma winv_update2 δ w l l' an an' n n' bn bn' m m' :
  winv δ w -> l <> l' -> δ !! l = Some an -> δ !! l' = Some an' ->
  ns_heap w !! l = Some n -> ns_heap w !! l' = Some n' ->
  (forall w', wext w w' -> w_node w' n an -> w_node w' n' an' -> w_node w' m bn /\ w_node w' m' bn') ->
  winv (<[l' := bn']> (<[l := bn]> δ)) (set_node l' m' (set_node l m w)) /\
  wext w (set_node l' m' (set_node l m w)).
Proof.
  intros Hw Hne Hl Hl' Hn Hn' Hup.
  destruct (winv_lookup _ _ _ _ Hw Hl) as (? & Hn0 & Hm). rewrite Hn in Hn0. injection Hn0 as <-.
  destruct (winv_lookup _ _ _ _ Hw Hl') as (? & Hn0 & Hm'). rewrite Hn' in Hn0. injection Hn0 as <-.
  destruct (winv_update δ w l an n bn m Hw Hl Hn) as [Hw1 He1].
  { intros w' He ?. apply Hup; eauto using w_node_mono. }
  destruct (winv_update (<[l := bn]> δ) (set_node l m w) l' an' n' bn' m' Hw1) as [Hw2 He2].
  - by rewrite lookup_insert_ne.
  - by rewrite set_node_heap, lookup_insert_ne.
  - intros w' He ?. assert (wext w w') by (by etransitivity). apply Hup; eauto using w_node_mono.
  - split; [done|]. by etransitivity.
Qed.

Lemma wp_swap_color δ l l' an an' s :
  sinv δ s -> l <> l' -> δ !! l = Some an -> δ !! l' = Some an' ->
  wp (tm (swap_color l l')) (fun _ s' =>
    sinv (<[l' := an_set_red (an_red an) an']> (<[l := an_set_red (an_red an') an]> δ)) s' /\ sext s s') s.
Proof.
  intros Hs Hne Hl Hl'. pose proof Hs as [Hw _].
  destruct (winv_lookup _ _ _ _ Hw Hl) as (n & Hn & Hm).
  destruct (winv_lookup _ _ _ _ Hw Hl') as (n' & Hn' & Hm').
  eapply wp_conseq; [eapply (wp_tm_inv _ δ (<[l' := an_set_red (an_red an) an']> (<[l := an_set_red (an_red an') an]> δ)) (fun _ _ => True) s Hs)|].
  - intros x. erewrite insert_same_dom; [by eapply insert_same_dom|]. by rewrite lookup_insert_ne.
  - apply twp_bind, (twp_load _ n); [done|].
    apply twp_bind, twp_assert; [by rewrite (w_node_ro _ _ _ Hm)|].
    apply twp_bind, (twp_load _ n'); [done|].
    apply twp_bind, twp_assert; [by rewrite (w_node_ro _ _ _ Hm')|].
    apply twp_bind, twp_store. apply twp_bind, (twp_load _ n').
    { by rewrite set_node_heap, lookup_insert_ne. }
    apply twp_store.
    destruct (winv_update2 δ s.1 l l' an an' n n' (an_set_red (an_red an') an) (an_set_red (an_red an) an')
      (with_red (red_ n') n) (with_red (red_ n) n') Hw Hne Hl Hl' Hn Hn') as [? ?]; [|by split_and!].
    intros w' He (? & ? & ? & ? & ? & ? & ?) (? & ? & ? & ? & ? & ? & ?). by split_and!.
  - by intros _ s' (? & ? & _).
Qed.

Lemma wp_steal_payload δ l l' an an' s :
  sinv δ s -> l <> l' -> δ !! l = Some an -> δ !! l' = Some an' ->
  wp (tm (steal_payload l l')) (fun _ s' =>
    sinv (<[l' := an_set_payload "" "" an']> (<[l := an_set_payload (an_key an') (an_val an') an]> δ)) s' /\ sext s s') s.
Proof.
  intros Hs Hne Hl Hl'. pose proof Hs as [Hw _].
  destruct (winv_lookup _ _ _ _ Hw Hl) as (n & Hn & Hm).
  destruct (winv_lookup _ _ _ _ Hw Hl') as (n' & Hn' & Hm').
  eapply wp_conseq; [eapply (wp_tm_inv _ δ (<[l' := an_set_payload "" "" an']> (<[l := an_set_payload (an_key an') (an_val an') an]> δ)) (fun _ _ => True) s Hs)|].
  - intros x. erewrite insert_same_dom; [by eapply insert_same_dom|]. by rewrite lookup_insert_ne.
  - apply twp_bind, (twp_load _ n); [done|].
    apply twp_bind, twp_assert; [by rewrite (w_node_ro _ _ _ Hm)|].
    apply twp_bind, (twp_load _ n'); [done|].
    apply twp_bind, twp_assert; [by rewrite (w_node_ro _ _ _ Hm')|].
    apply twp_bind, twp_store. apply twp_bind, (twp_load _ n').
    { by rewrite set_node_heap, lookup_insert_ne. }
    apply twp_store.
    destruct (winv_update2 δ s.1 l l' an an' n n' (an_set_payload (an_key an') (an_val an') an) (an_set_payload "" "" an')
      (with_payload (key_ n') (val_ n') n) (with_payload "" "" n') Hw Hne Hl Hl' Hn Hn') as [? ?]; [|by split_and!].
    intros w' He (? & ? & ? & ? & ? & ? & ?) (? & ? & ? & ? & ? & ? & ?). by split_and!.
  - by intros _ s' (? & ? & _).
Qed.

End rules.

(** Move every fact about a state to one of its extensions. *)
Ltac advance He :=
  lazymatch type of He with
  | sext ?s ?s' =>
    let Hw := fresh in
    pose proof (sext_w _ _ He) as Hw;
    repeat match goal with
    | H : w_nd (fst s) _ _ |- _ => apply (wext_nd _ _ Hw) in H
    | H : at_loc _ (fst s) _ _ |- _ => apply (at_loc_mono _ _ _ _ _ Hw) in H
    | H : w_ptr (fst s) _ _ |- _ => apply (w_ptr_mono _ _ _ _ Hw) in H
    | H : w_field (fst s) _ _ |- _ => apply (w_field_mono _ _ _ _ Hw) in H
    | H : is_Some (ns_heap (fst s) !! _) |- _ => apply (wext_dom _ _ Hw) in H
    | H : sext _ s |- _ => apply (fun H1 => transitivity H1 He) in H
    end; clear Hw
  end.

(** Run one operation by its rule, then name what it returns. *)
Ltac wstep lem := apply wp_bind; eapply wp_conseq; [eapply lem; eauto|].
