(* ===== verification/PathCopy.v ===== *)
(** Path copying: the recursive descents of persistent_tree.cc build, below the
    root they return, the search path of the key as delta nodes, and change
    nothing else. *)
From S2P Require Import Prelude Slice RBTree Node Proto PersistentTree Delta.

Definition dsub (s : side) (d : dtree) : dtree :=
  match d with
  | DL t => DL (sub s t)
  | DN _ _ a _ _ b => match s with SideL => a | SideR => b end
  end.

Lemma erase_dsub s d : erase (dsub s d) = sub s (erase d).
Proof. by destruct d, s. Qed.

Lemma dlocs_dsub s d l : l ∈ dlocs (dsub s d) -> l ∈ dlocs d.
Proof. destruct d, s; simpl; set_solver. Qed.

Lemma NoDup_dsub s d : NoDup (dlocs d) -> NoDup (dlocs (dsub s d)).
Proof.
  destruct d as [t|l c a k v b]; simpl; [by destruct s|].
  intros (_ & H)%NoDup_cons. apply NoDup_app in H as (? & _ & ?). by destruct s.
Qed.

Lemma dsub_disjoint s d l : NoDup (dlocs d) -> l ∈ dlocs (dsub s d) -> l ∉ dlocs (dsub (flip s) d).
Proof.
  destruct d as [t|l' c a k v b]; simpl; [set_solver|].
  intros (_ & H)%NoDup_cons. apply NoDup_app in H as (_ & H & _). destruct s; simpl; set_solver.
Qed.

Lemma descend_app k t : forall fs,
  descend k t fs = (fst (descend k t []), snd (descend k t []) ++ fs).
Proof.
  induction t as [|c l IHl k' v r IHr]; intros fs; simpl; [done|].
  destruct (String.compare k k'); [done| |].
  - rewrite IHl, (IHl [_]). simpl. by rewrite <- app_assoc.
  - rewrite IHr, (IHr [_]). simpl. by rewrite <- app_assoc.
Qed.

(** The side the comparison of the code selects. *)
Lemma descend_side k d c l k' v r (sd : side) :
  erase d = T c l k' v r -> (slt k k' /\ sd = SideL \/ slt k' k /\ sd = SideR) ->
  descend k (erase d) [] =
    (fst (descend k (erase (dsub sd d)) []),
     snd (descend k (erase (dsub sd d)) []) ++ [PFrame sd c k' v (erase (dsub (flip sd) d))]).
Proof.
  intros He Hs. rewrite !erase_dsub, He. simpl. destruct Hs as [[Hk ->]|[Hk ->]]; simpl.
  - unfold slt in Hk. rewrite Hk. apply descend_app.
  - apply compare_gt_slt in Hk. rewrite Hk. apply descend_app.
Qed.

Lemma dctx_snoc δ fs x m f ps :
  dctx δ fs x m ->
  δ !! df_loc f = Some (an_on (df_side f) (df_red f) (df_key f) (df_val f) (Ref m) ps) ->
  dt δ ps (df_sib f) -> dctx δ (fs ++ [f]) x (df_loc f).
Proof.
  revert x. induction fs as [|g fs IH]; simpl; intros x.
  - intros -> Hf Hs. split; [|done]. by exists ps.
  - intros (Hg & Hc) Hf Hs. split; [done|]. by apply IH.
Qed.

Lemma flocs_app fs fs' : flocs (fs ++ fs') = flocs fs ++ flocs fs'.
Proof. induction fs as [|f fs IH]; simpl; [done|]. by rewrite IH, app_assoc. Qed.

Section path_copy.
Context {W : Type} {NS : NodeStore W} {NSL : NodeStoreLaws W} {SC : SliceCompare} {SL : SliceLaws}.
Context (r : Z) (P : Prop).
Hypothesis r_i64 : i64 (u64 r) = r.
Hypothesis r_nil : delta_id ns_hor r.

(** What a descent still knows of a node on its path: everything but the child
    it went down to, on side [sd]. *)
Definition half (δ : gmap loc anode) (w : W) (x : loc) (sd : side) (c : bool) (k v : string) (b : dtree) : Prop :=
  (exists ta tb, b = DL tb /\ w_nd w (node_on sd c ta k v tb) x) \/
  (exists pa pb, δ !! x = Some (an_on sd c k v pa pb) /\ dt δ pb b).

Lemma half_of δ w d x sd c l k v t : at_loc δ w d x -> erase d = T c l k v t ->
  half δ w x sd c k v (dsub (flip sd) d).
Proof.
  intros Hx He. destruct d as [t'|l' c' a k' v' b].
  - left. simpl in *. subst t'. destruct sd; simpl; eauto.
  - right. simpl in He. injection He as <- <- <- <- <-.
    destruct Hx as [-> (_ & pa & pb & Hl & Ha & Hb)].
    destruct sd; simpl; [exists pa, pb | exists pb, pa]; eauto.
Qed.

Lemma half_step δ δ' w w' x sd c k v b : wext w w' ->
  (δ !! x <> None -> δ' !! x = δ !! x) -> (forall l, l ∈ dlocs b -> δ' !! l = δ !! l) ->
  half δ w x sd c k v b -> half δ' w' x sd c k v b.
Proof.
  intros He Hx Hb [(ta & tb & -> & Hn)|(pa & pb & Hn & Hd)].
  - left. exists ta, tb. split; [done|]. by eapply wext_nd.
  - right. exists pa, pb. rewrite Hx by congruence. split; [done|]. by eapply dt_ext.
Qed.

(** A descent to a child. *)
Lemma wp_down δ d x sd c l k v t s :
  sinv r P δ s -> at_loc δ s.1 d x -> erase d = T c l k v t ->
  wp (tm (ref_child sd x)) (fun y s' => sinv r P δ s' /\ sext s s' /\ at_loc δ s'.1 (dsub sd d) y) s.
Proof.
  intros Hs Hx He. destruct d as [t'|l' c' a k' v' b].
  - simpl in He. subst t'. by eapply wp_ref_child_old.
  - destruct Hx as [-> (_ & pa & pb & Hl & Ha & Hb)].
    eapply wp_ref_child; [done..|]. by destruct sd.
Qed.

Lemma wp_own_delta δ an x (Q : loc -> W * PersistentTree -> Prop) s :
  sinv r P δ s -> δ !! x = Some an -> Q x s -> wp (own x) Q s.
Proof.
  intros Hs Hx HQ. pose proof Hs as [Hw _].
  destruct (winv_lookup _ _ _ _ _ Hw Hx) as (n & Hn & Hm).
  unfold own. apply wp_bind, (wp_read rid_ x n); [done|].
  apply wp_bind, (wp_tree_rid r P δ); [done|].
  rewrite decide_True by apply Hm. by apply wp_ret.
Qed.

Lemma wp_own_old δ c tl k v tr x s :
  sinv r P δ s -> w_nd s.1 (T c tl k v tr) x ->
  wp (own x) (fun y s' => δ !! y = None /\ y <> Nil /\
    sinv r P (<[y := AN c k v (Old tl) (Old tr)]> δ) s' /\ sext s s') s.
Proof.
  intros Hs Hx. pose proof Hx as (_ & n & Hn & Hr & _). unfold own.
  apply wp_bind, (wp_read rid_ x n); [done|]. apply wp_bind, (wp_tree_rid r P δ); [done|].
  rewrite decide_False by (by eapply published_ne). by apply wp_copy_fresh.
Qed.

(** The node of the path becomes a delta node: itself, or a fresh copy. *)
Lemma wp_own_half δ x sd c k v b s : sinv r P δ s -> half δ s.1 x sd c k v b ->
  wp (own x) (fun y s' => exists δ' pa pb, sinv r P δ' s' /\ sext s s' /\ δ ⊆ δ' /\
    δ' !! y = Some (an_on sd c k v pa pb) /\ dt δ' pb b /\ (((y = x /\ δ' = δ) \/ (δ !! y = None /\ b = DL (erase b))))) s.
Proof.
  intros Hs [(ta & tb & -> & Hx)|(pa & pb & Hx & Hb)].
  - assert (exists tl tr, node_on sd c ta k v tb = T c tl k v tr) as (tl & tr & Heq) by (destruct sd; simpl; eauto).
    rewrite Heq in Hx. eapply wp_conseq; [by eapply wp_own_old|].
    intros y s' (Hy & Hne & Hs' & He).
    exists (<[y := AN c k v (Old tl) (Old tr)]> δ), (Old ta), (Old tb). split_and!; try done.
    + by apply insert_subseteq.
    + rewrite lookup_insert_eq. by destruct sd; simpl in *; simplify_eq.
    + by left.
    + by right.
  - eapply wp_own_delta; [done..|]. exists δ, pa, pb. split_and!; try done. by left.
Qed.

(** Linking the rebuilt child: the frame of this node. *)
Lemma wp_link δ x sd c k v b m s :
  sinv r P δ s -> half δ s.1 x sd c k v b -> is_Some (ns_heap s.1 !! m) -> x ∉ dlocs b ->
  wp (copy ← own x; (tm (set_ref_child sd copy m);; mret copy))
    (fun y s' => exists δ' ps, sinv r P δ' s' /\ sext s s' /\
      δ' !! y = Some (an_on sd c k v (Ref m) ps) /\ dt δ' ps b /\
      ((y = x /\ is_Some (δ !! x)) \/ δ !! y = None) /\ (y ∉ dlocs b) /\
      (forall l, is_Some (δ !! l) -> l <> x -> δ' !! l = δ !! l) /\ (forall l, is_Some (δ !! l) -> is_Some (δ' !! l))) s.
Proof.
  intros Hs Hh Hm Hxb. apply wp_bind. eapply wp_conseq; [by eapply wp_own_half|].
  intros y s1 (δ1 & pa & pb & Hs1 & He1 & Hsub & Hy & Hb & Hcase). advance He1.
  assert (y ∉ dlocs b) as Hyb by (destruct Hcase as [[-> _]|[_ ->]]; [done | simpl; set_solver]).
  wstep wp_set_ref_child. intros _ s2 [Hs2 He2].
  apply wp_ret. rewrite an_set_child_on in Hs2.
  exists (<[y := an_on sd c k v (Ref m) pb]> δ1), pb. split_and!; try done.
  - by etransitivity.
  - by rewrite lookup_insert_eq.
  - by apply dt_frame.
  - destruct Hcase as [[-> ->]|[? _]]; [left; eauto | by right].
  - intros l [an Hl] Hne. rewrite Hl. rewrite lookup_insert_ne; [by eapply lookup_weaken|].
    intros ->. destruct Hcase as [[-> _]|[Hc _]]; congruence.
  - intros l Hl. apply insert_dom. destruct Hl as [an Hl]. exists an. by eapply lookup_weaken.
Qed.

(** ** Descents *)

(** A descent over [d] has built the frames [fs] above the delta tree [dd] at
    [x], out of nodes of [d] and fresh ones. *)
Record descent (δ δ' : gmap loc anode) (d dd : dtree) (fs : list dframe) (x root : loc) : Prop := {
  desc_ctx : dctx δ' fs x root;
  desc_focus : dt δ' (Ref x) dd;
  desc_in : x ∈ dlocs dd;
  desc_nodup : NoDup (dlocs dd ++ flocs fs);
  desc_locs l : l ∈ dlocs dd ++ flocs fs -> l ∈ dlocs d \/ δ !! l = None;
  desc_frame l : is_Some (δ !! l) -> l ∉ dlocs d -> δ' !! l = δ !! l;
  desc_dom l : is_Some (δ !! l) -> is_Some (δ' !! l);
}.

Lemma descent_some δ δ' d dd fs x root l :
  descent δ δ' d dd fs x root -> l ∈ dlocs dd ++ flocs fs -> is_Some (δ' !! l).
Proof.
  intros [Hc Hf _ _ _ _ _] [Hl|Hl]%elem_of_app; [by eapply dt_locs | by eapply dctx_locs].
Qed.

Lemma descent_root δ δ' d dd fs x root : descent δ δ' d dd fs x root -> root ∈ dlocs dd ++ flocs fs.
Proof.
  intros D. pose proof (desc_ctx _ _ _ _ _ _ _ D) as Hc. apply elem_of_app. destruct fs as [|f fs].
  - simpl in Hc. subst. left. apply D.
  - right. by eapply dctx_root_in.
Qed.

(** The node [x0] of [d] above a descent into its child. *)
Definition above (δ δ1 : gmap loc anode) (d : dtree) (x0 : loc) : Prop :=
  δ1 !! x0 = None \/ (is_Some (δ !! x0) /\ x0 ∈ dlocs d /\ forall sd, x0 ∉ dlocs (dsub sd d)).

Lemma above_fresh δ δ1 d x0 sd dd fs x m : above δ δ1 d x0 ->
  descent δ δ1 (dsub sd d) dd fs x m -> x0 ∉ dlocs dd ++ flocs fs.
Proof.
  intros Hab D Hin. pose proof (descent_some _ _ _ _ _ _ _ _ D Hin) as [an Hs].
  destruct Hab as [Hn|([an' Ha] & _ & Hd)]; [congruence|].
  destruct (desc_locs _ _ _ _ _ _ _ D _ Hin) as [?|?]; [by eapply Hd | congruence].
Qed.

Lemma descent_link δ δ1 δ2 d dd fs x m x0 sd c k v y ps :
  let b := dsub (flip sd) d in
  descent δ δ1 (dsub sd d) dd fs x m -> NoDup (dlocs d) ->
  (forall l, l ∈ dlocs d -> is_Some (δ !! l)) ->
  above δ δ1 d x0 ->
  δ2 !! y = Some (an_on sd c k v (Ref m) ps) -> dt δ2 ps b ->
  (y = x0 /\ x0 ∈ dlocs d) \/ δ1 !! y = None -> y ∉ dlocs b ->
  (forall l, is_Some (δ1 !! l) -> l <> x0 -> δ2 !! l = δ1 !! l) ->
  (forall l, is_Some (δ1 !! l) -> is_Some (δ2 !! l)) ->
  descent δ δ2 d dd (fs ++ [DF y sd c k v b]) x y.
Proof.
  intros b D Hnd Hin Hab Hy Hps Hyx Hyb Hoth Hdom.
  assert (forall l, l ∈ dlocs dd ++ flocs fs -> δ2 !! l = δ1 !! l) as Hsame.
  { intros l Hl. apply Hoth; [by eapply descent_some|]. intros ->. by eapply above_fresh. }
  assert (y ∉ dlocs dd ++ flocs fs) as Hyf.
  { intros Hl. destruct Hyx as [[-> _]|Hn]; [by eapply above_fresh|].
    pose proof (descent_some _ _ _ _ _ _ _ _ D Hl) as [? ?]. congruence. }
  assert (forall l, l ∈ dlocs b -> l ∉ dlocs dd ++ flocs fs) as Hbf.
  { intros l Hl Hl'. destruct (desc_locs _ _ _ _ _ _ _ D _ Hl') as [Hd|Hd].
    - by eapply (dsub_disjoint sd d).
    - destruct (Hin l) as [? ?]; [by eapply dlocs_dsub | congruence]. }
  split.
  - eapply (dctx_snoc _ _ _ m (DF y sd c k v b)); [|done..].
    eapply dctx_ext; [|apply D]. set_solver.
  - eapply dt_ext; [|apply D]. set_solver.
  - apply D.
  - rewrite flocs_app, app_assoc. apply NoDup_app. split_and!; [apply D| |].
    + simpl. rewrite app_nil_r. set_solver.
    + simpl. rewrite app_nil_r. apply NoDup_cons. split; [done | by apply NoDup_dsub].
  - intros l. rewrite flocs_app, app_assoc, elem_of_app. simpl. rewrite app_nil_r, elem_of_cons.
    intros [Hl|[->|Hl]].
    + destruct (desc_locs _ _ _ _ _ _ _ D _ Hl); [left; by eapply dlocs_dsub | by right].
    + destruct Hyx as [[-> ?]|Hn]; [by left|]. right.
      destruct (δ !! y) as [an|] eqn:E; [|done].
      destruct (desc_dom _ _ _ _ _ _ _ D y) as [? ?]; [eauto | congruence].
    + left. by eapply dlocs_dsub.
  - intros l Hs Hl. destruct (decide (l = x0)) as [->|Hne].
    + destruct Hab as [Hn|(_ & Hd & _)]; [|done].
      destruct (desc_dom _ _ _ _ _ _ _ D x0) as [? ?]; [done | congruence].
    + rewrite Hoth; [|by apply D|done]. apply D; [done|]. intros ?%dlocs_dsub. done.
  - intros l ?. by apply Hdom, D.
Qed.

(** The step back up: own the node, link the rebuilt child below it. *)
Lemma wp_up {A} δ δ1 d dd fs x m x0 sd c l k v t w0 s1 (f : loc -> PM A) (Q : A -> W * PersistentTree -> Prop) :
  winv r δ w0 -> at_loc δ w0 d x0 -> erase d = T c l k v t -> NoDup (dlocs d) ->
  wext w0 s1.1 -> sinv r P δ1 s1 -> descent δ δ1 (dsub sd d) dd fs x m ->
  (forall y s2 δ2, sinv r P δ2 s2 -> sext s1 s2 ->
    descent δ δ2 d dd (fs ++ [DF y sd c k v (dsub (flip sd) d)]) x y -> wp (f y) Q s2) ->
  wp (copy ← own x0; (tm (set_ref_child sd copy m);; f copy)) Q s1.
Proof.
  intros Hw0 Hx He Hnd Hext Hs1 D Hk. pose proof Hs1 as [Hw1 _].
  pose proof (half_of _ _ _ _ sd _ _ _ _ _ Hx He) as Hh.
  assert (forall l, l ∈ dlocs d -> is_Some (δ !! l)) as Hin.
  { intros l' Hl'. destruct d as [t'|x' c' a k' v' b]; [simpl in Hl'; set_solver|].
    destruct Hx as [_ Hx]. by eapply dt_locs. }
  assert (above δ δ1 d x0 /\ (is_Some (δ1 !! x0) -> x0 ∈ dlocs d) /\ forall sd, x0 ∉ dlocs (dsub sd d)) as (Hab & Hx0 & Hx0b).
  { destruct d as [t'|x' c' a k' v' b].
    - simpl in Hx. assert (δ1 !! x0 = None) as Hn by (eapply nd_not_delta; eauto; by eapply wext_nd).
      split_and!; [by left | rewrite Hn; by intros [? ?] | simpl; set_solver].
    - destruct Hx as [-> Hx]. assert (forall sd, x' ∉ dlocs (dsub sd (DN x' c' a k' v' b))) as Hns.
      { simpl in Hnd. apply NoDup_cons in Hnd as [Hn _]. intros []; simpl; set_solver. }
      split_and!; [right; split_and!; [|simpl; set_solver|done] | simpl; set_solver | done].
      apply Hin. simpl. set_solver. }
  assert (forall l, l ∈ dlocs (dsub (flip sd) d) -> δ1 !! l = δ !! l) as Hsib.
  { intros l' Hl'. apply D; [apply Hin; by eapply dlocs_dsub|].
    intros Hl2. by eapply (dsub_disjoint sd d). }
  assert (half δ1 s1.1 x0 sd c k v (dsub (flip sd) d)) as Hh1.
  { eapply half_step; [exact Hext| |exact Hsib|exact Hh].
    intros Hn. apply D; [by apply not_eq_None_Some | apply Hx0b]. }
  assert (is_Some (ns_heap s1.1 !! m)) as Hm.
  { eapply delta_live; [done|]. eapply descent_some; [done|]. by eapply descent_root. }
  pose proof (wp_link δ1 x0 sd c k v (dsub (flip sd) d) m s1 Hs1 Hh1 Hm (Hx0b _)) as HL.
  revert HL. unfold wp, mbind, M_bind.
  destruct (own x0 s1) as [[y s']| |]; try done.
  destruct (tm (set_ref_child sd y m) s') as [[[] s2]| |]; try done.
  simpl. intros (δ2 & ps & Hs2 & He2 & Hy & Hps & Hyx & Hyb & Hoth & Hdom).
  eapply (Hk y s2 δ2); try done.
  eapply descent_link; try done.
  destruct Hyx as [[-> ?]|?]; auto.
Qed.

Lemma new_leaf_spec δ key value s : sinv r P δ s ->
  wp (t ← get_tree;
      nn ← tm (new_node key value true (Some Nil) (Some Nil) (pt_rid t) false (pt_db t));
      (push_fresh nn;; mret nn))
    (fun nn s' => δ !! nn = None /\ nn <> Nil /\
      sinv r P (<[nn := AN true key value (Ref Nil) (Ref Nil)]> δ) s' /\ sext s s') s.
Proof.
  intros Hs. pose proof Hs as [Hw (Hr & Hdb & _)].
  apply wp_bind, wp_get_tree, wp_bind. rewrite Hr, Hdb.
  eapply (wp_tm _ _ (fun y w => δ !! y = None /\ y <> Nil /\
     winv r (<[y := AN true key value (Ref Nil) (Ref Nil)]> δ) w /\ wext s.1 w)).
  { unfold new_node. rewrite r_i64. apply twp_alloc.
    destruct (winv_alloc r δ s.1 (mkNode (mkNodePtr (Some Nil) None true) (mkNodePtr (Some Nil) None true) key value true r false)
      (AN true key value (Ref Nil) (Ref Nil)) Hw) as (? & ? & ? & ?); [|done].
    intros w' He. assert (is_Some (ns_heap w' !! Nil)).
    { apply (wext_dom _ _ He). rewrite (winv_nil _ _ _ Hw). eauto. }
    by split_and!. }
  intros y w tr (Hy & Hne & Hw' & He).
  apply wp_bind. eapply wp_conseq.
  { apply (wp_push_fresh r P δ y (AN true key value (Ref Nil) (Ref Nil))); [done| |done|done]. eapply tinv_mono; [apply Hs|done]. }
  intros _ s' [? He']. apply wp_ret. split_and!; try done. etransitivity; [|exact He']. by split.
Qed.

(** ** [insert_recursive] *)

Definition insert_post (δ : gmap loc anode) (d : dtree) (key value : string) (path : list loc)
    (s : W * PersistentTree) (res : option loc * list loc) (s' : W * PersistentTree) : Prop :=
  let '(o, path') := res in
  sext s s' /\
  match o with
  | None => sinv r P δ s' /\ path' = path /\ fst (descend key (erase d) []) <> E
  | Some root =>
    fst (descend key (erase d) []) = E /\
    exists δ' nn fs, sinv r P δ' s' /\
      descent δ δ' d (DN nn true (DL E) key value (DL E)) fs nn root /\
      path' = path ++ nn :: (df_loc <$> fs) /\
      erase_frame <$> fs = snd (descend key (erase d) [])
  end.

Lemma insert_recursive_spec fuel key value : forall path d x δ s,
  (height (erase d) < fuel)%nat -> sinv r P δ s -> at_loc δ s.1 d x -> NoDup (dlocs d) ->
  wp (insert_recursive fuel path key value x) (insert_post δ d key value path s) s.
Proof.
  induction fuel as [|fuel IH]; intros path d x δ s Hf Hs Hx Hnd; [lia|]. simpl.
  pose proof Hs as [Hw _].
  destruct (decide (x = Nil)) as [->|Hne].
  - pose proof (proj1 (at_loc_E r r_nil δ _ d Nil Hw Hx) eq_refl) as He.
    pose proof (new_leaf_spec δ key value s Hs) as HL.
    revert HL. unfold wp, mbind, M_bind.
    destruct (get_tree s) as [[t s0]| |]; try done.
    destruct (tm _ s0) as [[nn s1]| |]; try done.
    destruct (push_fresh nn s1) as [[u s2]| |]; try done.
    simpl. intros (Hnn & Hnil & Hs2 & He2). split; [done|]. rewrite He. split; [done|].
    eexists _, nn, []. split; [exact Hs2|]. split; [|done].
    split; simpl.
    + done.
    + split; [done|]. exists (Ref Nil), (Ref Nil). rewrite lookup_insert_eq. naive_solver.
    + set_solver.
    + apply NoDup_singleton.
    + intros l ->%list_elem_of_singleton. by right.
    + intros l [an Hl] _. rewrite lookup_insert_ne; congruence.
    + by apply insert_dom.
  - destruct (erase d) as [|c l k v t] eqn:He.
    { exfalso. apply Hne. by apply (at_loc_E r r_nil δ _ d x Hw Hx). }
    apply wp_bind. eapply wp_node_key; [done..|].
    destruct (slice_cases key k) as [[Hc ->]|Hc].
    { rewrite Hc. simpl. apply wp_ret. split; [done|]. split_and!; [done..|].
      rewrite He. simpl. by rewrite compare_refl. }
    rewrite (proj2 (Z.eqb_neq _ _)) by lia.
    assert (exists sd, (if slice_compare key k <? 0 then SideL else SideR) = sd /\
      (slt key k /\ sd = SideL \/ slt k key /\ sd = SideR)) as (sd & -> & Hsd).
    { destruct Hc as [[Hc Hk]|[Hc Hk]].
      - rewrite (proj2 (Z.ltb_lt _ _)) by lia. eauto.
      - rewrite (proj2 (Z.ltb_ge _ _)) by lia. eauto. }
    pose proof (descend_side key d c l k v t sd He Hsd) as Hdesc.
    wstep wp_down. intros y s1 (Hs1 & He1 & Hy). advance He1.
    assert (height (erase (dsub sd d)) < fuel)%nat.
    { rewrite erase_dsub, He. simpl in *. destruct sd; lia. }
    wstep IH; [by apply NoDup_dsub|]. intros [o path'] s2 [He2 Hpost].
    destruct o as [m|]; destruct Hpost as [Hpost1 Hpost2].
    + destruct Hpost2 as (δ1 & nn & fs & Hs2 & D & -> & Hfs).
      eapply (wp_up δ δ1 d _ fs nn m x sd c l k v t s1.1); try done.
      { by destruct Hs1. } { apply He2. }
      intros y' s3 δ2 Hs3 He3 D'. apply wp_ret.
      split; [do 2 (etransitivity; [done|]); done|]. rewrite Hdesc. split; [done|].
      eexists δ2, nn, _. split_and!; [done|exact D'| |].
      * rewrite fmap_app. simpl. by rewrite <- app_assoc.
      * rewrite fmap_app, Hfs. done.
    + destruct Hpost2 as [-> Hpost2]. apply wp_ret. split; [by etransitivity|]. split_and!; [done..|].
      by rewrite Hdesc.
Qed.

(** ** Owning one node *)

(** [d'] is [d] with its root in the delta. *)
Record owned (δ : gmap loc anode) (d d' : dtree) (y : loc) : Prop := {
  own_erase : erase d' = erase d;
  own_in : y ∈ dlocs d';
  own_root : forall c l k v t, erase d = T c l k v t -> exists a b, d' = DN y c a k v b /\ erase a = l /\ erase b = t;
  own_locs l : l ∈ dlocs d' -> l ∈ dlocs d \/ δ !! l = None;
  own_nodup : NoDup (dlocs d) -> NoDup (dlocs d');
}.

Lemma wp_own_at δ d x s : sinv r P δ s -> at_loc δ s.1 d x -> erase d <> E ->
  wp (own x) (fun y s' => exists δ' d', sinv r P δ' s' /\ sext s s' /\ owned δ d d' y /\
    dt δ' (Ref y) d' /\ δ ⊆ δ') s.
Proof.
  intros Hs Hx He. destruct d as [t|l c a k v b].
  - simpl in He. destruct t as [|c tl k v tr]; [done|].
    eapply wp_conseq; [by eapply wp_own_old|]. intros y s' (Hy & Hne & Hs' & Hext).
    eexists _, (DN y c (DL tl) k v (DL tr)). split_and!; [done..| | |].
    + split; simpl; try done.
      * set_solver.
      * intros ????? [= <- <- <- <- <-]. eauto.
      * intros l ->%list_elem_of_singleton. by right.
      * intros _. apply NoDup_singleton.
    + split; [done|]. exists (Old tl), (Old tr). rewrite lookup_insert_eq. naive_solver.
    + by apply insert_subseteq.
  - destruct Hx as [-> Hx]. pose proof Hx as (_ & pa & pb & Hl & _).
    eapply wp_own_delta; [done..|]. exists δ, (DN l c a k v b). split_and!; try done.
    split; try done; [simpl; set_solver | | auto].
    intros ????? [= <- <- <- <- <-]. eauto.
Qed.

(** Changes confined to the node [p] and to fresh nodes. *)
Record only (p : loc) (δ δ' : gmap loc anode) : Prop := {
  only_same l : is_Some (δ !! l) -> l <> p -> δ' !! l = δ !! l;
  only_dom l : is_Some (δ !! l) -> is_Some (δ' !! l);
}.

Lemma only_subset p δ δ' an : δ ⊆ δ' -> only p δ (<[p := an]> δ').
Proof.
  intros Hsub. split.
  - intros l [x Hl] Hne. rewrite lookup_insert_ne by done. rewrite Hl. by eapply lookup_weaken.
  - intros l [x Hl]. apply insert_dom. exists x. by eapply lookup_weaken.
Qed.

Lemma dt_subset δ δ' p d : δ ⊆ δ' -> dt δ p d -> dt δ' p d.
Proof.
  intros Hs Hd. eapply dt_ext; [|done]. intros l Hl.
  destruct (dt_locs _ _ _ _ Hd Hl) as [x Hx]. rewrite Hx. by eapply lookup_weaken.
Qed.

Lemma wp_own_link δ p an sd d x s : sinv r P δ s -> δ !! p = Some an ->
  at_loc δ s.1 d x -> erase d <> E -> p ∉ dlocs d ->
  wp (n ← own x; tm (set_ref_child sd p n)) (fun _ s' => exists δ' d' y,
    sinv r P δ' s' /\ sext s s' /\ owned δ d d' y /\ dt δ' (Ref y) d' /\
    δ' !! p = Some (an_set_child sd (Ref y) an) /\ only p δ δ') s.
Proof.
  intros Hs Hp Hx He Hpd. wstep wp_own_at. intros y s1 (δ1 & d' & Hs1 & He1 & Ho & Hd' & Hsub).
  assert (δ1 !! p = Some an) as Hp1 by (by eapply lookup_weaken).
  assert (is_Some (ns_heap s1.1 !! y)) as Hy.
  { eapply delta_live; [apply Hs1|]. eapply dt_locs; [done|]. apply Ho. }
  eapply wp_conseq; [by eapply wp_set_ref_child|]. intros _ s2 [Hs2 He2].
  eexists _, d', y. split_and!; [exact Hs2 | by etransitivity | done | | by rewrite lookup_insert_eq | by apply only_subset].
  apply dt_frame; [|done]. intros Hin. destruct (own_locs _ _ _ _ Ho _ Hin); [done|congruence].
Qed.

(** [own_child]: the child becomes a delta node. *)
Lemma wp_own_child δ p an sd d s : sinv r P δ s -> δ !! p = Some an ->
  dt δ (an_child sd an) d -> erase d <> E -> p ∉ dlocs d ->
  wp (own_child sd p) (fun _ s' => exists δ' d' y,
    sinv r P δ' s' /\ sext s s' /\ owned δ d d' y /\ dt δ' (Ref y) d' /\
    δ' !! p = Some (an_set_child sd (Ref y) an) /\ only p δ δ') s.
Proof.
  intros Hs Hp Hd He Hpd. unfold own_child. wstep wp_ref_child. intros x s1 (Hs1 & He1 & Hx).
  apply wp_bind. eapply wp_node_rid; [done..|]. intros rid Hrid.
  apply wp_bind, (wp_tree_rid r P δ); [done|].
  destruct (decide (rid <> r)) as [Hne|Heq].
  - wstep wp_ref_child. intros x2 s2 (Hs2 & He2 & Hx2). advance He2.
    assert (δ !! x2 = None \/ is_Some (δ !! x2)) as [Hn|Hsome] by (destruct (δ !! x2); eauto).
    + destruct d as [t|l c a k v b]; [|destruct Hx2 as [-> (_ & ? & ? & ? & _)]; congruence].
      simpl in He. destruct t as [|c tl k v tr]; [done|].
      wstep wp_copy_fresh. intros y s3 (Hy & Hny & Hs3 & He3).
      assert (is_Some (ns_heap s3.1 !! y)) as Hly.
      { eapply delta_live; [apply Hs3|]. rewrite lookup_insert_eq. eauto. }
      assert (p <> y) as Hpy by congruence.
      eapply wp_conseq; [eapply wp_set_ref_child; try done; by rewrite lookup_insert_ne|].
      intros _ s4 [Hs4 He4]. eexists _, (DN y c (DL tl) k v (DL tr)), y.
      split_and!; [exact Hs4| | | |by rewrite lookup_insert_eq|apply only_subset; by apply insert_subseteq].
      * do 3 (etransitivity; [done|]). done.
      * split; simpl.
        -- done.
        -- set_solver.
        -- intros ????? [= <- <- <- <- <-]. eauto.
        -- intros l ->%list_elem_of_singleton. by right.
        -- intros _. apply NoDup_singleton.
      * split; [done|]. exists (Old tl), (Old tr). rewrite lookup_insert_ne, lookup_insert_eq by done. naive_solver.
    + exfalso. destruct d as [t|l c a k v b].
      * assert (δ !! x2 = None) as Hn by (eapply nd_not_delta; [done|by destruct Hs2|done]).
        rewrite Hn in Hsome. by destruct Hsome.
      * destruct Hx as [-> _], Hx2 as [-> _]. apply Hne. tauto.
  - assert (is_Some (δ !! x)) as Hsome by (apply Hrid; by destruct (decide (rid = r))).
    destruct d as [t|l c a k v b].
    { simpl in Hx. apply (nd_not_delta _ r_nil δ) in Hx; [|by destruct Hs1]. rewrite Hx in Hsome. by destruct Hsome. }
    destruct Hx as [-> Hx]. apply wp_ret. exists δ, (DN l c a k v b), l.
    assert (an_set_child sd (Ref l) an = an) as ->.
    { destruct Hd as [Hd _]. destruct sd, an; simpl in *; congruence. }
    split_and!; try done. split; [done | simpl; set_solver | | auto | auto].
    intros ????? [= <- <- <- <- <-]. eauto.
Qed.

Lemma descent_owned δ δ' d d' y : owned δ d d' y -> dt δ' (Ref y) d' -> δ ⊆ δ' -> NoDup (dlocs d) ->
  descent δ δ' d d' [] y y.
Proof.
  intros Ho Hd Hsub Hnd. split; simpl.
  - done.
  - done.
  - apply Ho.
  - rewrite app_nil_r. by apply Ho.
  - intros l. rewrite app_nil_r. apply Ho.
  - intros l [an Hl] _. rewrite Hl. by eapply lookup_weaken.
  - intros l [an Hl]. exists an. by eapply lookup_weaken.
Qed.

(** ** [delete_recursive] *)

Definition delete_post (δ : gmap loc anode) (d : dtree) (key : string) (path : list loc)
    (s : W * PersistentTree) (res : option loc * list loc) (s' : W * PersistentTree) : Prop :=
  let '(o, path') := res in
  sext s s' /\
  match o with
  | None => sinv r P δ s' /\ fst (descend key (erase d) []) = E
  | Some root =>
    exists δ' dd x fs, sinv r P δ' s' /\ descent δ δ' d dd fs x root /\
      path' = path ++ x :: (df_loc <$> fs) /\
      descend key (erase d) [] = (erase dd, erase_frame <$> fs) /\
      exists c a k v b, dd = DN x c a k v b
  end.

Lemma delete_recursive_spec fuel key : forall path d x δ s,
  (height (erase d) < fuel)%nat -> sinv r P δ s -> at_loc δ s.1 d x -> NoDup (dlocs d) ->
  wp (delete_recursive fuel path key x) (delete_post δ d key path s) s.
Proof.
  induction fuel as [|fuel IH]; intros path d x δ s Hf Hs Hx Hnd; [lia|]. simpl.
  pose proof Hs as [Hw _].
  destruct (decide (x = Nil)) as [->|Hne].
  { apply wp_ret. split; [done|]. split; [done|].
    by rewrite (proj1 (at_loc_E r r_nil δ _ d Nil Hw Hx) eq_refl). }
  destruct (erase d) as [|c l k v t] eqn:He.
  { exfalso. apply Hne. by apply (at_loc_E r r_nil δ _ d x Hw Hx). }
  apply wp_bind. eapply wp_node_key; [done..|].
  destruct (slice_cases key k) as [[Hc ->]|Hc].
  { rewrite Hc. simpl. wstep wp_own_at; [by rewrite He|].
    intros y s1 (δ1 & d' & Hs1 & He1 & Ho & Hd & Hsub). apply wp_ret. split; [done|].
    destruct (own_root _ _ _ _ Ho _ _ _ _ _ He) as (a & b & -> & <- & <-).
    exists δ1, (DN y c a k v b), y, []. split; [done|].
    split; [by apply descent_owned|]. split; [done|]. split; [|eauto 10].
    rewrite He. simpl. by rewrite compare_refl. }
  rewrite (proj2 (Z.eqb_neq _ _)) by lia.
  assert (exists sd, (if slice_compare key k <? 0 then SideL else SideR) = sd /\
    (slt key k /\ sd = SideL \/ slt k key /\ sd = SideR)) as (sd & -> & Hsd).
  { destruct Hc as [[Hc Hk]|[Hc Hk]].
    - rewrite (proj2 (Z.ltb_lt _ _)) by lia. eauto.
    - rewrite (proj2 (Z.ltb_ge _ _)) by lia. eauto. }
  pose proof (descend_side key d c l k v t sd He Hsd) as Hdesc.
  wstep wp_down. intros y s1 (Hs1 & He1 & Hy). advance He1.
  assert (height (erase (dsub sd d)) < fuel)%nat.
  { rewrite erase_dsub, He. simpl in *. destruct sd; lia. }
  wstep IH; [by apply NoDup_dsub|]. intros [o path'] s2 [He2 Hpost].
  destruct o as [m|].
  + destruct Hpost as (δ1 & dd & y' & fs & Hs2 & D & -> & Hfs & Hdd).
    eapply (wp_up δ δ1 d _ fs y' m x sd c l k v t s1.1); try done.
    { by destruct Hs1. } { apply He2. }
    intros z s3 δ2 Hs3 He3 D'. apply wp_ret.
    split; [do 2 (etransitivity; [done|]); done|].
    eexists δ2, dd, y', _. split_and!; [done|exact D'| | |done].
    * rewrite fmap_app. simpl. by rewrite <- app_assoc.
    * rewrite Hdesc, Hfs, fmap_app. done.
  + destruct Hpost as [Hs2 Hd2]. apply wp_ret. split; [by etransitivity|]. split; [done|].
    rewrite Hdesc. done.
Qed.

(** ** [copy_recursive] *)

Definition copy_post (δ : gmap loc anode) (d : dtree) (key : string)
    (s : W * PersistentTree) (o : option loc) (s' : W * PersistentTree) : Prop :=
  sext s s' /\
  match o with
  | None => sinv r P δ s'
  | Some root =>
    exists δ' dd x fs, sinv r P δ' s' /\ descent δ δ' d dd fs x root /\
      descend key (erase d) [] = (erase dd, erase_frame <$> fs) /\ erase dd <> E
  end.

Lemma copy_recursive_spec fuel key : forall d x δ s,
  (height (erase d) < fuel)%nat -> sinv r P δ s -> at_loc δ s.1 d x -> NoDup (dlocs d) ->
  wp (copy_recursive fuel key x) (copy_post δ d key s) s.
Proof.
  induction fuel as [|fuel IH]; intros d x δ s Hf Hs Hx Hnd; [lia|]. simpl.
  pose proof Hs as [Hw _].
  destruct (decide (x = Nil)) as [->|Hne]; [by apply wp_ret|].
  destruct (erase d) as [|c l k v t] eqn:He.
  { exfalso. apply Hne. by apply (at_loc_E r r_nil δ _ d x Hw Hx). }
  apply wp_bind. eapply wp_node_key; [done..|].
  destruct (slice_cases key k) as [[Hc ->]|Hc].
  { rewrite Hc. simpl. apply wp_bind. eapply wp_node_rid; [done..|]. intros rid Hrid.
    apply wp_bind, (wp_tree_rid r P δ); [done|].
    destruct (decide (rid = r)) as [Heq|Hner]; [by apply wp_ret|].
    destruct d as [t'|l' c' a k' v' b].
    2: { destruct Hx as [-> (_ & ? & ? & Hl & _)]. exfalso. apply Hner, Hrid. eauto. }
    simpl in He. subst t'. wstep wp_copy_fresh. intros y s1 (Hy & Hny & Hs1 & He1).
    apply wp_ret. split; [done|].
    eexists _, (DN y c (DL l) k v (DL t)), y, []. split; [exact Hs1|].
    split; [|simpl; by rewrite compare_refl].
    split; simpl; try done.
    - split; [done|]. exists (Old l), (Old t). rewrite lookup_insert_eq. naive_solver.
    - set_solver.
    - apply NoDup_singleton.
    - intros l' ->%list_elem_of_singleton. by right.
    - intros l' [an Hl'] _. rewrite lookup_insert_ne; congruence.
    - by apply insert_dom. }
  rewrite (proj2 (Z.eqb_neq _ _)) by lia.
  assert (exists sd, (if slice_compare key k <? 0 then SideL else SideR) = sd /\
    (slt key k /\ sd = SideL \/ slt k key /\ sd = SideR)) as (sd & -> & Hsd).
  { destruct Hc as [[Hc Hk]|[Hc Hk]].
    - rewrite (proj2 (Z.ltb_lt _ _)) by lia. eauto.
    - rewrite (proj2 (Z.ltb_ge _ _)) by lia. eauto. }
  pose proof (descend_side key d c l k v t sd He Hsd) as Hdesc.
  wstep wp_down. intros y s1 (Hs1 & He1 & Hy). advance He1.
  assert (height (erase (dsub sd d)) < fuel)%nat.
  { rewrite erase_dsub, He. simpl in *. destruct sd; lia. }
  wstep IH; [by apply NoDup_dsub|]. intros [m|] s2 [He2 Hpost].
  + destruct Hpost as (δ1 & dd & y' & fs & Hs2 & D & Hfs & Hdd).
    eapply (wp_up δ δ1 d _ fs y' m x sd c l k v t s1.1); try done.
    { by destruct Hs1. } { apply He2. }
    intros z s3 δ2 Hs3 He3 D'. apply wp_ret.
    split; [do 2 (etransitivity; [done|]); done|].
    eexists δ2, dd, y', _. split_and!; [done|exact D'| |done].
    rewrite Hdesc, Hfs, fmap_app. done.
  + apply wp_ret. split; [by etransitivity|done].
Qed.

(** ** [build_min_path] *)

Lemma descent_left δ δ1 δ2 x c dl k v dr d' y dm fm m an :
  δ !! x = Some an -> NoDup (dlocs (DN x c dl k v dr)) ->
  only x δ δ1 -> δ1 !! x = Some (AN c k v (Ref y) (an_child SideR an)) -> dt δ (an_child SideR an) dr ->
  (forall l, l ∈ dlocs dl ++ dlocs dr -> is_Some (δ !! l)) ->
  owned δ dl d' y -> descent δ1 δ2 d' dm fm m y ->
  descent δ δ2 (DN x c dl k v dr) dm (fm ++ [DF x SideL c k v dr]) m x.
Proof.
  intros Hx Hnd Honly Hx1 Hdr Hin Ho D.
  simpl in Hnd. apply NoDup_cons in Hnd as [Hxn Hnd]. pose proof Hnd as (Hnl & Hdis & Hnr)%NoDup_app.
  assert (forall l, l ∈ dlocs dm ++ flocs fm -> l ∈ dlocs dl \/ δ !! l = None) as Hlocs.
  { intros l Hl. destruct (desc_locs _ _ _ _ _ _ _ D l Hl) as [Hd|Hn]; [by apply Ho|].
    right. destruct (δ !! l) eqn:E; [|done]. destruct (only_dom _ _ _ Honly l) as [? ?]; [eauto|congruence]. }
  assert (x ∉ dlocs d') as Hxd.
  { intros Hd. destruct (own_locs _ _ _ _ Ho x Hd); [set_solver|congruence]. }
  assert (forall l, l ∈ dlocs dr -> δ2 !! l = δ !! l) as Hr.
  { intros l Hl. assert (is_Some (δ !! l)) as Hs by (apply Hin; set_solver).
    assert (l <> x) by set_solver.
    rewrite <- (only_same _ _ _ Honly l) by done. apply D; [by apply Honly|].
    intros Hd. destruct (own_locs _ _ _ _ Ho l Hd) as [?|Hn]; [by eapply Hdis|].
    destruct Hs; congruence. }
  assert (δ2 !! x = Some (AN c k v (Ref y) (an_child SideR an))) as Hx2.
  { rewrite <- Hx1. apply D; [by rewrite Hx1|done]. }
  split.
  - eapply (dctx_snoc _ _ _ y (DF x SideL c k v dr)); [apply D|exact Hx2|]. simpl. by eapply dt_ext.
  - apply D.
  - apply D.
  - rewrite flocs_app, app_assoc. simpl. rewrite app_nil_r. apply NoDup_app. split_and!; [apply D| |].
    + intros l Hl. rewrite elem_of_cons. intros [->|Hl'].
      * destruct (Hlocs _ Hl); [set_solver|congruence].
      * destruct (Hlocs _ Hl) as [?|Hn]; [by eapply Hdis|].
        destruct (Hin l); [set_solver|congruence].
    + apply NoDup_cons. split; [set_solver|done].
  - intros l. rewrite flocs_app, app_assoc, elem_of_app. simpl. rewrite app_nil_r, elem_of_cons.
    intros [Hl|[->|Hl]]; [destruct (Hlocs _ Hl)|..]; set_solver.
  - intros l Hs Hl. simpl in Hl. assert (l <> x) by set_solver.
    rewrite <- (only_same _ _ _ Honly l) by done. apply D; [by apply Honly|].
    intros Hd. destruct (own_locs _ _ _ _ Ho l Hd) as [?|Hn]; [set_solver|]. destruct Hs; congruence.
  - intros l Hl. by apply D, Honly.
Qed.

Lemma owned_shape δ d d' y : owned δ d d' y -> erase d <> E -> exists c a k v b, d' = DN y c a k v b.
Proof.
  intros Ho He. destruct (erase d) as [|c l k v t] eqn:Hd; [done|].
  destruct (own_root _ _ _ _ Ho _ _ _ _ _ Hd) as (a & b & -> & _). eauto 10.
Qed.

Lemma build_min_path_spec fuel : forall path x c dl k v dr δ s,
  let d := DN x c dl k v dr in
  (height (erase d) < fuel)%nat -> sinv r P δ s -> dt δ (Ref x) d -> NoDup (dlocs d) ->
  wp (build_min_path fuel x path) (fun '(m, path') s' => exists δ' fm cm km vm rm,
    sinv r P δ' s' /\ sext s s' /\ descent δ δ' d (DN m cm (DL E) km vm rm) fm m x /\
    path' = (df_loc <$> fm) ++ path /\
    min_path (erase d) [] = (T cm E km vm (erase rm), erase_frame <$> fm)) s.
Proof.
  induction fuel as [|fuel IH]; intros path x c dl k v dr δ s d Hf Hs Hx Hnd; [lia|]. cbn [build_min_path].
  pose proof Hx as (_ & pa & pb & Hl & Ha & Hb).
  wstep (wp_ref_child r P r_nil δ x (AN c k v pa pb) SideL dl). intros y s1 (Hs1 & He1 & Hy).
  assert (forall l, l ∈ dlocs dl ++ dlocs dr -> is_Some (δ !! l)) as Hin.
  { intros l Hl'. eapply dt_locs; [exact Hx|]. simpl. set_solver. }
  pose proof Hs1 as [Hw1 _].
  destruct (decide (y = Nil)) as [->|Hne].
  - pose proof (proj1 (at_loc_E r r_nil δ _ _ Nil Hw1 Hy) eq_refl) as He.
    assert (dl = DL E) as -> by (destruct dl; simpl in He; congruence).
    apply wp_ret. eexists δ, [], c, k, v, dr. split_and!; try done.
    split; simpl; try done; [set_solver| |intros l; rewrite app_nil_r; auto].
    rewrite app_nil_r. done.
  - assert (erase dl <> E) as He by (intros He; by apply Hne, (at_loc_E r r_nil δ _ dl y Hw1 Hy)).
    assert (x ∉ dlocs dl) as Hxl by (simpl in Hnd; apply NoDup_cons in Hnd; set_solver).
    wstep wp_own_child. intros _ s2 (δ1 & d' & y' & Hs2 & He2 & Ho & Hd' & Hx1 & Honly). simpl in Hx1.
    destruct (owned_shape _ _ _ _ Ho He) as (c' & a' & k' & v' & b' & ->).
    wstep (wp_ref_child r P r_nil δ1 x (AN c k v (Ref y') pb) SideL (DN y' c' a' k' v' b')).
    intros z s3 (Hs3 & He3 & [-> Hz]).
    simpl in Hnd. pose proof Hnd as (_ & (? & _ & _)%NoDup_app)%NoDup_cons.
    eapply wp_conseq; [apply (IH (x :: path) y' c' a' k' v' b' δ1 s3); try done|].
    { rewrite (own_erase _ _ _ _ Ho). simpl in Hf. lia. }
    { by apply Ho. }
    intros [m path'] s4 (δ2 & fm & cm & km & vm & rm & Hs4 & He4 & D & -> & Hmin).
    eexists δ2, _, cm, km, vm, rm. split_and!; [done| | | |].
    + do 3 (etransitivity; [done|]). done.
    + by eapply (descent_left δ δ1).
    + rewrite fmap_app, <- app_assoc. done.
    + rewrite (own_erase _ _ _ _ Ho) in Hmin. cbn [erase d]. rewrite min_path_step by done.
      by rewrite min_path_app, Hmin, fmap_app.
Qed.
End path_copy.
