(* ===== verification/Rebalance.v ===== *)
(** Rebalancing in place: the loops of [Put] and [balance_delete] of
    persistent_tree.cc compute, on the delta, the zipper functions [ins_fix] and
    [del_fix] of RBTree.v. *)
From S2P Require Import Prelude Slice RBTree Node Proto PersistentTree Delta PathCopy.

(** The tree under construction, focused on the subtree [d] at [x]. *)
Record view (δ : gmap loc anode) (fs : list dframe) (d : dtree) (x root : loc) : Prop := {
  v_ctx : dctx δ fs x root;
  v_dt : dt δ (Ref x) d;
  v_nodup : NoDup (dlocs d ++ flocs fs);
}.

Lemma dnode_on_flip x s c a k v b : dnode_on x (flip s) c a k v b = dnode_on x s c b k v a.
Proof. by destruct s. Qed.

Lemma view_up δ f fs d x root : view δ (f :: fs) d x root -> view δ fs (dplug1 d f) (df_loc f) root.
Proof.
  intros [((ps & Hf & Hs) & Hc) Hd Hn]. split; [done| |].
  - unfold dplug1. apply dt_dnode_on. split; [done|]. by exists (Ref x), ps.
  - unfold dplug1. rewrite dlocs_dnode_on. simpl in *. rewrite <- app_assoc.
    by rewrite <- (Permutation_middle (dlocs d)) in Hn.
Qed.

Lemma view_node δ fs x s c A k v B root : view δ fs (dnode_on x s c A k v B) x root ->
  exists pa pb, δ !! x = Some (an_on s c k v pa pb) /\ dt δ pa A /\ dt δ pb B.
Proof. intros [_ Hd _]. by apply dt_dnode_on in Hd as [_ ?]. Qed.

(** Down to a child that is in the delta, or is empty by a plain reference. *)
Lemma view_down δ fs x s c A k v B y pb root :
  view δ fs (dnode_on x s c A k v B) x root -> δ !! x = Some (an_on s c k v (Ref y) pb) ->
  view δ (DF x s c k v B :: fs) A y root.
Proof.
  intros [Hc Hd Hn] Hx. apply dt_dnode_on in Hd as (_ & pa' & pb' & Hx' & Ha & Hb).
  assert (pa' = Ref y /\ pb' = pb) as [-> ->] by (destruct s; simpl in *; split; congruence).
  split; simpl; [eauto|done|]. rewrite dlocs_dnode_on in Hn. simpl in Hn.
  rewrite <- app_assoc in Hn. by rewrite <- (Permutation_middle (dlocs A)).
Qed.

Lemma view_down_delta δ fs x s c l c' a' k' v' b' k v B root :
  let A := DN l c' a' k' v' b' in
  view δ fs (dnode_on x s c A k v B) x root -> view δ (DF x s c k v B :: fs) A l root.
Proof.
  intros A Hv. destruct (view_node _ _ _ _ _ _ _ _ _ _ Hv) as (pa & pb & Hx & Ha & Hb).
  pose proof Ha as [-> _]. by eapply view_down.
Qed.

(** A rewrite of the focus node, over a delta that has grown meanwhile. *)
Lemma view_update δ δ1 fs x s c c' A A' k k' v v' B B' pa pb root :
  view δ fs (dnode_on x s c A k v B) x root ->
  (forall l, l ∈ flocs fs -> δ1 !! l = δ !! l) ->
  δ1 !! x = Some (an_on s c' k' v' pa pb) -> dt δ1 pa A' -> dt δ1 pb B' ->
  NoDup (x :: dlocs A' ++ dlocs B' ++ flocs fs) ->
  view δ1 fs (dnode_on x s c' A' k' v' B') x root.
Proof.
  intros [Hc Hd Hn] Hfs Hx Ha Hb Hn'. split.
  - by eapply dctx_ext.
  - apply dt_dnode_on. split; [done|]. by exists pa, pb.
  - rewrite dlocs_dnode_on. simpl. by rewrite <- app_assoc.
Qed.

Lemma view_nodup δ fs x s c A k v B root : view δ fs (dnode_on x s c A k v B) x root ->
  NoDup (x :: dlocs A ++ dlocs B ++ flocs fs).
Proof. intros [_ _ Hn]. rewrite dlocs_dnode_on in Hn. simpl in Hn. by rewrite <- app_assoc in Hn. Qed.

Lemma view_not_in δ fs x s c A k v B root : view δ fs (dnode_on x s c A k v B) x root ->
  x ∉ dlocs A /\ x ∉ dlocs B /\ x ∉ flocs fs.
Proof. intros [Hn _]%view_nodup%NoDup_cons. rewrite !elem_of_app in Hn. tauto. Qed.

(** The same rewrite, in place. *)
Lemma view_write δ fs x s c c' A k k' v v' B pa pb root :
  view δ fs (dnode_on x s c A k v B) x root -> δ !! x = Some (an_on s c k v pa pb) ->
  view (<[x := an_on s c' k' v' pa pb]> δ) fs (dnode_on x s c' A k' v' B) x root.
Proof.
  intros Hv Hx. destruct (view_not_in _ _ _ _ _ _ _ _ _ _ Hv) as (Ha & Hb & Hf).
  destruct (view_node _ _ _ _ _ _ _ _ _ _ Hv) as (pa' & pb' & Hx' & Hpa & Hpb).
  assert (pa' = pa /\ pb' = pb) as [-> ->] by (destruct s; simpl in *; split; congruence).
  eapply view_update; [done| |by rewrite lookup_insert_eq|by apply dt_frame..|by eapply view_nodup].
  intros l Hl. rewrite lookup_insert_ne; [done|]. set_solver.
Qed.

Lemma NoDup_swap_head (l1 l1' l2 : list loc) (δ : gmap loc anode) :
  NoDup (l1 ++ l2) -> NoDup l1' -> (forall l, l ∈ l1' -> l ∈ l1 \/ δ !! l = None) ->
  (forall l, l ∈ l2 -> is_Some (δ !! l)) -> NoDup (l1' ++ l2).
Proof.
  intros (_ & Hd & H2)%NoDup_app H1' Hin Hs. apply NoDup_app. split_and!; [done| |done].
  intros l Hl Hl2. destruct (Hin l Hl) as [?|Hn]; [by eapply Hd|].
  destruct (Hs _ Hl2). congruence.
Qed.

(** The focus node relinked to a subtree that is now in the delta. *)
Lemma view_owned δ δ1 fs x s c A A' k v B y pb root :
  view δ fs (dnode_on x s c A k v B) x root -> owned δ A A' y ->
  (forall l, is_Some (δ !! l) -> l <> x -> δ1 !! l = δ !! l) ->
  δ1 !! x = Some (an_on s c k v (Ref y) pb) -> dt δ1 (Ref y) A' -> dt δ pb B ->
  view δ1 fs (dnode_on x s c A' k v B) x root.
Proof.
  intros Hv Ho Hsame Hx HA HB. pose proof (view_nodup _ _ _ _ _ _ _ _ _ _ Hv) as Hn.
  destruct (view_not_in _ _ _ _ _ _ _ _ _ _ Hv) as (Ha & Hb & Hf).
  destruct (view_node _ _ _ _ _ _ _ _ _ _ Hv) as (pa' & pb' & Hx' & Hpa & Hpb).
  assert (forall l, l ∈ dlocs B ++ flocs fs -> is_Some (δ !! l) /\ l <> x) as Hs.
  { intros l Hl. split; [|intros ->; set_solver]. apply elem_of_app in Hl as [Hl|Hl].
    - by eapply dt_locs.
    - eapply dctx_locs; [apply Hv|done]. }
  eapply view_update; [done| |done|done| |].
  - intros l Hl. apply Hsame; apply Hs; set_solver.
  - eapply dt_ext; [|done]. intros l Hl. apply Hsame; apply Hs; set_solver.
  - apply NoDup_cons in Hn as [Hxn Hn]. apply NoDup_cons. split.
    + rewrite elem_of_app. intros [Hl|Hl]; [|set_solver].
      destruct (own_locs _ _ _ _ Ho _ Hl); [done|congruence].
    + apply (NoDup_swap_head (dlocs A) _ _ δ); try done.
      * apply Ho. by apply NoDup_app in Hn as [? _].
      * apply Ho.
      * intros l Hl. by apply Hs.
Qed.

Section rebalance.
Context {W : Type} {NS : NodeStore W} {NSL : NodeStoreLaws W} {SC : SliceCompare} {SL : SliceLaws}.
Context (r : Z) (P : Prop).
Hypothesis r_i64 : i64 (u64 r) = r.
Hypothesis r_nil : delta_id ns_hor r.

Abbreviation sinv := (sinv r P).
Abbreviation sext := (sext).

(** ** Operations on the focus node *)

Lemma view_live δ fs x s0 c A k v B root s : sinv δ s -> view δ fs (dnode_on x s0 c A k v B) x root ->
  is_Some (ns_heap s.1 !! x) /\ x <> Nil.
Proof.
  intros [Hw _] Hv. destruct (view_node _ _ _ _ _ _ _ _ _ _ Hv) as (pa & pb & Hx & _).
  split; [by eapply delta_live | by eapply delta_not_nil].
Qed.

Lemma wp_focus_child δ fs x s0 c A k v B root s :
  sinv δ s -> view δ fs (dnode_on x s0 c A k v B) x root ->
  wp (tm (ref_child s0 x)) (fun y s' => sinv δ s' /\ sext s s' /\ at_loc δ s'.1 A y) s.
Proof.
  intros Hs Hv. destruct (view_node _ _ _ _ _ _ _ _ _ _ Hv) as (pa & pb & Hx & Ha & _).
  eapply wp_ref_child; try done. by rewrite an_child_on.
Qed.

Lemma wp_focus_other δ fs x s0 c A k v B root s :
  sinv δ s -> view δ fs (dnode_on x s0 c A k v B) x root ->
  wp (tm (ref_child (flip s0) x)) (fun y s' => sinv δ s' /\ sext s s' /\ at_loc δ s'.1 B y) s.
Proof. rewrite <- dnode_on_flip. apply wp_focus_child. Qed.

Lemma wp_focus_red δ fs x s0 c A k v B root (Q : bool -> W * PersistentTree -> Prop) s :
  sinv δ s -> view δ fs (dnode_on x s0 c A k v B) x root -> Q c s -> wp (tm (node_red x)) Q s.
Proof.
  intros [Hw _] Hv HQ. destruct (view_node _ _ _ _ _ _ _ _ _ _ Hv) as (pa & pb & Hx & _).
  destruct (winv_lookup _ _ _ _ _ Hw Hx) as (n & Hn & Hc & _). eapply (wp_read red_); [done|].
  rewrite Hc. by rewrite an_red_on.
Qed.

Lemma wp_focus_set_red δ fs x s0 c c' A k v B root s :
  sinv δ s -> view δ fs (dnode_on x s0 c A k v B) x root ->
  wp (tm (set_red c' x)) (fun _ s' => exists δ', sinv δ' s' /\ sext s s' /\
    view δ' fs (dnode_on x s0 c' A k v B) x root) s.
Proof.
  intros Hs Hv. destruct (view_node _ _ _ _ _ _ _ _ _ _ Hv) as (pa & pb & Hx & _).
  eapply wp_conseq; [by eapply wp_set_red|]. intros _ s' [Hs' He]. rewrite an_set_red_on in Hs'.
  eexists. split_and!; [done..|]. by eapply view_write.
Qed.

(** The child [l] of the focus changes colour. *)
Lemma wp_focus_child_set_red δ fs x s0 c k v B root l c1 c' a k1 v1 b s :
  sinv δ s -> view δ fs (dnode_on x s0 c (DN l c1 a k1 v1 b) k v B) x root ->
  wp (tm (set_red c' l)) (fun _ s' => exists δ', sinv δ' s' /\ sext s s' /\
    view δ' fs (dnode_on x s0 c (DN l c' a k1 v1 b) k v B) x root) s.
Proof.
  intros Hs Hv. apply view_down_delta in Hv.
  eapply wp_conseq; [eapply (wp_focus_set_red _ _ _ SideL); done|].
  intros _ s' (δ' & Hs' & He & Hv'). exists δ'. split_and!; [done..|]. by apply view_up in Hv'.
Qed.

Lemma only_same' p δ δ' : only p δ δ' -> forall l, is_Some (δ !! l) -> l <> p -> δ' !! l = δ !! l.
Proof. intros H. apply H. Qed.

Lemma wp_focus_own_child δ fs x s0 c A k v B root s :
  sinv δ s -> view δ fs (dnode_on x s0 c A k v B) x root -> erase A <> E ->
  wp (own_child s0 x) (fun _ s' => exists δ' A' y, sinv δ' s' /\ sext s s' /\ owned δ A A' y /\
    view δ' fs (dnode_on x s0 c A' k v B) x root) s.
Proof.
  intros Hs Hv He. destruct (view_node _ _ _ _ _ _ _ _ _ _ Hv) as (pa & pb & Hx & Ha & Hb).
  destruct (view_not_in _ _ _ _ _ _ _ _ _ _ Hv) as (Hxa & _).
  eapply wp_conseq; [eapply (wp_own_child r P r_i64 r_nil δ x _ s0 A); try done; by rewrite an_child_on|].
  intros _ s' (δ' & A' & y & Hs' & He' & Ho & Hd & Hx' & Honly). rewrite an_set_child_on in Hx'.
  exists δ', A', y. split_and!; [done..|]. eapply view_owned; try done. by apply only_same'.
Qed.

(** [own_brother] on the child at side [s0], already dereferenced as [y]. *)
Lemma wp_focus_own_brother δ fs x s0 c A k v B root y s :
  sinv δ s -> view δ fs (dnode_on x s0 c A k v B) x root -> at_loc δ s.1 A y -> erase A <> E ->
  wp (own_brother x y s0) (fun z s' => exists δ' A', sinv δ' s' /\ sext s s' /\ owned δ A A' z /\
    view δ' fs (dnode_on x s0 c A' k v B) x root) s.
Proof.
  intros Hs Hv Hy He. destruct (view_node _ _ _ _ _ _ _ _ _ _ Hv) as (pa & pb & Hx & Ha & Hb).
  destruct (view_not_in _ _ _ _ _ _ _ _ _ _ Hv) as (Hxa & _).
  pose proof (wp_own_link r P r_i64 r_nil δ x _ s0 A y s Hs Hx Hy He Hxa) as Hl.
  unfold own_brother, wp, mbind, M_bind in *.
  destruct (own y s) as [[y' s1]| |]; try done.
  destruct (tm (set_ref_child s0 x y') s1) as [[[] s2]| |]; try done.
  destruct Hl as (δ' & A' & z & Hs' & He' & Ho & Hd & Hx' & Honly). rewrite an_set_child_on in Hx'.
  assert (view δ' fs (dnode_on x s0 c A' k v B) x root) as Hv'.
  { eapply view_owned; try done. by apply only_same'. }
  pose proof (wp_focus_child _ _ _ _ _ _ _ _ _ _ _ Hs' Hv') as Hc. unfold wp in Hc.
  destruct (tm (ref_child s0 x) s2) as [[z' s3]| |]; try done.
  destruct Hc as (Hs3 & He3 & Hz).
  destruct (owned_shape _ _ _ _ Ho He) as (c1 & a1 & k1 & v1 & b1 & ->).
  destruct Hz as [-> _]. exists δ', (DN z c1 a1 k1 v1 b1). split_and!; try done. by etransitivity.
Qed.

(** [swap_color] of the focus and a child. *)
Lemma wp_focus_swap δ fs x s0 c k v B root l c1 a k1 v1 b s :
  sinv δ s -> view δ fs (dnode_on x s0 c (DN l c1 a k1 v1 b) k v B) x root ->
  forall p q, p = x /\ q = l \/ p = l /\ q = x ->
  wp (tm (swap_color p q)) (fun _ s' => exists δ', sinv δ' s' /\ sext s s' /\
    view δ' fs (dnode_on x s0 c1 (DN l c a k1 v1 b) k v B) x root) s.
Proof.
  intros Hs Hv p q Hpq. destruct (view_node _ _ _ _ _ _ _ _ _ _ Hv) as (pa & pb & Hx & Ha & Hb).
  destruct (view_not_in _ _ _ _ _ _ _ _ _ _ Hv) as (Hxa & Hxb & Hxf).
  pose proof Ha as (-> & pl & pr & Hl & Hpl & Hpr).
  assert (x <> l) as Hne by (simpl in Hxa; set_solver).
  set (δ' := <[x := an_on s0 c1 k v (Ref l) pb]> (<[l := AN c k1 v1 pl pr]> δ)).
  assert (view δ' fs (dnode_on x s0 c1 (DN l c a k1 v1 b) k v B) x root) as Hv'.
  { eapply (view_write _ _ _ _ c c1 _ k k v v); [|rewrite lookup_insert_ne by done; exact Hx].
    apply (view_up _ (DF x s0 c k v B) fs _ l). change (DN l c a k1 v1 b) with (dnode_on l SideL c a k1 v1 b).
    eapply (view_write _ _ _ SideL c1); [|exact Hl]. by apply view_down_delta. }
  destruct Hpq as [[-> ->]|[-> ->]].
  - eapply wp_conseq; [by eapply wp_swap_color|]. intros _ s' [Hs' He].
    exists δ'. split_and!; try done. unfold δ'. rewrite insert_insert_ne by done.
    by rewrite an_set_red_on, an_red_on in Hs'.
  - eapply wp_conseq; [eapply wp_swap_color; eauto|]. intros _ s' [Hs' He].
    exists δ'. split_and!; try done. unfold δ'.
    by rewrite an_set_red_on, an_red_on in Hs'.
Qed.

(** ** [rotate] *)

Lemma wp_ref_ptr δ p x s : sinv δ s -> w_field s.1 p (Ref x) ->
  wp (tm (ref p)) (fun '(y, q) s' => sinv δ s' /\ sext s s' /\ y = x /\ w_field s'.1 q (Ref x)) s.
Proof.
  intros Hs [Hdb [Hp Hl]]. pose proof Hs as [Hw _].
  eapply wp_conseq; [eapply (wp_tm_inv r P _ δ δ (fun yq w => yq.1 = x /\ w_field w yq.2 (Ref x))); try done|].
  - apply (twp_ref_Ref _ x); [done|]. by split_and!.
  - intros [y q] s' (? & ? & ? & ?). done.
Qed.

Lemma wp_ref_child_Ref δ l an sd x s : sinv δ s -> δ !! l = Some an -> an_child sd an = Ref x ->
  wp (tm (ref_child sd l)) (fun y s' => sinv δ s' /\ sext s s' /\ y = x) s.
Proof.
  intros Hs Hl Hx. pose proof Hs as [Hw _]. destruct (winv_lookup _ _ _ _ _ Hw Hl) as (n & Hn & Hm).
  assert (l <> Nil) as Hne by (eapply delta_not_nil; eauto).
  apply (w_node_child _ _ _ _ sd) in Hm. rewrite Hx in Hm. destruct Hm as [Hm _].
  apply (wp_tm_inv r P _ δ δ (fun y w => y = x)); [done|done|].
  eapply twp_conseq; [by eapply twp_ref_child_Ref|]. intros y w (-> & Hw' & He). done.
Qed.

(** The other child of a frame is not the node its hole leads to. *)
Definition apart (δ : gmap loc anode) (w : W) (d : dtree) (x : loc) : Prop :=
  (is_Some (δ !! x) /\ x ∉ dlocs d) \/ (exists t, w_nd w t x /\ t <> erase d).

Lemma apart_ne δ w d x y : winv r δ w -> apart δ w d x -> at_loc δ w d y -> y <> x.
Proof.
  intros Hw Ha Hy ->. destruct Ha as [[Hx Hn]|(t & Ht & Hne)].
  - destruct (at_loc_delta _ r_nil _ _ _ _ Hw Hy Hx) as (c & a & k & v & b & ->). apply Hn. simpl. set_solver.
  - destruct d as [t'|l c a k v b]; [by apply Hne, (nd_det w t t' x)|].
    destruct Hy as [-> (_ & ? & ? & Hl & _)]. rewrite (nd_not_delta r r_nil _ _ _ _ Hw Ht) in Hl. done.
Qed.

Lemma apart_mono δ w w' d x : wext w w' -> apart δ w d x -> apart δ w' d x.
Proof. intros He [?|(t & Ht & ?)]; [by left|]. right. exists t. split; [by apply (wext_nd _ _ He)|done]. Qed.

Lemma wp_which_side δ f fs x root a s :
  sinv δ s -> dctx δ (f :: fs) x root -> apart δ s.1 (df_sib f) x ->
  wp (tm (ref_child a (df_loc f))) (fun y s' => sinv δ s' /\ sext s s' /\ (y = x <-> df_side f = a)) s.
Proof.
  intros Hs ((ps & Hf & Hsib) & _) Ha. destruct (decide (df_side f = a)) as [<-|Hne].
  - eapply wp_conseq; [eapply wp_ref_child_Ref; [done..|apply an_child_on]|].
    by intros y s' (? & ? & ->).
  - assert (a = flip (df_side f)) as -> by (destruct a, (df_side f); done).
    eapply wp_conseq; [eapply (wp_ref_child r P); try done; by rewrite an_child_flip|].
    intros y s' (Hs' & He & Hy). split_and!; [done..|]. split; [|by destruct (df_side f)].
    intros ->. exfalso. eapply apart_ne; [apply Hs'| |done|done].
    by eapply apart_mono; [apply He|].
Qed.

(** Put [p] in the hole of the innermost frame. *)
Lemma wp_relink δ f fs ch gc root p s :
  sinv δ s -> dctx δ (f :: fs) ch root -> NoDup (flocs (f :: fs)) -> w_field s.1 p (Ref gc) ->
  wp (tm (put_child (df_side f) (df_loc f) p)) (fun _ s' => exists δ',
    sinv δ' s' /\ sext s s' /\ dctx δ' (f :: fs) gc root /\
    (forall l, l ∉ flocs (f :: fs) -> δ' !! l = δ !! l)) s.
Proof.
  intros Hs ((ps & Hf & Hsib) & Hc) Hn Hp.
  eapply wp_conseq; [by eapply wp_put_child|]. intros _ s' [Hs' He]. rewrite an_set_child_on in Hs'.
  simpl in Hn. apply NoDup_cons in Hn as [Hn _]. eexists. split_and!; [done|done| |].
  - split; [|apply dctx_frame; [set_solver|done]].
    exists ps. rewrite lookup_insert_eq. split; [done|]. apply dt_frame; [set_solver|done].
  - intros l Hl. rewrite lookup_insert_ne; [done|]. intros <-. simpl in Hl. set_solver.
Qed.

Definition rotate_top (parent ch : loc) (a : side) (root : loc) (grand_child : NodePtr) : PM (loc * NodePtr) :=
  if decide (root = ch) then
    '(gc, grand_child) ← tm (ref grand_child);
    mret (gc, grand_child)
  else
    x ← tm (ref_child a parent);
    (if decide (x = ch) then tm (put_child a parent grand_child)
     else tm (put_child (flip a) parent grand_child));;
    mret (root, grand_child).

Lemma wp_rotate_top δ fs ch gc a root g s :
  sinv δ s -> dctx δ fs ch root -> is_Some (δ !! ch) -> ch ∉ flocs fs -> NoDup (flocs fs) ->
  w_field s.1 g (Ref gc) ->
  wp (rotate_top (hd Nil (path_of fs)) ch a root g) (fun '(root', g') s' => exists δ',
    sinv δ' s' /\ sext s s' /\ w_field s'.1 g' (Ref gc) /\ dctx δ' fs gc root' /\
    (forall l, l ∉ flocs fs -> δ' !! l = δ !! l)) s.
Proof.
  intros Hs Hc Hch Hnch Hn Hg. unfold rotate_top. destruct fs as [|f fs].
  - simpl in Hc. subst root. rewrite decide_True by done.
    wstep wp_ref_ptr. intros [y q] s1 (Hs1 & He1 & -> & Hq). apply wp_ret. by exists δ.
  - pose proof (dctx_root_in _ _ _ _ _ Hc) as Hroot.
    rewrite decide_False by congruence. cbn [path_of hd fmap list_fmap app].
    assert (apart δ s.1 (df_sib f) ch) as Hap by (left; simpl in Hnch; set_solver).
    wstep wp_which_side. intros y s1 (Hs1 & He1 & Hy). advance He1.
    assert ((if decide (y = ch) then tm (put_child a (df_loc f) g) else tm (put_child (flip a) (df_loc f) g))
      = tm (put_child (df_side f) (df_loc f) g)) as ->.
    { destruct (decide (y = ch)) as [E|E]; [by rewrite (proj1 Hy E)|].
      by replace (flip a) with (df_side f) by (destruct (df_side f), a; try done; exfalso; tauto). }
    wstep wp_relink. intros _ s2 (δ' & Hs2 & He2 & Hc' & Hsame). advance He2. apply wp_ret. by exists δ'.
Qed.

Lemma wp_rotate δ fs ch a c A k v gc cg X kg vg B root s :
  sinv δ s -> view δ fs (dnode_on ch a c A k v (dnode_on gc a cg X kg vg B)) ch root ->
  wp (rotate (hd Nil (path_of fs)) ch a root) (fun '(g, root') s' => g = gc /\ exists δ',
    sinv δ' s' /\ sext s s' /\
    view δ' fs (dnode_on gc a cg (dnode_on ch a c A k v X) kg vg B) gc root') s.
Proof.
  intros Hs Hv. destruct (view_node _ _ _ _ _ _ _ _ _ _ Hv) as (pa & pb & Hch & Ha & Hb).
  apply dt_dnode_on in Hb as (-> & px & pb' & Hgc & Hx & Hb).
  pose proof (view_nodup _ _ _ _ _ _ _ _ _ _ Hv) as Hn. rewrite dlocs_dnode_on in Hn.
  pose proof (v_ctx _ _ _ _ _ Hv) as Hc.
  apply NoDup_cons in Hn as [Hn1 Hn]. apply NoDup_app in Hn as (HnA & HdA & Hn).
  simpl in Hn. apply NoDup_cons in Hn as [Hn2 Hn]. rewrite <- app_assoc in Hn.
  apply NoDup_app in Hn as (HnX & HdX & Hn). apply NoDup_app in Hn as (HnB & HdB & HnF).
  assert (ch <> gc) as Hne by set_solver.
  unfold rotate. apply wp_bind. eapply wp_get_child; [done..|]. intros p0 Hp0. rewrite an_child_flip in Hp0.
  wstep wp_ref_ptr. intros [y p1] s1 (Hs1 & He1 & -> & Hp1). advance He1.
  apply wp_bind. eapply wp_get_child; [done..|]. intros p2 Hp2. rewrite an_child_on in Hp2.
  apply wp_bind. eapply wp_conseq; [by eapply wp_put_child|]. intros _ s2 [Hs2 He2]. advance He2.
  rewrite an_set_child_flip in Hs2. set (δ1 := <[ch := _]> δ) in Hs2.
  assert (dctx δ1 fs ch root) as Hc1 by (apply dctx_frame; [set_solver|done]).
  apply wp_bind. change (if decide (root = ch) then _ else _) with (rotate_top (hd Nil (path_of fs)) ch a root p1).
  eapply wp_conseq; [eapply (wp_rotate_top δ1); try done; [unfold δ1; rewrite lookup_insert_eq; eauto | set_solver]|].
  intros [root' p3] s3 (δ2 & Hs3 & He3 & Hp3 & Hc2 & Hsame). advance He3.
  assert (δ2 !! ch = Some (an_on a c k v pa px)) as Hch2.
  { rewrite Hsame by set_solver. unfold δ1. by rewrite lookup_insert_eq. }
  assert (δ2 !! gc = Some (an_on a cg kg vg px pb')) as Hgc2.
  { rewrite Hsame by set_solver. unfold δ1. by rewrite lookup_insert_ne. }
  pose proof Hs3 as [Hw3 _]. destruct (winv_lookup _ _ _ _ _ Hw3 Hch2) as (n & Hnn & Hm).
  apply wp_bind, (wp_read rid_ ch n); [done|]. apply wp_bind, (wp_tree_rid r P δ2); [done|].
  apply wp_bind, wp_assert. { apply bool_decide_eq_true. by destruct Hm as (_ & _ & _ & ? & _). }
  wstep wp_ref_ptr. intros [y p4] s4 (Hs4 & He4 & -> & Hp4). advance He4.
  assert (is_Some (ns_heap s4.1 !! ch)) as Hlive by (eapply delta_live; [apply Hs4|eauto]).
  apply wp_bind. eapply wp_conseq; [by eapply wp_set_ref_child|].
  intros _ s5 [Hs5 He5]. advance He5. rewrite an_set_child_on in Hs5.
  wstep wp_ref_ptr. intros [y p6] s6 (Hs6 & He6 & -> & Hp6). apply wp_ret. split; [done|].
  eexists. split_and!; [exact Hs6|by etransitivity|].
  assert (forall l, l ∈ dlocs A ++ dlocs X ++ dlocs B -> l <> gc /\ l <> ch /\ l ∉ flocs fs) as Hl by set_solver.
  assert (forall p d, (forall l, l ∈ dlocs d -> l ∈ dlocs A ++ dlocs X ++ dlocs B) -> dt δ p d ->
    dt (<[gc := an_on a cg kg vg (Ref ch) pb']> δ2) p d) as Hdt.
  { intros p d Hd. apply dt_ext. intros l Hl'. destruct (Hl l (Hd l Hl')) as (? & ? & ?).
    rewrite lookup_insert_ne, Hsame by done. unfold δ1. by rewrite lookup_insert_ne. }
  split.
  - apply dctx_frame; [set_solver|done].
  - apply dt_dnode_on. split; [done|]. exists (Ref ch), pb'. rewrite lookup_insert_eq. split_and!; [done| |].
    + apply dt_dnode_on. split; [done|]. exists pa, px. rewrite lookup_insert_ne by done.
      split_and!; [done|apply Hdt; set_solver..].
    + apply Hdt; set_solver.
  - pose proof (v_nodup _ _ _ _ _ Hv) as Hp. revert Hp. rewrite !dlocs_dnode_on. apply NoDup_Permutation_proper.
    simpl. solve_Permutation.
Qed.

(** ** Insertion *)

Lemma view_apart δ f fs x c a k v b root w : view δ (f :: fs) (DN x c a k v b) x root ->
  apart δ w (df_sib f) x.
Proof.
  intros [_ (_ & pa & pb & Hx & _) Hn]. left. split; [eauto|]. simpl in Hn. apply NoDup_cons in Hn.
  set_solver.
Qed.

(** The node at [x] of a delta tree. *)
Definition top_at (d : dtree) (x : loc) (c : bool) : Prop := exists a k v b, d = DN x c a k v b.

Lemma top_at_on x s c a k v b : top_at (dnode_on x s c a k v b) x c.
Proof. destruct s; by repeat eexists. Qed.

Lemma dplug1_on d f : dplug1 d f = dnode_on (df_loc f) (df_side f) (df_red f) d (df_key f) (df_val f) (df_sib f).
Proof. done. Qed.

Lemma wp_front_path fs (Q : loc -> W * PersistentTree -> Prop) s :
  Q (hd Nil (path_of fs)) s -> wp (front (path_of fs)) Q s.
Proof. unfold path_of. by destruct fs. Qed.

Lemma wp_pop_path fs (Q : loc * list loc -> W * PersistentTree -> Prop) s :
  (forall p q, p :: q = path_of fs -> Q (p, q) s) -> wp (pop_front (path_of fs)) Q s.
Proof. unfold path_of. destruct fs; intros HQ; by apply wp_ret, HQ. Qed.

Lemma insert_balance_red δ f0 f1 fs dn nn root s :
  sinv δ s -> view δ (f0 :: f1 :: fs) dn nn root -> is_red (erase (df_sib f1)) = true ->
  wp (insert_balance (df_loc f0) nn (path_of (f1 :: fs)) (df_side f1) root)
    (fun '(parent, nn', path, root') s' => exists δ' d', sinv δ' s' /\ sext s s' /\
      parent :: path = path_of fs /\ view δ' fs d' nn' root' /\ top_at d' nn' true /\
      erase d' = node_on (df_side f1) true
         (node_on (df_side f0) false (erase dn) (df_key f0) (df_val f0) (erase (df_sib f0)))
         (df_key f1) (df_val f1) (blacken (erase (df_sib f1)))) s.
Proof.
  intros Hs Hv Hred. apply view_up, view_up in Hv. rewrite (dplug1_on _ f1) in Hv.
  destruct (view_live _ _ _ _ _ _ _ _ _ _ _ Hs Hv) as [_ Hnil].
  unfold insert_balance. cbn [path_of fmap list_fmap app front].
  apply wp_bind, wp_ret, wp_bind, wp_assert; [by apply bool_decide_eq_true|].
  wstep wp_focus_other. intros u s1 (Hs1 & He1 & Hu).
  apply wp_bind. eapply wp_node_red; [done..|]. rewrite Hred.
  rewrite <- dnode_on_flip in Hv.
  wstep wp_focus_own_child; [by intros E; rewrite E in Hred|].
  intros _ s2 (δ1 & su & y & Hs2 & He2 & Ho & Hv1).
  destruct (owned_shape _ _ _ _ Ho) as (cu & ua & uk & uv & ub & ->); [by intros E; rewrite E in Hred|].
  pose proof (own_erase _ _ _ _ Ho) as Hue. rewrite dnode_on_flip in Hv1.
  assert (exists a0 k0 v0 b0, dplug1 dn f0 = DN (df_loc f0) (df_red f0) a0 k0 v0 b0 /\
    DN (df_loc f0) false a0 k0 v0 b0 = dnode_on (df_loc f0) (df_side f0) false dn (df_key f0) (df_val f0) (df_sib f0)) as (a0 & k0 & v0 & b0 & Hp & Hp').
  { unfold dplug1. destruct (df_side f0); repeat eexists. }
  rewrite Hp in Hv1.
  wstep wp_focus_child_set_red. intros _ s3 (δ2 & Hs3 & He3 & Hv2). rewrite Hp' in Hv2.
  wstep wp_focus_other. intros z s4 (Hs4 & He4 & [-> Hz]).
  rewrite <- dnode_on_flip in Hv2.
  wstep wp_focus_child_set_red. intros _ s5 (δ3 & Hs5 & He5 & Hv3).
  apply wp_bind, wp_ret.
  wstep wp_focus_set_red. intros _ s6 (δ4 & Hs6 & He6 & Hv4).
  apply wp_bind, wp_ret.
  fold (path_of fs). apply wp_bind, wp_pop_path. intros p q Hpq. apply wp_ret. rewrite dnode_on_flip in Hv4.
  eexists δ4, _. split_and!; [done| |done|exact Hv4|apply top_at_on|].
  - do 5 (etransitivity; [done|]). done.
  - rewrite !erase_dnode_on. f_equal. rewrite <- Hue. done.
Qed.

(** The last rotation: [p] red below the black grandparent. *)
Lemma wp_last_rotation δ fs gp a cg p cp sp kp vp dn kg vg sg root nn s :
  sinv δ s -> view δ fs (dnode_on gp a cg (dnode_on p a cp dn kp vp sp) kg vg sg) gp root ->
  wp ('(grand_parent, path) ← pop_front (gp :: path_of fs);
      tm (swap_color grand_parent p);;
      top ← front path;
      '(_, root) ← rotate top grand_parent (flip a) root;
      mret (p, nn, path, root) : PM (loc * loc * list loc * loc))
    (fun '(parent, _, _, root') s' => parent = p /\ exists δ', sinv δ' s' /\ sext s s' /\
      view δ' fs (dnode_on p a cg dn kp vp (dnode_on gp a cp sp kg vg sg)) p root') s.
Proof.
  intros Hs Hv. assert (exists a0 k0 v0 b0, forall c, dnode_on p a c dn kp vp sp = DN p c a0 k0 v0 b0)
    as (a0 & k0 & v0 & b0 & Hp) by (destruct a; repeat eexists).
  rewrite Hp in Hv. apply wp_bind, wp_ret, wp_bind.
  eapply wp_conseq; [eapply wp_focus_swap; eauto|].
  intros _ s1 (δ1 & Hs1 & He1 & Hv1). rewrite <- Hp in Hv1.
  assert (view δ1 fs (dnode_on gp (flip a) cp sg kg vg (dnode_on p (flip a) cg sp kp vp dn)) gp root) as Hv2.
  { by rewrite !dnode_on_flip. }
  apply wp_bind, wp_front_path.
  wstep wp_rotate. intros [g root'] s2 (-> & δ2 & Hs2 & He2 & Hv3). apply wp_ret.
  rewrite !dnode_on_flip in Hv3. split; [done|]. exists δ2. split_and!; [done|by etransitivity|done].
Qed.

Lemma insert_balance_black δ f0 f1 fs dn nn root s :
  sinv δ s -> view δ (f0 :: f1 :: fs) dn nn root -> top_at dn nn true ->
  df_red f0 = true -> df_red f1 = false -> is_red (erase (df_sib f1)) = false ->
  wp (insert_balance (df_loc f0) nn (path_of (f1 :: fs)) (df_side f1) root)
    (fun '(parent, nn', path, root') s' => exists δ' d', sinv δ' s' /\ sext s s' /\
      view δ' fs d' parent root' /\ top_at d' parent false /\
      erase d' = ins_rotate (erase dn) (erase_frame f0) (erase_frame f1)) s.
Proof.
  intros Hs Hv (an' & kn & vn & bn & ->) R0 R1 Hred. pose proof Hv as Hv0.
  apply view_up in Hv0. pose proof Hv0 as Hvp. apply view_up in Hv0. rewrite (dplug1_on _ f1) in Hv0.
  destruct (view_live _ _ _ _ _ _ _ _ _ _ _ Hs Hv0) as [_ Hnil].
  unfold insert_balance. cbn [path_of fmap list_fmap app front].
  apply wp_bind, wp_ret, wp_bind, wp_assert; [by apply bool_decide_eq_true|].
  wstep wp_focus_other. intros u s1 (Hs1 & He1 & Hu).
  apply wp_bind. eapply wp_node_red; [done..|]. rewrite Hred.
  pose proof (view_apart _ _ _ _ _ _ _ _ _ _ s1.1 Hv) as Hap.
  pose proof (v_ctx _ _ _ _ _ Hv) as Hctx.
  wstep wp_which_side. intros x s2 (Hs2 & He2 & Hx). advance He2.
  set (dn := DN nn true an' kn vn bn) in *.
  destruct f1 as [gp a cg kg vg sg], f0 as [p sp0 cp kp vp sp]. simpl in *. subst cg cp.
  destruct (decide (nn = x)) as [<-|Hne].
  - assert (sp0 = flip a) as -> by tauto.
    unfold dplug1 in Hvp. simpl in Hvp.
    assert (exists ta tb, dn = dnode_on nn a true ta kn vn tb /\
      ins_rotate (erase dn) (erase_frame (DF p (flip a) true kp vp sp)) (erase_frame (DF gp a false kg vg sg)) =
      node_on a false (node_on a true (erase sp) kp vp (erase ta)) kn vn (node_on a true (erase tb) kg vg (erase sg)))
      as (ta & tb & Hdn & Hrot).
    { unfold dn. destruct a; [exists an', bn|exists bn, an']; done. }
    rewrite Hdn, dnode_on_flip in Hvp.
    apply wp_bind, wp_bind, wp_ret. wstep (wp_rotate δ (DF gp a false kg vg sg :: fs)).
    intros [g root1] s3 (-> & δ1 & Hs3 & He3 & Hv3). apply wp_ret.
    apply view_up in Hv3. unfold dplug1 in Hv3. simpl in Hv3.
    apply wp_bind, wp_ret. eapply wp_conseq; [by eapply wp_last_rotation|].
    intros [[[? ?] ?] root2] s4 (-> & δ' & Hs' & He' & Hv'). eexists δ', _.
    split_and!; [done| |exact Hv'|apply top_at_on|].
    + do 3 (etransitivity; [done|]). done.
    + rewrite !erase_dnode_on. symmetry. exact Hrot.
  - assert (sp0 = a) as -> by (destruct sp0, a; try done; exfalso; apply Hne; symmetry; by apply Hx).
    unfold dplug1 in Hv0. simpl in Hv0.
    apply wp_bind, wp_ret, wp_bind, wp_ret. eapply wp_conseq; [by eapply wp_last_rotation|].
    intros [[[? ?] ?] root2] s4 (-> & δ' & Hs' & He' & Hv'). eexists δ', _.
    split_and!; [done| |exact Hv'|apply top_at_on|].
    + do 2 (etransitivity; [done|]). done.
    + rewrite !erase_dnode_on. unfold ins_rotate. simpl. by rewrite decide_True.
Qed.


(** The whole tree, below any frames. *)
Lemma view_dplug δ fs d x root : view δ fs d x root -> view δ [] (dplug fs d) root root.
Proof.
  intros [Hc Hd Hn]. split; [done|by eapply dctx_plug|]. simpl. rewrite app_nil_r. by rewrite dlocs_dplug.
Qed.

Lemma top_at_dplug fs : forall δ d x root c, view δ fs d x root -> top_at d x c ->
  exists c', top_at (dplug fs d) root c'.
Proof.
  induction fs as [|f fs IH]; intros δ d x root c Hv Ht.
  - pose proof (v_ctx _ _ _ _ _ Hv) as Hc. simpl in Hc. subst. by exists c.
  - apply view_up in Hv. eapply IH; [done|]. apply top_at_on.
Qed.

Lemma insert_loop_spec fuel : forall fs dn nn root n b δ s parent path,
  (length fs < fuel)%nat -> sinv δ s -> view δ fs dn nn root -> top_at dn nn true ->
  parent :: path = path_of fs -> zok n b (erase_frame <$> fs) ->
  wp (insert_loop fuel parent nn path root) (fun root' s' => exists δ' d' c, sinv δ' s' /\ sext s s' /\
    view δ' [] d' root' root' /\ top_at d' root' c /\
    erase d' = ins_fix (erase dn) (erase_frame <$> fs)) s.
Proof.
  induction fuel as [|fuel IH]; intros fs dn nn root n b δ s parent path Hf Hs Hv Ht Hp Hz; [lia|].
  cbn [insert_loop]. apply wp_bind.
  destruct fs as [|f0 fs]; simpl in Hp.
  { injection Hp as -> ->. pose proof Hs as [Hw _]. pose proof (winv_nil _ _ _ Hw) as Hnil.
    eapply (wp_read red_); [done|]. apply wp_ret. exists δ, dn, true.
    pose proof (v_ctx _ _ _ _ _ Hv) as Hc. simpl in Hc. subst. by split_and!. }
  injection Hp as -> ->. pose proof Hv as Hvp. apply view_up in Hvp. rewrite dplug1_on in Hvp.
  eapply wp_focus_red; [done..|]. simpl. destruct (df_red f0) eqn:R0.
  2: { apply wp_ret. destruct (top_at_dplug _ _ _ _ _ _ Hv Ht) as [c' ?].
       exists δ, (dplug (f0 :: fs) dn), c'. split_and!; [done..|by eapply view_dplug|done|].
       rewrite erase_dplug. by destruct fs. }
  simpl in Hz. zok_inv Hz; [simpl in Hcol; congruence|].
  destruct fs as [|f1 fs]; [inversion Hz0|]. simpl in Hz0. zok_inv Hz0. simpl in *.
  fold (path_of fs) in *. apply wp_bind, wp_ret.
  pose proof (v_ctx _ _ _ _ _ Hvp) as Hc1.
  assert (apart δ s.1 (df_sib f1) (df_loc f0)) as Hap1.
  { destruct (view_not_in _ _ _ _ _ _ _ _ _ _ Hvp) as (_ & _ & Hnf).
    destruct (view_node _ _ _ _ _ _ _ _ _ _ Hvp) as (? & ? & ? & _).
    left. split; [eauto|]. simpl in Hnf. set_solver. }
  wstep wp_which_side. intros x s1 (Hs1 & He1 & Hx).
  replace (if decide (x = df_loc f0) then SideL else SideR) with (df_side f1).
  2: { destruct (decide _) as [E|E]; [by apply Hx|]. destruct (df_side f1); [exfalso; tauto|done]. }
  apply wp_bind. change (df_loc f1 :: path_of fs) with (path_of (f1 :: fs)).
  destruct (is_red (erase (df_sib f1))) eqn:Ru.
  - eapply wp_conseq; [by eapply insert_balance_red|].
    intros [[[parent' nn'] path'] root'] s2 (δ2 & d2 & Hs2 & He2 & Hp2 & Hv2 & Ht2 & Her).
    eapply wp_conseq; [eapply (IH fs d2); try done; lia|].
    intros root3 s3 (δ3 & d3 & c3 & Hs3 & He3 & Hv3 & Ht3 & He3'). exists δ3, d3, c3.
    split_and!; try done; [do 2 (etransitivity; [done|]); done|]. by rewrite He3', Her.
  - eapply wp_conseq; [by eapply insert_balance_black|].
    intros [[[parent' nn'] path'] root'] s2 (δ2 & d2 & Hs2 & He2 & Hv2 & Ht2 & Her).
    destruct Ht2 as (a2 & k2 & v2 & b2 & ->).
    destruct fuel as [|fuel]; [lia|]. cbn [insert_loop]. apply wp_bind.
    eapply (wp_focus_red _ _ _ SideL); [done..|]. apply wp_ret.
    assert (top_at (DN parent' false a2 k2 v2 b2) parent' false) as Ht2 by (by repeat eexists).
    destruct (top_at_dplug _ _ _ _ _ _ Hv2 Ht2) as [c' ?].
    exists δ2, (dplug fs (DN parent' false a2 k2 v2 b2)), c'. split_and!; [done| |by eapply view_dplug|done|].
    + do 2 (etransitivity; [done|]). done.
    + by rewrite erase_dplug, Her.
Qed.

(** ** Deletion *)

Lemma wp_transplant δ fs x y root s :
  sinv δ s -> dctx δ fs x root -> NoDup (flocs fs) -> is_Some (ns_heap s.1 !! y) ->
  (forall f fs', fs = f :: fs' -> apart δ s.1 (df_sib f) x) ->
  wp (transplant (hd Nil (path_of fs)) x y root) (fun root' s' => exists δ',
    sinv δ' s' /\ sext s s' /\ dctx δ' fs y root' /\ (forall l, l ∉ flocs fs -> δ' !! l = δ !! l)) s.
Proof.
  intros Hs Hc Hn Hy Ha. pose proof Hs as [Hw _]. unfold transplant. destruct fs as [|f fs].
  { simpl. apply wp_ret. by exists δ. }
  cbn [path_of hd fmap list_fmap app]. pose proof Hc as ((ps & Hf & Hsib) & Hc').
  rewrite decide_False by (eapply delta_not_nil; eauto).
  pose proof (Ha f fs eq_refl) as Hap. wstep wp_which_side. intros z s1 (Hs1 & He1 & Hz). advance He1.
  assert ((if decide (z = x) then tm (set_ref_child SideL (df_loc f) y) else tm (set_ref_child SideR (df_loc f) y))
    = tm (set_ref_child (df_side f) (df_loc f) y)) as ->.
  { destruct (decide (z = x)) as [E|E]; [by rewrite (proj1 Hz E)|]. by destruct (df_side f); [exfalso; tauto|]. }
  wstep wp_set_ref_child. intros _ s2 [Hs2 He2]. advance He2. rewrite an_set_child_on in Hs2.
  apply wp_ret. simpl in Hn. apply NoDup_cons in Hn as [Hn _]. eexists. split_and!; [done|done| |].
  - split; [|apply dctx_frame; [set_solver|done]].
    exists ps. rewrite lookup_insert_eq. split; [done|]. apply dt_frame; [set_solver|done].
  - intros l Hl. rewrite lookup_insert_ne; [done|]. intros <-. simpl in Hl. set_solver.
Qed.

(** The last lines of [balance_delete], on the node where the loop stopped. *)
Definition balance_finish (extra_black parent root : loc) : PM loc :=
  new_node ← own extra_black;
  root ← transplant parent extra_black new_node root;
  (if decide (new_node <> Nil) then tm (set_red false new_node) else mret tt);;
  mret root.

Definition whole (δ : gmap loc anode) (d : dtree) (root : loc) : Prop := view δ [] d root root.

Lemma wp_balance_finish δ fs d x root s :
  sinv δ s -> dctx δ fs x root -> at_loc δ s.1 d x -> NoDup (dlocs d ++ flocs fs) ->
  (forall f fs', fs = f :: fs' -> apart δ s.1 (df_sib f) x) -> (erase d = E -> fs = [] /\ P) ->
  wp (balance_finish x (hd Nil (path_of fs)) root) (fun root' s' => exists δ' d', sinv δ' s' /\ sext s s' /\
    whole δ' d' root' /\ erase d' = plug (erase_frame <$> fs) (blacken (erase d))) s.
Proof.
  intros Hs Hc Hx Hn Ha HP. unfold balance_finish. pose proof Hs as [Hw _].
  destruct (decide (erase d = E)) as [He|He].
  { destruct (HP He) as [-> HP']. pose proof (proj2 (at_loc_E r r_nil δ _ d x Hw Hx) He) as ->.
    apply wp_bind. unfold own. pose proof (winv_nil _ _ _ Hw) as Hnil.
    apply wp_bind, (wp_read rid_ Nil nil_node); [done|]. apply wp_bind, (wp_tree_rid r P δ); [done|].
    rewrite decide_False by apply r_nil. eapply wp_conseq; [by eapply wp_copy_fresh_nil|].
    intros y s1 (-> & Hs1 & He1). apply wp_bind. unfold transplant. rewrite decide_True by done.
    apply wp_ret. rewrite decide_False by tauto. apply wp_bind, wp_ret, wp_ret. exists δ, (DL E). rewrite He. split_and!; try done.
    split; simpl; [done|by right|constructor]. }
  wstep wp_own_at. intros y s1 (δ1 & d1 & Hs1 & He1 & Ho & Hd1 & Hsub). advance He1.
  destruct (owned_shape _ _ _ _ Ho He) as (c & a & k & v & b & ->).
  assert (forall l, l ∈ flocs fs -> δ1 !! l = δ !! l) as Hsame.
  { intros l Hl. destruct (dctx_locs _ _ _ _ _ Hc Hl) as [an Han]. rewrite Han. by eapply lookup_weaken. }
  assert (dctx δ1 fs x root) as Hc1 by (by eapply dctx_ext).
  assert (is_Some (δ1 !! y)) as Hy by (eapply dt_locs; [done|apply Ho]).
  assert (is_Some (ns_heap s1.1 !! y)) as Hyl by (eapply delta_live; [apply Hs1|done]).
  pose proof Hn as (Hnd & Hdis & Hnf)%NoDup_app.
  assert (NoDup (dlocs (DN y c a k v b) ++ flocs fs)) as Hn1.
  { eapply (NoDup_swap_head (dlocs d) _ _ δ); [done|by apply Ho|apply Ho|].
    intros l Hl. by eapply dctx_locs. }
  wstep (wp_transplant δ1).
  { intros f fs' ->. destruct (Ha f fs' eq_refl) as [[Hs' Hn']|(t & Ht & Hne)].
    - left. split; [|done]. destruct Hs' as [an Han]. exists an. by eapply lookup_weaken.
    - right. exists t. split; [|done]. by apply (wext_nd _ _ (sext_w _ _ He1)). }
  intros root' s2 (δ2 & Hs2 & He2 & Hc2 & Hsame2). advance He2.
  assert (view δ2 fs (DN y c a k v b) y root') as Hv2.
  { split; [done| |done]. eapply dt_ext; [|done]. intros l Hl. apply Hsame2.
    apply NoDup_app in Hn1 as (_ & Hdis1 & _). by apply Hdis1. }
  change (DN y c a k v b) with (dnode_on y SideL c a k v b) in Hv2.
  rewrite decide_True by (by destruct (view_live _ _ _ _ _ _ _ _ _ _ _ Hs2 Hv2)).
  wstep wp_focus_set_red. intros _ s3 (δ3 & Hs3 & He3 & Hv3). apply wp_ret.
  eexists δ3, _. split_and!; [done|by etransitivity|by eapply view_dplug|].
  rewrite erase_dplug. f_equal. simpl. rewrite <- (own_erase _ _ _ _ Ho). done.
Qed.

(** A delta node, split at side [s0]. *)
Lemma DN_on s0 l c a k v b : exists A B, DN l c a k v b = dnode_on l s0 c A k v B /\
  (forall c', DN l c' a k v b = dnode_on l s0 c' A k v B).
Proof. destruct s0; eexists _, _; split; done. Qed.

Lemma node_on_flip s c a k v b : node_on (flip s) c a k v b = node_on s c b k v a.
Proof. by destruct s. Qed.

Lemma node_on_inj s c a k v b c' a' k' v' b' : node_on s c a k v b = node_on s c' a' k' v' b' ->
  c = c' /\ a = a' /\ k = k' /\ v = v' /\ b = b'.
Proof. by destruct s; intros [= -> -> -> -> ->]. Qed.

(** The closing rotation of a deletion, at a red outer nephew. *)
Definition far_rotation (parent brother : loc) (path : list loc) (a : side) (root : loc)
    : PM (loc * loc * list loc * loc) :=
  let b := flip a in
  brother ← own_brother parent brother b;
  own_child b brother;;
  c ← tm (node_red parent);
  tm (set_red c brother);;
  tm (set_red false parent);;
  x ← tm (ref_child b brother);
  tm (set_red false x);;
  top ← front path;
  '(_, root) ← rotate top parent a root;
  mret (root, Nil, path, root).

Lemma wp_far_rotation δ fs p a cf d kf vf sib y root cs na ks vs nb s :
  sinv δ s -> view δ fs (dnode_on p a cf d kf vf sib) p root -> at_loc δ s.1 sib y ->
  erase sib = node_on a cs na ks vs nb -> is_red nb = true ->
  wp (far_rotation p y (path_of fs) a root) (fun '(x, parent, _, root') s' =>
    x = root' /\ parent = Nil /\ exists δ' d' c, sinv δ' s' /\ sext s s' /\ whole δ' d' root' /\
    top_at d' root' c /\
    erase d' = plug (erase_frame <$> fs)
      (node_on a cf (node_on a false (erase d) kf vf na) ks vs (blacken nb))) s.
Proof.
  intros Hs Hv Hy He Hnb. unfold far_rotation. rewrite <- dnode_on_flip in Hv.
  assert (erase sib <> E) as Hne by (rewrite He; by destruct a).
  wstep wp_focus_own_brother. intros z s1 (δ1 & sib1 & Hs1 & He1 & Ho & Hv1).
  destruct (owned_shape _ _ _ _ Ho Hne) as (c1 & a1 & k1 & v1 & b1 & ->).
  pose proof (own_erase _ _ _ _ Ho) as Hes. rewrite He in Hes.
  destruct (DN_on (flip a) z c1 a1 k1 v1 b1) as (NB & NA & Hd & Hdc).
  rewrite Hd, erase_dnode_on, node_on_flip in Hes.
  apply node_on_inj in Hes as (-> & Hna & -> & -> & Hnb').
  apply view_down_delta in Hv1. rewrite Hd in Hv1.
  wstep wp_focus_own_child; [by intros E; rewrite <- Hnb', E in Hnb|].
  intros _ s2 (δ2 & NB2 & w & Hs2 & He2 & Ho2 & Hv2).
  destruct (owned_shape _ _ _ _ Ho2) as (c2 & a2 & k2 & v2 & b2 & ->); [by intros E; rewrite <- Hnb', E in Hnb|].
  pose proof (own_erase _ _ _ _ Ho2) as Hew. rewrite Hnb' in Hew.
  apply view_up in Hv2. rewrite dplug1_on in Hv2. simpl in Hv2.
  apply wp_bind. eapply wp_focus_red; [done..|].
  assert (exists za zb, forall c, dnode_on z (flip a) c (DN w c2 a2 k2 v2 b2) ks vs NA = DN z c za ks vs zb)
    as (za & zb & Hz) by (destruct a; eexists _, _; done).
  rewrite Hz in Hv2. wstep wp_focus_child_set_red. intros _ s3 (δ3 & Hs3 & He3 & Hv3).
  wstep wp_focus_set_red. intros _ s4 (δ4 & Hs4 & He4 & Hv4).
  apply view_down_delta in Hv4. rewrite <- Hz in Hv4.
  wstep wp_focus_child. intros w' s5 (Hs5 & He5 & [-> _]).
  wstep wp_focus_child_set_red. intros _ s6 (δ6 & Hs6 & He6 & Hv6).
  apply view_up in Hv6. rewrite dplug1_on in Hv6. simpl in Hv6. rewrite !dnode_on_flip in Hv6.
  apply wp_bind, wp_front_path. wstep wp_rotate.
  intros [g root'] s7 (-> & δ7 & Hs7 & He7 & Hv7). apply wp_ret. split_and!; [done..|].
  destruct (top_at_dplug _ _ _ _ _ _ Hv7 (top_at_on _ _ _ _ _ _ _)) as [c' ?].
  eexists δ7, _, c'. split_and!; [done| |by eapply view_dplug|done|].
  - do 6 (etransitivity; [done|]). done.
  - rewrite erase_dplug, !erase_dnode_on, Hna. do 2 f_equal. rewrite <- Hew. done.
Qed.

(** The inner nephew is raised above the brother. *)
Lemma wp_near_rotation δ fs p a cf d kf vf sib y root ks vs na nb xa xk xv xb s :
  sinv δ s -> view δ fs (dnode_on p a cf d kf vf sib) p root -> at_loc δ s.1 sib y ->
  erase sib = node_on a false na ks vs nb -> na = node_on a true xa xk xv xb ->
  wp (brother ← own_brother p y (flip a);
      own_child a brother;;
      x ← tm (ref_child a brother);
      tm (swap_color brother x);;
      rotate p brother (flip a) root)
    (fun '(z, root') s' => exists δ' sib', sinv δ' s' /\ sext s s' /\
      view δ' fs (dnode_on p a cf d kf vf sib') p root' /\ at_loc δ' s'.1 sib' z /\
      erase sib' = node_on a false xa xk xv (node_on a true xb ks vs nb)) s.
Proof.
  intros Hs Hv Hy He Hna. rewrite <- dnode_on_flip in Hv.
  assert (erase sib <> E) as Hne by (rewrite He; by destruct a).
  wstep wp_focus_own_brother. intros z s1 (δ1 & sib1 & Hs1 & He1 & Ho & Hv1).
  destruct (owned_shape _ _ _ _ Ho Hne) as (c1 & a1 & k1 & v1 & b1 & ->).
  pose proof (own_erase _ _ _ _ Ho) as Hes. rewrite He in Hes.
  destruct (DN_on a z c1 a1 k1 v1 b1) as (NA & NB & Hd & _).
  rewrite Hd, erase_dnode_on in Hes. apply node_on_inj in Hes as (-> & Hea & -> & -> & Heb).
  apply view_down_delta in Hv1. rewrite Hd in Hv1.
  assert (erase NA <> E) as Hnea by (rewrite Hea, Hna; by destruct a).
  wstep wp_focus_own_child. intros _ s2 (δ2 & NA2 & w & Hs2 & He2 & Ho2 & Hv2).
  destruct (owned_shape _ _ _ _ Ho2 Hnea) as (c2 & a2 & k2 & v2 & b2 & ->).
  pose proof (own_erase _ _ _ _ Ho2) as Hew. rewrite Hea, Hna in Hew.
  destruct (DN_on a w c2 a2 k2 v2 b2) as (XA & XB & Hw & Hwc).
  rewrite Hw, erase_dnode_on in Hew. apply node_on_inj in Hew as (-> & Hxa & -> & -> & Hxb).
  wstep wp_focus_child. intros w' s3 (Hs3 & He3 & [-> _]).
  apply wp_bind. eapply wp_conseq; [eapply wp_focus_swap; eauto|].
  intros _ s4 (δ4 & Hs4 & He4 & Hv4). rewrite Hwc, <- (dnode_on_flip z), <- (dnode_on_flip w) in Hv4.
  eapply wp_conseq; [by eapply (wp_rotate δ4 (DF p (flip a) cf kf vf d :: fs))|].
  intros [g root'] s5 (-> & δ5 & Hs5 & He5 & Hv5). apply view_up in Hv5. rewrite dplug1_on in Hv5. simpl in Hv5.
  rewrite !dnode_on_flip in Hv5. eexists δ5, _. split_and!; [done| |exact Hv5| |].
  - do 4 (etransitivity; [done|]). done.
  - destruct a; split; try done; (destruct (view_node _ _ _ _ _ _ _ _ _ _ Hv5) as (? & ? & _ & _ & Hdt);
      destruct Hdt as [-> Hdt]; by split).
  - by rewrite !erase_dnode_on, Hxa, Hxb, Heb.
Qed.

(** What one iteration leaves: the deficit at the parent, or the finished tree. *)
Definition delete_step (fs : list dframe) (out : tree + tree)
    (res : loc * loc * list loc * loc) (s s' : W * PersistentTree) : Prop :=
  let '(x, parent, path, root) := res in
  exists δ' d' c, sinv δ' s' /\ sext s s' /\ top_at d' x c /\
  match out with
  | inl t => view δ' fs d' x root /\ erase d' = t /\ parent :: path = path_of fs
  | inr t => x = root /\ parent = Nil /\ whole δ' d' root /\ erase d' = plug (erase_frame <$> fs) t
  end.

(** The part of [mirror_remove_balance] below the red-brother case. *)
Definition black_brother (parent brother : loc) (path : list loc) (a : side) (root : loc)
    : PM (loc * loc * list loc * loc) :=
  let b := flip a in
  ln ← tm (ref_child SideL brother);
  lred ← tm (node_red ln);
  rn ← tm (ref_child SideR brother);
  rred ← tm (node_red rn);
  if negb lred && negb rred then
    brother ← own_brother parent brother b;
    tm (set_red true brother);;
    let extra_black := parent in
    '(parent, path) ← pop_front path;
    mret (extra_black, parent, path, root)
  else
    x ← tm (ref_child b brother);
    bred ← tm (node_red x);
    '(brother, root) ←
      (if negb bred then
         brother ← own_brother parent brother b;
         own_child a brother;;
         x ← tm (ref_child a brother);
         tm (swap_color brother x);;
         rotate parent brother b root
       else mret (brother, root));
    far_rotation parent brother path a root.

Lemma node_on_side a c l k v t : exists na nb, T c l k v t = node_on a c na k v nb /\
  (na, nb) = match a with SideL => (l, t) | SideR => (t, l) end.
Proof. destruct a; eauto. Qed.

Lemma dsub_on a d c na k v nb : erase d = node_on a c na k v nb ->
  erase (dsub a d) = na /\ erase (dsub (flip a) d) = nb.
Proof. rewrite !erase_dsub. intros ->. by destruct a. Qed.

Lemma wp_black_brother δ fs p a cf d kf vf sib y root s :
  sinv δ s -> view δ fs (dnode_on p a cf d kf vf sib) p root -> at_loc δ s.1 sib y ->
  is_red (erase sib) = false -> erase sib <> E ->
  wp (black_brother p y (path_of fs) a root) (fun res s' =>
    delete_step fs (del_black (erase d) (PFrame a cf kf vf (erase sib))) res s s') s.
Proof.
  intros Hs Hv Hy Hb Hne. unfold black_brother, del_black. simpl.
  destruct (erase sib) as [|c l k v rr] eqn:He; [done|]. simpl in Hb. subst c.
  destruct (node_on_side a false l k v rr) as (na & nb & Hon & <-).
  pose proof He as He'. rewrite Hon in He'. destruct (dsub_on _ _ _ _ _ _ _ He') as [Hda Hdb].
  wstep (wp_down r P r_nil δ sib y SideL). intros ln s1 (Hs1 & He1 & Hln). advance He1.
  apply wp_bind. eapply wp_node_red; [done..|].
  wstep (wp_down r P r_nil δ sib y SideR). intros rn s2 (Hs2 & He2 & Hrn). advance He2.
  apply wp_bind. eapply wp_node_red; [done..|].
  assert (negb (is_red (erase (dsub SideL sib))) && negb (is_red (erase (dsub SideR sib))) =
    negb (is_red na) && negb (is_red nb)) as ->.
  { rewrite <- Hda, <- Hdb. destruct a; simpl; [done|]. apply andb_comm. }
  destruct (negb (is_red na) && negb (is_red nb)) eqn:Hboth.
  - pose proof Hv as Hv'. rewrite <- dnode_on_flip in Hv'.
    wstep wp_focus_own_brother; [by rewrite He|]. intros z s3 (δ3 & sib3 & Hs3 & He3 & Ho & Hv3).
    destruct (owned_shape _ _ _ _ Ho) as (c1 & a1 & k1 & v1 & b1 & ->); [by rewrite He|].
    wstep wp_focus_child_set_red. intros _ s4 (δ4 & Hs4 & He4 & Hv4).
    apply wp_bind, wp_pop_path. intros p' q Hpq. apply wp_ret. rewrite dnode_on_flip in Hv4.
    eexists δ4, _, cf. split_and!; [done| |apply top_at_on|exact Hv4| |done].
    + do 3 (etransitivity; [done|]). done.
    + rewrite erase_dnode_on. f_equal. pose proof (own_erase _ _ _ _ Ho) as Hx. rewrite He in Hx.
      simpl in *. by injection Hx as -> -> -> -> ->.
  - wstep (wp_down r P r_nil δ sib y (flip a)). intros x s3 (Hs3 & He3 & Hx). advance He3.
    apply wp_bind. eapply wp_node_red; [done..|]. rewrite Hdb.
    destruct (is_red nb) eqn:Hrb; simpl.
    + apply wp_bind, wp_ret. eapply wp_conseq; [by eapply wp_far_rotation|].
      intros [[[x' pa] q] root'] s4 (-> & -> & δ4 & d4 & c4 & Hs4 & He4 & Hw4 & Ht4 & Her).
      exists δ4, d4, c4. split_and!; try done. by etransitivity.
    + apply andb_false_iff in Hboth as [Hra%negb_false_iff|]; [|done].
      destruct na as [|[] xl xk xv xr]; [done| |done].
      destruct (node_on_side a true xl xk xv xr) as (xa & xb & Hxon & <-).
      wstep wp_near_rotation.
      intros [z root1] s4 (δ4 & sib4 & Hs4 & He4 & Hv4 & Hz & Her4). advance He4.
      eapply wp_conseq; [by eapply wp_far_rotation; eauto; destruct a|].
      intros [[[x' pa] q] root'] s5 (-> & -> & δ5 & d5 & c5 & Hs5 & He5 & Hw5 & Ht5 & Her5).
      exists δ5, d5, c5. split_and!; try done; [by etransitivity|].
      rewrite Her5. do 2 f_equal. by destruct a.
Qed.

(** The red-brother case: one rotation, and the frame splits in two. *)
Definition red_brother (parent brother : loc) (path : list loc) (a : side) (root : loc)
    : PM (loc * list loc * loc) :=
  brother ← own_brother parent brother (flip a);
  tm (swap_color brother parent);;
  top ← front path;
  '(_, root) ← rotate top parent a root;
  let path := brother :: path in
  brother ← tm (ref_child (flip a) parent);
  mret (brother, path, root).

Lemma mirror_eq x parent path a root : mirror_remove_balance x parent path a root = (
  brother ← tm (ref_child (flip a) parent);
  red ← tm (node_red brother);
  '(brother, path, root) ←
    (if (red : bool) then red_brother parent brother path a root else mret (brother, path, root));
  black_brother parent brother path a root).
Proof. reflexivity. Qed.

Lemma wp_red_brother δ fs p a cf d kf vf sib y root na ks vs nb s :
  sinv δ s -> view δ fs (dnode_on p a cf d kf vf sib) p root -> at_loc δ s.1 sib y ->
  erase sib = node_on a true na ks vs nb ->
  wp (red_brother p y (path_of fs) a root)
    (fun '(z, path, root') s' => exists δ' NA NB l, sinv δ' s' /\ sext s s' /\
      view δ' (DF l a cf ks vs NB :: fs) (dnode_on p a true d kf vf NA) p root' /\
      at_loc δ' s'.1 NA z /\ erase NA = na /\ erase NB = nb /\ path = l :: path_of fs) s.
Proof.
  intros Hs Hv Hy He. rewrite <- dnode_on_flip in Hv.
  assert (erase sib <> E) as Hne by (rewrite He; by destruct a).
  wstep wp_focus_own_brother. intros l s1 (δ1 & sib1 & Hs1 & He1 & Ho & Hv1).
  destruct (owned_shape _ _ _ _ Ho Hne) as (c1 & a1 & k1 & v1 & b1 & ->).
  pose proof (own_erase _ _ _ _ Ho) as Hes. rewrite He in Hes.
  destruct (DN_on a l c1 a1 k1 v1 b1) as (NA & NB & Hd & Hdc).
  rewrite Hd, erase_dnode_on in Hes. apply node_on_inj in Hes as (-> & Hna & -> & -> & Hnb).
  apply wp_bind. eapply wp_conseq; [eapply wp_focus_swap; eauto|].
  intros _ s2 (δ2 & Hs2 & He2 & Hv2). rewrite Hdc, dnode_on_flip in Hv2.
  apply wp_bind, wp_front_path. wstep wp_rotate. intros [g root1] s3 (-> & δ3 & Hs3 & He3 & Hv3).
  assert (exists pa pb, forall c, dnode_on p a c d kf vf NA = DN p c pa kf vf pb) as (pa & pb & Hp)
    by (destruct a; eexists _, _; done).
  rewrite Hp in Hv3. apply view_down_delta in Hv3. rewrite <- Hp in Hv3.
  wstep wp_focus_other. intros z s4 (Hs4 & He4 & Hz). apply wp_ret.
  exists δ3, NA, NB, l. split_and!; try done. do 3 (etransitivity; [done|]). done.
Qed.

Lemma del_red_on a cf kf vf c na ks vs nb :
  del_red (PFrame a cf kf vf (node_on a c na ks vs nb)) = (PFrame a true kf vf na, PFrame a cf ks vs nb).
Proof. by destruct a. Qed.

Definition mirror_post (f : dframe) (fs : list dframe) (t : tree)
    (res : loc * loc * list loc * loc) (s s' : W * PersistentTree) : Prop :=
  if is_red (erase (df_sib f)) then
    exists fb, erase_frame fb = snd (del_red (erase_frame f)) /\
      delete_step (fb :: fs) (del_black t (fst (del_red (erase_frame f)))) res s s'
  else delete_step fs (del_black t (erase_frame f)) res s s'.

Lemma wp_mirror δ f fs d x root n b s :
  sinv δ s -> view δ (f :: fs) d x root -> zok (S n) b (erase_frame <$> f :: fs) ->
  wp (mirror_remove_balance x (df_loc f) (path_of fs) (df_side f) root)
    (fun res s' => mirror_post f fs (erase d) res s s') s.
Proof.
  intros Hs Hv Hz. apply view_up in Hv. rewrite dplug1_on in Hv.
  assert (erase (df_sib f) <> E) as Hne.
  { simpl in Hz. apply zok_cons_inv in Hz as [Hr _]. by apply rb_red_nonempty in Hr. }
  unfold mirror_post. destruct f as [p a cf kf vf sib]. simpl in *.
  change (erase_frame (DF p a cf kf vf sib)) with (PFrame a cf kf vf (erase sib)) in *.
  rewrite mirror_eq.
  wstep wp_focus_other. intros y s1 (Hs1 & He1 & Hy).
  apply wp_bind. eapply wp_node_red; [done..|].
  destruct (is_red (erase sib)) eqn:Hred.
  - destruct (erase sib) as [|c l k v t] eqn:He; [done|]. simpl in Hred. subst c.
    destruct (node_on_side a true l k v t) as (na & nb & Hon & Hnab). rewrite Hon in He, Hz.
    assert (is_red na = false /\ na <> E) as [Hb Hn].
    { destruct (del_red_rb (PFrame a cf kf vf (node_on a true na k v nb)) n b (erase_frame <$> fs))
        as (f' & fb & b' & Hdel & _ & _ & _ & Hb & Hr & _); [by destruct a|done|].
      rewrite del_red_on in Hdel. injection Hdel as <- <-. split; [done|by eapply rb_red_nonempty]. }
    wstep wp_red_brother.
    intros [[z path] root1] s2 (δ2 & NA & NB & w & Hs2 & He2 & Hv2 & Hz2 & Hna & Hnb & ->). advance He2.
    change (w :: path_of fs) with (path_of (DF w a cf k v NB :: fs)).
    eapply wp_conseq; [eapply wp_black_brother; eauto; by rewrite Hna|].
    intros [[[x' pa] q] root'] s3 Hstep. exists (DF w a cf k v NB).
    rewrite Hon, del_red_on. split; [by unfold erase_frame; simpl; rewrite Hnb|]. cbn [fst].
    rewrite Hna in Hstep. destruct Hstep as (δ3 & d3 & c3 & Hs3 & He3 & Ht3 & Hd3).
    exists δ3, d3, c3. split; [done|]. split; [by etransitivity|]. split; [done|exact Hd3].
  - apply wp_bind, wp_ret. eapply wp_conseq; [by eapply wp_black_brother|].
    intros [[[x' pa] q] root'] s2 (δ2 & d2 & c2 & Hs2 & He2 & Ht2 & Hd2).
    exists δ2, d2, c2. split; [done|]. split; [by etransitivity|]. split; [done|exact Hd2].
Qed.

Lemma view_shape δ fs d x root : view δ fs d x root -> (exists c, top_at d x c) \/ (d = DL E /\ x = Nil).
Proof.
  intros [_ Hd _]. destruct d as [t|l c a k v b]; simpl in Hd.
  - destruct Hd as [?|[-> [= ->]]]; [done|by right].
  - destruct Hd as ([= ->] & _). left. by repeat eexists.
Qed.

Lemma view_at_loc δ fs d x root s : sinv δ s -> view δ fs d x root -> at_loc δ s.1 d x.
Proof. intros [Hw _] Hv. eapply at_loc_of_dt; [done..|apply Hv]. Qed.

(** The loop test [extra_black != root] asks whether frames are left. *)
Lemma view_root δ f fs d x root s : sinv δ s -> view δ (f :: fs) d x root -> x <> root.
Proof.
  intros [Hw _] Hv ->. pose proof (v_ctx _ _ _ _ _ Hv) as Hc.
  pose proof (dctx_root_in _ _ _ _ _ Hc) as Hin. pose proof (dctx_locs _ _ _ _ _ Hc Hin) as Hs.
  destruct (view_shape _ _ _ _ _ Hv) as [(c & a & k & v & b & ->)|[-> ->]].
  - pose proof (v_nodup _ _ _ _ _ Hv) as (_ & Hd & _)%NoDup_app. eapply Hd; [|done]. simpl. set_solver.
  - by eapply (delta_not_nil r r_nil δ s.1 Nil).
Qed.

Lemma view_apart' δ f fs d x root w : winv r δ w -> view δ (f :: fs) d x root ->
  erase (df_sib f) <> E -> apart δ w (df_sib f) x.
Proof.
  intros Hw Hv Hne. destruct (view_shape _ _ _ _ _ Hv) as [(c & a & k & v & b & ->)|[-> ->]].
  - by eapply view_apart.
  - right. by exists E.
Qed.

Definition loop_post (t : tree) (fs : list dframe) (s : W * PersistentTree)
    (res : loc * loc * loc) (s' : W * PersistentTree) : Prop :=
  let '(x, parent, root) := res in
  exists δ' fs' d', sinv δ' s' /\ sext s s' /\ view δ' fs' d' x root /\ parent = hd Nil (path_of fs') /\
    plug (erase_frame <$> fs') (blacken (erase d')) = del_fix t (erase_frame <$> fs) /\
    (erase d' = E -> fs' = [] /\ t = E /\ fs = []).

Lemma top_at_not_E d x c : top_at d x c -> erase d <> E.
Proof. by intros (a & k & v & b & ->). Qed.

(** The loop stops at the root and at a red node. *)
Lemma loop_stop_root fuel δ d root parent path s : (0 < fuel)%nat -> sinv δ s -> whole δ d root -> parent = Nil ->
  wp (balance_delete_loop fuel root parent path root) (fun '(x', parent', root') s' =>
    x' = root /\ root' = root /\ parent' = Nil /\ s' = s) s.
Proof.
  intros Hf Hs Hv ->. destruct fuel as [|fuel]; [lia|]. cbn [balance_delete_loop].
  rewrite decide_True by done. by apply wp_ret.
Qed.

Lemma loop_stop_red fuel δ d x root parent path s : (0 < fuel)%nat -> sinv δ s -> at_loc δ s.1 d x ->
  is_red (erase d) = true ->
  wp (balance_delete_loop fuel x parent path root) (fun res s' => res = (x, parent, root) /\ s' = s) s.
Proof.
  intros Hf Hs Hv Hred. destruct fuel as [|fuel]; [lia|]. cbn [balance_delete_loop].
  destruct (decide (x = root)); [by apply wp_ret|].
  apply wp_bind. eapply wp_node_red; [done..|]. rewrite Hred. by apply wp_ret.
Qed.

(** An iteration that finishes the tree is the last one. *)
Lemma loop_after_inr fuel f fs out x parent path root t s s' :
  (0 < fuel)%nat -> delete_step fs (inr out) (x, parent, path, root) s s' ->
  del_fix t (erase_frame <$> f) = blacken (plug (erase_frame <$> fs) out) ->
  wp (balance_delete_loop fuel x parent path root) (loop_post t f s) s'.
Proof.
  intros Hf (δ & d & c & Hs & He & Ht & -> & -> & Hw & Her) Hdel.
  eapply wp_conseq; [by eapply loop_stop_root|].
  intros [[x' p'] root'] s2 (-> & -> & -> & ->). exists δ, [], d. split_and!; try done.
  - simpl. by rewrite Her, Hdel.
  - intros E. by apply top_at_not_E in Ht.
Qed.

Lemma balance_delete_loop_spec fuel : forall fs d x root n b δ s parent path,
  (length fs < fuel)%nat -> sinv δ s -> view δ fs d x root -> deficit n (erase d) ->
  zok (S n) b (erase_frame <$> fs) -> parent :: path = path_of fs ->
  wp (balance_delete_loop fuel x parent path root) (loop_post (erase d) fs s) s.
Proof.
  induction fuel as [|fuel IH]; intros fs d x root n b δ s parent path Hf Hs Hv Hd Hz Hp; [lia|].
  destruct (is_red (erase d)) eqn:Hred.
  { eapply wp_conseq; [by eapply loop_stop_red; [lia| |eapply view_at_loc|]|]. intros res s' [-> ->].
    exists δ, fs, d. split_and!; try done; [unfold path_of in *; by rewrite <- Hp| |by intros E; rewrite E in Hred].
    destruct fs; simpl; [done|]. by rewrite Hred. }
  destruct fs as [|f fs].
  { pose proof (v_ctx _ _ _ _ _ Hv) as Hc. simpl in Hc. subst root. injection Hp as -> ->.
    eapply wp_conseq; [eapply loop_stop_root; [lia|done..]|].
    intros [[x' p'] root'] s2 (-> & -> & -> & ->). exists δ, [], d. by split_and!. }
  cbn [balance_delete_loop]. rewrite decide_False by (by eapply view_root).
  apply wp_bind. eapply wp_node_red; [done..|by eapply view_at_loc|]. rewrite Hred.
  injection Hp as -> ->. fold (path_of fs). cbn [length] in Hf.
  pose proof (v_ctx _ _ _ _ _ Hv) as Hc. pose proof Hz as Hz0. simpl in Hz0.
  apply zok_cons_inv in Hz0 as [Hsib _]. simpl in Hsib.
  assert (apart δ s.1 (df_sib f) x) as Hap.
  { eapply view_apart'; [apply Hs|done|by eapply rb_red_nonempty]. }
  wstep wp_which_side. intros l s1 (Hs1 & He1 & Hl).
  replace (if decide (l = x) then SideL else SideR) with (df_side f).
  2: { destruct (decide _) as [E|E]; [by apply Hl|]. destruct (df_side f); [exfalso; tauto|done]. }
  wstep wp_mirror. intros [[[x' p'] path'] root'] s2 Hm. unfold mirror_post in Hm.
  eapply (wp_conseq _ (loop_post (erase d) (f :: fs) s1)).
  2: { intros [[x3 p3] root3] s3 (δ3 & fs3 & d3 & ? & He3 & ?). exists δ3, fs3, d3. split; [done|].
       split; [by etransitivity|done]. }
  destruct (is_red (erase (df_sib f))) eqn:Rs.
  - destruct Hm as (fb & Hfb & Hm).
    destruct (del_red_rb (erase_frame f) n b (erase_frame <$> fs))
      as (f1 & f2 & b' & Hdel & _ & _ & R1 & B1 & Hs1' & Hz' & _); [done..|].
    rewrite Hdel in Hfb, Hm. simpl in Hfb, Hm. subst f2.
    unfold deficit in Hd. rewrite Hred in Hd.
    pose proof (del_black_rb (erase d) f1 n Hd Hred B1 Hs1') as Hbl. rewrite R1 in Hbl.
    assert (del_fix (erase d) (erase_frame <$> f :: fs) = match del_black (erase d) f1 with
      | inl t' => plug (erase_frame <$> fb :: fs) (blacken t')
      | inr t' => blacken (plug (erase_frame <$> fb :: fs) t') end) as Hfix.
    { cbn [del_fix fmap list_fmap]. rewrite Hred. change (pf_sib (erase_frame f)) with (erase (df_sib f)).
      rewrite Rs, Hdel. by destruct (del_black _ _). }
    destruct (del_black (erase d) f1) as [t'|t'].
    + destruct Hm as (δ2 & d2 & c2 & Hs2 & He2 & Ht2 & Hv2 & <- & Hp2). destruct Hbl as [Hc2 _].
      eapply wp_conseq; [eapply loop_stop_red; [lia|done|by eapply view_at_loc|done]|]. intros res s' [-> ->].
      exists δ2, (fb :: fs), d2. split_and!; try done; [by rewrite <- Hp2|].
      intros E. by apply top_at_not_E in Ht2.
    + eapply loop_after_inr; [lia|exact Hm|exact Hfix].
  - unfold deficit in Hd. rewrite Hred in Hd.
    pose proof (del_black_rb (erase d) (erase_frame f) n Hd Hred Rs Hsib) as Hbl.
    assert (del_fix (erase d) (erase_frame <$> f :: fs) = match del_black (erase d) (erase_frame f) with
      | inl t' => del_fix t' (erase_frame <$> fs)
      | inr t' => blacken (plug (erase_frame <$> fs) t') end) as Hfix.
    { cbn [del_fix fmap list_fmap]. rewrite Hred. change (pf_sib (erase_frame f)) with (erase (df_sib f)).
      rewrite Rs. by destruct (del_black _ _). }
    destruct (del_black (erase d) (erase_frame f)) as [t'|t'].
    + destruct Hm as (δ2 & d2 & c2 & Hs2 & He2 & Ht2 & Hv2 & <- & Hp2). destruct Hbl as [Hc2 Hb2].
      assert (exists n' b', deficit n' (erase d2) /\ zok (S n') b' (erase_frame <$> fs)) as (n' & b' & Hd2 & Hz2).
      { unfold deficit. rewrite Hc2. simpl in Hz.
        apply zok_cons_inv in Hz as [_ [(Hcol & _ & b' & Hz)|(Hcol & _ & _ & Hz)]]; rewrite Hcol in *.
        - exists (S n), b'. by rewrite blacken_black in Hb2.
        - by exists n, false. }
      eapply wp_conseq; [eapply IH; try done; lia|].
      intros [[x3 p3] root3] s3 (δ3 & fs3 & d3 & Hs3 & He3 & Hv3 & Hp3 & Hpl & HE).
      exists δ3, fs3, d3. split_and!; try done; [by etransitivity|by rewrite Hfix|].
      intros E. destruct (HE E) as (_ & E2 & _). by apply top_at_not_E in Ht2.
    + eapply loop_after_inr; [lia|exact Hm|exact Hfix].
Qed.

Lemma balance_delete_eq fuel x path root : balance_delete fuel x path root = (
  '(parent, path) ← pop_front path;
  '(x, parent, root) ← balance_delete_loop fuel x parent path root;
  balance_finish x parent root).
Proof. reflexivity. Qed.

Lemma wp_balance_delete fuel δ fs d x root n b s :
  (length fs < fuel)%nat -> sinv δ s -> dctx δ fs x root -> at_loc δ s.1 d x ->
  NoDup (dlocs d ++ flocs fs) -> (forall f fs', fs = f :: fs' -> apart δ s.1 (df_sib f) x) ->
  is_red (erase d) = true \/ erase d = E -> deficit n (erase d) -> zok (S n) b (erase_frame <$> fs) ->
  (erase d = E -> fs = [] -> P) ->
  wp (balance_delete fuel x (path_of fs) root) (fun root' s' => exists δ' d', sinv δ' s' /\ sext s s' /\
    whole δ' d' root' /\ erase d' = del_fix (erase d) (erase_frame <$> fs)) s.
Proof.
  intros Hf Hs Hc Hx Hn Ha Hcase Hd Hz HP. rewrite balance_delete_eq.
  apply wp_bind, wp_pop_path. intros parent path Hp.
  assert (parent = hd Nil (path_of fs)) as Hpar by (by rewrite <- Hp).
  destruct Hcase as [Hred|He].
  - apply wp_bind. eapply wp_conseq; [eapply loop_stop_red; [lia|done..]|].
    intros res s' [-> ->]. rewrite Hpar.
    eapply wp_conseq; [eapply wp_balance_finish; try done; by intros E; rewrite E in Hred|].
    intros root' s' (δ' & d' & Hs' & He' & Hw & Her). exists δ', d'. split_and!; try done.
    rewrite Her. destruct fs; simpl; [done|]. by rewrite Hred.
  - pose proof Hs as [Hw _]. pose proof (proj2 (at_loc_E r r_nil δ _ d x Hw Hx) He) as ->.
    assert (d = DL E) as -> by (destruct d; simpl in He; congruence).
    assert (view δ fs (DL E) Nil root) as Hv by (split; [done|by right|done]).
    apply wp_bind. eapply wp_conseq; [by eapply balance_delete_loop_spec|].
    intros [[x' p'] root'] s1 (δ1 & fs1 & d1 & Hs1 & He1 & Hv1 & -> & Hpl & HE).
    eapply wp_conseq; [eapply (wp_balance_finish δ1 fs1 d1); try apply Hv1; try done|].
    + by eapply view_at_loc.
    + intros f fs' ->. destruct (view_shape _ _ _ _ _ Hv1) as [(c & a & k & v & t & ->)|[-> ->]].
      * by eapply view_apart.
      * by destruct (HE eq_refl) as [? _].
    + intros E1. destruct (HE E1) as (-> & _ & ->). auto.
    + intros root2 s2 (δ2 & d2 & Hs2 & He2 & Hw2 & Her). exists δ2, d2.
      split_and!; try done; [by etransitivity|by rewrite Her].
Qed.
End rebalance.
