(* ===== verification/TreeSpec.v ===== *)
(** The operations of [PersistentTree] refine the reference tree of RBTree.v:
    [Put], [Delete], [Get] and [Copy] return, with enough fuel, and leave the
    tree the specification computes, while everything outside the transaction's
    delta keeps denoting what it denoted. *)
From S2P Require Import Prelude Slice RBTree Node Proto PersistentTree Delta PathCopy Rebalance.

Lemma dctx_app δ fs fs' x y root : dctx δ fs x y -> dctx δ fs' y root -> dctx δ (fs ++ fs') x root.
Proof.
  revert x. induction fs as [|f fs IH]; simpl; intros x; [by intros ->|].
  intros [Hf Hc] Hc'. split; [done|]. by apply IH.
Qed.

Lemma dctx_app_inv δ fs fs' x root : dctx δ (fs ++ fs') x root -> exists y, dctx δ fs x y /\ dctx δ fs' y root.
Proof.
  revert x. induction fs as [|f fs IH]; simpl; intros x; [by exists x|].
  intros [Hf (y & ? & ?)%IH]. by exists y.
Qed.

Lemma path_of_app fs fs' : path_of (fs ++ fs') = (df_loc <$> fs) ++ path_of fs'.
Proof. unfold path_of. by rewrite fmap_app, <- app_assoc. Qed.

(** The payload of the focus moves up to the node [x] of a frame. *)
Lemma view_steal δ fm x sd c k v a fs m cm A km vm B root an am :
  view δ (fm ++ DF x sd c k v a :: fs) (DN m cm A km vm B) m root ->
  δ !! x = Some an -> δ !! m = Some am ->
  x <> m /\
  view (<[m := an_set_payload "" "" am]> (<[x := an_set_payload km vm an]> δ))
    (fm ++ DF x sd c km vm a :: fs) (DN m cm A "" "" B) m root.
Proof.
  intros [Hc Hd Hn] Hx Hm. rewrite flocs_app in Hn. simpl in Hn.
  assert (NoDup (m :: x :: (dlocs A ++ dlocs B) ++ flocs fm ++ dlocs a ++ flocs fs)) as Hn'.
  { revert Hn. apply NoDup_Permutation_proper. solve_Permutation. }
  apply NoDup_cons in Hn' as [Hm' (Hx' & _)%NoDup_cons]. split; [set_solver|].
  apply dctx_app_inv in Hc as (y & Hc1 & ((ps & Hx2 & Hs) & Hc2)). simpl in *.
  assert (forall l, l <> m -> l <> x ->
    <[m := an_set_payload "" "" am]> (<[x := an_set_payload km vm an]> δ) !! l = δ !! l) as Hsame.
  { intros l ??. by rewrite !lookup_insert_ne by done. }
  split.
  - eapply dctx_app; [eapply dctx_ext; [|exact Hc1]; intros l Hl; apply Hsame; set_solver|].
    simpl. split.
    + exists ps. rewrite lookup_insert_ne, lookup_insert_eq by set_solver. split.
      * rewrite Hx in Hx2. injection Hx2 as ->. by destruct sd.
      * eapply dt_ext; [|done]. intros l Hl. apply Hsame; set_solver.
    + eapply dctx_ext; [|done]. intros l Hl. apply Hsame; set_solver.
  - destruct Hd as (_ & pa & pb & Hm2 & Ha & Hb). rewrite Hm in Hm2. injection Hm2 as ->.
    split; [done|]. exists pa, pb. rewrite lookup_insert_eq. split; [done|].
    split; (eapply dt_ext; [|done]); intros l Hl; apply Hsame; set_solver.
  - rewrite flocs_app. simpl. exact Hn.
Qed.

(** A descent below the focus of a larger tree. *)
Lemma view_descent δ δ' fs d x root dm fm m :
  view δ fs d x root -> descent δ δ' d dm fm m x -> view δ' (fm ++ fs) dm m root.
Proof.
  intros [Hc Hd Hn] D. pose proof Hn as (_ & Hdis & Hf)%NoDup_app.
  assert (forall l, l ∈ flocs fs -> is_Some (δ !! l) /\ l ∉ dlocs d) as Hfs.
  { intros l Hl. split; [by eapply dctx_locs|]. intros ?. by eapply Hdis. }
  split.
  - eapply dctx_app; [apply D|]. eapply dctx_ext; [|done]. intros l Hl. apply D; by apply Hfs.
  - apply D.
  - rewrite flocs_app, app_assoc. apply NoDup_app. split_and!; [apply D| |done].
    intros l Hl Hl'. destruct (Hfs l Hl') as [Hs Hn'].
    destruct (desc_locs _ _ _ _ _ _ _ D l Hl) as [?|E]; [done|]. rewrite E in Hs. by destruct Hs.
Qed.

Section tree_spec.
Context {W : Type} {NS : NodeStore W} {NSL : NodeStoreLaws W} {SC : SliceCompare} {SL : SliceLaws}.
Context (r : Z) (P : Prop).
Hypothesis r_i64 : i64 (u64 r) = r.
Hypothesis r_nil : delta_id ns_hor r.

Abbreviation sinv := (sinv r P).
Abbreviation sext := (sext).

(** The tree object [s.2] holds the delta tree [d]. *)
Definition tree_at (δ : gmap loc anode) (s : W * PersistentTree) (d : dtree) : Prop :=
  NoDup (dlocs d) /\
  match pt_root s.2 with
  | Some x => dt δ (Ref x) d
  | None => exists t, d = DL t /\ w_ptr s.1 (pt_src_root s.2) (Old t)
  end.

(** What callers see of it. *)
Definition holds (s : W * PersistentTree) (t : tree) : Prop :=
  exists δ d, sinv δ s /\ tree_at δ s d /\ erase d = t.

(** One state is a later one of the same transaction. *)
Record later (s s' : W * PersistentTree) : Prop := {
  later_w : wext s.1 s'.1;
  later_intention : pt_intention s'.2 = pt_intention s.2;
  later_afterimage : pt_afterimage s'.2 = pt_afterimage s.2;
  later_root : is_Some (pt_root s.2) -> is_Some (pt_root s'.2);
}.

#[export] Instance later_preorder : PreOrder later.
Proof.
  split.
  - intros s. by split.
  - intros s1 s2 s3 [? ? ? ?] [? ? ? ?]. split; try congruence; auto. by etransitivity.
Qed.

Lemma sext_later s s' : sext s s' -> later s s'.
Proof. intros []. split; try done. congruence. Qed.

Lemma tree_at_later δ s s' d : sext s s' -> tree_at δ s d -> tree_at δ s' d.
Proof.
  intros He [Hn Ht]. split; [done|]. rewrite (sext_root _ _ He). destruct (pt_root s.2); [done|].
  destruct Ht as (t & -> & Hp). exists t. split; [done|]. rewrite (sext_src _ _ He).
  eapply w_ptr_mono; [apply He|done].
Qed.

(** ** Entry and exit of an operation *)

Lemma base_root_spec δ d s : sinv δ s -> tree_at δ s d ->
  wp base_root (fun x s' => sinv δ s' /\ later s s' /\ tree_at δ s' d /\ at_loc δ s'.1 d x) s.
Proof.
  intros Hs [Hn Ht]. pose proof Hs as [Hw Htv]. unfold base_root.
  apply wp_bind, wp_get_tree. destruct (pt_root s.2) as [x|] eqn:Hr.
  - apply wp_ret. split_and!; try done; [|by eapply at_loc_of_dt]. split; [done|]. by rewrite Hr.
  - destruct Ht as (t & -> & Hp). apply wp_bind. eapply wp_tm; [by eapply twp_ref_Old|].
    intros [x p] w tr (Hw' & He & Hsub & Hx & Hcase). destruct s as [w0 t0]. simpl in *.
    apply wp_bind. unfold wp. simpl. split_and!.
    + split; [done|]. destruct Htv as (? & ? & ?). done.
    + by split.
    + split; [done|]. simpl. rewrite Hr. exists t. split; [done|]. split.
      * destruct Hcase as [[-> ->]|(_ & -> & _)]; done.
      * intros Hne. apply Hp in Hne as (Hdb & a & Ha & Hnm).
        rewrite (wext_names _ _ He). destruct Hcase as [[-> _]|(_ & -> & _)]; eauto.
    + done.
Qed.

Lemma UpdateLRU_spec δ s : sinv δ s ->
  wp UpdateLRU (fun _ s' => sinv δ s' /\ sext s s' /\ forall d, tree_at δ s d -> tree_at δ s' d) s.
Proof.
  intros Hs. pose proof Hs as [Hw (Hr & Hdb & Hf)]. unfold UpdateLRU.
  apply wp_bind, wp_get_tree. destruct (pt_trace s.2) as [|a tr]; [by apply wp_ret|].
  apply wp_bind, wp_assert; [done|]. destruct s as [w t]. unfold wp. simpl in *.
  destruct (ns_update_lru_law w (a :: tr)) as (Hi & Hh & Hst & Hnm); [apply Hw|].
  destruct (winv_frame r δ w (ns_update_lru (a :: tr) w)) as [Hw' He]; [apply Hw|done..|].
  assert (sext (w, t) (ns_update_lru (a :: tr) w, with_trace [] t)) as He' by (by split).
  split_and!; [by split|done|intros d; by apply tree_at_later].
Qed.

(** [TraceApplier] only adds the cache update at the end. *)
Lemma TraceApplier_spec {A} (m : PM A) (Q : A -> option loc -> Prop) t s0 s :
  wp m (fun a s' => holds s' t /\ later s0 s' /\ Q a (pt_root s'.2)) s ->
  wp (TraceApplier m) (fun a s' => holds s' t /\ later s0 s' /\ Q a (pt_root s'.2)) s.
Proof.
  intros Hm. unfold TraceApplier. apply wp_bind. eapply wp_conseq; [exact Hm|].
  intros a s1 ((δ & d & Hs & Ht & He) & Hl & HQ). apply wp_bind.
  eapply wp_conseq; [by eapply UpdateLRU_spec|]. intros _ s2 (Hs2 & He2 & Ht2). apply wp_ret.
  rewrite (sext_root _ _ He2).
  split_and!; try done; [exists δ, d; by auto|]. etransitivity; [done|]. by apply sext_later.
Qed.

(** ** [Get] *)

Lemma get_loop_spec fuel key : forall d x δ s,
  (height (erase d) < fuel)%nat -> sinv δ s -> at_loc δ s.1 d x ->
  wp (get_loop fuel key x) (fun res s' => sinv δ s' /\ sext s s' /\
    res = match find key (erase d) with Some v => (0, Some v) | None => (- ENOENT, None) end) s.
Proof.
  induction fuel as [|fuel IH]; intros d x δ s Hf Hs Hx; [lia|]. cbn [get_loop]. pose proof Hs as [Hw _].
  destruct (decide (x = Nil)) as [->|Hne].
  { apply wp_ret. by rewrite (proj1 (at_loc_E r r_nil δ _ d Nil Hw Hx) eq_refl). }
  destruct (erase d) as [|c l k v t] eqn:He.
  { exfalso. apply Hne. by apply (at_loc_E r r_nil δ _ d x Hw Hx). }
  apply wp_bind. eapply wp_node_key; [done..|]. simpl.
  destruct (slice_cases key k) as [[Hc ->]|[[Hc Hk]|[Hc Hk]]].
  - rewrite Hc. simpl. apply wp_bind. eapply wp_node_val; [done..|]. apply wp_ret.
    by rewrite compare_refl.
  - rewrite (proj2 (Z.eqb_neq _ _)), (proj2 (Z.ltb_lt _ _)) by lia. unfold slt in Hk. rewrite Hk.
    apply wp_bind. eapply wp_conseq; [by eapply (wp_down r P r_nil δ d x SideL)|].
    intros y s1 (Hs1 & He1 & Hy). eapply wp_conseq; [eapply (IH (dsub SideL d)); try done|].
    { rewrite erase_dsub, He. simpl in *. lia. }
    intros res s2 (Hs2 & He2 & ->). split_and!; [done|by etransitivity|]. by rewrite erase_dsub, He.
  - rewrite (proj2 (Z.eqb_neq _ _)), (proj2 (Z.ltb_ge _ _)) by lia. apply compare_gt_slt in Hk. rewrite Hk.
    apply wp_bind. eapply wp_conseq; [by eapply (wp_down r P r_nil δ d x SideR)|].
    intros y s1 (Hs1 & He1 & Hy). eapply wp_conseq; [eapply (IH (dsub SideR d)); try done|].
    { rewrite erase_dsub, He. simpl in *. lia. }
    intros res s2 (Hs2 & He2 & ->). split_and!; [done|by etransitivity|]. by rewrite erase_dsub, He.
Qed.

Lemma Get_spec fuel key t s : (height t < fuel)%nat -> holds s t ->
  wp (Get fuel key) (fun res s' => holds s' t /\ later s s' /\
    res = match find key t with Some v => (0, Some v) | None => (- ENOENT, None) end) s.
Proof.
  intros Hf (δ & d & Hs & Ht & <-).
  apply (TraceApplier_spec _ (fun res _ => res = match find key (erase d) with Some v => (0, Some v) | None => (- ENOENT, None) end)).
  apply wp_bind. eapply wp_conseq; [by eapply base_root_spec|]. intros x s1 (Hs1 & Hl1 & Ht1 & Hx).
  eapply wp_conseq; [by eapply get_loop_spec|]. intros res s2 (Hs2 & He2 & ->).
  split_and!; [|etransitivity; [done|by apply sext_later]|done].
  exists δ, d. split_and!; try done. by eapply tree_at_later.
Qed.

(** ** Publishing a new root *)

Lemma wp_set_root δ d root s0 s : sinv δ s -> later s0 s -> whole δ d root ->
  wp (set_tree (with_root (Some root))) (fun _ s' => holds s' (erase d) /\ later s0 s' /\ is_Some (pt_root s'.2)) s.
Proof.
  intros Hs Hl [_ Hd Hn]. destruct s as [w t]. unfold wp. simpl.
  split_and!; [|by destruct Hl|by eexists].
  exists δ, d. split_and!; [done| |done]. simpl in Hn. rewrite app_nil_r in Hn.
  by split.
Qed.

Lemma descent_view δ δ' d dd fs x root : descent δ δ' d dd fs x root -> view δ' fs dd x root.
Proof. intros D. split; apply D. Qed.

(** ** [Copy] *)

Lemma Copy_spec fuel key t s : (height t < fuel)%nat -> holds s t ->
  wp (Copy fuel key) (fun _ s' => holds s' t /\ later s s' /\ True) s.
Proof.
  intros Hf (δ & d & Hs & Ht & <-). unfold Copy.
  apply (TraceApplier_spec _ (fun _ _ => True)).
  apply wp_bind. eapply wp_conseq; [by eapply base_root_spec|]. intros x s1 (Hs1 & Hl1 & Ht1 & Hx).
  apply wp_bind. eapply wp_conseq; [eapply (copy_recursive_spec r P); try done; apply Ht1|].
  intros [root|] s2 [He2 Hpost].
  - destruct Hpost as (δ2 & dd & y & fs & Hs2 & D & Hd & _). apply descent_view in D.
    apply view_dplug in D. pose proof (descend_plug key (erase d) []) as Hp. rewrite Hd in Hp. simpl in Hp.
    eapply wp_conseq; [eapply wp_set_root; [exact Hs2|etransitivity; [exact Hl1|by apply sext_later]|exact D]|].
    intros ? s3. rewrite erase_dplug, Hp. by intros (? & ? & _).
  - apply wp_ret. split_and!; [|etransitivity; [done|by apply sext_later]|done].
    exists δ, d. split_and!; try done. by eapply tree_at_later.
Qed.

(** ** [Delete] *)

Lemma apart_of_bst δ f fs B y root w :
  winv r δ w -> dctx δ (f :: fs) y root -> at_loc δ w B y -> NoDup (dlocs B ++ flocs (f :: fs)) ->
  bst (plug (erase_frame <$> f :: fs) (erase B)) -> (erase B = E -> erase (df_sib f) <> E) ->
  apart δ w (df_sib f) y.
Proof.
  intros Hw Hc Hy Hn Hb HE. destruct B as [t|l c a k v b].
  - right. exists t. split; [done|]. simpl in *. destruct (decide (t = E)) as [->|Hne].
    + intros Heq. by apply HE.
    + exact (bst_apart (erase_frame f) (erase_frame <$> fs) t Hb Hne).
  - destruct Hy as [-> (_ & pa & pb & Hl & _)]. left. split; [eauto|].
    simpl in Hn. apply NoDup_cons in Hn as [Hn _]. set_solver.
Qed.

(** The end of [Delete], once the node [m] of colour [cm] is out of the tree
    and its other child [B] in its place. *)
Lemma wp_unlink fuel δ fs m an B y root s : (length fs < fuel)%nat -> sinv δ s ->
  δ !! m = Some an -> dctx δ fs y root -> at_loc δ s.1 B y -> NoDup (dlocs B ++ flocs fs) ->
  leaf_hole (an_red an) (erase B) (erase_frame <$> fs) ->
  bst (plug (erase_frame <$> fs) (erase B)) ->
  (unlink (an_red an) (erase B) (erase_frame <$> fs) = E -> P) ->
  wp (red ← tm (node_red m);
      root ← (if negb red then balance_delete fuel y (path_of fs) root else mret root);
      set_tree (with_root (Some root)))
    (fun _ s' => holds s' (unlink (an_red an) (erase B) (erase_frame <$> fs)) /\ later s s' /\
       is_Some (pt_root s'.2)) s.
Proof.
  intros Hf Hs Hm Hc Hy Hn (b & Hr & Hz & Hb) Hbst HP. pose proof Hs as [Hw _].
  destruct (winv_lookup _ _ _ _ _ Hw Hm) as (n & Hmn & Hcol & _).
  apply wp_bind. eapply (wp_read red_); [done|]. rewrite Hcol.
  destruct (an_red an) eqn:R; cbn [negb unlink].
  - assert (erase B = E) as HE by (destruct (rb_0 _ Hr) as [?|Hr']; [done|by rewrite Hb in Hr']).
    assert (y = Nil) as -> by (by apply (at_loc_E r r_nil δ s.1 B)).
    assert (B = DL E) as -> by (destruct B; simpl in HE; congruence).
    apply wp_bind, wp_ret. assert (view δ fs (DL E) Nil root) as Hv by (split; [done|by right|done]).
    apply view_dplug in Hv. eapply wp_conseq; [by eapply wp_set_root|].
    intros ? s1. by rewrite erase_dplug.
  - apply wp_bind. eapply wp_conseq.
    { eapply (wp_balance_delete r P) with (δ := δ) (d := B) (n := 0%nat); try done.
      - intros f fs' ->. eapply apart_of_bst; try done. intros _. simpl in Hz.
        apply zok_cons_inv in Hz as [Hsib _]. by apply rb_red_nonempty in Hsib.
      - destruct (rb_0 _ Hr); auto.
      - by apply deficit_rb.
      - intros HE ->. apply HP. by rewrite HE. }
    intros root' s1 (δ1 & d1 & Hs1 & He1 & Hw1 & Her). eapply wp_conseq; [by eapply wp_set_root, Hw1|].
    intros ? s2 (Hh & Hl & Hroot). split_and!; [by rewrite <- Her| |done].
    etransitivity; [by apply sext_later|done].
Qed.

(** The node [m] is out of the tree, its child [B] at [y] in its place. *)
Definition detached (fuel : nat) (goal : tree) (s : W * PersistentTree)
    (res : loc * loc * list loc * loc) (s' : W * PersistentTree) : Prop :=
  let '(m, y, path, root) := res in
  exists δ fs an B, sinv δ s' /\ sext s s' /\ δ !! m = Some an /\ dctx δ fs y root /\
    at_loc δ s'.1 B y /\ NoDup (dlocs B ++ flocs fs) /\ path = path_of fs /\ (length fs < fuel)%nat /\
    leaf_hole (an_red an) (erase B) (erase_frame <$> fs) /\
    goal = unlink (an_red an) (erase B) (erase_frame <$> fs).

Lemma wp_detach δ fs m s0 c A k v B y root s :
  sinv δ s -> view δ fs (dnode_on m s0 c A k v B) m root -> at_loc δ s.1 B y ->
  wp (transplant (hd Nil (path_of fs)) m y root) (fun root' s' => exists δ' an, sinv δ' s' /\ sext s s' /\
    δ' !! m = Some an /\ an_red an = c /\ dctx δ' fs y root' /\ at_loc δ' s'.1 B y /\
    NoDup (dlocs B ++ flocs fs)) s.
Proof.
  intros Hs Hv Hy. destruct (view_node _ _ _ _ _ _ _ _ _ _ Hv) as (pa & pb & Hm & Ha & Hb).
  pose proof (view_nodup _ _ _ _ _ _ _ _ _ _ Hv) as [Hmn Hn]%NoDup_cons.
  apply NoDup_app in Hn as (_ & _ & Hn). pose proof Hn as (_ & Hdis & Hnf)%NoDup_app.
  eapply wp_conseq; [eapply (wp_transplant r P) with (δ := δ); try done; [apply Hv| |]|].
  - eapply at_loc_live; [apply Hs|done].
  - intros f fs' ->. destruct (view_not_in _ _ _ _ _ _ _ _ _ _ Hv) as (_ & _ & Hf).
    left. split; [eauto|]. simpl in Hf. set_solver.
  - intros root' s' (δ' & Hs' & He & Hc & Hsame).
    exists δ', (an_on s0 c k v pa pb). split_and!; try done.
    + rewrite Hsame; [done|]. set_solver.
    + by rewrite an_red_on.
    + eapply at_loc_mono; [apply He|]. eapply at_loc_ext; [|done]. intros l Hl. apply Hsame. by apply Hdis.
Qed.

Lemma detached_one fuel δ fs m s0 c A k v B y root s :
  sinv δ s -> view δ fs (dnode_on m s0 c A k v B) m root -> at_loc δ s.1 B y -> erase A = E ->
  (length fs < fuel)%nat -> focus_ok (node_on s0 c E k v (erase B)) (erase_frame <$> fs) ->
  wp (root ← transplant (hd Nil (path_of fs)) m y root; mret (m, y, path_of fs, root))
    (detached fuel (delete_at (node_on s0 c E k v (erase B)) (erase_frame <$> fs)) s) s.
Proof.
  intros Hs Hv Hy HA Hf Hfo. apply delete_at_one in Hfo as [Hl ->].
  apply wp_bind. eapply wp_conseq; [by eapply wp_detach|].
  intros root' s' (δ' & an & Hs' & He & Hm & <- & Hc & Hy' & Hn). apply wp_ret.
  exists δ', fs, an, B. by split_and!.
Qed.

(** The branch of [Delete] for a node [x] with two children. *)
Definition splice_min (fuel : nat) (x : loc) (path : list loc) (root : loc) : PM (loc * loc * list loc * loc) :=
  own_child SideR x;;
  y ← tm (ref_child SideR x);
  '(removed, path) ← build_min_path fuel y path;
  transplanted ← tm (ref_child SideR removed);
  tm (steal_payload x removed);;
  top ← front path;
  root ← transplant top removed transplanted root;
  mret (removed, transplanted, path, root).

Lemma wp_splice_min fuel δ fs x c A k v B root s :
  sinv δ s -> view δ fs (DN x c A k v B) x root -> erase A <> E -> erase B <> E ->
  (length fs + S (height (erase B)) < fuel)%nat ->
  focus_ok (T c (erase A) k v (erase B)) (erase_frame <$> fs) ->
  wp (splice_min fuel x (x :: path_of fs) root)
    (detached fuel (delete_at (T c (erase A) k v (erase B)) (erase_frame <$> fs)) s) s.
Proof.
  intros Hs Hv HA HB Hf Hfo. change (DN x c A k v B) with (dnode_on x SideR c B k v A) in Hv.
  unfold splice_min. wstep wp_focus_own_child. intros _ s1 (δ1 & B1 & y & Hs1 & He1 & Ho & Hv1).
  destruct (owned_shape _ _ _ _ Ho HB) as (c1 & a1 & k1 & v1 & b1 & ->).
  wstep wp_focus_child. intros y' s2 (Hs2 & He2 & [-> _]). apply view_down_delta in Hv1.
  pose proof (own_erase _ _ _ _ Ho) as HeB.
  pose proof (v_nodup _ _ _ _ _ Hv1) as (HnB & _)%NoDup_app.
  apply wp_bind. eapply wp_conseq; [eapply (build_min_path_spec r P); try done; [by rewrite HeB; lia|apply Hv1]|].
  intros [m path'] s3 (δ3 & fm & cm & km & vm & rm & Hs3 & He3 & D & -> & Hmin). rewrite HeB in Hmin.
  pose proof (view_descent _ _ _ _ _ _ _ _ _ Hv1 D) as Hv3.
  change (DN m cm (DL E) km vm rm) with (dnode_on m SideL cm (DL E) km vm rm) in Hv3.
  apply wp_bind. eapply wp_conseq; [eapply (wp_focus_other r P) with (s0 := SideL); eassumption|].
  intros z s4 (Hs4 & He4 & Hz).
  destruct (view_node _ _ _ _ _ _ _ _ _ _ Hv3) as (pa & pb & Hm & _).
  assert (exists an, δ3 !! x = Some an) as [an Hx].
  { pose proof (v_ctx _ _ _ _ _ Hv3) as Hc. apply dctx_app_inv in Hc as (? & _ & ((ps & Hx & _) & _)). eauto. }
  destruct (view_steal _ _ _ _ _ _ _ _ _ _ _ _ _ _ _ _ _ _ Hv3 Hx Hm) as [Hne Hv5].
  wstep wp_steal_payload. intros _ s5 [Hs5 He5]. advance He5.
  assert (at_loc (<[m := an_set_payload "" "" (an_on SideL cm km vm pa pb)]> (<[x := an_set_payload km vm an]> δ3)) s5.1 rm z) as Hz5.
  { pose proof (view_not_in _ _ _ _ _ _ _ _ _ _ Hv3) as (_ & Hmr & _).
    pose proof (v_nodup _ _ _ _ _ Hv3) as (_ & Hdis & _)%NoDup_app.
    eapply at_loc_ext; [|done]. intros l Hl.
    rewrite !lookup_insert_ne; [done| |by intros <-].
    intros <-. eapply (Hdis x); [simpl; set_solver|]. rewrite flocs_app. simpl. set_solver. }
  change (x :: path_of fs) with (path_of (DF x SideR c km vm A :: fs)). rewrite <- path_of_app.
  apply wp_bind, wp_front_path.
  change (DN m cm (DL E) "" "" rm) with (dnode_on m SideL cm (DL E) "" "" rm) in Hv5.
  wstep wp_detach. intros root' s6 (δ6 & am & Hs6 & He6 & Hm6 & Hc6 & Hctx & Hz6 & Hn6). apply wp_ret.
  destruct (delete_at_two c (erase A) k v (erase B) (erase_frame <$> fs) _ _ _ _ _ Hfo HA HB Hmin) as [Hl Hd].
  exists δ6, (fm ++ DF x SideR c km vm A :: fs), am, rm. split_and!; try done.
  - do 5 (etransitivity; [done|]). done.
  - pose proof (min_path_height (erase B) []) as Hh. rewrite Hmin in Hh. simpl in Hh.
    rewrite length_fmap in Hh. rewrite length_app. simpl. lia.
  - by rewrite fmap_app, Hc6.
  - by rewrite fmap_app, Hc6, Hd.
Qed.

Lemma Delete_spec fuel key t s : (height t < fuel)%nat -> rbtree t ->
  (tree_delete key t = E -> t <> E -> P) -> holds s t ->
  wp (Delete fuel key) (fun _ s' => holds s' (tree_delete key t) /\ later s s' /\
    (fst (descend key t []) <> E -> is_Some (pt_root s'.2))) s.
Proof.
  intros Hf Hrb HP (δ & d & Hs & Ht & <-). unfold Delete.
  apply (TraceApplier_spec _ (fun _ o => fst (descend key (erase d) []) <> E -> is_Some o)).
  apply wp_bind. eapply wp_conseq; [by eapply base_root_spec|]. intros base s1 (Hs1 & Hl1 & Ht1 & Hx).
  apply wp_bind. eapply wp_conseq; [eapply (delete_recursive_spec r P); try done; apply Ht1|].
  unfold tree_delete in *. pose proof (descend_elements key (erase d)) as Hde.
  pose proof (descend_key key (erase d) []) as Hdk. pose proof (descend_height key (erase d) []) as Hdh.
  intros [[root|] path] s2 [He2 Hpost].
  2: { destruct Hpost as [Hs2 HE]. destruct (descend key (erase d) []) as [? fs]. simpl in HE. subst.
       apply wp_ret. split_and!; [|etransitivity; [done|by apply sext_later]|done].
       exists δ, d. split_and!; try done. by eapply tree_at_later. }
  destruct Hpost as (δ2 & dd & x & fs & Hs2 & D & -> & Hd & c & a & k & v & b & ->). rewrite Hd in *.
  cbn [erase fst snd length] in *. rewrite length_fmap in Hdh. simpl in Hdh.
  pose proof (Hdk _ _ _ _ _ eq_refl) as ->.
  destruct Hde as (Hfo & _ & _ & _); [apply Hrb..|].
  apply descent_view in D. change (([] ++ x :: (df_loc <$> fs)) ++ [Nil]) with (x :: path_of fs).
  apply wp_bind, wp_assert. { unfold path_of. simpl. rewrite length_app. simpl. apply Z.leb_le. lia. }
  apply wp_bind, wp_ret, wp_bind.
  eapply (wp_node_key r P) with (d := DN x c a key v b); try done; [by eapply view_at_loc|].
  apply wp_bind, wp_assert; [by apply bool_decide_eq_true|].
  pose proof D as DR. change (DN x c a key v b) with (dnode_on x SideL c a key v b) in D.
  change (DN x c a key v b) with (dnode_on x SideR c b key v a) in DR.
  apply wp_bind. eapply wp_conseq; [eapply (wp_focus_other r P) with (s0 := SideL); eassumption|].
  intros y s3 (Hs3 & He3 & Hy). wstep wp_focus_child. intros z s4 (Hs4 & He4 & Hz). advance He4.
  apply wp_bind. eapply (wp_conseq _ (detached fuel (delete_at (T c (erase a) key v (erase b)) (erase_frame <$> fs)) s4)).
  - pose proof Hs4 as [Hw4 _].
    destruct (decide (z = Nil)) as [->|Hza].
    { pose proof (proj1 (at_loc_E r r_nil δ2 s4.1 a Nil Hw4 Hz) eq_refl) as Ha.
      apply wp_bind, wp_ret, wp_bind, wp_front_path. rewrite Ha in *.
      eapply (detached_one fuel δ2 fs x SideL c a key v b y root s4); try done. lia. }
    assert (erase a <> E) as HA by (by rewrite <- (at_loc_E r r_nil δ2 s4.1 a z Hw4 Hz)).
    apply wp_bind. eapply wp_conseq; [eapply (wp_focus_other r P) with (s0 := SideL); eassumption|].
    intros y2 s5 (Hs5 & He5 & Hy2). pose proof Hs5 as [Hw5 _].
    eapply (wp_conseq _ (detached fuel (delete_at (T c (erase a) key v (erase b)) (erase_frame <$> fs)) s5)).
    2: { intros [[[m u] q] root'] s6 (δ6 & fs6 & an & B & ? & ? & ?). exists δ6, fs6, an, B.
         split; [done|]. split; [by etransitivity|done]. }
    destruct (decide (y2 = Nil)) as [->|Hyb].
    { pose proof (proj1 (at_loc_E r r_nil δ2 s5.1 b Nil Hw5 Hy2) eq_refl) as Hb.
      apply wp_bind, wp_ret. wstep wp_focus_child. intros z2 s6 (Hs6 & He6 & Hz2).
      apply wp_bind, wp_front_path. rewrite Hb in *.
      eapply wp_conseq; [eapply (detached_one fuel δ2 fs x SideR c b key v a z2 root s6); try done; lia|].
      intros [[[m u] q] root'] s7 (δ7 & fs7 & an & B & ? & ? & ?). exists δ7, fs7, an, B.
      split; [done|]. split; [by etransitivity|done]. }
    assert (erase b <> E) as HB by (by rewrite <- (at_loc_E r r_nil δ2 s5.1 b y2 Hw5 Hy2)).
    eapply (wp_splice_min fuel δ2 fs x c a key v b root s5); try done. lia.
  - intros [[[m u] q] root'] s5 (δ5 & fs5 & an & B & Hs5 & He5 & Hm & Hc & Hu & Hn & -> & Hlen & Hlh & Hgoal).
    destruct (tree_delete_ok key (erase d) Hrb) as [(_ & _ & Hb) _]. unfold tree_delete in Hb.
    rewrite Hd in Hb. rewrite Hgoal in *.
    eapply wp_conseq; [eapply wp_unlink; try done; [by eapply unlink_bst|]|].
    { intros HE. apply HP; [done|]. intros E0. by rewrite E0 in Hd. }
    intros ? s6 (Hh & Hl & Hroot). split_and!; try done. etransitivity; [exact Hl1|].
    etransitivity; [apply sext_later; exact He2|]. etransitivity; [apply sext_later; exact He3|].
    etransitivity; [apply sext_later; exact He5|done].
Qed.

(** ** [Put] *)

(** The end of [Put], on the path an insertion has built. *)
Definition put_finish (fuel : nat) (root : loc) (path : list loc) : PM unit :=
  let path := path ++ [Nil] in
  assert_that (2 <=? Z.of_nat (length path));;
  '(nn, path) ← pop_front path;
  '(parent, path) ← pop_front path;
  root ← insert_loop fuel parent nn path root;
  tm (set_red false root);;
  set_tree (with_root (Some root)).

Lemma wp_put_finish fuel δ key value fs nn root s t :
  sinv δ s -> view δ fs (DN nn true (DL E) key value (DL E)) nn root -> rbtree t ->
  descend key t [] = (E, erase_frame <$> fs) -> (height t < fuel)%nat ->
  wp (put_finish fuel root (nn :: (df_loc <$> fs))) (fun _ s' =>
    holds s' (insert_at key value (erase_frame <$> fs)) /\ later s s' /\ is_Some (pt_root s'.2)) s.
Proof.
  intros Hs Hv (Hb & Hn & _) Hd Hf. unfold put_finish.
  change ((nn :: (df_loc <$> fs)) ++ [Nil]) with (nn :: path_of fs).
  apply wp_bind, wp_assert. { unfold path_of. simpl. rewrite length_app. simpl. apply Z.leb_le. lia. }
  apply wp_bind, wp_ret, wp_bind, wp_pop_path. intros parent path Hp.
  pose proof (descend_focus key t [] (focus_ok_root t Hb Hn)) as (n & b & Hr & Hz & _).
  pose proof (descend_height key t []) as Hh. rewrite Hd in *. simpl in *. rewrite length_fmap in Hh.
  assert (n = 0%nat) as -> by (by inversion Hr).
  apply wp_bind. eapply wp_conseq; [eapply (insert_loop_spec r P); try done; [lia|by repeat eexists]|].
  intros root' s1 (δ1 & d1 & c1 & Hs1 & He1 & Hv1 & (a & k & v & u & ->) & Her).
  change (DN root' c1 a k v u) with (dnode_on root' SideL c1 a k v u) in *.
  wstep wp_focus_set_red. intros _ s2 (δ2 & Hs2 & He2 & Hv2).
  eapply wp_conseq; [eapply (wp_set_root _ _ _ s); [done| |done]|].
  - apply sext_later. by etransitivity.
  - intros ? s3 (Hh3 & Hl3 & Hr3). split_and!; try done.
    unfold insert_at. simpl in Her. rewrite <- Her. done.
Qed.

Lemma size_tree_delete k t : rbtree t -> (size (tree_delete k t) <= size t)%nat.
Proof.
  intros (Hb & Hn & Hbst). unfold size.
  destruct (tree_delete_elements k t) as (L & m & R & -> & -> & _); [by split|done|].
  rewrite !length_app. lia.
Qed.

Lemma Put_spec fuel key value t s : (size t < fuel)%nat -> rbtree t ->
  (tree_delete key t = E -> t <> E -> P) -> holds s t ->
  wp (Put fuel key value) (fun _ s' => holds s' (tree_insert key value t) /\ later s s' /\
    is_Some (pt_root s'.2)) s.
Proof.
  intros Hf Hrb HP (δ & d & Hs & Ht & <-). unfold Put.
  apply (TraceApplier_spec _ (fun _ o => is_Some o)).
  apply wp_bind. eapply wp_conseq; [by eapply base_root_spec|]. intros base s1 (Hs1 & Hl1 & Ht1 & Hx).
  pose proof (height_size (erase d)) as Hh.
  apply wp_bind. eapply wp_conseq; [eapply (insert_recursive_spec r P); try done; [lia|apply Ht1]|].
  intros [[root|] path] s2 [He2 Hpost].
  - destruct Hpost as (HE & δ2 & nn & fs & Hs2 & D & -> & Hfs). apply wp_bind, wp_ret.
    apply descent_view in D. simpl.
    assert (descend key (erase d) [] = (E, erase_frame <$> fs)) as Hd.
    { rewrite Hfs, <- HE. by destruct (descend key (erase d) []). }
    eapply wp_conseq; [eapply (wp_put_finish fuel δ2 key value fs nn root s2 (erase d)); try done; lia|].
    intros ? s3 (Hh3 & Hl3 & Hr3). unfold tree_insert. rewrite Hd. split_and!; try done.
    etransitivity; [exact Hl1|]. etransitivity; [apply sext_later; exact He2|done].
  - destruct Hpost as (Hs2 & -> & HE). assert (holds s2 (erase d)) as Hh2.
    { exists δ, d. split_and!; try done. by eapply tree_at_later. }
    pose proof (tree_delete_ok key (erase d) Hrb) as [Hrb' Hmap].
    pose proof (size_tree_delete key (erase d) Hrb) as Hsz.
    pose proof (height_size (tree_delete key (erase d))) as Hh'.
    apply wp_bind, wp_bind. eapply wp_conseq; [eapply (Delete_spec fuel key (erase d)); [lia|done..]|].
    intros ? s3 ((δ3 & d3 & Hs3 & Ht3 & Her3) & Hl3 & Hr3). destruct (Hr3 HE) as [base3 Hroot3].
    apply wp_bind, wp_get_tree. rewrite Hroot3. destruct Ht3 as [Hn3 Hx3]. rewrite Hroot3 in Hx3.
    apply (at_loc_of_dt r δ3 s3.1) in Hx3; [|apply Hs3].
    assert (fst (descend key (tree_delete key (erase d)) []) = E) as HE3.
    { apply descend_found; [done|]. by rewrite Hmap, lookup_delete_eq. }
    apply wp_bind. eapply wp_conseq; [eapply (insert_recursive_spec r P) with (d := d3); try done; by rewrite Her3; lia|].
    rewrite <- Her3 in *.
    intros [[root|] path'] s4 [He4 Hpost]; [|by destruct Hpost as (_ & _ & ?)].
    destruct Hpost as (_ & δ4 & nn & fs & Hs4 & D & -> & Hfs). apply wp_ret.
    apply descent_view in D. simpl.
    assert (descend key (erase d3) [] = (E, erase_frame <$> fs)) as Hd.
    { rewrite Hfs, <- HE3. by destruct (descend key (erase d3) []). }
    eapply wp_conseq; [eapply (wp_put_finish fuel δ4 key value fs nn root s4 (erase d3)); try done; lia|].
    intros ? s5 (Hh5 & Hl5 & Hr5). split_and!; [|etransitivity; [exact Hl1|]|done].
    + unfold tree_insert. destruct (descend key (erase d) []) as [[|c l k v u] fs0]; [done|].
      rewrite <- Her3, Hd. done.
    + etransitivity; [apply sext_later; exact He2|]. etransitivity; [exact Hl3|].
      etransitivity; [apply sext_later; exact He4|done].
Qed.
End tree_spec.
