(* ===== verification/MemStore.v ===== *)
(** A node store without a log: every reference is live, so nothing is ever
    fetched.  It is the simplest model of the interface of Node.v, and the one
    the concrete runs of the later files are evaluated on. *)
From S2P Require Import Prelude Slice RBTree Node Proto PersistentTree Delta PathCopy TreeSpec.

Definition MemStore : Type := gmap loc Node.

#[export] Instance mem_store : NodeStore MemStore := {|
  ns_heap w := w;
  ns_set_heap h _ := h;
  ns_fetch _ := fail;
  ns_update_lru _ w := w;
  ns_intention_to_afterimage _ w := (None, w);
|}.

(** The nodes of intentions before this one count as published. *)
Definition mem_hor : Z := 8.

#[export] Program Instance mem_store_laws : NodeStoreLaws MemStore := {|
  ns_hor := mem_hor;
  ns_inv w := w !! Nil = Some nil_node;
  ns_stored _ _ _ := False;
  ns_names _ _ _ := True;
|}.
Solve Obligations with simpl; naive_solver.

Definition mem_empty : MemStore := {[Nil := nil_node]}.

(** A transaction's tree over the empty snapshot. *)
Definition mem_tree (rid : Z) : PersistentTree := new_tree true (mkNodePtr (Some Nil) None true) rid.

Lemma mem_holds rid P : delta_id mem_hor rid -> holds rid P (mem_empty, mem_tree rid) E.
Proof.
  intros Hr. exists ∅, (DL E). split_and!; [|split; [constructor|]|done].
  - split; [|by apply tinv_empty].
    split; [by apply lookup_insert_eq|]. intros l an Hl. by rewrite lookup_empty in Hl.
  - exists E. by split_and!.
Qed.

Definition eval {S A} (m : M S A) (s : S) : option A :=
  match m s with Ok (a, _) => Some a | _ => None end.
