(* ===== verification/TransactionTree.v ===== *)
(** A transaction's tree as a database: any sequence of operations of
    [PersistentTree] is a sequence of operations on a finite map, and leaves
    every earlier snapshot as it was. *)
From S2P Require Import Prelude Slice RBTree Node Proto PersistentTree Delta PathCopy TreeSpec MemStore.

Inductive tree_op : Type :=
| DoGet (key : string)
| DoPut (key value : string)
| DoDelete (key : string)
| DoCopy (key : string).

(** The abstract database. *)
Definition spec_op (op : tree_op) (m : gmap string string) : gmap string string :=
  match op with
  | DoPut k v => <[k := v]> m
  | DoDelete k => delete k m
  | DoGet _ | DoCopy _ => m
  end.

Definition spec_get (m : gmap string string) (k : string) : Z * option string :=
  match m !! k with Some v => (0, Some v) | None => (- ENOENT, None) end.

Fixpoint spec_ops (ops : list tree_op) (m : gmap string string) : list (Z * option string) * gmap string string :=
  match ops with
  | [] => ([], m)
  | op :: ops =>
    let '(out, m') := spec_ops ops (spec_op op m) in
    (match op with DoGet k => spec_get m k :: out | _ => out end, m')
  end.

Section transaction.
Context {W : Type} {NS : NodeStore W} {SC : SliceCompare}.

Fixpoint run_ops (fuel : nat) (ops : list tree_op) : PM (list (Z * option string)) :=
  match ops with
  | [] => mret []
  | DoGet k :: ops => x ← Get fuel k; out ← run_ops fuel ops; mret (x :: out)
  | DoPut k v :: ops => Put fuel k v;; run_ops fuel ops
  | DoDelete k :: ops => Delete fuel k;; run_ops fuel ops
  | DoCopy k :: ops => Copy fuel k;; run_ops fuel ops
  end.
End transaction.

Lemma size_tree_insert k v t : rbtree t -> (size (tree_insert k v t) <= S (size t))%nat.
Proof.
  assert (forall t, rbtree t -> fst (descend k t []) = E ->
    size (insert_at k v (snd (descend k t []))) = S (size t)) as Hins.
  { clear t. intros t (Hb & Hn & Hbst) HE. pose proof (descend_elements k t Hb Hn) as Hd.
    destruct (descend k t []) as [s fs]. simpl in *. subst s. destruct Hd as (_ & He & _).
    unfold size. rewrite elements_insert_at, He. simpl. rewrite !length_app. simpl. lia. }
  intros Hrb. unfold tree_insert. pose proof (Hins t Hrb) as H1. destruct (descend k t []) as [[|c l k' v' r] fs].
  - simpl in H1. rewrite H1; done.
  - destruct (tree_delete_ok k t Hrb) as [Hrb' Hm]. rewrite Hins; [|done|].
    + pose proof (size_tree_delete k t Hrb). lia.
    + apply descend_found; [done|]. by rewrite Hm, lookup_delete_eq.
Qed.

Section refinement.
Context {W : Type} {NS : NodeStore W} {NSL : NodeStoreLaws W} {SC : SliceCompare} {SL : SliceLaws}.
Context (r : Z).
Hypothesis r_i64 : i64 (u64 r) = r.
Hypothesis r_nil : delta_id ns_hor r.

(** The tree object holds a valid tree for the database [m]; with [P] false it
    has never been emptied. *)
Definition represents_with (P : Prop) (s : W * PersistentTree) (n : nat) (m : gmap string string) : Prop :=
  exists t, rbtree t /\ (size t <= n)%nat /\ to_map t = m /\ holds r P s t.

Definition represents : W * PersistentTree -> nat -> gmap string string -> Prop := represents_with True.

(** Removing [k] does not empty the database, or it may. *)
Definition spared (P : Prop) (m : gmap string string) (k : string) : Prop :=
  P \/ exists k', k' <> k /\ is_Some (m !! k').

Lemma spared_True m k : spared True m k.
Proof. by left. Qed.

Lemma spared_delete P t k : rbtree t -> spared P (to_map t) k -> tree_delete k t = E -> t <> E -> P.
Proof.
  intros Hrb [?|(k' & Hne & [v Hv])] HE _; [done|]. exfalso. destruct (tree_delete_ok k t Hrb) as [_ Hm].
  rewrite HE in Hm. assert (delete k (to_map t) !! k' = Some v) as E by (by rewrite lookup_delete_ne).
  rewrite <- Hm in E. done.
Qed.

Lemma represents_weaken P s n n' m : (n <= n')%nat -> represents_with P s n m -> represents_with P s n' m.
Proof. intros Hn (t & ? & ? & ? & ?). exists t. split_and!; try done. lia. Qed.

(** Each operation, on the map it represents. *)
Lemma Get_map P fuel k s n m : (n < fuel)%nat -> represents_with P s n m ->
  wp (Get fuel k) (fun x s' => represents_with P s' n m /\ later s s' /\ x = spec_get m k) s.
Proof.
  intros Hf (t & Hrb & Hsz & <- & Hh). pose proof (height_size t).
  eapply wp_conseq; [eapply (Get_spec r P) with (t := t); try done; lia|].
  intros x s' (Hh' & Hl & ->). split_and!; [by exists t|done|].
  unfold spec_get. by rewrite lookup_find by apply Hrb.
Qed.

Lemma Put_map P fuel k v s n m : (n < fuel)%nat -> spared P m k -> represents_with P s n m ->
  wp (Put fuel k v) (fun _ s' => is_Some (pt_root s'.2) /\ represents_with P s' (S n) (<[k := v]> m) /\ later s s') s.
Proof.
  intros Hf Hsp (t & Hrb & Hsz & <- & Hh). destruct (tree_insert_ok k v t Hrb) as [Hrb' Hm].
  pose proof (size_tree_insert k v t Hrb).
  eapply wp_conseq; [eapply (Put_spec r P) with (t := t); try done; [lia|by apply spared_delete]|].
  intros x s' (Hh' & Hl & Hroot). split_and!; [done| |done]. exists (tree_insert k v t). split_and!; try done. lia.
Qed.

Lemma Delete_map P fuel k s n m : (n < fuel)%nat -> spared P m k -> represents_with P s n m ->
  wp (Delete fuel k) (fun _ s' => represents_with P s' n (delete k m) /\ later s s' /\
    (pt_root s'.2 = None -> delete k m = m)) s.
Proof.
  intros Hf Hsp (t & Hrb & Hsz & <- & Hh). destruct (tree_delete_ok k t Hrb) as [Hrb' Hm].
  pose proof (size_tree_delete k t Hrb). pose proof (height_size t).
  eapply wp_conseq; [eapply (Delete_spec r P) with (t := t); try done; [lia|by apply spared_delete]|].
  intros x s' (Hh' & Hl & Hroot). split_and!; [|done|].
  - exists (tree_delete k t). split_and!; try done. lia.
  - intros Hn. rewrite <- Hm. unfold tree_delete. destruct (descend k t []) as [[|c l k' v u] fs]; [done|].
    destruct Hroot as [x' Hx]; [done|]. congruence.
Qed.

Lemma Copy_map P fuel k s n m : (n < fuel)%nat -> represents_with P s n m ->
  wp (Copy fuel k) (fun _ s' => represents_with P s' n m /\ later s s') s.
Proof.
  intros Hf (t & Hrb & Hsz & <- & Hh). pose proof (height_size t).
  eapply wp_conseq; [eapply (Copy_spec r P) with (t := t); try done; lia|].
  intros x s' (Hh' & Hl & _). split; [by exists t|done].
Qed.

Lemma run_ops_spec fuel ops : forall s n m, (n + length ops < fuel)%nat -> represents s n m ->
  wp (run_ops fuel ops) (fun out s' => later s s' /\ out = fst (spec_ops ops m) /\
    represents s' (n + length ops) (snd (spec_ops ops m))) s.
Proof.
  induction ops as [|op ops IH]; intros s n m Hf Hr.
  { apply wp_ret. split_and!; [done..|]. by rewrite Nat.add_0_r. }
  simpl in Hf. replace (n + length (op :: ops))%nat with (S n + length ops)%nat by (simpl; lia).
  assert (forall s1 m1, later s s1 -> represents s1 (S n) m1 ->
    wp (run_ops fuel ops) (fun out s' => later s s' /\ out = fst (spec_ops ops m1) /\
      represents s' (S n + length ops) (snd (spec_ops ops m1))) s1) as Hgo.
  { intros s1 m1 Hl1 Hr1. eapply wp_conseq; [eapply (IH s1 (S n) m1); [lia|done]|].
    intros out s2 (Hl2 & ? & ?). split_and!; try done. by etransitivity. }
  assert (n < fuel)%nat as Hn by lia.
  destruct op as [k|k v|k|k]; simpl; apply wp_bind.
  - eapply wp_conseq; [by apply Get_map|]. intros x s1 (Hr1 & Hl1 & ->).
    apply wp_bind. eapply wp_conseq; [apply (Hgo s1 m Hl1)|].
    { eapply represents_weaken, Hr1. lia. }
    intros out s2 (Hl2 & -> & Hr2). apply wp_ret. by destruct (spec_ops ops m).
  - eapply wp_conseq; [by apply Put_map, Hr; [|apply spared_True]|]. intros ? s1 (_ & Hr1 & Hl1).
    eapply wp_conseq; [by apply (Hgo s1 (<[k:=v]> m) Hl1)|]. simpl. by destruct (spec_ops ops _).
  - eapply wp_conseq; [by apply Delete_map, Hr; [|apply spared_True]|]. intros ? s1 (Hr1 & Hl1 & _).
    eapply wp_conseq; [apply (Hgo s1 (delete k m) Hl1)|].
    { eapply represents_weaken, Hr1. lia. } simpl. by destruct (spec_ops ops _).
  - eapply wp_conseq; [by apply Copy_map|]. intros ? s1 (Hr1 & Hl1).
    eapply wp_conseq; [apply (Hgo s1 m Hl1)|].
    { eapply represents_weaken, Hr1. lia. } by destruct (spec_ops ops _).
Qed.
End refinement.

(** ** Properties *)

Section properties.
Context {W : Type} {NS : NodeStore W} {NSL : NodeStoreLaws W} {SC : SliceCompare} {SL : SliceLaws}.

(** C1: with fuel above the number of keys involved, any sequence of [Get],
    [Put], [Delete] and [Copy] on a transaction's tree returns without a failed
    assertion, gives the results a finite map gives, and leaves a valid
    red-black search tree for the updated map. *)
Theorem transaction_refines_map r fuel ops s n m :
  i64 (u64 r) = r -> delta_id ns_hor r -> (n + length ops < fuel)%nat -> represents r s n m ->
  wp (run_ops fuel ops) (fun out s' => out = fst (spec_ops ops m) /\
    represents r s' (n + length ops) (snd (spec_ops ops m))) s.
Proof.
  intros Hi Hn Hf Hr. eapply wp_conseq; [by eapply run_ops_spec|]. by intros out s' (_ & ? & ?).
Qed.

(** C9: copy on write. Whatever a transaction does to its tree, every published
    location still denotes the tree it denoted before: concurrent
    readers of older snapshots see no change. *)
Theorem snapshots_persist r fuel ops s n m x t0 :
  i64 (u64 r) = r -> delta_id ns_hor r -> (n + length ops < fuel)%nat -> represents r s n m ->
  node_denotes ns_hor (ns_stored s.1) (ns_names s.1) (ns_heap s.1) t0 x ->
  wp (run_ops fuel ops) (fun _ s' =>
    node_denotes ns_hor (ns_stored s'.1) (ns_names s'.1) (ns_heap s'.1) t0 x) s.
Proof.
  intros Hi Hn Hf Hr Hx. eapply wp_conseq; [by eapply run_ops_spec|].
  intros out s' (Hl & _). apply (wext_nd _ _ (later_w _ _ Hl)), Hx.
Qed.

(** C10: [Put] on a valid tree leaves exactly the tree of the reference
    insertion, which is again red-black with the key bound to the new value,
    whether or not the key was present. *)
Theorem put_refines_insert r fuel k v t s :
  i64 (u64 r) = r -> delta_id ns_hor r -> (size t < fuel)%nat -> rbtree t -> holds r True s t ->
  wp (Put fuel k v) (fun _ s' => holds r True s' (tree_insert k v t) /\ is_Some (pt_root s'.2)) s /\
  rbtree (tree_insert k v t) /\ to_map (tree_insert k v t) = <[k := v]> (to_map t).
Proof.
  intros Hi Hn Hf Hrb Hh. split; [|by apply tree_insert_ok].
  eapply wp_conseq; [eapply (Put_spec r True) with (t := t); done|]. by intros ? s' (? & _ & ?).
Qed.

(** C11: [Delete] on a valid tree leaves exactly the tree of the reference
    deletion, again red-black, without the key; deleting an absent key changes
    nothing. *)
Theorem delete_refines_delete r fuel k t s :
  i64 (u64 r) = r -> delta_id ns_hor r -> (size t < fuel)%nat -> rbtree t -> holds r True s t ->
  wp (Delete fuel k) (fun _ s' => holds r True s' (tree_delete k t)) s /\
  rbtree (tree_delete k t) /\ to_map (tree_delete k t) = delete k (to_map t) /\
  (to_map t !! k = None -> tree_delete k t = t).
Proof.
  intros Hi Hn Hf Hrb Hh. pose proof (height_size t). destruct (tree_delete_ok k t Hrb). split_and!; try done.
  - eapply wp_conseq; [eapply (Delete_spec r True) with (t := t); try done; lia|]. by intros ? s' (? & _).
  - intros HE%descend_found; [|done]. unfold tree_delete.
    destruct (descend k t []) as [s0 fs]. simpl in HE. by subst.
Qed.

(** C12: [Get] answers [0] and the value of a bound key, [-ENOENT] and no value
    otherwise, and changes nothing; a descent of [2 log2 (n + 1) + 1] nodes is
    enough on a tree of [n] keys. *)
Theorem get_refines_lookup r fuel k t s :
  i64 (u64 r) = r -> delta_id ns_hor r -> rbtree t -> holds r True s t ->
  (2 * Nat.log2 (S (size t)) + 1 < fuel)%nat ->
  wp (Get fuel k) (fun res s' => holds r True s' t /\
    res = match to_map t !! k with Some v => (0, Some v) | None => (- ENOENT, None) end) s.
Proof.
  intros Hi Hn Hrb Hh Hf. pose proof Hrb as (_ & [b Hb] & Hbst).
  pose proof (rb_height _ _ Hb) as Hht. pose proof (rb_size _ _ Hb) as Hsz.
  apply Nat.log2_le_mono in Hsz. rewrite Nat.log2_pow2 in Hsz by lia.
  rewrite <- (lookup_find k t Hbst).
  eapply wp_conseq; [eapply (Get_spec r True) with (t := t); try done|].
  - destruct (is_red t); lia.
  - intros res s' (Hh' & Hl & ->). done.
Qed.

(** [Copy] brings the path of a key into the delta without changing what the
    tree holds. *)
Theorem copy_keeps_contents r fuel k t s :
  i64 (u64 r) = r -> delta_id ns_hor r -> (size t < fuel)%nat -> holds r True s t ->
  wp (Copy fuel k) (fun _ s' => holds r True s' t /\
    forall x t0, w_nd s.1 t0 x -> w_nd s'.1 t0 x) s.
Proof.
  intros Hi Hn Hf Hh. pose proof (height_size t).
  eapply wp_conseq; [eapply (Copy_spec r True) with (t := t); try done; lia|].
  intros ? s' (Hh' & Hl & _). split; [done|]. intros x t0. apply (wext_nd _ _ (later_w _ _ Hl)).
Qed.
End properties.

(** ** Concrete runs *)

#[export] Existing Instance lex_slice.
#[export] Existing Instance lex_slice_laws.

Lemma demo_id : delta_id mem_hor (-1).
Proof. split; [by vm_compute|]. by intros [? _]. Qed.

Definition demo_state : MemStore * PersistentTree := (mem_empty, mem_tree (-1)).

Lemma demo_represents : represents (-1) demo_state 0 ∅.
Proof.
  exists E. split_and!; [|done|done|by apply mem_holds, demo_id].
  split_and!; [done|by exists 0%nat; constructor|constructor].
Qed.

Definition demo_ops : list tree_op :=
  [DoPut "b" "1"; DoPut "a" "2"; DoPut "c" "3"; DoPut "b" "4"; DoDelete "a"; DoGet "a"; DoGet "b"]%string.

Lemma demo_run : eval (run_ops 100 demo_ops) demo_state = Some [(- ENOENT, None); (0, Some "4"%string)].
Proof. vm_compute. reflexivity. Qed.

Definition demo_tree : tree := T false (T true E "a" "1" E) "b" "2" E.

Lemma demo_tree_rb : rbtree demo_tree.
Proof.
  split; [done|]. split; [exists 1%nat; repeat constructor|].
  unfold bst. repeat constructor.
Qed.

(** A heap that holds [demo_tree], as an earlier snapshot left it. *)
Definition demo_heap : MemStore :=
  <[2%positive := mkNode (mkNodePtr (Some Nil) None true) (mkNodePtr (Some Nil) None true) "a" "1" true 7 true]>
  (<[3%positive := mkNode (mkNodePtr (Some 2%positive) (Some (make_address 7 0 true)) true)
      (mkNodePtr (Some Nil) None true) "b" "2" false 7 true]> mem_empty).

Definition demo_snapshot : MemStore * PersistentTree :=
  (demo_heap, new_tree true (mkNodePtr (Some 3%positive) (Some (make_address 7 1 true)) true) (-1)).

Lemma demo_denotes : w_nd (W := MemStore) demo_heap demo_tree 3%positive.
Proof.
  split; [done|]. eexists. split; [reflexivity|]. split_and!; try done.
  - split; [|intros _; split; [done|by eexists]]. split; [done|].
    eexists. split; [reflexivity|]. by split_and!.
Qed.

Lemma demo_holds P : holds (W := MemStore) (-1) P demo_snapshot demo_tree.
Proof.
  exists ∅, (DL demo_tree). split_and!; [|split; [constructor|]|done].
  - split; [|by apply tinv_empty].
    split; [reflexivity|]. intros l an Hl. by rewrite lookup_empty in Hl.
  - exists demo_tree. split; [done|]. split; [apply demo_denotes|]. intros _. split; [done|by eexists].
Qed.

Lemma transaction_refines_map_witness :
  represents (-1) demo_state 0 ∅ /\
  wp (run_ops 100 demo_ops) (fun out s' => out = fst (spec_ops demo_ops ∅) /\
    represents (-1) s' (0 + length demo_ops) (snd (spec_ops demo_ops ∅))) demo_state.
Proof.
  split; [exact demo_represents|].
  apply transaction_refines_map; [reflexivity|exact demo_id|simpl; lia|exact demo_represents].
Defined.

Lemma snapshots_persist_witness :
  w_nd (W := MemStore) demo_heap demo_tree 3%positive /\
  wp (run_ops 100 demo_ops) (fun _ s' => w_nd (W := MemStore) s'.1 demo_tree 3%positive) demo_snapshot.
Proof.
  split; [apply demo_denotes|].
  apply (snapshots_persist (W := MemStore) (-1) 100 demo_ops demo_snapshot 2 (to_map demo_tree));
    [reflexivity|exact demo_id|simpl; lia| |apply demo_denotes].
  exists demo_tree. split_and!; [exact demo_tree_rb|vm_compute; lia|done|apply demo_holds].
Defined.

Lemma put_refines_insert_witness :
  wp (Put 9 "ab" "3") (fun _ s' => holds (-1) True s' (tree_insert "ab" "3" demo_tree) /\ is_Some (pt_root s'.2))
    demo_snapshot /\
  rbtree (tree_insert "ab" "3" demo_tree) /\
  to_map (tree_insert "ab" "3" demo_tree) = <["ab"%string := "3"%string]> (to_map demo_tree).
Proof.
  apply put_refines_insert; [reflexivity|exact demo_id|vm_compute; lia|exact demo_tree_rb|apply demo_holds].
Defined.

Lemma delete_refines_delete_witness :
  wp (Delete 9 "b") (fun _ s' => holds (-1) True s' (tree_delete "b" demo_tree)) demo_snapshot /\
  rbtree (tree_delete "b" demo_tree) /\ to_map (tree_delete "b" demo_tree) = delete "b"%string (to_map demo_tree) /\
  (to_map demo_tree !! "b"%string = None -> tree_delete "b" demo_tree = demo_tree).
Proof.
  apply delete_refines_delete; [reflexivity|exact demo_id|vm_compute; lia|exact demo_tree_rb|apply demo_holds].
Defined.

Lemma get_refines_lookup_witness :
  wp (Get 9 "b") (fun res s' => holds (-1) True s' demo_tree /\
    res = match to_map demo_tree !! "b"%string with Some v => (0, Some v) | None => (- ENOENT, None) end)
    demo_snapshot.
Proof.
  apply get_refines_lookup; [reflexivity|exact demo_id|exact demo_tree_rb|apply demo_holds|vm_compute; lia].
Defined.

Lemma copy_keeps_contents_witness :
  wp (Copy 9 "a") (fun _ s' => holds (-1) True s' demo_tree /\
    forall x t0, w_nd (W := MemStore) demo_heap t0 x -> w_nd (W := MemStore) s'.1 t0 x) demo_snapshot.
Proof.
  apply (copy_keeps_contents (W := MemStore) (-1) 9 "a" demo_tree demo_snapshot);
    [reflexivity|exact demo_id|vm_compute; lia|apply demo_holds].
Defined.
