(* ===== verification/Infect.v ===== *)
(** Self pointers: what [infect_self_pointers] (src/src/db/persistent_tree.cc)
    makes of a delta.  Every node of the delta gets the offset it will have in
    the after image of the intention, which is its place in a postorder walk of
    the delta, and every pointer to it the address that says so. *)
From S2P Require Import Prelude Slice RBTree Node Proto PersistentTree Delta PathCopy TreeSpec.

(** ** The numbering *)

(** The nodes of the delta that a tree is made of. *)
Fixpoint dsize (d : dtree) : Z :=
  match d with DL _ => 0 | DN _ _ a _ _ b => dsize a + dsize b + 1 end.

(** Where a pointer field leads, its address aside. *)
Definition aims (p : aptr) (d : dtree) : Prop :=
  match d with
  | DL t => p = Old t \/ (t = E /\ p = Ref Nil)
  | DN l _ _ _ _ _ => p = Ref l \/ exists a, p = Self l a
  end.

(** A pointer field with its address: the root of [d] has offset [off], and the
    nodes of the delta have the addresses [addr] of their offsets. *)
Definition points_at (addr : Z -> NodeAddress) (p : aptr) (d : dtree) (off : Z) : Prop :=
  match d with
  | DL t => p = Old t \/ (t = E /\ p = Ref Nil)
  | DN l _ _ _ _ _ => p = Self l (addr off)
  end.

(** The pointers inside [d], whose nodes are numbered from [base] on. *)
Fixpoint numbered_at (δ : gmap loc anode) (addr : Z -> NodeAddress) (d : dtree) (base : Z) : Prop :=
  match d with
  | DL _ => True
  | DN l c a k v b =>
    exists pa pb, δ !! l = Some (AN c k v pa pb) /\
      points_at addr pa a (base + dsize a - 1) /\ points_at addr pb b (base + dsize a + dsize b - 1) /\
      numbered_at δ addr a base /\ numbered_at δ addr b (base + dsize a)
  end.

(** The addresses handed out, with the trees they stand for. *)
Fixpoint assigned_at (addr : Z -> NodeAddress) (d : dtree) (base : Z) (a : NodeAddress) (t : tree) : Prop :=
  match d with
  | DL _ => False
  | DN _ _ da _ _ db =>
    (a = addr (base + dsize d - 1) /\ t = erase d) \/
    assigned_at addr da base a t \/ assigned_at addr db (base + dsize da) a t
  end.

(** After infection: addresses by intention. *)
Definition by_intention (pos off : Z) : NodeAddress := make_address pos off false.

Lemma make_address_offset pos off b : 0 <= off < 2 ^ 16 -> Offset (make_address pos off b) = off.
Proof. intros Ho. simpl. unfold u16. by rewrite Z.mod_small. Qed.

Abbreviation points pos := (points_at (by_intention pos)).
Abbreviation numbered δ pos := (numbered_at δ (by_intention pos)).
Abbreviation assigned pos := (assigned_at (by_intention pos)).

Lemma dsize_nonneg d : 0 <= dsize d.
Proof. induction d; simpl; lia. Qed.

Lemma dsize_DN l c a k v b : 0 < dsize (DN l c a k v b).
Proof. simpl. pose proof (dsize_nonneg a). pose proof (dsize_nonneg b). lia. Qed.

Lemma points_aims addr p d off : points_at addr p d off -> aims p d.
Proof. destruct d; simpl; [done|]. intros ->. right. by eexists. Qed.

Lemma dt_aims δ p d : dt δ p d -> aims p d.
Proof. destruct d; simpl; [done|]. intros [-> _]. by left. Qed.

Lemma numbered_ext δ δ' addr d : forall base, (forall l, l ∈ dlocs d -> δ' !! l = δ !! l) ->
  numbered_at δ addr d base -> numbered_at δ' addr d base.
Proof.
  induction d as [t|l c a IHa k v b IHb]; intros base Hext; simpl; [done|].
  intros (pa & pb & Hl & Hpa & Hpb & Ha & Hb). exists pa, pb. simpl in Hext.
  rewrite Hext by set_solver. split_and!; try done; [apply IHa|apply IHb]; set_solver.
Qed.

Lemma numbered_locs δ addr d l : forall base, numbered_at δ addr d base -> l ∈ dlocs d -> is_Some (δ !! l).
Proof.
  induction d as [t|l' c a IHa k v b IHb]; intros base; simpl; [by intros _ ?%not_elem_of_nil|].
  intros (pa & pb & Hl & _ & _ & Ha & Hb) [->|[?|?]%elem_of_app]%elem_of_cons; [by eexists| |]; eauto.
Qed.

Section infect.
Context {W : Type} {NS : NodeStore W} {NSL : NodeStoreLaws W} {SC : SliceCompare} {SL : SliceLaws}.
Context (r : Z).
Hypothesis r_i64 : i64 (u64 r) = r.
Hypothesis r_nil : delta_id ns_hor r.

Abbreviation sinv := (sinv r False).
Abbreviation winv := (winv r).

(** The location a pointer to [d] leads to. *)
Definition lands (w : W) (d : dtree) (x : loc) : Prop :=
  match d with DL t => w_nd w t x | DN l _ _ _ _ _ => x = l end.

Lemma lands_mono w w' d x : wext w w' -> lands w d x -> lands w' d x.
Proof. intros He. destruct d; [apply He|done]. Qed.

Lemma twp_ref_child_aims δ l an sd d w : winv δ w -> δ !! l = Some an -> aims (an_child sd an) d ->
  twp (ref_child sd l) (fun y w' => winv δ w' /\ wext w w' /\ lands w' d y) w.
Proof.
  intros Hw Hl Hd. destruct (winv_lookup _ _ _ _ _ Hw Hl) as (n & Hn & Hm).
  assert (l <> Nil) as Hne by (eapply (delta_not_nil r r_nil); eauto).
  pose proof (w_node_child _ _ _ _ sd Hm) as Hp.
  assert ((exists x, ref_ (child sd n) = Some x /\ forall w', wext w w' -> lands w' d x) \/
          exists t, d = DL t /\ an_child sd an = Old t) as [(x & Hx & Hy)|(t & -> & Ht)].
  { destruct d as [t|l' c a k v b]; simpl in Hd.
    - destruct Hd as [?|[-> Hd]]; [by right; eauto|left]. rewrite Hd in Hp. destruct Hp as [Hp _]. by exists Nil.
    - left. exists l'. split; [|done]. destruct Hd as [E|[x E]]; rewrite E in Hp; apply Hp. }
  - eapply twp_conseq; [by eapply twp_ref_child_Ref|]. intros y w' (-> & ? & ?). eauto.
  - rewrite Ht in Hp. eapply twp_conseq; [by eapply (twp_ref_child_Old r)|]. by intros y w' (? & ? & ? & _).
Qed.

Lemma wp_ref_child_aims δ l an sd d s : sinv δ s -> δ !! l = Some an -> aims (an_child sd an) d ->
  wp (tm (ref_child sd l)) (fun y s' => sinv δ s' /\ sext s s' /\ lands s'.1 d y) s.
Proof.
  intros Hs Hl Hd. apply (wp_tm_inv r False _ δ δ (fun y w => lands w d y)); [done|done|].
  eapply twp_ref_child_aims; [apply Hs|done..].
Qed.

Lemma wp_ref_child_notrace_aims δ l an sd d s : sinv δ s -> δ !! l = Some an -> aims (an_child sd an) d ->
  wp (tm (ref_child_notrace sd l)) (fun y s' => sinv δ s' /\ sext s s' /\ lands s'.1 d y) s.
Proof.
  intros Hs Hl Hd. apply (wp_tm_inv r False _ δ δ (fun y w => lands w d y)); [done|done|].
  apply twp_notrace. eapply twp_ref_child_aims; [apply Hs|done..].
Qed.

(** The root id tells the delta's nodes from the others. *)
Lemma lands_case δ w d x : winv δ w -> lands w d x -> (forall l, l ∈ dlocs d -> is_Some (δ !! l)) ->
  match d with
  | DL t => (x = Nil <-> t = E) /\ exists n, ns_heap w !! x = Some n /\ rid_ n <> r
  | DN l _ _ _ _ _ => x = l /\ x <> Nil /\ exists n, ns_heap w !! x = Some n /\ rid_ n = r
  end.
Proof.
  intros Hw Hx Hd. destruct d as [t|l c a k v b].
  - split; [by apply (at_loc_E r r_nil δ w (DL t))|].
    destruct (at_loc_node r r_nil δ w (DL t) x Hw Hx) as (n & Hn & _ & Hr & _). exists n. split; [done|].
    intros E. apply Hr in E. apply (nd_not_delta r r_nil δ) in Hx; [|done]. rewrite Hx in E. by destruct E.
  - change (x = l) in Hx. subst x. destruct (Hd l) as [an Hl]; [by apply elem_of_cons; left|]. split; [done|].
    split; [eapply (delta_not_nil r r_nil); eauto|].
    destruct (winv_lookup _ _ _ _ _ Hw Hl) as (n & Hn & _ & _ & _ & Hr & _). by exists n.
Qed.

Lemma wp_rid_of (x : loc) n (Q : Z -> W * PersistentTree -> Prop) s :
  ns_heap s.1 !! x = Some n -> Q (rid_ n) s -> wp (tm (node_rid x)) Q s.
Proof. intros Hn HQ. by eapply (wp_read rid_). Qed.

(** ** One pointer *)

Lemma infect_node_ptr_spec δ pos l an sd d off s : sinv δ s -> δ !! l = Some an -> aims (an_child sd an) d ->
  (forall l, l ∈ dlocs d -> is_Some (δ !! l)) ->
  wp (infect_node_ptr pos l sd off) (fun _ s' => exists p, points pos p d off /\
    sinv (<[l := an_set_child sd p an]> δ) s' /\ sext s s') s.
Proof.
  intros Hs Hl Hd Hdom. unfold infect_node_ptr.
  apply wp_bind. eapply wp_conseq; [by eapply wp_ref_child_notrace_aims|]. intros x s1 (Hs1 & He1 & Hx).
  assert (forall s2 t, d = DL t -> sinv δ s2 -> sext s s2 -> exists p, points pos p d off /\
    sinv (<[l := an_set_child sd p an]> δ) s2 /\ sext s s2) as Hsame.
  { intros s2 t -> Hs2 He2. exists (an_child sd an). split; [exact Hd|]. split; [|done].
    rewrite insert_id; [done|]. rewrite Hl. f_equal. by destruct sd, an. }
  pose proof (lands_case δ s1.1 d x (proj1 Hs1) Hx Hdom) as Hc.
  destruct (decide (x = Nil)) as [->|Hne].
  { apply wp_ret. destruct d; [by eapply Hsame|]. destruct Hc as (_ & Hnil & _). congruence. }
  apply wp_bind. eapply wp_conseq; [by eapply wp_ref_child_aims|]. intros y s2 (Hs2 & He2 & Hy).
  assert (sext s s2) as He02 by (by etransitivity).
  pose proof (lands_case δ s2.1 d y (proj1 Hs2) Hy Hdom) as Hc2.
  destruct d as [t|l' c a k v b].
  - destruct Hc2 as (_ & n & Hn & Hr). apply wp_bind. eapply wp_rid_of; [done|]. apply wp_bind.
    eapply (wp_tree_rid r False); [done|]. rewrite decide_False by done. apply wp_ret. by eapply Hsame.
  - destruct Hc2 as (_ & _ & n & Hn & Hr). apply wp_bind. eapply wp_rid_of; [done|]. apply wp_bind.
    eapply (wp_tree_rid r False); [done|]. rewrite decide_True by done.
    apply wp_bind. eapply (wp_get_child r False); [done..|]. intros p [Hdb Hp].
    eapply wp_conseq; [eapply (wp_put_child r False r_nil δ l an sd _ (Self l' (make_address pos off false))); [done..|]|].
    { split; [done|]. simpl in Hd.
      destruct Hd as [E|[a' E]]; rewrite E in Hp; [destruct Hp as (Hp & Hlive)|destruct Hp as (Hp & Hlive & _)];
        (split; [exact Hp|split; [exact Hlive|done]]). }
    intros _ s3 [Hs3 He3]. exists (Self l' (make_address pos off false)). split_and!; [done|done|]. by etransitivity.
Qed.

(** ** The walk *)

Lemma infect_after_image_spec fuel pos : forall d base x δ s, (height (erase d) < fuel)%nat ->
  sinv δ s -> NoDup (dlocs d) -> at_loc δ s.1 d x ->
  wp (infect_after_image fuel x pos base) (fun i s' => i = base + dsize d /\ sext s s' /\
    exists δ', sinv δ' s' /\ numbered δ' pos d base /\
      (forall l, l ∉ dlocs d -> δ' !! l = δ !! l)) s.
Proof.
  induction fuel as [|fuel IH]; intros d base x δ s Hf Hs Hnd Hx; [lia|]. cbn [infect_after_image].
  pose proof Hs as [Hw _].
  destruct d as [t|l c a k v b].
  { assert (forall s', sinv δ s' -> sext s s' -> base = base + dsize (DL t) /\ sext s s' /\
      exists δ', sinv δ' s' /\ numbered δ' pos (DL t) base /\ (forall l, l ∉ dlocs (DL t) -> δ' !! l = δ !! l)) as Hdone.
    { intros s' ??. split_and!; [simpl; lia|done|]. by exists δ. }
    destruct (decide (x = Nil)) as [|Hxn]; [apply wp_ret; by apply Hdone|].
    destruct (lands_case δ s.1 (DL t) x Hw Hx) as (_ & n & Hn & Hr).
    { intros y Hy. by apply not_elem_of_nil in Hy. }
    apply wp_bind. eapply wp_rid_of; [done|]. apply wp_bind. eapply (wp_tree_rid r False); [done|].
    rewrite decide_True by done. apply wp_ret. by apply Hdone. }
  destruct Hx as [-> Hdt]. pose proof (dt_locs _ _ _ l Hdt ltac:(simpl; set_solver)) as Hlive.
  destruct Hdt as (_ & pa & pb & Hl & Ha & Hb). simpl in Hnd, Hf.
  apply NoDup_cons in Hnd as [Hlab (Hna & Hdis & Hnb)%NoDup_app].
  rewrite decide_False by (eapply (delta_not_nil r r_nil); eauto).
  destruct (winv_lookup _ _ _ _ _ Hw Hl) as (n & Hn & _ & _ & _ & Hr & _).
  apply wp_bind. eapply wp_rid_of; [done|]. apply wp_bind. eapply (wp_tree_rid r False); [done|].
  rewrite decide_False by (intros E; by apply E).
  (* left *)
  apply wp_bind. eapply wp_conseq; [by eapply (wp_ref_child r False r_nil δ l _ SideL a)|]. intros y s1 (Hs1 & He1 & Hy).
  apply wp_bind. eapply wp_conseq; [apply (IH a base y δ s1); [lia|done..]|].
  intros i s2 (-> & He2 & δ2 & Hs2 & Hnum & Hsame).
  assert (δ2 !! l = Some (AN c k v pa pb)) as Hl2 by (rewrite Hsame by set_solver; done).
  assert (dt δ2 pb b) as Hb2.
  { eapply dt_ext; [|done]. intros l' Hl'. apply Hsame. intros ?. by eapply Hdis. }
  (* right *)
  apply wp_bind. eapply wp_conseq; [by eapply (wp_ref_child r False r_nil δ2 l _ SideR b)|]. intros z s3 (Hs3 & He3 & Hz).
  apply wp_bind. eapply wp_conseq; [apply (IH b (base + dsize a) z δ2 s3); [lia|done..]|].
  intros i s4 (-> & He4 & δ4 & Hs4 & Hnumb & Hsame4).
  assert (δ4 !! l = Some (AN c k v pa pb)) as Hl4 by (rewrite Hsame4 by set_solver; done).
  assert (numbered δ4 pos a base) as Hnuma.
  { eapply numbered_ext; [|done]. intros l' Hl'. apply Hsame4. intros ?. by eapply Hdis. }
  (* the pointers of the node *)
  apply wp_bind. unfold infect_node. apply wp_bind. eapply wp_conseq.
  { eapply (infect_node_ptr_spec δ4 pos l _ SideL a); [done|done|by eapply dt_aims|].
    intros l' Hl'. by eapply numbered_locs. }
  intros [] s5 (pa' & Hpa' & Hs5 & He5). eapply wp_conseq.
  { eapply (infect_node_ptr_spec _ pos l _ SideR b); [exact Hs5|apply lookup_insert_eq|by eapply dt_aims|].
    intros l' Hl'. apply lookup_insert_is_Some'. right. by eapply numbered_locs; [exact Hnumb|]. }
  intros [] s6 (pb' & Hpb' & Hs6 & He6). apply wp_ret. rewrite insert_insert_eq in Hs6. simpl in Hs6.
  assert (forall δ' d' base', l ∉ dlocs d' -> numbered δ4 pos d' base' -> numbered (<[l:=δ']> δ4) pos d' base') as Hframe.
  { intros an d' base' Hnl. apply numbered_ext. intros l' Hl'. rewrite lookup_insert_ne; [done|]. by intros ->. }
  split_and!; [simpl; lia|by do 5 (etransitivity; [eassumption|])|].
  eexists. split; [exact Hs6|]. split.
  - exists pa', pb'. rewrite lookup_insert_eq. split_and!; [done|done|done| |]; apply Hframe; set_solver.
  - intros l' Hl'. simpl in Hl'. rewrite lookup_insert_ne by set_solver. rewrite Hsame4, Hsame by set_solver. done.
Qed.

(** ** The whole operation, on the tree a replay has built *)

Lemma wp_set_rid δ l an pos s : i64 pos = r -> sinv δ s -> δ !! l = Some an ->
  wp (tm (set_rid pos l)) (fun _ s' => sinv δ s' /\ sext s s') s.
Proof.
  intros Hpos Hs Hl. pose proof Hs as [Hw _].
  destruct (winv_lookup _ _ _ _ _ Hw Hl) as (n & Hn & Hm).
  eapply wp_conseq; [eapply (wp_tm_inv r False _ δ δ (fun _ _ => True) s Hs); [done|]|].
  - apply twp_bind, (twp_load _ n); [done|].
    apply twp_bind, twp_assert; [by rewrite (w_node_ro r _ _ _ Hm)|]. apply twp_store.
    destruct (winv_update r r_nil δ s.1 l an n an (with_rid (i64 pos) n) Hw Hl Hn) as [Hw' ?].
    + intros w' He (? & ? & ? & ? & ? & ? & ?). by split_and!.
    + rewrite insert_id in Hw' by done. by split_and!.
  - by intros _ s' (? & ? & _).
Qed.

Lemma set_fresh_rids_spec δ pos ns : forall s, i64 pos = r -> sinv δ s -> (forall x, x ∈ ns -> is_Some (δ !! x)) ->
  wp (set_fresh_rids pos true ns) (fun _ s' => sinv δ s' /\ sext s s') s.
Proof.
  induction ns as [|n ns IH]; intros s Hpos Hs Hns; [by apply wp_ret|]. cbn [set_fresh_rids].
  destruct (Hns n) as [an Hn]; [set_solver|].
  destruct (winv_lookup _ _ _ _ _ (proj1 Hs) Hn) as (m & Hm & _ & _ & _ & Hr & _).
  apply wp_bind. eapply wp_rid_of; [done|]. apply wp_bind, wp_assert; [apply Z.eqb_eq; congruence|].
  apply wp_bind. eapply wp_conseq; [by eapply wp_set_rid|]. intros [] s1 [Hs1 He1].
  eapply wp_conseq; [apply IH; [done|done|set_solver]|]. intros [] s2 [Hs2 He2]. split; [done|]. by etransitivity.
Qed.

(** The tree of a processed intention, as the object holds it. *)
Definition ready (pos : Z) (s : W * PersistentTree) (d : dtree) (x : loc) : Prop :=
  exists δ, sinv δ s /\ pt_root s.2 = Some x /\ head (dlocs d) = Some x /\ NoDup (dlocs d) /\ numbered δ pos d 0.

(** The numbering, once the delta and the tree have their new id. *)
Lemma infect_numbers_spec fuel pos δ d x s : i64 pos = r -> sinv δ s -> pt_root s.2 = Some x -> NoDup (dlocs d) -> dt δ (Ref x) d ->
  erase d <> E -> (height (erase d) < fuel)%nat ->
  wp ((if decide (x = Nil) then mret tt else rid ← tm (node_rid x); assert_that (rid =? i64 pos));;
      field_index ← infect_after_image fuel x pos 0;
      assert_that (0 <? field_index);;
      mret (Some (field_index - 1)))
    (fun o s' => exists d' x, erase d' = erase d /\ o = Some (dsize d' - 1) /\ 0 < dsize d' /\ ready pos s' d' x /\ sext s s') s.
Proof.
  intros Hpos Hs Hx Hnd Hd Hne Hf. destruct d as [t|l c a k v b].
  { simpl in Hd. destruct Hd as [?|[-> _]]; done. }
  pose proof Hd as (E & pa & pb & Hl & _). injection E as ->.
  destruct (winv_lookup _ _ _ _ _ (proj1 Hs) Hl) as (n & Hn & _ & _ & _ & Hrn & _).
  apply wp_bind. rewrite decide_False by (eapply (delta_not_nil r r_nil); [apply Hs|eauto]).
  apply wp_bind. eapply wp_rid_of; [done|]. apply wp_assert; [apply Z.eqb_eq; congruence|].
  apply wp_bind. eapply wp_conseq; [apply (infect_after_image_spec fuel pos (DN l c a k v b) 0 l δ s); [done..|by split]|].
  intros i s3 (-> & He3 & δ3 & Hs3 & Hnum & _). pose proof (dsize_DN l c a k v b) as Hpos'.
  apply wp_bind, wp_assert; [apply Z.ltb_lt; lia|]. apply wp_ret. exists (DN l c a k v b), l.
  split_and!; [done|f_equal; lia|done| |done].
  exists δ3. split_and!; [done| |done|done|done]. by rewrite (sext_root _ _ He3).
Qed.

Lemma infect_self_pointers_spec fuel pos t s : i64 pos = r -> holds r False s t -> t <> E -> is_Some (pt_root s.2) ->
  (height t < fuel)%nat ->
  wp (infect_self_pointers fuel pos true) (fun o s' => exists d x, erase d = t /\ o = Some (dsize d - 1) /\ 0 < dsize d /\
    ready pos s' d x /\ sext s s') s.
Proof.
  intros Hpos (δ & d & Hs & [Hnd Hd] & <-) Hne [x Hx] Hf. rewrite Hx in Hd. unfold infect_self_pointers.
  apply wp_bind, wp_get_tree, wp_bind. eapply wp_conseq.
  { apply (set_fresh_rids_spec δ); [done|done|]. intros y Hy. destruct (proj2 Hs) as (_ & _ & Hfr & _).
    destruct (Hfr y Hy) as [?|[_ []]]. done. }
  intros [] s1 [Hs1 He1]. destruct (proj2 Hs) as (Hr & _). apply wp_bind, wp_assert; [apply Z.eqb_eq; congruence|].
  apply wp_bind. apply wp_modify. set (s2 := let '(w, t) := s1 in _).
  assert (sinv δ s2 /\ sext s s2) as [Hs2 He2].
  { subst s2. destruct s1 as [w1 t1]. destruct Hs1 as [? (? & ? & ? & ?)]. destruct He1. simpl in *. by split. }
  rewrite Hx. eapply wp_conseq; [eapply (infect_numbers_spec fuel pos δ d x s2); try done; by rewrite (sext_root _ _ He2)|].
  intros o s3 (d' & y & Hd' & Ho & Hsz & Hready & He3). exists d', y. split_and!; try done. by etransitivity.
Qed.
End infect.

(** ** The tree of a transaction of this instance

    The nodes have the negative id of the transaction, and get the intention's. *)

Section own.
Context {W : Type} {NS : NodeStore W} {NSL : NodeStoreLaws W} {SC : SliceCompare} {SL : SliceLaws}.
Context (r r' : Z) (r_neg : r < 0) (r_nil : delta_id ns_hor r) (r_nil' : delta_id ns_hor r').

(** The nodes in [dn] have the new id. *)
Definition relabelled (δ : gmap loc anode) (dn : gset loc) (w : W) : Prop :=
  ns_inv w /\ forall l an, δ !! l = Some an -> exists n, ns_heap w !! l = Some n /\
    w_node (if decide (l ∈ dn) then r' else r) w n an.

Lemma relabel_one δ dn l an w n : relabelled δ dn w -> δ !! l = Some an -> l ∉ dn -> ns_heap w !! l = Some n ->
  relabelled δ ({[l]} ∪ dn) (set_node l (with_rid r' n) w) /\ wext w (set_node l (with_rid r' n) w).
Proof.
  intros [Hi Hn] Hl Hd Hm. destruct (Hn l an Hl) as (m & Hm' & Hw). rewrite Hm in Hm'. injection Hm' as <-.
  rewrite decide_False in Hw by done. pose proof Hw as (Hc & Hk & Hv & Hr & Hro & Hfl & Hfr).
  assert (wext w (set_node l (with_rid r' n) w)) as He by (by eapply (wext_delta r)).
  assert (l <> Nil) as Hne.
  { intros ->. rewrite (ns_nil _ Hi) in Hm. injection Hm as <-. destruct r_nil as [Hr0 _]. congruence. }
  split; [|done]. split.
  - apply (winv_set r ∅ ∅ l (with_rid r' n) an w); [|done|done|done|done|by right; apply lookup_empty].
    split; [done|]. intros y b Hy. by rewrite lookup_empty in Hy.
  - intros y b Hy. rewrite set_node_heap. destruct (decide (y = l)) as [->|Hyl].
    + rewrite lookup_insert_eq, decide_True by set_solver. exists (with_rid r' n). split; [done|].
      rewrite Hl in Hy. injection Hy as <-. split_and!; try done; by eapply w_field_mono.
    + rewrite lookup_insert_ne by done. destruct (Hn y b Hy) as (m & Hm' & Hwm). exists m. split; [done|].
      assert (y ∈ {[l]} ∪ dn <-> y ∈ dn) as Hiff by set_solver.
      destruct (decide (y ∈ {[l]} ∪ dn)), (decide (y ∈ dn)); try tauto; by eapply w_node_mono.
Qed.

Lemma set_fresh_rids_own δ pos ns : i64 pos = r' -> forall s dn, NoDup ns -> relabelled δ dn s.1 ->
  (forall x, x ∈ ns -> is_Some (δ !! x) /\ x ∉ dn) ->
  wp (set_fresh_rids pos false ns) (fun _ s' => relabelled δ (list_to_set ns ∪ dn) s'.1 /\ wext s.1 s'.1 /\
    exists tr, s'.2 = with_trace tr s.2) s.
Proof.
  intros Hpos. induction ns as [|x ns IH]; intros s dn Hnd Hr Hns.
  { apply wp_ret. split_and!; [by rewrite list_to_set_nil, union_empty_l_L|done|]. exists (pt_trace s.2). by destruct s.2. }
  apply NoDup_cons in Hnd as [Hx Hnd]. cbn [set_fresh_rids]. destruct (Hns x) as [[an Hl] Hd]; [by left|].
  destruct (proj2 Hr x an Hl) as (n & Hn & Hw). pose proof Hw as (_ & _ & _ & Hrid & Hro & _). rewrite decide_False in Hrid by done.
  apply wp_bind. eapply (wp_read rid_); [done|]. apply wp_bind, wp_assert; [apply Z.ltb_lt; lia|].
  destruct (relabel_one δ dn x an s.1 n Hr Hl Hd Hn) as [Hr1 He1].
  apply wp_bind. eapply (wp_tm _ _ (fun _ w => w = set_node x (with_rid r' n) s.1)).
  { apply twp_bind, (twp_load _ n); [done|]. apply twp_bind, twp_assert; [by rewrite Hro|]. rewrite Hpos. by apply twp_store. }
  intros [] w tr ->. eapply wp_conseq; [apply (IH _ ({[x]} ∪ dn)); [done|done|]|].
  { intros y Hy. destruct (Hns y) as [? Hyd]; [by right|]. split; [done|]. intros [->%elem_of_singleton|?]%elem_of_union; done. }
  intros [] s' (Hr' & He' & tr' & Ht'). split_and!; [|by etransitivity|by exists tr'].
  replace (list_to_set (x :: ns) ∪ dn) with (list_to_set ns ∪ ({[x]} ∪ dn) : gset loc) by (rewrite list_to_set_cons; set_solver). done.
Qed.

(** [infect_self_pointers] on it. *)
Lemma infect_own_spec fuel pos t s : i64 pos = r' -> i64 (u64 r') = r' -> holds r False s t -> t <> E -> is_Some (pt_root s.2) -> (height t < fuel)%nat ->
  wp (infect_self_pointers fuel pos false) (fun o s' => exists d x, erase d = t /\ o = Some (dsize d - 1) /\ 0 < dsize d /\
    ready r' pos s' d x /\ later s s') s.
Proof.
  intros Hpos Hi' (δ & d & [Hw (Hr & Hdb & Hf & Hk)] & [Hnd Hd] & <-) Hne [x Hx] Hfu. rewrite Hx in Hd. unfold infect_self_pointers.
  destruct Hk as [[]|[Hfnd Hk]]. apply wp_bind, wp_get_tree, wp_bind. eapply wp_conseq.
  { apply (set_fresh_rids_own δ pos _ Hpos _ ∅); [done| |].
    - split; [apply Hw|]. intros l an Hl. rewrite decide_False by set_solver. by apply Hw.
    - intros y Hy. split; [|set_solver]. by destruct (Hf y Hy) as [?|[_ []]]. }
  intros [] s1 (Hr1 & He1 & tr & Ht1). apply wp_bind, wp_assert; [apply Z.ltb_lt; lia|].
  apply wp_bind. apply wp_modify. set (s2 := let '(w, t) := s1 in _).
  assert (s2 = (s1.1, with_tree_rid r' (with_trace tr s.2))) as E2 by (subst s2; destruct s1; simpl in *; by rewrite Ht1, Hpos).
  rewrite E2, Hx. assert (sinv r' False δ (s1.1, with_tree_rid r' (with_trace tr s.2))) as Hs2.
  { split; [|split_and!; [done|done|exact Hf|by right]]. split; [apply Hr1|]. intros l an Hl.
    destruct (proj2 Hr1 l an Hl) as (n & Hn & Hwn). exists n. split; [done|]. rewrite decide_True in Hwn; [done|].
    apply elem_of_union. left. apply elem_of_list_to_set, Hk. by eexists. }
  eapply wp_conseq; [apply (infect_numbers_spec r' Hi' r_nil' fuel pos δ d x); done|].
  intros o s3 (d' & y & Hd' & Ho & Hsz & Hready & He3). exists d', y. split_and!; try done. apply sext_later in He3.
  etransitivity; [|exact He3]. by split.
Qed.
End own.
