(* ===== verification/Intention.v ===== *)
(** Intentions: src/src/db/intention.h, the operations a transaction writes to
    the log, and the key sets its conflicts are decided on. *)
From S2P Require Import Prelude Proto.

Record Intention : Type := mkIntention {
  intention_ : ProtoIntention;
  pos_ : option Z;
}.

Definition new_intention (snapshot token : Z) : Intention :=
  mkIntention (mkProtoIntention snapshot token false []) None.

Definition intention_at (p : ProtoIntention) (pos : Z) : Intention := mkIntention p (Some pos).

Definition add_op (op : TransactionOp) (i : Intention) : Intention :=
  let p := intention_ i in
  mkIntention (mkProtoIntention (pi_snapshot p) (pi_token p) (pi_flush p) (pi_ops p ++ [op])) (pos_ i).

Definition unpositioned (i : Intention) : bool := bool_decide (pos_ i = None).

Section ops.
Context {S : Type}.

Definition Intention_Get (key : string) (i : Intention) : M S Intention :=
  assert_that (unpositioned i);; mret (add_op (mkTransactionOp GET key None) i).
Definition Intention_Put (key value : string) (i : Intention) : M S Intention :=
  assert_that (unpositioned i);; mret (add_op (mkTransactionOp PUT key (Some value)) i).
Definition Intention_Delete (key : string) (i : Intention) : M S Intention :=
  assert_that (unpositioned i);; mret (add_op (mkTransactionOp DELETE key None) i).
Definition Intention_Copy (key : string) (i : Intention) : M S Intention :=
  assert_that (unpositioned i);; mret (add_op (mkTransactionOp COPY key None) i).

Definition Flush (i : Intention) : bool := pi_flush (intention_ i).
Definition Snapshot (i : Intention) : Z := pi_snapshot (intention_ i).
Definition Token (i : Intention) : Z := pi_token (intention_ i).

(** One round of the loop of [Serialize] over the operations. *)
Definition check_copying (copying : option bool) (op : TransactionOp) : M S (option bool) :=
  if decide (op_op op = COPY) then
    let copying := default true copying in
    assert_that copying;; mret (Some copying)
  else
    let copying := default false copying in
    assert_that (negb copying);; mret (Some copying).

Fixpoint check_ops (copying : option bool) (ops : list TransactionOp) : M S (option bool) :=
  match ops with
  | [] => mret copying
  | op :: ops => copying ← check_copying copying op; check_ops copying ops
  end.

Definition set_flush (f : bool) (i : Intention) : Intention :=
  let p := intention_ i in
  mkIntention (mkProtoIntention (pi_snapshot p) (pi_token p) f (pi_ops p)) (pos_ i).

(** The serialized blob is the message itself: the log entry, and the intention
    with its flush flag set. *)
Definition Serialize (i : Intention) : M S (LogEntry * Intention) :=
  assert_that (unpositioned i);;
  copying ← check_ops None (pi_ops (intention_ i));
  match copying with
  | None => fail
  | Some c =>
    let i := set_flush c i in
    mret (mkLogEntry INTENTION (Some (intention_ i)) None, i)
  end.

(** [begin()] .. [end()]. *)
Definition Intention_ops (i : Intention) : M S (list TransactionOp) :=
  assert_that (negb (unpositioned i));; mret (pi_ops (intention_ i)).

Definition Position (i : Intention) : M S Z :=
  match pos_ i with Some pos => mret pos | None => fail end.

Definition SetPosition (pos : Z) (i : Intention) : M S Intention :=
  assert_that (unpositioned i);; mret (mkIntention (intention_ i) (Some pos)).

End ops.

Definition OpKeys (i : Intention) : gset string :=
  list_to_set (op_key <$> pi_ops (intention_ i)).

Definition is_update (op : TransactionOp) : bool :=
  match op_op op with PUT | DELETE => true | _ => false end.

Definition UpdateOpKeys (i : Intention) : gset string :=
  list_to_set (op_key <$> filter is_update (pi_ops (intention_ i))).

(** ** Lemmas *)

Lemma elem_of_OpKeys i k : k ∈ OpKeys i <-> exists op, op ∈ pi_ops (intention_ i) /\ op_key op = k.
Proof. unfold OpKeys. rewrite elem_of_list_to_set, list_elem_of_fmap. naive_solver. Qed.

Lemma elem_of_UpdateOpKeys i k : k ∈ UpdateOpKeys i <->
  exists op, op ∈ pi_ops (intention_ i) /\ is_update op = true /\ op_key op = k.
Proof.
  unfold UpdateOpKeys. rewrite elem_of_list_to_set, list_elem_of_fmap.
  setoid_rewrite list_elem_of_filter. split.
  - intros (op & -> & Hu & Ho). exists op. split_and!; [done|by apply Is_true_true|done].
  - intros (op & Ho & Hu & <-). exists op. split_and!; [done|by apply Is_true_true|done].
Qed.

Definition is_copy (op : TransactionOp) : bool := bool_decide (op_op op = COPY).

(** The common kind of the operations, when they have one. *)
Definition uniform (ops : list TransactionOp) : option bool :=
  match ops with
  | [] => None
  | op :: ops => if forallb (fun o => Bool.eqb (is_copy o) (is_copy op)) ops then Some (is_copy op) else None
  end.

Lemma check_ops_Some {S} b ops (s : S) :
  check_ops (Some b) ops s =
    if forallb (fun o => Bool.eqb (is_copy o) b) ops then Ok (Some b, s) else AssertFail.
Proof.
  induction ops as [|op ops IH]; simpl; [done|].
  unfold check_copying, mbind, M_bind, is_copy.
  destruct (decide (op_op op = COPY)) as [E|E]; [rewrite (bool_decide_eq_true_2 _ E)|rewrite (bool_decide_eq_false_2 _ E)];
    destruct b; simpl; auto.
Qed.

Lemma check_ops_None {S} op ops (s : S) : check_ops None (op :: ops) s = check_ops (Some (is_copy op)) ops s.
Proof.
  simpl. unfold check_copying, mbind, M_bind, is_copy.
  destruct (decide (op_op op = COPY)) as [E|E]; [rewrite (bool_decide_eq_true_2 _ E)|rewrite (bool_decide_eq_false_2 _ E)]; done.
Qed.

Lemma check_ops_uniform {S} ops (s : S) : ops <> [] ->
  check_ops None ops s = match uniform ops with Some c => Ok (Some c, s) | None => AssertFail end.
Proof.
  destruct ops as [|op ops]; [done|]. intros _. rewrite check_ops_None, check_ops_Some. simpl. by destruct (forallb _ ops).
Qed.

Lemma Serialize_ok {S} i c (s : S) : unpositioned i = true -> uniform (pi_ops (intention_ i)) = Some c ->
  Serialize i s = Ok (mkLogEntry INTENTION (Some (intention_ (set_flush c i))) None, set_flush c i, s).
Proof.
  intros Hu Hc. unfold Serialize, mbind, M_bind, assert_that. rewrite Hu, check_ops_uniform, Hc; [done|].
  intros E. by rewrite E in Hc.
Qed.

(** [Serialize] succeeds exactly on an intention that has no log position
    yet and whose operations are non-empty and do not mix copies with reads and
    updates; it then marks it a flush intention iff they are copies. *)
Theorem Serialize_checks {S} i (s : S) :
  Serialize i s =
    if unpositioned i then
      match uniform (pi_ops (intention_ i)) with
      | Some c => Ok (mkLogEntry INTENTION (Some (intention_ (set_flush c i))) None, set_flush c i, s)
      | None => AssertFail
      end
    else AssertFail.
Proof.
  destruct (unpositioned i) eqn:Hu; [|unfold Serialize, mbind, M_bind, assert_that; by rewrite Hu].
  destruct (uniform (pi_ops (intention_ i))) as [c|] eqn:Hc; [by apply Serialize_ok|].
  unfold Serialize, mbind, M_bind, assert_that. rewrite Hu.
  destruct (pi_ops (intention_ i)) as [|op ops]; [done|]. by rewrite check_ops_uniform, Hc.
Qed.
