(* ===== verification/Transaction.v ===== *)
(** Transactions: src/src/db/transaction_impl.h and transaction_impl.cc, and the
    replay of an intention (src/src/db/db_impl.cc, [ReplayIntention]). *)
From S2P Require Import Prelude Slice RBTree Node Proto PersistentTree Delta PathCopy.
From S2P Require Import TreeSpec MemStore TransactionTree Intention.

Record TransactionImpl : Type := mkTransactionImpl {
  tx_token : Z;
  tx_tree : option PersistentTree;        (* unique_ptr: null once moved out *)
  tx_intention : option Intention;
  tx_committed : bool;
}.

Definition with_tx_tree (t : option PersistentTree) (tx : TransactionImpl) : TransactionImpl :=
  mkTransactionImpl (tx_token tx) t (tx_intention tx) (tx_committed tx).
Definition with_tx_intention (i : option Intention) (tx : TransactionImpl) : TransactionImpl :=
  mkTransactionImpl (tx_token tx) (tx_tree tx) i (tx_committed tx).
Definition with_committed (tx : TransactionImpl) : TransactionImpl :=
  mkTransactionImpl (tx_token tx) (tx_tree tx) (tx_intention tx) true.

(** The constructor; [db] is whether the database pointer is non-null. *)
Definition new_transaction {S} (db : bool) (root : NodePtr) (snapshot rid token : Z) : M S TransactionImpl :=
  let tree := new_tree db root rid in
  assert_that (pt_rid tree <? 0);;
  mret (mkTransactionImpl token (Some tree) (Some (new_intention snapshot token)) false).

Section transaction.
Context {W : Type} `{NodeStore W} `{SliceCompare}.

Definition XM : Type -> Type := M (W * TransactionImpl).

(** [tree_->op(...)] *)
Definition on_tree {A} (m : M (W * PersistentTree) A) : XM A := fun '(w, tx) =>
  match tx_tree tx with
  | None => AssertFail
  | Some t =>
    match m (w, t) with
    | Ok (a, (w', t')) => Ok (a, (w', with_tx_tree (Some t') tx))
    | AssertFail => AssertFail
    | OutOfFuel => OutOfFuel
    end
  end.

(** [intention_->op(...)] *)
Definition on_intention (m : Intention -> XM Intention) : XM unit := fun s =>
  match tx_intention s.2 with
  | None => AssertFail
  | Some i =>
    match m i s with
    | Ok (i', (w', tx')) => Ok (tt, (w', with_tx_intention (Some i') tx'))
    | AssertFail => AssertFail
    | OutOfFuel => OutOfFuel
    end
  end.

Definition tx_open : XM unit :=
  '(_, tx) ← get;
  assert_that (negb (bool_decide (tx_tree tx = None)) && negb (bool_decide (tx_intention tx = None)) &&
    negb (tx_committed tx)).

Definition tx_Get (fuel : nat) (key : string) : XM (Z * option string) :=
  tx_open;;
  on_intention (Intention_Get key);;
  on_tree (GetPrefixed fuel PREFIX_USER key).

Definition tx_PutPrefixed (fuel : nat) (prefix key value : string) : XM unit :=
  tx_open;;
  let prefixed_key := prefix_string prefix key in
  on_intention (Intention_Put prefixed_key value);;
  on_tree (Put fuel prefixed_key value).

Definition tx_Put (fuel : nat) (key value : string) : XM unit :=
  tx_PutPrefixed fuel PREFIX_USER key value.

Definition tx_Delete (fuel : nat) (key : string) : XM unit :=
  tx_open;;
  on_intention (Intention_Delete key);;
  on_tree (DeletePrefixed fuel PREFIX_USER key).

(** [complete] stands for [db_->CompleteTransaction(this)] of DBImpl.v. *)
Definition tx_Commit (complete : XM bool) : XM bool :=
  '(_, tx) ← get;
  match tx_tree tx with
  | None => fail
  | Some tree =>
    assert_that (negb (tx_committed tx));;
    modify (fun '(w, tx) => (w, with_committed tx));;
    if ReadOnly tree then mret true else complete
  end.

(** [GetIntention()] and [Tree()] move the members out. *)
Definition GetIntention : XM (option Intention) := '(_, tx) ← get;
  modify (fun '(w, tx) => (w, with_tx_intention None tx));; mret (tx_intention tx).
Definition Tree : XM (option PersistentTree) := '(_, tx) ← get;
  modify (fun '(w, tx) => (w, with_tx_tree None tx));; mret (tx_tree tx).

(** ** Replay *)

Definition replay_op (fuel : nat) (op : TransactionOp) : PM unit :=
  match op_op op with
  | GET => assert_that (bool_decide (op_val op = None))
  | PUT => match op_val op with None => fail | Some v => Put fuel (op_key op) v end
  | DELETE =>
    assert_that (bool_decide (op_val op = None));;
    DeletePrefixed fuel PREFIX_USER (op_key op)
  | COPY =>
    assert_that (bool_decide (op_val op = None));;
    Copy fuel (op_key op)
  end.

Fixpoint replay_ops (fuel : nat) (ops : list TransactionOp) : PM unit :=
  match ops with
  | [] => mret tt
  | op :: ops => replay_op fuel op;; replay_ops fuel ops
  end.

Definition ReplayIntention (fuel : nat) (i : Intention) : PM unit :=
  ops ← Intention_ops i;
  replay_ops fuel ops.
End transaction.

(** ** The calls a client makes, and what they record *)

Inductive user_op : Type :=
| UGet (key : string)
| UPut (key value : string)
| UDelete (key : string).

Definition recorded (op : user_op) : TransactionOp :=
  match op with
  | UGet k => mkTransactionOp GET k None
  | UPut k v => mkTransactionOp PUT (prefix_string PREFIX_USER k) (Some v)
  | UDelete k => mkTransactionOp DELETE k None
  end.

Definition on_prefixed (op : user_op) : tree_op :=
  match op with
  | UGet k => DoGet (prefix_string PREFIX_USER k)
  | UPut k v => DoPut (prefix_string PREFIX_USER k) v
  | UDelete k => DoDelete (prefix_string PREFIX_USER k)
  end.

(** What replaying an operation does to the database. *)
Definition op_ok (op : TransactionOp) : Prop :=
  match op_op op with PUT => is_Some (op_val op) | _ => op_val op = None end.

Definition op_writes (op : TransactionOp) : option string :=
  match op_op op with
  | PUT => Some (op_key op)
  | DELETE => Some (prefix_string PREFIX_USER (op_key op))
  | _ => None
  end.

Definition op_spec (m : gmap string string) (op : TransactionOp) : gmap string string :=
  match op_op op with
  | PUT => <[op_key op := default "" (op_val op)]> m
  | DELETE => delete (prefix_string PREFIX_USER (op_key op)) m
  | _ => m
  end.

Definition ops_spec (ops : list TransactionOp) (m : gmap string string) : gmap string string := foldl op_spec m ops.

Lemma recorded_ok op : op_ok (recorded op).
Proof. destruct op; by try eexists. Qed.

Lemma op_spec_recorded op m : op_spec m (recorded op) = spec_op (on_prefixed op) m.
Proof. by destruct op. Qed.

Lemma ops_spec_recorded us : forall m, ops_spec (recorded <$> us) m = snd (spec_ops (on_prefixed <$> us) m).
Proof.
  induction us as [|op us IH]; intros m; [done|]. rewrite !fmap_cons. unfold ops_spec. simpl.
  rewrite op_spec_recorded. specialize (IH (spec_op (on_prefixed op) m)). unfold ops_spec in IH. rewrite IH.
  by destruct (spec_ops _ _).
Qed.

Lemma op_spec_other op m k : op_writes op <> Some k -> op_spec m op !! k = m !! k.
Proof.
  unfold op_writes, op_spec. destruct (op_op op); intros Hk; [done| | |done].
  - rewrite lookup_insert_ne; congruence.
  - rewrite lookup_delete_ne; congruence.
Qed.

Lemma ops_spec_other ops k : forall m, Forall (fun op => op_writes op <> Some k) ops -> ops_spec ops m !! k = m !! k.
Proof.
  induction ops as [|op ops IH]; intros m Hk; [done|]. apply Forall_cons in Hk as [Hop Hk].
  unfold ops_spec. simpl. rewrite <- (op_spec_other op m k Hop). by apply IH.
Qed.

(** The abstract database of user keys. *)
Fixpoint user_spec (ops : list user_op) (u : gmap string string) : list (Z * option string) * gmap string string :=
  match ops with
  | [] => ([], u)
  | UGet k :: ops => let '(out, u') := user_spec ops u in (spec_get u k :: out, u')
  | UPut k v :: ops => user_spec ops (<[k := v]> u)
  | UDelete k :: ops => user_spec ops (delete k u)
  end.

(** [u] is the part of [m] under the user prefix. *)
Definition user_view (m u : gmap string string) : Prop :=
  forall k, m !! prefix_string PREFIX_USER k = u !! k.

Lemma user_view_insert m u k v : user_view m u -> user_view (<[prefix_string PREFIX_USER k := v]> m) (<[k := v]> u).
Proof.
  intros H k'. destruct (decide (k' = k)) as [->|Hne]; [by rewrite !lookup_insert_eq|].
  rewrite !lookup_insert_ne by (done || by intros ?%prefix_string_inj). apply H.
Qed.

Lemma user_view_delete m u k : user_view m u -> user_view (delete (prefix_string PREFIX_USER k) m) (delete k u).
Proof.
  intros H k'. destruct (decide (k' = k)) as [->|Hne]; [by rewrite !lookup_delete_eq|].
  rewrite !lookup_delete_ne by (done || by intros ?%prefix_string_inj). apply H.
Qed.

Lemma spec_ops_user ops : forall m u, user_view m u ->
  fst (spec_ops (on_prefixed <$> ops) m) = fst (user_spec ops u) /\
  user_view (snd (spec_ops (on_prefixed <$> ops) m)) (snd (user_spec ops u)).
Proof.
  induction ops as [|op ops IH]; intros m u H; [done|]. destruct op as [k|k v|k]; simpl.
  - destruct (IH m u H) as [H1 H2]. destruct (spec_ops _ m), (user_spec ops u). simpl in *.
    split; [|done]. f_equal; [|done]. unfold spec_get. by rewrite H.
  - destruct (IH _ _ (user_view_insert m u k v H)) as [H1 H2]. by destruct (spec_ops _ _).
  - destruct (IH _ _ (user_view_delete m u k H)) as [H1 H2]. by destruct (spec_ops _ _).
Qed.

Section client.
Context {W : Type} {NS : NodeStore W} {SC : SliceCompare}.

Definition user_call (fuel : nat) (op : user_op) : XM (list (Z * option string)) :=
  match op with
  | UGet k => x ← tx_Get fuel k; mret [x]
  | UPut k v => tx_Put fuel k v;; mret []
  | UDelete k => tx_Delete fuel k;; mret []
  end.

Fixpoint run_user (fuel : nat) (ops : list user_op) : XM (list (Z * option string)) :=
  match ops with
  | [] => mret []
  | op :: ops => x ← user_call fuel op; out ← run_user fuel ops; mret (x ++ out)
  end.
End client.

(** ** Execution and replay *)

Section refinement.
Context {W : Type} {NS : NodeStore W} {NSL : NodeStoreLaws W} {SC : SliceCompare} {SL : SliceLaws}.

(** An open transaction of token [tok], with the intention [h] recorded, on a tree
    for the map [m]; with [P] false the tree was never emptied. *)
Definition open_with (r : Z) (P : Prop) (n : nat) (h : ProtoIntention) (tok : Z) (m : gmap string string)
    (s : W * TransactionImpl) : Prop :=
  exists t, tx_tree s.2 = Some t /\ tx_intention s.2 = Some (mkIntention h None) /\ tx_committed s.2 = false /\
    tx_token s.2 = tok /\ represents_with r P (s.1, t) n m.

(** One that has recorded [ops]. *)
Definition open_txn (r : Z) (n : nat) (ops : list TransactionOp) (m : gmap string string)
    (s : W * TransactionImpl) : Prop :=
  exists h tok, pi_ops h = ops /\ open_with r True n h tok m s.

Definition add_ops (ops : list TransactionOp) (h : ProtoIntention) : ProtoIntention :=
  mkProtoIntention (pi_snapshot h) (pi_token h) (pi_flush h) (pi_ops h ++ ops).

Lemma add_ops_nil h : add_ops [] h = h.
Proof. destruct h. unfold add_ops. simpl. by rewrite app_nil_r. Qed.

Lemma wp_on_tree {A} (m : PM A) (Q : A -> W * TransactionImpl -> Prop) w tx t :
  tx_tree tx = Some t -> wp m (fun a '(w', t') => Q a (w', with_tx_tree (Some t') tx)) (w, t) ->
  wp (on_tree m) Q (w, tx).
Proof.
  intros Ht. unfold wp, on_tree. rewrite Ht. by destruct (m (w, t)) as [[a [w' t']]| |].
Qed.

(** The prologue every operation shares: the transaction is open, and the
    operation is recorded before it runs. *)
Lemma wp_record {A} (m : Intention -> XM Intention) (f : XM A) op (Q : A -> W * TransactionImpl -> Prop) w tx t i :
  tx_tree tx = Some t -> tx_intention tx = Some i -> tx_committed tx = false ->
  m i (w, tx) = Ok (add_op op i, (w, tx)) ->
  wp f Q (w, with_tx_intention (Some (add_op op i)) tx) ->
  wp (tx_open;; on_intention m;; f) Q (w, tx).
Proof.
  intros Ht Hi Hc Hm Hf. apply wp_bind. unfold tx_open. apply wp_bind, wp_get.
  apply wp_assert; [by rewrite Ht, Hi, Hc|]. apply wp_bind. unfold wp at 1, on_intention. simpl.
  by rewrite Hi, Hm.
Qed.

Lemma open_with_next r P n h tok m op w' t' tx : tx_committed tx = false -> tx_token tx = tok ->
  represents_with r P (w', t') n m ->
  open_with r P n (add_ops [op] h) tok m
    (w', with_tx_tree (Some t') (with_tx_intention (Some (add_op op (mkIntention h None))) tx)).
Proof. intros Hc Ht Hr. by exists t'. Qed.

(** What a client's calls leave of the tree: as long as it has no root of its own,
    the map is the snapshot's. *)
Definition calls_later (s s' : W * TransactionImpl) (m m' : gmap string string) : Prop :=
  exists t t', tx_tree s.2 = Some t /\ tx_tree s'.2 = Some t' /\ later (s.1, t) (s'.1, t') /\ (pt_root t' = None -> m' = m).

Lemma calls_later_trans s1 s2 s3 m1 m2 m3 : calls_later s1 s2 m1 m2 -> calls_later s2 s3 m2 m3 -> calls_later s1 s3 m1 m3.
Proof.
  intros (t1 & t2 & Ht1 & Ht2 & Hl & Hm) (t2' & t3 & Ht2' & Ht3 & Hl' & Hm'). rewrite Ht2 in Ht2'. injection Ht2' as <-.
  exists t1, t3. split_and!; [done|done|by etransitivity|]. intros Hn. rewrite Hm' by done. apply Hm.
  apply eq_None_not_Some. intros Hs%(later_root _ _ Hl'). simpl in Hs. rewrite Hn in Hs. by destruct Hs.
Qed.

(** One call of a client. *)
Lemma user_call_spec r P fuel op s n h tok m : i64 (u64 r) = r -> delta_id ns_hor r -> (n < fuel)%nat ->
  (forall k, op_writes (recorded op) = Some k -> spared P m k) ->
  open_with r P n h tok m s -> wp (user_call fuel op) (fun out s' =>
    out = fst (spec_ops [on_prefixed op] m) /\
    open_with r P (S n) (add_ops [recorded op] h) tok (spec_op (on_prefixed op) m) s' /\
    calls_later s s' m (spec_op (on_prefixed op) m)) s.
Proof.
  intros Hi Hn Hf Hsp (t & Ht & Hin & Hc & Htok & Hr). destruct s as [w tx]. simpl in *.
  assert (forall op', (assert_that (unpositioned (mkIntention h None));; mret (add_op op' (mkIntention h None))) (w, tx) =
    Ok (add_op op' (mkIntention h None), (w, tx))) as Hrec by done.
  destruct op as [k|k v|k]; simpl; apply wp_bind.
  - eapply wp_record; [done..|by apply Hrec|]. eapply wp_on_tree; [done|].
    eapply wp_conseq; [by eapply Get_map|]. intros x [w' t'] (Hr' & Hl & ->). apply wp_ret.
    split_and!; [done| |by exists t, t']. eapply open_with_next; [done..|]. eapply represents_weaken, Hr'. lia.
  - eapply wp_record; [done..|by apply Hrec|]. eapply wp_on_tree; [done|].
    eapply wp_conseq; [eapply Put_map; [done..|by apply Hsp|done]|]. intros x [w' t'] (Hroot & Hr' & Hl). apply wp_ret.
    split_and!; [done|by eapply open_with_next|]. exists t, t'. split_and!; try done.
    intros E. simpl in Hroot. rewrite E in Hroot. by destruct Hroot.
  - eapply wp_record; [done..|by apply Hrec|]. eapply wp_on_tree; [done|].
    eapply wp_conseq; [eapply Delete_map; [done..|by apply Hsp|done]|]. intros x [w' t'] (Hr' & Hl & Hroot). apply wp_ret.
    split_and!; [done| |by exists t, t']. eapply open_with_next; [done..|]. eapply represents_weaken, Hr'. lia.
Qed.

(** The calls of a client; the tree is never emptied if some key is written by none. *)
Lemma client_calls_spec r P fuel us : forall s n h tok m, i64 (u64 r) = r -> delta_id ns_hor r ->
  (n + length us < fuel)%nat ->
  P \/ (exists k, is_Some (m !! k) /\ Forall (fun op => op_writes op <> Some k) (recorded <$> us)) -> open_with r P n h tok m s ->
  wp (run_user fuel us) (fun out s' => out = fst (spec_ops (on_prefixed <$> us) m) /\
    open_with r P (n + length us) (add_ops (recorded <$> us) h) tok (snd (spec_ops (on_prefixed <$> us) m)) s' /\
    calls_later s s' m (snd (spec_ops (on_prefixed <$> us) m))) s.
Proof.
  induction us as [|op us IH]; intros s n h tok m Hi Hn Hf Hk Ho.
  { apply wp_ret. simpl. rewrite add_ops_nil, Nat.add_0_r. split_and!; [done|done|]. destruct Ho as (t & Ht & _). by exists t, t. }
  simpl in Hf. cbn [run_user]. apply wp_bind. eapply wp_conseq; [apply (user_call_spec r P fuel op s n h tok m); try done; [lia|]|].
  { intros k Hw. destruct Hk as [?|(k' & Hs & [Hk' _]%Forall_cons)]; [by left|]. right. exists k'. split; [congruence|done]. }
  intros x s1 (-> & Ho1 & Hl1). apply wp_bind. eapply wp_conseq; [eapply (IH s1 (S n)); [done|done|lia| |exact Ho1]|].
  { destruct Hk as [?|(k & Hs & [Hk Hks]%Forall_cons)]; [by left|]. right. exists k. split; [|done].
    by rewrite <- op_spec_recorded, op_spec_other. }
  intros out s2 (-> & Ho2 & Hl2). apply wp_ret. rewrite !fmap_cons. cbn [spec_ops length].
  replace (n + S (length us))%nat with (S n + length us)%nat by lia.
  pose proof (calls_later_trans _ _ _ _ _ _ Hl1 Hl2) as Hl.
  unfold add_ops in Ho2. simpl in Ho2. rewrite <- app_assoc in Ho2. destruct (spec_ops (on_prefixed <$> us) _) as [o2 m2].
  simpl in *. split_and!; [by destruct op|exact Ho2|exact Hl].
Qed.

Lemma run_user_spec r fuel us s n ops m : i64 (u64 r) = r -> delta_id ns_hor r ->
  (n + length us < fuel)%nat -> open_txn r n ops m s ->
  wp (run_user fuel us) (fun out s' => out = fst (spec_ops (on_prefixed <$> us) m) /\
    open_txn r (n + length us) (ops ++ (recorded <$> us)) (snd (spec_ops (on_prefixed <$> us) m)) s') s.
Proof.
  intros Hi Hn Hf (h & tok & <- & Ho). eapply wp_conseq; [apply (client_calls_spec r True fuel us s n h tok m); try done; by left|].
  intros out s' (-> & Ho' & _). split; [done|]. by exists (add_ops (recorded <$> us) h), tok.
Qed.

(** Replaying an operation has the effect it says; the tree is never emptied if
    some key is written by none. *)
Lemma replay_op_spec r P fuel op s n m : i64 (u64 r) = r -> delta_id ns_hor r -> (n < fuel)%nat -> op_ok op ->
  (forall k, op_writes op = Some k -> spared P m k) -> represents_with r P s n m ->
  wp (replay_op fuel op) (fun _ s' => represents_with r P s' (S n) (op_spec m op) /\ later s s') s.
Proof.
  intros Hi Hn Hf Hok Hsp Hr. unfold op_ok in Hok. unfold replay_op, op_spec.
  assert (represents_with r P s (S n) m) as Hr1 by (eapply represents_weaken, Hr; lia).
  unfold op_writes in Hsp. destruct (op_op op).
  - apply wp_assert; [by apply bool_decide_eq_true|]. done.
  - destruct Hok as [v ->]. eapply wp_conseq; [eapply Put_map; [done..|by apply Hsp|done]|]. by intros ? s' (_ & ? & ?).
  - apply wp_bind, wp_assert; [by apply bool_decide_eq_true|]. eapply wp_conseq; [eapply Delete_map; [done..|by apply Hsp|done]|].
    intros ? s' (? & ? & _). split; [|done]. eapply represents_weaken; [|done]. lia.
  - apply wp_bind, wp_assert; [by apply bool_decide_eq_true|]. eapply wp_conseq; [by apply Copy_map|].
    intros ? s' [? ?]. split; [|done]. eapply represents_weaken; [|done]. lia.
Qed.

Lemma replay_ops_spec r P fuel ops : forall s n m, i64 (u64 r) = r -> delta_id ns_hor r ->
  (n + length ops < fuel)%nat -> Forall op_ok ops ->
  P \/ (exists k, is_Some (m !! k) /\ Forall (fun op => op_writes op <> Some k) ops) -> represents_with r P s n m ->
  wp (replay_ops fuel ops) (fun _ s' => represents_with r P s' (n + length ops) (ops_spec ops m) /\ later s s') s.
Proof.
  induction ops as [|op ops IH]; intros s n m Hi Hn Hf Hok Hk Hr.
  { apply wp_ret. simpl. by rewrite Nat.add_0_r. }
  simpl in Hf. apply Forall_cons in Hok as [Hop Hok]. apply wp_bind. eapply wp_conseq.
  { eapply (replay_op_spec r P fuel op s n m); try done; [lia|]. intros k Hw.
    destruct Hk as [?|(k' & Hs & [Hk' _]%Forall_cons)]; [by left|]. right. exists k'. split; [congruence|done]. }
  intros [] s1 [Hr1 Hl1]. eapply wp_conseq; [apply (IH s1 (S n) (op_spec m op)); try done; [lia|]|].
  - destruct Hk as [?|(k & Hs & [Hk Hks]%Forall_cons)]; [by left|]. right. exists k. by rewrite op_spec_other.
  - intros [] s2 [Hr2 Hl2]. simpl. replace (n + S (length ops))%nat with (S n + length ops)%nat by lia.
    split; [done|]. by etransitivity.
Qed.

Lemma ReplayIntention_spec r P fuel i s n m : i64 (u64 r) = r -> delta_id ns_hor r ->
  (n + length (pi_ops (intention_ i)) < fuel)%nat -> is_Some (pos_ i) -> Forall op_ok (pi_ops (intention_ i)) ->
  P \/ (exists k, is_Some (m !! k) /\ Forall (fun op => op_writes op <> Some k) (pi_ops (intention_ i))) ->
  represents_with r P s n m ->
  wp (ReplayIntention fuel i) (fun _ s' =>
    represents_with r P s' (n + length (pi_ops (intention_ i))) (ops_spec (pi_ops (intention_ i)) m) /\ later s s') s.
Proof.
  intros Hi Hn Hf [p Hp] Hok Hk Hr. apply wp_bind, wp_bind, wp_assert; [|by apply wp_ret, replay_ops_spec].
  unfold unpositioned. rewrite Hp. by rewrite bool_decide_eq_false_2.
Qed.
End refinement.

(** ** Properties *)

Section properties.
Context {W : Type} {NS : NodeStore W} {NSL : NodeStoreLaws W} {SC : SliceCompare} {SL : SliceLaws}.

(** C13: the calls of a client on an open transaction behave as the same calls
    on a finite map of user keys: the results agree, and the tree ends with the
    updated user keys (the other prefixes are untouched views of the map). *)
Theorem client_refines_user_map r fuel us s n ops m u :
  i64 (u64 r) = r -> delta_id ns_hor r -> (n + length us < fuel)%nat ->
  open_txn r n ops m s -> user_view m u ->
  wp (run_user fuel us) (fun out s' => out = fst (user_spec us u) /\
    exists m', open_txn r (n + length us) (ops ++ (recorded <$> us)) m' s' /\
      user_view m' (snd (user_spec us u))) s.
Proof.
  intros Hi Hn Hf Ho Hu. destruct (spec_ops_user us m u Hu) as [H1 H2].
  eapply wp_conseq; [by eapply run_user_spec|]. intros out s' (-> & Ho'). split; [done|]. eauto.
Qed.

(** C14: replay equivalence. Whatever a client does in a transaction, replaying
    the intention it recorded on any other tree for the same snapshot leaves a
    tree for the same map as the transaction's own tree; so the processor may
    use either. *)
Theorem replay_equals_execution r r' fuel us s n m pos :
  i64 (u64 r) = r -> delta_id ns_hor r -> i64 (u64 r') = r' -> delta_id ns_hor r' ->
  (n + length us < fuel)%nat -> open_txn r n [] m s ->
  wp (run_user fuel us) (fun _ s' => exists t i m', tx_tree s'.2 = Some t /\ tx_intention s'.2 = Some i /\
    represents r (s'.1, t) (n + length us) m' /\
    forall s2, represents r' s2 n m ->
      wp (ReplayIntention fuel (intention_at (intention_ i) pos))
        (fun _ s2' => represents r' s2' (n + length us) m') s2) s.
Proof.
  intros Hi Hn Hi' Hn' Hf Ho. eapply wp_conseq; [by apply (run_user_spec r fuel us s n [] m)|].
  intros out s' (_ & h & tok & Hops & t & Ht & Hin & _ & _ & Hr). set (i := mkIntention h None) in *.
  exists t, i, (snd (spec_ops (on_prefixed <$> us) m)). split_and!; try done.
  intros s2 Hr2. rewrite <- ops_spec_recorded. rewrite app_nil_l in Hops. eapply wp_conseq.
  { apply (ReplayIntention_spec r' True fuel (intention_at (intention_ i) pos) s2 n m); try done; simpl; rewrite Hops.
    - by rewrite length_fmap.
    - apply Forall_fmap, Forall_true. intros op. apply recorded_ok.
    - by left. }
  simpl. rewrite Hops, length_fmap. by intros ? s2' [? _].
Qed.
End properties.

Definition intention_of (us : list user_op) : Intention :=
  mkIntention (mkProtoIntention 0 0 false (recorded <$> us)) (Some 0).

Lemma prefix_string_ne p k : p <> ""%string -> prefix_string p k <> k.
Proof.
  intros Hp E. apply (f_equal String.length) in E. unfold prefix_string in E.
  assert (forall a b, String.length (a ++ b)%string = (String.length a + String.length b)%nat) as Hl.
  { induction a; simpl; auto. }
  rewrite Hl in E. destruct p; [done|]. simpl in E. lia.
Qed.

(** the key sets do not meet where they should. [Put] records the key with
    the user prefix, [Get] and [Delete] record it without, so a transaction that
    read a key never conflicts with a concurrent one that overwrote it, nor one
    that put a key with one that deleted it; only put-put and
    get-delete conflicts on the same key are seen. *)
Theorem conflict_key_sets k v v' :
  OpKeys (intention_of [UGet k]) ## UpdateOpKeys (intention_of [UPut k v]) /\
  OpKeys (intention_of [UPut k v]) ## UpdateOpKeys (intention_of [UDelete k]) /\
  ~ OpKeys (intention_of [UPut k v]) ## UpdateOpKeys (intention_of [UPut k v']) /\
  ~ OpKeys (intention_of [UGet k]) ## UpdateOpKeys (intention_of [UDelete k]).
Proof.
  pose proof (prefix_string_ne PREFIX_USER k) as Hne. unfold OpKeys, UpdateOpKeys. simpl.
  split_and!.
  - set_unfold. naive_solver.
  - set_unfold. naive_solver.
  - intros Hd. apply (Hd (prefix_string PREFIX_USER k)); set_solver.
  - intros Hd. apply (Hd k); set_solver.
Qed.

Definition demo_txn : MemStore * TransactionImpl :=
  (mem_empty, mkTransactionImpl 5 (Some (mem_tree (-1))) (Some (new_intention 0 5)) false).

Lemma demo_open : open_txn (-1) 0 [] ∅ demo_txn.
Proof.
  exists (mkProtoIntention 0 5 false []), 5. split; [done|]. exists (mem_tree (-1)). split_and!; try done. apply demo_represents.
Qed.

Definition demo_user : list user_op := [UPut "a" "1"; UGet "a"; UDelete "a"; UPut "b" "2"]%string.

Lemma client_refines_user_map_witness :
  wp (run_user 50 demo_user) (fun out s' => out = fst (user_spec demo_user ∅) /\
    exists m', open_txn (-1) (0 + length demo_user) ([] ++ (recorded <$> demo_user)) m' s' /\
      user_view m' (snd (user_spec demo_user ∅))) demo_txn.
Proof.
  apply (client_refines_user_map (-1) 50 demo_user demo_txn 0 [] ∅ ∅);
    [reflexivity|exact demo_id|simpl; lia|exact demo_open|done].
Defined.

Lemma replay_equals_execution_witness :
  wp (run_user 50 demo_user) (fun _ s' => exists t i m', tx_tree s'.2 = Some t /\ tx_intention s'.2 = Some i /\
    represents (-1) (s'.1, t) (0 + length demo_user) m' /\
    forall s2 : MemStore * PersistentTree, represents 9 s2 0 ∅ ->
      wp (ReplayIntention 50 (intention_at (intention_ i) 9))
        (fun _ s2' => represents 9 s2' (0 + length demo_user) m') s2) demo_txn.
Proof.
  apply (replay_equals_execution (-1) 9 50 demo_user demo_txn 0 ∅ 9);
    [reflexivity|exact demo_id|reflexivity|split; [by vm_compute|by intros [_ ?]]|simpl; lia|exact demo_open].
Defined.
