(* ===== verification/Iterator.v ===== *)
(** Iterators over a snapshot: src/src/db/iterator_impl.h and iterator_impl.cc.
    The raw iterator is a stack of nodes that refines a cursor on the sorted
    list of entries; the prefix iterators are built on it. *)
From S2P Require Import Prelude Slice RBTree Node Proto PersistentTree Delta.

Inductive Direction : Type := Forward | Reverse.

#[export] Instance Direction_eq_dec : EqDecision Direction.
Proof. solve_decision. Defined.

(** [it_root] is [snapshot_->root]; [it_trace] the trace of the innermost
    [IteratorTraceApplier] alive; [dir] is not set by the constructor. *)
Record RawIteratorImpl : Type := mkRawIterator {
  stack_ : list loc;
  dir : option Direction;
  it_root : NodePtr;
  it_trace : list NodeAddress;
}.

Definition new_raw_iterator (root : NodePtr) : RawIteratorImpl := mkRawIterator [] None root [].

Definition with_stack (s : list loc) (it : RawIteratorImpl) : RawIteratorImpl :=
  mkRawIterator s (dir it) (it_root it) (it_trace it).
Definition with_dir (d : Direction) (it : RawIteratorImpl) : RawIteratorImpl :=
  mkRawIterator (stack_ it) (Some d) (it_root it) (it_trace it).
Definition with_it_root (p : NodePtr) (it : RawIteratorImpl) : RawIteratorImpl :=
  mkRawIterator (stack_ it) (dir it) p (it_trace it).
Definition with_it_trace (tr : list NodeAddress) (it : RawIteratorImpl) : RawIteratorImpl :=
  mkRawIterator (stack_ it) (dir it) (it_root it) tr.

Section iterator.
Context {W : Type} `{NodeStore W} `{SliceCompare}.

Definition IM : Type -> Type := M (W * RawIteratorImpl).

Definition itm {A} (m : TM A) : IM A :=
  zoom (fun '(w, it) => (w, it_trace it)) (fun '(w, tr) '(_, it) => (w, with_it_trace tr it)) m.

Definition get_it : IM RawIteratorImpl := '(_, it) ← get; mret it.
Definition set_it (f : RawIteratorImpl -> RawIteratorImpl) : IM unit := modify (fun '(w, it) => (w, f it)).

(** An [IteratorTraceApplier] around a call: a trace of its own, handed to the
    cache when the call returns. *)
Definition IteratorTraceApplier {A} (m : IM A) : IM A :=
  it ← get_it;
  let outer := it_trace it in
  set_it (with_it_trace []);;
  a ← m;
  modify (fun '(w, it) => (ns_update_lru (it_trace it) w, with_it_trace outer it));;
  mret a.

Definition Valid : IM bool := it ← get_it; mret (negb (bool_decide (stack_ it = []))).

Definition push (x : loc) : IM unit := set_it (fun it => with_stack (x :: stack_ it) it).

Definition snapshot_root : IM loc :=
  it ← get_it;
  '(x, p) ← itm (ref (it_root it));
  set_it (with_it_root p);;
  mret x.

(** All the way to one side, pushing every node. *)
Fixpoint push_spine (fuel : nat) (s : side) (node : loc) : IM unit :=
  match fuel with
  | O => no_fuel
  | S fuel =>
    if decide (node = Nil) then mret tt
    else
      push node;;
      next ← itm (ref_child s node);
      push_spine fuel s next
  end.

Definition SeekToFirst (fuel : nat) : IM unit :=
  IteratorTraceApplier (
  set_it (with_stack []);;
  node ← snapshot_root;
  push_spine fuel SideL node;;
  set_it (with_dir Forward)).

Definition SeekToLast (fuel : nat) : IM unit :=
  IteratorTraceApplier (
  set_it (with_stack []);;
  node ← snapshot_root;
  push_spine fuel SideR node;;
  set_it (with_dir Reverse)).

(** The search loops: [keep] is the side whose descents push the node. *)
Fixpoint seek_loop (fuel : nat) (keep : side) (key : string) (node : loc) : IM unit :=
  match fuel with
  | O => no_fuel
  | S fuel =>
    if decide (node = Nil) then mret tt
    else
      k ← itm (node_key node);
      let cmp := slice_compare key k in
      if cmp =? 0 then push node
      else
        let s := if cmp <? 0 then SideL else SideR in
        (if decide (s = keep) then push node else mret tt);;
        next ← itm (ref_child s node);
        seek_loop fuel keep key next
  end.

(** [assert(stack_.empty() || test (stack_.top()->key().compare(key)))] *)
Definition assert_top (test : Z -> bool) (key : string) : IM unit :=
  it ← get_it;
  match stack_ it with
  | [] => mret tt
  | x :: _ => k ← itm (node_key x); assert_that (test (slice_compare k key))
  end.

Definition Seek (fuel : nat) (key : string) : IM unit :=
  IteratorTraceApplier (
  set_it (with_stack []);;
  node ← snapshot_root;
  seek_loop fuel SideL key node;;
  assert_top (fun c => 0 <=? c) key;;
  set_it (with_dir Forward)).

Definition SeekForward (fuel : nat) (key : string) : IM unit :=
  IteratorTraceApplier (
  set_it (with_stack []);;
  node ← snapshot_root;
  seek_loop fuel SideL key node;;
  assert_top (fun c => c =? 0) key;;
  set_it (with_dir Forward)).

Definition SeekPrevious (fuel : nat) (key : string) : IM unit :=
  IteratorTraceApplier (
  set_it (with_stack []);;
  node ← snapshot_root;
  seek_loop fuel SideR key node;;
  assert_top (fun c => c =? 0) key;;
  set_it (with_dir Reverse)).

Definition top : IM loc :=
  it ← get_it;
  match stack_ it with [] => fail | x :: _ => mret x end.

Definition key : IM string := x ← top; itm (node_key x).
Definition value : IM string := x ← top; itm (node_val x).

(** [Next] and [Prev] mirror each other: leave the top on side [s], after turning
    the iterator round if it was going the other way. *)
Definition advance_to (fuel : nat) (s : side) (other d : Direction) (turn : string -> IM unit) : IM unit :=
  IteratorTraceApplier (
  top;;
  it ← get_it;
  (if decide (dir it = Some other) then
     k ← key;
     turn k;;
     it ← get_it;
     assert_that (bool_decide (dir it = Some d))
   else mret tt);;
  x ← top;
  node ← itm (ref_child s x);
  set_it (fun it => with_stack (tail (stack_ it)) it);;
  push_spine fuel (flip s) node).

Definition Next (fuel : nat) : IM unit := advance_to fuel SideR Reverse Forward (SeekForward fuel).
Definition Prev (fuel : nat) : IM unit := advance_to fuel SideL Forward Reverse (SeekPrevious fuel).

(** ** Prefix iterators *)

(** [key.size() > n && key[n] == '\0' && memcmp(key, prefix, n) == 0] *)
Definition in_prefix (prefix k : string) : bool :=
  (String.length prefix <? String.length k)%nat &&
  match String.get (String.length prefix) k with
  | Some c => bool_decide (c = Ascii.zero) && bool_decide (substring 0 (String.length prefix) k = prefix)
  | None => false
  end.

Definition Prefix_Valid (prefix : string) : IM bool :=
  v ← Valid;
  if (v : bool) then k ← key; mret (in_prefix prefix k) else mret false.

Definition Prefix_SeekToFirst (fuel : nat) (prefix : string) : IM unit := Seek fuel prefix.

Definition Prefix_SeekToLast (fuel : nat) (prefix : string) : IM unit :=
  let past := (prefix ++ String Ascii.one "")%string in
  Seek fuel past;;
  v ← Prefix_Valid prefix;
  if (v : bool) then Prev fuel else SeekToLast fuel.

Definition Prefix_Seek (fuel : nat) (prefix target : string) : IM unit :=
  Seek fuel (prefix_string prefix target).

(** [key.remove_prefix(prefix_.size() + 1)], on a valid position *)
Definition Filtered_key (prefix : string) : IM string :=
  k ← key;
  let n := (String.length prefix + 1)%nat in
  mret (substring n (String.length k - n) k).
End iterator.
