(* ===== verification/IteratorSpec.v ===== *)
(** The raw iterator refines a cursor on the sorted entries of the snapshot:
    every call sequence returns, fails or becomes invalid as the cursor does. *)
From S2P Require Import Prelude Slice RBTree Node Proto PersistentTree Delta PathCopy.
From S2P Require Import MemStore TransactionTree Iterator.

(** ** Stacks of subtrees *)

(** What a tree on the stack still has to offer, going towards [s]: its root,
    then the subtree on that side. *)
Definition entries_on (s : side) (t : tree) : list (string * string) :=
  match t with
  | E => []
  | T _ l k v r => (k, v) :: match s with SideR => elements r | SideL => rev (elements l) end
  end.
Definition pending (s : side) (ts : list tree) : list (string * string) := concat (entries_on s <$> ts).

(** The elements in the order of a walk towards [s]. *)
Definition walk (s : side) (t : tree) : list (string * string) :=
  match s with SideR => elements t | SideL => rev (elements t) end.

Fixpoint spine (s : side) (t : tree) (ts : list tree) : list tree :=
  match t with
  | E => ts
  | T _ l _ _ r => spine s (match s with SideL => l | SideR => r end) (t :: ts)
  end.

Fixpoint seek (keep : side) (key : string) (t : tree) (ts : list tree) : list tree :=
  match t with
  | E => ts
  | T _ l k _ r =>
    match String.compare key k with
    | Eq => t :: ts
    | Lt => seek keep key l (if decide (SideL = keep) then t :: ts else ts)
    | Gt => seek keep key r (if decide (SideR = keep) then t :: ts else ts)
    end
  end.

Lemma pending_cons s t ts : pending s (t :: ts) = entries_on s t ++ pending s ts.
Proof. done. Qed.

(** Going down one side leaves the walk towards the other side pending. *)
Lemma pending_spine s t : forall ts, pending (flip s) (spine s t ts) = walk (flip s) t ++ pending (flip s) ts.
Proof.
  induction t as [|c l IHl k v r IHr]; intros ts; [by destruct s|].
  destruct s; cbn [spine flip] in *.
  - rewrite IHl, pending_cons. simpl. by rewrite <- app_assoc.
  - rewrite IHr, pending_cons. simpl. rewrite rev_app_distr. simpl. by rewrite <- !app_assoc.
Qed.

Definition from (key : string) (l : list (string * string)) : list (string * string) :=
  filter (fun kv => ~ slt kv.1 key) l.
Definition upto (key : string) (l : list (string * string)) : list (string * string) :=
  filter (fun kv => ~ slt key kv.1) l.

Lemma Forall_keys (Q : string -> Prop) (l : list (string * string)) : Forall Q l.*1 <-> Forall (fun kv => Q kv.1) l.
Proof. apply Forall_fmap. Qed.

Lemma from_all key l : Forall (slt key) l.*1 -> from key l = l.
Proof. rewrite Forall_keys. intros H. apply filter_all. eapply Forall_impl; [exact H|]. intros x ? ?. by eapply slt_asym. Qed.
Lemma from_none key l : Forall (fun k => slt k key) l.*1 -> from key l = [].
Proof. rewrite Forall_keys. intros H. apply filter_none. eapply Forall_impl; [exact H|]. naive_solver. Qed.
Lemma upto_all key l : Forall (fun k => slt k key) l.*1 -> upto key l = l.
Proof. rewrite Forall_keys. intros H. apply filter_all. eapply Forall_impl; [exact H|]. intros x ? ?. by eapply slt_asym. Qed.
Lemma upto_none key l : Forall (slt key) l.*1 -> upto key l = [].
Proof. rewrite Forall_keys. intros H. apply filter_none. eapply Forall_impl; [exact H|]. naive_solver. Qed.

Lemma pending_seek_forward key t : bst t -> forall ts,
  pending SideR (seek SideL key t ts) = from key (elements t) ++ pending SideR ts.
Proof.
  induction t as [|c l IHl k v r IHr]; intros Hb ts; [done|].
  apply bst_node in Hb as (Hl & Hr & Fl & Fr). simpl. unfold from. rewrite filter_app.
  destruct (String.compare key k) eqn:Ek.
  - apply String.compare_eq_iff in Ek as ->. rewrite pending_cons. simpl.
    rewrite filter_cons_True by apply slt_irrefl. fold (from k (elements l)) (from k (elements r)).
    by rewrite from_none, from_all.
  - rewrite IHl by done. rewrite pending_cons. simpl. rewrite filter_cons_True.
    2: { intros Hs. by apply (slt_asym key k). }
    fold (from key (elements l)) (from key (elements r)).
    rewrite (from_all key (elements r)) by (by forall_trans Fr). by rewrite <- app_assoc.
  - apply compare_gt_slt in Ek. rewrite IHr by done. simpl.
    rewrite filter_cons_False by (simpl; tauto). fold (from key (elements l)) (from key (elements r)).
    rewrite (from_none key (elements l)); [done|]. by forall_trans Fl.
Qed.

Lemma pending_seek_backward key t : bst t -> forall ts,
  pending SideL (seek SideR key t ts) = rev (upto key (elements t)) ++ pending SideL ts.
Proof.
  induction t as [|c l IHl k v r IHr]; intros Hb ts; [done|].
  apply bst_node in Hb as (Hl & Hr & Fl & Fr). simpl. unfold upto. rewrite filter_app, rev_app_distr.
  destruct (String.compare key k) eqn:Ek.
  - apply String.compare_eq_iff in Ek as ->. rewrite pending_cons. simpl.
    rewrite filter_cons_True by apply slt_irrefl. fold (upto k (elements l)) (upto k (elements r)).
    by rewrite upto_none, upto_all.
  - rewrite IHl by done. simpl. rewrite filter_cons_False by (simpl; tauto).
    fold (upto key (elements l)) (upto key (elements r)).
    rewrite (upto_none key (elements r)); [done|]. by forall_trans Fr.
  - apply compare_gt_slt in Ek. rewrite IHr by done. rewrite pending_cons. simpl. rewrite filter_cons_True.
    2: { intros Hs. by apply (slt_asym k key). }
    fold (upto key (elements l)) (upto key (elements r)).
    rewrite (upto_all key (elements l)) by (by forall_trans Fl). simpl. by rewrite <- !app_assoc.
Qed.

(** ** The abstract cursor *)

Definition facing (d : Direction) : side := match d with Forward => SideR | Reverse => SideL end.

(** The entries strictly past [key] towards [s], nearest first. *)
Definition beyond (s : side) (key : string) (l : list (string * string)) : list (string * string) :=
  match s with
  | SideR => filter (fun kv => slt key kv.1) l
  | SideL => rev (filter (fun kv => slt kv.1 key) l)
  end.

Inductive it_op : Type := ItFirst | ItLast | ItSeek (key : string) | ItNext | ItPrev.

(** A cursor on the sorted list of entries: [None] is an invalid position. *)
Definition spec_it (l : list (string * string)) (op : it_op) (c : option (string * string)) :
    res (option (string * string)) :=
  match op, c with
  | ItFirst, _ => Ok (head l)
  | ItLast, _ => Ok (last l)
  | ItSeek k, _ => Ok (head (from k l))
  | ItNext, Some (k, _) => Ok (head (beyond SideR k l))
  | ItPrev, Some (k, _) => Ok (head (beyond SideL k l))
  | (ItNext | ItPrev), None => AssertFail
  end.

Fixpoint spec_its (l : list (string * string)) (ops : list it_op) (c : option (string * string)) :
    res (list (option (string * string))) :=
  match ops with
  | [] => Ok []
  | op :: ops => c' ← spec_it l op c; out ← spec_its l ops c'; Ok (c' :: out)
  end.

Lemma pending_head s t ts c l k v r : t = T c l k v r -> exists rest, pending s (t :: ts) = (k, v) :: rest.
Proof. intros ->. rewrite pending_cons. simpl. eauto. Qed.

Lemma sorted_split (k v : string) (l1 l2 : list (string * string)) :
  StronglySorted slt ((l1 ++ (k, v) :: l2).*1 : list string) ->
  Forall (fun x => slt x k) (l1.*1) /\ Forall (slt k) (l2.*1).
Proof.
  induction l1 as [|x l1 IH]; simpl.
  - by intros [_ ?]%StronglySorted_inv.
  - intros [? HF]%StronglySorted_inv. destruct IH as [? ?]; [done|]. split; [|done].
    constructor; [|done]. rewrite fmap_app, fmap_cons in HF. simpl in HF.
    apply Forall_app in HF as [_ HF]. by apply Forall_inv in HF.
Qed.

(** What follows an entry of the walk is what lies beyond its key. *)
Lemma walk_split s t pre k v rest : bst t -> walk s t = pre ++ (k, v) :: rest -> rest = beyond s k (elements t).
Proof.
  intros Hb Hw. destruct s; simpl in *.
  - apply (f_equal (@rev _)) in Hw. rewrite rev_involutive, rev_app_distr in Hw. simpl in Hw.
    rewrite <- app_assoc in Hw. simpl in Hw. unfold bst, keys in Hb. rewrite Hw in *.
    apply sorted_split in Hb as [H1 H2]. rewrite filter_app, filter_cons_False by apply slt_irrefl.
    rewrite filter_all by (by apply Forall_keys in H1).
    rewrite filter_none, app_nil_r by (apply Forall_keys in H2; eapply Forall_impl; [exact H2|]; intros ? ?; by apply slt_asym).
    by rewrite rev_involutive.
  - unfold bst, keys in Hb. rewrite Hw in *. apply sorted_split in Hb as [H1 H2].
    rewrite filter_app, filter_cons_False by apply slt_irrefl.
    rewrite (filter_all _ rest) by (by apply Forall_keys in H2).
    rewrite filter_none; [done|]. apply Forall_keys in H1. eapply Forall_impl; [exact H1|]. intros ? ?. by apply slt_asym.
Qed.

(** ** The iterator on the heap *)

Section iterator_spec.
Context {W : Type} {NS : NodeStore W} {NSL : NodeStoreLaws W} {SC : SliceCompare} {SL : SliceLaws}.
Context (r : Z) (t : tree).
Hypothesis Ht : bst t.
(** The store as it was before the iterator. *)
Context (w0 : W).

Definition on_stack (w : W) (u : tree) (x : loc) : Prop :=
  w_nd w u x /\ u <> E /\ (height u <= height t)%nat.

(** The stack holds the nodes of the trees [ts], over the snapshot [t]. *)
Record iter_ok (ts : list tree) (d : option Direction) (s : W * RawIteratorImpl) : Prop := {
  ok_w : winv r ∅ s.1;
  ok_root : w_ptr s.1 (it_root s.2) (Old t) /\ wext w0 s.1;
  ok_stack : Forall2 (on_stack s.1) ts (stack_ s.2);
  ok_dir : dir s.2 = d;
}.

Lemma stack_mono w w' ts st : wext w w' ->
  Forall2 (on_stack w) ts st -> Forall2 (on_stack w') ts st.
Proof. intros He H. eapply Forall2_impl; [exact H|]. intros u x (? & ? & ?). split_and!; [|done..]. by apply (wext_nd _ _ He). Qed.

Lemma wp_get_it (Q : RawIteratorImpl -> W * RawIteratorImpl -> Prop) s : Q s.2 s -> wp get_it Q s.
Proof. by destruct s. Qed.

Lemma wp_set_it f (Q : unit -> W * RawIteratorImpl -> Prop) s : Q tt (s.1, f s.2) -> wp (set_it f) Q s.
Proof. by destruct s. Qed.

Lemma wp_itm {A} (m : TM A) (R : A -> W -> Prop) ts d s : iter_ok ts d s ->
  twp m (fun a w' => winv r ∅ w' /\ wext s.1 w' /\ R a w') s.1 ->
  wp (itm m) (fun a s' => iter_ok ts d s' /\ wext s.1 s'.1 /\ R a s'.1) s.
Proof.
  destruct s as [w it]. intros [Hw Hr Hs Hd] Hm. apply wp_zoom. eapply wp_conseq; [apply Hm|].
  intros a [w' tr] (Hw' & He & HR). split_and!; [|done..]. split; [done| | |done].
  - destruct Hr. split; [by eapply w_ptr_mono|by etransitivity].
  - by eapply stack_mono.
Qed.

Lemma wp_key c l k v u x ts d s : iter_ok ts d s -> w_nd s.1 (T c l k v u) x ->
  wp (itm (node_key x)) (fun a s' => iter_ok ts d s' /\ wext s.1 s'.1 /\ a = k) s.
Proof.
  intros Hs (_ & n & Hn & _ & _ & Hk & _). apply (wp_itm _ (fun a _ => a = k)); [done|].
  apply twp_bind, (twp_load _ n); [done|]. apply twp_ret. split_and!; [apply Hs|done..].
Qed.

Lemma wp_val c l k v u x ts d s : iter_ok ts d s -> w_nd s.1 (T c l k v u) x ->
  wp (itm (node_val x)) (fun a s' => iter_ok ts d s' /\ wext s.1 s'.1 /\ a = v) s.
Proof.
  intros Hs (_ & n & Hn & _ & _ & _ & Hv & _). apply (wp_itm _ (fun a _ => a = v)); [done|].
  apply twp_bind, (twp_load _ n); [done|]. apply twp_ret. split_and!; [apply Hs|done..].
Qed.

Definition subtree (sd : side) (l u : tree) : tree := match sd with SideL => l | SideR => u end.

Lemma height_subtree sd c l k v u : (height (subtree sd l u) < height (T c l k v u))%nat.
Proof. destruct sd; simpl; lia. Qed.

Lemma wp_child sd c l k v u x ts d s : iter_ok ts d s -> w_nd s.1 (T c l k v u) x ->
  wp (itm (ref_child sd x)) (fun y s' => iter_ok ts d s' /\ wext s.1 s'.1 /\ w_nd s'.1 (subtree sd l u) y) s.
Proof.
  intros Hs (Hne & n & Hn & _ & _ & _ & _ & Hl & Hu).
  apply (wp_itm _ (fun y w' => w_nd w' (subtree sd l u) y)); [done|].
  assert (w_ptr s.1 (child sd n) (Old (subtree sd l u))) as Hp by (by destruct sd).
  eapply twp_conseq; [eapply (twp_ref_child_Old r ∅ sd x n); [apply Hs|done..]|].
  intros y w' (? & ? & ? & _). done.
Qed.

Lemma wp_push u x ts d s : iter_ok ts d s -> on_stack s.1 u x ->
  wp (push x) (fun _ s' => iter_ok (u :: ts) d s' /\ s'.1 = s.1) s.
Proof.
  intros [Hw Hr Hs Hd] Hx. apply wp_set_it. split; [|done]. split; [done..| |done].
  simpl. by constructor.
Qed.

Lemma wp_with_stack ts d s x u : iter_ok (u :: ts) d s -> stack_ s.2 = x :: tail (stack_ s.2) ->
  iter_ok ts d (s.1, with_stack (tail (stack_ s.2)) s.2).
Proof. intros [Hw Hr Hs Hd] E. split; try done. simpl. rewrite E in Hs. by apply Forall2_cons in Hs as [_ ?]. Qed.

Lemma wp_clear ts d s : iter_ok ts d s ->
  wp (set_it (with_stack [])) (fun _ s' => iter_ok [] d s') s.
Proof. intros [Hw Hr Hs Hd]. apply wp_set_it. split; [done..| |done]. by simpl. Qed.

Lemma wp_dir ts d d' s : iter_ok ts d s -> wp (set_it (with_dir d')) (fun _ s' => iter_ok ts (Some d') s') s.
Proof. intros [Hw Hr Hs Hd]. apply wp_set_it. by split. Qed.

Lemma wp_root ts d s : iter_ok ts d s ->
  wp snapshot_root (fun x s' => iter_ok ts d s' /\ w_nd s'.1 t x) s.
Proof.
  intros Hs. unfold snapshot_root. apply wp_bind, wp_get_it, wp_bind. eapply wp_conseq.
  { apply (wp_itm _ (fun '(x, p) w' => w_nd w' t x /\ w_ptr w' p (Old t)) ts d); [done|].
    eapply twp_conseq; [eapply (twp_ref_Old r ∅); apply Hs|].
    intros [x p] w' (Hw' & He & _ & Hx & Hcase). split_and!; [done..|].
    destruct Hs as [Hw [Hr _] _ _]. apply (w_ptr_mono _ _ _ _ He) in Hr as Hr'.
    destruct Hcase as [[-> _]|(_ & -> & _)]; [done|].
    destruct Hr' as [_ Hn]. split; [done|]. intros Hne. apply Hn in Hne as (? & a & ? & ?). eauto. }
  intros [x p] s' (Hok & He & Hx & Hp). apply wp_bind, wp_set_it, wp_ret. split; [|done].
  destruct Hok as [? [? ?] ? ?]. by split.
Qed.

Lemma wp_push_spine fuel sd : forall u x ts d s, (height u < fuel)%nat -> (height u <= height t)%nat -> iter_ok ts d s -> w_nd s.1 u x ->
  wp (push_spine fuel sd x) (fun _ s' => iter_ok (spine sd u ts) d s') s.
Proof.
  induction fuel as [|fuel IH]; intros u x ts d s Hf Hle Hs Hx; [lia|]. cbn [push_spine].
  destruct u as [|c l k v u].
  { change (x = Nil) in Hx. rewrite decide_True by done. by apply wp_ret. }
  rewrite decide_False by apply Hx. apply wp_bind.
  eapply wp_conseq; [by eapply (wp_push (T c l k v u)); [|split_and!]|]. intros [] s1 [Hs1 E1]. rewrite <- E1 in Hx.
  apply wp_bind. eapply wp_conseq; [by eapply wp_child|]. intros y s2 (Hs2 & _ & Hy).
  change (spine sd (T c l k v u) ts) with (spine sd (subtree sd l u) (T c l k v u :: ts)).
  pose proof (height_subtree sd c l k v u). eapply IH; [..|exact Hs2|exact Hy]; lia.
Qed.

Lemma wp_seek_loop fuel keep key : forall u x ts d s, (height u < fuel)%nat -> (height u <= height t)%nat -> iter_ok ts d s -> w_nd s.1 u x ->
  wp (seek_loop fuel keep key x) (fun _ s' => iter_ok (seek keep key u ts) d s') s.
Proof.
  induction fuel as [|fuel IH]; intros u x ts d s Hf Hle Hs Hx; [lia|]. cbn [seek_loop].
  destruct u as [|c l k v u].
  { change (x = Nil) in Hx. rewrite decide_True by done. by apply wp_ret. }
  rewrite decide_False by apply Hx. apply wp_bind.
  eapply wp_conseq; [by eapply wp_key|]. intros a s1 (Hs1 & He1 & ->). apply (wext_nd _ _ He1) in Hx.
  assert (forall sd, wp ((if decide (sd = keep) then push x else mret tt);; next ← itm (ref_child sd x);
      seek_loop fuel keep key next)
    (fun _ s' => iter_ok (seek keep key (subtree sd l u) (if decide (sd = keep) then T c l k v u :: ts else ts)) d s') s1)
    as Hgo.
  { intros sd. apply wp_bind.
    apply (wp_conseq _ (fun _ s' => iter_ok (if decide (sd = keep) then T c l k v u :: ts else ts) d s' /\ s'.1 = s1.1)).
    { destruct (decide (sd = keep)); [by apply wp_push; [|split_and!]|by apply wp_ret]. }
    intros _ s2 [Hs2 E2]. rewrite <- E2 in Hx. apply wp_bind.
    eapply wp_conseq; [by eapply wp_child|]. intros y s3 (Hs3 & _ & Hy).
    pose proof (height_subtree sd c l k v u). eapply IH; [..|exact Hs3|exact Hy]; lia. }
  destruct (slice_cases key k) as [[Hc ->]|[[Hc Hk]|[Hc Hk]]].
  - rewrite Hc. simpl. rewrite compare_refl. eapply wp_conseq; [by eapply (wp_push (T c l k v u)); [|split_and!]|]. by intros ? ? [? _].
  - rewrite (proj2 (Z.eqb_neq _ _)), (proj2 (Z.ltb_lt _ _)) by lia. unfold slt in Hk. simpl. rewrite Hk.
    apply (Hgo SideL).
  - rewrite (proj2 (Z.eqb_neq _ _)), (proj2 (Z.ltb_ge _ _)) by lia. apply compare_gt_slt in Hk. simpl. rewrite Hk.
    apply (Hgo SideR).
Qed.

(** [IteratorTraceApplier] only adds the cache update at the end. *)
Lemma wp_applier {A} (m : IM A) ts d s (Q : A -> list tree -> option Direction -> Prop) : iter_ok ts d s ->
  (forall s, iter_ok ts d s -> wp m (fun a s' => exists ts' d', iter_ok ts' d' s' /\ Q a ts' d') s) ->
  wp (IteratorTraceApplier m) (fun a s' => exists ts' d', iter_ok ts' d' s' /\ Q a ts' d') s.
Proof.
  intros Hs Hm. unfold IteratorTraceApplier. apply wp_bind, wp_get_it, wp_bind, wp_set_it, wp_bind.
  eapply wp_conseq; [apply Hm; destruct Hs; by split|].
  intros a [w it] (ts' & d' & [Hw Hr Hst Hd] & HQ). apply wp_bind, wp_modify, wp_ret. exists ts', d'. split; [|done].
  destruct (ns_update_lru_law w (it_trace it)) as (Hi & Hh & Hsd & Hnm); [apply Hw|].
  assert (wext w (ns_update_lru (it_trace it) w)) as He.
  { split; try done; [intros x; by rewrite Hh|]. intros u x. unfold w_nd. by rewrite Hh, Hsd, Hnm. }
  split; [|destruct Hr; split; [by eapply w_ptr_mono|by etransitivity]|by eapply stack_mono|done].
  split; [done|]. intros l an Hl. by rewrite lookup_empty in Hl.
Qed.

(** ** The positioning calls *)

Definition top_entry (ts : list tree) : option (string * string) :=
  match ts with T _ _ k v _ :: _ => Some (k, v) | _ => None end.

Lemma top_entry_pending ts d s sd : iter_ok ts d s -> top_entry ts = head (pending sd ts).
Proof.
  intros [_ _ Hs _]. destruct ts as [|[|c l k v u] ts]; [done| |done].
  apply Forall2_cons_inv_l in Hs as (? & ? & (_ & [] & _) & _). done.
Qed.

(** The iterator stands at [c], about to walk towards the side it faces. *)
Definition at_entry (sd : side) (ts : list tree) (c : option (string * string)) : Prop :=
  c = head (pending sd ts) /\ exists pre, walk sd t = pre ++ pending sd ts.

Definition cursor (c : option (string * string)) (s : W * RawIteratorImpl) : Prop :=
  exists ts d, iter_ok ts d s /\
    match d with None => ts = [] /\ c = None | Some d => at_entry (facing d) ts c end.

Lemma wp_spine_call fuel sd d ts0 d0 s : (height t < fuel)%nat -> iter_ok ts0 d0 s ->
  wp (IteratorTraceApplier (
      set_it (with_stack []);; node ← snapshot_root; push_spine fuel sd node;; set_it (with_dir d)))
    (fun _ s' => exists ts' d', iter_ok ts' d' s' /\ ts' = spine sd t [] /\ d' = Some d) s.
Proof.
  intros Hf Hs. eapply (wp_applier _ _ _ _ (fun _ ts' d' => ts' = spine sd t [] /\ d' = Some d)); [exact Hs|].
  clear s Hs. intros s Hs. apply wp_bind. eapply wp_conseq; [by eapply wp_clear|]. intros [] s1 Hs1.
  apply wp_bind. eapply wp_conseq; [by eapply wp_root|]. intros x s2 [Hs2 Hx].
  apply wp_bind. eapply wp_conseq; [by eapply wp_push_spine|]. intros [] s3 Hs3.
  eapply wp_conseq; [by eapply wp_dir|]. intros [] s4 Hs4. eauto.
Qed.

Lemma wp_assert_top test key ts d s : iter_ok ts d s ->
  (forall k v, top_entry ts = Some (k, v) -> test (slice_compare k key) = true) ->
  wp (assert_top test key) (fun _ s' => iter_ok ts d s') s.
Proof.
  intros Hs Htest. unfold assert_top. apply wp_bind, wp_get_it. pose proof Hs as [_ _ Hst _].
  destruct (stack_ s.2) as [|x st]; [by apply wp_ret|].
  apply Forall2_cons_inv_r in Hst as ([|c l k v u] & ts' & (Hx & Hu & _) & _ & ->); [done|].
  apply wp_bind. eapply wp_conseq; [by eapply wp_key|]. intros a s1 (Hs1 & _ & Ha). rewrite Ha.
  apply wp_assert; [by eapply Htest|done].
Qed.

Lemma wp_seek_call fuel keep key test d ts0 d0 s : (height t < fuel)%nat -> iter_ok ts0 d0 s ->
  (forall k v, top_entry (seek keep key t []) = Some (k, v) -> test (slice_compare k key) = true) ->
  wp (IteratorTraceApplier (
      set_it (with_stack []);; node ← snapshot_root; seek_loop fuel keep key node;;
      assert_top test key;; set_it (with_dir d)))
    (fun _ s' => exists ts' d', iter_ok ts' d' s' /\ ts' = seek keep key t [] /\ d' = Some d) s.
Proof.
  intros Hf Hs Htest. eapply (wp_applier _ _ _ _ (fun _ ts' d' => ts' = seek keep key t [] /\ d' = Some d)); [exact Hs|].
  clear s Hs. intros s Hs. apply wp_bind. eapply wp_conseq; [by eapply wp_clear|]. intros [] s1 Hs1.
  apply wp_bind. eapply wp_conseq; [by eapply wp_root|]. intros x s2 [Hs2 Hx].
  apply wp_bind. eapply wp_conseq; [by eapply wp_seek_loop|]. intros [] s3 Hs3.
  apply wp_bind. eapply wp_conseq; [by eapply wp_assert_top|]. intros [] s4 Hs4.
  eapply wp_conseq; [by eapply wp_dir|]. intros [] s5 Hs5. eauto.
Qed.

(** The stack of a seek offers the entries from [key] on, in either direction. *)
Definition reach (sd : side) (key : string) : list (string * string) :=
  match sd with SideR => from key (elements t) | SideL => rev (upto key (elements t)) end.

Lemma pending_seek sd key : pending sd (seek (flip sd) key t []) = reach sd key.
Proof. destruct sd; simpl; [rewrite pending_seek_backward|rewrite pending_seek_forward]; try done; apply app_nil_r. Qed.

Lemma walk_reach sd key : exists pre, walk sd t = pre ++ reach sd key.
Proof.
  assert (forall l : list (string * string), StronglySorted slt l.*1 ->
    l = filter (fun kv => slt kv.1 key) l ++ from key l /\ l = upto key l ++ filter (fun kv => slt key kv.1) l) as Hl.
  { induction l as [|[k v] l IH]; [done|]. rewrite fmap_cons. intros [Hs HF]%StronglySorted_inv.
    destruct (IH Hs) as [H1 H2]. apply Forall_keys in HF. simpl in *. unfold from, upto in *. split.
    - destruct (decide (slt k key)) as [Hk|Hk].
      + rewrite filter_cons_True, (filter_cons_False _ (k, v)) by (simpl; tauto). simpl. by rewrite <- H1.
      + rewrite filter_cons_False, (filter_cons_True _ (k, v)) by (simpl; tauto).
        rewrite filter_none, (filter_all _ l); [done|..]; eapply Forall_impl; try exact HF; simpl.
        * intros x Hx Hx'. by apply Hk, (slt_trans _ x.1).
        * intros x Hx Hx'. by apply Hk, (slt_trans _ x.1).
    - destruct (decide (slt key k)) as [Hk|Hk].
      + rewrite filter_cons_False, (filter_cons_True _ (k, v)) by (simpl; tauto).
        rewrite filter_none, (filter_all _ l); [done|..]; eapply Forall_impl; try exact HF; simpl.
        * intros x Hx. by apply (slt_trans _ k).
        * intros x Hx Hx'. by apply Hx', (slt_trans _ k).
      + rewrite filter_cons_True, (filter_cons_False _ (k, v)) by (simpl; tauto). simpl. by rewrite <- H2. }
  destruct (Hl _ Ht) as [H1 H2]. destruct sd; simpl.
  - eexists. rewrite H2 at 1. by rewrite rev_app_distr.
  - eexists. exact H1.
Qed.

Lemma reach_entry sd k v : (k, v) ∈ elements t -> exists rest, reach sd k = (k, v) :: rest.
Proof.
  intros (l1 & l2 & El)%list_elem_of_split. pose proof Ht as Hb. unfold bst, keys in Hb. rewrite El in Hb.
  apply sorted_split in Hb as [H1 H2]. unfold reach. rewrite El. unfold from, upto.
  destruct sd; rewrite filter_app, filter_cons_True by apply slt_irrefl.
  - fold (upto k l1) (upto k l2). rewrite upto_all, upto_none, rev_app_distr by done. simpl. eauto.
  - fold (from k l1) (from k l2). rewrite from_none, from_all by done. simpl. eauto.
Qed.

Lemma at_entry_in sd ts k v : at_entry sd ts (Some (k, v)) -> (k, v) ∈ elements t.
Proof.
  intros (Hc & pre & Hw). destruct (pending sd ts) as [|y rest]; simplify_eq/=.
  assert ((k, v) ∈ walk sd t) as Hin by (rewrite Hw; set_solver).
  destruct sd; [|done]. simpl in Hin. by apply list_elem_of_In, in_rev, list_elem_of_In in Hin.
Qed.

Lemma wp_turn fuel sd d k v ts0 d0 s : (height t < fuel)%nat -> iter_ok ts0 d0 s -> (k, v) ∈ elements t ->
  wp (IteratorTraceApplier (
      set_it (with_stack []);; node ← snapshot_root; seek_loop fuel (flip sd) k node;;
      assert_top (fun c => c =? 0) k;; set_it (with_dir d)))
    (fun _ s' => exists ts, iter_ok ts (Some d) s' /\ at_entry sd ts (Some (k, v))) s.
Proof.
  intros Hf Hs Hin. destruct (reach_entry sd k v Hin) as [rest Hr].
  eapply wp_conseq; [eapply wp_seek_call; [exact Hf|exact Hs|]|].
  - intros k' v' Htop. pose proof (pending_seek sd k) as Hp. rewrite Hr in Hp.
    destruct (seek (flip sd) k t []) as [|[|c l k1 v1 u] ts]; [done|done|].
    rewrite pending_cons in Hp. simplify_eq/=. apply Z.eqb_eq. by apply slice_compare_eq.
  - intros [] s' (ts' & d' & Hs' & -> & ->). exists (seek (flip sd) k t []). split; [done|].
    split; rewrite pending_seek; [by rewrite Hr|]. apply walk_reach.
Qed.

Lemma wp_top c l k v u ts d s : iter_ok (T c l k v u :: ts) d s ->
  wp top (fun x s' => s' = s /\ w_nd s.1 (T c l k v u) x /\ stack_ s.2 = x :: tail (stack_ s.2)) s.
Proof.
  intros [_ _ Hs _]. unfold top. apply wp_bind, wp_get_it.
  apply Forall2_cons_inv_l in Hs as (x & st & (Hx & _) & _ & ->). by apply wp_ret.
Qed.

(** One step towards [sd], once the iterator faces it. *)
Lemma wp_step fuel sd d c l k v u ts s : (height t < fuel)%nat -> facing d = sd ->
  iter_ok (T c l k v u :: ts) (Some d) s -> at_entry sd (T c l k v u :: ts) (Some (k, v)) ->
  wp (x ← top; node ← itm (ref_child sd x); set_it (fun it => with_stack (tail (stack_ it)) it);;
      push_spine fuel (flip sd) node)
    (fun _ s' => exists ts', iter_ok ts' (Some d) s' /\ at_entry sd ts' (head (beyond sd k (elements t)))) s.
Proof.
  intros Hf Hd Hs (_ & pre & Hw). apply wp_bind. eapply wp_conseq; [by eapply wp_top|].
  intros x s1 (-> & Hx & _). apply wp_bind. eapply wp_conseq; [by eapply wp_child|].
  intros y s2 (Hs2 & He & Hy). apply wp_bind, wp_set_it. apply (wext_nd _ _ He) in Hx.
  pose proof (height_subtree sd c l k v u). pose proof (ok_stack _ _ _ Hs2) as Hst. apply Forall2_cons_inv_l in Hst as (x' & st & (_ & _ & Hle) & _ & Est).
  eapply wp_conseq; [eapply wp_push_spine; [..|eapply wp_with_stack; [exact Hs2|by rewrite Est]|exact Hy]; lia|].
  intros [] s3 Hs3. exists (spine (flip sd) (subtree sd l u) ts). split; [done|].
  pose proof (pending_spine (flip sd) (subtree sd l u) ts) as Hp. rewrite flip_flip in Hp.
  assert (pending sd (T c l k v u :: ts) = (k, v) :: pending sd (spine (flip sd) (subtree sd l u) ts)) as Hpend.
  { rewrite Hp, pending_cons. by destruct sd. }
  rewrite Hpend in Hw. pose proof (walk_split _ _ _ _ _ _ Ht Hw) as Hb. split; [by rewrite <- Hb|].
  exists (pre ++ [(k, v)]). by rewrite <- app_assoc.
Qed.

Lemma Direction_cases (d other : Direction) : other <> d -> forall d', d' <> other -> d' = d.
Proof. by destruct d, other; intros ? []. Qed.

Lemma wp_advance fuel sd other d turn k v s : (height t < fuel)%nat -> facing d = sd -> other <> d ->
  (forall k, turn k = IteratorTraceApplier (
      set_it (with_stack []);; node ← snapshot_root; seek_loop fuel (flip sd) k node;;
      assert_top (fun c => c =? 0) k;; set_it (with_dir d))) ->
  cursor (Some (k, v)) s ->
  wp (advance_to fuel sd other d turn) (fun _ s' => cursor (head (beyond sd k (elements t))) s') s.
Proof.
  intros Hf Hd Hne Hturn (ts & d0 & Hs & Hat). unfold advance_to.
  apply (wp_conseq _ (fun _ s' => exists ts' d', iter_ok ts' d' s' /\
    (d' = Some d /\ at_entry sd ts' (head (beyond sd k (elements t)))))).
  2: { intros [] s' (ts' & d' & Hs' & -> & Hat'). exists ts', (Some d). by rewrite Hd. }
  eapply (wp_applier _ _ _ _ (fun _ ts' d' => d' = Some d /\ at_entry sd ts' _)); [exact Hs|].
  clear s Hs. intros s Hs. destruct d0 as [d0|]; [|by destruct Hat].
  destruct ts as [|[|c l k0 v0 u] ts]; [by destruct Hat| |].
  { destruct Hs as [_ _ Hst _]. by apply Forall2_cons_inv_l in Hst as (? & ? & (_ & [] & _) & _). }
  assert (k0 = k /\ v0 = v) as [-> ->].
  { destruct Hat as [Hc _]. rewrite pending_cons in Hc. by simplify_eq/=. }
  apply wp_bind. eapply wp_conseq; [by eapply wp_top|]. intros x s1 (-> & Hx & _).
  apply wp_bind, wp_get_it, wp_bind. rewrite (ok_dir _ _ _ Hs).
  assert (forall ts1 s1, iter_ok ts1 (Some d) s1 -> at_entry sd ts1 (Some (k, v)) ->
    wp (x ← top; node ← itm (ref_child sd x); set_it (fun it => with_stack (tail (stack_ it)) it);;
      push_spine fuel (flip sd) node)
    (fun _ s' => exists ts' d', iter_ok ts' d' s' /\ d' = Some d /\
      at_entry sd ts' (head (beyond sd k (elements t)))) s1) as Hstep.
  { intros ts1 s1 Hs1 Hat1. destruct ts1 as [|[|c1 l1 k1 v1 u1] ts1]; [by destruct Hat1| |].
    { destruct Hs1 as [_ _ Hst _]. by apply Forall2_cons_inv_l in Hst as (? & ? & (_ & [] & _) & _). }
    assert (k1 = k /\ v1 = v) as [-> ->].
    { destruct Hat1 as [Hc _]. rewrite pending_cons in Hc. by simplify_eq/=. }
    eapply wp_conseq; [by eapply wp_step|]. intros [] s2 (ts2 & ? & ?). eauto. }
  destruct (decide (Some d0 = Some other)) as [Eo|Eo].
  - apply wp_bind. unfold key. apply wp_bind. eapply wp_conseq; [by eapply wp_top|]. intros x' s1 (-> & Hx' & _).
    eapply wp_conseq; [by eapply wp_key|]. intros a s1 (Hs1 & _ & ->).
    apply wp_bind. rewrite Hturn. eapply wp_conseq; [eapply wp_turn; [exact Hf|exact Hs1|by eapply at_entry_in]|].
    intros [] s2 (ts2 & Hs2 & Hat2). apply wp_bind, wp_get_it, wp_assert; [|by eapply Hstep].
    rewrite (ok_dir _ _ _ Hs2). by apply bool_decide_eq_true.
  - apply wp_ret. assert (d0 = d) as -> by (eapply Direction_cases; [exact Hne|congruence]).
    rewrite Hd in Hat. by eapply Hstep.
Qed.

Definition iter_step (fuel : nat) (op : it_op) : IM unit :=
  match op with
  | ItFirst => SeekToFirst fuel
  | ItLast => SeekToLast fuel
  | ItSeek k => Seek fuel k
  | ItNext => Next fuel
  | ItPrev => Prev fuel
  end.

Definition observe : IM (option (string * string)) :=
  v ← Valid; if (v : bool) then k ← key; x ← value; mret (Some (k, x)) else mret None.

Fixpoint run_its (fuel : nat) (ops : list it_op) : IM (list (option (string * string))) :=
  match ops with
  | [] => mret []
  | op :: ops => iter_step fuel op;; c ← observe; out ← run_its fuel ops; mret (c :: out)
  end.

Lemma wp_iter_step fuel op c c' s : (height t < fuel)%nat -> spec_it (elements t) op c = Ok c' -> cursor c s ->
  wp (iter_step fuel op) (fun _ s' => cursor c' s') s.
Proof.
  intros Hf Hspec Hc. pose proof Hc as (ts & d & Hs & _).
  assert (forall sd d', facing d' = flip sd ->
    at_entry (facing d') (spine sd t []) (head (walk (flip sd) t))) as Hspine.
  { intros sd d' ->. unfold at_entry. rewrite pending_spine, app_nil_r. split; [done|]. by exists []. }
  destruct op as [| |k| |]; simpl in Hspec; try injection Hspec as <-.
  - eapply wp_conseq; [by eapply (wp_spine_call _ SideL)|]. intros [] s' (ts' & d' & Hs' & -> & ->).
    exists (spine SideL t []), (Some Forward). split; [done|]. by apply Hspine.
  - eapply wp_conseq; [by eapply (wp_spine_call _ SideR)|]. intros [] s' (ts' & d' & Hs' & -> & ->).
    exists (spine SideR t []), (Some Reverse). split; [done|].
    pose proof (Hspine SideR Reverse eq_refl) as Ha. simpl in Ha.
    rewrite <- head_reverse. unfold reverse. by rewrite <- rev_alt.
  - pose proof (pending_seek SideR k) as Hp. simpl in Hp.
    eapply wp_conseq; [eapply (wp_seek_call _ SideL k); [done|exact Hs|]|].
    + intros k' v Htop. destruct (seek SideL k t []) as [|[|c1 l k1 v1 u] ts1]; [done|done|].
      rewrite pending_cons in Hp. simplify_eq/=. apply Z.leb_le.
      assert (Hin : (k', v) ∈ from k (elements t)) by (rewrite <- Hp; set_solver).
      apply list_elem_of_filter in Hin as [Hin _]. simpl in Hin.
      destruct (slice_cases k' k) as [[? _]|[[_ ?]|[? _]]]; [lia|done|lia].
    + intros [] s' (ts' & d' & Hs' & -> & ->). exists (seek SideL k t []), (Some Forward). split; [done|].
      split; simpl; rewrite Hp; [done|]. apply (walk_reach SideR k).
  - destruct c as [[k v]|]; simplify_eq/=. by eapply (wp_advance fuel SideR Reverse Forward).
  - destruct c as [[k v]|]; simplify_eq/=. by eapply (wp_advance fuel SideL Forward Reverse).
Qed.

(** The node under the cursor is the top of the stack. *)
Lemma cursor_inv c s : cursor c s -> exists ts d, iter_ok ts d s /\
  (forall s', iter_ok ts d s' -> cursor c s') /\
  match c with None => ts = [] | Some (k, v) => exists cc l u ts', ts = T cc l k v u :: ts' end.
Proof.
  intros (ts & d & Hs & Hat). exists ts, d. split; [done|]. split.
  { intros s' Hs'. by exists ts, d. }
  destruct ts as [|[|cc l k v u] ts].
  - destruct d; destruct Hat as [Hx Hy]; by subst c.
  - destruct Hs as [_ _ Hst _]. by apply Forall2_cons_inv_l in Hst as (? & ? & (_ & [] & _) & _).
  - destruct d; destruct Hat as [Hc _]; [|done]. rewrite pending_cons in Hc. simpl in Hc. subst c. eauto.
Qed.

Lemma cursor_stack c s : cursor c s -> stack_ s.2 = [] <-> c = None.
Proof.
  intros (ts & d & Hs & _ & Hc)%cursor_inv. apply ok_stack in Hs. destruct c as [[k v]|].
  - destruct Hc as (? & ? & ? & ? & ->). by apply Forall2_cons_inv_l in Hs as (? & ? & _ & _ & ->).
  - subst ts. by apply Forall2_nil_inv_l in Hs as ->.
Qed.

Lemma wp_Valid c s : cursor c s -> wp Valid (fun b s' => s' = s /\ b = bool_decide (is_Some c)) s.
Proof.
  intros Hc. unfold Valid. apply wp_bind, wp_get_it, wp_ret. split; [done|].
  rewrite (bool_decide_ext _ _ (cursor_stack c s Hc)). by destruct c.
Qed.

Lemma wp_at_key k v s : cursor (Some (k, v)) s -> wp key (fun a s' => cursor (Some (k, v)) s' /\ a = k) s.
Proof.
  intros (ts & d & Hs & Hmk & cc & l & u & ts' & ->)%cursor_inv. unfold key.
  apply wp_bind. eapply wp_conseq; [by eapply wp_top|]. intros y s1 (-> & Hy & _).
  eapply wp_conseq; [by eapply wp_key|]. intros a s1 (Hs1 & _ & ->). auto.
Qed.

Lemma wp_at_value k v s : cursor (Some (k, v)) s -> wp value (fun a s' => cursor (Some (k, v)) s' /\ a = v) s.
Proof.
  intros (ts & d & Hs & Hmk & cc & l & u & ts' & ->)%cursor_inv. unfold value.
  apply wp_bind. eapply wp_conseq; [by eapply wp_top|]. intros y s1 (-> & Hy & _).
  eapply wp_conseq; [by eapply wp_val|]. intros a s1 (Hs1 & _ & ->). auto.
Qed.

Lemma wp_observe c s : cursor c s -> wp observe (fun x s' => x = c /\ cursor c s') s.
Proof.
  intros Hc. unfold observe. apply wp_bind. eapply wp_conseq; [by eapply wp_Valid|]. intros b s1 [-> ->].
  destruct c as [[k v]|]; simpl; [|by apply wp_ret].
  apply wp_bind. eapply wp_conseq; [by eapply wp_at_key|]. intros a s1 [Hc1 ->].
  apply wp_bind. eapply wp_conseq; [by eapply wp_at_value|]. intros a s2 [Hc2 ->]. by apply wp_ret.
Qed.

(** An exhausted iterator stops on the assertion of [Next] and [Prev]. *)
Lemma iter_step_fails fuel op s : spec_it (elements t) op None = AssertFail -> cursor None s ->
  iter_step fuel op s = AssertFail.
Proof.
  intros Hspec Hc. pose proof (proj2 (cursor_stack None s Hc) eq_refl) as Est.
  destruct s as [w [st dr rt tr]]. simpl in Est. subst st. by destruct op.
Qed.
End iterator_spec.

(** ** Prefixed keys as a range *)

Lemma ascii_compare_eq a b : Ascii.compare a b = Eq -> a = b.
Proof. apply Ascii.compare_eq_iff. Qed.

Lemma slt_String c a d b : slt (String c a) (String d b) <-> Ascii.compare c d = Lt \/ (c = d /\ slt a b).
Proof.
  unfold slt. simpl. destruct (Ascii.compare c d) eqn:E.
  - apply ascii_compare_eq in E as ->. split; [auto|]. intros [?|[_ ?]]; done.
  - split; auto.
  - split; [done|]. intros [?|[-> _]]; [done|].
    unfold Ascii.compare in E. by rewrite N.compare_refl in E.
Qed.

Lemma not_below_zero c : Ascii.compare c Ascii.zero <> Lt.
Proof. unfold Ascii.compare. simpl. by destruct (N_of_ascii c). Qed.

(** Between two keys of a prefix there are only keys of that prefix. *)
Lemma prefix_convex p a b : forall k,
  ~ slt k (prefix_string p a) -> slt k (prefix_string p b) -> exists k', k = prefix_string p k'.
Proof.
  unfold prefix_string. induction p as [|c p IH]; intros [|d k] Ha Hb.
  - by destruct Ha.
  - apply slt_String in Hb as [Hb|[-> _]]; [by apply not_below_zero in Hb|]. by exists k.
  - by destruct Ha.
  - rewrite string_app_cons in Ha, Hb. apply slt_String in Hb as [Hb|[-> Hb]].
    + destruct Ha. apply slt_String. by left.
    + rewrite slt_cons in Ha. destruct (IH k Ha Hb) as [k' ->]. by exists k'.
Qed.

Lemma prefix_below_past p k : slt (prefix_string p k) (p ++ String Ascii.one "")%string.
Proof. unfold prefix_string. by rewrite slt_app. Qed.

Lemma in_prefix_cons c p d k : in_prefix (String c p) (String d k) = bool_decide (c = d) && in_prefix p k.
Proof.
  unfold in_prefix. simpl. change (S (String.length p) <? S (String.length k))%nat with (String.length p <? String.length k)%nat.
  destruct (String.length p <? String.length k)%nat; simpl; [|by rewrite andb_false_r].
  destruct (String.get (String.length p) k); [|by rewrite andb_false_r].
  destruct (decide (c = d)) as [->|Hne].
  - rewrite (bool_decide_true (d = d)) by done. simpl. f_equal. apply bool_decide_ext. split; congruence.
  - rewrite (bool_decide_false (c = d)) by done. simpl.
    rewrite (bool_decide_false (String d _ = _)) by congruence. by rewrite andb_false_r.
Qed.

Lemma in_prefix_spec p : forall k, in_prefix p k = true <-> exists k', k = prefix_string p k'.
Proof.
  unfold prefix_string. induction p as [|c p IH]; intros k.
  - unfold in_prefix. destruct k as [|d k]; simpl; [split; [done|by intros []]|].
    rewrite andb_true_r, bool_decide_eq_true.
    split; [intros ->; eauto|intros [? [= -> _]]; done].
  - destruct k as [|d k]; [split; [done|by intros []]|].
    rewrite in_prefix_cons, andb_true_iff, bool_decide_eq_true, IH. setoid_rewrite string_app_cons.
    split; [intros [-> [k' ->]]; eauto|intros [k' [= -> ->]]; eauto].
Qed.

Definition strip (p k : string) : string :=
  let n := (String.length p + 1)%nat in substring n (String.length k - n) k.

Lemma substring_all k : substring 0 (String.length k) k = k.
Proof. induction k as [|c k IH]; simpl; [done|]. by rewrite IH. Qed.

Lemma strip_prefix p k : strip p (prefix_string p k) = k.
Proof.
  unfold strip, prefix_string. induction p as [|c p IH]; simpl in *; [|done].
  rewrite Nat.sub_0_r. apply substring_all.
Qed.

(** The entries under a prefix, as its users see them. *)
Definition user_entries (p : string) (l : list (string * string)) : list (string * string) :=
  (fun kv => (strip p kv.1, kv.2)) <$> filter (fun kv => in_prefix p kv.1 = true) l.

Definition user_entry (p : string) (c : option (string * string)) : option (string * string) :=
  kv ← c; if in_prefix p kv.1 then Some (strip p kv.1, kv.2) else None.

Lemma user_seek p k l : StronglySorted slt (l.*1 : list string) ->
  user_entry p (head (from (prefix_string p k) l)) = head (from k (user_entries p l)).
Proof.
  induction l as [|[k0 v0] l IH]; [done|]. rewrite fmap_cons. intros [Hs HF]%StronglySorted_inv.
  apply Forall_keys in HF. specialize (IH Hs). unfold from, user_entries in *. simpl in HF.
  destruct (in_prefix p k0) eqn:Ep.
  - rewrite (filter_cons_True (fun kv => in_prefix p kv.1 = true)) by done. rewrite fmap_cons. simpl.
    pose proof Ep as [k' ->]%in_prefix_spec. rewrite strip_prefix.
    destruct (decide (slt k' k)) as [Hk|Hk].
    + rewrite !filter_cons_False by (simpl; rewrite ?prefix_string_slt; tauto). done.
    + rewrite !filter_cons_True by (simpl; rewrite ?prefix_string_slt; tauto). simpl.
      by rewrite Ep, strip_prefix.
  - rewrite (filter_cons_False (fun kv => in_prefix p kv.1 = true)) by (simpl; congruence).
    destruct (decide (slt k0 (prefix_string p k))) as [Hk|Hk].
    + by rewrite filter_cons_False by (simpl; tauto).
    + rewrite filter_cons_True by (simpl; tauto). simpl. rewrite Ep.
      destruct (filter _ (_ <$> _)) as [|[k1 v1] rest] eqn:Ef; [done|]. exfalso.
      assert (Hin : (k1, v1) ∈ (k1, v1) :: rest) by set_solver.
      rewrite <- Ef in Hin. apply list_elem_of_filter in Hin as [_ ([k2 v2] & _ & Hin)%list_elem_of_fmap].
      apply list_elem_of_filter in Hin as [Hp Hin]. apply in_prefix_spec in Hp as [k' Hp]. simpl in Hp. subst k2.
      rewrite Forall_forall in HF. apply HF in Hin. simpl in Hin.
      destruct (prefix_convex p k k' k0 Hk Hin) as [k'' Hk'']. rewrite (proj2 (in_prefix_spec p k0)) in Ep; eauto; done.
Qed.

(** ** Properties *)

Definition result {S A} (x : res (A * S)) : res A := '(a, _) ← x; Ok a.

Section iterator_properties.
Context {W : Type} {NS : NodeStore W} {NSL : NodeStoreLaws W} {SC : SliceCompare} {SL : SliceLaws}.

Lemma cursor_new r t w root : winv r ∅ w -> w_ptr w root (Old t) ->
  cursor r t w None (w, new_raw_iterator root).
Proof. intros Hw Hr. exists [], None. split; [|done]. split; [done|by split|constructor|done]. Qed.

Lemma run_its_result r t w0 fuel ops : bst t -> (height t < fuel)%nat -> forall c s, cursor r t w0 c s ->
  result (run_its fuel ops s) = spec_its (elements t) ops c.
Proof.
  intros Hb Hf. induction ops as [|op ops IH]; intros c s Hc; [done|].
  cbn [run_its spec_its]. destruct (spec_it (elements t) op c) as [c'| |] eqn:Hs.
  - assert (exists s', iter_step fuel op s = Ok (tt, s') /\ cursor r t w0 c' s') as (s1 & E1 & Hc1).
    { pose proof (wp_iter_step r t Hb w0 fuel op c c' s Hf Hs Hc) as Hwp. apply wp_run in Hwp as ([] & s' & ? & ?). eauto. }
    pose proof (wp_observe r t w0 c' s1 Hc1) as Hwp. apply wp_run in Hwp as (x & s2 & E2 & -> & Hc2).
    specialize (IH c' s2 Hc2). unfold result in IH |- *. unfold mbind at 2 3 4, M_bind. rewrite E1, E2. simpl. rewrite <- IH.
    by destruct (run_its fuel ops s2) as [[out s3]| |].
  - destruct c as [[k v]|]; [by destruct op|]. unfold result, mbind at 2, M_bind.
    by rewrite (iter_step_fails r t w0 fuel op s Hs Hc).
  - by destruct op, c as [[k v]|].
Qed.

(** C15: a raw iterator over a snapshot is a cursor on its sorted entries: for any
    sequence of SeekToFirst, SeekToLast, Seek, Next and Prev, including turns of
    direction, the validity, key and value seen after each call are the
    cursor's, and Next and Prev stop on their assertion exactly when the cursor
    is not at an entry. *)
Theorem iterator_refines_cursor r t fuel ops w root :
  bst t -> (height t < fuel)%nat -> winv r ∅ w -> w_ptr w root (Old t) ->
  result (run_its fuel ops (w, new_raw_iterator root)) = spec_its (elements t) ops None.
Proof. intros Hb Hf Hw Hr. eapply run_its_result; [done..|]. by apply cursor_new. Qed.

Definition prefix_observe (p : string) : IM (option (string * string)) :=
  v ← Prefix_Valid p;
  if (v : bool) then k ← Filtered_key p; x ← value; mret (Some (k, x)) else mret None.

Lemma wp_Prefix_Valid r t w0 p c s : cursor r t w0 c s ->
  wp (Prefix_Valid p) (fun b s' => cursor r t w0 c s' /\ b = if c is Some (k, _) then in_prefix p k else false) s.
Proof.
  intros Hc. unfold Prefix_Valid. apply wp_bind. eapply wp_conseq; [by eapply wp_Valid|]. intros b s1 [-> ->].
  destruct c as [[k v]|]; simpl; [|by apply wp_ret].
  apply wp_bind. eapply wp_conseq; [by eapply wp_at_key|]. intros a s1 [Hc1 ->]. by apply wp_ret.
Qed.

Lemma wp_prefix_observe r t w0 p c s : cursor r t w0 c s ->
  wp (prefix_observe p) (fun x s' => cursor r t w0 c s' /\ x = user_entry p c) s.
Proof.
  intros Hc. unfold prefix_observe. apply wp_bind. eapply wp_conseq; [by apply wp_Prefix_Valid|]. intros b s1 [Hc1 ->].
  destruct c as [[k v]|]; simpl; [|by apply wp_ret]. destruct (in_prefix p k); [|by apply wp_ret].
  apply wp_bind. unfold Filtered_key. apply wp_bind. eapply wp_conseq; [by eapply wp_at_key|]. intros a s2 [Hc2 ->].
  apply wp_ret, wp_bind. eapply wp_conseq; [by eapply wp_at_value|]. intros a s3 [Hc3 ->]. by apply wp_ret.
Qed.

(** The iterator users get seeks among the entries of its prefix only: after
    Seek(target) it is valid exactly when some user key at or past the target
    exists, and then shows the least one, with the prefix removed. *)
Theorem prefix_seek_filters r t fuel p target w root :
  bst t -> (height t < fuel)%nat -> winv r ∅ w -> w_ptr w root (Old t) ->
  result ((Prefix_Seek fuel p target;; prefix_observe p) (w, new_raw_iterator root)) =
  Ok (head (from target (user_entries p (elements t)))).
Proof.
  intros Hb Hf Hw Hr. pose proof (cursor_new r t w root Hw Hr) as Hc.
  assert (wp (Prefix_Seek fuel p target;; prefix_observe p)
    (fun x s' => x = head (from target (user_entries p (elements t)))) (w, new_raw_iterator root)) as Hwp.
  { apply wp_bind. eapply wp_conseq; [by eapply (wp_iter_step r t Hb w fuel (ItSeek (prefix_string p target)))|].
    intros [] s1 Hc1. eapply wp_conseq; [by eapply wp_prefix_observe|]. intros x s2 [_ ->]. by apply user_seek. }
  apply wp_run in Hwp as (x & s' & -> & ->). done.
Qed.

(** SeekToLast of a prefix iterator ignores the prefix: its test for a key of
    the prefix past every key of the prefix never succeeds, so it always goes to
    the last entry of the whole tree, and is invalid there when that entry
    belongs to another prefix, whatever keys its own prefix has. *)
Theorem prefix_seek_to_last_ignores_prefix r t fuel p w root :
  bst t -> (height t < fuel)%nat -> winv r ∅ w -> w_ptr w root (Old t) ->
  result ((Prefix_SeekToLast fuel p;; prefix_observe p) (w, new_raw_iterator root)) =
  Ok (user_entry p (last (elements t))).
Proof.
  intros Hb Hf Hw Hr. pose proof (cursor_new r t w root Hw Hr) as Hc.
  assert (wp (Prefix_SeekToLast fuel p;; prefix_observe p)
    (fun x s' => x = user_entry p (last (elements t))) (w, new_raw_iterator root)) as Hwp.
  { apply wp_bind. unfold Prefix_SeekToLast. set (past := (p ++ String Ascii.one "")%string).
    apply wp_bind. eapply wp_conseq; [by eapply (wp_iter_step r t Hb w fuel (ItSeek past))|].
    intros [] s1 Hc1. apply wp_bind. eapply wp_conseq; [by eapply wp_Prefix_Valid|]. intros b s2 [Hc2 ->].
    assert ((if head (from past (elements t)) is Some (k, _) then in_prefix p k else false) = false) as ->.
    { destruct (head (from past (elements t))) as [[k v]|] eqn:Eh; [|done].
      apply not_true_is_false. intros [k' ->]%in_prefix_spec. apply head_Some_elem_of in Eh.
      apply list_elem_of_filter in Eh as [Eh _]. apply Eh, prefix_below_past. }
    eapply wp_conseq; [by eapply (wp_iter_step r t Hb w fuel ItLast)|]. intros [] s3 Hc3.
    eapply wp_conseq; [by eapply wp_prefix_observe|]. by intros x s4 [_ ->]. }
  apply wp_run in Hwp as (x & s' & -> & ->). done.
Qed.
End iterator_properties.

(** ** Concrete runs *)

Definition demo_root : NodePtr := mkNodePtr (Some 3%positive) (Some (make_address 7 1 true)) true.

Lemma demo_root_denotes : winv (-1) ∅ demo_heap /\ w_ptr demo_heap demo_root (Old demo_tree).
Proof.
  split; [split; [reflexivity|intros l an Hl; by rewrite lookup_empty in Hl]|].
  split; [apply demo_denotes|]. intros _. split; [done|by eexists].
Qed.

Lemma iterator_refines_cursor_witness :
  bst demo_tree /\
  result (run_its 9 [ItFirst; ItNext; ItPrev; ItSeek "aa"; ItNext; ItNext] (demo_heap, new_raw_iterator demo_root)) =
  spec_its (elements demo_tree) [ItFirst; ItNext; ItPrev; ItSeek "aa"; ItNext; ItNext] None.
Proof.
  split; [apply demo_tree_rb|].
  apply (iterator_refines_cursor (-1) demo_tree 9); [apply demo_tree_rb|vm_compute; lia|apply demo_root_denotes..].
Defined.

(** A snapshot with one key of each prefix. *)
Definition demo_ptree : tree := T false (T true E (prefix_string "C" "1") "x" E) (prefix_string "U" "a") "y" E.

Definition demo_pheap : MemStore :=
  <[2%positive := mkNode (mkNodePtr (Some Nil) None true) (mkNodePtr (Some Nil) None true)
      (prefix_string "C" "1") "x" true 7 true]>
  (<[3%positive := mkNode (mkNodePtr (Some 2%positive) (Some (make_address 7 0 true)) true)
      (mkNodePtr (Some Nil) None true) (prefix_string "U" "a") "y" false 7 true]> mem_empty).

Lemma demo_ptree_denotes : bst demo_ptree /\ winv (-1) ∅ demo_pheap /\ w_ptr demo_pheap demo_root (Old demo_ptree).
Proof.
  split; [unfold bst; repeat constructor|].
  split; [split; [reflexivity|intros l an Hl; by rewrite lookup_empty in Hl]|].
  split; [|intros _; split; [done|by eexists]].
  split; [done|]. eexists. split; [reflexivity|]. split_and!; try done.
  split; [|intros _; split; [done|by eexists]]. split; [done|].
  eexists. split; [reflexivity|]. by split_and!.
Qed.

Lemma prefix_seek_filters_witness :
  result ((Prefix_Seek 9 "C" "0";; prefix_observe "C") (demo_pheap, new_raw_iterator demo_root)) =
  Ok (Some ("1", "x")%string).
Proof.
  rewrite (prefix_seek_filters (-1) demo_ptree 9); [reflexivity|apply demo_ptree_denotes|vm_compute; lia|apply demo_ptree_denotes..].
Defined.

(** [C] has a key, and its iterator does not find a last one. *)
Lemma prefix_seek_to_last_ignores_prefix_witness :
  result ((Prefix_SeekToLast 9 "C";; prefix_observe "C") (demo_pheap, new_raw_iterator demo_root)) = Ok None.
Proof.
  rewrite (prefix_seek_to_last_ignores_prefix (-1) demo_ptree 9);
    [reflexivity|apply demo_ptree_denotes|vm_compute; lia|apply demo_ptree_denotes..].
Defined.
