(* ===== verification/LruCache.v ===== *)
(** The least-recently-used cache of src/src/db/lru_cache.hpp: a map whose
    entries hold an iterator into the list of keys, most recent first. *)
From S2P Require Import Prelude.

(** ** [std::list]

    A node of a [std::list] keeps its identity, which is what an iterator
    holds, until it is erased. *)

Record stdlist (K : Type) : Type := mkStdlist {
  sl_nodes : list (positive * K);
  sl_next : positive;
}.
Arguments mkStdlist {_} _ _.
Arguments sl_nodes {_} _.
Arguments sl_next {_} _.

Definition sl_empty {K} : stdlist K := mkStdlist [] 1%positive.

(** [push_front], and the iterator [begin()] has afterwards. *)
Definition sl_push_front {K} (k : K) (l : stdlist K) : positive * stdlist K :=
  (sl_next l, mkStdlist ((sl_next l, k) :: sl_nodes l) (Pos.succ (sl_next l))).

Definition sl_erase {K} (j : positive) (l : stdlist K) : stdlist K :=
  mkStdlist (filter (fun x => x.1 <> j) (sl_nodes l)) (sl_next l).

Definition sl_begin {K} (l : stdlist K) : option positive := fst <$> head (sl_nodes l).
Definition sl_back {K} (l : stdlist K) : option (positive * K) := last (sl_nodes l).
Definition sl_keys {K} (l : stdlist K) : list K := (sl_nodes l).*2.

(** The identities are distinct and older than the next one. *)
Definition sl_ok {K} (l : stdlist K) : Prop :=
  NoDup (sl_nodes l).*1 /\ Forall (fun x => (x.1 < sl_next l)%positive) (sl_nodes l).

Section stdlist_lemmas.
Context {K : Type} `{EqDecision K}.
Implicit Types l : stdlist K.

Fixpoint without (k : K) (ks : list K) : list K :=
  match ks with
  | [] => []
  | x :: ks => if decide (x = k) then without k ks else x :: without k ks
  end.

Lemma without_absent k ks : k ∉ ks -> without k ks = ks.
Proof.
  induction ks as [|x ks IH]; [done|]. rewrite not_elem_of_cons. intros [Hx Hks]. simpl.
  rewrite decide_False by done. by rewrite IH.
Qed.

Lemma elem_of_without x k ks : x ∈ without k ks <-> x <> k /\ x ∈ ks.
Proof.
  induction ks as [|y ks IH]; simpl; [set_solver|].
  destruct (decide (y = k)); rewrite ?elem_of_cons, IH; naive_solver.
Qed.

Lemma NoDup_without k ks : NoDup ks -> NoDup (without k ks).
Proof.
  induction 1 as [|x ks Hx Hn IH]; simpl; [constructor|].
  destruct (decide (x = k)); [done|]. apply NoDup_cons. rewrite elem_of_without. tauto.
Qed.

Lemma sl_ok_empty : sl_ok (@sl_empty K).
Proof. split; constructor. Qed.

Lemma sl_ok_push k l : sl_ok l -> sl_ok (sl_push_front k l).2.
Proof.
  intros [Hn Hf]. rewrite Forall_forall in Hf. split; simpl.
  - apply NoDup_cons. split; [|done]. intros (x & E & Hx)%list_elem_of_fmap. apply Hf in Hx. lia.
  - constructor; [simpl; lia|]. apply Forall_forall. intros x Hx. apply Hf in Hx. lia.
Qed.

Lemma sl_ok_erase j l : sl_ok l -> sl_ok (sl_erase j l).
Proof.
  intros [Hn Hf]. split; simpl.
  - eapply sublist_NoDup; [exact Hn|]. apply fmap_sublist, sublist_filter.
  - rewrite Forall_forall in Hf |- *. intros x [_ Hx]%list_elem_of_filter. by apply Hf.
Qed.

Lemma sl_keys_push k l : sl_keys (sl_push_front k l).2 = k :: sl_keys l.
Proof. done. Qed.

(** Erasing an iterator erases exactly its key. *)
Lemma sl_keys_erase j k l : sl_ok l -> NoDup (sl_keys l) -> (j, k) ∈ sl_nodes l ->
  sl_keys (sl_erase j l) = without k (sl_keys l).
Proof.
  intros [Hn _]. unfold sl_keys, sl_erase. simpl. induction (sl_nodes l) as [|[i x] ns IH]; [done|].
  simpl in *. intros Hk Hin. apply NoDup_cons in Hn as [Hi Hn], Hk as [Hx Hk].
  apply elem_of_cons in Hin as [Heq|Hin].
  - injection Heq as -> ->. rewrite decide_True by done. rewrite (filter_cons_False _ (i, x)) by (simpl; tauto).
    rewrite without_absent, filter_all; [done|..|done]. apply Forall_forall. intros y Hy Ey.
    apply Hi, list_elem_of_fmap. by exists y.
  - rewrite decide_False.
    + rewrite (filter_cons_True _ (i, x)); [rewrite fmap_cons; f_equal; by apply IH|].
      simpl. intros ->. apply Hi, list_elem_of_fmap. by exists (j, k).
    + intros ->. apply Hx, list_elem_of_fmap. by exists (j, k).
Qed.

Lemma sl_erase_in j i k l : (i, k) ∈ sl_nodes (sl_erase j l) <-> i <> j /\ (i, k) ∈ sl_nodes l.
Proof. unfold sl_erase. simpl. by rewrite list_elem_of_filter. Qed.
End stdlist_lemmas.

(** Equal identities are one list node. *)
Lemma NoDup_fst_inj {A B} (l : list (A * B)) i x y : NoDup l.*1 -> (i, x) ∈ l -> (i, y) ∈ l -> x = y.
Proof.
  induction l as [|[j z] l IH]; [by intros _ ?%not_elem_of_nil|].
  rewrite fmap_cons. intros [Hj Hn]%NoDup_cons Hx Hy.
  apply elem_of_cons in Hx as [Ex|Hx], Hy as [Ey|Hy]; simplify_eq/=; auto.
  - destruct Hj. apply list_elem_of_fmap. by exists (j, y).
  - destruct Hj. apply list_elem_of_fmap. by exists (j, x).
Qed.

(** ** The cache *)

Record lru_cache (K V : Type) `{Countable K} : Type := mkLru {
  m_map : gmap K (V * positive);
  m_list : stdlist K;
  m_capacity : nat;
}.
Arguments mkLru {_ _ _ _} _ _ _.
Arguments m_map {_ _ _ _} _.
Arguments m_list {_ _ _ _} _.
Arguments m_capacity {_ _ _ _} _.

Section lru.
Context {K V : Type} `{Countable K}.
Implicit Types c : lru_cache K V.

Definition new_lru (capacity : nat) : lru_cache K V := mkLru ∅ sl_empty capacity.
Definition lru_size c : nat := size (m_map c).
Definition lru_empty c : bool := bool_decide (m_map c = ∅).
Definition lru_contains (k : K) c : bool := bool_decide (is_Some (m_map c !! k)).

(** On an empty list [--m_list.end()] is not an iterator: the process is lost. *)
Definition lru_evict : M (lru_cache K V) unit := fun c =>
  match sl_back (m_list c) with
  | None => AssertFail
  | Some (i, k) => Ok (tt, mkLru (delete k (m_map c)) (sl_erase i (m_list c)) (m_capacity c))
  end.

Definition lru_insert (k : K) (v : V) : M (lru_cache K V) unit :=
  c ← get;
  match m_map c !! k with
  | Some _ => mret tt
  | None =>
    (if (m_capacity c <=? lru_size c)%nat then lru_evict else mret tt);;
    modify (fun c =>
      let '(i, l) := sl_push_front k (m_list c) in
      mkLru (<[k := (v, i)]> (m_map c)) l (m_capacity c))
  end.

Definition lru_get (k : K) : M (lru_cache K V) (option V) :=
  c ← get;
  match m_map c !! k with
  | None => mret None
  | Some (v, j) =>
    if decide (sl_begin (m_list c) = Some j) then mret (Some v)
    else
      let '(i, l) := sl_push_front k (sl_erase j (m_list c)) in
      put (mkLru (<[k := (v, i)]> (m_map c)) l (m_capacity c));;
      mret (Some v)
  end.

Definition lru_clear c : lru_cache K V := mkLru ∅ (mkStdlist [] (sl_next (m_list c))) (m_capacity c).

(** ** Specification: the entries in order of recency *)

Definition recent : Type := list (K * V).

Definition spec_find (k : K) (l : recent) : option V := list_to_map (M := gmap K V) l !! k.
Fixpoint spec_remove (k : K) (l : recent) : recent :=
  match l with
  | [] => []
  | (x, v) :: l => if decide (x = k) then spec_remove k l else (x, v) :: spec_remove k l
  end.
Definition spec_lru_get (k : K) (l : recent) : option V * recent :=
  match spec_find k l with
  | None => (None, l)
  | Some v => (Some v, (k, v) :: spec_remove k l)
  end.
Definition spec_lru_insert (cap : nat) (k : K) (v : V) (l : recent) : recent :=
  match spec_find k l with
  | None => (k, v) :: take (cap - 1) l
  | Some _ => l
  end.

(** The cache holds the entries [l]. *)
Record lru_holds (c : lru_cache K V) (l : recent) : Prop := {
  lh_ok : sl_ok (m_list c);
  lh_keys : sl_keys (m_list c) = l.*1;
  lh_nodup : NoDup l.*1;
  lh_map : fst <$> m_map c = list_to_map l;
  lh_iter k v i : m_map c !! k = Some (v, i) -> (i, k) ∈ sl_nodes (m_list c);
  lh_cap : (Datatypes.length l <= m_capacity c)%nat;
}.

Lemma spec_find_map c l k : lru_holds c l -> spec_find k l = fst <$> m_map c !! k.
Proof. intros Hc. unfold spec_find. by rewrite <- (lh_map _ _ Hc), lookup_fmap. Qed.

Lemma lru_size_length c l : lru_holds c l -> lru_size c = length l.
Proof.
  intros Hc. unfold lru_size. rewrite <- (map_size_fmap fst), (lh_map _ _ Hc).
  apply map_size_list_to_map, Hc.
Qed.

Lemma new_lru_holds cap : lru_holds (new_lru cap) [].
Proof. split; try done; [apply sl_ok_empty|constructor|simpl; lia]. Qed.

Lemma spec_remove_keys k l : (spec_remove k l).*1 = without k l.*1.
Proof. induction l as [|[x v] l IH]; simpl; [done|]. destruct (decide (x = k)); [done|]. simpl. by f_equal. Qed.

Lemma spec_remove_absent k l : k ∉ l.*1 -> spec_remove k l = l.
Proof.
  induction l as [|[x v] l IH]; [done|]. rewrite fmap_cons, not_elem_of_cons. intros [Hx Hl]. simpl in *.
  rewrite decide_False by done. by rewrite IH.
Qed.

Lemma spec_remove_app k l l' : spec_remove k (l ++ l') = spec_remove k l ++ spec_remove k l'.
Proof. induction l as [|[x v] l IH]; simpl; [done|]. destruct (decide (x = k)); [done|]. simpl. by f_equal. Qed.

Lemma length_spec_remove k l : (length (spec_remove k l) <= length l)%nat.
Proof. induction l as [|[x v] l IH]; simpl; [lia|]. destruct (decide (x = k)); simpl; lia. Qed.

Lemma spec_find_remove k k' l : spec_find k' (spec_remove k l) = if decide (k' = k) then None else spec_find k' l.
Proof.
  unfold spec_find. induction l as [|[x v] l IH]; simpl; [by destruct (decide _)|].
  destruct (decide (x = k)) as [->|Hx]; [|simpl; destruct (decide (k' = x)) as [->|Hk']].
  - rewrite IH. destruct (decide (k' = k)) as [|Hk]; [done|]. by rewrite lookup_insert_ne by congruence.
  - rewrite !lookup_insert_eq. by rewrite decide_False by congruence.
  - by rewrite !lookup_insert_ne by congruence.
Qed.

(** Dropping the last entry of a list without duplicates. *)
Lemma remove_last (l : recent) k v : NoDup (l ++ [(k, v)]).*1 -> spec_remove k (l ++ [(k, v)]) = l.
Proof.
  rewrite fmap_app. intros (_ & Hd & _)%NoDup_app. rewrite spec_remove_app. simpl.
  rewrite decide_True, app_nil_r by done. apply spec_remove_absent. intros Hin. by apply (Hd k Hin); left.
Qed.

(** Removing a key, and putting one at the front, keep the structure. *)
Lemma holds_remove c l i k : lru_holds c l -> (i, k) ∈ sl_nodes (m_list c) ->
  lru_holds (mkLru (delete k (m_map c)) (sl_erase i (m_list c)) (m_capacity c)) (spec_remove k l).
Proof.
  intros [Hok Hk Hn Hm Hi Hcap] Hin. split; simpl.
  - by apply sl_ok_erase.
  - rewrite spec_remove_keys, <- Hk. apply sl_keys_erase; [done|by rewrite Hk|done].
  - rewrite spec_remove_keys. by apply NoDup_without.
  - apply map_eq. intros k'. rewrite fmap_delete, Hm.
    pose proof (spec_find_remove k k' l) as Hf. unfold spec_find in Hf. rewrite Hf.
    destruct (decide (k' = k)) as [->|]; [by rewrite lookup_delete_eq|by rewrite lookup_delete_ne].
  - intros k' v' i' [Hne Hl]%lookup_delete_Some. apply sl_erase_in. apply Hi in Hl. split; [|done].
    intros ->. apply Hne. destruct Hok as [Hnd _].
    by eapply (NoDup_fst_inj _ _ _ _ Hnd).
  - etransitivity; [apply length_spec_remove|done].
Qed.

Lemma holds_push c l k v : lru_holds c l -> k ∉ l.*1 -> (S (length l) <= m_capacity c)%nat ->
  lru_holds (mkLru (<[k := (v, sl_next (m_list c))]> (m_map c)) (sl_push_front k (m_list c)).2 (m_capacity c))
    ((k, v) :: l).
Proof.
  intros [Hok Hk Hn Hm Hi Hcap] Hnew Hlen. split; simpl.
  - by apply sl_ok_push.
  - change (k :: sl_keys (m_list c) = k :: l.*1). by rewrite Hk.
  - by apply NoDup_cons.
  - by rewrite fmap_insert, Hm.
  - intros k' v' i' [[<- [= <- <-]]|[Hne Hl]]%lookup_insert_Some; [by left|right; by eapply Hi].
  - done.
Qed.

Lemma spec_find_elem (l : recent) k : is_Some (spec_find k l) <-> k ∈ l.*1.
Proof. unfold spec_find. by rewrite <- elem_of_dom, dom_list_to_map, elem_of_list_to_set. Qed.

(** [insert] of a new key evicts the least recent entry of a full cache. *)
Lemma lru_insert_spec k v c l : (0 < m_capacity c)%nat -> lru_holds c l ->
  wp (lru_insert k v) (fun _ c' => m_capacity c' = m_capacity c /\
    lru_holds c' (spec_lru_insert (m_capacity c) k v l)) c.
Proof.
  intros Hcap Hc. unfold lru_insert. apply wp_bind, wp_get. pose proof (spec_find_map c l k Hc) as Hf.
  unfold spec_lru_insert. destruct (m_map c !! k) as [e|] eqn:Hk.
  { rewrite Hf. by apply wp_ret. }
  rewrite Hf. simpl. assert (k ∉ l.*1) as Hnew by (rewrite <- spec_find_elem, Hf; by intros []).
  apply wp_bind. apply (wp_conseq _ (fun _ c' => m_capacity c' = m_capacity c /\
    lru_holds c' (take (m_capacity c - 1) l))).
  - pose proof (lh_cap _ _ Hc). rewrite (lru_size_length c l Hc). destruct (m_capacity c <=? length l)%nat eqn:Ecap.
    + apply Nat.leb_le in Ecap. destruct (exists_last (l := l)) as [l0 [[k0 v0] ->]]; [intros ->; simpl in *; lia|].
      unfold wp, lru_evict. pose proof (lh_keys _ _ Hc) as Hks. unfold sl_back, sl_keys in *.
      rewrite fmap_app in Hks. destruct (exists_last (l := sl_nodes (m_list c))) as [ns [[i k1] En]].
      { intros En. rewrite En in Hks. by destruct l0. }
      rewrite En, fmap_app in Hks. apply app_inj_tail in Hks as [_ [= Ek]]. simpl in Ek. subst k1.
      rewrite En, last_snoc. split; [done|].
      rewrite length_app in *. simpl in *. replace (m_capacity c - 1)%nat with (length l0) by lia.
      rewrite take_app_length. rewrite <- (remove_last l0 k0 v0) at 1 by apply Hc.
      apply holds_remove; [done|]. rewrite En. set_solver.
    + apply Nat.leb_gt in Ecap. apply wp_ret. split; [done|]. by rewrite take_ge by lia.
  - intros _ c' [Ec Hc']. apply wp_modify. simpl. split; [done|]. rewrite <- Ec in *. apply holds_push; [done|..].
    + intros Hin. apply Hnew. rewrite <- (take_drop (m_capacity c' - 1) l), fmap_app. set_solver.
    + rewrite length_take. lia.
Qed.

Lemma lru_get_spec k c l : lru_holds c l ->
  wp (lru_get k) (fun o c' => m_capacity c' = m_capacity c /\ o = fst (spec_lru_get k l) /\
    lru_holds c' (snd (spec_lru_get k l))) c.
Proof.
  intros Hc. unfold lru_get. apply wp_bind, wp_get. pose proof (spec_find_map c l k Hc) as Hf.
  unfold spec_lru_get. rewrite Hf. destruct (m_map c !! k) as [[v j]|] eqn:Hk; simpl; [|by apply wp_ret].
  pose proof (lh_iter _ _ Hc _ _ _ Hk) as Hj. destruct (decide _) as [Hb|Hb].
  - apply wp_ret. split_and!; [done..|]. unfold sl_begin in Hb.
    pose proof (lh_keys _ _ Hc) as Hks. unfold sl_keys in Hks.
    destruct (sl_nodes (m_list c)) as [|[i k0] ns] eqn:En; simplify_eq/=.
    assert (k = k0) as <-. { eapply NoDup_fst_inj; [|exact Hj|left]. destruct (lh_ok _ _ Hc) as [Hnd _]. by rewrite En in Hnd. }
    destruct l as [|[k1 v1] l]; simplify_eq/=. unfold spec_find in Hf. simpl in Hf. rewrite lookup_insert_eq in Hf.
    simplify_eq. simpl. rewrite decide_True by done. rewrite spec_remove_absent; [done|].
    pose proof (lh_nodup _ _ Hc) as Hnd. rewrite fmap_cons in Hnd. by apply NoDup_cons in Hnd as [Hnd _].
  - apply wp_bind, wp_put, wp_ret. split_and!; [done..|].
    pose proof (holds_remove c l j k Hc Hj) as Hr. pose proof (lh_cap _ _ Hc).
    assert (S (length (spec_remove k l)) <= length l)%nat as Hlen.
    { assert (k ∈ l.*1) as Hin by (rewrite <- spec_find_elem, Hf; by eexists).
      apply list_elem_of_fmap in Hin as ([k0 v0] & -> & Hin).
      apply list_elem_of_split in Hin as (l1 & l2 & ->). rewrite spec_remove_app, !length_app. simpl.
      rewrite decide_True by done. pose proof (length_spec_remove k0 l1). pose proof (length_spec_remove k0 l2). lia. }
    assert (k ∉ (spec_remove k l).*1) as Hnew.
    { rewrite <- spec_find_elem, spec_find_remove, decide_True by done. by intros []. }
    assert (S (length (spec_remove k l)) <= m_capacity c)%nat as Hle by lia.
    pose proof (holds_push _ _ k v Hr Hnew Hle) as Hp. simpl in Hp. by rewrite insert_delete_eq in Hp.
Qed.
End lru.

(** ** Properties *)

Inductive lru_op (K V : Type) : Type :=
| LGet (k : K)
| LInsert (k : K) (v : V)
| LContains (k : K)
| LClear.
Arguments LGet {_ _} _.
Arguments LInsert {_ _} _ _.
Arguments LContains {_ _} _.
Arguments LClear {_ _}.

Section lru_properties.
Context {K V : Type} `{Countable K}.

(** What a call shows: the value of [get], the answer of [contains] as a value or none. *)
Definition lru_step (op : lru_op K V) : M (lru_cache K V) (option V * bool) :=
  match op with
  | LGet k => v ← lru_get k; mret (v, bool_decide (is_Some v))
  | LInsert k v => lru_insert k v;; mret (None, false)
  | LContains k => c ← get; mret (None, lru_contains k c)
  | LClear => modify lru_clear;; mret (None, false)
  end.

Definition spec_lru_step (cap : nat) (op : lru_op K V) (l : recent) : option V * bool * recent :=
  match op with
  | LGet k => let '(v, l) := spec_lru_get k l in (v, bool_decide (is_Some v), l)
  | LInsert k v => (None, false, spec_lru_insert cap k v l)
  | LContains k => (None, bool_decide (is_Some (spec_find k l)), l)
  | LClear => (None, false, [])
  end.

Fixpoint run_lru (ops : list (lru_op K V)) : M (lru_cache K V) (list (option V * bool)) :=
  match ops with
  | [] => mret []
  | op :: ops => x ← lru_step op; out ← run_lru ops; mret (x :: out)
  end.

Fixpoint spec_run_lru (cap : nat) (ops : list (lru_op K V)) (l : recent) : list (option V * bool) * recent :=
  match ops with
  | [] => ([], l)
  | op :: ops =>
    let '(x, l) := spec_lru_step cap op l in
    let '(out, l) := spec_run_lru cap ops l in (x :: out, l)
  end.

Lemma lru_step_spec op c l : (0 < m_capacity c)%nat -> lru_holds c l ->
  wp (lru_step op) (fun x c' => m_capacity c' = m_capacity c /\
    x = fst (spec_lru_step (m_capacity c) op l) /\ lru_holds c' (snd (spec_lru_step (m_capacity c) op l))) c.
Proof.
  intros Hcap Hc. destruct op as [k|k v|k|]; simpl; apply wp_bind.
  - eapply wp_conseq; [by apply lru_get_spec|]. intros o c' (Ec & -> & Hc'). apply wp_ret.
    by destruct (spec_lru_get k l).
  - eapply wp_conseq; [by apply lru_insert_spec|]. intros [] c' (Ec & Hc'). by apply wp_ret.
  - apply wp_get, wp_ret. split_and!; [done| |done]. unfold lru_contains. f_equal.
    apply bool_decide_ext. rewrite (spec_find_map c l k Hc). by rewrite fmap_is_Some.
  - apply wp_modify, wp_ret. split_and!; [done..|]. split; try done; [split; [constructor|done]|constructor|simpl; lia].
Qed.

(** C16: the cache is a least-recently-used cache: for any sequence of get,
    insert, contains and clear on a new cache of positive capacity, no iterator
    is used after its erasure, the answers are those of a list of entries kept
    in order of use that drops its last entry when a new key finds it full, the
    entries are exactly that list's, and there are never more of them than the
    capacity. An insert of a present key changes nothing. *)
Theorem lru_refines_recency cap ops : (0 < cap)%nat ->
  wp (run_lru ops) (fun out c => out = fst (spec_run_lru cap ops []) /\
    (forall k, fst <$> m_map c !! k = spec_find k (snd (spec_run_lru cap ops []))) /\
    sl_keys (m_list c) = (snd (spec_run_lru cap ops [])).*1 /\
    (lru_size c <= cap)%nat) (new_lru cap).
Proof.
  intros Hcap. assert (forall ops c l, m_capacity c = cap -> lru_holds c l ->
    wp (run_lru ops) (fun out c => m_capacity c = cap /\ out = fst (spec_run_lru cap ops l) /\
      lru_holds c (snd (spec_run_lru cap ops l))) c) as Hrun.
  { clear ops. induction ops as [|op ops IH]; intros c l Ec Hc; [by apply wp_ret|]. cbn [run_lru spec_run_lru].
    apply wp_bind. subst cap. eapply wp_conseq; [by apply lru_step_spec|]. intros x c1 (Ec1 & -> & Hc1).
    apply wp_bind. destruct (spec_lru_step (m_capacity c) op l) as [y l1].
    eapply wp_conseq; [by apply (IH c1 l1)|]. intros out c2 (Ec2 & -> & Hc2). apply wp_ret.
    by destruct (spec_run_lru (m_capacity c) ops l1). }
  eapply wp_conseq; [apply (Hrun ops (new_lru cap) []); [done|apply new_lru_holds]|].
  intros out c (Ec & -> & Hc). split_and!; [done|..].
  - intros k. symmetry. by apply spec_find_map.
  - apply Hc.
  - rewrite (lru_size_length _ _ Hc). pose proof (lh_cap _ _ Hc). lia.
Qed.

(** A cache of capacity zero has no entry to evict: the first insert steps
    back from the end of an empty list, which is undefined behaviour. *)
Theorem lru_capacity_zero k v : lru_insert k v (new_lru 0 : lru_cache K V) = AssertFail.
Proof. done. Qed.
End lru_properties.

Lemma lru_refines_recency_witness :
  let ops := [LInsert 1 10; LInsert 2 20; LGet 1; LInsert 3 30; LGet 2; LInsert 1 11; LGet 1] in
  wp (run_lru ops) (fun out c => out = fst (spec_run_lru 2 ops []) /\
    (forall k, fst <$> m_map c !! k = spec_find k (snd (spec_run_lru 2 ops []))) /\
    sl_keys (m_list c) = (snd (spec_run_lru 2 ops [])).*1 /\
    (lru_size c <= 2)%nat) (new_lru 2).
Proof. intros ops. apply (lru_refines_recency 2 ops). lia. Defined.
