(* ===== verification/NodeCache.v ===== *)
(** The node cache of src/src/db/node_cache.h and node_cache.cc: shards of
    cached nodes, the index from intentions to after images, and the vacuum. *)
From S2P Require Import Prelude Slice RBTree Node Proto LruCache.

(** ** What the cache needs of the entry service

    [src_read] is [EntryService::ReadAfterImage]; [src_next pos] is one
    [AfterImageIterator::Next] from [pos], with the position it leaves. *)
Class AfterImageSource (L : Type) : Type := {
  src_read : Z -> M L AfterImage;
  src_next : Z -> M L (option (Z * AfterImage) * Z);
}.

(** ** State *)

Definition cache_key : Type := Z * Z.

(** [struct shard]; an entry is a node and its iterator into [lru]. *)
Record shard : Type := mkShard {
  sh_nodes : gmap cache_key (loc * positive);
  sh_lru : stdlist cache_key;
}.

(** The heap of shared nodes is part of the state; [nc_src] is the entry
    service.  [stats_] only counts. *)
Record NodeCache (L : Type) : Type := mkNodeCache {
  nc_heap : gmap loc Node;
  nc_shards : list shard;
  nc_traces : list (list NodeAddress);
  nc_imap : lru_cache Z Z;
  nc_used_bytes : Z;   (* size_t *)
  nc_stop : bool;
  nc_src : L;
}.
Arguments mkNodeCache {_} _ _ _ _ _ _ _.
Arguments nc_heap {_} _.
Arguments nc_shards {_} _.
Arguments nc_traces {_} _.
Arguments nc_imap {_} _.
Arguments nc_used_bytes {_} _.
Arguments nc_stop {_} _.
Arguments nc_src {_} _.

Definition num_slots : nat := 8.

Definition new_node_cache {L} (imap_cache_size : nat) (src : L) : NodeCache L :=
  mkNodeCache {[Nil := nil_node]} (replicate num_slots (mkShard ∅ sl_empty)) [] (new_lru imap_cache_size) 0 false src.

Section setters.
Context {L : Type}.
Implicit Types w : NodeCache L.
Definition with_heap (h : gmap loc Node) w : NodeCache L :=
  mkNodeCache h (nc_shards w) (nc_traces w) (nc_imap w) (nc_used_bytes w) (nc_stop w) (nc_src w).
Definition with_shards (s : list shard) w : NodeCache L :=
  mkNodeCache (nc_heap w) s (nc_traces w) (nc_imap w) (nc_used_bytes w) (nc_stop w) (nc_src w).
Definition with_traces (t : list (list NodeAddress)) w : NodeCache L :=
  mkNodeCache (nc_heap w) (nc_shards w) t (nc_imap w) (nc_used_bytes w) (nc_stop w) (nc_src w).
Definition with_imap (i : lru_cache Z Z) w : NodeCache L :=
  mkNodeCache (nc_heap w) (nc_shards w) (nc_traces w) i (nc_used_bytes w) (nc_stop w) (nc_src w).
Definition with_used (b : Z) w : NodeCache L :=
  mkNodeCache (nc_heap w) (nc_shards w) (nc_traces w) (nc_imap w) b (nc_stop w) (nc_src w).
Definition with_stop (b : bool) w : NodeCache L :=
  mkNodeCache (nc_heap w) (nc_shards w) (nc_traces w) (nc_imap w) (nc_used_bytes w) b (nc_src w).
Definition with_src (s : L) w : NodeCache L :=
  mkNodeCache (nc_heap w) (nc_shards w) (nc_traces w) (nc_imap w) (nc_used_bytes w) (nc_stop w) s.
End setters.

(** ** Hashing *)

Section hashing.
(** [std::hash] of an integer; the same for every integer type of one value. *)
Context (std_hash : Z -> Z).

Definition hash_combine (seed v : Z) : Z :=
  Z.lxor seed (u64 (std_hash v + 0x9e3779b9 + u64 (Z.shiftl seed 6) + Z.shiftr seed 2)).

Definition pair_hash (p : cache_key) : Z :=
  let h1 := std_hash p.1 in
  let h2 := std_hash p.2 in
  hash_combine (hash_combine 0 h1) h2.

Definition slot_of (key : cache_key) : nat := Z.to_nat (pair_hash key mod Z.of_nat num_slots).
End hashing.

(** ** Reading a message *)

(** The address [deserialize_node] gives a child that is not nil: [self] goes to
    [pos] itself, and one of the two positions must be set otherwise. *)
Definition child_address (pos : Z) (p : ProtoNodePtr) : option NodeAddress :=
  let offset := u16 (default 0 (np_off p)) in
  if np_self p then Some (make_address pos offset true)
  else match np_afterimage p, np_intention p with
  | Some a, None => Some (make_address a offset true)
  | Some _, Some _ => None
  | None, Some i => Some (make_address i offset false)
  | None, None => None
  end.

Section cache.
Context {L : Type} `{AfterImageSource L}.
Context (std_hash : Z -> Z) (sizeof_node : Z) (cache_size : Z) (scan_fuel : nat).

Definition NCM : Type -> Type := M (NodeCache L).

Definition on_src {A} (m : M L A) : NCM A := zoom nc_src with_src m.
Definition on_imap {A} (m : M (lru_cache Z Z) A) : NCM A := zoom nc_imap with_imap m.

Definition byte_size (l : loc) : NCM Z := fun w =>
  match nc_heap w !! l with Some n => Ok (node_byte_size sizeof_node n, w) | None => AssertFail end.

Definition add_used (b : Z) : NCM unit := modify (fun w => with_used (u64 (nc_used_bytes w + b)) w).

(** ** The index and the traces *)

Definition IntentionToAfterImage (intention_pos : Z) : NCM (option Z) := on_imap (lru_get intention_pos).

Definition SetIntentionMapping (intention_pos after_image_pos : Z) : NCM unit :=
  on_imap (lru_insert intention_pos after_image_pos).

(** [UpdateLRU] also leaves the caller's trace empty, by the swap. *)
Definition UpdateLRU (trace : list NodeAddress) : NCM unit :=
  modify (fun w => match trace with [] => w | _ => with_traces (trace :: nc_traces w) w end).

(** ** Shards *)

Definition get_shard (key : cache_key) : NCM shard := fun w =>
  match nc_shards w !! slot_of std_hash key with Some s => Ok (s, w) | None => AssertFail end.

Definition put_shard (key : cache_key) (s : shard) : NCM unit :=
  modify (fun w => with_shards (<[slot_of std_hash key := s]> (nc_shards w)) w).

(** A hit moves the entry to the front. *)
Definition touch (key : cache_key) (node : loc) (it : positive) (s : shard) : shard :=
  let '(i, l) := sl_push_front key (sl_erase it (sh_lru s)) in
  mkShard (<[key := (node, i)]> (sh_nodes s)) l.

Definition shard_find (key : cache_key) : NCM (option loc) :=
  s ← get_shard key;
  match sh_nodes s !! key with
  | None => mret None
  | Some (node, it) => put_shard key (touch key node it s);; mret (Some node)
  end.

(** [nodes_lru_.emplace_front(key)], [nodes_.insert(...)], [assert(res.second)]. *)
Definition shard_add (key : cache_key) (node : loc) : NCM unit :=
  s ← get_shard key;
  let '(i, l) := sl_push_front key (sh_lru s) in
  assert_that (bool_decide (sh_nodes s !! key = None));;
  put_shard key (mkShard (<[key := (node, i)]> (sh_nodes s)) l);;
  b ← byte_size node;
  add_used b.

(** ** Deserialization *)

Definition nc_alloc (n : Node) : NCM loc := fun w =>
  let l := fresh (dom (nc_heap w)) in Ok (l, with_heap (<[l := n]> (nc_heap w)) w).

Definition deserialize_ptr (pos : Z) (p : ProtoNodePtr) (q : NodePtr) : NCM NodePtr :=
  if np_nil p then mret (ptr_set_ref Nil q)
  else match child_address pos p with
  | None => fail
  | Some a =>
    if IsAfterImage a then SetAfterImageAddress (Node.Position a) (Offset a) q
    else mret (SetIntentionAddress (Node.Position a) (Offset a) q)
  end.

(** [i.tree(index)] outside the message is undefined. *)
Definition deserialize_node (i : AfterImage) (pos : Z) (index : nat) : NCM loc :=
  match ai_tree i !! index with
  | None => fail
  | Some n =>
    l ← deserialize_ptr pos (pn_left n) (mkNodePtr None None true);
    r ← deserialize_ptr pos (pn_right n) (mkNodePtr None None true);
    nc_alloc (mkNode l r (pn_key n) (pn_val n) (pn_red n) (i64 (u64 (ai_intention i))) false)
  end.

(** The loop of [CacheAfterImage] from [idx], [n] nodes to go: the last node. *)
Fixpoint cache_nodes (i : AfterImage) (pos : Z) (idx n : nat) (nn : option loc) : NCM (option loc) :=
  match n with
  | O => mret nn
  | S n =>
    nn ← deserialize_node i pos idx;
    let key := (pos, Z.of_nat idx) in
    s ← get_shard key;
    match sh_nodes s !! key with
    | Some (node, _) => cache_nodes i pos (S idx) n (Some node)
    | None => shard_add key nn;; cache_nodes i pos (S idx) n (Some nn)
    end
  end.

Definition CacheAfterImage (i : AfterImage) (pos : Z) : NCM NodePtr :=
  match ai_tree i with
  | [] => mret (mkNodePtr (Some Nil) None false)
  | _ =>
    nn ← cache_nodes i pos 0 (length (ai_tree i)) None;
    assert_that (bool_decide (is_Some nn));;
    SetAfterImageAddress pos (Z.of_nat (length (ai_tree i)) - 1) (mkNodePtr nn None true)
  end.

(** ** Fetching *)

(** The scan of the log for the after image of [intention], from [pos]. *)
Fixpoint scan_after_images (fuel : nat) (intention pos : Z) : NCM Z :=
  match fuel with
  | O => no_fuel
  | S fuel =>
    '(ai, pos) ← on_src (src_next pos);
    match ai with
    | None => fail
    | Some (p, ai) => if ai_intention ai =? intention then mret p else scan_after_images fuel intention pos
    end
  end.

Definition findAfterImagePosition (address : NodeAddress) : NCM Z :=
  if IsAfterImage address then mret (Node.Position address)
  else
    tmp ← IntentionToAfterImage (Node.Position address);
    match tmp with
    | Some p => mret p
    | None =>
      let intention := Node.Position address in
      scan_after_images scan_fuel intention (u64 (intention + 1))
    end.

(** [fetch(trace, address)]: the trace is published, and left empty, before the
    log is read. *)
Definition fetch (address : NodeAddress) : M (NodeCache L * list NodeAddress) loc :=
  let lift {A} (m : NCM A) : M (NodeCache L * list NodeAddress) A := zoom fst (fun w s => (w, s.2)) m in
  afterimage ← lift (findAfterImagePosition address);
  let offset := Offset address in
  let key := (afterimage, offset) in
  found ← lift (shard_find key);
  match found with
  | Some node => mret node
  | None =>
    '(_, trace) ← get;
    lift (UpdateLRU trace);;
    modify (fun '(w, _) => (w, []));;
    ai ← lift (on_src (src_read afterimage));
    lift (CacheAfterImage ai afterimage);;
    found ← lift (shard_find key);
    match found with
    | Some node => mret node
    | None =>
      nn ← lift (deserialize_node ai afterimage (Z.to_nat offset));
      found ← lift (shard_find key);
      match found with
      | Some node => mret node
      | None => lift (shard_add key nn);; mret nn
      end
    end
  end.

(** ** Publishing a delta *)

Definition nc_set_read_only (l : loc) : NCM unit := fun w =>
  match nc_heap w !! l with
  | None => AssertFail
  | Some n => if read_only_ n then AssertFail else Ok (tt, with_heap (<[l := with_read_only n]> (nc_heap w)) w)
  end.

Fixpoint apply_delta (delta : list loc) (after_image_pos offset : Z) : NCM unit :=
  match delta with
  | [] => mret tt
  | nn :: delta =>
    nc_set_read_only nn;;
    shard_add (after_image_pos, offset) nn;;
    apply_delta delta after_image_pos (offset + 1)
  end.

Definition ApplyAfterImageDelta (delta : list loc) (after_image_pos : Z) : NCM NodePtr :=
  match last delta with
  | None => mret (mkNodePtr (Some Nil) None false)
  | Some root =>
    apply_delta delta after_image_pos 0;;
    SetAfterImageAddress after_image_pos (Z.of_nat (length delta) - 1) (mkNodePtr (Some root) None true)
  end.

(** ** Eviction *)

(** Drop the least recent entry of a shard: its size. *)
Definition evict_last (slot : nat) : NCM Z := fun w =>
  match nc_shards w !! slot with
  | None => AssertFail
  | Some s =>
    match sl_back (sh_lru s) with
    | None => AssertFail
    | Some (i, key) =>
      match sh_nodes s !! key with
      | None => AssertFail
      | Some (node, _) =>
        match nc_heap w !! node with
        | None => AssertFail
        | Some n =>
          let b := node_byte_size sizeof_node n in
          let s' := mkShard (delete key (sh_nodes s)) (sl_erase i (sh_lru s)) in
          Ok (b, with_used (u64 (nc_used_bytes w - b)) (with_shards (<[slot := s']> (nc_shards w)) w))
        end
      end
    end
  end.

Definition shard_is_empty (slot : nat) : NCM bool := fun w =>
  match nc_shards w !! slot with
  | None => AssertFail
  | Some s => Ok (bool_decide (sh_nodes s = ∅), w)
  end.

(** [while (left > 0) { if (nodes_.empty()) break; ... }] *)
Fixpoint evict_shard (fuel : nat) (slot : nat) (left : Z) : NCM unit :=
  match fuel with
  | O => no_fuel
  | S fuel =>
    if left <=? 0 then mret tt
    else
      e ← shard_is_empty slot;
      if (e : bool) then mret tt
      else b ← evict_last slot; evict_shard fuel slot (left - b)
  end.

Fixpoint evict_shards (fuel : nat) (slots : list nat) (target_bytes : Z) : NCM unit :=
  match slots with
  | [] => mret tt
  | slot :: slots => evict_shard fuel slot target_bytes;; evict_shards fuel slots target_bytes
  end.

(** The lru updates of the vacuum, on the traces it took; the keys are built
    from [Position()] without resolving intention addresses. *)
Fixpoint apply_trace (trace : list NodeAddress) : NCM unit :=
  match trace with
  | [] => mret tt
  | address :: trace => shard_find (Node.Position address, Offset address);; apply_trace trace
  end.

Fixpoint apply_traces (traces : list (list NodeAddress)) : NCM unit :=
  match traces with
  | [] => mret tt
  | trace :: traces => apply_trace trace;; apply_traces traces
  end.

(** The condition the vacuum waits for. *)
Definition vaccum_ready : NCM bool :=
  w ← get;
  mret (negb (bool_decide (nc_traces w = [])) || (cache_size <? nc_used_bytes w) || nc_stop w).

(** One round of [do_vaccum_] after its wait; [false] when it returns.  The
    traces are taken by [traces_.swap(traces_)], a list swapped with itself. *)
Definition do_vaccum_ (fuel : nat) : NCM bool :=
  w ← get;
  if nc_stop w then mret false
  else
    let traces := [] in
    apply_traces traces;;
    w ← get;
    (if cache_size <? nc_used_bytes w then
       let target_bytes := u64 (nc_used_bytes w - cache_size) / Z.of_nat num_slots in
       evict_shards fuel (seq 0 num_slots) target_bytes
     else mret tt);;
    mret true.

(** The [while] of [Clear] on one shard. *)
Fixpoint clear_shard (fuel : nat) (slot : nat) : NCM unit :=
  match fuel with
  | O => no_fuel
  | S fuel =>
    e ← shard_is_empty slot;
    if (e : bool) then mret tt else evict_last slot;; clear_shard fuel slot
  end.

Fixpoint clear_shards (fuel : nat) (slots : list nat) : NCM unit :=
  match slots with
  | [] => mret tt
  | slot :: slots => clear_shard fuel slot;; clear_shards fuel slots
  end.

Definition Clear (fuel : nat) : NCM unit :=
  modify (fun w => with_traces [] (with_imap (lru_clear (nc_imap w)) w));;
  clear_shards fuel (seq 0 num_slots).

Definition Stop : NCM unit := modify (with_stop true).
End cache.
