(* ===== verification/NodeCacheSpec.v ===== *)
(** The node cache as a node store: what an address in the log denotes, and
    that fetching it, from a shard or from the log, gives that tree. *)
From S2P Require Import Prelude Slice RBTree Node Proto LruCache NodeCache.

(** ** The contract of the entry service *)

Class AfterImageSourceLaws (L : Type) `{AfterImageSource L} : Type := {
  src_inv : L -> Prop;
  (* the after images in the log, by position *)
  src_log : L -> gmap Z AfterImage;
  src_read_law p ai l : src_inv l -> src_log l !! p = Some ai ->
    wp (src_read p) (fun x l' => x = ai /\ src_inv l' /\ src_log l' = src_log l) l;
  (* the iterator stops at the first after image at or past its position *)
  src_next_law pos p ai l : src_inv l -> src_log l !! p = Some ai -> 0 <= pos <= p ->
    (forall q, pos <= q < p -> src_log l !! q = None) ->
    wp (src_next pos) (fun x l' => x = (Some (p, ai), p + 1) /\ src_inv l' /\ src_log l' = src_log l) l;
}.

(** ** Trees in the log *)

Section log.
Context (scan_fuel : nat).

(** The primary after image of an intention: the first one in the log. *)
Definition primary (log : gmap Z AfterImage) (i p : Z) : Prop :=
  0 <= i < p /\ (exists ai, log !! p = Some ai /\ ai_intention ai = i) /\
  (forall q ai, i < q < p -> log !! q = Some ai -> ai_intention ai <> i) /\
  (Z.to_nat (p - i) <= scan_fuel)%nat.

Definition located (log : gmap Z AfterImage) (a : NodeAddress) (p : Z) : Prop :=
  if IsAfterImage a then p = Node.Position a else primary log (Node.Position a) p.

Definition child_denotes (log : gmap Z AfterImage) (image : Z -> Z -> Prop) (pos : Z) (q : ProtoNodePtr) (t : tree) : Prop :=
  if np_nil q then t = E
  else t <> E /\ exists a p, child_address pos q = Some a /\ located log a p /\ image p (Offset a).

(** Node [off] of the after image at [p], which is one of an intention before
    [horizon], is the root of a tree; an image refers to itself and to images of
    earlier intentions. *)
Fixpoint image_at (horizon : Z) (log : gmap Z AfterImage) (t : tree) (p off : Z) : Prop :=
  match t with
  | E => False
  | T c l k v r =>
    exists ai n, log !! p = Some ai /\ 0 <= p < 2 ^ 64 /\ 0 <= off < 2 ^ 16 /\
      0 <= ai_intention ai < horizon /\
      ai_tree ai !! Z.to_nat off = Some n /\
      pn_red n = c /\ pn_key n = k /\ pn_val n = v /\
      child_denotes log (image_at (ai_intention ai + 1) log l) p (pn_left n) l /\
      child_denotes log (image_at (ai_intention ai + 1) log r) p (pn_right n) r
  end.

Definition stored_in (horizon : Z) (log : gmap Z AfterImage) (a : NodeAddress) (t : tree) : Prop :=
  exists p, located log a p /\ image_at horizon log t p (Offset a).

Lemma primary_fun log i p q : primary log i p -> primary log i q -> p = q.
Proof.
  intros (Hp1 & (ai & Ha & Hi) & Hp2 & _) (Hq1 & (ai' & Ha' & Hi') & Hq2 & _).
  destruct (Z.lt_total p q) as [?|[?|?]]; [|done|].
  - destruct (Hq2 p ai); [lia|done|done].
  - destruct (Hp2 q ai'); [lia|done|done].
Qed.

Lemma located_fun log a p q : located log a p -> located log a q -> p = q.
Proof. unfold located. destruct (IsAfterImage a); [congruence|apply primary_fun]. Qed.

Lemma child_denotes_fun log h h' q pos l l' :
  (forall t' p off, image_at h log l p off -> image_at h' log t' p off -> l = t') ->
  child_denotes log (image_at h log l) pos q l -> child_denotes log (image_at h' log l') pos q l' -> l = l'.
Proof.
  unfold child_denotes. intros IH. destruct (np_nil q); [congruence|].
  intros (_ & a & p & Ha & Hl & Hi) (_ & a' & p' & Ha' & Hl' & Hi'). rewrite Ha in Ha'. injection Ha' as <-.
  rewrite (located_fun _ _ _ _ Hl Hl') in Hi. by eapply IH.
Qed.

Lemma image_at_fun log t : forall h h' t' p off, image_at h log t p off -> image_at h' log t' p off -> t = t'.
Proof.
  induction t as [|c l IHl k v r IHr]; [done|]. intros h h' [|c' l' k' v' r'] p off; [done|].
  intros (ai & n & Ha & _ & _ & _ & Hn & <- & <- & <- & Hl & Hr) (ai' & n' & Ha' & _ & _ & _ & Hn' & <- & <- & <- & Hl' & Hr').
  rewrite Ha in Ha'. injection Ha' as <-. rewrite Hn in Hn'. injection Hn' as <-.
  f_equal; eapply child_denotes_fun; eauto.
Qed.

Lemma stored_in_fun h h' log a t t' : stored_in h log a t -> stored_in h' log a t' -> t = t'.
Proof.
  intros (p & Hp & Hi) (p' & Hp' & Hi'). rewrite (located_fun _ _ _ _ Hp Hp') in Hi. by eapply image_at_fun.
Qed.

(** The horizon bounds the image of the root alone. *)
Lemma image_at_intention h log t p off : image_at h log t p off ->
  exists ai, log !! p = Some ai /\ published h (ai_intention ai).
Proof. destruct t; [done|]. intros (ai & n & Ha & _ & _ & Hi & _). by exists ai. Qed.

Lemma image_at_horizon h h' log t p off ai : log !! p = Some ai -> published h' (ai_intention ai) ->
  image_at h log t p off -> image_at h' log t p off.
Proof.
  intros Ha Hh. destruct t; [done|]. intros (ai' & n & Ha' & ? & ? & _ & Hrest).
  rewrite Ha in Ha'. injection Ha' as <-. by exists ai, n.
Qed.

Lemma image_at_mono h h' log t p off : h <= h' -> image_at h log t p off -> image_at h' log t p off.
Proof.
  intros Hh Ht. destruct (image_at_intention _ _ _ _ _ Ht) as (ai & Ha & Hi).
  eapply image_at_horizon; [done| |done]. unfold published in *. lia.
Qed.

Lemma stored_in_mono h h' log a t : h <= h' -> stored_in h log a t -> stored_in h' log a t.
Proof. intros Hh (p & ? & ?). exists p. split; [done|]. by eapply image_at_mono. Qed.

(** A well-formed child pointer has an address, or is nil. *)
Definition proto_ok (n : ProtoNode) : Prop :=
  (np_nil (pn_left n) = true \/ is_Some (child_address 0 (pn_left n))) /\
  (np_nil (pn_right n) = true \/ is_Some (child_address 0 (pn_right n))).
End log.

Section laws.
Context {L : Type} {AS : AfterImageSource L} {AL : AfterImageSourceLaws L}.
Context (std_hash : Z -> Z) (sizeof_node : Z) (scan_fuel : nat) (horizon : Z).
(** The trees that addresses of intentions without an after image stand for. *)
Context (promised : NodeAddress -> tree -> Prop).

#[export] Instance node_cache_store : NodeStore (NodeCache L) := {|
  ns_heap := nc_heap;
  ns_set_heap := with_heap;
  ns_fetch := fetch std_hash sizeof_node scan_fuel;
  ns_update_lru tr w := match UpdateLRU tr w with Ok (_, w') => w' | _ => w end;
  ns_intention_to_afterimage i w :=
    match IntentionToAfterImage i w with Ok (o, w') => (o, w') | _ => (None, w) end;
|}.

Definition nc_log (w : NodeCache L) : gmap Z AfterImage := src_log (nc_src w).
Definition nc_stored (w : NodeCache L) : NodeAddress -> tree -> Prop := stored_in scan_fuel horizon (nc_log w).
Definition nc_names (w : NodeCache L) (a : NodeAddress) (t : tree) : Prop := nc_stored w a t \/ promised a t.

Definition cached (w : NodeCache L) (key : cache_key) : option loc :=
  s ← nc_shards w !! slot_of std_hash key; fst <$> sh_nodes s !! key.

Definition nc_nd (w : NodeCache L) : tree -> loc -> Prop :=
  node_denotes horizon (nc_stored w) (nc_names w) (nc_heap w).

Definition images_ok (log : gmap Z AfterImage) : Prop :=
  forall p ai, log !! p = Some ai -> Forall proto_ok (ai_tree ai).

(** What the cache may hold for a node of an after image: the node the log has,
    of an intention already processed. *)
Definition entry_ok (w : NodeCache L) (p off : Z) (x : loc) : Prop :=
  (exists ai, nc_log w !! p = Some ai /\ published horizon (ai_intention ai)) /\
  forall t, image_at scan_fuel horizon (nc_log w) t p off -> nc_nd w t x.

Record nc_inv (w : NodeCache L) : Prop := {
  ni_nil : nc_heap w !! Nil = Some nil_node;
  ni_src : src_inv (nc_src w);
  ni_horizon : horizon <= 2 ^ 63;
  ni_images : images_ok (nc_log w);
  ni_shards : length (nc_shards w) = num_slots;
  ni_cached p off x : cached w (p, off) = Some x -> entry_ok w p off x;
  (* the index only knows primary after images, of intentions processed *)
  ni_imap : exists l, lru_holds (nc_imap w) l;
  ni_primary i p q : fst <$> m_map (nc_imap w) !! i = Some p -> primary scan_fuel (nc_log w) i q -> p = q;
  ni_processed i p : fst <$> m_map (nc_imap w) !! i = Some p -> published horizon i;
  (* and what it knows has been written *)
  ni_promised i p off t : fst <$> m_map (nc_imap w) !! i = Some p -> promised (mkNodeAddress i off false) t ->
    image_at scan_fuel horizon (nc_log w) t p off;
}.

(** ** Frame conditions *)

(** The later state only adds nodes to the heap and entries to the cache. *)
Record nc_ext (w w' : NodeCache L) : Prop := {
  ne_heap : nc_heap w ⊆ nc_heap w';
  ne_log : nc_log w' = nc_log w;
}.

#[export] Instance nc_ext_preorder : PreOrder nc_ext.
Proof.
  split; [by split|]. intros w1 w2 w3 [? ?] [? ?]. split; [by etransitivity|congruence].
Qed.

Lemma nc_nd_mono w w' t x : nc_ext w w' -> nc_nd w t x -> nc_nd w' t x.
Proof. intros [Hh Hl]. unfold nc_nd, nc_stored, nc_names, nc_stored. rewrite Hl. by apply nd_mono. Qed.

Lemma entry_ok_mono w w' p off x : nc_ext w w' -> entry_ok w p off x -> entry_ok w' p off x.
Proof.
  intros He [Hai Ht]. split; rewrite (ne_log _ _ He); [done|]. intros t Hi. eapply nc_nd_mono; eauto.
Qed.

(** Any change of the state that keeps what is cached and the index. *)
Lemma nc_inv_frame w w' : nc_inv w -> nc_ext w w' -> nc_heap w' !! Nil = Some nil_node -> src_inv (nc_src w') ->
  length (nc_shards w') = num_slots ->
  (forall p off x, cached w' (p, off) = Some x -> entry_ok w' p off x) ->
  (exists l, lru_holds (nc_imap w') l) ->
  (forall i p, fst <$> m_map (nc_imap w') !! i = Some p -> fst <$> m_map (nc_imap w) !! i = Some p) ->
  nc_inv w'.
Proof.
  intros [] [Hh Hl] Hn Hs Hsh Hc Hi Hp. split; try done.
  - by rewrite Hl.
  - rewrite Hl. eauto.
  - eauto.
  - rewrite Hl. eauto.
Qed.

(** A read of the source. *)
Lemma nc_inv_src l w : nc_inv w -> src_inv l -> src_log l = nc_log w -> nc_inv (with_src l w) /\ nc_ext w (with_src l w).
Proof.
  intros Hi Hl Hlog. assert (nc_ext w (with_src l w)) as He by (by split). split; [|done].
  pose proof Hi as []. apply (nc_inv_frame w); try done.
  intros p off x Hx. eapply entry_ok_mono; [exact He|]. by apply ni_cached0.
Qed.

Lemma slot_lt key : (slot_of std_hash key < num_slots)%nat.
Proof. unfold slot_of. pose proof (Z.mod_pos_bound (pair_hash std_hash key) (Z.of_nat num_slots)). unfold num_slots in *. lia. Qed.

Lemma shard_is_some (w : NodeCache L) key : length (nc_shards w) = num_slots ->
  exists s, nc_shards w !! slot_of std_hash key = Some s.
Proof. intros Hl. apply lookup_lt_is_Some. rewrite Hl. apply slot_lt. Qed.

Lemma cached_put (w : NodeCache L) key s s' key' : nc_shards w !! slot_of std_hash key = Some s ->
  (forall k, k <> key -> sh_nodes s' !! k = sh_nodes s !! k) ->
  cached (with_shards (<[slot_of std_hash key := s']> (nc_shards w)) w) key' =
  if decide (key' = key) then fst <$> sh_nodes s' !! key else cached w key'.
Proof.
  intros Hs Hk. unfold cached. simpl. destruct (decide (key' = key)) as [->|Hne].
  - rewrite list_lookup_insert_eq by (by eapply lookup_lt_Some). done.
  - destruct (decide (slot_of std_hash key' = slot_of std_hash key)) as [E|E].
    + rewrite E, list_lookup_insert_eq by (by eapply lookup_lt_Some). rewrite Hs. simpl. by rewrite Hk.
    + by rewrite list_lookup_insert_ne.
Qed.

Definition same_cache (w w' : NodeCache L) : Prop := forall key, cached w' key = cached w key.

(** The log, the heap and the index do not change. *)
Record same_store (w w' : NodeCache L) : Prop := {
  ss_heap : nc_heap w' = nc_heap w;
  ss_src : nc_src w' = nc_src w;
  ss_imap : nc_imap w' = nc_imap w;
  ss_shards : length (nc_shards w') = length (nc_shards w);
}.

Lemma same_store_ext w w' : same_store w w' -> nc_ext w w'.
Proof. intros [Hh Hs _ _]. split; [by rewrite Hh|]. unfold nc_log. by rewrite Hs. Qed.

Lemma same_store_inv w w' : nc_inv w -> same_store w w' ->
  (forall p off x, cached w' (p, off) = Some x -> entry_ok w p off x) ->
  nc_inv w'.
Proof.
  intros Hi Hs Hc. pose proof (same_store_ext _ _ Hs) as He. pose proof Hi as []. destruct Hs.
  apply (nc_inv_frame w w'); try done; try congruence.
  - intros p off x Hx. eapply entry_ok_mono; eauto.
  - by rewrite ss_imap0.
Qed.

Lemma shard_find_spec key w : nc_inv w ->
  wp (shard_find std_hash key) (fun o w' => o = cached w key /\ nc_inv w' /\ same_store w w' /\ same_cache w w') w.
Proof.
  intros Hi. destruct (shard_is_some w key (ni_shards _ Hi)) as [s Hs]. unfold shard_find.
  apply wp_bind. unfold wp at 1, get_shard. rewrite Hs. unfold cached at 1. rewrite Hs. simpl.
  destruct (sh_nodes s !! key) as [[node it]|] eqn:Hk; simpl.
  - apply wp_bind, wp_modify, wp_ret.
    assert (same_cache w (with_shards (<[slot_of std_hash key := touch key node it s]> (nc_shards w)) w)) as Hc.
    { intros key'. erewrite cached_put; [|done|].
      - destruct (decide (key' = key)) as [->|]; [|done]. unfold cached. rewrite Hs. simpl. rewrite lookup_insert_eq, Hk. done.
      - intros k Hne. simpl. by rewrite lookup_insert_ne. }
    assert (same_store w (with_shards (<[slot_of std_hash key := touch key node it s]> (nc_shards w)) w)) as Hss.
    { split; try done. simpl. apply length_insert. }
    split_and!; [done| |done|done]. eapply same_store_inv; [done..|].
    intros p off x Hx. rewrite Hc in Hx. by apply Hi.
  - apply wp_ret. split_and!; done.
Qed.

Lemma shard_add_spec key node w : nc_inv w -> cached w key = None -> is_Some (nc_heap w !! node) ->
  entry_ok w key.1 key.2 node ->
  wp (shard_add std_hash sizeof_node key node) (fun _ w' => nc_inv w' /\ same_store w w' /\
    forall key', cached w' key' = if decide (key' = key) then Some node else cached w key') w.
Proof.
  intros Hi Hnone [n Hn] Ht. destruct (shard_is_some w key (ni_shards _ Hi)) as [s Hs]. unfold shard_add.
  apply wp_bind. unfold wp at 1, get_shard. rewrite Hs. unfold cached in Hnone. rewrite Hs in Hnone. simpl in *.
  destruct (sh_nodes s !! key) as [e|] eqn:Hk; [done|].
  apply wp_bind, wp_assert; [by apply bool_decide_eq_true|]. apply wp_bind, wp_modify, wp_bind.
  unfold wp at 1, byte_size. simpl. rewrite Hn. apply wp_modify.
  set (w' := with_used _ _).
  assert (forall key', cached w' key' = if decide (key' = key) then Some node else cached w key') as Hc.
  { intros key'. unfold w', cached at 1. simpl. pose proof (cached_put w key s
      (mkShard (<[key := (node, sl_next (sh_lru s))]> (sh_nodes s)) (sl_push_front key (sh_lru s)).2) key' Hs) as Hput.
    unfold cached at 1 in Hput. simpl in Hput. rewrite Hput.
    - destruct (decide (key' = key)); [|done]. by rewrite lookup_insert_eq.
    - intros k Hne. by rewrite lookup_insert_ne. }
  assert (same_store w w') as Hss by (split; try done; simpl; apply length_insert).
  split_and!; [|done|done]. eapply same_store_inv; [done..|].
  intros p off x Hx. rewrite Hc in Hx. destruct (decide _) as [<-|]; [|by apply Hi].
  by simplify_eq.
Qed.

(** ** Where a tree is *)

Lemma IntentionToAfterImage_spec i w : nc_inv w ->
  wp (IntentionToAfterImage i) (fun o w' => nc_inv w' /\ nc_ext w w' /\ nc_heap w' = nc_heap w /\
    o = fst <$> m_map (nc_imap w) !! i) w.
Proof.
  intros Hi. destruct (ni_imap _ Hi) as [l Hl]. unfold IntentionToAfterImage, on_imap. apply wp_zoom.
  eapply wp_conseq; [by apply lru_get_spec|]. intros o c (_ & -> & Hc).
  assert (fst (spec_lru_get i l) = fst <$> m_map (nc_imap w) !! i) as Eo.
  { rewrite <- (spec_find_map _ _ i Hl). unfold spec_lru_get. by destruct (spec_find i l). }
  split_and!; [|by split|done|done]. pose proof Hi as [].
  apply (nc_inv_frame w (with_imap c w)); try done; [by eexists|].
  intros j p. simpl. rewrite <- (spec_find_map _ _ j Hl), <- (spec_find_map _ _ j Hc). unfold spec_lru_get.
  destruct (spec_find i l) eqn:Ef; [|done]. simpl. unfold spec_find at 1. simpl.
  destruct (decide (j = i)) as [->|Hj]; [by rewrite lookup_insert_eq, Ef|].
  rewrite lookup_insert_ne by done. change (spec_find j (spec_remove i l) = Some p -> spec_find j l = Some p).
  by rewrite spec_find_remove, decide_False.
Qed.

(** The first after image at or past a position. *)
Lemma first_image (log : gmap Z AfterImage) n : forall pos p ai, (Z.to_nat (p - pos) < n)%nat -> pos <= p -> log !! p = Some ai ->
  exists q ai', pos <= q <= p /\ log !! q = Some ai' /\ forall q', pos <= q' < q -> log !! q' = None.
Proof.
  induction n as [|n IH]; [lia|]. intros pos p ai Hn Hp Ha.
  destruct (log !! pos) as [ai0|] eqn:H0; [exists pos, ai0; split_and!; [lia|lia|done|lia]|].
  assert (pos <> p) by congruence. destruct (IH (pos + 1) p ai) as (q & ai' & Hq & Hai & Hnone); [lia|lia|done|].
  exists q, ai'. split_and!; [lia|lia|done|]. intros q' Hq'. destruct (decide (q' = pos)) as [->|]; [done|]. apply Hnone. lia.
Qed.

Lemma scan_spec fuel i p : forall pos w, nc_inv w -> i < pos <= p -> 0 <= i -> (Z.to_nat (p - pos) < fuel)%nat ->
  (exists ai, nc_log w !! p = Some ai /\ ai_intention ai = i) ->
  (forall q ai, i < q < p -> nc_log w !! q = Some ai -> ai_intention ai <> i) ->
  wp (scan_after_images fuel i pos) (fun p' w' => p' = p /\ nc_inv w' /\ nc_ext w w' /\ nc_heap w' = nc_heap w) w.
Proof.
  induction fuel as [|fuel IH]; intros pos w Hi Hpos H0 Hf Hp Hfirst; [lia|]. cbn [scan_after_images].
  destruct Hp as (ai & Ha & Hai). destruct (first_image (nc_log w) (S fuel) pos p ai) as (q & ai' & Hq & Ha' & Hnone); [lia|lia|done|].
  apply wp_bind. unfold on_src. apply wp_zoom. eapply wp_conseq.
  { apply (src_next_law pos q ai'); [apply Hi|done|lia|done]. }
  intros x l (-> & Hl & Hlog).
  destruct (nc_inv_src l w) as [Hi' He]; [done..|].
  destruct (Z.eqb_spec (ai_intention ai') i) as [E|E].
  - apply wp_ret. split_and!; try done. destruct (decide (q = p)) as [|Hne]; [done|].
    exfalso. by apply (Hfirst q ai'); [lia|..].
  - assert (q <> p) by (intros ->; rewrite Ha in Ha'; congruence).
    eapply wp_conseq.
    { apply IH; [done|lia|done|lia|..]; change (nc_log (with_src l w)) with (src_log l); rewrite Hlog; eauto. }
    intros p' w' (-> & Hw' & He' & Hh'). split_and!; [done..|by etransitivity|by rewrite Hh'].
Qed.

Lemma findAfterImagePosition_spec a p w : nc_inv w -> located scan_fuel (nc_log w) a p -> 0 <= p < 2 ^ 64 ->
  wp (findAfterImagePosition scan_fuel a) (fun p' w' => p' = p /\ nc_inv w' /\ nc_ext w w' /\ nc_heap w' = nc_heap w) w.
Proof.
  intros Hi Hl Hp. unfold findAfterImagePosition. unfold located in Hl. destruct (IsAfterImage a).
  { subst p. apply wp_ret. split_and!; [done..|]. done. }
  apply wp_bind. eapply wp_conseq; [by apply IntentionToAfterImage_spec|]. intros o w1 (Hi1 & He1 & Hh1 & ->).
  destruct (fst <$> m_map (nc_imap w) !! Node.Position a) as [p0|] eqn:Em.
  - apply wp_ret. split_and!; try done. by eapply (ni_primary _ Hi).
  - destruct Hl as (Hlt & Hai & Hfirst & Hfuel). unfold u64. rewrite Z.mod_small by lia.
    rewrite <- (ne_log _ _ He1) in *. eapply wp_conseq; [eapply (scan_spec scan_fuel _ p); [done|lia|lia|lia|done..]|].
    intros p' w2 (-> & Hi2 & He2 & Hh2). split_and!; [done..|by etransitivity|congruence].
Qed.

(** ** Reading a node out of an after image *)

Lemma child_address_some pos pos' q : is_Some (child_address pos q) -> is_Some (child_address pos' q).
Proof. unfold child_address. destruct (np_self q), (np_afterimage q), (np_intention q); try done; by eexists. Qed.

(** The pointer [deserialize_node] builds. *)
Definition read_ptr (pos : Z) (q : ProtoNodePtr) : NodePtr :=
  if np_nil q then mkNodePtr (Some Nil) None true else mkNodePtr None (child_address pos q) true.

Lemma deserialize_ptr_spec pos q (Q : NodePtr -> NodeCache L -> Prop) w :
  np_nil q = true \/ is_Some (child_address pos q) -> Q (read_ptr pos q) w ->
  wp (deserialize_ptr pos q (mkNodePtr None None true)) Q w.
Proof.
  intros Hq HQ. unfold deserialize_ptr, read_ptr in *. destruct (np_nil q); [by apply wp_ret|].
  destruct Hq as [?|[a Ha]]; [done|]. rewrite Ha in *.
  assert (a = make_address (Node.Position a) (Offset a) (IsAfterImage a)) as Ea.
  { unfold child_address in Ha. assert (forall x y b, make_address (u64 x) (u16 y) b = make_address x y b) as Hm.
    { intros x y b. unfold make_address, u64, u16. f_equal; apply Zmod_mod. }
    destruct (np_self q), (np_afterimage q), (np_intention q); simplify_eq/=;
      unfold make_address, u64, u16; f_equal; by rewrite ?Zmod_mod. }
  destruct (IsAfterImage a) eqn:Hk.
  - unfold SetAfterImageAddress. apply wp_bind, wp_assert; [by apply bool_decide_eq_true|]. apply wp_ret.
    unfold ptr_set_address. simpl. by rewrite <- Ea.
  - apply wp_ret. unfold SetIntentionAddress, ptr_set_address. simpl. by rewrite <- Ea.
Qed.

Lemma read_ptr_denotes log h hor pos q t : nc_log h = log -> hor <= horizon ->
  child_denotes scan_fuel log (image_at scan_fuel hor log t) pos q t ->
  ptr_denotes (nc_stored h) (nc_names h) (nc_nd h t) (read_ptr pos q) t.
Proof.
  intros Hlog Hhor. unfold child_denotes, read_ptr. destruct (np_nil q).
  - intros ->. split; [done|]. intros []. done.
  - intros (Hne & a & p & Ha & Hl & Hp). rewrite Ha.
    assert (nc_stored h a t) as Hst by (exists p; rewrite Hlog; split; [done|by eapply image_at_mono]).
    split; simpl; [eauto|]. intros _. split; [done|]. exists a. split; [done|]. by left.
Qed.

Lemma deserialize_node_spec ai p idx w : nc_inv w -> nc_log w !! p = Some ai -> (idx < length (ai_tree ai))%nat ->
  wp (deserialize_node ai p idx) (fun x w' => nc_inv w' /\ nc_ext w w' /\ same_cache w w' /\
    is_Some (nc_heap w' !! x) /\
    forall t, image_at scan_fuel horizon (nc_log w) t p (Z.of_nat idx) -> nc_nd w' t x) w.
Proof.
  intros Hi Ha [n Hn]%lookup_lt_is_Some. unfold deserialize_node. rewrite Hn.
  pose proof (ni_images _ Hi p ai Ha) as Hok. rewrite Forall_lookup in Hok. destruct (Hok _ _ Hn) as [Hl Hr].
  apply wp_bind, deserialize_ptr_spec; [destruct Hl; [by left|right; by eapply child_address_some]|].
  apply wp_bind, deserialize_ptr_spec; [destruct Hr; [by left|right; by eapply child_address_some]|].
  unfold wp, nc_alloc. set (x := fresh (dom (nc_heap w))). set (node := mkNode _ _ _ _ _ _ _).
  set (w' := with_heap (<[x := node]> (nc_heap w)) w).
  assert (nc_heap w !! x = None) as Hx by (apply not_elem_of_dom, is_fresh).
  assert (nc_ext w w') as He by (split; [by apply insert_subseteq|done]).
  assert (x <> Nil) as Hnil by (intros E; rewrite E, (ni_nil _ Hi) in Hx; done).
  split_and!; [|done|done|simpl; rewrite lookup_insert_eq; by eexists|].
  - pose proof Hi as []. apply (nc_inv_frame w); try done.
    + simpl. by rewrite lookup_insert_ne.
    + intros p' off y Hy. eapply entry_ok_mono; [exact He|]. by apply ni_cached0.
  - intros [|c tl k v tr] Ht; [done|]. destruct Ht as (ai' & n' & Ha' & _ & _ & Hh & Hn' & Hc & Hk & Hv & Htl & Htr).
    rewrite Ha in Ha'. injection Ha' as <-. rewrite Nat2Z.id, Hn in Hn'. injection Hn' as <-.
    split; [done|]. exists node. split; [simpl; by rewrite lookup_insert_eq|]. split.
    { unfold node. simpl. pose proof (ni_horizon _ Hi). unfold i64, u64, published.
      rewrite (Z.mod_small (ai_intention ai)) by lia. rewrite Z.mod_small by lia. lia. }
    split_and!; [done..| |].
    + by apply (read_ptr_denotes (nc_log w) w' (ai_intention ai + 1)); [|lia|].
    + by apply (read_ptr_denotes (nc_log w) w' (ai_intention ai + 1)); [|lia|].
Qed.

Lemma shard_is_cached (w : NodeCache L) key s : nc_shards w !! slot_of std_hash key = Some s ->
  cached w key = fst <$> sh_nodes s !! key.
Proof. intros Hs. unfold cached. by rewrite Hs. Qed.

(** The loop of [CacheAfterImage] leaves every node from [idx] on in the cache. *)
Lemma cache_nodes_spec ai p n : forall idx nn w, nc_inv w -> nc_log w !! p = Some ai ->
  published horizon (ai_intention ai) ->
  (idx + n = length (ai_tree ai))%nat ->
  wp (cache_nodes std_hash sizeof_node ai p idx n nn) (fun o w' => nc_inv w' /\ nc_ext w w' /\
    (forall key, is_Some (cached w key) -> is_Some (cached w' key)) /\
    (forall j, (idx <= j < idx + n)%nat -> is_Some (cached w' (p, Z.of_nat j))) /\
    match n with
    | O => o = nn /\ w' = w
    | S n => is_Some o /\ cached w' (p, Z.of_nat (idx + n)) = o
    end) w.
Proof.
  induction n as [|n IH]; intros idx nn w Hi Ha Hpub Hlen; cbn [cache_nodes].
  { apply wp_ret. by split_and!; [..|lia| |]. }
  apply wp_bind. eapply wp_conseq; [apply (deserialize_node_spec ai p idx w); [done..|lia]|].
  intros x w1 (Hi1 & He1 & Hc1 & Hx & Hden).
  assert (nc_log w1 !! p = Some ai) as Ha1 by (by rewrite (ne_log _ _ He1)).
  assert (forall w2 nn', nc_inv w2 -> nc_ext w1 w2 -> (forall key, is_Some (cached w1 key) -> is_Some (cached w2 key)) ->
    cached w2 (p, Z.of_nat idx) = nn' -> is_Some nn' ->
    wp (cache_nodes std_hash sizeof_node ai p (S idx) n nn') (fun o w' => nc_inv w' /\ nc_ext w w' /\
      (forall key, is_Some (cached w key) -> is_Some (cached w' key)) /\
      (forall j, (idx <= j < idx + S n)%nat -> is_Some (cached w' (p, Z.of_nat j))) /\
      is_Some o /\ cached w' (p, Z.of_nat (idx + n)) = o) w2) as Hgo.
  { intros w2 nn' Hi2 He2 Hm2 Hidx Hnn. eapply wp_conseq; [apply (IH (S idx) nn' w2); [done| |done|lia]|].
    - by rewrite (ne_log _ _ He2).
    - intros o w3 (Hi3 & He3 & Hm3 & Hj3 & Ho3). split_and!; [done| | | | |].
      + etransitivity; [exact He1|]. by etransitivity.
      + intros key Hk. apply Hm3, Hm2. by rewrite Hc1.
      + intros j Hj. destruct (decide (j = idx)) as [->|]; [apply Hm3; by rewrite Hidx|]. apply Hj3. lia.
      + destruct n; [by destruct Ho3 as [-> _]|apply Ho3].
      + destruct n; [destruct Ho3 as [-> ->]; by rewrite Nat.add_0_r|].
        destruct Ho3 as [_ <-]. do 3 f_equal. lia. }
  apply wp_bind. destruct (shard_is_some w1 (p, Z.of_nat idx) (ni_shards _ Hi1)) as [s Hs].
  unfold wp at 1, get_shard. rewrite Hs. pose proof (shard_is_cached _ _ _ Hs) as Hcs.
  destruct (sh_nodes s !! (p, Z.of_nat idx)) as [[node it]|] eqn:Hk.
  - apply Hgo; [done|reflexivity|done| |by eexists]. rewrite Hcs. apply fmap_Some. by exists (node, it).
  - apply wp_bind. eapply wp_conseq; [apply (shard_add_spec (p, Z.of_nat idx) x w1); [done| |done|]|].
    { rewrite Hcs. by apply fmap_None. }
    { split; [by exists ai|]. intros t Ht. apply Hden. by rewrite <- (ne_log _ _ He1). }
    intros [] w2 (Hi2 & Hss & Hc2). apply Hgo; [done|by apply same_store_ext| | |by eexists].
    + intros key Hkey. rewrite Hc2. destruct (decide _); [by eexists|done].
    + by rewrite Hc2, decide_True by done.
Qed.

(** The pointer it returns is to the last node of the image. *)
Lemma CacheAfterImage_spec ai p w : nc_inv w -> nc_log w !! p = Some ai -> published horizon (ai_intention ai) ->
  wp (CacheAfterImage std_hash sizeof_node ai p) (fun q w' => nc_inv w' /\ nc_ext w w' /\
    (forall j, (j < length (ai_tree ai))%nat -> is_Some (cached w' (p, Z.of_nat j))) /\
    (ai_tree ai = [] -> q = mkNodePtr (Some Nil) None false) /\
    (ai_tree ai <> [] -> exists x, cached w' (p, Z.of_nat (length (ai_tree ai)) - 1) = Some x /\
      q = mkNodePtr (Some x) (Some (make_address p (Z.of_nat (length (ai_tree ai)) - 1) true)) true)) w.
Proof.
  intros Hi Ha Hpub. unfold CacheAfterImage. destruct (ai_tree ai) as [|n0 ns] eqn:Et.
  { apply wp_ret. split_and!; [done..|simpl; lia|done|done]. }
  rewrite <- Et. apply wp_bind. eapply wp_conseq; [apply (cache_nodes_spec ai p _ 0 None w); done|].
  intros o w1 (Hi1 & He1 & _ & Hj & Ho). rewrite Et in Ho. destruct Ho as [[x ->] Hlast].
  apply wp_bind, wp_assert; [apply bool_decide_eq_true; by eexists|].
  unfold SetAfterImageAddress. apply wp_bind, wp_assert; [by apply bool_decide_eq_true|].
  apply wp_ret. split_and!; [done..| |congruence|].
  - intros j Hlt. apply Hj. lia.
  - intros _. exists x. split; [|done]. rewrite <- Hlast. do 2 f_equal. rewrite Et. simpl. lia.
Qed.

Lemma image_node log t p off : image_at scan_fuel horizon log t p off ->
  exists ai, log !! p = Some ai /\ published horizon (ai_intention ai) /\ 0 <= p < 2 ^ 64 /\ 0 <= off /\ (Z.to_nat off < length (ai_tree ai))%nat.
Proof.
  destruct t; [done|]. intros (ai & n & Ha & Hp & Hoff & Hi & Hn & _). exists ai.
  split_and!; [done|done|lia..|]. by eapply lookup_lt_Some.
Qed.

Lemma UpdateLRU_eq tr (w : NodeCache L) : exists w', UpdateLRU tr w = Ok (tt, w') /\ same_store w w' /\ nc_shards w' = nc_shards w.
Proof. destruct tr; eexists; (split; [reflexivity|]); by split. Qed.

Lemma UpdateLRU_inv tr w w' : nc_inv w -> UpdateLRU tr w = Ok (tt, w') ->
  nc_inv w' /\ same_store w w' /\ same_cache w w'.
Proof.
  intros Hi Hu. destruct (UpdateLRU_eq tr w) as (w1 & Hu1 & Hss & Hsh). rewrite Hu1 in Hu. injection Hu as ->.
  assert (same_cache w w') as Hc by (intros key; unfold cached; by rewrite Hsh).
  split_and!; [|done..]. eapply same_store_inv; [done..|]. intros p off x Hx. rewrite Hc in Hx. by apply Hi.
Qed.

(** [fetch] finds the tree the log holds at an address, whether it is cached or
    has to be read. *)
Lemma fetch_spec a t w tr : nc_inv w -> nc_stored w a t ->
  wp (fetch std_hash sizeof_node scan_fuel a) (fun x s' => nc_inv s'.1 /\ nc_ext w s'.1 /\ nc_nd s'.1 t x) (w, tr).
Proof.
  intros Hi (p & Hloc & Himg). destruct (image_node _ _ _ _ Himg) as (ai & Ha & Hpub & Hp & Hoff & Hlen).
  unfold fetch. apply wp_bind, wp_zoom.
  eapply wp_conseq; [by apply (findAfterImagePosition_spec a p)|]. intros p' w1 (-> & Hi1 & He1 & Hh1).
  apply wp_bind, wp_zoom. eapply wp_conseq; [by eapply shard_find_spec|]. intros o w2 (-> & Hi2 & Hss2 & Hc2). simpl.
  pose proof (same_store_ext _ _ Hss2) as He2.
  assert (nc_ext w w2) as He02 by (by etransitivity).
  destruct (cached w1 (p, Offset a)) as [x|] eqn:Hx.
  - apply wp_ret. split_and!; [done..|]. simpl. rewrite <- Hc2 in Hx.
    eapply (ni_cached _ Hi2); [exact Hx|]. by rewrite (ne_log _ _ He02).
  - apply wp_bind, wp_get. simpl. apply wp_bind, wp_zoom.
    destruct (UpdateLRU_eq tr w2) as (w3 & Hu & Hss3 & _). destruct (UpdateLRU_inv tr w2 w3 Hi2 Hu) as (Hi3 & _ & Hc3).
    pose proof (same_store_ext _ _ Hss3) as He3.
    eapply (wp_conseq (UpdateLRU tr) (fun _ w' => w' = w3) _ w2); [unfold wp; by rewrite Hu|]. intros [] ? ->.
    apply wp_bind, wp_modify, wp_bind, wp_zoom. unfold on_src. apply wp_zoom. simpl.
    assert (nc_log w3 = nc_log w) as Hlog3 by (rewrite (ne_log _ _ He3); apply He02).
    eapply wp_conseq.
    { apply (src_read_law p ai); [apply Hi3|]. change (nc_log w3 !! p = Some ai). by rewrite Hlog3. }
    intros ai' l (-> & Hl & Hlogl). set (w4 := with_src l w3).
    destruct (nc_inv_src l w3) as [Hi4 He4]; [done..|]. fold w4 in Hi4, He4.
    assert (nc_log w4 !! p = Some ai) as Ha4 by (by rewrite (ne_log _ _ He4), Hlog3).
    apply wp_bind, wp_zoom. eapply wp_conseq; [by apply CacheAfterImage_spec|]. intros q w5 (Hi5 & He5 & Hj & _).
    apply wp_bind, wp_zoom. eapply wp_conseq; [by eapply shard_find_spec|]. intros o w6 (-> & Hi6 & Hss6 & Hc6). simpl.
    pose proof (same_store_ext _ _ Hss6) as He6.
    destruct (Hj (Z.to_nat (Offset a)) Hlen) as [x Hx5]. rewrite Z2Nat.id in Hx5 by lia. rewrite Hx5.
    assert (nc_ext w w6) as He06.
    { etransitivity; [exact He02|]. etransitivity; [exact He3|]. etransitivity; [exact He4|]. by etransitivity. }
    apply wp_ret. split_and!; [done..|]. simpl. rewrite <- Hc6 in Hx5.
    eapply (ni_cached _ Hi6); [exact Hx5|]. by rewrite (ne_log _ _ He06).
Qed.

#[export] Program Instance node_cache_laws : NodeStoreLaws (NodeCache L) := {|
  ns_hor := horizon;
  ns_inv := nc_inv;
  ns_stored := nc_stored;
  ns_names := nc_names;
|}.
Next Obligation. done. Qed.
Next Obligation. done. Qed.
Next Obligation. done. Qed.
Next Obligation. intros w a t t'. apply stored_in_fun. Qed.
Next Obligation. intros w Hi. apply Hi. Qed.
Next Obligation.
  intros w h Hi Hn Hh. pose proof Hi as []. split; try done.
  intros p off x Hx. destruct (ni_cached0 p off x Hx) as [Hai Ht]. split; [done|]. intros t Hi'. by apply Hh, Ht.
Qed.
Next Obligation.
  intros w tr a t Hi Hst. pose proof (fetch_spec a t w tr Hi Hst) as Hf.
  apply wp_run in Hf as (x & [w' tr'] & Hf & Hi' & [Hh Hl] & Hnd). exists x, w', tr'.
  assert (nc_stored w' = nc_stored w) as Es by (unfold nc_stored; simpl in Hl; by rewrite Hl).
  assert (nc_names w' = nc_names w) as En by (unfold nc_names; by rewrite Es).
  split_and!; try done. unfold nc_nd in Hnd. by rewrite <- Es, <- En.
Qed.
Next Obligation.
  intros w tr Hi. cbn -[UpdateLRU]. destruct (UpdateLRU_eq tr w) as (w' & Hu & [? Hs ? ?] & _). rewrite Hu.
  destruct (UpdateLRU_inv tr w w' Hi Hu) as (Hi' & _). split_and!; try done;
    unfold nc_names, nc_stored, nc_log; by rewrite Hs.
Qed.
Next Obligation.
  intros w i Hi. cbn -[IntentionToAfterImage]. pose proof (IntentionToAfterImage_spec i w Hi) as Hs.
  apply wp_run in Hs as (o & w' & -> & Hi' & [_ Hl] & Hh & Ho). split_and!; [done|done| | |].
  - unfold nc_stored. by rewrite Hl.
  - unfold nc_names, nc_stored. by rewrite Hl.
  - intros p off t -> Hn. left. exists p. split; [done|]. destruct Hn as [(q & Hq & Himg)|Hpr].
    + unfold located in Hq. simpl in *. by rewrite (ni_primary _ Hi i p q).
    + by apply (ni_promised _ Hi i).
Qed.
End laws.

(** ** Moving the horizon *)

Section advance.
Context {L : Type} {AS : AfterImageSource L} {AL : AfterImageSourceLaws L}.
Context (std_hash : Z -> Z) (scan_fuel : nat) (hor hor' : Z) (promised promised' : NodeAddress -> tree -> Prop).
Hypothesis later_horizon : hor <= hor' <= 2 ^ 63.
Hypothesis more_promised : forall a t, promised a t -> promised' a t.
(** New promises are about intentions not processed before. *)
Hypothesis only_new : forall a t, promised' a t -> published hor (Node.Position a) -> promised a t.

Lemma nc_nd_advance (w : NodeCache L) t x : nc_nd scan_fuel hor promised w t x -> nc_nd scan_fuel hor' promised' w t x.
Proof.
  apply nd_weaken; [lia| |].
  - intros a u. apply stored_in_mono. lia.
  - intros a u [?|?]; [left|right; auto]. eapply stored_in_mono; [|done]. lia.
Qed.

Lemma nc_inv_advance (w : NodeCache L) : nc_inv std_hash scan_fuel hor promised w -> nc_inv std_hash scan_fuel hor' promised' w.
Proof.
  intros []. split; try done; [lia| | |].
  - intros p off x Hx. destruct (ni_cached0 p off x Hx) as [(ai & Ha & Hi) Ht]. split.
    + exists ai. split; [done|]. unfold published in *. lia.
    + intros t Him. apply nc_nd_advance, Ht. by eapply image_at_horizon.
  - intros i p Hp. apply ni_processed0 in Hp. unfold published in *. lia.
  - intros i p off t Hp Hpr. eapply image_at_mono; [apply later_horizon|]. eapply ni_promised0; [done|].
    apply only_new; [done|]. simpl. by eapply ni_processed0.
Qed.
End advance.

(** ** A source that has moved on

    The log gets entries the cache does not look at; what the laws of the source
    say of its state may change with it. *)

Section relog.
Context {L : Type} {AS : AfterImageSource L} {AL AL' : AfterImageSourceLaws L}.
Context (std_hash : Z -> Z) (scan_fuel : nat) (hor : Z) (promised : NodeAddress -> tree -> Prop).
Context (l : L) (w : NodeCache L) (same_images : src_log (AfterImageSourceLaws := AL') l = nc_log (AL := AL) w).

Lemma relog_nd t x : nc_nd (AL := AL) scan_fuel hor promised w t x <-> nc_nd (AL := AL') scan_fuel hor promised (with_src l w) t x.
Proof using same_images. unfold nc_nd, nc_names, nc_stored. unfold nc_log at 3 4. simpl. by rewrite same_images. Qed.

Lemma nc_inv_relog : nc_inv (AL := AL) std_hash scan_fuel hor promised w -> src_inv (AfterImageSourceLaws := AL') l ->
  nc_inv (AL := AL') std_hash scan_fuel hor promised (with_src l w).
Proof using same_images.
  intros [] Hl. assert (nc_log (AL := AL') (with_src l w) = nc_log (AL := AL) w) as Elog by exact same_images.
  split; rewrite ?Elog; try done.
  intros p off x Hx. destruct (ni_cached0 p off x Hx) as [Hai Ht]. split; rewrite Elog; [done|].
  intros t Him. by apply relog_nd, Ht.
Qed.
End relog.
