(* ===== verification/Images.v ===== *)
(** Trees as after images: the nodes of the delta in postorder, every child a
    pointer into the same image or the address of an older tree.  That is what
    serialization makes of a delta; a tree that is all new gives the concrete
    logs of the runs their contents. *)
From S2P Require Import Prelude Slice RBTree Node Proto Delta Infect LruCache NodeCache NodeCacheSpec.

(** ** The encoding *)

(** The message for an address. *)
Definition ptr_to (a : NodeAddress) : ProtoNodePtr :=
  if IsAfterImage a then mkProtoNodePtr false false None (Some (Node.Position a)) (Some (Offset a))
  else mkProtoNodePtr false false (Some (Node.Position a)) None (Some (Offset a)).

Definition nil_ptr : ProtoNodePtr := mkProtoNodePtr true false None None None.
Definition self_at (off : Z) : ProtoNodePtr := mkProtoNodePtr false true None None (Some (u32 off)).

Section encode.
(** What addresses stand for. *)
Context (names : NodeAddress -> tree -> Prop).

(** The message for a pointer to [d], whose root is at offset [off] when it is
    in the delta. *)
Definition enc_ptr (q : ProtoNodePtr) (d : dtree) (off : Z) : Prop :=
  match d with
  | DL E => q = nil_ptr
  | DL t => exists a, names a t /\ q = ptr_to a
  | DN _ _ _ _ _ _ => q = self_at off
  end.

(** The messages for the delta nodes of [d], the first at offset [base]. *)
Fixpoint encodes (d : dtree) (base : Z) (ns : list ProtoNode) : Prop :=
  match d with
  | DL _ => ns = []
  | DN _ c a k v b => exists na nb ql qr, ns = na ++ nb ++ [mkProtoNode c k v ql qr] /\
      encodes a base na /\ encodes b (base + dsize a) nb /\
      enc_ptr ql a (base + dsize a - 1) /\ enc_ptr qr b (base + dsize a + dsize b - 1)
  end.

Lemma encodes_length d : forall base ns, encodes d base ns -> Z.of_nat (length ns) = dsize d.
Proof.
  induction d as [t|l c a IHa k v b IHb]; intros base ns; simpl; [by intros ->|].
  intros (na & nb & ql & qr & -> & Ha & Hb & _). rewrite !length_app, !Nat2Z.inj_add, (IHa _ _ Ha), (IHb _ _ Hb). simpl. lia.
Qed.
End encode.

(** ** Well-formed images *)

Definition in_width (w z : Z) : bool := (0 <=? z) && (z <? 2 ^ w).

(** A pointer of the node at offset [k] sets the fields of exactly one of the four
    forms: nil, an earlier node of this image, a node of an intention's image not
    yet placed, a node of a placed image. *)
Definition ref_typed (k : Z) (q : ProtoNodePtr) : bool :=
  match np_nil q, np_self q, np_intention q, np_afterimage q, np_off q with
  | true, false, None, None, None => true
  | false, true, None, None, Some o => (0 <=? o) && (o <? k)
  | false, false, Some pos, None, Some o | false, false, None, Some pos, Some o => in_width 64 pos && in_width 16 o
  | _, _, _, _, _ => false
  end.

Definition node_typed (k : Z) (n : ProtoNode) : bool := ref_typed k (pn_left n) && ref_typed k (pn_right n).

(** Every node from offset [base] on. *)
Fixpoint nodes_typed (base : Z) (ns : list ProtoNode) : bool :=
  match ns with [] => true | n :: ns => node_typed base n && nodes_typed (base + 1) ns end.

Definition image_typed (ai : AfterImage) : bool :=
  in_width 64 (ai_intention ai) && negb (bool_decide (length (ai_tree ai) = 0%nat)) && nodes_typed 0 (ai_tree ai).

Lemma in_width_spec w z : in_width w z = true <-> 0 <= z < 2 ^ w.
Proof. unfold in_width. rewrite andb_true_iff, Z.leb_le, Z.ltb_lt. tauto. Qed.

Lemma nodes_typed_app ns ns' : forall base,
  nodes_typed base (ns ++ ns') = nodes_typed base ns && nodes_typed (base + Z.of_nat (length ns)) ns'.
Proof.
  induction ns as [|n ns IH]; intros base; [simpl; by rewrite Z.add_0_r|]. simpl. rewrite IH, andb_assoc.
  do 2 f_equal. lia.
Qed.

Definition wide_names (names : NodeAddress -> tree -> Prop) : Prop := forall a t, names a t -> t <> E ->
  0 <= Node.Position a < 2 ^ 64 /\ 0 <= Offset a < 2 ^ 16.

Lemma enc_ptr_typed names q d off k : wide_names names -> enc_ptr names q d off -> (0 < dsize d -> 0 <= off < k) -> off < 2 ^ 16 ->
  ref_typed k q = true.
Proof.
  intros Hw Hq Hk Hoff. destruct d as [[|c l key v r]|l c a key v b].
  - simpl in Hq. by subst q.
  - destruct Hq as (a & Ha & ->). destruct (Hw _ _ Ha ltac:(discriminate)) as [Hp Ho]. unfold ptr_to.
    unfold ref_typed. destruct (IsAfterImage a); cbn [np_nil np_self np_intention np_afterimage np_off];
      rewrite andb_true_iff, !in_width_spec; lia.
  - simpl in Hq. subst q. specialize (Hk ltac:(apply dsize_DN)). unfold self_at, ref_typed. cbn [np_nil np_self np_intention np_afterimage np_off].
    unfold u32. rewrite Z.mod_small by lia. rewrite andb_true_iff, Z.leb_le, Z.ltb_lt. lia.
Qed.

Lemma encodes_typed names d : wide_names names -> forall base ns, 0 <= base -> base + dsize d <= 2 ^ 16 ->
  encodes names d base ns -> nodes_typed base ns = true.
Proof.
  intros Hw. induction d as [t|l c a IHa k v b IHb]; intros base ns Hbase Hsz; simpl; [by intros ->|].
  intros (na & nb & ql & qr & -> & Ha & Hb & Hl & Hr). pose proof (dsize_nonneg a). pose proof (dsize_nonneg b). simpl in Hsz.
  rewrite !nodes_typed_app, (encodes_length _ _ _ _ Ha), (encodes_length _ _ _ _ Hb).
  rewrite IHa by (try done; lia). rewrite IHb by (try done; lia). simpl. unfold node_typed. simpl.
  rewrite (enc_ptr_typed names ql a (base + dsize a - 1)) by (try done; lia).
  by rewrite (enc_ptr_typed names qr b (base + dsize a + dsize b - 1)) by (try done; lia).
Qed.

(** ** Reading it back *)

Lemma stored_range scan_fuel h log a t : stored_in scan_fuel h log a t ->
  0 <= Node.Position a < 2 ^ 64 /\ 0 <= Offset a < 2 ^ 16.
Proof.
  intros (p & Hl & Hi). destruct t; [done|]. destruct Hi as (ai & n & _ & Hp & Hoff & _). split; [|done].
  unfold located in Hl. destruct (IsAfterImage a); [lia|]. destruct Hl as (? & _). lia.
Qed.

Section images.
Context (scan_fuel : nat) (log : gmap Z AfterImage) (p : Z) (ai : AfterImage).
Hypothesis log_p : log !! p = Some ai.
Hypothesis pos_range : 0 <= p < 2 ^ 64.
Hypothesis intention_range : 0 <= ai_intention ai.
Context (names : NodeAddress -> tree -> Prop).
(** The older trees are in the log. *)
Hypothesis written : forall a t, names a t -> t <> E -> stored_in scan_fuel (ai_intention ai + 1) log a t.

Abbreviation image t off := (image_at scan_fuel (ai_intention ai + 1) log t p off).

Lemma enc_ptr_denotes q d off : enc_ptr names q d off ->
  (forall l c a k v b, d = DN l c a k v b -> 0 <= off < 2 ^ 16 /\ image (erase d) off) ->
  child_denotes scan_fuel log (image_at scan_fuel (ai_intention ai + 1) log (erase d)) p q (erase d).
Proof.
  intros Hq Hd. destruct d as [[|c l k v u]|l c a k v b]; simpl in Hq.
  - by subst q.
  - destruct Hq as (a & Ha & ->). apply written in Ha; [|done].
    pose proof (stored_range _ _ _ _ _ Ha) as [Hp Ho]. destruct Ha as (p0 & Hl & Hi).
    assert (child_address p (ptr_to a) = Some a) as Haddr.
    { unfold ptr_to, child_address, make_address, u64, u16. destruct a as [ap ao []]; cbn [IsAfterImage Node.Position Offset np_self np_afterimage np_intention np_off default] in *;
        by rewrite !(Z.mod_small ao), (Z.mod_small ap) by lia. }
    unfold child_denotes. replace (np_nil (ptr_to a)) with false by (unfold ptr_to; by destruct (IsAfterImage a)).
    split; [done|]. by exists a, p0.
  - subst q. destruct (Hd _ _ _ _ _ _ eq_refl) as [Ho Hi]. split; [done|].
    exists (mkNodeAddress p off true), p. split_and!; [|done|done]. unfold child_address, self_at, make_address, u64, u16, u32.
    cbn [np_self np_off default]. rewrite (Z.mod_small off (2 ^ 32)), !(Z.mod_small off), (Z.mod_small p) by lia. done.
Qed.

(** A tree stored as a segment of the image. *)
Lemma encoded_root d : forall base pre ns post, encodes names d base ns -> ai_tree ai = pre ++ ns ++ post ->
  Z.of_nat (length pre) = base -> base + dsize d <= 2 ^ 16 ->
  forall l c a k v b, d = DN l c a k v b -> image (erase d) (base + dsize d - 1).
Proof.
  induction d as [t|l c a IHa k v b IHb]; [done|]. intros base pre ns post (na & nb & ql & qr & -> & Ha & Hb & Hql & Hqr) E Hlen Hd ?????? _.
  pose proof (dsize_nonneg a). pose proof (dsize_nonneg b). cbn [dsize erase] in *.
  pose proof (encodes_length _ _ _ _ Ha) as La. pose proof (encodes_length _ _ _ _ Hb) as Lb.
  rewrite <- !app_assoc in E.
  exists ai, (mkProtoNode c k v ql qr). split_and!; try done; try lia.
  - rewrite E. do 3 rewrite lookup_app_r by lia.
    by replace (Z.to_nat (base + (dsize a + dsize b + 1) - 1) - length pre - length na - length nb)%nat with 0%nat by lia.
  - eapply enc_ptr_denotes; [exact Hql|]. intros l1 c1 a1 k1 v1 b1 Ed. split; [pose proof (dsize_DN l1 c1 a1 k1 v1 b1) as Hp; rewrite <- Ed in Hp; lia|].
    eapply (IHa base pre); [done..|lia|done].
  - eapply enc_ptr_denotes; [exact Hqr|]. intros l1 c1 a1 k1 v1 b1 Ed. split; [pose proof (dsize_DN l1 c1 a1 k1 v1 b1) as Hp; rewrite <- Ed in Hp; lia|].
    eapply (IHb (base + dsize a) (pre ++ na)); [done|by rewrite <- app_assoc|rewrite length_app; lia|lia|done].
Qed.

(** Every address handed out is where it says. *)
Lemma encoded_assigned addr d : (forall off, 0 <= off < 2 ^ 16 -> Offset (addr off) = off) ->
  forall base pre ns post, encodes names d base ns -> ai_tree ai = pre ++ ns ++ post ->
  Z.of_nat (length pre) = base -> base + dsize d <= 2 ^ 16 ->
  forall x t, assigned_at addr d base x t -> image t (Offset x).
Proof.
  intros Haddr. induction d as [t|l c a IHa k v b IHb]; [done|]. intros base pre ns post Hen E Hlen Hd x t Hx.
  pose proof (dsize_nonneg a). pose proof (dsize_nonneg b).
  destruct Hx as [[-> ->]|Hx].
  - rewrite Haddr by (cbn [dsize] in *; lia). by eapply encoded_root.
  - destruct Hen as (na & nb & ql & qr & -> & Ha & Hb & _). rewrite <- !app_assoc in E. simpl in Hd.
    pose proof (encodes_length _ _ _ _ Ha) as La.
    destruct Hx as [Hx|Hx]; [eapply (IHa base pre); [done..|lia|done]|].
    eapply (IHb (base + dsize a) (pre ++ na)); [done|by rewrite <- app_assoc|rewrite length_app; lia|lia|done].
Qed.
End images.

(** ** Trees that are all new *)

Fixpoint all_new (t : tree) : dtree :=
  match t with E => DL E | T c l k v r => DN Nil c (all_new l) k v (all_new r) end.

Definition self_ptr (t : tree) (off : Z) : ProtoNodePtr :=
  match t with E => nil_ptr | _ => self_at off end.

Fixpoint image_nodes (t : tree) (base : Z) : list ProtoNode :=
  match t with
  | E => []
  | T c l k v r =>
    let lb := base + Z.of_nat (size l) in
    let rb := lb + Z.of_nat (size r) in
    image_nodes l base ++ image_nodes r lb ++ [mkProtoNode c k v (self_ptr l (lb - 1)) (self_ptr r (rb - 1))]
  end.

Lemma size_T c l k v r : size (T c l k v r) = S (size l + size r).
Proof. unfold size. simpl. rewrite length_app. simpl. lia. Qed.

Lemma size_pos t : t <> E -> (0 < size t)%nat.
Proof. destruct t as [|c l k v r]; [done|]. rewrite size_T. lia. Qed.

Lemma erase_all_new t : erase (all_new t) = t.
Proof. induction t; simpl; congruence. Qed.

Lemma dsize_all_new t : dsize (all_new t) = Z.of_nat (size t).
Proof. induction t as [|c l IHl k v r IHr]; [done|]. simpl. rewrite IHl, IHr, size_T. lia. Qed.

Lemma image_nodes_encode names t : forall base, encodes names (all_new t) base (image_nodes t base).
Proof.
  induction t as [|c l IHl k v r IHr]; intros base; [done|]. simpl. rewrite !dsize_all_new.
  do 4 eexists. split; [reflexivity|]. split_and!; [apply IHl|apply IHr|by destruct l|by destruct r].
Qed.

Lemma length_image_nodes t base : length (image_nodes t base) = size t.
Proof.
  apply Nat2Z.inj. rewrite <- dsize_all_new. apply (encodes_length (fun _ _ => False) _ base). apply image_nodes_encode.
Qed.

Lemma image_whole scan_fuel horizon log p ai t : log !! p = Some ai -> 0 <= p < 2 ^ 64 -> 0 <= ai_intention ai < horizon ->
  ai_tree ai = image_nodes t 0 -> Z.of_nat (size t) <= 2 ^ 16 -> t <> E ->
  image_at scan_fuel horizon log t p (Z.of_nat (length (ai_tree ai)) - 1).
Proof.
  intros Ha Hp Hi E Hs Hne. rewrite E, length_image_nodes, <- dsize_all_new. rewrite <- dsize_all_new in Hs.
  apply (image_at_mono scan_fuel (ai_intention ai + 1)); [lia|]. destruct t as [|c l k v r]; [done|].
  rewrite <- (erase_all_new (T c l k v r)) at 1.
  eapply (encoded_root scan_fuel log p ai Ha Hp (proj1 Hi) (fun _ _ => False) ltac:(done) (all_new (T c l k v r)) 0 [] _ []);
    [apply image_nodes_encode|by rewrite app_nil_r|done|exact Hs|reflexivity].
Qed.

Lemma self_ptr_ok t off : np_nil (self_ptr t off) = true \/ is_Some (child_address 0 (self_ptr t off)).
Proof. destruct t; [by left|right; by eexists]. Qed.

Lemma image_nodes_ok t : forall base, Forall proto_ok (image_nodes t base).
Proof.
  induction t as [|c l IHl k v r IHr]; intros base; [constructor|]. simpl. rewrite !Forall_app. split_and!; [apply IHl|apply IHr|].
  constructor; [|constructor]. split; apply self_ptr_ok.
Qed.
