(* ===== verification/Serialize.v ===== *)
(** Serialization: the after image [SerializeAfterImage] makes of an infected
    delta (src/src/db/persistent_tree.cc), and that reading it gives the tree. *)
From S2P Require Import Prelude Slice RBTree Node Proto PersistentTree Delta PathCopy TreeSpec Infect.
From S2P Require Import LruCache NodeCache NodeCacheSpec Images.

(** The nodes of a delta in postorder. *)
Fixpoint postorder (d : dtree) : list loc :=
  match d with DL _ => [] | DN l _ a _ _ b => postorder a ++ postorder b ++ [l] end.

Lemma postorder_length d : Z.of_nat (length (postorder d)) = dsize d.
Proof. induction d as [t|l c a IHa k v b IHb]; [done|]. simpl. rewrite !length_app, !Nat2Z.inj_add, IHa, IHb. simpl. lia. Qed.

Section serialize.
Context {W : Type} {NS : NodeStore W} {NSL : NodeStoreLaws W} {SC : SliceCompare} {SL : SliceLaws}.
Context (r : Z).
Hypothesis r_i64 : i64 (u64 r) = r.
Hypothesis r_nil : delta_id ns_hor r.

Abbreviation sinv := (sinv r False).

Lemma tree_i2a_spec δ i s : sinv δ s ->
  wp (PersistentTree.IntentionToAfterImage i) (fun o s' => sinv δ s' /\ sext s s' /\ forall p off t,
    o = Some p -> ns_names s.1 (mkNodeAddress i off false) t -> ns_names s.1 (mkNodeAddress p off true) t) s.
Proof.
  destruct s as [w t]. intros [Hw Ht]. unfold PersistentTree.IntentionToAfterImage, wp. pose proof (ns_i2a_law w i (proj1 Hw)) as Hl.
  destruct (ns_intention_to_afterimage i w) as [o w']. destruct Hl as (Hi & Hh & Hst & Hnm & Ho).
  destruct (winv_frame r δ w w') as [Hw' He]; [done..|]. split_and!; [by split|by split|exact Ho].
Qed.

(** One pointer. *)
Lemma serialize_node_ptr_spec δ pos l an sd d off s : sinv δ s -> δ !! l = Some an ->
  points pos (an_child sd an) d off -> (forall l, l ∈ dlocs d -> is_Some (δ !! l)) -> (0 < dsize d -> 0 <= off < 2 ^ 16) ->
  wp (serialize_node_ptr l sd off) (fun q s' => enc_ptr (ns_names s.1) q d off /\ sinv δ s' /\ sext s s') s.
Proof.
  intros Hs Hl Hd Hdom Hoff. pose proof (points_aims _ _ _ _ Hd) as Ha. unfold serialize_node_ptr.
  apply wp_bind. eapply wp_conseq; [by eapply (wp_ref_child_aims r r_nil)|]. intros x s1 (Hs1 & He1 & Hx).
  pose proof (lands_case r r_nil δ s1.1 d x (proj1 Hs1) Hx Hdom) as Hc.
  destruct (decide (x = Nil)) as [->|Hne].
  { apply wp_ret. split_and!; [|done|done]. destruct d as [t|]; [|by destruct Hc as (_ & [] & _)].
    rewrite (proj1 (proj1 Hc) eq_refl). done. }
  apply wp_bind. eapply wp_conseq; [by eapply (wp_ref_child_aims r r_nil)|]. intros y s2 (Hs2 & He2 & Hy).
  assert (sext s s2) as He02 by (by etransitivity).
  pose proof (lands_case r r_nil δ s2.1 d y (proj1 Hs2) Hy Hdom) as Hc2.
  apply wp_bind. assert (exists n, ns_heap s2.1 !! y = Some n /\ (rid_ n = r <-> exists l c a k v b, d = DN l c a k v b)) as (n & Hn & Hr).
  { destruct d as [t|l' c a k v b].
    - destruct Hc2 as (_ & n & Hn & Hr). exists n. split; [done|]. split; [done|]. by intros (? & ? & ? & ? & ? & ? & ?).
    - destruct Hc2 as (_ & _ & n & Hn & Hr). exists n. split; [done|]. split; [|done]. by repeat eexists. }
  eapply wp_rid_of; [done|]. apply wp_bind. eapply (wp_tree_rid r False); [done|].
  apply wp_bind. eapply (wp_get_child r False); [done..|]. intros p [Hdb Hp].
  destruct d as [t|l' c a k v b].
  - assert (t <> E) as Ht by (intros E; by apply Hne, (proj1 Hc)).
    destruct Hd as [E|[? _]]; [|done]. rewrite E in Hp. destruct (proj2 Hp Ht) as (_ & x0 & Hx0 & Hnm). rewrite Hx0.
    rewrite (wext_names _ _ (sext_w _ _ He02)) in Hnm.
    rewrite decide_False by (by intros (? & ? & ? & ? & ? & ? & ?)%Hr).
    assert (forall q, (exists a, ns_names s.1 a t /\ q = ptr_to a) -> enc_ptr (ns_names s.1) q (DL t) off) as Henc by (by destruct t).
    apply wp_bind. eapply wp_conseq; [eapply (wp_ref_child_aims r r_nil δ l an sd (DL t)); done|]. intros z s3 (Hs3 & He3 & _).
    assert (sext s s3) as He03 by (by etransitivity). destruct (IsAfterImage x0) eqn:Hk.
    + apply wp_ret. split_and!; [|done|done]. apply Henc. exists x0. split; [done|]. unfold ptr_to. by rewrite Hk.
    + apply wp_bind. eapply wp_conseq; [by eapply tree_i2a_spec|]. intros o s4 (Hs4 & He4 & Ho).
      rewrite (wext_names _ _ (sext_w _ _ He03)) in Ho.
      assert (x0 = mkNodeAddress (Node.Position x0) (Offset x0) false) as Ex by (destruct x0; simpl in *; congruence).
      destruct o as [q|]; apply wp_ret; (split_and!; [apply Henc|done|by etransitivity]).
      * exists (mkNodeAddress q (Offset x0) true). split; [|done]. apply Ho; [done|]. by rewrite <- Ex.
      * exists x0. split; [done|]. unfold ptr_to. by rewrite Hk.
  - change (an_child sd an = Self l' (make_address pos off false)) in Hd. rewrite Hd in Hp. destruct Hp as (_ & _ & ->).
    rewrite decide_True by (apply Hr; by repeat eexists). specialize (Hoff ltac:(apply dsize_DN)).
    apply wp_bind, wp_assert. { apply Z.eqb_eq. unfold make_address, u16. simpl. rewrite Z.mod_small; lia. }
    apply wp_ret. by split_and!.
Qed.

(** The walk. *)
Lemma serialize_intention_spec fuel pos δ : forall d i base x delta s, (height (erase d) < fuel)%nat ->
  sinv δ s -> numbered δ pos d base -> lands s.1 d x -> 0 <= base -> base + dsize d <= 2 ^ 16 ->
  wp (serialize_intention fuel i x base delta) (fun '(i', base', delta') s' => exists ns, encodes (ns_names s.1) d base ns /\
    i' = i ++ ns /\ base' = base + dsize d /\ delta' = delta ++ postorder d /\ sinv δ s' /\ sext s s') s.
Proof.
  induction fuel as [|fuel IH]; intros d i base x delta s Hf Hs Hnum Hx H0 Hsz; [lia|]. cbn [serialize_intention].
  assert (forall l, l ∈ dlocs d -> is_Some (δ !! l)) as Hdom by (intros ??; by eapply numbered_locs).
  pose proof (lands_case r r_nil δ s.1 d x (proj1 Hs) Hx Hdom) as Hc.
  destruct d as [t|l c a k v b].
  { assert (exists ns, encodes (ns_names s.1) (DL t) base ns /\ i = i ++ ns /\ base = base + dsize (DL t) /\
      delta = delta ++ postorder (DL t) /\ sinv δ s /\ sext s s) as Hdone.
    { exists []. rewrite !app_nil_r. split_and!; [done|done|simpl; lia|done|done|done]. }
    destruct (decide (x = Nil)) as [|Hxn]; [by apply wp_ret|]. destruct Hc as (_ & n & Hn & Hr).
    apply wp_bind. eapply wp_rid_of; [done|]. apply wp_bind. eapply (wp_tree_rid r False); [done|].
    rewrite decide_True by done. by apply wp_ret. }
  destruct Hc as (-> & Hne & n & Hn & Hr). rewrite decide_False by done.
  apply wp_bind. eapply wp_rid_of; [done|]. apply wp_bind. eapply (wp_tree_rid r False); [done|].
  rewrite decide_False by (intros E; by apply E). pose proof Hnum as (pa & pb & Hl & Hpa & Hpb & Ha & Hb).
  pose proof (dsize_nonneg a). pose proof (dsize_nonneg b). cbn [dsize] in Hsz. simpl in Hf.
  (* left *)
  apply wp_bind. eapply wp_conseq; [eapply (wp_ref_child_aims r r_nil δ l _ SideL a); [done..|by eapply points_aims]|].
  intros y s1 (Hs1 & He1 & Hy).
  apply wp_bind. eapply wp_conseq; [apply (IH a i base y delta s1); [lia|done|done|done|lia|lia]|].
  intros [[i2 base2] delta2] s2 (na & Hna & -> & -> & -> & Hs2 & He2). rewrite (wext_names _ _ (sext_w _ _ He1)) in Hna.
  (* right *)
  apply wp_bind. eapply wp_conseq; [eapply (wp_ref_child_aims r r_nil δ l _ SideR b); [done..|by eapply points_aims]|].
  intros z s3 (Hs3 & He3 & Hz). assert (sext s s3) as He03 by (do 2 (etransitivity; [eassumption|]); done).
  apply wp_bind. eapply wp_conseq; [apply (IH b (i ++ na) (base + dsize a) z _ s3); [lia|done|done|done|lia|lia]|].
  intros [[i4 base4] delta4] s4 (nb & Hnb & -> & -> & -> & Hs4 & He4). rewrite (wext_names _ _ (sext_w _ _ He03)) in Hnb.
  assert (sext s s4) as He04 by (by etransitivity).
  (* the node *)
  apply wp_bind. unfold serialize_node.
  destruct (winv_lookup _ _ _ _ _ (proj1 Hs4) Hl) as (m & Hm & Hred & Hkey & Hval & _).
  apply wp_bind. eapply (wp_read red_); [done|]. apply wp_bind. eapply (wp_read key_); [done|].
  apply wp_bind. eapply (wp_read val_); [done|].
  apply wp_bind. eapply wp_conseq.
  { eapply (serialize_node_ptr_spec δ pos l _ SideL a); [done|done|done| |lia]. intros ??. by eapply numbered_locs; [exact Ha|]. }
  intros ql s5 (Hql & Hs5 & He5). rewrite (wext_names _ _ (sext_w _ _ He04)) in Hql. assert (sext s s5) as He05 by (by etransitivity).
  apply wp_bind. eapply wp_conseq.
  { eapply (serialize_node_ptr_spec δ pos l _ SideR b); [done|done|done| |lia]. intros ??. by eapply numbered_locs; [exact Hb|]. }
  intros qr s6 (Hqr & Hs6 & He6). rewrite (wext_names _ _ (sext_w _ _ He05)) in Hqr.
  apply wp_ret, wp_ret. exists (na ++ nb ++ [mkProtoNode c k v ql qr]). split_and!; [|by rewrite <- !app_assoc, Hred, Hkey, Hval|simpl; lia|by rewrite <- !app_assoc|done|by etransitivity].
  by exists na, nb, ql, qr.
Qed.

Lemma SerializeAfterImage_spec fuel pos d x s : ready r pos s d x -> dsize d <= 2 ^ 16 -> (height (erase d) < fuel)%nat ->
  wp (SerializeAfterImage fuel pos) (fun '(ai, delta) s' => ai_intention ai = pos /\ encodes (ns_names s.1) d 0 (ai_tree ai) /\
    delta = postorder d /\ ready r pos s' d x /\ sext s s') s.
Proof.
  intros (δ & Hs & Hx & Hd & Hnd & Hnum) Hsz Hf. destruct d as [t|l c a k v b]; [done|]. simpl in Hd. injection Hd as ->.
  assert (is_Some (δ !! x)) as [an Hxl] by (eapply numbered_locs; [done|simpl; set_solver]).
  destruct (winv_lookup _ _ _ _ _ (proj1 Hs) Hxl) as (n & Hn & _ & _ & _ & Hr & _).
  unfold SerializeAfterImage. apply wp_bind, wp_get_tree. rewrite Hx.
  apply wp_bind. rewrite decide_False by (eapply (delta_not_nil r r_nil); [apply Hs|eauto]).
  apply wp_bind. eapply wp_rid_of; [done|]. apply wp_bind. eapply (wp_tree_rid r False); [done|].
  apply wp_assert; [by apply bool_decide_eq_true|].
  apply wp_bind. eapply wp_conseq; [apply (serialize_intention_spec fuel pos δ (DN x c a k v b) [] 0 x [] s); try done; lia|].
  intros [[i base] delta] s' (ns & Hns & -> & -> & -> & Hs' & He). apply wp_ret.
  split_and!; [done|done|done| |done]. exists δ. split_and!; try done. by rewrite (sext_root _ _ He).
Qed.
End serialize.
