(* ===== verification/Vacuum.v ===== *)
(** The node cache as eight lists in order of use: its structural invariant and
    the account of bytes it keeps, eviction by the vacuum, [Clear], and the
    traces the vacuum never takes. *)
From S2P Require Import Prelude Slice RBTree Node Proto LruCache NodeCache.

(** ** What the operations change

    A relation between states that the elementary steps of the cache respect is
    respected by all its operations, but for [Clear], which drops the traces. *)

Section cache_ops.
Context {L : Type} {AS : AfterImageSource L}.
Context (std_hash : Z -> Z) (sizeof_node : Z) (cache_size : Z) (scan_fuel : nat).

Class CacheRelation (R : NodeCache L -> NodeCache L -> Prop) : Prop := {
  cr_preorder :: PreOrder R;
  cr_shard_find key : respects R (shard_find std_hash key);
  cr_shard_add key node : respects R (shard_add std_hash sizeof_node key node);
  cr_alloc n : respects R (nc_alloc n);
  cr_set_read_only x : respects R (nc_set_read_only x);
  cr_evict_last slot : respects R (evict_last sizeof_node slot);
  cr_update tr : respects R (UpdateLRU tr);
  cr_src l w : R w (with_src l w);
  cr_lookup i : respects R (IntentionToAfterImage i);
}.

Context (R : NodeCache L -> NodeCache L -> Prop) `{!CacheRelation R}.
#[local] Hint Resolve cr_shard_find cr_shard_add cr_alloc cr_set_read_only cr_evict_last cr_update cr_lookup : respects.

Lemma cache_respects_on_src {A} (m : M L A) : respects R (on_src m).
Proof. apply respects_zoom_any. intros. apply cr_src. Qed.

#[local] Hint Resolve cache_respects_on_src : respects.

Lemma cache_respects_deserialize_ptr pos p q : respects R (deserialize_ptr pos p q).
Proof. unfold deserialize_ptr, SetAfterImageAddress. auto 10 with respects. Qed.

#[local] Hint Resolve cache_respects_deserialize_ptr : respects.

Lemma cache_respects_deserialize_node i pos idx : respects R (deserialize_node i pos idx).
Proof. unfold deserialize_node. auto 10 with respects. Qed.

Lemma cache_respects_get_shard key : respects R (get_shard std_hash key).
Proof. intros w s w'. unfold get_shard. destruct (nc_shards w !! _); [|done]. by intros [= _ <-]. Qed.

#[local] Hint Resolve cache_respects_deserialize_node cache_respects_get_shard : respects.

Lemma cache_respects_cache_nodes i pos n : forall idx nn, respects R (cache_nodes std_hash sizeof_node i pos idx n nn).
Proof. induction n as [|n IH]; intros idx nn; simpl; auto 10 with respects. Qed.

#[local] Hint Resolve cache_respects_cache_nodes : respects.

Lemma cache_respects_CacheAfterImage i pos : respects R (CacheAfterImage std_hash sizeof_node i pos).
Proof. unfold CacheAfterImage, SetAfterImageAddress. auto 10 with respects. Qed.

#[local] Hint Resolve cache_respects_CacheAfterImage : respects.

Lemma cache_respects_scan fuel intention : forall pos, respects R (scan_after_images fuel intention pos).
Proof. induction fuel as [|fuel IH]; intros pos; simpl; auto 10 with respects. Qed.

#[local] Hint Resolve cache_respects_scan : respects.

Lemma cache_respects_find a : respects R (findAfterImagePosition scan_fuel a).
Proof. unfold findAfterImagePosition. auto 10 with respects. Qed.

Lemma cache_respects_apply_delta delta pos : forall off, respects R (apply_delta std_hash sizeof_node delta pos off).
Proof. induction delta as [|x delta IH]; intros off; simpl; auto 10 with respects. Qed.

Lemma cache_respects_is_empty slot : respects R (shard_is_empty slot).
Proof. intros w b w'. unfold shard_is_empty. destruct (nc_shards w !! slot); [|done]. by intros [= _ <-]. Qed.

#[local] Hint Resolve cache_respects_find cache_respects_apply_delta cache_respects_is_empty : respects.

Lemma cache_respects_ApplyAfterImageDelta delta pos : respects R (ApplyAfterImageDelta std_hash sizeof_node delta pos).
Proof. unfold ApplyAfterImageDelta, SetAfterImageAddress. auto 10 with respects. Qed.

Lemma cache_respects_evict_shard fuel slot : forall left, respects R (evict_shard sizeof_node fuel slot left).
Proof. induction fuel as [|fuel IH]; intros left; simpl; auto 10 with respects. Qed.

Lemma cache_respects_clear_shard fuel slot : respects R (clear_shard sizeof_node fuel slot).
Proof. induction fuel as [|fuel IH]; simpl; auto 10 with respects. Qed.

#[local] Hint Resolve cache_respects_evict_shard cache_respects_clear_shard : respects.

Lemma cache_respects_evict_shards fuel slots left : respects R (evict_shards sizeof_node fuel slots left).
Proof. induction slots as [|slot slots IH]; simpl; auto 10 with respects. Qed.

Lemma cache_respects_clear_shards fuel slots : respects R (clear_shards sizeof_node fuel slots).
Proof. induction slots as [|slot slots IH]; simpl; auto 10 with respects. Qed.

#[local] Hint Resolve cache_respects_evict_shards cache_respects_clear_shards : respects.

Lemma cache_respects_apply_trace tr : respects R (apply_trace std_hash tr).
Proof. induction tr as [|a tr IH]; simpl; auto 10 with respects. Qed.

Lemma cache_respects_apply_traces trs : respects R (apply_traces std_hash trs).
Proof. induction trs as [|tr trs IH]; simpl; [auto with respects|]. apply respects_bind; [apply _|apply cache_respects_apply_trace|done]. Qed.

#[local] Hint Resolve cache_respects_apply_traces : respects.

Lemma cache_respects_vaccum fuel : respects R (do_vaccum_ std_hash sizeof_node cache_size fuel).
Proof. unfold do_vaccum_. auto 12 with respects. Qed.

#[local] Instance traced_preorder : PreOrder (fun s s' : NodeCache L * list NodeAddress => R s.1 s'.1).
Proof. split; [intros s; simpl; reflexivity|intros s1 s2 s3; simpl; apply transitivity]. Qed.

(** [fetch] works on the cache and its caller's trace. *)
Lemma cache_respects_lift {A} (m : NCM A) : respects R m ->
  respects (fun s s' : NodeCache L * list NodeAddress => R s.1 s'.1) (zoom fst (fun w s => (w, s.2)) m).
Proof. intros Hm. apply (respects_zoom _ R); [done|]. by intros [w tr] w' H. Qed.

#[local] Hint Extern 0 (respects _ (zoom fst (fun w s => (w, s.2)) _)) => apply cache_respects_lift : respects.
#[local] Hint Extern 0 (respects _ (modify (fun '(w, _) => (w, [])))) => apply respects_modify; intros [? ?]; apply (reflexivity (R := R)) : respects.

Lemma cache_respects_fetch a : respects (fun s s' : NodeCache L * list NodeAddress => R s.1 s'.1) (fetch std_hash sizeof_node scan_fuel a).
Proof. unfold fetch. auto 30 with respects. Qed.
End cache_ops.

(** ** A shard as a list of entries, most recent first *)

Definition shard_holds (s : shard) (l : list (cache_key * loc)) : Prop :=
  sl_ok (sh_lru s) /\ sl_keys (sh_lru s) = l.*1 /\ NoDup l.*1 /\
  (forall k node i, sh_nodes s !! k = Some (node, i) <-> (k, node) ∈ l /\ (i, k) ∈ sl_nodes (sh_lru s)).

Lemma shard_holds_empty : shard_holds (mkShard ∅ sl_empty) [].
Proof.
  split_and!; [apply sl_ok_empty|done|constructor|]. intros k node i. simpl. rewrite lookup_empty.
  split; [done|]. by intros [?%not_elem_of_nil _].
Qed.

Lemma keys_entry {K} (l : stdlist K) k : k ∈ sl_keys l -> exists i, (i, k) ∈ sl_nodes l.
Proof. intros ([i k'] & -> & Hi)%list_elem_of_fmap. by exists i. Qed.

Lemma shard_lookup s l k : shard_holds s l ->
  match sh_nodes s !! k with
  | Some (node, i) => (k, node) ∈ l /\ (i, k) ∈ sl_nodes (sh_lru s)
  | None => k ∉ l.*1
  end.
Proof.
  intros (Hok & Hk & Hn & Hm). destruct (sh_nodes s !! k) as [[node i]|] eqn:E; [by apply Hm|].
  intros Hin. pose proof Hin as Hin'. rewrite <- Hk in Hin'. apply keys_entry in Hin' as [i Hi].
  apply list_elem_of_fmap in Hin as ([k' node] & -> & Hin). simpl in *.
  assert (sh_nodes s !! k' = Some (node, i)) by (by apply Hm). congruence.
Qed.

(** The list without the entry of a key. *)
Definition drop_key (k : cache_key) (l : list (cache_key * loc)) : list (cache_key * loc) := filter (fun e => e.1 <> k) l.

Lemma drop_key_keys k l : (drop_key k l).*1 = without k l.*1.
Proof.
  unfold drop_key. induction l as [|[k' x] l IH]; [done|]. simpl.
  destruct (decide (k' = k)) as [->|Hne].
  - rewrite filter_cons_False by (simpl; tauto). done.
  - rewrite filter_cons_True by done. rewrite fmap_cons. simpl. by rewrite IH.
Qed.

Lemma shard_holds_erase s l k i : shard_holds s l -> (i, k) ∈ sl_nodes (sh_lru s) ->
  shard_holds (mkShard (delete k (sh_nodes s)) (sl_erase i (sh_lru s))) (drop_key k l).
Proof.
  intros (Hok & Hk & Hn & Hm) Hi. assert (NoDup (sl_keys (sh_lru s))) as Hnk by (by rewrite Hk).
  split_and!; cbn [sh_nodes sh_lru].
  - by apply sl_ok_erase.
  - rewrite (sl_keys_erase i k) by done. by rewrite Hk, drop_key_keys.
  - rewrite drop_key_keys. by apply NoDup_without.
  - intros k' node j. rewrite sl_erase_in. unfold drop_key. rewrite list_elem_of_filter. simpl.
    destruct (decide (k' = k)) as [->|Hne].
    + rewrite lookup_delete_eq. split; [done|]. intros [[[] _] _]. done.
    + rewrite lookup_delete_ne, Hm by done. split; [|tauto]. intros [H1 H2]. split_and!; try done.
      intros ->. apply Hne. eapply (NoDup_fst_inj (sl_nodes (sh_lru s))); [apply Hok|done..].
Qed.

Lemma shard_holds_push s l k node : shard_holds s l -> k ∉ l.*1 ->
  shard_holds (mkShard (<[k := (node, sl_next (sh_lru s))]> (sh_nodes s)) (sl_push_front k (sh_lru s)).2) ((k, node) :: l).
Proof.
  intros (Hok & Hk & Hn & Hm) Hni. split_and!; cbn [sh_nodes sh_lru].
  - by apply sl_ok_push.
  - rewrite sl_keys_push, Hk. done.
  - by apply NoDup_cons.
  - intros k' node' j. simpl. rewrite !elem_of_cons. destruct (decide (k' = k)) as [->|Hne].
    + rewrite lookup_insert_eq. split; [intros [= <- <-]; tauto|]. intros [[[= ->]|Hin] [[= ->]|Hj]]; try done.
      * assert (k ∈ sl_keys (sh_lru s)) as Hc by (apply list_elem_of_fmap; by exists (j, k)). by rewrite Hk in Hc.
      * destruct Hni. apply list_elem_of_fmap. by exists (k, node').
      * destruct Hni. apply list_elem_of_fmap. by exists (k, node').
    + rewrite lookup_insert_ne, Hm by done. split; [tauto|]. intros [[?|Hin] [?|Hj]]; by simplify_eq.
Qed.

(** A hit moves the entry to the front. *)
Lemma shard_holds_touch s l k node i : shard_holds s l -> sh_nodes s !! k = Some (node, i) ->
  shard_holds (touch k node i s) ((k, node) :: drop_key k l).
Proof.
  intros Hs Hk. pose proof (shard_lookup s l k Hs) as Hl. rewrite Hk in Hl. destruct Hl as [Hin Hi].
  pose proof (shard_holds_erase s l k i Hs Hi) as He.
  apply (shard_holds_push _ _ k node) in He; [|rewrite drop_key_keys, elem_of_without; tauto].
  unfold touch. simpl in *. by rewrite insert_delete_eq in He.
Qed.

(** ** The cache *)

(** Freeing [left] bytes from the end of the list of a shard. *)
Fixpoint drop_bytes (size_of : cache_key * loc -> Z) (left : Z) (oldest_first : list (cache_key * loc)) : list (cache_key * loc) :=
  match oldest_first with
  | [] => []
  | e :: rest => if left <=? 0 then e :: rest else drop_bytes size_of (left - size_of e) rest
  end.
Definition kept_entries size_of (left : Z) (l : list (cache_key * loc)) : list (cache_key * loc) :=
  reverse (drop_bytes size_of left (reverse l)).

(** One step per slot, in order. *)
Fixpoint on_slots {A} (f : A -> A) (slots : list nat) (ls : list A) : list A :=
  match slots with
  | [] => ls
  | slot :: slots => on_slots f slots (alter f slot ls)
  end.

Lemma on_all_slots {A} (f : A -> A) ls : length ls = num_slots -> on_slots f (seq 0 num_slots) ls = f <$> ls.
Proof. unfold num_slots. intros H. do 8 (destruct ls as [|? ls]; [done|]). by destruct ls. Qed.

Lemma last_entry {K} (l : stdlist K) ks k : sl_keys l = ks ++ [k] -> exists i, sl_back l = Some (i, k).
Proof.
  unfold sl_keys, sl_back. destruct (sl_nodes l) as [|x ns] using rev_ind; [by intros ?%(f_equal length); rewrite length_app in *; simpl in *; lia|].
  rewrite fmap_app, last_snoc. intros [_ E]%app_inj_tail. destruct x as [i k']. simpl in E. subst k'. by exists i.
Qed.

Section vacuum.
Context {L : Type} {AS : AfterImageSource L}.
Context (std_hash : Z -> Z) (sizeof_node : Z).

Definition entry_bytes (h : gmap loc Node) (e : cache_key * loc) : Z :=
  match h !! e.2 with Some n => node_byte_size sizeof_node n | None => 0 end.
Definition list_bytes h (l : list (cache_key * loc)) : Z := foldr (fun e b => entry_bytes h e + b) 0 l.
Definition total_bytes h (ls : list (list (cache_key * loc))) : Z := foldr (fun l b => list_bytes h l + b) 0 ls.

(** The shards hold [ls], every entry in the slot of its key and alive, and
    [used_bytes_] is the sum of their sizes. *)
Record cache_holds (w : NodeCache L) (ls : list (list (cache_key * loc))) : Prop := {
  ch_len : length ls = num_slots;
  ch_shards : Forall2 shard_holds (nc_shards w) ls;
  ch_entries slot l k node : ls !! slot = Some l -> (k, node) ∈ l -> slot_of std_hash k = slot /\ is_Some (nc_heap w !! node);
  ch_used : nc_used_bytes w = u64 (total_bytes (nc_heap w) ls);
}.

Definition cache_inv (w : NodeCache L) : Prop := exists ls, cache_holds w ls.

Lemma new_node_cache_inv imap (src : L) : cache_holds (new_node_cache imap src) (replicate num_slots []).
Proof.
  split; [done| | |done].
  - apply Forall2_replicate, shard_holds_empty.
  - intros slot l k node [-> _]%lookup_replicate ?%not_elem_of_nil. done.
Qed.

Lemma list_bytes_app h l l' : list_bytes h (l ++ l') = list_bytes h l + list_bytes h l'.
Proof. induction l as [|e l IH]; simpl; [done|]. rewrite IH. lia. Qed.

Lemma total_bytes_insert h ls : forall slot l l', ls !! slot = Some l ->
  total_bytes h (<[slot := l']> ls) = total_bytes h ls - list_bytes h l + list_bytes h l'.
Proof.
  induction ls as [|l0 ls IH]; intros [|slot] l l' Hl; try done; simpl in *.
  - injection Hl as ->. lia.
  - rewrite (IH slot l l' Hl). lia.
Qed.

Lemma list_bytes_drop_key h l k node : NoDup l.*1 -> (k, node) ∈ l ->
  list_bytes h (drop_key k l) = list_bytes h l - entry_bytes h (k, node).
Proof.
  unfold drop_key. induction l as [|[k' x] l IH]; [by intros _ ?%not_elem_of_nil|].
  rewrite fmap_cons. intros [Hk Hn]%NoDup_cons Hin. simpl in *. destruct (decide (k' = k)) as [->|Hne].
  - rewrite filter_cons_False by (simpl; tauto). apply elem_of_cons in Hin as [[= ->]|Hin].
    + rewrite filter_all; [lia|]. apply Forall_forall. intros [k' y] Hy E. simpl in E. subst k'. apply Hk, list_elem_of_fmap. by exists (k, y).
    + destruct Hk. apply list_elem_of_fmap. by exists (k, node).
  - rewrite filter_cons_True by done. simpl. apply elem_of_cons in Hin as [[= ? ?]|Hin]; [done|]. rewrite IH by done. lia.
Qed.

Lemma slot_bound key : (slot_of std_hash key < num_slots)%nat.
Proof. unfold slot_of. pose proof (Z.mod_pos_bound (pair_hash std_hash key) (Z.of_nat num_slots)). unfold num_slots in *. lia. Qed.

(** The shard of a slot, and what it holds. *)
Lemma holds_slot w ls slot : cache_holds w ls -> (slot < num_slots)%nat ->
  exists s l, nc_shards w !! slot = Some s /\ ls !! slot = Some l /\ shard_holds s l.
Proof.
  intros [Hlen Hsh _ _] Hs. destruct (lookup_lt_is_Some_2 ls slot) as [l Hl]; [lia|].
  destruct (Forall2_lookup_r _ _ _ _ _ Hsh Hl) as (s & Hs' & Hh). eauto.
Qed.

(** A shard replaced, with the bytes accounted for. *)
Lemma holds_put w ls slot s' l l' b : cache_holds w ls -> ls !! slot = Some l -> shard_holds s' l' ->
  (forall k node, (k, node) ∈ l' -> slot_of std_hash k = slot /\ is_Some (nc_heap w !! node)) ->
  b = u64 (nc_used_bytes w - list_bytes (nc_heap w) l + list_bytes (nc_heap w) l') ->
  cache_holds (with_used b (with_shards (<[slot := s']> (nc_shards w)) w)) (<[slot := l']> ls).
Proof.
  intros [Hlen Hsh He Hu] Hl Hs' Hk ->. split; simpl.
  - by rewrite length_insert.
  - by apply Forall2_insert.
  - intros slot' l0 k node [[-> [-> _]]|[Hne Hl0]]%list_lookup_insert_Some Hin; [by apply Hk|by eapply He].
  - rewrite (total_bytes_insert _ _ _ l) by done. rewrite Hu. unfold u64.
    rewrite <- Zplus_mod_idemp_l, <- Zminus_mod_idemp_l, Zmod_mod, Zminus_mod_idemp_l, Zplus_mod_idemp_l. done.
Qed.

(** Everything but the shards and the account. *)
Definition rest (w : NodeCache L) := (nc_heap w, nc_traces w, nc_imap w, nc_stop w, nc_src w).

Lemma drop_key_last k node l : NoDup (l ++ [(k, node)]).*1 -> drop_key k (l ++ [(k, node)]) = l.
Proof.
  rewrite fmap_app. intros (_ & Hd & _)%NoDup_app. unfold drop_key. rewrite filter_app, filter_all.
  - rewrite filter_cons_False by (simpl; tauto). by rewrite app_nil_r.
  - apply Forall_forall. intros [k' y] Hy E. simpl in E. subst k'. apply (Hd k); [|simpl; set_solver].
    apply list_elem_of_fmap. by exists (k, y).
Qed.

Lemma evict_last_spec slot ls l k node w : cache_holds w ls -> ls !! slot = Some (l ++ [(k, node)]) ->
  wp (evict_last sizeof_node slot) (fun b w' => b = entry_bytes (nc_heap w) (k, node) /\ cache_holds w' (<[slot := l]> ls) /\ rest w' = rest w) w.
Proof.
  intros Hw Hl. pose proof Hw as [Hlen _ He Hu]. assert (slot < num_slots)%nat as Hs by (rewrite <- Hlen; by eapply lookup_lt_Some).
  destruct (holds_slot w ls slot Hw Hs) as (s & l0 & Hsh & Hl0 & Hh). rewrite Hl in Hl0. injection Hl0 as <-.
  pose proof Hh as (Hok & Hk & Hn & Hm). destruct (last_entry (sh_lru s) l.*1 k) as [i Hi]; [by rewrite Hk, fmap_app|].
  assert ((i, k) ∈ sl_nodes (sh_lru s)) as Hin by (by apply last_Some_elem_of).
  assert ((k, node) ∈ l ++ [(k, node)]) as Hkn by (apply elem_of_app; right; by left).
  destruct (He slot _ k node Hl Hkn) as [_ [n Hnode]].
  unfold wp, evict_last. rewrite Hsh, Hi. assert (sh_nodes s !! k = Some (node, i)) as -> by (by apply Hm). rewrite Hnode.
  assert (entry_bytes (nc_heap w) (k, node) = node_byte_size sizeof_node n) as Eb by (unfold entry_bytes; simpl; by rewrite Hnode).
  split_and!; [done| |done]. apply (holds_put w ls slot _ (l ++ [(k, node)])); [done|done| | |].
  - replace l with (drop_key k (l ++ [(k, node)])) by (by apply drop_key_last). by apply shard_holds_erase.
  - intros k' x Hx. apply (He slot (l ++ [(k, node)])); [done|]. apply elem_of_app. by left.
  - rewrite list_bytes_app. simpl. rewrite Eb. f_equal. lia.
Qed.

Lemma shard_is_empty_spec slot ls l w : cache_holds w ls -> ls !! slot = Some l ->
  wp (shard_is_empty slot) (fun e w' => e = bool_decide (l = []) /\ w' = w) w.
Proof.
  intros Hw Hl. assert (slot < num_slots)%nat as Hs by (rewrite <- (ch_len _ _ Hw); by eapply lookup_lt_Some).
  destruct (holds_slot w ls slot Hw Hs) as (s & l0 & Hsh & Hl0 & Hh). rewrite Hl in Hl0. injection Hl0 as <-.
  unfold wp, shard_is_empty. rewrite Hsh. split; [|done]. apply bool_decide_ext. split.
  - intros E. destruct l as [|[k node] l]; [done|]. pose proof (shard_lookup s _ k Hh) as Hk. rewrite E, lookup_empty in Hk.
    destruct Hk. left.
  - intros ->. apply map_empty. intros k. pose proof (shard_lookup s [] k Hh) as Hk.
    destruct (sh_nodes s !! k) as [[node i]|]; [|done]. by destruct Hk as [?%not_elem_of_nil _].
Qed.

Lemma kept_entries_snoc f left l e :
  kept_entries f left (l ++ [e]) = if left <=? 0 then l ++ [e] else kept_entries f (left - f e) l.
Proof.
  unfold kept_entries. rewrite reverse_snoc. simpl. destruct (left <=? 0); [|done]. by rewrite reverse_cons, reverse_involutive.
Qed.

Lemma list_insert_alter {A} (f : A -> A) i (l : list A) x : l !! i = Some x -> <[i := f x]> l = alter f i l.
Proof.
  intros Hx. apply list_eq. intros j. destruct (decide (i = j)) as [->|Hne].
  - rewrite list_lookup_insert_eq by (by eapply lookup_lt_Some). by rewrite list_lookup_alter_eq, Hx.
  - by rewrite list_lookup_insert_ne, list_lookup_alter_ne.
Qed.

Lemma kept_length f left l : (length (kept_entries f left l) <= length l)%nat.
Proof.
  revert left. induction l as [|e l IH] using rev_ind; intros left; [done|]. rewrite kept_entries_snoc.
  destruct (left <=? 0); [done|]. rewrite length_app. specialize (IH (left - f e)). lia.
Qed.

Lemma evict_shard_spec slot l : forall fuel left ls w, cache_holds w ls -> ls !! slot = Some l -> (length l < fuel)%nat ->
  wp (evict_shard sizeof_node fuel slot left) (fun _ w' =>
    cache_holds w' (<[slot := kept_entries (entry_bytes (nc_heap w)) left l]> ls) /\ rest w' = rest w) w.
Proof.
  induction l as [|[k node] l IH] using rev_ind; intros [|fuel] left ls w Hw Hl Hf; try lia; cbn [evict_shard].
  - assert (<[slot := kept_entries (entry_bytes (nc_heap w)) left []]> ls = ls) as E by (by apply list_insert_id).
    destruct (left <=? 0); [apply wp_ret; by rewrite E|].
    apply wp_bind. eapply wp_conseq; [by apply (shard_is_empty_spec slot ls [])|]. intros b ? [-> ->].
    rewrite bool_decide_eq_true_2 by done. apply wp_ret. by rewrite E.
  - rewrite kept_entries_snoc. destruct (left <=? 0); [apply wp_ret; by rewrite list_insert_id|].
    apply wp_bind. eapply wp_conseq; [by eapply (shard_is_empty_spec slot ls)|]. intros b ? [-> ->].
    rewrite bool_decide_eq_false_2 by (intros E; apply (f_equal length) in E; rewrite length_app in E; simpl in E; lia).
    apply wp_bind. eapply wp_conseq; [by eapply (evict_last_spec slot ls)|]. intros b w' (-> & Hw' & Hr).
    assert (nc_heap w' = nc_heap w) as Hh by (by injection Hr).
    rewrite length_app in Hf. simpl in Hf.
    eapply wp_conseq; [apply (IH fuel _ _ w' Hw'); [|lia]|].
    { apply list_lookup_insert_eq. by eapply lookup_lt_Some. }
    intros [] w2 [Hw2 Hr2]. rewrite list_insert_insert_eq, Hh in Hw2. split; [done|congruence].
Qed.

Lemma evict_shards_spec fuel slots left : forall ls w, cache_holds w ls -> Forall (fun slot => slot < num_slots)%nat slots ->
  (forall l, l ∈ ls -> length l < fuel)%nat ->
  wp (evict_shards sizeof_node fuel slots left) (fun _ w' =>
    cache_holds w' (on_slots (kept_entries (entry_bytes (nc_heap w)) left) slots ls) /\ rest w' = rest w) w.
Proof.
  induction slots as [|slot slots IH]; intros ls w Hw Hs Hf; cbn [evict_shards on_slots]; [by apply wp_ret|].
  apply Forall_cons in Hs as [Hslot Hs]. destruct (holds_slot w ls slot Hw Hslot) as (s & l & _ & Hl & _).
  apply wp_bind. eapply wp_conseq; [apply (evict_shard_spec slot l); [done..|]|].
  { apply Hf. by eapply list_elem_of_lookup_2. }
  intros [] w1 [Hw1 Hr1]. assert (nc_heap w1 = nc_heap w) as Hh by (by injection Hr1).
  rewrite (list_insert_alter _ slot ls l Hl) in Hw1.
  eapply wp_conseq; [apply (IH _ w1 Hw1 Hs)|].
  - intros l' Hl'. rewrite <- (list_insert_alter _ slot ls l Hl) in Hl'.
    apply list_elem_of_lookup in Hl' as [j [(-> & <- & _)|[_ Hj]]%list_lookup_insert_Some].
    + eapply Nat.le_lt_trans; [|apply Hf; by eapply list_elem_of_lookup_2]. apply kept_length.
    + apply Hf. by eapply list_elem_of_lookup_2.
  - intros [] w2 [Hw2 Hr2]. rewrite Hh in Hw2. split; [done|congruence].
Qed.

(** ** The operations keep the invariant *)

Lemma holds_frame w w' ls : cache_holds w ls -> nc_shards w' = nc_shards w -> nc_used_bytes w' = nc_used_bytes w ->
  (forall slot l k node, ls !! slot = Some l -> (k, node) ∈ l -> is_Some (nc_heap w' !! node) /\
     entry_bytes (nc_heap w') (k, node) = entry_bytes (nc_heap w) (k, node)) -> cache_holds w' ls.
Proof.
  intros [Hlen Hsh He Hu] Es Eu Hb. split; [done|by rewrite Es| |].
  - intros slot l k node Hl Hin. split; [by eapply He|by eapply Hb].
  - rewrite Eu, Hu. f_equal. clear Hlen Hsh He Hu.
    assert (forall l k node, l ∈ ls -> (k, node) ∈ l -> entry_bytes (nc_heap w') (k, node) = entry_bytes (nc_heap w) (k, node)) as Hb'.
    { intros l k node [slot Hl]%list_elem_of_lookup Hin. by eapply Hb. }
    clear Hb. induction ls as [|l ls IH]; simpl; [done|]. rewrite IH by (intros l' k node Hl'; apply (Hb' l'); by right). f_equal.
    clear IH. assert (forall k node, (k, node) ∈ l -> entry_bytes (nc_heap w') (k, node) = entry_bytes (nc_heap w) (k, node)) as Hl.
    { intros k node. apply Hb'. left. }
    clear Hb'. induction l as [|[k node] l IH]; simpl; [done|]. rewrite IH by (intros k' x Hx; apply Hl; by right).
    f_equal. rewrite Hl; [done|left].
Qed.

(** A change elsewhere that lets every node live and keep its size. *)
Definition nodes_kept (w w' : NodeCache L) : Prop :=
  nc_shards w' = nc_shards w /\ nc_used_bytes w' = nc_used_bytes w /\
  forall x n, nc_heap w !! x = Some n -> exists n', nc_heap w' !! x = Some n' /\ node_byte_size sizeof_node n' = node_byte_size sizeof_node n.

Lemma nodes_kept_holds w w' ls : nodes_kept w w' -> cache_holds w ls -> cache_holds w' ls.
Proof.
  intros (Es & Eu & Hn) Hw. apply (holds_frame w); [done..|]. intros slot l k node Hl Hin.
  destruct (ch_entries _ _ Hw slot l k node Hl Hin) as [_ [n Hx]]. destruct (Hn _ _ Hx) as (n' & Hn' & Hb).
  split; [by eexists|]. unfold entry_bytes. simpl. by rewrite Hn', Hx.
Qed.

Lemma nodes_kept_inv w w' : nodes_kept w w' -> holding cache_inv w w'.
Proof. intros Hk [ls Hw]. exists ls. by eapply nodes_kept_holds. Qed.

#[local] Hint Extern 1 (respects (holding cache_inv) (modify _)) =>
  apply respects_modify; intros ?; apply nodes_kept_inv; repeat split; eauto : respects.
#[local] Hint Extern 1 (respects (holding cache_inv) (zoom _ _ _)) =>
  apply respects_zoom_any; intros ??; apply nodes_kept_inv; repeat split; eauto : respects.

Lemma stable_shard_find key : respects (holding cache_inv) (shard_find std_hash key).
Proof.
  intros w o w' H. unfold shard_find in H. apply bind_Ok in H as (s & w1 & Hg & H).
  unfold get_shard in Hg. destruct (nc_shards w !! _) as [s0|] eqn:Es; [|done]. injection Hg as <- <-.
  destruct (sh_nodes s0 !! key) as [[node i]|] eqn:Ek; [|by injection H as _ <-].
  unfold put_shard in H. apply bind_modify_Ok in H. injection H as _ <-. intros [ls Hw].
  destruct (holds_slot w ls _ Hw (slot_bound key)) as (s & l & Hs & Hl & Hh). rewrite Es in Hs. injection Hs as <-.
  pose proof (shard_lookup _ _ key Hh) as Hk. rewrite Ek in Hk. destruct Hk as [Hin _].
  eexists. pose proof (holds_put w ls _ _ l ((key, node) :: drop_key key l) (nc_used_bytes w) Hw Hl (shard_holds_touch _ _ _ _ _ Hh Ek)) as Hp.
  apply Hp.
  - intros k x [[= -> ->]|[_ Hx]%list_elem_of_filter]%elem_of_cons; by eapply (ch_entries _ _ Hw).
  - unfold list_bytes at 2. cbn [foldr]. fold (list_bytes (nc_heap w) (drop_key key l)).
    rewrite (list_bytes_drop_key _ l key node); [|apply Hh|done]. unfold u64. rewrite (ch_used _ _ Hw). unfold u64.
    match goal with |- ?a mod ?m = ?b mod ?m => replace b with (a mod m) by lia end. by rewrite Zmod_mod.
Qed.

(** A new entry needs a key that is not in its shard: [assert(res.second)]. *)
Lemma stable_shard_add key node : respects (holding cache_inv) (shard_add std_hash sizeof_node key node).
Proof.
  intros w o w' H. unfold shard_add in H. apply bind_Ok in H as (s & w1 & Hg & H).
  unfold get_shard in Hg. destruct (nc_shards w !! _) as [s0|] eqn:Es; [|done]. injection Hg as <- <-.
  apply bind_assert_Ok in H as [Ek%bool_decide_eq_true H]. apply bind_modify_Ok, bind_Ok in H as (b & w1 & Hb & H).
  unfold byte_size in Hb. simpl in Hb. destruct (nc_heap w !! node) as [n|] eqn:En; [|done]. injection Hb as <- <-.
  injection H as _ <-. intros [ls Hw].
  destruct (holds_slot w ls _ Hw (slot_bound key)) as (s & l & Hs & Hl & Hh). rewrite Es in Hs. injection Hs as <-.
  pose proof (shard_lookup _ _ key Hh) as Hk. rewrite Ek in Hk.
  eexists. eapply (holds_put w ls _ _ l ((key, node) :: l)); [done|done|by apply shard_holds_push| |].
  - intros k x [[= -> ->]|Hx]%elem_of_cons; [|by eapply (ch_entries _ _ Hw)]. split; [done|by eexists].
  - unfold list_bytes at 2. cbn [foldr]. fold (list_bytes (nc_heap w) l). unfold entry_bytes. cbn [snd]. rewrite En. cbn [nc_used_bytes with_shards]. f_equal. lia.
Qed.

Lemma stable_alloc n : respects (holding cache_inv) (nc_alloc n).
Proof.
  intros w x w' [= <- <-]. apply nodes_kept_inv. split_and!; [done..|]. intros y m Hy. exists m. split; [|done].
  simpl. rewrite lookup_insert_ne; [done|]. intros <-. assert (fresh (dom (nc_heap w)) ∉ dom (nc_heap w)) as Hf by apply is_fresh.
  apply Hf, elem_of_dom. by eexists.
Qed.

Lemma stable_set_read_only x : respects (holding cache_inv) (nc_set_read_only x).
Proof.
  intros w o w'. unfold nc_set_read_only. destruct (nc_heap w !! x) as [n|] eqn:En; [|done]. destruct (read_only_ n); [done|].
  intros [= _ <-]. apply nodes_kept_inv. split_and!; [done..|]. intros y m Hy. simpl.
  destruct (decide (x = y)) as [->|]; [|rewrite lookup_insert_ne by done; by exists m].
  rewrite lookup_insert_eq. rewrite En in Hy. injection Hy as ->. by eexists.
Qed.

Lemma stable_UpdateLRU tr : respects (holding cache_inv) (UpdateLRU tr).
Proof. unfold UpdateLRU. apply respects_modify. intros w. apply nodes_kept_inv. destruct tr; repeat split; eauto. Qed.

Lemma stable_evict_last slot : respects (holding cache_inv) (evict_last sizeof_node slot).
Proof.
  intros w b w' H [ls Hw]. unfold evict_last in H. destruct (nc_shards w !! slot) as [s|] eqn:Es; [|done].
  destruct (sl_back (sh_lru s)) as [[i k]|] eqn:Eb; [|done].
  pose proof (ch_shards _ _ Hw) as Hsh. destruct (Forall2_lookup_l _ _ _ _ _ Hsh Es) as (l & Hl & Hh).
  destruct l as [|[k' node] l _] using rev_ind.
  { destruct Hh as (_ & Hk & _). unfold sl_back in Eb. unfold sl_keys in Hk. simpl in Hk. apply fmap_nil_inv in Hk. by rewrite Hk in Eb. }
  pose proof (evict_last_spec slot ls l k' node w Hw Hl) as Hs. unfold wp, evict_last in Hs. rewrite Es, Eb in Hs.
  rewrite H in Hs. destruct Hs as (_ & Hs & _). by eexists.
Qed.


#[export] Instance cache_inv_relation : CacheRelation std_hash sizeof_node (holding cache_inv).
Proof.
  split; [apply _|apply stable_shard_find|apply stable_shard_add|apply stable_alloc|apply stable_set_read_only
    |apply stable_evict_last|apply stable_UpdateLRU| |intros i; apply respects_zoom_any; intros w m];
    intros; apply nodes_kept_inv; repeat split; eauto.
Qed.

Context (cache_size : Z) (scan_fuel : nat).

(** ** Runs of the cache *)

(** Calls of its clients, rounds of the vacuum, and what happens to the heap and
    the log meanwhile. *)
Inductive cache_step : NodeCache L -> NodeCache L -> Prop :=
| step_fetch a tr x tr' w w' : fetch std_hash sizeof_node scan_fuel a (w, tr) = Ok (x, (w', tr')) -> cache_step w w'
| step_cache i pos q w w' : CacheAfterImage std_hash sizeof_node i pos w = Ok (q, w') -> cache_step w w'
| step_apply delta pos q w w' : ApplyAfterImageDelta std_hash sizeof_node delta pos w = Ok (q, w') -> cache_step w w'
| step_update tr w w' : UpdateLRU tr w = Ok (tt, w') -> cache_step w w'
| step_lookup i o w w' : IntentionToAfterImage i w = Ok (o, w') -> cache_step w w'
| step_mapping i p w w' : SetIntentionMapping i p w = Ok (tt, w') -> cache_step w w'
| step_find a p w w' : findAfterImagePosition scan_fuel a w = Ok (p, w') -> cache_step w w'
| step_vaccum fuel b w w' : do_vaccum_ std_hash sizeof_node cache_size fuel w = Ok (b, w') -> cache_step w w'
| step_heap h w : nodes_kept w (with_heap h w) -> cache_step w (with_heap h w)
| step_log l w : cache_step w (with_src l w).

Inductive cache_clear : NodeCache L -> NodeCache L -> Prop :=
| step_clear fuel w w' : Clear sizeof_node fuel w = Ok (tt, w') -> cache_clear w w'.

Lemma cache_step_respects (R : NodeCache L -> NodeCache L -> Prop) `{!CacheRelation std_hash sizeof_node R} :
  (forall h w, nodes_kept w (with_heap h w) -> R w (with_heap h w)) -> (forall m w, R w (with_imap m w)) ->
  forall w w', cache_step w w' -> R w w'.
Proof.
  intros Hh Hm w w' [a tr x tr' w0 w0' H|i pos q w0 w0' H|delta pos q w0 w0' H|tr w0 w0' H|i o w0 w0' H|i p w0 w0' H|a p w0 w0' H|fuel b w0 w0' H|h w0 H|l w0].
  - by apply (cache_respects_fetch std_hash sizeof_node scan_fuel R) in H.
  - by apply (cache_respects_CacheAfterImage std_hash sizeof_node R) in H.
  - by apply (cache_respects_ApplyAfterImageDelta std_hash sizeof_node R) in H.
  - by apply (cr_update std_hash sizeof_node) in H.
  - by apply (cr_lookup std_hash sizeof_node) in H.
  - by apply (respects_zoom_any R) in H.
  - by apply (cache_respects_find std_hash sizeof_node scan_fuel R) in H.
  - by apply (cache_respects_vaccum std_hash sizeof_node cache_size R) in H.
  - by apply Hh.
  - by apply (cr_src std_hash sizeof_node).
Qed.

Lemma stable_Clear fuel : respects (holding cache_inv) (Clear sizeof_node fuel).
Proof.
  unfold Clear. apply respects_bind; [apply _| |intros _; apply (cache_respects_clear_shards std_hash sizeof_node (holding cache_inv))].
  apply respects_modify. intros w. apply nodes_kept_inv. repeat split; eauto.
Qed.

(** C31: whatever its clients, the vacuum, the log and the trees on its heap do,
    the map and the recency list of each shard of the node cache hold the same
    entries, each key once, in the slot of its hash, with a live node; and
    [used_bytes_] is the sum of the sizes of the cached nodes. *)
Theorem node_cache_invariant imap src w : rtc (fun w w' => cache_step w w' \/ cache_clear w w') (new_node_cache imap src) w ->
  exists ls, cache_holds w ls.
Proof.
  intros Hr. assert (cache_inv (new_node_cache imap src)) as Hi by (eexists; apply new_node_cache_inv). revert Hi.
  induction Hr as [w|w w1 w2 [Hs|[fuel w0 w0' Hs]] _ IH]; [done|..]; intros Hi; apply IH.
  - revert Hi. apply (cache_step_respects (holding cache_inv)); [|intros m w0; apply nodes_kept_inv; repeat split; eauto|done]. intros h w0. apply nodes_kept_inv.
  - by eapply stable_Clear.
Qed.

(** ** A round of the vacuum, and [Clear] *)

(** What goes is the end of the list, as much of it as is needed. *)
Lemma kept_entries_split h l : forall left, exists dropped, l = kept_entries (entry_bytes h) left l ++ dropped /\
  (kept_entries (entry_bytes h) left l = [] \/ left <= list_bytes h dropped) /\
  (dropped = [] \/ exists e newer, dropped = e :: newer /\ list_bytes h newer < left).
Proof.
  induction l as [|e l IH] using rev_ind; intros left.
  { exists []. split_and!; [done|by left|by left]. }
  rewrite kept_entries_snoc. destruct (Z.leb_spec left 0) as [Hl|Hl].
  { exists []. rewrite app_nil_r. split_and!; [done|by right|by left]. }
  destruct (IH (left - entry_bytes h e)) as (d & E & H1 & H2). exists (d ++ [e]). split_and!.
  - by rewrite app_assoc, <- E.
  - destruct H1 as [H1|H1]; [by left|right]. rewrite list_bytes_app. simpl. lia.
  - right. destruct H2 as [->|(e' & newer & -> & Hn)]; [by exists e, []|].
    exists e', (newer ++ [e]). split; [done|]. rewrite list_bytes_app. simpl. lia.
Qed.

(** C32: a round of the vacuum returns.  If the cache holds more than
    [cache_size_] bytes it drops, from each shard, the least recently used
    entries: just as many as free the shard's share of the excess, or all of
    them; and [used_bytes_] is again the sum of the sizes of what stays.
    Otherwise it drops nothing. *)
Theorem vacuum_drops_oldest fuel w ls : cache_holds w ls -> nc_stop w = false -> (forall l, l ∈ ls -> length l < fuel)%nat ->
  let target := u64 (nc_used_bytes w - cache_size) / Z.of_nat num_slots in
  wp (do_vaccum_ std_hash sizeof_node cache_size fuel) (fun b w' => b = true /\ rest w' = rest w /\ exists ls', cache_holds w' ls' /\
    if cache_size <? nc_used_bytes w then forall slot l, ls !! slot = Some l -> exists kept dropped,
      ls' !! slot = Some kept /\ l = kept ++ dropped /\
      (kept = [] \/ target <= list_bytes (nc_heap w) dropped) /\
      (dropped = [] \/ exists oldest newer, dropped = oldest :: newer /\ list_bytes (nc_heap w) newer < target)
    else ls' = ls) w.
Proof.
  intros Hw Hs Hf target. unfold do_vaccum_. apply wp_bind, wp_get. rewrite Hs. apply wp_bind, wp_ret, wp_bind, wp_get.
  destruct (cache_size <? nc_used_bytes w); [|by apply wp_bind, wp_ret, wp_ret; split_and!; [..|by exists ls]].
  apply wp_bind. eapply wp_conseq; [apply (evict_shards_spec fuel (seq 0 num_slots) target ls w Hw); [|done]|].
  { apply Forall_forall. intros x Hx%elem_of_seq. lia. }
  intros [] w' [Hw' Hr]. apply wp_ret. split_and!; [done..|]. eexists. split; [done|].
  rewrite on_all_slots by apply Hw. intros slot l Hl. rewrite list_lookup_fmap, Hl. simpl.
  destruct (kept_entries_split (nc_heap w) l target) as (d & Hd). eexists _, d. split; [done|]. exact Hd.
Qed.

Lemma clear_shard_spec slot l : forall fuel ls w, cache_holds w ls -> ls !! slot = Some l -> (length l < fuel)%nat ->
  wp (clear_shard sizeof_node fuel slot) (fun _ w' => cache_holds w' (<[slot := []]> ls) /\ rest w' = rest w) w.
Proof.
  induction l as [|[k node] l IH] using rev_ind; intros [|fuel] ls w Hw Hl Hf; try lia; cbn [clear_shard].
  - apply wp_bind. eapply wp_conseq; [by apply (shard_is_empty_spec slot ls [])|]. intros b ? [-> ->].
    rewrite bool_decide_eq_true_2 by done. apply wp_ret. by rewrite list_insert_id.
  - apply wp_bind. eapply wp_conseq; [by eapply (shard_is_empty_spec slot ls)|]. intros b ? [-> ->].
    rewrite bool_decide_eq_false_2 by (intros E; apply (f_equal length) in E; rewrite length_app in E; simpl in E; lia).
    apply wp_bind. eapply wp_conseq; [by eapply (evict_last_spec slot ls)|]. intros b w' (-> & Hw' & Hr).
    rewrite length_app in Hf. simpl in Hf. eapply wp_conseq; [apply (IH fuel _ w' Hw'); [|lia]|].
    { apply list_lookup_insert_eq. by eapply lookup_lt_Some. }
    intros [] w2 [Hw2 Hr2]. rewrite list_insert_insert_eq in Hw2. split; [done|congruence].
Qed.

Lemma clear_shards_spec fuel slots : forall ls w, cache_holds w ls -> Forall (fun slot => slot < num_slots)%nat slots ->
  (forall l, l ∈ ls -> length l < fuel)%nat ->
  wp (clear_shards sizeof_node fuel slots) (fun _ w' => cache_holds w' (on_slots (fun _ => []) slots ls) /\ rest w' = rest w) w.
Proof.
  induction slots as [|slot slots IH]; intros ls w Hw Hs Hf; cbn [clear_shards on_slots]; [by apply wp_ret|].
  apply Forall_cons in Hs as [Hslot Hs]. destruct (holds_slot w ls slot Hw Hslot) as (s & l & _ & Hl & _).
  assert (length l < fuel)%nat as Hlf by (apply Hf; by eapply list_elem_of_lookup_2).
  apply wp_bind. eapply wp_conseq; [by apply (clear_shard_spec slot l)|].
  intros [] w1 [Hw1 Hr1]. rewrite (list_insert_alter (fun _ => []) slot ls l Hl) in Hw1.
  eapply wp_conseq; [apply (IH _ w1 Hw1 Hs)|intros [] w2 [Hw2 Hr2]; split; [done|congruence]].
  intros l' Hl'. rewrite <- (list_insert_alter _ slot ls l Hl) in Hl'.
  apply list_elem_of_lookup in Hl' as [j [(-> & <- & _)|[_ Hj]]%list_lookup_insert_Some]; [simpl; lia|].
  apply Hf. by eapply list_elem_of_lookup_2.
Qed.

(** C33: [Clear] terminates, after as many rounds as the shards have entries, and
    leaves the cache empty: no entry, no byte used, no trace, no index. *)
Theorem clear_empties fuel w ls : cache_holds w ls -> (forall l, l ∈ ls -> length l < fuel)%nat ->
  wp (Clear sizeof_node fuel) (fun _ w' => cache_holds w' (replicate num_slots []) /\ nc_used_bytes w' = 0 /\
    nc_traces w' = [] /\ m_map (nc_imap w') = ∅ /\ nc_heap w' = nc_heap w /\ nc_src w' = nc_src w) w.
Proof.
  intros Hw Hf. unfold Clear. apply wp_bind, wp_modify. set (w1 := with_traces [] (with_imap (lru_clear (nc_imap w)) w)).
  assert (cache_holds w1 ls) as Hw1 by (by apply (nodes_kept_holds w); [repeat split; eauto|]).
  eapply wp_conseq; [apply (clear_shards_spec fuel (seq 0 num_slots) ls w1 Hw1); [|done]|].
  { apply Forall_forall. intros x Hx%elem_of_seq. lia. }
  intros [] w' [Hw' Hr]. rewrite on_all_slots in Hw' by apply Hw. injection Hr as Eh Et Ei _ Es.
  assert ((fun _ : list (cache_key * loc) => @nil (cache_key * loc)) <$> ls = replicate num_slots []) as E.
  { rewrite <- (ch_len _ _ Hw). clear. induction ls as [|l ls IH]; [done|]. simpl. by f_equal. }
  rewrite E in Hw'. split_and!; [done|by rewrite (ch_used _ _ Hw')|by rewrite Et|by rewrite Ei|by rewrite Eh|by rewrite Es].
Qed.

(** ** The traces *)

Definition traces_kept (w w' : NodeCache L) : Prop := exists newer, nc_traces w' = newer ++ nc_traces w.

(** A relation that the pieces of the state these operations write do not matter to. *)
Lemma cache_relation_frame (R : NodeCache L -> NodeCache L -> Prop) `{!PreOrder R} :
  (forall s w, R w (with_shards s w)) -> (forall u w, R w (with_used u w)) -> (forall h w, R w (with_heap h w)) ->
  (forall l w, R w (with_src l w)) -> (forall tr, respects R (UpdateLRU tr)) -> (forall i, respects R (IntentionToAfterImage i)) ->
  CacheRelation std_hash sizeof_node R.
Proof.
  intros Hsh Hused Hheap Hsrc Htr Himap. split; try done.
  - intros key w o w' H. unfold shard_find in H. apply bind_Ok in H as (s & w1 & Hg & H).
    unfold get_shard in Hg. destruct (nc_shards w !! _) as [s0|]; [|done]. injection Hg as <- <-.
    destruct (sh_nodes s0 !! key) as [[node i]|]; [|by injection H as _ <-].
    unfold put_shard in H. apply bind_modify_Ok in H. by injection H as _ <-.
  - intros key node w o w' H. unfold shard_add in H. apply bind_Ok in H as (s & w1 & Hg & H).
    unfold get_shard in Hg. destruct (nc_shards w !! _) as [s0|]; [|done]. injection Hg as <- <-.
    apply bind_assert_Ok in H as [_ H]. apply bind_modify_Ok, bind_Ok in H as (b & w1 & Hb & H).
    unfold byte_size in Hb. simpl in Hb. destruct (nc_heap w !! node); [|done]. injection Hb as _ <-. injection H as _ <-.
    etransitivity; [apply Hsh|apply Hused].
  - intros n w x w' [= _ <-]. apply Hheap.
  - intros x w o w'. unfold nc_set_read_only. destruct (nc_heap w !! x) as [n|]; [|done]. destruct (read_only_ n); [done|].
    intros [= _ <-]. apply Hheap.
  - intros slot w b w'. unfold evict_last. destruct (nc_shards w !! slot); [|done]. destruct (sl_back _) as [[i k]|]; [|done].
    destruct (sh_nodes _ !! k) as [[node j]|]; [|done]. destruct (nc_heap w !! node); [|done]. intros [= _ <-].
    etransitivity; [apply Hsh|apply Hused].
Qed.

#[export] Instance traces_kept_preorder : PreOrder traces_kept.
Proof. split; [by intros w; exists []|]. intros w1 w2 w3 [n1 E1] [n2 E2]. exists (n2 ++ n1). by rewrite E2, E1, app_assoc. Qed.

#[export] Instance traces_kept_relation : CacheRelation std_hash sizeof_node traces_kept.
Proof.
  assert (forall w w', nc_traces w' = nc_traces w -> traces_kept w w') as Hsame by (intros w w' E; by exists []).
  apply cache_relation_frame; [apply _|intros; by apply Hsame..| |].
  - intros tr. apply respects_modify. intros w. destruct tr as [|a tr]; [by apply Hsame|]. by exists [a :: tr].
  - intros i. apply respects_zoom_any. intros. by apply Hsame.
Qed.

(** The index keeps its capacity. *)
#[export] Instance capacity_relation : CacheRelation std_hash sizeof_node (same (fun w : NodeCache L => m_capacity (nc_imap w))).
Proof.
  apply cache_relation_frame; [apply _|done..| |].
  - intros tr. apply respects_modify. by intros w; destruct tr.
  - intros i. apply (respects_zoom _ (same m_capacity)); [|done]. intros c o c'. unfold lru_get. intros H%bind_get_Ok.
    destruct (m_map c !! i) as [[v j]|]; [|by injection H as _ <-]. destruct (decide _); [by injection H as _ <-|].
    destruct (sl_push_front _ _). apply bind_modify_Ok in H. by injection H as _ <-.
Qed.

(** A computation that does not look at the traces. *)
Definition blind {A} (m : NCM (L := L) A) : Prop := forall ts w, m (with_traces ts w) =
  match m w with Ok (a, w') => Ok (a, with_traces ts w') | AssertFail => AssertFail | OutOfFuel => OutOfFuel end.

Lemma blind_ret {A} (a : A) : blind (mret a).
Proof. done. Qed.

Lemma blind_bind {A B} (m : NCM (L := L) A) (f : A -> NCM (L := L) B) : blind m -> (forall a, blind (f a)) -> blind (m ≫= f).
Proof. intros Hm Hf ts w. unfold mbind, M_bind. rewrite Hm. destruct (m w) as [[a w']| |]; [apply Hf|done..]. Qed.

Lemma blind_is_empty slot : blind (shard_is_empty slot).
Proof. intros ts w. unfold shard_is_empty. simpl. by destruct (nc_shards w !! slot). Qed.

Lemma blind_evict_last slot : blind (evict_last sizeof_node slot).
Proof.
  intros ts w. unfold evict_last. simpl. destruct (nc_shards w !! slot) as [s|]; [|done].
  destruct (sl_back (sh_lru s)) as [[i k]|]; [|done]. destruct (sh_nodes s !! k) as [[node j]|]; [|done].
  by destruct (nc_heap w !! node).
Qed.

Lemma blind_evict_shard fuel slot : forall left, blind (evict_shard sizeof_node fuel slot left).
Proof.
  induction fuel as [|fuel IH]; intros left; simpl; [done|]. destruct (left <=? 0); [apply blind_ret|].
  apply blind_bind; [apply blind_is_empty|]. intros []; [apply blind_ret|]. apply blind_bind; [apply blind_evict_last|done].
Qed.

Lemma blind_evict_shards fuel slots left : blind (evict_shards sizeof_node fuel slots left).
Proof. induction slots as [|slot slots IH]; simpl; [apply blind_ret|]. apply blind_bind; [apply blind_evict_shard|done]. Qed.

Lemma blind_get_bind {B} (f : NodeCache L -> NCM (L := L) B) : (forall ts w, f (with_traces ts w) = f w) ->
  (forall w, blind (f w)) -> blind (get ≫= f).
Proof. intros Hf Hb ts w. change (f (with_traces ts w) (with_traces ts w) = match f w w with Ok (a, w') => Ok (a, with_traces ts w') | AssertFail => AssertFail | OutOfFuel => OutOfFuel end). rewrite Hf. apply Hb. Qed.

Lemma blind_vaccum fuel : blind (do_vaccum_ std_hash sizeof_node cache_size fuel).
Proof.
  apply blind_get_bind; [done|]. intros w. destruct (nc_stop w); [apply blind_ret|]. apply blind_bind; [apply blind_ret|].
  intros _. apply blind_get_bind; [done|]. intros w'. apply blind_bind; [|intros _; apply blind_ret].
  destruct (cache_size <? nc_used_bytes w'); [apply blind_evict_shards|apply blind_ret].
Qed.

(** C34: the vacuum never takes a trace ([traces_.swap(traces_)]): once a
    transaction or a reader has left one, it stays in [traces_] whatever the
    cache does short of [Clear], the condition the vacuum waits for holds from
    then on, and what a round does is the same with any other traces: the
    recency order never sees them. *)
Theorem vacuum_never_settles a tr w w1 w2 : UpdateLRU (a :: tr) w = Ok (tt, w1) -> rtc cache_step w1 w2 ->
  (a :: tr) ∈ nc_traces w2 /\ vaccum_ready cache_size w2 = Ok (true, w2) /\
  forall fuel traces, do_vaccum_ std_hash sizeof_node cache_size fuel (with_traces traces w2) =
    match do_vaccum_ std_hash sizeof_node cache_size fuel w2 with
    | Ok (b, w') => Ok (b, with_traces traces w')
    | AssertFail => AssertFail
    | OutOfFuel => OutOfFuel
    end.
Proof.
  intros [= <-] Hr. assert ((a :: tr) ∈ nc_traces w2) as Hin.
  { set (w1 := with_traces ((a :: tr) :: nc_traces w) w) in *.
    assert ((a :: tr) ∈ nc_traces w1) as H1 by left. revert Hr H1. generalize w1. clear. induction 1 as [w|w w1 w2 Hs _ IH]; [done|].
    intros Hin. apply IH. destruct (cache_step_respects traces_kept (fun h w _ => ex_intro _ [] eq_refl) (fun m w => ex_intro _ [] eq_refl) w w1 Hs) as [n ->].
    apply elem_of_app. by right. }
  split_and!; [done| |intros; apply blind_vaccum]. unfold vaccum_ready, mbind, M_bind, get, mret, M_ret.
  rewrite bool_decide_eq_false_2; [done|]. intros E. rewrite E in Hin. by apply not_elem_of_nil in Hin.
Qed.
End vacuum.

(** ** A run *)

(** The entries of the shards, read off the state. *)
Definition held {L} (w : NodeCache L) : list (list (cache_key * loc)) :=
  (fun s => (fun x => (x.2, default Nil (fst <$> sh_nodes s !! x.2))) <$> sl_nodes (sh_lru s)) <$> nc_shards w.

Lemma shard_holds_held s l : shard_holds s l -> (fun x => (x.2, default Nil (fst <$> sh_nodes s !! x.2))) <$> sl_nodes (sh_lru s) = l.
Proof.
  intros (Hok & Hk & Hn & Hm). assert (forall k node, (k, node) ∈ l -> fst <$> sh_nodes s !! k = Some node) as Hl.
  { intros k node Hin. assert (k ∈ sl_keys (sh_lru s)) as [i Hi]%keys_entry.
    { rewrite Hk. apply list_elem_of_fmap. by exists (k, node). }
    assert (sh_nodes s !! k = Some (node, i)) as -> by (by apply Hm). done. }
  unfold sl_keys in Hk. clear Hok Hn Hm. revert Hk Hl. generalize (sl_nodes (sh_lru s)). intros ns.
  revert l. induction ns as [|[i k] ns IH]; intros [|[k' node] l] Hk Hl; try done. injection Hk as -> Hk.
  rewrite fmap_cons. simpl. rewrite (Hl k' node) by left. simpl. f_equal. apply IH; [done|]. intros ??. 
  intros Hin. apply Hl. by right.
Qed.

Lemma cache_holds_held {L} std_hash sizeof_node (w : NodeCache L) ls : cache_holds std_hash sizeof_node w ls -> ls = held w.
Proof.
  intros [_ Hs _ _]. unfold held. induction Hs as [|s l ss ls Hs _ IH]; [done|]. rewrite fmap_cons, <- IH. f_equal. symmetry. by apply shard_holds_held.
Qed.

#[export] Instance no_log : AfterImageSource unit := {| src_read _ := fail; src_next _ := fail |}.

Definition nil_child : ProtoNodePtr := mkProtoNodePtr true false None None None.
Definition leaves : AfterImage := mkAfterImage 1 ((fun k => mkProtoNode false k "v" nil_child nil_child) <$> ["a"; "b"; "c"; "d"; "e"; "f"; "g"; "h"; "i"; "j"])%string.

(** A cache with the nodes of one image, and a trace left by a reader. *)
Definition warm_cache : NodeCache unit :=
  match CacheAfterImage (fun z => z) 10 leaves 5 (new_node_cache 4 tt) with
  | Ok (_, w) => with_traces [[make_address 5 0 true]] w
  | _ => new_node_cache 4 tt
  end.

Abbreviation demo_cache_step := (cache_step (fun z => z) 10 20 3).

Lemma warm_run : rtc (fun w w' => demo_cache_step w w' \/ cache_clear 10 w w') (new_node_cache 4 tt) warm_cache.
Proof.
  unfold warm_cache. destruct (CacheAfterImage (fun z => z) 10 leaves 5 (new_node_cache 4 tt)) as [[q w]| |] eqn:E; [|by vm_compute in E..].
  eapply rtc_l; [left; by eapply step_cache|]. apply rtc_once. left. apply (step_update _ _ _ _ [make_address 5 0 true]).
  assert (nc_traces w = []) as Ht by (vm_compute in E; by injection E as _ <-).
  unfold UpdateLRU, modify. by rewrite Ht.
Qed.

Lemma node_cache_invariant_witness : exists ls, cache_holds (fun z => z) 10 warm_cache ls /\ length (concat ls) = 10%nat.
Proof.
  destruct (node_cache_invariant (fun z => z) 10 20 3 4 tt warm_cache warm_run) as [ls Hls]. exists ls. split; [done|].
  rewrite (cache_holds_held _ _ _ _ Hls). by vm_compute.
Defined.

Lemma warm_holds : cache_holds (fun z => z) 10 warm_cache (held warm_cache).
Proof.
  assert (cache_inv (fun z => z) 10 (new_node_cache 4 tt)) as Hi by (eexists; apply new_node_cache_inv).
  unfold warm_cache. destruct (CacheAfterImage (fun z => z) 10 leaves 5 (new_node_cache 4 tt)) as [[q w]| |] eqn:E; [|by vm_compute in E..].
  apply (cache_respects_CacheAfterImage (fun z => z) 10 (holding (cache_inv (fun z => z) 10))) in E. destruct (E Hi) as [ls Hls].
  assert (cache_holds (fun z => z) 10 (with_traces [[make_address 5 0 true]] w) ls) as Hw by (apply (nodes_kept_holds _ _ w); [repeat split; eauto|done]).
  by rewrite <- (cache_holds_held _ _ _ _ Hw).
Qed.

Lemma vacuum_drops_oldest_witness : wp (do_vaccum_ (fun z => z) 10 20 30) (fun b w' => b = true /\ exists ls',
  cache_holds (fun z => z) 10 w' ls' /\ forall slot l, held warm_cache !! slot = Some l -> exists kept dropped,
    ls' !! slot = Some kept /\ l = kept ++ dropped /\
    (kept = [] \/ 12 <= list_bytes 10 (nc_heap warm_cache) dropped) /\
    (dropped = [] \/ exists oldest newer, dropped = oldest :: newer /\ list_bytes 10 (nc_heap warm_cache) newer < 12)) warm_cache.
Proof.
  eapply wp_conseq.
  { apply (vacuum_drops_oldest (fun z => z) 10 20 30 warm_cache (held warm_cache)); [apply warm_holds|by vm_compute|].
    intros l Hl. assert (Forall (fun l => length l < 30)%nat (held warm_cache)) as Hf by (by apply (bool_decide_unpack _); vm_compute).
    rewrite Forall_forall in Hf. by apply Hf. }
  intros b w' (Hb & _ & ls' & Hls & Hd). split; [done|]. exists ls'. split; [done|].
  assert (20 <? nc_used_bytes warm_cache = true) as E by (by vm_compute). rewrite E in Hd.
  assert (u64 (nc_used_bytes warm_cache - 20) / Z.of_nat num_slots = 12) as E' by (by vm_compute). by rewrite E' in Hd.
Defined.

Lemma clear_empties_witness : wp (Clear 10 30) (fun _ w' => nc_used_bytes w' = 0 /\ nc_traces w' = []) warm_cache.
Proof.
  eapply wp_conseq.
  { apply (clear_empties (fun z => z) 10 30 warm_cache (held warm_cache)); [apply warm_holds|].
    intros l Hl. assert (Forall (fun l => length l < 30)%nat (held warm_cache)) as Hf by (by apply (bool_decide_unpack _); vm_compute).
    rewrite Forall_forall in Hf. by apply Hf. }
  intros [] w' (_ & Hu & Ht & _). by split.
Defined.

Lemma vacuum_never_settles_witness : exists w1 w2, UpdateLRU [make_address 5 1 true] warm_cache = Ok (tt, w1) /\
  do_vaccum_ (fun z => z) 10 20 30 w1 = Ok (true, w2) /\ [make_address 5 1 true] ∈ nc_traces w2 /\ vaccum_ready 20 w2 = Ok (true, w2).
Proof.
  set (w1 := with_traces ([make_address 5 1 true] :: nc_traces warm_cache) warm_cache).
  destruct (do_vaccum_ (fun z => z) 10 20 30 w1) as [[b w2]| |] eqn:E; [|by vm_compute in E..].
  assert (b = true) as -> by (vm_compute in E; by injection E).
  exists w1, w2. split; [done|]. split; [done|].
  destruct (vacuum_never_settles (fun z => z) 10 20 3 (make_address 5 1 true) [] warm_cache w1 w2 eq_refl) as (H1 & H2 & _); [|by split].
  apply rtc_once. by eapply step_vaccum.
Defined.
