(* ===== verification/Matcher.v ===== *)
(** [PrimaryAfterImageMatcher] of src/src/db/entry_service.h and
    entry_service.cc: the rendezvous of replayed intentions with the first
    after image the log holds for each. *)
From S2P Require Import Prelude Slice RBTree Node Proto PersistentTree.

Record PrimaryAfterImage : Type := mkPai {
  pai_pos : option Z;
  pai_tree : option PersistentTree;
  pai_delta : list loc;
}.

Record Matcher : Type := mkMatcher {
  shutdown_ : bool;
  matched_watermark_ : Z;
  afterimages_ : gmap Z PrimaryAfterImage;
  matched_ : list (list loc * PersistentTree);
}.

Definition new_matcher : Matcher := mkMatcher false 0 ∅ [].

Definition with_index (m : gmap Z PrimaryAfterImage) (x : Matcher) : Matcher :=
  mkMatcher (shutdown_ x) (matched_watermark_ x) m (matched_ x).
Definition with_matched (l : list (list loc * PersistentTree)) (x : Matcher) : Matcher :=
  mkMatcher (shutdown_ x) (matched_watermark_ x) (afterimages_ x) l.

Definition is_none {A} (o : option A) : bool := match o with None => true | Some _ => false end.

(** The loop of [gc]; every round but the last erases an entry. *)
Fixpoint gc_loop (fuel : nat) : M Matcher unit :=
  match fuel with
  | O => no_fuel
  | S fuel =>
    x ← get;
    match first_key (afterimages_ x) with
    | None => mret tt
    | Some ipos =>
      assert_that (matched_watermark_ x <? ipos);;
      match afterimages_ x !! ipos with
      | None => fail
      | Some pai =>
        if is_none (pai_pos pai) && is_none (pai_tree pai) then
          put (mkMatcher (shutdown_ x) ipos (delete ipos (afterimages_ x)) (matched_ x));;
          gc_loop fuel
        else mret tt
      end
    end
  end.

Definition gc : M Matcher unit := x ← get; gc_loop (S (base.size (afterimages_ x))).

Definition watch (delta : list loc) (intention : PersistentTree) : M Matcher unit :=
  ipos ← Intention_pos intention;
  x ← get;
  match afterimages_ x !! ipos with
  | None => put (with_index (<[ipos := mkPai None (Some intention) delta]> (afterimages_ x)) x)
  | Some e =>
    assert_that (negb (is_none (pai_pos e)));;
    assert_that (is_none (pai_tree e));;
    match pai_pos e with
    | None => fail
    | Some pos =>
      intention ← SetAfterImage pos intention;
      put (with_matched (matched_ x ++ [(delta, intention)])
            (with_index (<[ipos := mkPai None (pai_tree e) (pai_delta e)]> (afterimages_ x)) x))
    end
  end;;
  gc.

(** The moved-from tree and delta of the entry are left null and empty. *)
Definition push (ai_intention pos : Z) : M Matcher unit :=
  let ipos := ai_intention in
  x ← get;
  if ipos <=? matched_watermark_ x then mret tt
  else
    match afterimages_ x !! ipos with
    | None => put (with_index (<[ipos := mkPai (Some pos) None []]> (afterimages_ x)) x)
    | Some e =>
      match pai_pos e, pai_tree e with
      | None, Some tree =>
        i ← Intention_pos tree;
        assert_that (i =? ipos);;
        tree ← SetAfterImage pos tree;
        put (with_matched (matched_ x ++ [(pai_delta e, tree)])
              (with_index (<[ipos := mkPai None None []]> (afterimages_ x)) x))
      | _, _ => mret tt
      end
    end;;
    gc.

Definition match_ : M Matcher (list loc * option PersistentTree) :=
  wait_until (fun x => negb (bool_decide (length (matched_ x) = 0%nat)) || shutdown_ x);;
  x ← get;
  if shutdown_ x then mret ([], None)
  else
    match matched_ x with
    | [] => fail
    | (delta, tree) :: rest => put (with_matched rest x);; mret (delta, Some tree)
    end.

Definition shutdown : M Matcher unit :=
  modify (fun x => mkMatcher true (matched_watermark_ x) (afterimages_ x) (matched_ x)).

(** ** Specification: a rendezvous without the index, its watermark or its gc *)

Record rendezvous : Type := mkRendezvous {
  rv_watched : gmap Z (list loc * PersistentTree);
  rv_first : gmap Z Z;     (* the first position pushed for an intention *)
  rv_out : list (list loc * PersistentTree);
}.

Inductive event : Type :=
| Watch (ipos : Z) (delta : list loc) (tree : PersistentTree)
| Push (ipos pos : Z).

Definition rv_step (e : event) (s : rendezvous) : rendezvous :=
  match e with
  | Watch i d t =>
    mkRendezvous (<[i := (d, t)]> (rv_watched s)) (rv_first s)
      (rv_out s ++ match rv_first s !! i with Some p => [(d, with_afterimage (Some p) t)] | None => [] end)
  | Push i p =>
    match rv_first s !! i with
    | Some _ => s
    | None =>
      mkRendezvous (rv_watched s) (<[i := p]> (rv_first s))
        (rv_out s ++ match rv_watched s !! i with Some (d, t) => [(d, with_afterimage (Some p) t)] | None => [] end)
    end
  end.

(** The protocol the header asks for: watches come in log order, on trees of
    their intention that have no after image yet. *)
Definition allowed (s : rendezvous) (e : event) : Prop :=
  match e with
  | Watch i d t => 0 < i /\ pt_intention t = Some i /\ pt_afterimage t = None /\
      forall j, is_Some (rv_watched s !! j) -> j < i
  | Push i p => True
  end.

Fixpoint allowed_all (s : rendezvous) (es : list event) : Prop :=
  match es with [] => True | e :: es => allowed s e /\ allowed_all (rv_step e s) es end.

Definition do_event (e : event) : M Matcher unit :=
  match e with Watch _ d t => watch d t | Push i p => push i p end.

Fixpoint do_events (es : list event) : M Matcher unit :=
  match es with [] => mret tt | e :: es => do_event e;; do_events es end.

(** ** Refinement *)

Definition entry_ok (w : option (list loc * PersistentTree)) (f : option Z) (e : PrimaryAfterImage) : Prop :=
  match w, f with
  | None, Some p => e = mkPai (Some p) None []
  | Some (d, t), None => e = mkPai None (Some t) d
  | Some _, Some _ => e = mkPai None None []
  | None, None => False
  end.

Record matches (s : rendezvous) (x : Matcher) : Prop := {
  mm_out : matched_ x = rv_out s;
  mm_wm : 0 <= matched_watermark_ x;
  mm_wm_watched : matched_watermark_ x = 0 \/ is_Some (rv_watched s !! matched_watermark_ x);
  mm_entry k e : afterimages_ x !! k = Some e -> matched_watermark_ x < k /\ entry_ok (rv_watched s !! k) (rv_first s !! k) e;
  mm_absent k : matched_watermark_ x < k -> afterimages_ x !! k = None -> rv_watched s !! k = None /\ rv_first s !! k = None;
  mm_below k : k <= matched_watermark_ x -> is_Some (rv_watched s !! k) -> is_Some (rv_first s !! k);
  mm_tree k d t : rv_watched s !! k = Some (d, t) -> pt_intention t = Some k /\ pt_afterimage t = None;
}.

Lemma gc_loop_spec s fuel : forall x, (base.size (afterimages_ x) < fuel)%nat -> matches s x ->
  wp (gc_loop fuel) (fun _ x' => matches s x' /\ matched_ x' = matched_ x) x.
Proof.
  induction fuel as [|fuel IH]; intros x Hf Hm; [lia|]. cbn [gc_loop]. apply wp_bind, wp_get.
  destruct (first_key (afterimages_ x)) as [ipos|] eqn:Ek; [|by apply wp_ret].
  apply first_key_Some in Ek as [[e He] Hmin]. destruct (mm_entry _ _ Hm _ _ He) as [Hlt Hok].
  apply wp_bind, wp_assert; [by apply Z.ltb_lt|]. rewrite He.
  destruct (is_none (pai_pos e) && is_none (pai_tree e)) eqn:En; [|by apply wp_ret].
  assert (is_Some (rv_watched s !! ipos) /\ is_Some (rv_first s !! ipos)) as [Hw Hfirst].
  { unfold entry_ok in Hok. destruct (rv_watched s !! ipos) as [[d t]|], (rv_first s !! ipos);
      [by split; eexists|by subst e|by subst e|done]. }
  apply wp_bind, wp_put. eapply wp_conseq; [apply IH|by intros ? ? []].
  - simpl. rewrite map_size_delete, He. assert (base.size (afterimages_ x) <> 0%nat); [|lia].
    intros H0%map_size_empty_inv. by rewrite H0 in He.
  - pose proof Hm as []. split; simpl; try done; [lia|by right| | |].
    + intros k e' [Hne Hk]%lookup_delete_Some. split; [|by apply mm_entry0].
      specialize (Hmin k ltac:(by eexists)). lia.
    + intros k Hk Hnone. apply mm_absent0; [lia|]. rewrite lookup_delete_ne in Hnone by lia. done.
    + intros k Hk Hwk. destruct (decide (k <= matched_watermark_ x)) as [|Hgt]; [by apply mm_below0|].
      destruct (decide (k = ipos)) as [->|Hne]; [done|].
      destruct (afterimages_ x !! k) as [e'|] eqn:Ek'; [specialize (Hmin k ltac:(by eexists)); lia|].
      destruct (mm_absent0 k ltac:(lia) Ek') as [H1 _]. rewrite H1 in Hwk. by destruct Hwk.
Qed.

Lemma gc_spec s x : matches s x -> wp gc (fun _ x' => matches s x' /\ matched_ x' = matched_ x) x.
Proof. intros Hm. apply wp_bind, wp_get. apply gc_loop_spec; [lia|done]. Qed.

Lemma watch_spec s x i d t : matches s x -> allowed s (Watch i d t) ->
  wp (watch d t) (fun _ x' => matches (rv_step (Watch i d t) s) x') x.
Proof.
  intros Hm (Hi & Hti & Hta & Hord). unfold watch. apply wp_bind. unfold Intention_pos. rewrite Hti.
  apply wp_ret, wp_bind, wp_get. pose proof Hm as [].
  assert (matched_watermark_ x < i) as Hwm by (destruct mm_wm_watched0 as [->|?]; [lia|by apply Hord]).
  assert (rv_watched s !! i = None) as Hnw.
  { destruct (rv_watched s !! i) eqn:E; [|done]. specialize (Hord i ltac:(by eexists)). lia. }
  assert (forall (out : list (list loc * PersistentTree)) e,
    entry_ok (Some (d, t)) (rv_first s !! i) e ->
    matches (mkRendezvous (<[i := (d, t)]> (rv_watched s)) (rv_first s) out)
      (with_matched out (with_index (<[i := e]> (afterimages_ x)) x))) as Hgo.
  { intros out e He. split; simpl; try done.
    - destruct mm_wm_watched0 as [?|?]; [by left|right]. apply lookup_insert_is_Some'. by right.
    - intros k e' [[<- <-]|[Hne Hk]]%lookup_insert_Some; [by rewrite lookup_insert_eq|].
      rewrite lookup_insert_ne by done. by apply mm_entry0.
    - intros k Hk [Hnone Hne]%lookup_insert_None. rewrite lookup_insert_ne by done. by apply mm_absent0.
    - intros k Hk Hw. rewrite lookup_insert_ne in Hw by lia. by apply mm_below0.
    - intros k d' t' [[<- [= <- <-]]|[Hne Hk]]%lookup_insert_Some; [done|by apply (mm_tree0 _ _ _ Hk)]. }
  apply wp_bind. destruct (afterimages_ x !! i) as [e|] eqn:He.
  - destruct (mm_entry0 _ _ He) as [_ Hok]. unfold entry_ok in Hok. rewrite Hnw in Hok.
    destruct (rv_first s !! i) as [p|] eqn:Hf; [|done]. subst e. simpl.
    apply wp_bind, wp_assert; [done|]. apply wp_bind, wp_assert; [done|]. apply wp_bind. unfold SetAfterImage.
    apply wp_bind, wp_assert; [by apply bool_decide_eq_true|]. apply wp_ret, wp_put.
    eapply wp_conseq; [apply gc_spec|by intros ? ? [? _]]. unfold rv_step. rewrite Hf, mm_out0. by apply Hgo.
  - apply wp_put. eapply wp_conseq; [apply gc_spec|by intros ? ? [? _]].
    destruct (mm_absent0 i Hwm He) as [_ Hf]. unfold rv_step. rewrite Hf, app_nil_r.
    pose proof (Hgo (rv_out s) (mkPai None (Some t) d)) as H. rewrite Hf in H. specialize (H eq_refl).
    rewrite <- mm_out0 in H at 2. by destruct x.
Qed.

Lemma push_spec s x i p : matches s x -> wp (push i p) (fun _ x' => matches (rv_step (Push i p) s) x') x.
Proof.
  intros Hm. pose proof Hm as []. unfold push. apply wp_bind, wp_get.
  destruct (Z.leb_spec i (matched_watermark_ x)) as [Hle|Hgt].
  { apply wp_ret. unfold rv_step. destruct (rv_first s !! i) eqn:Hf; [done|].
    assert (rv_watched s !! i = None) as Hw.
    { destruct (rv_watched s !! i) eqn:E; [|done]. destruct (mm_below0 i Hle ltac:(by eexists)). congruence. }
    rewrite Hw, app_nil_r. split; simpl; try done.
    - intros k e Hk. destruct (mm_entry0 _ _ Hk) as [? ?]. rewrite lookup_insert_ne by lia. done.
    - intros k Hk Hnone. rewrite lookup_insert_ne by lia. by apply mm_absent0.
    - intros k Hk Hwk. apply lookup_insert_is_Some'. right. by apply mm_below0. }
  assert (forall (out : list (list loc * PersistentTree)) e, rv_first s !! i = None ->
    entry_ok (rv_watched s !! i) (Some p) e ->
    matches (mkRendezvous (rv_watched s) (<[i := p]> (rv_first s)) out)
      (with_matched out (with_index (<[i := e]> (afterimages_ x)) x))) as Hgo.
  { intros out e Hf He. split; simpl; try done.
    - intros k e' [[<- <-]|[Hne Hk]]%lookup_insert_Some; [by rewrite lookup_insert_eq|].
      rewrite lookup_insert_ne by done. by apply mm_entry0.
    - intros k Hk [Hnone Hne]%lookup_insert_None. rewrite lookup_insert_ne by done. by apply mm_absent0.
    - intros k Hk Hwk. apply lookup_insert_is_Some'. right. by apply mm_below0. }
  apply wp_bind. destruct (afterimages_ x !! i) as [e|] eqn:He.
  - destruct (mm_entry0 _ _ He) as [_ Hok]. unfold entry_ok in Hok. unfold rv_step.
    destruct (rv_watched s !! i) as [[d t]|] eqn:Hw, (rv_first s !! i) as [q|] eqn:Hf; subst; simpl; try done.
    + apply wp_ret. eapply wp_conseq; [by apply gc_spec|by intros ? ? [? _]].
    + destruct (mm_tree0 _ _ _ Hw) as [Hti Hta]. apply wp_bind. unfold Intention_pos. rewrite Hti. apply wp_ret.
      apply wp_bind, wp_assert; [by apply Z.eqb_eq|]. apply wp_bind. unfold SetAfterImage.
      apply wp_bind, wp_assert; [by apply bool_decide_eq_true|]. apply wp_ret, wp_put.
      eapply wp_conseq; [apply gc_spec|by intros ? ? [? _]]. rewrite mm_out0. by apply Hgo.
    + apply wp_ret. eapply wp_conseq; [by apply gc_spec|by intros ? ? [? _]].
  - destruct (mm_absent0 i ltac:(lia) He) as [Hw Hf]. unfold rv_step. rewrite Hf, Hw, app_nil_r.
    apply wp_put. eapply wp_conseq; [apply gc_spec|by intros ? ? [? _]].
    pose proof (Hgo (rv_out s) (mkPai (Some p) None []) Hf) as H. rewrite Hw in H. specialize (H eq_refl).
    rewrite <- mm_out0 in H at 2. by destruct x.
Qed.

Lemma new_matches : matches (mkRendezvous ∅ ∅ []) new_matcher.
Proof. split; simpl; try done; try (by left); try (intros *; by rewrite lookup_empty). Qed.

Lemma do_events_spec es : forall s x, allowed_all s es -> matches s x ->
  wp (do_events es) (fun _ x' => matches (fold_left (fun s e => rv_step e s) es s) x') x.
Proof.
  induction es as [|e es IH]; intros s x Ha Hm; [done|]. destruct Ha as [Ha Hes]. cbn [do_events].
  apply wp_bind. apply (wp_conseq _ (fun _ x' => matches (rv_step e s) x')); [|intros [] x' Hx; by apply IH].
  destruct e as [i d t|i p]; [by apply watch_spec|by apply push_spec].
Qed.

(** ** Properties *)

(** C17: the matcher pairs every watched intention with the first after image
    pushed for it, whichever comes first, once, in the order in which the pairs
    are completed; its index, watermark and garbage collection lose and repeat
    nothing, and no assertion fails, as long as intentions are watched in log
    order. *)
Theorem matcher_refines_rendezvous es :
  allowed_all (mkRendezvous ∅ ∅ []) es ->
  wp (do_events es) (fun _ x =>
    matched_ x = rv_out (fold_left (fun s e => rv_step e s) es (mkRendezvous ∅ ∅ []))) new_matcher.
Proof.
  intros Ha. eapply wp_conseq; [eapply do_events_spec; [exact Ha|exact new_matches]|]. intros [] x Hm. apply Hm.
Qed.

(** An after image of the intention at position 0 is never accepted. *)
Lemma push_zero p : push 0 p new_matcher = Ok (tt, new_matcher).
Proof. done. Qed.

Definition demo_match (i : Z) : PersistentTree := new_tree_for true null_ptr i i.

Lemma matcher_refines_rendezvous_witness :
  let es := [Push 5 6; Watch 3 [2%positive] (demo_match 3); Push 5 7; Watch 5 [] (demo_match 5); Push 3 8; Push 3 9] in
  wp (do_events es) (fun _ x =>
    matched_ x = rv_out (fold_left (fun s e => rv_step e s) es (mkRendezvous ∅ ∅ []))) new_matcher.
Proof.
  intros es. apply (matcher_refines_rendezvous es). unfold es. cbn [allowed_all allowed]. split_and!; try done; try lia.
  - intros j [y Hj]. change ((∅ : gmap Z (list loc * PersistentTree)) !! j = Some y) in Hj.
    by rewrite lookup_empty in Hj.
  - intros j [y Hj].
    change ((<[3 := ([2%positive], demo_match 3)]> ∅ : gmap Z (list loc * PersistentTree)) !! j = Some y) in Hj.
    apply lookup_insert_Some in Hj as [[<- _]|[_ Hj]]; [lia|]. by rewrite lookup_empty in Hj.
Defined.
