(* ===== verification/EntryService.v ===== *)
(** The entry service of src/src/db/entry_service.h and entry_service.cc: the
    log scanner, the cache of log entries, and the reads and appends. *)
From S2P Require Import Prelude Slice RBTree Node Proto PersistentTree Intention Matcher NodeCache.

(** ** What the service calls

    The log is [zlog::Log], and the messages are written and parsed by the
    protobuf library: parameters.  A read gives its return code and the data. *)
Class ZLog (G : Type) : Type := {
  zlog_read : Z -> G -> Z * string * G;
  zlog_append : string -> G -> Z * Z * G;
  zlog_fill : Z -> G -> Z * G;
  zlog_check_tail : G -> Z * Z * G;
}.

Class ProtoCodec : Type := {
  pb_serialize : LogEntry -> string;
  pb_parse : string -> option LogEntry;
}.

Definition ENODATA : Z := 61.
Definition EROFS : Z := 30.

(** ** State *)

Inductive CacheEntry : Type :=
| INTENTION_ENTRY (i : Intention)
| AFTERIMAGE_ENTRY (ai : AfterImage)
| FILLED_ENTRY.

(** [stats_] only counts, and the threads blocked on [tail_waiters_] are those
    whose wait does not hold. *)
Record EntryService (G : Type) : Type := mkEntryService {
  ai_matcher : Matcher;
  entry_cache_ : gmap Z CacheEntry;
  es_pos : Z;
  es_stop : bool;
  max_pos_ : Z;
  log_ : G;
}.
Arguments mkEntryService {_} _ _ _ _ _ _.
Arguments ai_matcher {_} _.
Arguments entry_cache_ {_} _.
Arguments es_pos {_} _.
Arguments es_stop {_} _.
Arguments max_pos_ {_} _.
Arguments log_ {_} _.

Section setters.
Context {G : Type}.
Implicit Types s : EntryService G.
Definition with_matcher (m : Matcher) s : EntryService G :=
  mkEntryService m (entry_cache_ s) (es_pos s) (es_stop s) (max_pos_ s) (log_ s).
Definition with_cache (c : gmap Z CacheEntry) s : EntryService G :=
  mkEntryService (ai_matcher s) c (es_pos s) (es_stop s) (max_pos_ s) (log_ s).
Definition with_max_pos (p : Z) s : EntryService G :=
  mkEntryService (ai_matcher s) (entry_cache_ s) (es_pos s) (es_stop s) p (log_ s).
Definition with_log (g : G) s : EntryService G :=
  mkEntryService (ai_matcher s) (entry_cache_ s) (es_pos s) (es_stop s) (max_pos_ s) g.
Definition with_es_stop s : EntryService G :=
  mkEntryService (ai_matcher s) (entry_cache_ s) (es_pos s) true (max_pos_ s) (log_ s).
Definition with_es_pos (p : Z) s : EntryService G :=
  mkEntryService (ai_matcher s) (entry_cache_ s) p (es_stop s) (max_pos_ s) (log_ s).
End setters.

Section service.
Context {G : Type} `{ZLog G} `{ProtoCodec}.
Context (cache_size : nat).

Definition ESM : Type -> Type := M (EntryService G).

Definition new_entry_service (g : G) : EntryService G := mkEntryService new_matcher ∅ 0 false 0 g.

Definition on_log {A} (f : G -> A * G) : ESM A := fun s =>
  let '(a, g) := f (log_ s) in Ok (a, with_log g s).

Definition on_matcher {A} (m : M Matcher A) : ESM A := zoom ai_matcher with_matcher m.

Definition Start (pos : Z) : ESM unit := modify (with_es_pos pos).

(** [Stop] also wakes the waiters and joins the scanner. *)
Definition Stop : ESM unit := modify with_es_stop;; on_matcher shutdown.

(** ** The cache of entries *)

Fixpoint gc_cache (fuel : nat) (c : gmap Z CacheEntry) : gmap Z CacheEntry :=
  match fuel with
  | O => c
  | S fuel =>
    if (cache_size <? base.size c)%nat then
      match first_key c with Some k => gc_cache fuel (delete k c) | None => c end
    else c
  end.

(** The loop erases one entry a round, so the size is fuel enough. *)
Definition entry_cache_gc : ESM unit :=
  modify (fun s => with_cache (gc_cache (base.size (entry_cache_ s)) (entry_cache_ s)) s).

(** [emplace] keeps an entry that is already there. *)
Definition emplace (pos : Z) (e : CacheEntry) : ESM unit :=
  modify (fun s => match entry_cache_ s !! pos with Some _ => s | None => with_cache (<[pos := e]> (entry_cache_ s)) s end).

(** The iterator [emplace] gave, read after the collection: when the collection
    erased the entry, it dangles. *)
Definition deref (pos : Z) : ESM CacheEntry := fun s =>
  match entry_cache_ s !! pos with Some e => Ok (e, s) | None => AssertFail end.

Definition emplace_and_get (pos : Z) (e : CacheEntry) : ESM CacheEntry :=
  emplace pos e;; entry_cache_gc;; deref pos.

(** ** Entries of the log *)

(** [ParseFromString], [IsInitialized] and the switch on the type; a missing
    sub-message reads as its default instance. *)
Definition parse_entry (pos : Z) (data : string) : option CacheEntry :=
  match pb_parse data with
  | None => None
  | Some entry =>
    match le_type entry with
    | AFTER_IMAGE => Some (AFTERIMAGE_ENTRY (default (mkAfterImage 0 []) (le_after_image entry)))
    | INTENTION => Some (INTENTION_ENTRY (intention_at (default (mkProtoIntention 0 0 false []) (le_intention entry)) pos))
    end
  end.

Definition parsed (pos : Z) (data : string) : ESM CacheEntry :=
  match parse_entry pos data with Some e => mret e | None => fail end.

(** The retry loop of [Read]: the data, or [None] for a filled position. *)
Fixpoint read_retry (fuel : nat) (pos : Z) (fill : bool) : ESM (option string) :=
  match fuel with
  | O => no_fuel
  | S fuel =>
    '(ret, data) ← on_log (zlog_read pos);
    if decide (ret = 0) then mret (Some data)
    else if decide (ret = - ENODATA) then mret None
    else if decide (ret = - ENOENT) then
      (if fill then
         ret ← on_log (zlog_fill pos);
         assert_that ((ret =? 0) || (ret =? - EROFS))
       else mret tt);;
      read_retry fuel pos fill
    else fail
  end.

Definition Read (fuel : nat) (pos : Z) (fill : bool) : ESM (option CacheEntry) :=
  s ← get;
  match entry_cache_ s !! pos with
  | Some e => mret (Some e)
  | None =>
    (if max_pos_ s <? pos then wait_until (fun s => (pos <=? max_pos_ s) || es_stop s) else mret tt);;
    s' ← get;
    if (max_pos_ s <? pos) && es_stop s' then mret None
    else
      data ← read_retry fuel pos fill;
      e ← match data with None => mret FILLED_ENTRY | Some d => parsed pos d end;
      e ← emplace_and_get pos e;
      mret (Some e)
  end.

(** [ReadAfterImage]: retried on any code but success and [-ENODATA]. *)
Fixpoint read_image_retry (fuel : nat) (pos : Z) : ESM string :=
  match fuel with
  | O => no_fuel
  | S fuel =>
    '(ret, data) ← on_log (zlog_read pos);
    if decide (ret = 0) then mret data
    else if decide (ret = - ENODATA) then fail
    else read_image_retry fuel pos
  end.

Definition ReadAfterImage (fuel : nat) (pos : Z) : ESM AfterImage :=
  s ← get;
  match entry_cache_ s !! pos with
  | Some (AFTERIMAGE_ENTRY ai) => mret ai
  | Some _ => fail
  | None =>
    data ← read_image_retry fuel pos;
    e ← parsed pos data;
    match e with
    | AFTERIMAGE_ENTRY _ =>
      e ← emplace_and_get pos e;
      match e with AFTERIMAGE_ENTRY ai => mret ai | _ => fail end
    | _ => fail
    end
  end.

(** ** Iterators: the position of the next read *)

Definition NextEntry (fuel : nat) (advance : Z -> Z) (pos : Z) (fill : bool) : ESM (option (Z * CacheEntry) * Z) :=
  entry ← Read fuel pos fill;
  mret ((fun e => (pos, e)) <$> entry, advance pos).

Definition forward_advance (pos : Z) : Z := u64 (pos + 1).
Definition reverse_advance (pos : Z) : Z := u64 (pos - 1).

Fixpoint IntentionIterator_Next (fuel : nat) (pos : Z) : ESM (option Intention * Z) :=
  match fuel with
  | O => no_fuel
  | S fuel' =>
    '(entry, pos) ← NextEntry fuel forward_advance pos false;
    match entry with
    | Some (_, INTENTION_ENTRY i) => mret (Some i, pos)
    | Some _ => IntentionIterator_Next fuel' pos
    | None => mret (None, pos)
    end
  end.

Fixpoint AfterImageIterator_Next (fuel : nat) (pos : Z) : ESM (option (Z * AfterImage) * Z) :=
  match fuel with
  | O => no_fuel
  | S fuel' =>
    '(entry, pos) ← NextEntry fuel forward_advance pos false;
    match entry with
    | Some (p, AFTERIMAGE_ENTRY ai) => mret (Some (p, ai), pos)
    | Some _ => AfterImageIterator_Next fuel' pos
    | None => mret (None, pos)
    end
  end.

Definition ReverseIterator_Next (fuel : nat) (pos : Z) (fill : bool) : ESM (option (Z * CacheEntry) * Z) :=
  NextEntry fuel reverse_advance pos fill.

(** ** The tail, filling and appending *)

Definition CheckTail (update_max_pos : bool) : ESM Z :=
  '(ret, pos) ← on_log zlog_check_tail;
  if decide (ret = 0) then
    (if update_max_pos then modify (fun s => with_max_pos (Z.max (max_pos_ s) pos) s) else mret tt);;
    mret pos
  else fail.

Fixpoint Fill (fuel : nat) (pos : Z) : ESM unit :=
  match fuel with
  | O => no_fuel
  | S fuel =>
    ret ← on_log (zlog_fill pos);
    if decide (ret = 0) then mret tt
    else if decide (ret = - EROFS) then fail
    else Fill fuel pos
  end.

Fixpoint append_blob (fuel : nat) (data : string) : ESM Z :=
  match fuel with
  | O => no_fuel
  | S fuel =>
    '(ret, pos) ← on_log (zlog_append data);
    if decide (ret = 0) then mret pos else append_blob fuel data
  end.

Definition AppendProtoIntention (fuel : nat) (i : ProtoIntention) : ESM Z :=
  append_blob fuel (pb_serialize (mkLogEntry INTENTION (Some i) None)).

Definition AppendAfterImage (fuel : nat) (ai : AfterImage) : ESM Z :=
  append_blob fuel (pb_serialize (mkLogEntry AFTER_IMAGE None (Some ai))).

(** The overload that takes the intention over and caches it. *)
Definition AppendIntention (fuel : nat) (intention : Intention) : ESM Z :=
  '(entry, intention) ← Serialize intention;
  pos ← append_blob fuel (pb_serialize entry);
  intention ← SetPosition pos intention;
  emplace pos (INTENTION_ENTRY intention);;
  entry_cache_gc;;
  modify (fun s => with_max_pos (Z.max (max_pos_ s) pos) s);;
  mret pos.

Definition ClearCaches : ESM unit := modify (with_cache ∅).

(** ** Batched reads *)

Fixpoint split_cached (positions : list Z) : ESM (list Intention * list Z) :=
  match positions with
  | [] => mret ([], [])
  | pos :: positions =>
    s ← get;
    match entry_cache_ s !! pos with
    | Some (INTENTION_ENTRY i) => '(xs, ms) ← split_cached positions; mret (i :: xs, ms)
    | Some _ => fail
    | None => '(xs, ms) ← split_cached positions; mret (xs, pos :: ms)
    end
  end.

(** One round of completions: what was read, and whether every read is done. *)
Fixpoint aio_round (missing : list Z) (blobs : list (option string)) : ESM (list (option string) * bool) :=
  match missing, blobs with
  | pos :: missing, Some b :: blobs => '(bs, d) ← aio_round missing blobs; mret (Some b :: bs, d)
  | pos :: missing, None :: blobs =>
    '(ret, data) ← on_log (zlog_read pos);
    if decide (ret = 0) then '(bs, d) ← aio_round missing blobs; mret (Some data :: bs, d)
    else if decide (ret = - ENODATA) then fail
    else '(bs, _) ← aio_round missing blobs; mret (None :: bs, false)
  | _, _ => mret ([], true)
  end.

Fixpoint aio_rounds (fuel : nat) (missing : list Z) (blobs : list (option string)) : ESM (list (option string)) :=
  match fuel with
  | O => no_fuel
  | S fuel =>
    '(blobs, done) ← aio_round missing blobs;
    if (done : bool) then mret blobs else aio_rounds fuel missing blobs
  end.

Fixpoint cache_intentions (missing : list Z) (blobs : list (option string)) : ESM (list Intention) :=
  match missing, blobs with
  | pos :: missing, Some b :: blobs =>
    e ← parsed pos b;
    match e with
    | INTENTION_ENTRY _ =>
      e ← emplace_and_get pos e;
      xs ← cache_intentions missing blobs;
      match e with INTENTION_ENTRY i => mret (i :: xs) | _ => fail end
    | _ => fail
    end
  | [], [] => mret []
  | _, _ => fail
  end.

(** The cached intentions come first, in the order asked for, then the others. *)
Definition ReadIntentions (fuel : nat) (positions : list Z) : ESM (list Intention) :=
  '(cached, missing) ← split_cached positions;
  blobs ← aio_rounds fuel missing (replicate (length missing) None);
  more ← cache_intentions missing blobs;
  let intentions := cached ++ more in
  assert_that (length intentions =? length positions)%nat;;
  mret intentions.

(** ** The scanner *)

Inductive io_result : Type := IoNext | IoContinue | IoBreak.

(** The body of the inner loop of [IOEntry] at [next]. *)
Definition io_position (next : Z) : ESM io_result :=
  s ← get;
  match entry_cache_ s !! next with
  | Some _ => mret IoNext
  | None =>
    '(ret, data) ← on_log (zlog_read next);
    if decide (ret = - ENOENT) then mret IoContinue
    else if decide (ret = - ENODATA) then mret IoBreak
    else if decide (ret <> 0) then fail
    else
      e ← parsed next data;
      match e with
      | AFTERIMAGE_ENTRY ai => on_matcher (push (ai_intention ai) next)
      | _ => mret tt
      end;;
      emplace next e;;
      entry_cache_gc;;
      modify (fun s => with_max_pos (Z.max (max_pos_ s) next) s);;
      mret IoNext
  end.

Fixpoint io_scan (fuel : nat) (next tail : Z) : ESM Z :=
  match fuel with
  | O => no_fuel
  | S fuel =>
    if tail <=? next then mret next
    else
      r ← io_position next;
      match r with
      | IoNext => io_scan fuel (next + 1) tail
      | IoContinue => io_scan fuel next tail
      | IoBreak => mret next
      end
  end.

(** One round of the outer loop: the position it leaves, or [None] at the end. *)
Definition IOEntry_round (fuel : nat) (next : Z) : ESM (option Z) :=
  s ← get;
  if es_stop s then mret None
  else
    tail ← CheckTail false;
    assert_that (next <=? tail);;
    if next =? tail then mret (Some next)
    else next ← io_scan fuel next tail; mret (Some next).
End service.
