(* ===== verification/EntryServiceSpec.v ===== *)
(** What the entry service promises: reads return what the log holds, appended
    intentions read back, and the service is a source of after images for the
    node cache; and where its cache and scanner break those promises. *)
From S2P Require Import Prelude Slice RBTree Node Proto PersistentTree Intention Matcher LruCache.
From S2P Require Import NodeCache NodeCacheSpec EntryService.

(** ** The documented behaviour of the log and of protobuf *)

Inductive slot : Type := Data (d : string) | Junk.

Class ZLogLaws (G : Type) `{ZLog G} : Type := {
  zl_slots : G -> gmap Z slot;
  zlog_read_data p d g : zl_slots g !! p = Some (Data d) -> zlog_read p g = (0, d, g);
  zlog_read_junk p g : zl_slots g !! p = Some Junk -> exists d, zlog_read p g = (- ENODATA, d, g);
  zlog_append_law d g : exists p g', zlog_append d g = (0, p, g') /\ 0 <= p /\
    (forall q, is_Some (zl_slots g !! q) -> q < p) /\ zl_slots g' = <[p := Data d]> (zl_slots g);
  zlog_tail_law g : exists tail, zlog_check_tail g = (0, tail, g) /\ forall q, is_Some (zl_slots g !! q) -> q < tail;
}.

(** Filling: an unwritten position at the tail, or below a written one, takes
    the junk mark, and then reads as filled.  An append goes to the tail. *)
Class ZLogFillLaws (G : Type) `{ZL : ZLogLaws G} : Prop := {
  zlog_read_unwritten p (g : G) : 0 <= p -> zl_slots g !! p = None -> exists d, zlog_read p g = (- ENOENT, d, g);
  zlog_fill_unwritten p (g : G) : 0 <= p -> zl_slots g !! p = None ->
    zlog_check_tail g = (0, p, g) \/ (exists q, p < q /\ is_Some (zl_slots g !! q)) ->
    exists g', zlog_fill p g = (0, g') /\ zl_slots g' = <[p := Junk]> (zl_slots g);
  zlog_append_tail d (g : G) tail : zlog_check_tail g = (0, tail, g) -> exists g', zlog_append d g = (0, tail, g');
}.

Class ProtoLaws `{ProtoCodec} : Prop := pb_parse_serialize e : pb_parse (pb_serialize e) = Some e.

Section spec.
Context {G : Type} {ZG : ZLog G} {ZL : ZLogLaws G} {PC : ProtoCodec}.
Context (cache_size fuel : nat).
Implicit Types s : EntryService G.

Definition slots s : gmap Z slot := zl_slots (log_ s).

(** What a position of the log holds, as a cache entry. *)
Definition slot_entry (p : Z) (x : slot) : option CacheEntry :=
  match x with Data d => parse_entry p d | Junk => Some FILLED_ENTRY end.
Definition log_entry s (p : Z) : option CacheEntry := x ← slots s !! p; slot_entry p x.

(** The cache agrees with the log, and the position does not fall off its low end. *)
Definition coherent s : Prop := forall p e, entry_cache_ s !! p = Some e -> log_entry s p = Some e.
Definition fits (p : Z) s : Prop :=
  (base.size (entry_cache_ s) < cache_size)%nat \/
  ((0 < cache_size)%nat /\ (base.size (entry_cache_ s) <= cache_size)%nat /\
   exists q, is_Some (entry_cache_ s !! q) /\ q < p).

Lemma gc_cache_small n c : (base.size c <= cache_size)%nat -> gc_cache cache_size n c = c.
Proof. intros Hs. destruct n; simpl; [done|]. by rewrite (proj2 (Nat.ltb_ge _ _)). Qed.

Lemma gc_cache_sub n : forall c p e, gc_cache cache_size n c !! p = Some e -> c !! p = Some e.
Proof.
  induction n as [|n IH]; intros c p e; simpl; [done|]. destruct (cache_size <? base.size c)%nat; [|done].
  destruct (first_key c); [|done]. intros Hp%IH. by apply lookup_delete_Some in Hp as [_ ?].
Qed.

(** One entry over the limit: the collection takes exactly the lowest. *)
Lemma gc_cache_one n c k : base.size c = S cache_size -> first_key c = Some k ->
  gc_cache cache_size (S n) c = delete k c.
Proof.
  intros Hs Hk. simpl. rewrite (proj2 (Nat.ltb_lt _ _)) by lia. rewrite Hk. apply gc_cache_small.
  rewrite map_size_delete. apply first_key_Some in Hk as [[e He] _]. rewrite He. lia.
Qed.

Lemma size_insert_new (c : gmap Z CacheEntry) p e : c !! p = None -> base.size (<[p := e]> c) = S (base.size c).
Proof. intros Hp. rewrite map_size_insert, Hp. done. Qed.

Definition same_log s s' : Prop := log_ s' = log_ s /\ max_pos_ s' = max_pos_ s /\ es_stop s' = es_stop s.

(** A new entry that fits survives the collection. *)
Lemma emplace_and_get_spec p e s : coherent s -> log_entry s p = Some e -> entry_cache_ s !! p = None -> fits p s ->
  wp (emplace_and_get cache_size p e) (fun x s' => x = e /\ coherent s' /\ same_log s s' /\
    ai_matcher s' = ai_matcher s /\
    ((base.size (entry_cache_ s) < cache_size)%nat -> entry_cache_ s' = <[p := e]> (entry_cache_ s))) s.
Proof.
  intros Hc He Hn Hfit. unfold emplace_and_get, emplace, entry_cache_gc, deref.
  apply wp_bind, wp_modify, wp_bind, wp_modify. rewrite Hn. cbn [with_cache entry_cache_].
  set (c := <[p := e]> (entry_cache_ s)).
  assert (coherent (with_cache (gc_cache cache_size (base.size c) c) s)) as Hc'.
  { intros q x Hq. simpl in Hq. apply gc_cache_sub in Hq. change (log_entry s q = Some x).
    apply lookup_insert_Some in Hq as [[<- <-]|[_ Hq]]; auto. }
  assert (gc_cache cache_size (base.size c) c !! p = Some e) as Hp.
  { unfold c. rewrite size_insert_new by done. destruct Hfit as [Hlt|(Hpos & Hle & q & [y Hq] & Hqp)].
    - rewrite gc_cache_small by (rewrite size_insert_new by done; lia). apply lookup_insert_eq.
    - destruct (decide (base.size (entry_cache_ s) < cache_size)%nat) as [Hlt|].
      { rewrite gc_cache_small by (rewrite size_insert_new by done; lia). apply lookup_insert_eq. }
      destruct (first_key c) as [k|] eqn:Ek.
      2: { apply first_key_None in Ek. by apply insert_non_empty in Ek. }
      rewrite (gc_cache_one _ _ k) by (rewrite ?size_insert_new by done; auto; lia).
      apply first_key_Some in Ek as [_ Hmin]. assert (k <= q) as Hkq.
      { apply Hmin. unfold c. rewrite lookup_insert_ne by lia. by eexists. }
      rewrite lookup_delete_ne by lia. apply lookup_insert_eq. }
  unfold wp. simpl. fold c. rewrite Hp. split_and!; [done|done|done|done|].
  intros Hlt. apply gc_cache_small. unfold c. rewrite size_insert_new by done. lia.
Qed.

Lemma on_log_read_data p d s (Q : Z * string -> EntryService G -> Prop) :
  slots s !! p = Some (Data d) -> Q (0, d) s -> wp (on_log (zlog_read p)) Q s.
Proof. intros Hs HQ. unfold wp, on_log. rewrite (zlog_read_data _ _ _ Hs). by destruct s. Qed.

Lemma on_log_read_junk p s (Q : Z * string -> EntryService G -> Prop) :
  slots s !! p = Some Junk -> (forall d, Q (- ENODATA, d) s) -> wp (on_log (zlog_read p)) Q s.
Proof.
  intros Hs HQ. destruct (zlog_read_junk _ _ Hs) as [d Hd]. unfold wp, on_log. rewrite Hd. specialize (HQ d).
  by destruct s.
Qed.

(** [Read] of a position the scanner has passed returns what the log holds. *)
Lemma Read_spec p e fill s : (0 < fuel)%nat -> coherent s -> log_entry s p = Some e -> p <= max_pos_ s -> fits p s ->
  wp (Read cache_size fuel p fill) (fun x s' => x = Some e /\ coherent s' /\ same_log s s' /\
    ai_matcher s' = ai_matcher s /\
    ((base.size (entry_cache_ s) < cache_size)%nat -> entry_cache_ s' = <[p := e]> (entry_cache_ s))) s.
Proof.
  intros Hf Hc He Hp Hfit. unfold Read. apply wp_bind, wp_get.
  destruct (entry_cache_ s !! p) as [e'|] eqn:Hcache.
  { pose proof (Hc _ _ Hcache) as He'. rewrite He in He'. injection He' as <-. apply wp_ret. split_and!; try done.
    intros _. by rewrite insert_id. }
  rewrite (proj2 (Z.ltb_ge _ _)) by lia. apply wp_bind, wp_ret, wp_bind, wp_get.
  destruct fuel as [|n]; [lia|]. apply wp_bind. unfold log_entry in He.
  destruct (slots s !! p) as [x|] eqn:Hx; [|done]. cbn [read_retry].
  assert (wp (e ← emplace_and_get cache_size p e; mret (Some e)) (fun x s' => x = Some e /\ coherent s' /\ same_log s s' /\
    ai_matcher s' = ai_matcher s /\
    ((base.size (entry_cache_ s) < cache_size)%nat -> entry_cache_ s' = <[p := e]> (entry_cache_ s))) s) as Hemp.
  { apply wp_bind. eapply wp_conseq; [apply emplace_and_get_spec; try done; unfold log_entry; by rewrite Hx|].
    intros y s' (-> & ?). by apply wp_ret. }
  destruct x as [d|]; simpl in He; apply wp_bind.
  - apply (on_log_read_data p d); [done|]. apply wp_ret, wp_bind. unfold parsed. rewrite He. by apply wp_ret.
  - apply on_log_read_junk; [done|]. intros d. injection He as <-. apply wp_ret, wp_bind. by apply wp_ret.
Qed.

Lemma ReadAfterImage_spec p ai s : (0 < fuel)%nat -> coherent s -> log_entry s p = Some (AFTERIMAGE_ENTRY ai) -> fits p s ->
  wp (ReadAfterImage cache_size fuel p) (fun x s' => x = ai /\ coherent s' /\ same_log s s' /\
    ((base.size (entry_cache_ s) < cache_size)%nat -> entry_cache_ s' = <[p := AFTERIMAGE_ENTRY ai]> (entry_cache_ s))) s.
Proof.
  intros Hf Hc He Hfit. unfold ReadAfterImage. apply wp_bind, wp_get.
  destruct (entry_cache_ s !! p) as [e'|] eqn:Hcache.
  { pose proof (Hc _ _ Hcache) as He'. rewrite He in He'. injection He' as <-. apply wp_ret. split_and!; try done.
    intros _. by rewrite insert_id. }
  destruct fuel as [|n]; [lia|]. apply wp_bind. pose proof He as Hx. unfold log_entry in Hx.
  destruct (slots s !! p) as [[d|]|] eqn:Hs; simpl in Hx; try done. cbn [read_image_retry].
  apply wp_bind, (on_log_read_data p d); [done|]. apply wp_ret, wp_bind. unfold parsed. rewrite Hx. apply wp_ret, wp_bind.
  eapply wp_conseq; [by apply emplace_and_get_spec|]. intros x s' (-> & Hc' & Hl' & _ & Hi'). by apply wp_ret.
Qed.

(** ** The service as a source of after images

    A log whose positions the entry cache has room for. *)
Context (bound : nat).

Record src_ok s : Prop := {
  so_coherent : coherent s;
  so_range p : is_Some (slots s !! p) -> 0 <= p < Z.of_nat bound /\ p <= max_pos_ s;
  so_dense p q : is_Some (slots s !! p) -> 0 <= q <= p -> is_Some (log_entry s q);
  so_bound : (bound <= cache_size)%nat /\ Z.of_nat bound < 2 ^ 64;
}.

Definition after_image_of (x : slot) : option AfterImage :=
  match slot_entry 0 x with Some (AFTERIMAGE_ENTRY ai) => Some ai | _ => None end.

Definition es_src_log s : gmap Z AfterImage := omap after_image_of (slots s).

Lemma es_src_log_entry s p ai : es_src_log s !! p = Some ai <-> log_entry s p = Some (AFTERIMAGE_ENTRY ai).
Proof.
  unfold es_src_log, log_entry. rewrite lookup_omap. destruct (slots s !! p) as [[d|]|]; simpl; try done.
  unfold after_image_of. simpl. unfold parse_entry. destruct (pb_parse d) as [e|]; [|done].
  destruct (le_type e); split; try done; by intros [= ->].
Qed.

Lemma same_log_slots s s' : same_log s s' -> slots s' = slots s /\ forall p, log_entry s' p = log_entry s p.
Proof. intros (Hl & _). unfold log_entry, slots. by rewrite Hl. Qed.

Lemma log_entry_slot s p e : log_entry s p = Some e -> is_Some (slots s !! p).
Proof. unfold log_entry. destruct (slots s !! p); [by eexists|done]. Qed.

Lemma src_ok_fits s p : src_ok s -> is_Some (slots s !! p) -> entry_cache_ s !! p = None -> (base.size (entry_cache_ s) < cache_size)%nat.
Proof.
  intros [Hc Hr _ Hb] Hp Hn.
  assert (base.size ({[p]} ∪ dom (entry_cache_ s)) <= base.size (list_to_set (C := gset Z) (seqZ 0 (Z.of_nat bound))))%nat as Hsub.
  { apply subseteq_size. intros q [->%elem_of_singleton|[e He]%elem_of_dom]%elem_of_union; apply elem_of_list_to_set, elem_of_seqZ.
    - apply Hr in Hp. lia.
    - apply Hc, log_entry_slot, Hr in He. lia. }
  rewrite size_union in Hsub by (apply not_elem_of_dom in Hn; set_solver).
  rewrite size_singleton, size_dom, size_list_to_set, length_seqZ in Hsub by apply NoDup_seqZ. lia.
Qed.

Lemma src_ok_fits' s p e : src_ok s -> log_entry s p = Some e -> entry_cache_ s !! p = None -> fits p s.
Proof. intros Hs He Hn. left. eapply src_ok_fits; [done| |done]. by eapply log_entry_slot. Qed.

Lemma src_ok_same s s' : src_ok s -> coherent s' -> same_log s s' -> src_ok s'.
Proof.
  intros [_ Hr Hd Hb] Hc Hl. destruct (same_log_slots _ _ Hl) as [Hs He]. destruct Hl as (_ & Hm & _).
  split; [done|..|done].
  - intros p. rewrite Hs, Hm. apply Hr.
  - intros p q. rewrite Hs, He. apply Hd.
Qed.

Lemma src_read_ok p ai s : (0 < fuel)%nat -> src_ok s -> es_src_log s !! p = Some ai ->
  wp (ReadAfterImage cache_size fuel p) (fun x s' => x = ai /\ src_ok s' /\ slots s' = slots s) s.
Proof.
  intros Hfuel Hs He%es_src_log_entry.
  assert (entry_cache_ s !! p = Some (AFTERIMAGE_ENTRY ai) \/ fits p s) as Hfit.
  { destruct (entry_cache_ s !! p) as [e|] eqn:Hn; [|right; by eapply src_ok_fits'].
    left. apply (so_coherent _ Hs) in Hn. congruence. }
  assert (forall s', coherent s' -> same_log s s' -> src_ok s' /\ slots s' = slots s) as Hgo.
  { intros s' Hc Hl. split; [by eapply src_ok_same|]. by apply same_log_slots. }
  destruct Hfit as [Hcache|Hfit].
  - unfold ReadAfterImage. apply wp_bind, wp_get. rewrite Hcache. apply wp_ret. split; [done|].
    apply Hgo; [apply Hs|done].
  - eapply wp_conseq; [apply ReadAfterImage_spec; [done|apply Hs|done|done]|].
    intros x s' (-> & Hc & Hl & _). split; [done|]. by apply Hgo.
Qed.

Lemma src_Read_ok p e s fill : (0 < fuel)%nat -> src_ok s -> log_entry s p = Some e ->
  wp (Read cache_size fuel p fill) (fun x s' => x = Some e /\ src_ok s' /\ same_log s s') s.
Proof.
  intros Hfuel Hs He. destruct (entry_cache_ s !! p) as [e'|] eqn:Hn.
  - pose proof (so_coherent _ Hs _ _ Hn) as He'. rewrite He in He'. injection He' as <-.
    unfold Read. apply wp_bind, wp_get. rewrite Hn. by apply wp_ret.
  - eapply wp_conseq; [apply Read_spec; [done|apply Hs|done| |by eapply src_ok_fits']|].
    + by eapply (so_range _ Hs), log_entry_slot.
    + intros x s' (-> & Hc & Hl & _). split_and!; [done|by eapply src_ok_same|done].
Qed.
End spec.

Section source.
Context {G : Type} {ZG : ZLog G} {ZL : ZLogLaws G} {PC : ProtoCodec}.
Context (cache_size fuel bound : nat).
Hypothesis fuel_enough : (bound < fuel)%nat.

(** One step of a forward iterator inside the log. *)
Lemma NextEntry_spec n pos p e (s : EntryService G) : (0 < n)%nat -> src_ok cache_size bound s -> is_Some (slots s !! p) ->
  0 <= pos <= p -> log_entry s pos = Some e ->
  wp (NextEntry cache_size n forward_advance pos false) (fun x s' => x = (Some (pos, e), pos + 1) /\
    src_ok cache_size bound s' /\ same_log s s') s.
Proof.
  intros Hn Hs Hslot Hpos Hq. pose proof (so_range _ _ _ Hs p Hslot) as [Hr _]. destruct (so_bound _ _ _ Hs) as [_ Hb].
  assert (forward_advance pos = pos + 1) as Hadv by (unfold forward_advance, u64; rewrite Z.mod_small; lia).
  unfold NextEntry. apply wp_bind. eapply wp_conseq; [by apply src_Read_ok|].
  intros x s1 (-> & Hs1 & Hl1). apply wp_ret. by rewrite Hadv.
Qed.

(** [AfterImageIterator::Next] skips everything but after images. *)
Lemma AfterImageIterator_spec n : forall pos p ai (s : EntryService G), (Z.to_nat (p - pos) < n)%nat ->
  src_ok cache_size bound s -> es_src_log s !! p = Some ai -> 0 <= pos <= p ->
  (forall q, pos <= q < p -> es_src_log s !! q = None) ->
  wp (AfterImageIterator_Next cache_size n pos) (fun x s' => x = (Some (p, ai), p + 1) /\
    src_ok cache_size bound s' /\ slots s' = slots s) s.
Proof.
  induction n as [|n IH]; intros pos p ai s Hn Hs He Hpos Hnone; [lia|]. cbn [AfterImageIterator_Next].
  pose proof He as He'. apply es_src_log_entry in He' as Hp. apply log_entry_slot in Hp as Hslot.
  destruct (so_dense _ _ _ Hs p pos Hslot) as [e Hq]; [lia|].
  apply wp_bind. eapply wp_conseq; [apply (NextEntry_spec (S n) pos p e); [lia|done..]|].
  intros x s1 (-> & Hs1 & Hl1). assert (slots s1 = slots s) as Hsl by (by apply same_log_slots).
  assert (es_src_log s1 = es_src_log s) as Hlog by (unfold es_src_log; by rewrite Hsl).
  destruct (decide (pos = p)) as [->|Hne].
  - rewrite Hp in Hq. injection Hq as <-. by apply wp_ret.
  - assert (wp (AfterImageIterator_Next cache_size n (pos + 1)) (fun x s' => x = (Some (p, ai), p + 1) /\
      src_ok cache_size bound s' /\ slots s' = slots s) s1) as Hgo.
    { eapply wp_conseq; [apply (IH (pos + 1) p ai s1); try done; try lia; rewrite Hlog; [done|]|].
      - intros q Hq'. apply Hnone. lia.
      - intros x s2 (-> & ? & E). split_and!; [done..|congruence]. }
    destruct e as [i|ai'|]; [exact Hgo| |exact Hgo]. apply es_src_log_entry in Hq. rewrite Hnone in Hq by lia. done.
Qed.

(** [IntentionIterator::Next] skips everything but intentions. *)
Lemma IntentionIterator_spec n : forall pos p i (s : EntryService G), (Z.to_nat (p - pos) < n)%nat ->
  src_ok cache_size bound s -> log_entry s p = Some (INTENTION_ENTRY i) -> 0 <= pos <= p ->
  (forall q j, pos <= q < p -> log_entry s q <> Some (INTENTION_ENTRY j)) ->
  wp (IntentionIterator_Next cache_size n pos) (fun x s' => x = (Some i, p + 1) /\
    src_ok cache_size bound s' /\ same_log s s') s.
Proof.
  induction n as [|n IH]; intros pos p i s Hn Hs Hp Hpos Hnone; [lia|]. cbn [IntentionIterator_Next].
  apply log_entry_slot in Hp as Hslot. destruct (so_dense _ _ _ Hs p pos Hslot) as [e Hq]; [lia|].
  apply wp_bind. eapply wp_conseq; [apply (NextEntry_spec (S n) pos p e); [lia|done..]|].
  intros x s1 (-> & Hs1 & Hl1). destruct (same_log_slots _ _ Hl1) as [Hsl Hent].
  destruct (decide (pos = p)) as [->|Hne].
  - rewrite Hp in Hq. injection Hq as <-. by apply wp_ret.
  - assert (wp (IntentionIterator_Next cache_size n (pos + 1)) (fun x s' => x = (Some i, p + 1) /\
      src_ok cache_size bound s' /\ same_log s s') s1) as Hgo.
    { eapply wp_conseq; [apply (IH (pos + 1) p i s1); try done; try lia|].
      - by rewrite Hent.
      - intros q j Hq'. rewrite Hent. apply Hnone. lia.
      - intros x s2 (-> & ? & Hl2). split_and!; [done..|]. destruct Hl1 as (? & ? & ?), Hl2 as (? & ? & ?). split_and!; congruence. }
    destruct e as [j| |]; [|exact Hgo..]. by destruct (Hnone pos j); [lia|].
Qed.

#[export] Instance es_source : AfterImageSource (EntryService G) := {|
  src_read := ReadAfterImage cache_size fuel;
  src_next := AfterImageIterator_Next cache_size fuel;
|}.

(** [logged] is what the log holds; the reads of the cache leave it as it is. *)
Context (logged : gmap Z slot).

#[export] Program Instance es_source_laws : AfterImageSourceLaws (EntryService G) := {|
  src_inv s := src_ok cache_size bound s /\ slots s = logged;
  src_log := es_src_log;
|}.
Next Obligation.
  intros p ai s [Hs Hsl] He. eapply wp_conseq; [apply (src_read_ok cache_size fuel bound); [lia|exact Hs|exact He]|].
  intros x s' (-> & Hs' & E). split_and!; [done|done|congruence|]. unfold es_src_log. by rewrite E.
Qed.
Next Obligation.
  intros pos p ai s [Hs Hsl] He Hpos Hnone. eapply wp_conseq; [apply AfterImageIterator_spec; [|exact Hs|exact He|done|done]|].
  { pose proof He as Hp. apply es_src_log_entry, log_entry_slot in Hp. apply (so_range _ _ _ Hs) in Hp. lia. }
  intros x s' (-> & Hs' & E). split_and!; [done|done|congruence|]. unfold es_src_log. by rewrite E.
Qed.
End source.

(** ** Batched reads *)

Section batches.
Context {G : Type} {ZG : ZLog G} {ZL : ZLogLaws G} {PC : ProtoCodec}.
Context (cache_size fuel bound : nat).
Implicit Types s : EntryService G.

Definition intention_in s (p : Z) (i : Intention) : Prop := log_entry s p = Some (INTENTION_ENTRY i).

Definition src_same s s' : Prop := src_ok cache_size bound s' /\ same_log s s'.

Lemma same_log_trans s1 s2 s3 : same_log s1 s2 -> same_log s2 s3 -> same_log s1 s3.
Proof. intros (? & ? & ?) (? & ? & ?). split_and!; congruence. Qed.

Lemma src_size s : src_ok cache_size bound s -> (base.size (entry_cache_ s) <= bound)%nat.
Proof.
  intros [Hc Hr _ Hb]. rewrite <- size_dom.
  assert (dom (entry_cache_ s) ⊆ list_to_set (C := gset Z) (seqZ 0 (Z.of_nat bound))) as Hsub.
  { intros q [e He]%elem_of_dom. apply elem_of_list_to_set, elem_of_seqZ. apply Hc, log_entry_slot, Hr in He. lia. }
  apply subseteq_size in Hsub. rewrite size_list_to_set, length_seqZ in Hsub by apply NoDup_seqZ. lia.
Qed.

(** With room for the whole log, an entry that is read stays. *)
Lemma src_emplace p e s : src_ok cache_size bound s -> log_entry s p = Some e ->
  wp (emplace_and_get cache_size p e) (fun x s' => x = e /\ src_same s s') s.
Proof.
  intros Hs He. destruct (entry_cache_ s !! p) as [e'|] eqn:Hn.
  - pose proof (so_coherent _ _ _ Hs _ _ Hn) as He'. rewrite He in He'. injection He' as <-.
    unfold emplace_and_get, emplace, entry_cache_gc, deref. apply wp_bind, wp_modify. rewrite Hn. apply wp_bind, wp_modify.
    pose proof (src_size s Hs). pose proof (so_bound _ _ _ Hs) as [? _]. rewrite gc_cache_small by lia.
    unfold wp. simpl. rewrite Hn. split; [done|]. split; [|done]. destruct s. exact Hs.
  - eapply wp_conseq; [eapply (emplace_and_get_spec cache_size); [apply Hs|exact He|exact Hn|by eapply src_ok_fits']|].
    intros x s' (-> & Hc & Hl & _). split; [done|]. split; [|done]. by eapply src_ok_same.
Qed.

Lemma split_cached_spec ps : forall xs s, src_ok cache_size bound s -> Forall2 (intention_in s) ps xs ->
  exists cs ms xs1 xs2, split_cached ps s = Ok ((xs1, ms), s) /\ ps ≡ₚ cs ++ ms /\
    Forall2 (intention_in s) cs xs1 /\ Forall2 (intention_in s) ms xs2.
Proof.
  induction ps as [|p ps IH]; intros xs s Hs H2.
  { exists [], [], [], []. by split_and!. }
  apply Forall2_cons_inv_l in H2 as (i & xs' & Hi & H2 & ->).
  destruct (IH xs' s Hs H2) as (cs & ms & xs1 & xs2 & Hsp & Hperm & Hc & Hm).
  cbn [split_cached]. unfold mbind, M_bind, get. destruct (entry_cache_ s !! p) as [e|] eqn:Hn.
  - pose proof (so_coherent _ _ _ Hs _ _ Hn) as He. unfold intention_in in Hi. rewrite Hi in He. injection He as <-.
    rewrite Hsp. exists (p :: cs), ms, (i :: xs1), xs2. split_and!; [done|by rewrite Hperm|by constructor|done].
  - rewrite Hsp. exists cs, (p :: ms), xs1, (i :: xs2). split_and!; [done| |done|by constructor].
    rewrite Hperm. apply Permutation_middle.
Qed.

Definition data_of s (p : Z) (b : option string) : Prop := exists d, b = Some d /\ slots s !! p = Some (Data d).

Lemma intention_data s p i : intention_in s p i -> exists d, slots s !! p = Some (Data d) /\ parse_entry p d = Some (INTENTION_ENTRY i).
Proof. unfold intention_in, log_entry. destruct (slots s !! p) as [[d|]|]; simpl; [eauto|done|done]. Qed.

Lemma aio_round_spec ms : forall xs s, Forall2 (intention_in s) ms xs ->
  exists bs, aio_round ms (replicate (length ms) None) s = Ok ((bs, true), s) /\ Forall2 (data_of s) ms bs.
Proof.
  induction ms as [|p ms IH]; intros xs s H2; [by exists []|].
  apply Forall2_cons_inv_l in H2 as (i & xs' & Hi & H2 & ->).
  destruct (IH xs' s H2) as (bs & Hr & Hb). destruct (intention_data _ _ _ Hi) as (d & Hd & _).
  exists (Some d :: bs). split; [|constructor; [by exists d|done]].
  cbn [length replicate aio_round]. unfold mbind, M_bind at 1. unfold on_log at 1. rewrite (zlog_read_data _ _ _ Hd).
  replace (with_log (log_ s) s) with s by (by destruct s). rewrite decide_True by done. unfold M_bind. by rewrite Hr.
Qed.

Lemma cache_intentions_spec ms : forall xs bs s, src_ok cache_size bound s -> Forall2 (intention_in s) ms xs -> Forall2 (data_of s) ms bs ->
  wp (cache_intentions cache_size ms bs) (fun out s' => out = xs /\ src_same s s') s.
Proof.
  induction ms as [|p ms IH]; intros xs bs s Hs H2 Hb.
  { apply Forall2_nil_inv_l in H2 as ->. apply Forall2_nil_inv_l in Hb as ->. by apply wp_ret. }
  apply Forall2_cons_inv_l in H2 as (i & xs' & Hi & H2 & ->). apply Forall2_cons_inv_l in Hb as (b & bs' & (d & -> & Hd) & Hb & ->).
  destruct (intention_data _ _ _ Hi) as (d' & Hd' & Hp). rewrite Hd in Hd'. injection Hd' as <-.
  cbn [cache_intentions]. apply wp_bind. unfold parsed. rewrite Hp. apply wp_ret, wp_bind.
  eapply wp_conseq; [by apply src_emplace|]. intros x s1 (-> & Hs1 & Hl1).
  assert (forall q j, intention_in s q j -> intention_in s1 q j) as Hmono.
  { intros q j. unfold intention_in. by rewrite (proj2 (same_log_slots _ _ Hl1)). }
  apply wp_bind. eapply wp_conseq; [apply (IH xs' bs' s1 Hs1)|].
  - eapply Forall2_impl; [exact H2|]. apply Hmono.
  - eapply Forall2_impl; [exact Hb|]. intros q b (d' & -> & Hq). exists d'. split; [done|]. by rewrite (proj1 (same_log_slots _ _ Hl1)).
  - intros out s2 (-> & Hs2 & Hl2). apply wp_ret. split; [done|]. split; [done|]. by eapply same_log_trans.
Qed.

(** [ReadIntentions] returns the intentions asked for, the cached ones first. *)
Lemma ReadIntentions_spec ps xs s : (0 < fuel)%nat -> src_ok cache_size bound s -> Forall2 (intention_in s) ps xs ->
  wp (ReadIntentions cache_size fuel ps) (fun out s' => src_same s s' /\
    exists qs, ps ≡ₚ qs /\ Forall2 (intention_in s) qs out) s.
Proof.
  intros Hf Hs H2. destruct (split_cached_spec ps xs s Hs H2) as (cs & ms & xs1 & xs2 & Hsp & Hperm & Hc & Hm).
  unfold ReadIntentions. apply wp_bind. unfold wp at 1. rewrite Hsp. destruct (aio_round_spec ms xs2 s Hm) as (bs & Hr & Hb).
  apply wp_bind. unfold wp at 1. destruct fuel as [|n]; [lia|]. cbn [aio_rounds]. unfold mbind, M_bind at 1. rewrite Hr. simpl.
  apply wp_bind. eapply wp_conseq; [by apply (cache_intentions_spec ms xs2 bs s)|]. intros more s1 (-> & Hs1).
  assert (Forall2 (intention_in s) (cs ++ ms) (xs1 ++ xs2)) as Hall by (by apply Forall2_app).
  apply wp_bind, wp_assert.
  { apply Nat.eqb_eq. rewrite Hperm. symmetry. by eapply Forall2_length. }
  apply wp_ret. split; [done|]. by exists (cs ++ ms).
Qed.
End batches.

(** ** The scanner *)

Section scanner.
Context {G : Type} {ZG : ZLog G} {ZL : ZLogLaws G} {PC : ProtoCodec}.
Context (cache_size : nat).
Implicit Types s : EntryService G.

(** The pushes a scan from [next] over [n] positions makes. *)
Fixpoint pushes (log : gmap Z AfterImage) (next : Z) (n : nat) : list event :=
  match n with
  | O => []
  | S n =>
    match log !! next with Some ai => [Push (ai_intention ai) next] | None => [] end ++ pushes log (next + 1) n
  end.

Definition rv_steps (es : list event) (r : rendezvous) : rendezvous := fold_left (fun r e => rv_step e r) es r.

Lemma pushes_ext n : forall log log' next, (forall q, next <= q -> log' !! q = log !! q) -> pushes log' next n = pushes log next n.
Proof.
  induction n as [|n IH]; intros log log' next Hext; [done|]. cbn [pushes]. rewrite Hext by lia. f_equal.
  apply IH. intros q Hq. apply Hext. lia.
Qed.

(** The after images of a log but those at the positions of a set. *)
Definition unskipped (skipped : gset Z) (log : gmap Z AfterImage) : gmap Z AfterImage := filter (fun kv => kv.1 ∉ skipped) log.

Lemma unskipped_in skipped log q : q ∈ skipped -> unskipped skipped log !! q = None.
Proof. intros Hq. apply map_lookup_filter_None. right. by intros x _ []. Qed.

Lemma unskipped_out skipped log q : q ∉ skipped -> unskipped skipped log !! q = log !! q.
Proof.
  intros Hq. apply option_eq. intros x. unfold unskipped. rewrite map_lookup_filter_Some. naive_solver.
Qed.

(** What a scan from [next] to [tail] makes of [s]: it leaves the scanner at [x],
    and has passed the positions of [skipped] because they were in the cache. *)
Record scanned (next tail : Z) (r : rendezvous) s (x : Z) s' (skipped : gset Z) : Prop := {
  sn_range : next <= x <= tail;
  sn_coherent : coherent s';
  sn_log : log_ s' = log_ s;
  (* it stops at the tail, or at a filled position that is not in the cache *)
  sn_stop : x = tail \/ (slots s !! x = Some Junk /\ entry_cache_ s' !! x = None);
  sn_read q : next <= q < x -> q ∉ skipped -> (exists d, slots s !! q = Some (Data d)) /\ q <= max_pos_ s';
  (* only what was in the cache is skipped; all of it, when nothing is evicted meanwhile *)
  sn_skipped q : q ∈ skipped -> next <= q < x /\ is_Some (entry_cache_ s !! q);
  sn_room : (base.size (entry_cache_ s) + Z.to_nat (tail - next) <= cache_size)%nat ->
    forall q, next <= q < x -> is_Some (entry_cache_ s !! q) -> q ∈ skipped;
  (* the matcher got the after images read, once each and in the order of the log *)
  sn_pushed : matches (rv_steps (pushes (unskipped skipped (es_src_log s)) next (Z.to_nat (x - next))) r) (ai_matcher s');
}.

(** The scanner at an entry it has to read. *)
Record io_read (next : Z) (e : CacheEntry) r s s' : Prop := {
  ir_coherent : coherent s';
  ir_log : log_ s' = log_ s;
  ir_max : next <= max_pos_ s' /\ max_pos_ s <= max_pos_ s';
  ir_cache q : q <> next -> is_Some (entry_cache_ s' !! q) -> is_Some (entry_cache_ s !! q);
  ir_room : (base.size (entry_cache_ s) < cache_size)%nat -> entry_cache_ s' = <[next := e]> (entry_cache_ s);
  ir_pushed : matches (rv_steps (match e with AFTERIMAGE_ENTRY ai => [Push (ai_intention ai) next] | _ => [] end) r) (ai_matcher s');
}.

Lemma io_position_spec next e r s : log_entry s next = Some e -> coherent s -> matches r (ai_matcher s) ->
  wp (io_position cache_size next) (fun x s' =>
    match entry_cache_ s !! next, slots s !! next with
    | Some _, _ => x = IoNext /\ s' = s
    | None, Some Junk => x = IoBreak /\ s' = s
    | None, _ => x = IoNext /\ (exists d, slots s !! next = Some (Data d)) /\ io_read next e r s s'
    end) s.
Proof.
  intros He Hc Hm. unfold io_position. apply wp_bind, wp_get.
  destruct (entry_cache_ s !! next) as [e'|] eqn:Hcache; [by apply wp_ret|].
  unfold log_entry in He. destruct (slots s !! next) as [[d|]|] eqn:Hslot; [| |done]; simpl in He.
  2: { apply wp_bind, on_log_read_junk; [done|]. intros d. by apply wp_ret. }
  apply wp_bind, (on_log_read_data next d); [done|]. apply wp_bind. unfold parsed. rewrite He. apply wp_ret, wp_bind.
  apply (wp_conseq _ (fun _ s1 => (entry_cache_ s1 = entry_cache_ s /\ log_ s1 = log_ s /\ max_pos_ s1 = max_pos_ s) /\
    matches (rv_steps (match e with AFTERIMAGE_ENTRY ai => [Push (ai_intention ai) next] | _ => [] end) r) (ai_matcher s1))).
  { destruct e as [i|ai|]; [by apply wp_ret| |by apply wp_ret]. unfold on_matcher. apply wp_zoom.
    eapply wp_conseq; [by apply push_spec|]. intros [] x Hx. done. }
  intros [] s1 [(Ec & El & Em) Hm1]. apply wp_bind, wp_modify, wp_bind, wp_modify, wp_bind, wp_modify, wp_ret.
  rewrite Ec, Hcache. cbn [with_cache entry_cache_ with_max_pos max_pos_ log_ ai_matcher]. rewrite Em.
  assert (forall p x, gc_cache cache_size (base.size (<[next := e]> (entry_cache_ s))) (<[next := e]> (entry_cache_ s)) !! p = Some x ->
    (p = next /\ x = e) \/ (p <> next /\ entry_cache_ s !! p = Some x)) as Hlk.
  { intros p x Hp%gc_cache_sub. apply lookup_insert_Some in Hp as [[<- <-]|[? Hp]]; auto. }
  split; [done|]. split; [by exists d|]. split; [|exact El|simpl; lia| | |done].
  - intros p x Hp. assert (log_entry s p = Some x) as Hpx.
    { apply Hlk in Hp as [[-> ->]|[_ Hp]]; [|auto]. unfold log_entry. by rewrite Hslot. }
    unfold log_entry, slots in *. simpl. by rewrite El.
  - intros q Hq [x Hx]. apply Hlk in Hx as [[? _]|[_ Hx]]; [done|by eexists].
  - intros Hroom. simpl. apply gc_cache_small. rewrite size_insert_new by done. lia.
Qed.

(** A scan that stops where it starts. *)
Lemma scanned_here next tail r s : next <= tail -> coherent s -> matches r (ai_matcher s) ->
  next = tail \/ (slots s !! next = Some Junk /\ entry_cache_ s !! next = None) -> scanned next tail r s next s ∅.
Proof. intros Hle Hc Hm Hstop. split; [lia|done|done|done|lia|set_solver|lia|]. by rewrite Z.sub_diag. Qed.

(** A scan that starts after a position of the cache, and one that starts after
    an entry it has read. *)
Lemma scanned_cached next tail r s x s' skipped : is_Some (entry_cache_ s !! next) -> scanned (next + 1) tail r s x s' skipped ->
  scanned next tail r s x s' ({[next]} ∪ skipped).
Proof.
  intros Hn [Hx Hc Hl Hstop Hread Hsk Hroom Hp]. split; [lia|done|done|done| | | |].
  - intros q Hq Hns. apply Hread; [|set_solver]. assert (q <> next) by set_solver. lia.
  - intros q [->%elem_of_singleton|Hq]%elem_of_union; [split; [lia|done]|]. apply Hsk in Hq as [? ?]. split; [lia|done].
  - intros Hr q Hq Hin. destruct (decide (q = next)) as [->|Hne]; [set_solver|]. apply elem_of_union_r, Hroom; [lia|lia|done].
  - replace (Z.to_nat (x - next)) with (S (Z.to_nat (x - (next + 1)))) by lia. cbn [pushes].
    rewrite unskipped_in by set_solver. rewrite (pushes_ext _ (unskipped skipped (es_src_log s))); [exact Hp|].
    intros q Hq. assert (q <> next) by lia.
    destruct (decide (q ∈ skipped)); [by rewrite !unskipped_in by set_solver|by rewrite !unskipped_out by set_solver].
Qed.

Lemma scanned_read next tail e r s s1 x s' skipped : log_entry s next = Some e -> entry_cache_ s !! next = None ->
  (exists d, slots s !! next = Some (Data d)) -> io_read next e r s s1 ->
  scanned (next + 1) tail (rv_steps (match e with AFTERIMAGE_ENTRY ai => [Push (ai_intention ai) next] | _ => [] end) r) s1 x s' skipped ->
  max_pos_ s1 <= max_pos_ s' -> scanned next tail r s x s' skipped.
Proof.
  intros He Hn Hd [_ El [Hm _] Hcache Hroom1 _] [Hx Hc Hl Hstop Hread Hsk Hroom Hp] Hmax.
  assert (next ∉ skipped) as Hns by (intros [? _]%Hsk; lia).
  assert (es_src_log s1 = es_src_log s) as Elog by (unfold es_src_log, slots; by rewrite El).
  assert (slots s1 = slots s) as Es by (unfold slots; by rewrite El). rewrite Es in Hstop.
  split; [lia|done|congruence|done| | | |].
  - intros q Hq Hqs. destruct (decide (q = next)) as [->|Hne]; [split; [done|lia]|]. rewrite <- Es. apply Hread; [lia|done].
  - intros q Hq. apply Hsk in Hq as [? Hq]. split; [lia|]. apply Hcache; [lia|done].
  - intros Hr q Hq Hin. destruct (decide (q = next)) as [->|Hne]; [rewrite Hn in Hin; by destruct Hin|].
    rewrite Hroom1 in Hroom by lia. rewrite size_insert_new in Hroom by done. apply Hroom; [lia|lia|].
    by rewrite lookup_insert_ne by done.
  - replace (Z.to_nat (x - next)) with (S (Z.to_nat (x - (next + 1)))) by lia. cbn [pushes].
    rewrite unskipped_out by done. rewrite Elog in Hp. unfold rv_steps in *. rewrite fold_left_app.
    assert (es_src_log s !! next = match e with AFTERIMAGE_ENTRY ai => Some ai | _ => None end) as ->; [|by destruct e].
    destruct (es_src_log s !! next) as [ai|] eqn:E.
    + apply es_src_log_entry in E. rewrite He in E. by injection E as ->.
    + destruct e as [i|ai|]; [done| |done]. apply es_src_log_entry in He. congruence.
Qed.

Lemma io_scan_spec n : forall fuel next r s, (n < fuel)%nat ->
  (forall q, next <= q < next + Z.of_nat n -> is_Some (log_entry s q)) -> coherent s -> matches r (ai_matcher s) ->
  wp (io_scan cache_size fuel next (next + Z.of_nat n)) (fun x s' => max_pos_ s <= max_pos_ s' /\
    exists skipped, scanned next (next + Z.of_nat n) r s x s' skipped) s.
Proof.
  induction n as [|n IH]; intros [|fuel] next r s Hf Hd Hc Hm; try lia; cbn [io_scan].
  { rewrite Z.add_0_r, Z.leb_refl. apply wp_ret. split; [lia|]. exists ∅. apply scanned_here; [lia|done|done|by left]. }
  rewrite (proj2 (Z.leb_gt _ _)) by lia. destruct (Hd next) as [e He]; [lia|].
  replace (next + Z.of_nat (S n)) with (next + 1 + Z.of_nat n) in * by lia.
  apply wp_bind. eapply wp_conseq; [by apply (io_position_spec next e r)|]. intros x s1 Hx.
  destruct (entry_cache_ s !! next) as [e'|] eqn:Hcache.
  { destruct Hx as [-> ->]. eapply wp_conseq; [apply (IH fuel (next + 1) r s); [lia| |done|done]|].
    - intros q Hq. apply Hd. lia.
    - intros x s2 [Hmax (sk & Hs2)]. split; [done|]. exists ({[next]} ∪ sk). apply scanned_cached; [by eexists|done]. }
  assert ((slots s !! next = Some Junk /\ x = IoBreak /\ s1 = s) \/
    (x = IoNext /\ (exists d, slots s !! next = Some (Data d)) /\ io_read next e r s s1)) as [(Hj & -> & ->)|(-> & Hdata & Hio)].
  { destruct (slots s !! next) as [[d|]|] eqn:E; [right|by left|right]; exact Hx. }
  - apply wp_ret. split; [lia|]. exists ∅. apply scanned_here; [lia|done|done|by right].
  - pose proof Hio as [Hc1 El [Hn1 Hmax1] _ _ Hm1]. eapply wp_conseq; [eapply (IH fuel (next + 1) _ s1); [lia| |exact Hc1|exact Hm1]|].
    + intros q Hq. unfold log_entry, slots in *. rewrite El. apply Hd. lia.
    + intros x s2 [Hmax (sk & Hs2)]. split; [lia|]. exists sk. by eapply scanned_read.
Qed.
End scanner.
