(* ===== verification/MemLog.v ===== *)
(** A log in memory and an encoding of the messages: instances of the
    interfaces of EntryService.v for the concrete runs. *)
From S2P Require Import Prelude Slice RBTree Node Proto PersistentTree Intention Matcher LruCache.
From S2P Require Import NodeCache NodeCacheSpec EntryService EntryServiceSpec.

(** ** The log: its slots, in order *)

Abbreviation MemLog := (list slot).

#[export] Instance mem_log : ZLog MemLog := {|
  zlog_read p g :=
    if p <? 0 then (- ENOENT, ""%string, g)
    else match g !! Z.to_nat p with
    | Some (Data d) => (0, d, g)
    | Some Junk => (- ENODATA, ""%string, g)
    | None => (- ENOENT, ""%string, g)
    end;
  zlog_append d g := (0, Z.of_nat (length g), g ++ [Data d]);
  zlog_fill p g := (0, if bool_decide (p = Z.of_nat (length g)) then g ++ [Junk] else g);
  zlog_check_tail g := (0, Z.of_nat (length g), g);
|}.

Lemma mem_log_lookup (g : MemLog) p : (map_seqZ 0 g : gmap Z slot) !! p = (if p <? 0 then None else g !! Z.to_nat p).
Proof.
  destruct (Z.ltb_spec p 0) as [Hp|Hp]; [apply lookup_map_seqZ_None; lia|].
  rewrite lookup_map_seqZ, option_guard_True by lia. by rewrite Z.sub_0_r.
Qed.

#[export] Program Instance mem_log_laws : ZLogLaws MemLog := {| zl_slots g := map_seqZ 0 g |}.
Next Obligation. intros p d g. rewrite mem_log_lookup. intros E. unfold zlog_read, mem_log.
  destruct (p <? 0); [done|].
  by rewrite E. Qed.
Next Obligation.
  intros p g. rewrite mem_log_lookup. intros E. unfold zlog_read, mem_log.
  destruct (p <? 0); [done|]. rewrite E. by eexists.
Qed.
Next Obligation.
  intros d g. eexists _, _. split; [reflexivity|]. split; [lia|]. split.
  - intros q. rewrite mem_log_lookup. destruct (Z.ltb_spec q 0); [by intros []|]. intros ?%lookup_lt_is_Some. lia.
  - rewrite map_seqZ_snoc. by f_equal.
Qed.
Next Obligation.
  intros g. eexists. split; [reflexivity|]. intros q. rewrite mem_log_lookup.
  destruct (Z.ltb_spec q 0); [by intros []|]. intros ?%lookup_lt_is_Some. lia.
Qed.

Lemma mem_log_slots (g g' : MemLog) : zl_slots g = zl_slots g' -> g = g'.
Proof.
  intros E. apply list_eq. intros n. apply (f_equal (.!! Z.of_nat n)) in E. unfold zl_slots, mem_log_laws in E.
  rewrite !mem_log_lookup in E. destruct (Z.ltb_spec (Z.of_nat n) 0); [lia|]. by rewrite Nat2Z.id in E.
Qed.

#[export] Instance mem_log_fill_laws : ZLogFillLaws MemLog.
Proof.
  split.
  - intros p g Hp. unfold zlog_read, mem_log, zl_slots, mem_log_laws. rewrite mem_log_lookup.
    destruct (Z.ltb_spec p 0); [lia|]. intros ->. by eexists.
  - intros p g Hp. unfold zl_slots, mem_log_laws. rewrite mem_log_lookup. destruct (Z.ltb_spec p 0); [lia|].
    intros Hn%lookup_ge_None Hat. assert (p = Z.of_nat (length g)) as ->.
    { destruct Hat as [[= ->]|(q & Hq & Hs)]; [done|]. rewrite mem_log_lookup in Hs.
      destruct (Z.ltb_spec q 0); [by destruct Hs|]. apply lookup_lt_is_Some in Hs. lia. }
    eexists. split; [unfold zlog_fill, mem_log; by rewrite bool_decide_eq_true_2|]. rewrite map_seqZ_snoc. by f_equal.
  - intros d g tail [= <-]. by eexists.
Qed.

(** ** The encoding *)

#[export] Instance ProtoNodePtr_eq_dec : EqDecision ProtoNodePtr. Proof. solve_decision. Defined.
#[export] Instance ProtoNodePtr_countable : Countable ProtoNodePtr.
Proof.
  refine (inj_countable' (fun p => (np_nil p, np_self p, np_intention p, np_afterimage p, np_off p))
    (fun '(a, b, c, d, e) => mkProtoNodePtr a b c d e) _). by intros [].
Defined.
#[export] Instance ProtoNode_eq_dec : EqDecision ProtoNode. Proof. solve_decision. Defined.
#[export] Instance ProtoNode_countable : Countable ProtoNode.
Proof.
  refine (inj_countable' (fun n => (pn_red n, pn_key n, pn_val n, pn_left n, pn_right n))
    (fun '(a, b, c, d, e) => mkProtoNode a b c d e) _). by intros [].
Defined.
#[export] Instance AfterImage_eq_dec : EqDecision AfterImage. Proof. solve_decision. Defined.
#[export] Instance AfterImage_countable : Countable AfterImage.
Proof. refine (inj_countable' (fun a => (ai_intention a, ai_tree a)) (fun '(a, b) => mkAfterImage a b) _). by intros []. Defined.
#[export] Instance OpType_countable : Countable OpType.
Proof.
  refine (inj_countable' (fun o => match o with GET => (true, true) | PUT => (true, false) | DELETE => (false, true) | COPY => (false, false) end)
    (fun '(a, b) => if (a : bool) then if (b : bool) then GET else PUT else if (b : bool) then DELETE else COPY) _). by intros [].
Defined.
#[export] Instance TransactionOp_eq_dec : EqDecision TransactionOp. Proof. solve_decision. Defined.
#[export] Instance TransactionOp_countable : Countable TransactionOp.
Proof. refine (inj_countable' (fun o => (op_op o, op_key o, op_val o)) (fun '(a, b, c) => mkTransactionOp a b c) _). by intros []. Defined.
#[export] Instance ProtoIntention_eq_dec : EqDecision ProtoIntention. Proof. solve_decision. Defined.
#[export] Instance ProtoIntention_countable : Countable ProtoIntention.
Proof.
  refine (inj_countable' (fun i => (pi_snapshot i, pi_token i, pi_flush i, pi_ops i))
    (fun '(a, b, c, d) => mkProtoIntention a b c d) _). by intros [].
Defined.
#[export] Instance EntryType_eq_dec : EqDecision EntryType. Proof. solve_decision. Defined.
#[export] Instance LogEntry_eq_dec : EqDecision LogEntry. Proof. solve_decision. Defined.
#[export] Instance LogEntry_countable : Countable LogEntry.
Proof.
  refine (inj_countable' (fun e => (match le_type e with INTENTION => true | AFTER_IMAGE => false end, le_intention e, le_after_image e))
    (fun '(a, b, c) => mkLogEntry (if (a : bool) then INTENTION else AFTER_IMAGE) b c) _). by intros [[] ? ?].
Defined.

Fixpoint bits (p : positive) : string :=
  match p with
  | xH => EmptyString
  | xO p => String "0" (bits p)
  | xI p => String "1" (bits p)
  end.
Fixpoint unbits (s : string) : positive :=
  match s with
  | EmptyString => xH
  | String c s => if Ascii.eqb c "0" then xO (unbits s) else xI (unbits s)
  end.

Lemma unbits_bits p : unbits (bits p) = p.
Proof. induction p as [p IH|p IH|]; simpl; [by rewrite IH|by rewrite IH|done]. Qed.

#[export] Instance mem_codec : ProtoCodec := {| pb_serialize e := bits (encode e); pb_parse s := decode (unbits s) |}.

#[export] Instance mem_codec_laws : ProtoLaws.
Proof. intros e. simpl. by rewrite unbits_bits, decode_encode. Qed.
