(* ===== verification/EntryServiceProps.v ===== *)
(** The properties of the entry service: reads agree with the log, appended
    intentions read back, the scanner feeds the matcher; and two states in which
    it does not do what it means to. *)
From S2P Require Import Prelude Slice RBTree Node Proto PersistentTree Intention Matcher LruCache.
From S2P Require Import NodeCache NodeCacheSpec EntryService EntryServiceSpec MemLog.

Section properties.
Context {G : Type} {ZG : ZLog G} {ZL : ZLogLaws G} {PC : ProtoCodec}.

(** Reading a position the scanner has passed returns exactly what the log
    holds there, whether or not it is cached, keeps the cache coherent with the
    log, and changes neither the log nor the matcher; the entry must not be
    below everything in a full cache. *)
Theorem read_returns_log cache_size fuel p e fill (s : EntryService G) :
  (0 < fuel)%nat -> coherent s -> log_entry s p = Some e -> p <= max_pos_ s -> fits cache_size p s ->
  wp (Read cache_size fuel p fill) (fun x s' => x = Some e /\ coherent s' /\ log_ s' = log_ s /\
    ai_matcher s' = ai_matcher s) s.
Proof.
  intros Hf Hc He Hp Hfit. eapply wp_conseq; [by apply Read_spec|]. by intros x s' (-> & ? & (? & _) & ? & _).
Qed.

(** C20: the collection of the entry cache can erase the entry that was just
    read. When the cache is full and the position is below everything in it,
    [Read] and [ReadAfterImage] dereference an erased iterator, although the log
    holds the entry. *)
Theorem read_below_full_cache_dangles cache_size fuel p e fill (s : EntryService G) :
  log_entry s p = Some e -> p <= max_pos_ s -> base.size (entry_cache_ s) = cache_size ->
  (forall q, is_Some (entry_cache_ s !! q) -> p < q) ->
  Read cache_size (S fuel) p fill s = AssertFail /\
  (forall ai, e = AFTERIMAGE_ENTRY ai -> ReadAfterImage cache_size (S fuel) p s = AssertFail).
Proof.
  intros He Hp Hfull Hlow.
  assert (entry_cache_ s !! p = None) as Hn.
  { destruct (entry_cache_ s !! p) eqn:E; [|done]. specialize (Hlow p ltac:(by eexists)). lia. }
  assert (forall e', emplace_and_get cache_size p e' s = AssertFail) as Hemp.
  { intros e'. unfold emplace_and_get, emplace, entry_cache_gc, deref, mbind, M_bind, modify. rewrite Hn. simpl.
    rewrite size_insert_new by done. rewrite (gc_cache_one _ _ _ p).
    - by rewrite lookup_delete_eq.
    - rewrite size_insert_new by done. by rewrite Hfull.
    - apply first_key_Some. split; [rewrite lookup_insert_eq; by eexists|].
      intros j [x [[<- _]|[_ Hj]]%lookup_insert_Some]; [lia|]. specialize (Hlow j ltac:(by eexists)). lia. }
  pose proof He as Hx. unfold log_entry in Hx. destruct (slots s !! p) as [x|] eqn:Hslot; [|done].
  assert (max_pos_ s <? p = false) as Hmax by (apply Z.ltb_ge; lia).
  assert (forall d, on_log (zlog_read p) s = Ok ((0, d), s) -> x = Data d -> parse_entry p d = Some e ->
    Read cache_size (S fuel) p fill s = AssertFail /\
    (forall ai, e = AFTERIMAGE_ENTRY ai -> ReadAfterImage cache_size (S fuel) p s = AssertFail)) as Hdata.
  { intros d Hd -> Hpe. split.
    - unfold Read, get, mbind, M_bind. rewrite Hn, Hmax. simpl. unfold mbind, M_bind. rewrite Hd. simpl.
      unfold parsed. rewrite Hpe. simpl. by rewrite Hemp.
    - intros ai ->. unfold ReadAfterImage, get, mbind, M_bind. rewrite Hn. simpl. unfold mbind, M_bind. rewrite Hd. simpl.
      unfold parsed. rewrite Hpe. simpl. by rewrite Hemp. }
  destruct x as [d|]; simpl in Hx.
  - apply (Hdata d); [|done..]. unfold on_log. rewrite (zlog_read_data _ _ _ Hslot). by destruct s.
  - injection Hx as <-. split; [|done]. destruct (zlog_read_junk _ _ Hslot) as [d Hd].
    assert (on_log (zlog_read p) s = Ok ((- ENODATA, d), s)) as Hr by (unfold on_log; rewrite Hd; by destruct s).
    unfold Read, get, mbind, M_bind. rewrite Hn, Hmax. simpl. unfold mbind, M_bind. rewrite Hr. simpl.
    by rewrite Hemp.
Qed.

Lemma append_blob_spec fuel d (s : EntryService G) : (0 < fuel)%nat ->
  wp (append_blob fuel d) (fun p s' => (forall q, is_Some (slots s !! q) -> q < p) /\
    slots s' = <[p := Data d]> (slots s) /\ entry_cache_ s' = entry_cache_ s /\ max_pos_ s' = max_pos_ s) s.
Proof.
  intros Hf. destruct fuel as [|fuel]; [lia|]. cbn [append_blob]. apply wp_bind.
  destruct (zlog_append_law d (log_ s)) as (p & g & Ha & _ & Hq & Hs). unfold wp at 1, on_log. rewrite Ha.
  by apply wp_ret.
Qed.

(** C18: an appended intention reads back: from the cache, and, after the caches
    are cleared, parsed from the log, it is the intention that was appended, with
    its flush flag and its position set; the position is past everything in the
    log. *)
Theorem append_reads_back `{!ProtoLaws} cache_size fuel i c (s : EntryService G) :
  (0 < fuel)%nat -> (base.size (entry_cache_ s) < cache_size)%nat -> coherent s ->
  unpositioned i = true -> uniform (pi_ops (intention_ i)) = Some c ->
  wp (pos ← AppendIntention cache_size fuel i;
      a ← Read cache_size fuel pos false;
      ClearCaches;;
      b ← Read cache_size fuel pos false;
      mret (pos, a, b))
    (fun '(pos, a, b) s' => a = Some (INTENTION_ENTRY (mkIntention (intention_ (set_flush c i)) (Some pos))) /\ b = a /\
      (forall q, is_Some (slots s !! q) -> q < pos)) s.
Proof.
  intros Hf Hsz Hc Hu Hun. unfold AppendIntention. apply wp_bind, wp_bind.
  unfold wp at 1. rewrite (Serialize_ok _ _ _ Hu Hun). apply wp_bind.
  eapply wp_conseq; [by apply append_blob_spec|]. intros pos s1 (Hfresh & Hs1 & Ec1 & Em1).
  apply wp_bind. unfold SetPosition. apply wp_bind, wp_assert; [done|]. apply wp_ret.
  apply wp_bind, wp_modify, wp_bind, wp_modify, wp_bind, wp_modify, wp_ret.
  assert (slots s !! pos = None) as Hnew.
  { destruct (slots s !! pos) eqn:E; [|done]. specialize (Hfresh pos ltac:(by eexists)). lia. }
  assert (entry_cache_ s !! pos = None) as Hcn.
  { destruct (entry_cache_ s !! pos) eqn:E; [|done]. apply Hc in E. unfold log_entry in E. by rewrite Hnew in E. }
  rewrite Ec1, Hcn. cbn [with_cache entry_cache_ with_max_pos]. rewrite gc_cache_small by (rewrite size_insert_new by done; lia).
  set (e := INTENTION_ENTRY _). set (s2 := with_max_pos _ _).
  assert (log_entry s2 pos = Some e) as He.
  { unfold log_entry. change (slots s2) with (slots s1). rewrite Hs1, lookup_insert_eq. simpl. unfold parse_entry.
    by rewrite pb_parse_serialize. }
  apply wp_bind. unfold Read at 1. apply wp_bind, wp_get. unfold s2 at 1. simpl. rewrite lookup_insert_eq. apply wp_ret.
  apply wp_bind, wp_modify, wp_bind. eapply wp_conseq.
  { apply (Read_spec cache_size fuel pos e); [done|intros q x Hq; simpl in Hq; by rewrite lookup_empty in Hq|exact He|simpl; lia|].
    left. simpl. rewrite map_size_empty. lia. }
  intros b s3 (-> & _). by apply wp_ret.
Qed.

(** C19: a round of the scanner, whatever is in the entry cache.  It starts at
    [next] and stops at the tail, or at the first filled position that is not in
    the cache.  In between it reads every position but those of a set, and every
    position of the set was in the cache when the round began; if the cache has
    room for all it may read, the set is exactly the cached positions.  The
    matcher gets the after images at the positions read, each once and in log
    order, and not those at the positions skipped; the positions read are at
    most [max_pos_], and the cache stays coherent with the log. *)
Theorem scanner_feeds_matcher cache_size fuel next tail r (s : EntryService G) :
  zlog_check_tail (log_ s) = (0, tail, log_ s) -> es_stop s = false -> next <= tail -> (Z.to_nat (tail - next) < fuel)%nat ->
  (forall q, next <= q < tail -> is_Some (log_entry s q)) -> coherent s -> matches r (ai_matcher s) ->
  wp (IOEntry_round cache_size fuel next) (fun o s' => exists x skipped, o = Some x /\
    next <= x <= tail /\ (x = tail \/ (slots s !! x = Some Junk /\ entry_cache_ s' !! x = None)) /\
    (forall q, next <= q < x -> q ∉ skipped -> (exists d, slots s !! q = Some (Data d)) /\ q <= max_pos_ s') /\
    (forall q, q ∈ skipped -> next <= q < x /\ is_Some (entry_cache_ s !! q)) /\
    ((base.size (entry_cache_ s) + Z.to_nat (tail - next) <= cache_size)%nat ->
      forall q, next <= q < x -> is_Some (entry_cache_ s !! q) -> q ∈ skipped) /\
    matches (rv_steps (pushes (unskipped skipped (es_src_log s)) next (Z.to_nat (x - next))) r) (ai_matcher s') /\
    coherent s' /\ log_ s' = log_ s) s.
Proof.
  intros Ht Hstop Hle Hf Hd Hc Hm. unfold IOEntry_round. apply wp_bind, wp_get. rewrite Hstop. apply wp_bind. unfold CheckTail.
  apply wp_bind. unfold wp at 1, on_log. rewrite Ht. replace (with_log (log_ s) s) with s by (by destruct s).
  apply wp_bind, wp_ret, wp_ret, wp_bind, wp_assert; [by apply Z.leb_le|]. destruct (Z.eqb_spec next tail) as [<-|Hne].
  - apply wp_ret. exists next, ∅. destruct (scanned_here cache_size next next r s Hle Hc Hm (or_introl eq_refl)). by split_and!.
  - apply wp_bind. destruct (Z_of_nat_complete (tail - next)) as [n Hn]; [lia|].
    assert (tail = next + Z.of_nat n) as -> by lia.
    eapply wp_conseq; [apply io_scan_spec; [lia|done|done|exact Hm]|]. intros x s' [_ (skipped & [])].
    apply wp_ret. exists x, skipped. split_and!; try done; lia.
Qed.

(** C21: the scanner never passes a filled position: at one, a round changes
    nothing and the next round starts at the same position, so nothing behind it
    is ever scanned. *)
Theorem scanner_stuck_on_filled cache_size fuel next (s : EntryService G) :
  slots s !! next = Some Junk -> entry_cache_ s !! next = None -> es_stop s = false ->
  IOEntry_round cache_size (S fuel) next s = Ok (Some next, s).
Proof.
  intros Hj Hn Hstop. destruct (zlog_tail_law (log_ s)) as (tail & Ht & Hlt).
  assert (next < tail) as Hnt by (apply Hlt; unfold slots in Hj; by eexists).
  assert (wp (IOEntry_round cache_size (S fuel) next) (fun x s' => x = Some next /\ s' = s) s) as Hwp.
  { unfold IOEntry_round. apply wp_bind, wp_get. rewrite Hstop. apply wp_bind. unfold CheckTail. apply wp_bind.
    unfold wp at 1, on_log. rewrite Ht. apply wp_bind, wp_ret, wp_ret, wp_bind, wp_assert; [apply Z.leb_le; lia|].
    rewrite (proj2 (Z.eqb_neq _ _)) by lia. apply wp_bind. cbn [io_scan]. rewrite (proj2 (Z.leb_gt _ _)) by lia.
    replace (with_log (log_ s) s) with s by (by destruct s).
    apply wp_bind. unfold io_position. apply wp_bind, wp_get. rewrite Hn. apply wp_bind, on_log_read_junk; [done|].
    intros d. by apply wp_ret. }
  apply wp_run in Hwp as (x & s' & -> & -> & ->). done.
Qed.
End properties.

(** ** Concrete runs *)

Definition demo_intention : ProtoIntention := mkProtoIntention 0 7 false [mkTransactionOp PUT "k" (Some "v")].
Definition demo_image (i : Z) : AfterImage := mkAfterImage i [].

(** An intention, a filled position, an intention and their after images. *)
Definition demo_log : MemLog :=
  [Data (pb_serialize (mkLogEntry INTENTION (Some demo_intention) None)); Junk;
   Data (pb_serialize (mkLogEntry INTENTION (Some demo_intention) None));
   Data (pb_serialize (mkLogEntry AFTER_IMAGE None (Some (demo_image 2))));
   Data (pb_serialize (mkLogEntry AFTER_IMAGE None (Some (demo_image 0))))].

Definition demo_service : EntryService MemLog := with_max_pos 4 (new_entry_service demo_log).

Lemma demo_coherent g : coherent (new_entry_service (G := MemLog) g).
Proof. intros p e Hp. unfold new_entry_service in Hp. simpl in Hp. by rewrite lookup_empty in Hp. Qed.

(** A cache of one entry, filled with position 4. *)
Definition demo_full : EntryService MemLog := with_cache {[4 := AFTERIMAGE_ENTRY (demo_image 0)]} demo_service.

Lemma read_returns_log_witness :
  wp (Read 8 3 3 false) (fun x s' => x = Some (AFTERIMAGE_ENTRY (demo_image 2)) /\ coherent s' /\
    log_ s' = log_ demo_service /\ ai_matcher s' = ai_matcher demo_service) demo_service.
Proof.
  apply (read_returns_log 8 3 3); [lia|apply (demo_coherent demo_log)|vm_compute; reflexivity|simpl; lia|].
  left. simpl. rewrite map_size_empty. lia.
Defined.

Lemma read_below_full_cache_dangles_witness :
  Read 1 3 3 false demo_full = AssertFail /\
  (forall ai, AFTERIMAGE_ENTRY (demo_image 2) = AFTERIMAGE_ENTRY ai -> ReadAfterImage 1 3 3 demo_full = AssertFail).
Proof.
  apply (read_below_full_cache_dangles 1 2 3 (AFTERIMAGE_ENTRY (demo_image 2)));
    [vm_compute; reflexivity|simpl; lia|reflexivity|].
  intros q [x Hq]. unfold demo_full in Hq. simpl in Hq. apply lookup_singleton_Some in Hq as [<- _]. lia.
Defined.

Lemma append_reads_back_witness :
  wp (pos ← AppendIntention 8 3 (mkIntention demo_intention None);
      a ← Read 8 3 pos false; ClearCaches;; b ← Read 8 3 pos false; mret (pos, a, b))
    (fun '(pos, a, b) s' =>
      a = Some (INTENTION_ENTRY (mkIntention (intention_ (set_flush false (mkIntention demo_intention None))) (Some pos))) /\
      b = a /\ (forall q, is_Some (slots demo_service !! q) -> q < pos)) demo_service.
Proof.
  apply (append_reads_back 8 3); [lia| |apply (demo_coherent demo_log)|reflexivity|reflexivity].
  simpl. rewrite map_size_empty. lia.
Defined.

(** A reader has cached the after image at 3, ahead of the scanner: the matcher
    never gets it. *)
Definition demo_ahead : EntryService MemLog := with_cache {[3 := AFTERIMAGE_ENTRY (demo_image 2)]} demo_service.

Lemma demo_ahead_coherent : coherent demo_ahead.
Proof. intros p e Hp. unfold demo_ahead in Hp. simpl in Hp. apply lookup_singleton_Some in Hp as [<- <-]. by vm_compute. Qed.

Lemma scanner_feeds_matcher_witness :
  wp (IOEntry_round 8 9 2) (fun o s' => o = Some 5 /\ matches (rv_steps [Push 0 4] (mkRendezvous ∅ ∅ [])) (ai_matcher s')) demo_ahead.
Proof.
  eapply wp_conseq.
  { apply (scanner_feeds_matcher 8 9 2 5 (mkRendezvous ∅ ∅ []) demo_ahead); [done|done|lia|simpl; lia| |exact demo_ahead_coherent|exact new_matches].
    intros q Hq. assert (q = 2 \/ q = 3 \/ q = 4) as [->|[->| ->]] by lia; eexists; vm_compute; reflexivity. }
  intros o s' (x & skipped & -> & Hx & Hstop & _ & Hsk & Hroom & Hp & _).
  assert (x = 5) as ->.
  { destruct Hstop as [?|[Hj _]]; [done|]. assert (x = 2 \/ x = 3 \/ x = 4 \/ x = 5) as [->|[->|[->| ->]]] by lia; done. }
  assert (skipped = {[3]}) as ->.
  { apply set_eq. intros q. rewrite elem_of_singleton. split.
    - intros [_ [e He]]%Hsk. unfold demo_ahead in He. simpl in He. by apply lookup_singleton_Some in He as [<- _].
    - intros ->. apply Hroom; [vm_compute; lia|lia|by eexists]. }
  split; [done|]. exact Hp.
Defined.

Lemma scanner_stuck_on_filled_witness :
  IOEntry_round 8 5 1 demo_service = Ok (Some 1, demo_service).
Proof. apply (scanner_stuck_on_filled 8 4 1); reflexivity. Defined.
