(* ===== verification/TxnFinder.v ===== *)
(** [TransactionFinder] of src/src/db/db_impl.h and db_impl.cc: the rendezvous
    of a committing client with the transaction processor, by token. *)
From S2P Require Import Prelude.

(** A [WaiterHandle] lives on its caller's stack; it is named here by a number.
    [h_token] stands for its iterator into [token_waiters_]. *)
Definition waiter_id : Type := Z.

Record Waiter : Type := mkWaiter {
  complete : bool;
  committed : bool;
  w_pos : option Z;
}.

Record Rendezvous : Type := mkRendezvous {
  waiters : list waiter_id;
  results : gmap Z bool;
}.

Record TransactionFinder : Type := mkFinder {
  token_waiters_ : gmap Z Rendezvous;
  handles : gmap waiter_id (Waiter * Z);
}.

Definition new_finder : TransactionFinder := mkFinder ∅ ∅.

Definition TFM : Type -> Type := M TransactionFinder.

Definition set_tokens (m : gmap Z Rendezvous) (f : TransactionFinder) : TransactionFinder := mkFinder m (handles f).

Definition get_handle (w : waiter_id) : TFM (Waiter * Z) := fun f =>
  match handles f !! w with Some h => Ok (h, f) | None => AssertFail end.

Definition set_waiter (w : waiter_id) (x : Waiter) (token : Z) : TFM unit :=
  modify (fun f => mkFinder (token_waiters_ f) (<[w := (x, token)]> (handles f))).

(** Dereferencing [token_it]: undefined once the entry is erased. *)
Definition token_entry (token : Z) : TFM Rendezvous := fun f =>
  match token_waiters_ f !! token with Some r => Ok (r, f) | None => AssertFail end.

Definition set_entry (token : Z) (r : Rendezvous) : TFM unit :=
  modify (fun f => set_tokens (<[token := r]> (token_waiters_ f)) f).

(** The handle is constructed by the caller, [WaiterHandle waiter;]. *)
Definition AddTokenWaiter (w : waiter_id) (token : Z) : TFM unit :=
  f ← get;
  set_entry token
    (match token_waiters_ f !! token with
     | None => mkRendezvous [w] ∅
     | Some r => mkRendezvous (waiters r ++ [w]) (results r)
     end);;
  set_waiter w (mkWaiter false false None) token.

(** The head of [WaitOnTransaction]. *)
Definition wait_enter (w : waiter_id) (intention_pos : Z) : TFM unit :=
  '(x, token) ← get_handle w;
  assert_that (bool_decide (w_pos x = None));;
  set_waiter w (mkWaiter (complete x) (committed x) (Some intention_pos)) token.

(** Its tail: the entry goes when nothing is associated with the token. *)
Definition wait_leave (token : Z) : TFM unit :=
  r ← token_entry token;
  if bool_decide (waiters r = []) && bool_decide (results r = ∅) then
    modify (fun f => set_tokens (delete token (token_waiters_ f)) f)
  else mret tt.

(** One round of its loop: [None] when it goes back to wait. *)
Definition wait_check (w : waiter_id) (intention_pos : Z) : TFM (option bool) :=
  '(x, token) ← get_handle w;
  if complete x then wait_leave token;; mret (Some (committed x))
  else
    r ← token_entry token;
    match results r !! intention_pos with
    | Some c =>
      set_entry token (mkRendezvous (filter (fun v => v <> w) (waiters r)) (delete intention_pos (results r)));;
      wait_leave token;;
      mret (Some c)
    | None => mret None
    end.

Definition Notify (token : Z) (intention_pos : Z) (c : bool) : TFM unit :=
  f ← get;
  match token_waiters_ f !! u64 token with
  | None => mret tt
  | Some tx =>
    match waiters tx with
    | [] => fail
    | fw :: rest =>
      '(x, t) ← get_handle fw;
      if decide (w_pos x = Some intention_pos) then
        set_entry (u64 token) (mkRendezvous rest (results tx));;
        set_waiter fw (mkWaiter true c (w_pos x)) t
      else
        assert_that (bool_decide (results tx !! intention_pos = None));;
        set_entry (u64 token) (mkRendezvous (waiters tx) (<[intention_pos := c]> (results tx)))
    end
  end.

(** ** Specification: what each client has been told *)

Record client : Type := mkClient {
  cl_token : Z;
  cl_pos : Z;              (* the position its intention gets *)
  cl_entered : bool;       (* it waits *)
  cl_fast : bool;          (* it was decided while it waited *)
  cl_decided : option bool;
}.

Inductive tf_event : Type :=
| EvAdd (w : waiter_id) (token pos : Z)
| EvEnter (w : waiter_id)
| EvNotify (w : waiter_id) (c : bool)
| EvForeign (token pos : Z) (c : bool)
| EvCheck (w : waiter_id).

Abbreviation clients := (gmap waiter_id client).

(** Each client has a token of its own; a decision is taken once; a token no
    client of this instance uses may be notified at any time. *)
Definition tf_allowed (s : clients) (e : tf_event) : Prop :=
  match e with
  | EvAdd w t p => s !! w = None /\ 0 <= t < 2 ^ 64 /\ forall v x, s !! v = Some x -> cl_token x <> t
  | EvEnter w => exists x, s !! w = Some x /\ cl_entered x = false
  | EvNotify w c => exists x, s !! w = Some x /\ cl_decided x = None
  | EvForeign t p c => 0 <= t < 2 ^ 64 /\ forall v x, s !! v = Some x -> cl_token x <> t
  | EvCheck w => exists x, s !! w = Some x /\ cl_entered x = true
  end.

(** The clients after an event, and what a check tells its caller: the decision,
    once there is one, after which the client is gone. *)
Definition tf_spec (s : clients) (e : tf_event) : clients * option (option bool) :=
  match e with
  | EvAdd w t p => (<[w := mkClient t p false false None]> s, None)
  | EvEnter w => (alter (fun x => mkClient (cl_token x) (cl_pos x) true (cl_fast x) (cl_decided x)) w s, None)
  | EvNotify w c => (alter (fun x => mkClient (cl_token x) (cl_pos x) (cl_entered x) (cl_entered x) (Some c)) w s, None)
  | EvForeign _ _ _ => (s, None)
  | EvCheck w =>
    match s !! w with
    | Some x => (match cl_decided x with Some _ => delete w s | None => s end, Some (cl_decided x))
    | None => (s, None)
    end
  end.

Definition tf_do (s : clients) (e : tf_event) : TFM (option (option bool)) :=
  match e with
  | EvAdd w t _ => AddTokenWaiter w t;; mret None
  | EvEnter w => match s !! w with Some x => wait_enter w (cl_pos x);; mret None | None => fail end
  | EvNotify w c => match s !! w with Some x => Notify (cl_token x) (cl_pos x) c;; mret None | None => fail end
  | EvForeign t p c => Notify t p c;; mret None
  | EvCheck w => match s !! w with Some x => o ← wait_check w (cl_pos x); mret (Some o) | None => fail end
  end.

Fixpoint tf_run (s : clients) (es : list tf_event) : TFM (list (option (option bool))) :=
  match es with
  | [] => mret []
  | e :: es => o ← tf_do s e; out ← tf_run (fst (tf_spec s e)) es; mret (o :: out)
  end.

Fixpoint tf_spec_run (s : clients) (es : list tf_event) : list (option (option bool)) :=
  match es with [] => [] | e :: es => snd (tf_spec s e) :: tf_spec_run (fst (tf_spec s e)) es end.

Fixpoint tf_allowed_all (s : clients) (es : list tf_event) : Prop :=
  match es with [] => True | e :: es => tf_allowed s e /\ tf_allowed_all (fst (tf_spec s e)) es end.

(** The entry and the waiter of a client. *)
Definition client_entry (w : waiter_id) (x : client) : Rendezvous :=
  match cl_decided x, cl_fast x with
  | None, _ => mkRendezvous [w] ∅
  | Some _, true => mkRendezvous [] ∅
  | Some c, false => mkRendezvous [w] {[cl_pos x := c]}
  end.
Definition client_waiter (x : client) (v : Waiter) : Prop :=
  complete v = (match cl_decided x with Some _ => cl_fast x | None => false end) /\
  w_pos v = (if cl_entered x then Some (cl_pos x) else None) /\
  (cl_fast x = true -> cl_decided x = Some (committed v)).

Record tf_ok (s : clients) (f : TransactionFinder) : Prop := {
  tf_client w x : s !! w = Some x -> 0 <= cl_token x < 2 ^ 64 /\ token_waiters_ f !! cl_token x = Some (client_entry w x) /\
    exists v, handles f !! w = Some (v, cl_token x) /\ client_waiter x v;
  tf_tokens t r : token_waiters_ f !! t = Some r -> exists w x, s !! w = Some x /\ cl_token x = t;
  tf_inj w w' x x' : s !! w = Some x -> s !! w' = Some x' -> cl_token x = cl_token x' -> w = w';
}.

(** An update of one client, its entry and its waiter. *)
Lemma tf_ok_update s f w x y v :
  tf_ok s f -> s !! w = Some x -> cl_token y = cl_token x -> client_waiter y v ->
  tf_ok (<[w := y]> s)
    (mkFinder (<[cl_token x := client_entry w y]> (token_waiters_ f)) (<[w := (v, cl_token x)]> (handles f))).
Proof.
  intros [Hc Ht Hi] Hx Et Hv. split; simpl.
  - intros w' x' [[<- <-]|[Hne Hx']]%lookup_insert_Some.
    + rewrite Et. split_and!; [by apply (Hc w x)|by apply (Hc w x)|by rewrite lookup_insert_eq|].
      exists v. split; [by rewrite lookup_insert_eq|done].
    + destruct (Hc w' x' Hx') as (? & He & v' & Hv' & ?).
      assert (cl_token x' <> cl_token x) by (intros E; by apply Hne, (Hi w w' x x')).
      split_and!; [lia|lia|by rewrite lookup_insert_ne|]. exists v'. by rewrite lookup_insert_ne.
  - intros t r [[<- <-]|[Hne Hr]]%lookup_insert_Some.
    + exists w, y. split; [by rewrite lookup_insert_eq|done].
    + destruct (Ht t r Hr) as (w' & x' & Hx' & E). exists w', x'. split; [|done].
      rewrite lookup_insert_ne; [done|]. intros ->. congruence.
  - assert (forall v x', <[w := y]> s !! v = Some x' -> exists x0, s !! v = Some x0 /\ cl_token x0 = cl_token x') as Hold.
    { intros u x' [[<- <-]|[_ H]]%lookup_insert_Some; eauto. }
    intros w1 w2 x1 x2 (y1 & H1 & E1)%Hold (y2 & H2 & E2)%Hold E. eapply (Hi w1 w2 y1 y2); congruence.
Qed.

Lemma tf_ok_delete s f w x : tf_ok s f -> s !! w = Some x ->
  tf_ok (delete w s) (mkFinder (delete (cl_token x) (token_waiters_ f)) (handles f)).
Proof.
  intros [Hc Ht Hi] Hx. split; simpl.
  - intros w' x' [Hne Hx']%lookup_delete_Some. destruct (Hc w' x' Hx') as (? & He & ?).
    split_and!; [lia|lia| |done]. rewrite lookup_delete_ne; [done|]. intros E. by apply Hne, (Hi w w' x x').
  - intros t r [Hne Hr]%lookup_delete_Some. destruct (Ht t r Hr) as (w' & x' & Hx' & E). exists w', x'.
    split; [|done]. rewrite lookup_delete_ne; [done|]. intros ->. congruence.
  - intros w1 w2 x1 x2 [_ H1]%lookup_delete_Some [_ H2]%lookup_delete_Some. by apply Hi.
Qed.

Lemma handle_eq f w h : handles f !! w = Some h -> get_handle w f = Ok (h, f).
Proof. intros Hh. unfold get_handle. by rewrite Hh. Qed.
Lemma entry_eq f t r : token_waiters_ f !! t = Some r -> token_entry t f = Ok (r, f).
Proof. intros Hh. unfold token_entry. by rewrite Hh. Qed.

(** The entry of a token with nothing left is erased. *)
Lemma wait_leave_eq t f : token_waiters_ f !! t = Some (mkRendezvous [] ∅) ->
  wait_leave t f = Ok (tt, mkFinder (delete t (token_waiters_ f)) (handles f)).
Proof.
  intros He. unfold wait_leave, mbind, M_bind. rewrite (entry_eq _ _ _ He). simpl.
  by rewrite !bool_decide_true.
Qed.

Lemma tf_do_spec s f e : tf_ok s f -> tf_allowed s e ->
  wp (tf_do s e) (fun o f' => o = snd (tf_spec s e) /\ tf_ok (fst (tf_spec s e)) f') f.
Proof.
  intros Hok Ha. pose proof Hok as [Hc Ht Hi]. destruct e as [w t p|w|w c|t p c|w]; simpl in *.
  - destruct Ha as (Hn & Htr & Hnew).
    assert (token_waiters_ f !! t = None) as He.
    { destruct (token_waiters_ f !! t) eqn:E; [|done]. destruct (Ht _ _ E) as (w' & x' & Hx' & Et). by destruct (Hnew w' x' Hx'). }
    apply wp_bind. unfold AddTokenWaiter. apply wp_bind, wp_get. rewrite He. apply wp_bind, wp_modify, wp_modify, wp_ret.
    split; [done|]. split; simpl.
    + intros w' x' [[<- <-]|[Hne Hx']]%lookup_insert_Some.
      * simpl. rewrite !lookup_insert_eq. split_and!; [lia|lia|done|]. eexists. by split.
      * destruct (Hc w' x' Hx') as (? & He' & v' & Hv' & ?). specialize (Hnew w' x' Hx').
        rewrite !lookup_insert_ne by congruence. split_and!; [lia|lia|done|]. by exists v'.
    + intros t' r [[<- <-]|[Hne Hr]]%lookup_insert_Some.
      * exists w. eexists. split; [by rewrite lookup_insert_eq|done].
      * destruct (Ht _ _ Hr) as (w' & x' & Hx' & Et). exists w', x'. split; [|done].
        rewrite lookup_insert_ne; [done|]. intros ->. congruence.
    + intros w1 w2 x1 x2 [[<- <-]|[_ H1]]%lookup_insert_Some [[<- <-]|[_ H2]]%lookup_insert_Some E; simpl in *.
      * done.
      * exfalso. by apply (Hnew w2 x2 H2).
      * exfalso. by apply (Hnew w1 x1 H1).
      * by apply (Hi w1 w2 x1 x2).
  - destruct Ha as (x & Hx & Hent). destruct (Hc w x Hx) as (_ & He & v & Hv & (Hv1 & Hv2 & Hv3)). rewrite Hx.
    apply wp_bind. unfold wait_enter. apply wp_bind. unfold wp at 1. rewrite (handle_eq _ _ _ Hv).
    apply wp_bind, wp_assert; [by apply bool_decide_eq_true; rewrite Hv2, Hent|]. apply wp_modify, wp_ret. split; [done|].
    set (y := mkClient (cl_token x) (cl_pos x) true (cl_fast x) (cl_decided x)).
    pose proof (tf_ok_update s f w x y (mkWaiter (complete v) (committed v) (Some (cl_pos x))) Hok Hx eq_refl) as Hu.
    rewrite (insert_id (token_waiters_ f)) in Hu by (by rewrite He).
    replace (alter _ w s) with (<[w := y]> s); [apply Hu; done|].
    apply map_eq. intros j. destruct (decide (j = w)) as [->|]; [by rewrite lookup_insert_eq, lookup_alter_eq, Hx|].
    by rewrite lookup_insert_ne, lookup_alter_ne.
  - destruct Ha as (x & Hx & Hdec). destruct (Hc w x Hx) as (Htr & He & v & Hv & (Hv1 & Hv2 & Hv3)). rewrite Hx.
    apply wp_bind. unfold Notify. apply wp_bind, wp_get. unfold u64. rewrite Z.mod_small by lia. rewrite He.
    unfold client_entry. rewrite Hdec. simpl. apply wp_bind. unfold wp at 1. rewrite (handle_eq _ _ _ Hv).
    set (y := mkClient (cl_token x) (cl_pos x) (cl_entered x) (cl_entered x) (Some c)).
    replace (alter _ w s) with (<[w := y]> s).
    2: { apply map_eq. intros j. destruct (decide (j = w)) as [->|]; [by rewrite lookup_insert_eq, lookup_alter_eq, Hx|].
      by rewrite lookup_insert_ne, lookup_alter_ne. }
    destruct (cl_entered x) eqn:Hent; rewrite Hv2.
    + rewrite decide_True by done. apply wp_bind, wp_modify, wp_modify, wp_ret. split; [done|].
      apply (tf_ok_update s f w x y); try done.
    + rewrite decide_False by done. apply wp_bind, wp_assert; [done|]. apply wp_modify, wp_ret. split; [done|].
      pose proof (tf_ok_update s f w x y v Hok Hx eq_refl) as Hu.
      rewrite (insert_id (handles f)) in Hu by done. apply Hu. split_and!; simpl; [by rewrite Hv1, Hdec|done|done].
  - destruct Ha as (Htr & Hnew). apply wp_bind. unfold Notify. apply wp_bind, wp_get. unfold u64. rewrite Z.mod_small by lia.
    destruct (token_waiters_ f !! t) eqn:E; [|by apply wp_ret].
    destruct (Ht _ _ E) as (w' & x' & Hx' & Et). by destruct (Hnew w' x' Hx').
  - destruct Ha as (x & Hx & Hent). destruct (Hc w x Hx) as (Htr & He & v & Hv & (Hv1 & Hv2 & Hv3)). rewrite Hx.
    apply wp_bind. unfold wait_check. apply wp_bind. unfold wp at 1. rewrite (handle_eq _ _ _ Hv). rewrite Hv1.
    unfold client_entry in He. destruct (cl_decided x) as [c|] eqn:Hdec; [destruct (cl_fast x) eqn:Hfast|].
    + apply wp_bind. unfold wp at 1. rewrite (wait_leave_eq _ _ He). apply wp_ret, wp_ret. simpl.
      split; [do 2 f_equal; specialize (Hv3 eq_refl); congruence|]. by apply tf_ok_delete.
    + apply wp_bind. unfold wp at 1. rewrite (entry_eq _ _ _ He). simpl. rewrite lookup_singleton_eq.
      apply wp_bind, wp_modify, wp_bind. unfold wp at 1. rewrite wait_leave_eq.
      2: { simpl. rewrite lookup_insert_eq, delete_singleton_eq, (filter_cons_False (λ v, v ≠ w) w) by (by intros H). done. }
      apply wp_ret, wp_ret. split; [done|]. simpl. rewrite delete_insert_eq. by apply tf_ok_delete.
    + apply wp_bind. unfold wp at 1. rewrite (entry_eq _ _ _ He). simpl. rewrite lookup_empty. apply wp_ret, wp_ret.
      by split.
Qed.

Lemma tf_run_spec es : forall s f, tf_ok s f -> tf_allowed_all s es ->
  wp (tf_run s es) (fun out _ => out = tf_spec_run s es) f.
Proof.
  induction es as [|e es IH]; intros s f Hok Ha; [done|]. destruct Ha as [Ha Hes]. cbn [tf_run tf_spec_run].
  apply wp_bind. eapply wp_conseq; [by apply tf_do_spec|]. intros o f1 (-> & Hok1).
  apply wp_bind. eapply wp_conseq; [by apply IH|]. intros out f2 ->. by apply wp_ret.
Qed.

(** ** Properties *)

(** C22: committing clients learn the decision on their own intention: in every
    interleaving of registering, waiting, decisions and wake-ups, a check returns
    nothing before the decision and the decision itself after it, whether it was
    taken before or after the client began to wait; no assertion fails and no
    erased entry is used, as long as clients have tokens of their own. *)
Theorem clients_learn_their_decision es :
  tf_allowed_all ∅ es -> wp (tf_run ∅ es) (fun out _ => out = tf_spec_run ∅ es) new_finder.
Proof.
  intros Ha. apply tf_run_spec; [|done]. split.
  - intros w x Hx. by rewrite lookup_empty in Hx.
  - intros t r Hr. change ((∅ : gmap Z Rendezvous) !! t = Some r) in Hr. by rewrite lookup_empty in Hr.
  - intros w w' x x' Hx. by rewrite lookup_empty in Hx.
Qed.

(** C23: with a token in common, which the lists of waiters are there for, two
    clients can be decided while they wait; the first to wake erases the entry of
    the token and the second follows its iterator into the erased entry. *)
Theorem shared_token_dangles t p q c d : 0 <= t < 2 ^ 64 -> p <> q ->
  (AddTokenWaiter 1 t;; AddTokenWaiter 2 t;; wait_enter 1 p;; wait_enter 2 q;;
   Notify t p c;; Notify t q d;; wait_check 1 p;; wait_check 2 q) new_finder = AssertFail.
Proof.
  intros Ht Hpq.
  assert (u64 t = t) as Hu by (unfold u64; by rewrite Z.mod_small).
  unfold new_finder, AddTokenWaiter, wait_enter, Notify, wait_check, wait_leave, set_entry, set_waiter, token_entry,
    get_handle, modify, get, assert_that, mbind, M_bind, mret, M_ret. rewrite Hu.
  repeat first [progress simpl | rewrite lookup_empty | rewrite lookup_insert_eq | rewrite lookup_insert_ne by done
    | rewrite insert_insert_eq | rewrite decide_True by done | rewrite lookup_delete_eq | rewrite bool_decide_true by done].
  done.
Qed.

Lemma clients_learn_their_decision_witness :
  let es := [EvAdd 1 10 5; EvAdd 2 11 6; EvEnter 1; EvCheck 1; EvForeign 9 4 true; EvNotify 1 true; EvNotify 2 false;
             EvCheck 1; EvEnter 2; EvCheck 2] in
  wp (tf_run ∅ es) (fun out _ => out = tf_spec_run ∅ es) new_finder /\
  tf_spec_run ∅ es = [None; None; None; Some None; None; None; None; Some (Some true); None; Some (Some false)].
Proof.
  intros es. split; [|by vm_compute]. apply clients_learn_their_decision. subst es. cbn [tf_allowed_all].
  repeat match goal with |- context [fst (tf_spec ?s ?e)] => let t := eval vm_compute in (fst (tf_spec s e)) in change (fst (tf_spec s e)) with t end.
  cbn [tf_allowed]. split_and!; try done; try lia; try by eexists.
  all: match goal with |- forall v x, ?s !! v = Some x -> cl_token x <> ?t =>
    change (map_Forall (fun _ x => cl_token x <> t) s); apply (bool_decide_unpack _); by vm_compute end.
Defined.

Lemma shared_token_dangles_witness :
  (AddTokenWaiter 1 7;; AddTokenWaiter 2 7;; wait_enter 1 5;; wait_enter 2 6;;
   Notify 7 5 true;; Notify 7 6 true;; wait_check 1 5;; wait_check 2 6) new_finder = AssertFail.
Proof. by apply (shared_token_dangles 7 5 6 true true). Defined.
