(* ===== verification/CommitIndex.v ===== *)
(** The small tables of the transaction processor, of src/src/db/db_impl.h and
    db_impl.cc: the positions of committed intentions, in memory and as keys of
    the tree, and the trees of finished transactions. *)
From S2P Require Import Prelude Slice RBTree Node Proto PersistentTree.

(** ** [CommittedIntentionIndex]: a [std::set] of positions *)

Definition limit_ : nat := 1000.

Definition CommittedIntentionIndex : Type := gset Z.

(** The elements of a [std::set], in iteration order. *)
Definition in_order (index : gset Z) : list Z := merge_sort Z.le (base.elements index).

Definition push (pos : Z) : M (gset Z) unit :=
  index ← get;
  assert_that (bool_decide (pos ∉ index));;
  let index := {[pos]} ∪ index in
  assert_that (bool_decide (set_Forall (fun p => p <= pos) index));;
  put (if (limit_ <? base.size index)%nat then
         match in_order index with x :: _ => index ∖ {[x]} | [] => index end
       else index).

(** The [std::next(it)] of the code has no effect: its result is not used. *)
Definition range (first last : Z) (index : gset Z) : res (list Z * bool) :=
  if first <? last then
    if bool_decide (index = ∅) then Ok ([last], false)
    else
      match filter (fun p => first <= p) (in_order index) with
      | [] => AssertFail
      | x :: l =>
        let complete := x =? first in
        if bool_decide (last ∈ index) then Ok (filter (fun p => p <= last) (x :: l), complete) else AssertFail
      end
  else AssertFail.

(** ** [FinishedTransactions]: an [unordered_map] of owned trees *)

Definition FinishedTransactions : Type := gmap Z (option PersistentTree).

(** The tree is moved out; its entry stays, with a null pointer. *)
Definition Find (ipos : Z) : M (gmap Z (option PersistentTree)) (option PersistentTree) := fun txns_ =>
  match txns_ !! ipos with
  | Some tree => Ok (tree, <[ipos := None]> txns_)
  | None => Ok (None, txns_)
  end.

Lemma Find_empty ipos : Find ipos ∅ = Ok (None, ∅).
Proof. unfold Find. by rewrite lookup_empty. Qed.
Lemma Find_inserted ipos o txns_ : Find ipos (<[ipos := o]> txns_) = Ok (o, <[ipos := None]> (<[ipos := o]> txns_)).
Proof. unfold Find. by rewrite lookup_insert_eq. Qed.
Lemma taken_elsewhere ipos o q (txns_ : gmap Z (option PersistentTree)) : q <> ipos -> txns_ !! q = None ->
  <[ipos := None]> (<[ipos := o]> txns_) !! q = None.
Proof. intros Hq Hn. by rewrite !lookup_insert_ne. Qed.

Definition Insert (ipos : Z) (tree : PersistentTree) : M (gmap Z (option PersistentTree)) unit := fun txns_ =>
  match txns_ !! ipos with
  | Some _ => AssertFail
  | None => Ok (tt, <[ipos := Some tree]> txns_)
  end.

Definition Clean (last_ipos : Z) : M (gmap Z (option PersistentTree)) unit :=
  modify (filter (fun kv => ~ kv.1 <= last_ipos)).

(** ** The keys of committed intentions

    [std::setw(20) << std::setfill('0')] on a [uint64_t], which has at most
    twenty decimal digits. *)

Definition digit (d : Z) : ascii := ascii_of_nat (48 + Z.to_nat d).

Fixpoint decimal (n : nat) (pos : Z) : string :=
  match n with
  | O => ""
  | S n => String (digit (pos / 10 ^ Z.of_nat n)) (decimal n (pos mod 10 ^ Z.of_nat n))
  end.

Definition ci_key (pos : Z) : string := decimal 20 pos.

(** [boost::lexical_cast<uint64_t>]; [None] when it throws. *)
Class LexicalCast : Type := lexical_cast : string -> option Z.

(** The number a string of decimal digits stands for, [acc] being what its
    digits to the left stand for; none if another character comes. *)
Fixpoint digits_value (acc : Z) (s : string) : option Z :=
  match s with
  | EmptyString => Some acc
  | String c s =>
    let d := Z.of_nat (nat_of_ascii c) - 48 in
    if (0 <=? d) && (d <? 10) then digits_value (10 * acc + d) s else None
  end.

(** The cast takes a number in decimal notation, leading zeros allowed, if the
    type can hold it. *)
Class LexicalCastLaws `{LexicalCast} : Prop :=
  lexical_cast_digits s z : s <> EmptyString -> digits_value 0 s = Some z -> z < 2 ^ 64 -> lexical_cast s = Some z.

(** ** Lemmas *)

Lemma in_order_list l : StronglySorted Z.lt l -> in_order (list_to_set l) = l.
Proof.
  intros Hs. assert (NoDup l) as Hn.
  { clear -Hs. induction Hs as [|x l Hs IH HF]; constructor; [|done]. intros Hx. rewrite Forall_forall in HF.
    specialize (HF x Hx). lia. }
  apply (StronglySorted_unique Z.le).
  - apply StronglySorted_merge_sort; [intros ???; lia|intros ??; lia].
  - clear Hn. induction Hs as [|x l Hs IH HF]; constructor; [done|]. eapply Forall_impl; [exact HF|]. simpl. lia.
  - unfold in_order. rewrite merge_sort_Permutation. by apply elements_list_to_set.
Qed.

Lemma sorted_snoc l p : StronglySorted Z.lt l -> Forall (fun x => x < p) l -> StronglySorted Z.lt (l ++ [p]).
Proof.
  induction 1 as [|x l Hs IH HF]; simpl; [repeat constructor|]. intros [? ?]%Forall_cons.
  constructor; [by apply IH|]. apply Forall_app. split; [done|]. by constructor.
Qed.

Lemma size_list l : StronglySorted Z.lt l -> base.size (list_to_set l : gset Z) = length l.
Proof.
  intros Hs. apply size_list_to_set. induction Hs as [|x l Hs IH HF]; constructor; [|done].
  intros Hx. rewrite Forall_forall in HF. specialize (HF x Hx). lia.
Qed.

(** The last [limit_] positions. *)
Definition window (l : list Z) : list Z := drop (length l - limit_) l.

Lemma sorted_drop n l : StronglySorted Z.lt l -> StronglySorted Z.lt (drop n l).
Proof. revert n. induction l as [|x l IH]; intros [|n] Hs; simpl; try done. apply IH. by apply StronglySorted_inv in Hs as [? _]. Qed.

Lemma index_push_spec l p : StronglySorted Z.lt (l ++ [p]) -> (length l <= limit_)%nat ->
  push p (list_to_set l) = Ok (tt, list_to_set (if (length l <? limit_)%nat then l ++ [p] else tail l ++ [p])).
Proof.
  intros Hs Hl. pose proof Hs as Hs0.
  assert (forall x, x ∈ l -> x < p) as Hlt.
  { clear Hl Hs0. induction l as [|y l IH]; [set_solver|]. simpl in Hs. apply StronglySorted_inv in Hs as [Hs HF].
    intros x [->|Hx]%elem_of_cons; [|by apply IH]. rewrite Forall_forall in HF. apply HF. set_solver. }
  unfold push, mbind, M_bind, get, assert_that, put.
  rewrite bool_decide_true by (rewrite elem_of_list_to_set; intros ?%Hlt; lia).
  rewrite bool_decide_true.
  2: { intros x. rewrite elem_of_union, elem_of_singleton, elem_of_list_to_set. intros [->|?%Hlt]; lia. }
  assert ({[p]} ∪ list_to_set l =@{gset Z} list_to_set (l ++ [p])) as -> by set_solver.
  rewrite size_list, in_order_list, length_app by done. simpl.
  destruct (Nat.ltb_spec limit_ (length l + 1)), (Nat.ltb_spec (length l) limit_); try lia; [|done].
  destruct l as [|y l]; [simpl in *; unfold limit_ in *; lia|]. simpl in *.
  do 2 f_equal. apply StronglySorted_inv in Hs0 as [_ HF]. rewrite Forall_forall in HF.
  apply set_eq. intros x. rewrite elem_of_difference, elem_of_union, !elem_of_list_to_set, elem_of_singleton.
  split; [intros [[?|?] ?]; [lia|done]|]. intros Hx. split; [by right|]. specialize (HF x Hx). lia.
Qed.

Fixpoint push_all (l : list Z) : M (gset Z) unit :=
  match l with [] => mret tt | p :: l => push p;; push_all l end.

Lemma push_all_spec l : forall w, StronglySorted Z.lt (w ++ l) -> (length w <= limit_)%nat ->
  push_all l (list_to_set w) = Ok (tt, list_to_set (window (w ++ l))).
Proof.
  induction l as [|p l IH]; intros w Hs Hw; cbn [push_all].
  - rewrite app_nil_r. unfold window. by replace (length w - limit_)%nat with 0%nat by lia.
  - unfold mbind, M_bind. replace (w ++ p :: l) with ((w ++ [p]) ++ l) in * by (by rewrite <- app_assoc).
    assert (StronglySorted Z.lt (w ++ [p])) as Hs1.
    { clear -Hs. revert Hs. generalize (w ++ [p]). intros w'. induction w' as [|x w' IH]; [constructor|]. simpl.
      intros [? HF]%StronglySorted_inv. constructor; [by apply IH|]. by apply Forall_app in HF as [? _]. }
    rewrite index_push_spec by done. destruct (Nat.ltb_spec (length w) limit_).
    + rewrite IH; [done|done|]. rewrite length_app. simpl. lia.
    + destruct w as [|x w]; [simpl in *; unfold limit_ in *; lia|]. simpl tail.
      rewrite IH; [|by apply StronglySorted_inv in Hs as [? _]|rewrite length_app in *; simpl in *; lia].
      f_equal. f_equal. f_equal. unfold window. cbn [length app] in *. rewrite !length_app. cbn [length app] in *.
      replace (S (length w + 1 + length l) - limit_)%nat with (S (length w + 1 + length l - limit_))%nat by lia. done.
Qed.

Lemma push_window p w : StronglySorted Z.lt (w ++ [p]) -> (length w <= limit_)%nat ->
  push p (list_to_set w) = Ok (tt, list_to_set (window (w ++ [p]))).
Proof.
  intros Hs Hw. pose proof (push_all_spec [p] w Hs Hw) as H. cbn [push_all] in H. unfold mbind, M_bind in H.
  by destruct (push p (list_to_set w)) as [[[] index]| |].
Qed.

Lemma range_spec w first last : StronglySorted Z.lt w -> first < last -> last ∈ w ->
  range first last (list_to_set w) = Ok (filter (fun p => first <= p <= last) w, bool_decide (first ∈ w)).
Proof.
  intros Hs Hlt Hin. unfold range. rewrite (proj2 (Z.ltb_lt _ _)) by done.
  rewrite bool_decide_false by set_solver. rewrite in_order_list by done.
  assert (forall l : list Z, filter (fun p => p <= last) (filter (fun p => first <= p) l) = filter (fun p => first <= p <= last) l) as Hff.
  { intros l. rewrite list_filter_filter. apply list_filter_iff. intros x. lia. }
  rewrite (bool_decide_true (last ∈ _)) by set_solver.
  destruct (filter (fun p => first <= p) w) as [|x l] eqn:Ef.
  - assert (last ∈ filter (fun p => first <= p) w) as Hl by (apply list_elem_of_filter; split; [lia|done]).
    rewrite Ef in Hl. by apply not_elem_of_nil in Hl.
  - rewrite <- Ef, Hff. do 2 f_equal.
    assert (StronglySorted Z.lt (x :: l)) as Hs'.
    { rewrite <- Ef. clear -Hs. induction Hs as [|y w Hs IH HF]; [constructor|]. rewrite filter_cons.
      destruct (decide _); [|done]. constructor; [done|]. apply Forall_forall. intros z [_ Hz]%list_elem_of_filter.
      rewrite Forall_forall in HF. by apply HF. }
    assert (x ∈ w /\ first <= x) as [Hx ?].
    { assert (x ∈ filter (fun p => first <= p) w) as Hx by (rewrite Ef; left). by apply list_elem_of_filter in Hx as [? ?]. }
    destruct (Z.eqb_spec x first) as [->|Hne]; [by rewrite bool_decide_true|]. rewrite bool_decide_false; [done|].
    intros Hf. assert (first ∈ x :: l) as Hf' by (rewrite <- Ef; apply list_elem_of_filter; split; [lia|done]).
    apply elem_of_cons in Hf' as [?|Hf']; [congruence|]. apply StronglySorted_inv in Hs' as [_ HF].
    rewrite Forall_forall in HF. specialize (HF _ Hf'). lia.
Qed.

(** ** Lemmas on the keys *)

Lemma digit_lt a b : 0 <= a < b -> b < 10 -> Ascii.compare (digit a) (digit b) = Lt.
Proof.
  intros Ha Hb. unfold digit, Ascii.compare, ascii_of_nat. rewrite !N_ascii_embedding by lia.
  apply N.compare_lt_iff. lia.
Qed.

Lemma decimal_lt n : forall p q, 0 <= p < q -> q < 10 ^ Z.of_nat n -> slt (decimal n p) (decimal n q).
Proof.
  induction n as [|n IH]; intros p q Hp Hq; [change (q < 1) in Hq; lia|].
  assert (0 < 10 ^ Z.of_nat n) as Hpos by lia. set (b := 10 ^ Z.of_nat n) in *.
  assert (q < 10 * b) by (unfold b; replace (Z.of_nat (S n)) with (Z.of_nat n + 1) in Hq by lia; rewrite Z.pow_add_r in Hq; lia).
  pose proof (Z.div_mod p b ltac:(lia)). pose proof (Z.div_mod q b ltac:(lia)).
  pose proof (Z.mod_pos_bound p b ltac:(lia)). pose proof (Z.mod_pos_bound q b ltac:(lia)).
  assert (0 <= p / b) by (apply Z.div_pos; lia).
  assert (q / b < 10) by (apply Z.div_lt_upper_bound; lia).
  assert (p / b <= q / b) by (apply Z.div_le_mono; lia).
  cbn [decimal]. fold b. unfold slt. cbn [String.compare]. destruct (decide (p / b = q / b)) as [E|Hne].
  - rewrite E. assert (Ascii.compare (digit (q / b)) (digit (q / b)) = Eq) as ->.
    { unfold Ascii.compare. apply N.compare_refl. }
    apply IH; [|lia]. rewrite E in *. lia.
  - rewrite digit_lt by lia. done.
Qed.

Lemma pow_20 : 2 ^ 64 < 10 ^ Z.of_nat 20.
Proof. by vm_compute. Qed.

Lemma ci_key_lt p q : 0 <= p < q -> q < 2 ^ 64 -> slt (ci_key p) (ci_key q).
Proof. intros Hp Hq. apply decimal_lt; [done|]. pose proof pow_20. lia. Qed.

Lemma ci_key_inj p q : 0 <= p < 2 ^ 64 -> 0 <= q < 2 ^ 64 -> ci_key p = ci_key q -> p = q.
Proof.
  intros Hp Hq E. destruct (Z.lt_total p q) as [H|[H|H]]; [|done|]; exfalso.
  - apply (slt_ne (ci_key p) (ci_key q)); [|done]. apply ci_key_lt; lia.
  - apply (slt_ne (ci_key q) (ci_key p)); [|done]. apply ci_key_lt; lia.
Qed.

(** *** Keys, read back *)

Lemma digit_val d : 0 <= d < 10 -> Z.of_nat (nat_of_ascii (digit d)) - 48 = d.
Proof. intros Hd. unfold digit. rewrite nat_ascii_embedding by lia. lia. Qed.

Lemma digits_value_decimal n : forall acc p, 0 <= p < 10 ^ Z.of_nat n ->
  digits_value acc (decimal n p) = Some (acc * 10 ^ Z.of_nat n + p).
Proof.
  induction n as [|n IH]; intros acc p Hp; [simpl in *; f_equal; lia|].
  assert (0 < 10 ^ Z.of_nat n) as Hpos by lia. set (b := 10 ^ Z.of_nat n) in *.
  assert (10 ^ Z.of_nat (S n) = 10 * b) as Hb.
  { unfold b. replace (Z.of_nat (S n)) with (Z.of_nat n + 1) by lia. rewrite Z.pow_add_r; lia. }
  rewrite Hb in *. cbn [decimal digits_value]. fold b.
  assert (0 <= p / b < 10) as Hd by (split; [apply Z.div_pos; lia|apply Z.div_lt_upper_bound; lia]).
  rewrite digit_val by done. rewrite (proj2 (Z.leb_le _ _)), (proj2 (Z.ltb_lt _ _)) by lia. simpl.
  rewrite IH by (apply Z.mod_pos_bound; lia). f_equal. pose proof (Z.div_mod p b ltac:(lia)). lia.
Qed.

Lemma lexical_cast_key `{LexicalCastLaws} p : 0 <= p < 2 ^ 64 -> lexical_cast (ci_key p) = Some p.
Proof.
  intros Hp. apply lexical_cast_digits; [done| |lia]. apply (digits_value_decimal 20 0 p). pose proof pow_20. lia.
Qed.

Lemma length_decimal n : forall p, String.length (decimal n p) = n.
Proof. induction n as [|n IH]; intros p; [done|]. simpl. by rewrite IH. Qed.

(** ** A concrete [lexical_cast] *)

#[export] Instance plain_cast : LexicalCast := fun s =>
  match s with EmptyString => None | _ => match digits_value 0 s with Some z => if z <? 2 ^ 64 then Some z else None | None => None end end.

#[export] Instance plain_cast_laws : LexicalCastLaws.
Proof. intros [|c s] z Hs Hz Hlt; [done|]. unfold lexical_cast, plain_cast. rewrite Hz. by rewrite (proj2 (Z.ltb_lt _ _)). Qed.

(** ** Properties *)

(** C24: pushing committed positions in log order keeps exactly the last thousand
    of them, and a range over two positions, the later one still kept, returns
    the kept positions from the first to the last, both included, and says it is
    complete iff the first one is still kept. *)
Theorem range_of_commits l first last : StronglySorted Z.lt l -> first < last -> last ∈ window l ->
  exists index, push_all l ∅ = Ok (tt, index) /\ (base.size index <= limit_)%nat /\
    range first last index = Ok (filter (fun p => first <= p <= last) (window l), bool_decide (first ∈ window l)).
Proof.
  intros Hs Hlt Hin. pose proof (sorted_drop (length l - limit_) l Hs) as Hw. fold (window l) in Hw.
  exists (list_to_set (window l)). split_and!.
  - apply (push_all_spec l []); [done|]. simpl. lia.
  - rewrite size_list by done. unfold window. rewrite length_drop. lia.
  - by apply range_spec.
Qed.

(** C25: the key of a committed intention is twenty characters, all digits, and
    is the decimal notation of its position, so that any cast that reads decimal
    notation gives the position back; and the keys sort as the positions do: all
    this over the whole of [uint64_t]. *)
Theorem commit_keys_ordered `{LexicalCastLaws} p q : 0 <= p < 2 ^ 64 -> 0 <= q < 2 ^ 64 ->
  String.length (ci_key p) = 20%nat /\ digits_value 0 (ci_key p) = Some p /\ lexical_cast (ci_key p) = Some p /\
  String.compare (prefix_string PREFIX_COMMITTED_INTENTION (ci_key p)) (prefix_string PREFIX_COMMITTED_INTENTION (ci_key q)) = (p ?= q).
Proof.
  intros Hp Hq. split; [apply length_decimal|]. split; [apply (digits_value_decimal 20 0 p); pose proof pow_20; lia|].
  split; [by apply lexical_cast_key|].
  assert (forall a b, String.compare (prefix_string PREFIX_COMMITTED_INTENTION a) (prefix_string PREFIX_COMMITTED_INTENTION b) = String.compare a b) as ->.
  { intros a b. unfold prefix_string. simpl. by rewrite !N.compare_refl || done. }
  destruct (Z.compare_spec p q) as [->|Hlt|Hlt].
  - apply compare_refl.
  - apply ci_key_lt; lia.
  - apply compare_gt_slt, ci_key_lt; lia.
Qed.

Lemma range_of_commits_witness : exists index,
  push_all [2; 4; 7; 9] ∅ = Ok (tt, index) /\ (base.size index <= limit_)%nat /\
  range 4 9 index = Ok (filter (fun p => 4 <= p <= 9) (window [2; 4; 7; 9]), bool_decide (4 ∈ window [2; 4; 7; 9])).
Proof. apply (range_of_commits [2; 4; 7; 9] 4 9); [repeat constructor; lia|lia|by apply (bool_decide_unpack _); vm_compute]. Defined.

Lemma commit_keys_ordered_witness :
  String.length (ci_key 41) = 20%nat /\ digits_value 0 (ci_key 41) = Some 41 /\ lexical_cast (ci_key 41) = Some 41 /\
  String.compare (prefix_string PREFIX_COMMITTED_INTENTION (ci_key 41)) (prefix_string PREFIX_COMMITTED_INTENTION (ci_key 300)) = (41 ?= 300).
Proof. apply (commit_keys_ordered 41 300); lia. Defined.
