(* ===== verification/DBImpl.v ===== *)
(** The database: src/src/db/db_impl.h and db_impl.cc, db.cc and snapshot.h, on
    the node cache, the entry service, the persistent tree and the tables of
    the processor.  The threads of the source are their rounds here, each one
    step on the state; a wait that does not hold is a step that does not return. *)
From S2P Require Import Prelude Slice RBTree Node Proto PersistentTree Intention Transaction.
From S2P Require Import Iterator LruCache NodeCache NodeCacheSpec Matcher EntryService EntryServiceSpec TxnFinder CommitIndex.

(** The handle of a [WaitOnIntention] call: its condition variable and [done]. *)
Definition wait_id : Type := Z.

Record DBImpl (G : Type) : Type := mkDB {
  cache_ : NodeCache (EntryService G);   (* entry_service_ is its source *)
  stop_ : bool;
  lcs_trees_ : list PersistentTree;
  txn_finder_ : TransactionFinder;
  waiting_on_log_entry_ : gmap Z wait_id;
  done_ : gmap wait_id bool;
  intention_iterator_ : Z;
  last_intention_processed_ : Z;
  in_flight_txn_rid_ : Z;
  committed_intentions_ : CommittedIntentionIndex;
  finished_txns_ : FinishedTransactions;
  root_ : NodePtr;
  root_snapshot_ : Z;
  transactions_started : Z;
}.
Arguments mkDB {_} _ _ _ _ _ _ _ _ _ _ _ _ _ _.
Arguments cache_ {_} _.
Arguments stop_ {_} _.
Arguments lcs_trees_ {_} _.
Arguments txn_finder_ {_} _.
Arguments waiting_on_log_entry_ {_} _.
Arguments done_ {_} _.
Arguments intention_iterator_ {_} _.
Arguments last_intention_processed_ {_} _.
Arguments in_flight_txn_rid_ {_} _.
Arguments committed_intentions_ {_} _.
Arguments finished_txns_ {_} _.
Arguments root_ {_} _.
Arguments root_snapshot_ {_} _.
Arguments transactions_started {_} _.

Section setters.
Context {G : Type}.
Implicit Types s : DBImpl G.
Definition set_cache c s : DBImpl G := mkDB c (stop_ s) (lcs_trees_ s) (txn_finder_ s) (waiting_on_log_entry_ s)
  (done_ s) (intention_iterator_ s) (last_intention_processed_ s) (in_flight_txn_rid_ s) (committed_intentions_ s)
  (finished_txns_ s) (root_ s) (root_snapshot_ s) (transactions_started s).
Definition set_stop s : DBImpl G := mkDB (cache_ s) true (lcs_trees_ s) (txn_finder_ s) (waiting_on_log_entry_ s)
  (done_ s) (intention_iterator_ s) (last_intention_processed_ s) (in_flight_txn_rid_ s) (committed_intentions_ s)
  (finished_txns_ s) (root_ s) (root_snapshot_ s) (transactions_started s).
Definition set_lcs l s : DBImpl G := mkDB (cache_ s) (stop_ s) l (txn_finder_ s) (waiting_on_log_entry_ s)
  (done_ s) (intention_iterator_ s) (last_intention_processed_ s) (in_flight_txn_rid_ s) (committed_intentions_ s)
  (finished_txns_ s) (root_ s) (root_snapshot_ s) (transactions_started s).
Definition set_finder f s : DBImpl G := mkDB (cache_ s) (stop_ s) (lcs_trees_ s) f (waiting_on_log_entry_ s)
  (done_ s) (intention_iterator_ s) (last_intention_processed_ s) (in_flight_txn_rid_ s) (committed_intentions_ s)
  (finished_txns_ s) (root_ s) (root_snapshot_ s) (transactions_started s).
Definition set_waiting m d s : DBImpl G := mkDB (cache_ s) (stop_ s) (lcs_trees_ s) (txn_finder_ s) m
  d (intention_iterator_ s) (last_intention_processed_ s) (in_flight_txn_rid_ s) (committed_intentions_ s)
  (finished_txns_ s) (root_ s) (root_snapshot_ s) (transactions_started s).
Definition set_iterator p s : DBImpl G := mkDB (cache_ s) (stop_ s) (lcs_trees_ s) (txn_finder_ s) (waiting_on_log_entry_ s)
  (done_ s) p (last_intention_processed_ s) (in_flight_txn_rid_ s) (committed_intentions_ s)
  (finished_txns_ s) (root_ s) (root_snapshot_ s) (transactions_started s).
Definition set_last p s : DBImpl G := mkDB (cache_ s) (stop_ s) (lcs_trees_ s) (txn_finder_ s) (waiting_on_log_entry_ s)
  (done_ s) (intention_iterator_ s) p (in_flight_txn_rid_ s) (committed_intentions_ s)
  (finished_txns_ s) (root_ s) (root_snapshot_ s) (transactions_started s).
Definition set_begun rid n s : DBImpl G := mkDB (cache_ s) (stop_ s) (lcs_trees_ s) (txn_finder_ s) (waiting_on_log_entry_ s)
  (done_ s) (intention_iterator_ s) (last_intention_processed_ s) rid (committed_intentions_ s)
  (finished_txns_ s) (root_ s) (root_snapshot_ s) n.
Definition set_committed_index c s : DBImpl G := mkDB (cache_ s) (stop_ s) (lcs_trees_ s) (txn_finder_ s) (waiting_on_log_entry_ s)
  (done_ s) (intention_iterator_ s) (last_intention_processed_ s) (in_flight_txn_rid_ s) c
  (finished_txns_ s) (root_ s) (root_snapshot_ s) (transactions_started s).
Definition set_finished f s : DBImpl G := mkDB (cache_ s) (stop_ s) (lcs_trees_ s) (txn_finder_ s) (waiting_on_log_entry_ s)
  (done_ s) (intention_iterator_ s) (last_intention_processed_ s) (in_flight_txn_rid_ s) (committed_intentions_ s)
  f (root_ s) (root_snapshot_ s) (transactions_started s).
Definition set_root p pos s : DBImpl G := mkDB (cache_ s) (stop_ s) (lcs_trees_ s) (txn_finder_ s) (waiting_on_log_entry_ s)
  (done_ s) (intention_iterator_ s) (last_intention_processed_ s) (in_flight_txn_rid_ s) (committed_intentions_ s)
  (finished_txns_ s) p pos (transactions_started s).
End setters.

(** ** The walks over a snapshot that use no tree object *)

Section walks.
Context {W : Type} `{NodeStore W} `{SliceCompare}.

(** The loop of [Get]. *)
Fixpoint get_loop (fuel : nat) (pkey : string) (cur : loc) : TM (Z * option string) :=
  match fuel with
  | O => no_fuel
  | S fuel =>
    if decide (cur = Nil) then mret (- ENOENT, None)
    else
      k ← node_key cur;
      let cmp := slice_compare pkey k in
      if cmp =? 0 then v ← node_val cur; mret (0, Some v)
      else
        next ← ref_child (if cmp <? 0 then SideL else SideR) cur;
        get_loop fuel pkey next
  end.

(** [Validate(root)]: the black height, or 0. *)
Fixpoint Validate_node (fuel : nat) (root : loc) : TM Z :=
  match fuel with
  | O => no_fuel
  | S fuel =>
    if decide (root = Nil) then mret 1
    else
      ln ← ref_child_notrace SideL root;
      rn ← ref_child_notrace SideR root;
      red ← node_red root;
      lred ← node_red ln;
      rred ← node_red rn;
      if (red : bool) && ((lred : bool) || (rred : bool)) then mret 0
      else
        lh ← Validate_node fuel ln;
        rh ← Validate_node fuel rn;
        k ← node_key root;
        lk ← node_key ln;
        rk ← node_key rn;
        if (bool_decide (ln <> Nil) && (0 <=? slice_compare lk k)) || (bool_decide (rn <> Nil) && (slice_compare rk k <=? 0))
        then mret 0
        else if negb (lh =? 0) && negb (rh =? 0) && negb (lh =? rh) then mret 0
        else if negb (lh =? 0) && negb (rh =? 0) then mret (if (red : bool) then lh else lh + 1)
        else mret 0
  end.

(** The addresses of the reachable nodes below the root, with their keys, in
    the order of [operator<]: the map [addrs]. *)
Definition addr_map : Type := list (NodeAddress * string).

(** [addrs.emplace] with its [assert(ret.second)]. *)
Fixpoint addr_emplace (a : NodeAddress) (k : string) (m : addr_map) : option addr_map :=
  match m with
  | [] => Some [(a, k)]
  | (b, kb) :: m =>
    if address_lt a b then Some ((a, k) :: (b, kb) :: m)
    else if address_lt b a then m ← addr_emplace a k m; Some ((b, kb) :: m)
    else None
  end.

(** One side of a visited node. *)
Definition visit_child (trim : addr_map -> addr_map) (s : side) (node : loc) (addrs : addr_map) : TM addr_map :=
  x ← ref_child_notrace s node;
  if decide (x = Nil) then mret addrs
  else
    p ← get_child s node;
    match address_ p with
    | None => fail
    | Some addr =>
      k ← node_key x;
      match addr_emplace addr k addrs with
      | None => fail
      | Some addrs => mret (trim addrs)
      end
    end.

(** The traversal shared by [reachable_node_stats] and [gc]. *)
Fixpoint collect_addrs (fuel : nat) (trim : addr_map -> addr_map) (stack : list loc) (node : loc) (addrs : addr_map) : TM addr_map :=
  match fuel with
  | O => no_fuel
  | S fuel =>
    if decide (node <> Nil) then
      next ← ref_child_notrace SideL node;
      collect_addrs fuel trim (node :: stack) next addrs
    else
      match stack with
      | [] => mret addrs
      | node :: stack =>
        addrs ← visit_child trim SideL node addrs;
        addrs ← visit_child trim SideR node addrs;
        next ← ref_child_notrace SideR node;
        collect_addrs fuel trim stack next addrs
      end
  end.

(** [gc] keeps the five first addresses. *)
Definition keep_five (addrs : addr_map) : addr_map := if (5 <? length addrs)%nat then take (length addrs - 1) addrs else addrs.

(** *** The committed positions after a snapshot, read from the tree *)

Context `{LexicalCast}.

Definition committed_pos : IM Z :=
  k ← Filtered_key PREFIX_COMMITTED_INTENTION;
  match lexical_cast k with Some pos => mret pos | None => fail end.

Fixpoint zone_loop (fuel iter_fuel : nat) (zone : list Z) : IM (list Z) :=
  match fuel with
  | O => no_fuel
  | S fuel =>
    v ← Prefix_Valid PREFIX_COMMITTED_INTENTION;
    if (v : bool) then
      pos ← committed_pos;
      match zone with
      | [] => fail
      | first :: _ =>
        if pos =? first then mret zone
        else Next iter_fuel;; zone_loop fuel iter_fuel (zone ++ [pos])
      end
    else mret zone
  end.

(** The part of [ProcessConcurrentIntention] for an incomplete range. *)
Definition read_zone (fuel : nat) (snapshot : Z) (zone : list Z) : IM (list Z) :=
  Prefix_Seek fuel PREFIX_COMMITTED_INTENTION (ci_key snapshot);;
  v ← Prefix_Valid PREFIX_COMMITTED_INTENTION;
  assert_that v;;
  pos ← committed_pos;
  assert_that (pos =? snapshot);;
  Next fuel;;
  v ← Prefix_Valid PREFIX_COMMITTED_INTENTION;
  assert_that v;;
  zone_loop fuel fuel zone.
End walks.

Section database.
Context {G : Type} `{ZLog G} `{ProtoCodec} `{SliceCompare} `{LexicalCast}.
(** The node cache's and the entry service's parameters, and the fuel of every
    loop and retry. *)
Context (std_hash : Z -> Z) (sizeof_node : Z) (scan_fuel entry_cache_size fuel : nat).

Definition DBM : Type -> Type := M (DBImpl G).

#[local] Instance db_source : AfterImageSource (EntryService G) := es_source entry_cache_size fuel.
#[local] Instance db_store : NodeStore (NodeCache (EntryService G)) := node_cache_store std_hash sizeof_node scan_fuel.

(** ** Calls on the parts *)

Definition on_cache {A} (m : M (NodeCache (EntryService G)) A) : DBM A := zoom cache_ set_cache m.
Definition on_es {A} (m : M (EntryService G) A) : DBM A := on_cache (zoom nc_src with_src m).
Definition on_matcher {A} (m : M Matcher A) : DBM A := on_es (EntryService.on_matcher m).
Definition on_finder {A} (m : M TransactionFinder A) : DBM A := zoom txn_finder_ set_finder m.
Definition on_finished {A} (m : M (gmap Z (option PersistentTree)) A) : DBM A := zoom finished_txns_ set_finished m.
Definition on_index {A} (m : M (gset Z) A) : DBM A := zoom committed_intentions_ set_committed_index m.

(** Calls on a tree object, with the object they leave. *)
Definition on_tree {A} (t : PersistentTree) (m : M (NodeCache (EntryService G) * PersistentTree) A) : DBM (A * PersistentTree) := fun s =>
  match m (cache_ s, t) with
  | Ok (a, (w, t)) => Ok ((a, t), set_cache w s)
  | AssertFail => AssertFail
  | OutOfFuel => OutOfFuel
  end.

(** Calls on an iterator over a snapshot of [root], destroyed at the end. *)
Definition on_iterator {A} (root : NodePtr) (m : M (NodeCache (EntryService G) * RawIteratorImpl) A) : DBM A := fun s =>
  match m (cache_ s, new_raw_iterator root) with
  | Ok (a, (w, _)) => Ok (a, set_cache w s)
  | AssertFail => AssertFail
  | OutOfFuel => OutOfFuel
  end.

(** A walk with an access trace of its own, which is returned. *)
Definition traced {A} (m : M (NodeCache (EntryService G) * list NodeAddress) A) : DBM (A * list NodeAddress) := fun s =>
  match m (cache_ s, []) with
  | Ok (a, (w, tr)) => Ok ((a, tr), set_cache w s)
  | AssertFail => AssertFail
  | OutOfFuel => OutOfFuel
  end.

(** [root_.ref_notrace()] restores the reference in place. *)
Definition ref_root : DBM loc :=
  s ← get;
  '((x, p), _) ← traced (ref (root_ s));
  modify (fun s => set_root p (root_snapshot_ s) s);;
  mret x.

(** ** Snapshots and reads; [Snapshot] is its root *)

Definition GetSnapshot : DBM NodePtr := s ← get; mret (root_ s).

Definition NewIterator (snapshot : NodePtr) : RawIteratorImpl := new_raw_iterator snapshot.

Definition UpdateLRU (trace : list NodeAddress) : DBM unit := on_cache (NodeCache.UpdateLRU trace).

Definition IntentionToAfterImage (intention_pos : Z) : DBM (option Z) := on_cache (NodeCache.IntentionToAfterImage intention_pos).

Definition Get (key : string) : DBM (Z * option string) :=
  root ← GetSnapshot;
  let pkey := prefix_string PREFIX_USER key in
  '(res, trace) ← traced ('(cur, _) ← ref root; get_loop fuel pkey cur);
  UpdateLRU trace;;
  mret res.

Definition Validate : DBM unit :=
  s ← get;
  '(h, _) ← traced ('(x, _) ← ref_notrace (root_ s); Validate_node fuel x);
  assert_that (negb (h =? 0)).

(** [token] is what [NewToken] draws from its generator. *)
Definition BeginTransaction (token : Z) : DBM TransactionImpl :=
  s ← get;
  modify (set_begun (in_flight_txn_rid_ s - 1) (u64 (transactions_started s + 1)));;
  new_transaction true (root_ s) (root_snapshot_ s) (in_flight_txn_rid_ s) token.

Definition ClearCaches : DBM unit :=
  on_finished (Clean (2 ^ 64 - 1));;
  on_cache (Clear sizeof_node fuel);;
  on_es EntryService.ClearCaches.

(** ** Waiting for an intention *)

(** Up to the wait: whether the caller has to wait. *)
Definition WaitOnIntention (w : wait_id) (pos : Z) : DBM bool :=
  s ← get;
  if pos <=? last_intention_processed_ s then mret false
  else
    modify (fun s => set_waiting
      (match waiting_on_log_entry_ s !! pos with Some _ => waiting_on_log_entry_ s | None => <[pos := w]> (waiting_on_log_entry_ s) end)
      (<[w := false]> (done_ s)) s);;
    mret true.

(** The wait itself: the caller goes on when its [done] is set. *)
Definition wait_done (w : wait_id) : DBM unit := wait_until (fun s => default false (done_ s !! w)).

Definition NotifyIntention (pos : Z) : DBM unit :=
  modify (fun s =>
    let first_last := filter (fun kv => kv.1 <= pos) (waiting_on_log_entry_ s) in
    set_waiting (filter (fun kv => ~ kv.1 <= pos) (waiting_on_log_entry_ s))
      (map_fold (fun _ w d => <[w := true]> d) (done_ s) first_last) s).

Definition NotifyTransaction (token intention_pos : Z) (committed : bool) : DBM unit :=
  NotifyIntention intention_pos;;
  on_finder (Notify token intention_pos committed).

(** ** The transaction processor *)

(** The decision: [true] is abort. *)
Definition ProcessConcurrentIntention (intention : Intention) : DBM bool :=
  let intention_keys := OpKeys intention in
  let snapshot := Snapshot intention in
  s ← get;
  match range snapshot (root_snapshot_ s) (committed_intentions_ s) with
  | Ok (irange, complete) =>
    irange ← (if (complete : bool) then mret irange else on_iterator (root_ s) (read_zone fuel snapshot irange));
    other_intentions ← on_es (ReadIntentions entry_cache_size fuel irange);
    mret (existsb (fun other => negb (bool_decide (intention_keys ## UpdateOpKeys other))) other_intentions)
  | AssertFail => fail
  | OutOfFuel => no_fuel
  end.

(** The tree of a committed intention, and the offset of its root: replayed, or
    the finished transaction's own tree. *)
Definition next_root (intention : Intention) (intention_pos : Z) (finished : option PersistentTree) : DBM (option Z * PersistentTree) :=
  match finished with
  | None =>
    s ← get;
    on_tree (new_tree_for true (root_ s) (i64 intention_pos) intention_pos)
      (ReplayIntention fuel intention;;
       PutPrefixed fuel PREFIX_COMMITTED_INTENTION (ci_key intention_pos) "";;
       infect_self_pointers fuel intention_pos true)
  | Some t =>
    on_tree t
      (PutPrefixed fuel PREFIX_COMMITTED_INTENTION (ci_key intention_pos) "";;
       infect_self_pointers fuel intention_pos false)
  end.

(** The rest of a round for an intention that commits. *)
Definition commit_intention (intention : Intention) (intention_pos : Z) (serial : bool) : DBM bool :=
  on_index (CommitIndex.push intention_pos);;
  finished ← (if serial then on_finished (Find intention_pos) else mret None);
  '(root_offset, t) ← next_root intention intention_pos finished;
  match root_offset, pt_root t with
  | Some offset, Some x =>
    assert_that (bool_decide (x <> Nil));;
    let root := SetIntentionAddress intention_pos offset (mkNodePtr (Some x) None true) in
    modify (set_root root intention_pos);;
    s ← get;
    assert_that (last_intention_processed_ s <? intention_pos);;
    modify (set_last intention_pos);;
    modify (fun s => set_lcs (lcs_trees_ s ++ [t]) s);;
    NotifyTransaction (i64 (Token intention)) intention_pos true;;
    mret true
  | _, _ => fail
  end.

(** One round of [TransactionProcessorEntry]; [false] when it ends. *)
Definition process_intention : DBM bool :=
  s ← get;
  '(opt_intention, p) ← on_es (IntentionIterator_Next entry_cache_size fuel (intention_iterator_ s));
  modify (set_iterator p);;
  match opt_intention with
  | None => mret false
  | Some intention =>
    intention_pos ← Position intention;
    s ← get;
    assert_that (root_snapshot_ s <? intention_pos);;
    let serial := (root_snapshot_ s =? Snapshot intention) || Flush intention in
    abort ← (if serial then mret false else ProcessConcurrentIntention intention);
    if (abort : bool) then
      NotifyTransaction (i64 (Token intention)) intention_pos false;;
      s ← get;
      assert_that (last_intention_processed_ s <? intention_pos);;
      modify (set_last intention_pos);;
      mret true
    else commit_intention intention intention_pos serial
  end.

(** ** After images *)

Definition write_after_image (tree : PersistentTree) : DBM unit :=
  intention_pos ← Intention_pos tree;
  '((after_image, delta), tree) ← on_tree tree (SerializeAfterImage fuel intention_pos);
  assert_that (ai_intention after_image =? intention_pos);;
  on_matcher (watch delta tree);;
  on_es (AppendAfterImage fuel after_image);;
  mret tt.

Fixpoint write_after_images (trees : list PersistentTree) : DBM unit :=
  match trees with
  | [] => mret tt
  | tree :: trees => write_after_image tree;; write_after_images trees
  end.

(** One round of [AfterImageWriterEntry]. *)
Definition AfterImageWriter_round : DBM bool :=
  wait_until (fun s => negb (bool_decide (length (lcs_trees_ s) = 0%nat)) || stop_ s);;
  s ← get;
  if stop_ s then mret false
  else
    let trees := lcs_trees_ s in
    modify (set_lcs []);;
    write_after_images trees;;
    mret true.

(** One round of [AfterImageFinalizerEntry]. *)
Definition AfterImageFinalizer_round : DBM bool :=
  '(delta, tree) ← on_matcher match_;
  match tree with
  | None => mret false
  | Some tree =>
    ipos ← Intention_pos tree;
    ai_pos ← AfterImage_pos tree;
    assert_that (ipos <? ai_pos);;
    on_tree tree (SetDeltaPosition delta ai_pos);;
    on_cache (SetIntentionMapping ipos ai_pos);;
    on_cache (ApplyAfterImageDelta std_hash sizeof_node delta ai_pos);;
    s ← get;
    mret (negb (stop_ s))
  end.

(** ** Committing *)

(** [CompleteTransaction] up to its wait: the position of the intention, and the
    transaction without its members. *)
Definition CompleteTransaction_start (w : waiter_id) (txn : TransactionImpl) : DBM (Z * TransactionImpl) :=
  on_finder (AddTokenWaiter w (tx_token txn));;
  match tx_intention txn with
  | None => fail
  | Some intention =>
    pos ← on_es (AppendIntention entry_cache_size fuel intention);
    match tx_tree txn with
    | None => fail
    | Some tree =>
      tree ← SetIntention pos tree;
      on_finished (Insert pos tree);;
      on_finder (wait_enter w pos);;
      mret (pos, with_tx_tree None (with_tx_intention None txn))
    end
  end.

(** The wait: blocked until the waiter or its result says it is decided. *)
Definition CompleteTransaction_finish (w : waiter_id) (pos : Z) : DBM bool :=
  o ← on_finder (wait_check w pos);
  match o with Some committed => mret committed | None => no_fuel end.

(** ** Garbage collection of the log *)

(** [usage], by after image position: the nodes of the image and how many of
    them are reachable. *)
Fixpoint usage_stats (addrs : addr_map) (usage : gmap Z (Z * Z)) : DBM (gmap Z (Z * Z)) :=
  match addrs with
  | [] => mret usage
  | (addr, _) :: addrs =>
    ai_addr ← on_cache (findAfterImagePosition scan_fuel addr);
    usage ← (match usage !! ai_addr with
             | Some _ => mret usage
             | None =>
               ai ← on_es (ReadAfterImage entry_cache_size fuel ai_addr);
               mret (<[ai_addr := (Z.of_nat (length (ai_tree ai)), 0)]> usage)
             end);
    usage_stats addrs (alter (fun u => (u.1, u.2 + 1)) ai_addr usage)
  end.

Definition reachable_node_stats : DBM (gmap Z (Z * Z)) :=
  node ← ref_root;
  '(addrs, _) ← traced (collect_addrs fuel (fun m => m) [] node []);
  usage_stats addrs ∅.

Fixpoint flush_intention (addrs : addr_map) (flush : Intention) : DBM Intention :=
  match addrs with
  | [] => mret flush
  | (_, k) :: addrs => flush ← Intention_Copy k flush; flush_intention addrs flush
  end.

(** [gc] up to its polling loop: the position it waits for. *)
Definition gc : DBM Z :=
  node ← ref_root;
  '(addrs, _) ← traced (collect_addrs fuel keep_five [] node []);
  flush ← flush_intention addrs (new_intention 0 0);
  on_es (AppendIntention entry_cache_size fuel flush).

Definition gc_wait (pos : Z) : DBM unit := wait_until (fun s => negb (last_intention_processed_ s <? pos)).

(** One round of [JanitorEntry]. *)
Definition Janitor_round : DBM bool :=
  s ← get;
  if stop_ s then mret false else on_finished (Clean (last_intention_processed_ s));; mret true.

(** ** Opening and closing *)

Record RestorePoint : Type := mkRestorePoint {
  replay_start_pos : Z;
  after_image_pos : Z;
  after_image : AfterImage;
}.

(** The loop of [FindRestorePoint] down the log; the map holds, for each
    intention, the earliest of the after images seen. *)
Fixpoint restore_loop (n : nat) (pos : Z) (after_images : gmap Z (Z * AfterImage)) (latest : option Z) : ESM (RestorePoint * option Z) :=
  match n with
  | O => no_fuel
  | S n =>
    '(entry, pos) ← ReverseIterator_Next entry_cache_size fuel pos true;
    match entry with
    | None => fail
    | Some (p, INTENTION_ENTRY _) =>
      let latest := match latest with Some l => Some l | None => Some p end in
      match after_images !! p with
      | Some (ai_pos, ai) =>
        assert_that (p =? ai_intention ai);;
        mret (mkRestorePoint (u64 (p + 1)) ai_pos ai, latest)
      | None => restore_loop n pos after_images latest
      end
    | Some (p, AFTERIMAGE_ENTRY ai) =>
      assert_that (0 <? p);;
      restore_loop n pos (<[ai_intention ai := (p, ai)]> after_images) latest
    | Some (_, FILLED_ENTRY) => restore_loop n pos after_images latest
    end
  end.

(** [None] for [-EINVAL] on an empty log. *)
Definition FindRestorePoint : ESM (option (RestorePoint * option Z)) :=
  tail ← CheckTail true;
  if tail =? 0 then mret None
  else x ← restore_loop fuel tail ∅ None; mret (Some x).

(** The constructor; the threads it starts are the rounds above. *)
Definition new_db (imap_cache_size : nat) (point : RestorePoint) (entry_service : EntryService G) : res (DBImpl G) :=
  let entry_service := with_es_pos (replay_start_pos point) entry_service in
  let cache := new_node_cache imap_cache_size entry_service in
  match CacheAfterImage std_hash sizeof_node (after_image point) (after_image_pos point) cache with
  | Ok (root, cache) =>
    let root_snapshot := ai_intention (after_image point) in
    Ok (mkDB cache false [] new_finder ∅ ∅ (replay_start_pos point) root_snapshot (-1) ∅ ∅ root root_snapshot 0)
  | AssertFail => AssertFail
  | OutOfFuel => OutOfFuel
  end.

(** *** [DB::Open], of db.cc *)

(** The transaction that initializes an empty log; its nodes live outside the
    cache of any database. *)
Definition init_log : ESM unit :=
  EntryService.Fill fuel 0;;
  let empty_tree := mkNodePtr (Some Nil) None false in
  txn ← new_transaction false empty_tree 0 (-1) 0;
  es ← get;
  match tx_PutPrefixed fuel PREFIX_COMMITTED_INTENTION (ci_key 1) "" (new_node_cache 0 es, txn) with
  | Ok (_, (w, txn)) =>
    match tx_intention txn, tx_tree txn with
    | Some intention, Some tree =>
      pos ← AppendIntention entry_cache_size fuel intention;
      assert_that (pos =? 1);;
      match SerializeAfterImage fuel 1 (w, tree) with
      | Ok ((after_image, _), _) =>
        assert_that (ai_intention after_image =? 1);;
        pos ← AppendAfterImage fuel after_image;
        assert_that (pos =? 2)
      | AssertFail => fail
      | OutOfFuel => no_fuel
      end
    | _, _ => fail
    end
  | AssertFail => fail
  | OutOfFuel => no_fuel
  end.

(** [None] for [-EINVAL]; otherwise the database, up to the wait for the latest
    intention, which is the position given. *)
Definition Open (create_if_empty : bool) (imap_cache_size : nat) (g : G) : res (option (DBImpl G * option Z)) :=
  let init : ESM bool :=
    tail ← CheckTail false;
    if tail =? 0 then if create_if_empty then init_log;; mret true else mret false else mret true in
  match init (new_entry_service g) with
  | Ok (true, entry_service) =>
    match FindRestorePoint entry_service with
    | Ok (Some (point, latest_intention), entry_service) =>
      match new_db imap_cache_size point entry_service with
      | Ok impl => Ok (Some (impl, latest_intention))
      | AssertFail => AssertFail
      | OutOfFuel => OutOfFuel
      end
    | Ok (None, _) => AssertFail
    | AssertFail => AssertFail
    | OutOfFuel => OutOfFuel
    end
  | Ok (false, _) => Ok None
  | AssertFail => AssertFail
  | OutOfFuel => OutOfFuel
  end.

(** The destructor; joining the threads is their last rounds. *)
Definition close_db : DBM unit :=
  modify set_stop;;
  on_es EntryService.Stop;;
  on_cache NodeCache.Stop.
End database.
