(* ===== verification/DBWalks.v ===== *)
(** The walks of DBImpl.v over a snapshot: [Get] is a lookup, and [Validate]
    accepts exactly the trees of red-black shape whose nodes are in order with
    their children. *)
From S2P Require Import Prelude Slice RBTree Node Proto PersistentTree Delta PathCopy.
From S2P Require Import Iterator IteratorSpec DBImpl.

(** ** Validation, on trees *)

(** A node and its children are in order. *)
Fixpoint local_order (t : tree) : Prop :=
  match t with
  | E => True
  | T _ l k _ r =>
    (match l with E => True | T _ _ kl _ _ => slt kl k end) /\
    (match r with E => True | T _ _ kr _ _ => slt k kr end) /\
    local_order l /\ local_order r
  end.

Definition below (s : side) (t : tree) (k : string) : bool :=
  match t with
  | E => true
  | T _ _ k' _ _ => match s with SideL => bool_decide (slt k' k) | SideR => bool_decide (slt k k') end
  end.

(** The black height counted from 1 at the leaves, or 0. *)
Fixpoint black_height (t : tree) : Z :=
  match t with
  | E => 1
  | T c l k _ r =>
    if c && (is_red l || is_red r) then 0
    else
      let lh := black_height l in
      let rh := black_height r in
      if negb (below SideL l k && below SideR r k) then 0
      else if negb (lh =? 0) && negb (rh =? 0) && (lh =? rh) then (if c then lh else lh + 1)
      else 0
  end.

Lemma black_height_nonneg t : 0 <= black_height t.
Proof.
  induction t as [|c l IHl k v r IHr]; simpl; [lia|]. destruct (c && _); [lia|]. destruct (negb _); [lia|].
  destruct (_ && _); [|lia]. destruct c; lia.
Qed.

Lemma black_height_rb t n : rb n t -> local_order t -> black_height t = Z.of_nat n + 1.
Proof.
  intros Hrb. induction Hrb as [|n l k v r Hl IHl Hr IHr El Er|n l k v r Hl IHl Hr IHr]; [done|..];
    intros (Ol & Or & OOl & OOr); simpl; rewrite IHl, IHr by done;
    (assert (below SideL l k = true) as -> by (destruct l; [done|]; by apply bool_decide_eq_true));
    (assert (below SideR r k = true) as -> by (destruct r; [done|]; by apply bool_decide_eq_true)).
  - rewrite El, Er. simpl. rewrite (proj2 (Z.eqb_neq _ _)), Z.eqb_refl by lia. done.
  - simpl. rewrite (proj2 (Z.eqb_neq _ _)), Z.eqb_refl by lia. simpl. lia.
Qed.

Lemma rb_black_height t : black_height t <> 0 -> rb (Z.to_nat (black_height t - 1)) t /\ local_order t.
Proof.
  induction t as [|c l IHl k v r IHr]; simpl; [intros _; split; [constructor|done]|].
  pose proof (black_height_nonneg l). pose proof (black_height_nonneg r).
  destruct (c && (is_red l || is_red r)) eqn:Ec; [done|].
  destruct (below SideL l k) eqn:El; [|done]. destruct (below SideR r k) eqn:Er; [|done]. simpl.
  destruct (Z.eqb_spec (black_height l) 0) as [|Hl]; [done|].
  destruct (Z.eqb_spec (black_height r) 0) as [|Hr]; [done|]. simpl.
  destruct (Z.eqb_spec (black_height l) (black_height r)) as [E|]; [|done]. intros _.
  destruct (IHl Hl) as [Rl Ol], (IHr Hr) as [Rr Or]. rewrite <- E in Rr. split.
  - destruct c; simpl in Ec.
    + apply orb_false_iff in Ec as [? ?]. by constructor.
    + replace (Z.to_nat (black_height l + 1 - 1)) with (S (Z.to_nat (black_height l - 1))) by lia. by constructor.
  - split_and!; [| |done..].
    + destruct l; [done|]. by apply bool_decide_eq_true in El.
    + destruct r; [done|]. by apply bool_decide_eq_true in Er.
Qed.

Lemma black_height_accepts t : black_height t <> 0 <-> (exists n, rb n t) /\ local_order t.
Proof.
  split; [intros [? ?]%rb_black_height; eauto|]. intros [[n Hn] Ho]. rewrite (black_height_rb t n Hn Ho). lia.
Qed.

Lemma sorted_local t : bst t -> local_order t.
Proof.
  induction t as [|c l IHl k v r IHr]; [done|]. intros (Hl & Hr & Fl & Fr)%bst_node. split_and!; [| |by apply IHl|by apply IHr].
  - destruct l as [|c' ? kl vl ?]; [done|]. unfold keys in Fl. simpl in Fl. rewrite fmap_app, fmap_cons in Fl.
    apply Forall_app in Fl as [_ Fl]. by apply Forall_inv in Fl.
  - destruct r as [|c' ? kr vr ?]; [done|]. unfold keys in Fr. simpl in Fr. rewrite fmap_app, fmap_cons in Fr.
    apply Forall_app in Fr as [_ Fr]. by apply Forall_inv in Fr.
Qed.

(** ** On the heap *)

Section walks.
Context {W : Type} {NS : NodeStore W} {NSL : NodeStoreLaws W} {SC : SliceCompare} {SL : SliceLaws}.
Context (r : Z).

(** A walk leaves every snapshot as it was. *)
Definition kept {A} (Q : A -> W -> Prop) (w : W) : A -> W -> Prop := fun a w' => winv r ∅ w' /\ wext w w' /\ Q a w'.

Lemma kept_trans {A} (m : TM A) (Q : A -> W -> Prop) w0 w : wext w0 w -> twp m (kept Q w) w -> twp m (kept Q w0) w.
Proof. intros He Hm. eapply twp_conseq; [exact Hm|]. intros a w' (? & ? & ?). split_and!; [done|by etransitivity|done]. Qed.

Lemma twp_field {A} (f : Node -> A) t x w (Q : A -> W -> Prop) : winv r ∅ w -> w_nd w t x ->
  (forall n, ns_heap w !! x = Some n -> red_ n = is_red t -> (forall c l k v u, t = T c l k v u -> key_ n = k /\ val_ n = v) ->
    Q (f n) w) ->
  twp (n ← load x; mret (f n)) Q w.
Proof.
  intros Hw Hx HQ. destruct t as [|c l k v u].
  - change (x = Nil) in Hx. subst x. pose proof (winv_nil _ _ _ Hw) as Hn.
    apply twp_bind, (twp_load _ nil_node); [done|]. apply twp_ret, HQ; done.
  - destruct Hx as (_ & n & Hn & _ & Hc & Hk & Hv & _). apply twp_bind, (twp_load _ n); [done|]. apply twp_ret, HQ; [done..|].
    by intros ? ? ? ? ? [= _ _ <- <- _].
Qed.

Lemma twp_down sd c l k v u x w : winv r ∅ w -> w_nd w (T c l k v u) x ->
  twp (ref_child sd x) (kept (fun y w' => w_nd w' (subtree sd l u) y) w) w.
Proof.
  intros Hw (Hne & n & Hn & _ & _ & _ & _ & Hl & Hu).
  assert (w_ptr w (child sd n) (Old (subtree sd l u))) as Hp by (by destruct sd).
  eapply twp_conseq; [eapply (twp_ref_child_Old r ∅ sd x n); done|]. intros y w' (? & ? & ? & _). by split_and!.
Qed.

Lemma db_get_loop_spec fuel key : forall t x w, (height t < fuel)%nat -> winv r ∅ w -> w_nd w t x ->
  twp (get_loop fuel key x) (kept (fun res _ =>
    res = match find key t with Some v => (0, Some v) | None => (- ENOENT, None) end) w) w.
Proof.
  induction fuel as [|fuel IH]; intros t x w Hf Hw Hx; [lia|]. cbn [get_loop].
  destruct t as [|c l k v u].
  { change (x = Nil) in Hx. rewrite decide_True by done. by apply twp_ret. }
  rewrite decide_False by apply Hx. apply twp_bind. eapply twp_field; [done..|]. intros n _ _ Hn.
  destruct (Hn _ _ _ _ _ eq_refl) as [-> _]. simpl.
  assert (forall sd, find key (T c l k v u) = find key (subtree sd l u) -> twp (next ← ref_child sd x; get_loop fuel key next)
    (kept (fun res _ => res = match find key (T c l k v u) with Some v => (0, Some v) | None => (- ENOENT, None) end) w) w) as Hgo.
  { intros sd ->. apply twp_bind. eapply twp_conseq; [by eapply twp_down|]. intros y w1 (Hw1 & He1 & Hy).
    apply kept_trans; [done|]. apply IH; [|done..]. pose proof (height_subtree sd c l k v u). lia. }
  destruct (slice_cases key k) as [[Hc ->]|[[Hc Hk]|[Hc Hk]]].
  - rewrite Hc. simpl. apply twp_bind. eapply twp_field; [done..|]. intros n' _ _ Hn'.
    destruct (Hn' _ _ _ _ _ eq_refl) as [_ ->]. apply twp_ret. split_and!; [done..|]. by rewrite compare_refl.
  - rewrite (proj2 (Z.eqb_neq _ _)), (proj2 (Z.ltb_lt _ _)) by lia. apply (Hgo SideL). simpl. unfold slt in Hk. by rewrite Hk.
  - rewrite (proj2 (Z.eqb_neq _ _)), (proj2 (Z.ltb_ge _ _)) by lia. apply (Hgo SideR). simpl.
    apply compare_gt_slt in Hk. by rewrite Hk.
Qed.

(** The test of one child's key. *)
Lemma below_test sd t x (k : string) (n : Node) w : winv r ∅ w -> w_nd w t x ->
  (forall c l k' v u, t = T c l k' v u -> key_ n = k' /\ val_ n = v) ->
  bool_decide (x <> Nil) && (match sd with SideL => 0 <=? slice_compare (key_ n) k | SideR => slice_compare (key_ n) k <=? 0 end) = negb (below sd t k).
Proof.
  intros Hw Hx Hn. destruct t as [|c l k' v u].
  - change (x = Nil) in Hx. subst x. by rewrite bool_decide_false by (by intros []).
  - rewrite bool_decide_true by apply Hx. destruct (Hn _ _ _ _ _ eq_refl) as [-> _]. simpl.
    destruct (slice_cases k' k) as [[Hc E]|[[Hc Hk]|[Hc Hk]]]; [subst k'|..]; destruct sd.
    + rewrite bool_decide_false by apply slt_irrefl. simpl. lia.
    + rewrite bool_decide_false by apply slt_irrefl. simpl. lia.
    + rewrite bool_decide_true by done. simpl. lia.
    + rewrite bool_decide_false by (by apply slt_asym). simpl. lia.
    + rewrite bool_decide_false by (by apply slt_asym). simpl. lia.
    + rewrite bool_decide_true by done. simpl. lia.
Qed.

Lemma Validate_node_spec fuel : forall t x w, (height t < fuel)%nat -> winv r ∅ w -> w_nd w t x ->
  twp (Validate_node fuel x) (kept (fun h _ => h = black_height t) w) w.
Proof.
  induction fuel as [|fuel IH]; intros t x w Hf Hw Hx; [lia|]. cbn [Validate_node].
  destruct t as [|c l k v u].
  { change (x = Nil) in Hx. rewrite decide_True by done. by apply twp_ret. }
  rewrite decide_False by apply Hx. simpl in Hf.
  apply twp_bind, twp_notrace. eapply twp_conseq; [by eapply (twp_down SideL)|]. intros ln w1 (Hw1 & He1 & Hln). cbn [subtree] in Hln.
  apply (wext_nd _ _ He1) in Hx. apply kept_trans; [done|].
  apply twp_bind, twp_notrace. eapply twp_conseq; [by eapply (twp_down SideR)|]. intros rn w2 (Hw2 & He2 & Hrn). cbn [subtree] in Hrn.
  apply (wext_nd _ _ He2) in Hx. apply (wext_nd _ _ He2) in Hln. apply kept_trans; [done|].
  apply twp_bind. eapply twp_field; [done..|]. intros n _ Hc _. rewrite Hc.
  apply twp_bind. eapply twp_field; [exact Hw2|exact Hln|]. intros nl _ Hcl _. rewrite Hcl.
  apply twp_bind. eapply twp_field; [exact Hw2|exact Hrn|]. intros nr _ Hcr _. rewrite Hcr. simpl.
  destruct (c && (is_red l || is_red u)) eqn:Ec; [by apply twp_ret|].
  apply twp_bind. eapply twp_conseq; [apply (IH l); [lia|done|exact Hln]|]. intros lh w3 (Hw3 & He3 & ->).
  apply (wext_nd _ _ He3) in Hx. apply (wext_nd _ _ He3) in Hln. apply (wext_nd _ _ He3) in Hrn. apply kept_trans; [done|].
  apply twp_bind. eapply twp_conseq; [apply (IH u); [lia|done|exact Hrn]|]. intros rh w4 (Hw4 & He4 & ->).
  apply (wext_nd _ _ He4) in Hx. apply (wext_nd _ _ He4) in Hln. apply (wext_nd _ _ He4) in Hrn. apply kept_trans; [done|].
  apply twp_bind. eapply twp_field; [done..|]. intros n' _ _ Hk. destruct (Hk _ _ _ _ _ eq_refl) as [-> _].
  apply twp_bind. eapply twp_field; [exact Hw4|exact Hln|]. intros nl' _ _ Hkl.
  apply twp_bind. eapply twp_field; [exact Hw4|exact Hrn|]. intros nr' _ _ Hkr.
  rewrite (below_test SideL l ln k nl' w4), (below_test SideR u rn k nr' w4) by done.
  rewrite <- negb_andb. destruct (negb (below SideL l k && below SideR u k)); [by apply twp_ret|].
  destruct (negb (black_height l =? 0)), (negb (black_height u =? 0)), (black_height l =? black_height u); simpl; by apply twp_ret.
Qed.
End walks.
