(* ===== verification/DBImplSpec.v ===== *)
(** The database over its node cache and the log: the state its root denotes,
    reads, validation, the transactions begun on it, and a database restored
    from the log. *)
From S2P Require Import Prelude Slice RBTree Node Proto PersistentTree Delta PathCopy TreeSpec TransactionTree Intention Transaction.
From S2P Require Import Iterator IteratorSpec LruCache NodeCache NodeCacheSpec Matcher EntryService EntryServiceSpec TxnFinder CommitIndex DBImpl DBWalks.

Section spec.
Context {G : Type} {ZG : ZLog G} {ZL : ZLogLaws G} {PC : ProtoCodec} {SC : SliceCompare} {SL : SliceLaws}.
Context (std_hash : Z -> Z) (sizeof_node : Z) (scan_fuel entry_cache_size fuel bound : nat).
Hypothesis fuel_enough : (bound < fuel)%nat.
(** See NodeCacheSpec.v: intentions from [horizon] on are not processed yet, and
    [promised] names the trees whose after images are still to be written. *)
Context (horizon : Z) (promised : NodeAddress -> tree -> Prop).
(** What the log holds. *)
Context (logged : gmap Z slot).

#[local] Instance the_source : AfterImageSource (EntryService G) := db_source entry_cache_size fuel.
#[local] Instance the_source_laws : AfterImageSourceLaws (EntryService G) :=
  es_source_laws entry_cache_size fuel bound fuel_enough logged.
#[local] Instance the_store : NodeStore (NodeCache (EntryService G)) := db_store std_hash sizeof_node scan_fuel entry_cache_size fuel.
#[local] Instance the_store_laws : NodeStoreLaws (NodeCache (EntryService G)) :=
  node_cache_laws std_hash sizeof_node scan_fuel horizon promised.

(** The root denotes [t]. *)
Definition db_tree (s : DBImpl G) (t : tree) : Prop :=
  ns_inv (cache_ s) /\ w_ptr (cache_ s) (root_ s) (Old t).

Definition db_log (s : DBImpl G) : gmap Z AfterImage := nc_log (cache_ s).

Lemma winv_empty r (w : NodeCache (EntryService G)) : ns_inv w -> winv r ∅ w.
Proof. intros Hi. split; [done|]. intros l an Hl. by rewrite lookup_empty in Hl. Qed.

Lemma nc_ext_wext (w w' : NodeCache (EntryService G)) : nc_ext w w' -> wext w w'.
Proof.
  intros He. assert (nc_stored scan_fuel horizon w' = nc_stored scan_fuel horizon w) as Hst.
  { unfold nc_stored. by rewrite (ne_log _ _ He). }
  split; [exact Hst| | |].
  - change (nc_names scan_fuel horizon promised w' = nc_names scan_fuel horizon promised w). unfold nc_names. by rewrite Hst.
  - intros l [n Hn]. exists n. eapply lookup_weaken; [exact Hn|apply He].
  - intros u x. apply nc_nd_mono. exact He.
Qed.

(** What the source reads changes nothing. *)
Lemma db_tree_src s t es : db_tree s t -> src_ok entry_cache_size bound es -> slots es = slots (nc_src (cache_ s)) ->
  db_tree (set_cache (with_src es (cache_ s)) s) t.
Proof.
  intros [Hi Hp] Hes Hsl. destruct (ni_src _ _ _ _ _ Hi) as [_ Hlogged].
  destruct (nc_inv_src std_hash scan_fuel horizon promised es (cache_ s)) as [Hi' He]; [exact Hi| | |].
  - split; [done|congruence].
  - change (es_src_log es = es_src_log (nc_src (cache_ s))). unfold es_src_log. by rewrite Hsl.
  - split; [done|]. eapply w_ptr_mono; [by apply nc_ext_wext|exact Hp].
Qed.

(** A computation on the cache that keeps every snapshot keeps the database's. *)
Lemma db_tree_step r s w t : db_tree s t -> winv r ∅ w -> wext (cache_ s) w -> db_tree (set_cache w s) t.
Proof. intros [_ Hp] [Hw _] He. split; [done|]. by eapply w_ptr_mono. Qed.

Lemma db_winv r s t : db_tree s t -> winv r ∅ (cache_ s).
Proof. intros [Hi _]. by apply winv_empty. Qed.

Lemma wp_traced {A} r s (m : TM A) (Q : A -> NodeCache (EntryService G) -> Prop) : twp m (kept r Q (cache_ s)) (cache_ s) ->
  wp (traced m) (fun a s' => exists w, s' = set_cache w s /\ winv r ∅ w /\ wext (cache_ s) w /\ Q a.1 w) s.
Proof.
  intros Hm. specialize (Hm []). unfold wp, traced in *. destruct (m (cache_ s, [])) as [[a [w tr]]| |]; [|done|done].
  destruct Hm as (? & ? & ?). by exists w.
Qed.

Lemma db_root_spec r s t : db_tree s t ->
  twp (ref (root_ s)) (kept r (fun x w => w_nd w t x.1) (cache_ s)) (cache_ s).
Proof.
  intros Hs. eapply twp_conseq; [eapply twp_ref_Old; [by eapply db_winv|apply Hs]|]. intros [x p] w (Hw' & He & _ & Hx & _). by split_and!.
Qed.

Lemma db_UpdateLRU_spec s t tr : db_tree s t ->
  wp (UpdateLRU tr) (fun _ s' => db_tree s' t /\ exists w, s' = set_cache w s) s.
Proof.
  intros Hs. unfold UpdateLRU, on_cache. apply wp_zoom.
  destruct (ns_update_lru_law (cache_ s) tr) as (Hi & Hh & Hst & Hnm); [apply Hs|].
  assert (NodeCache.UpdateLRU tr (cache_ s) = Ok (tt, ns_update_lru tr (cache_ s))) as Hu by (by destruct tr).
  unfold wp. rewrite Hu. split; [|by eexists]. eapply db_tree_step; [done|by apply (winv_empty 0)|].
  split; [done|done|intros l; by rewrite Hh|]. intros u x. unfold w_nd. by rewrite Hh, Hst, Hnm.
Qed.

(** [Get] looks a user key up in the tree of the root. *)
Lemma db_Get_spec key t s : db_tree s t -> (height t < fuel)%nat ->
  wp (Get std_hash sizeof_node scan_fuel entry_cache_size fuel key) (fun res s' =>
    res = match find (prefix_string PREFIX_USER key) t with Some v => (0, Some v) | None => (- ENOENT, None) end /\
    db_tree s' t /\ exists w, s' = set_cache w s) s.
Proof.
  intros Hs Hf. unfold Get, GetSnapshot. apply wp_bind, wp_bind, wp_get, wp_ret, wp_bind.
  eapply wp_conseq.
  { apply (wp_traced 0). apply twp_bind. eapply twp_conseq; [by eapply db_root_spec|]. intros [x p] w (Hw & He & Hx).
    apply kept_trans; [done|]. by eapply db_get_loop_spec. }
  intros [res tr] s1 (w & -> & Hw & He & Hres). simpl in Hres.
  apply wp_bind. eapply wp_conseq; [apply db_UpdateLRU_spec; by eapply db_tree_step|]. intros [] s2 (Hs2 & w2 & ->).
  apply wp_ret. split_and!; [done|done|]. by exists w2.
Qed.

(** [Validate] computes the black height of the root's tree. *)
Lemma Validate_result s t : db_tree s t -> (height t < fuel)%nat ->
  exists w, Validate std_hash sizeof_node scan_fuel entry_cache_size fuel s =
    if black_height t =? 0 then AssertFail else Ok (tt, set_cache w s).
Proof.
  intros Hs Hf.
  assert (wp (traced ('(x, _) ← ref_notrace (root_ s); Validate_node fuel x)) (fun a s' => exists w, s' = set_cache w s /\ winv 0 ∅ w /\ wext (cache_ s) w /\ a.1 = black_height t) s) as Hv.
  { apply (wp_traced 0 s _ (fun h _ => h = black_height t)).
    apply twp_bind, twp_notrace. eapply twp_conseq; [by eapply db_root_spec|]. intros [x p] w (Hw & He & Hx).
    apply kept_trans; [done|]. by eapply Validate_node_spec. }
  apply wp_run in Hv as ([h tr] & s1 & Hv & w & -> & _ & _ & Hh). simpl in Hh. subst h. exists w.
  unfold Validate, mbind, M_bind, get. 
  match goal with |- context [traced ?m s] => replace (traced m s) with (Ok ((black_height t, tr), set_cache w s)) by (symmetry; exact Hv) end.
  unfold assert_that.
  by destruct (black_height t =? 0).
Qed.

(** ** Transactions begun on the database *)

Lemma BeginTransaction_spec token s t n : db_tree s t -> in_flight_txn_rid_ s < 0 ->
  rbtree t -> (size t <= n)%nat ->
  wp (BeginTransaction token) (fun tx s' => s' = set_begun (in_flight_txn_rid_ s - 1) (u64 (transactions_started s + 1)) s /\
    tx_tree tx = Some (new_tree true (root_ s) (in_flight_txn_rid_ s)) /\
    forall P, open_with (in_flight_txn_rid_ s) P n (mkProtoIntention (root_snapshot_ s) token false []) token (to_map t) (cache_ s', tx)) s.
Proof.
  intros [Hw Hp] Hr Hrb Hn. unfold BeginTransaction. apply wp_bind, wp_get, wp_bind, wp_modify.
  unfold new_transaction. apply wp_bind, wp_assert; [by apply Z.ltb_lt|]. apply wp_ret. split_and!; [done..|].
  intros P. eexists. split_and!; [reflexivity|done|done|done|]. exists t. split_and!; [done..|].
  exists ∅, (DL t). split_and!; [|split; [constructor|]|done].
  - split; [by apply winv_empty|]. by apply tinv_empty.
  - by exists t.
Qed.

(** ** A database restored from the log *)

Lemma restore_inv es imap : src_ok entry_cache_size bound es -> slots es = logged -> images_ok (es_src_log es) ->
  horizon <= 2 ^ 63 ->
  nc_inv std_hash scan_fuel horizon promised (new_node_cache imap es).
Proof.
  intros Hs Hsl Hi Hh. split; try done.
  - intros p off x Hx. unfold cached in Hx. simpl in Hx.
    apply bind_Some in Hx as (sh & E & Hx). apply (lookup_replicate num_slots (mkShard ∅ sl_empty)) in E as [-> _].
    simpl in Hx. by rewrite lookup_empty in Hx.
  - exists []. apply new_lru_holds.
Qed.

(** The log, through its entry service, holds [t] in the after image of [point]. *)
Record log_holds (es : EntryService G) (point : RestorePoint) (t : tree) : Prop := {
  lh_src : src_ok entry_cache_size bound es;
  lh_slots : slots es = logged;
  lh_images : images_ok (es_src_log es);
  lh_horizon : horizon <= 2 ^ 63;
  lh_processed : published horizon (ai_intention (after_image point));
  lh_image : es_src_log es !! after_image_pos point = Some (after_image point);
  lh_tree : match ai_tree (after_image point) with
    | [] => t = E
    | _ => image_at scan_fuel horizon (es_src_log es) t (after_image_pos point) (Z.of_nat (length (ai_tree (after_image point))) - 1)
    end;
}.

Lemma new_db_spec imap point es t : log_holds es point t ->
  exists s, new_db std_hash sizeof_node imap point es = Ok s /\ db_tree s t /\ in_flight_txn_rid_ s = -1 /\
    root_snapshot_ s = ai_intention (after_image point) /\ last_intention_processed_ s = ai_intention (after_image point) /\
    intention_iterator_ s = replay_start_pos point /\ committed_intentions_ s = ∅ /\ finished_txns_ s = ∅ /\
    txn_finder_ s = new_finder.
Proof.
  intros [Hs Hsl Hi Hh Hpub Ha Ht]. unfold new_db. set (es' := with_es_pos (replay_start_pos point) es).
  assert (src_ok entry_cache_size bound es') as Hs' by (by destruct Hs).
  pose proof (restore_inv es' imap Hs' Hsl Hi Hh) as Hinv.
  pose proof (CacheAfterImage_spec std_hash sizeof_node scan_fuel horizon promised (after_image point) (after_image_pos point)
    (new_node_cache imap es') Hinv Ha Hpub) as Hc.
  apply wp_run in Hc as (q & w & Hc & Hi' & He & _ & Hnil & Hlast). rewrite Hc. eexists. split; [reflexivity|].
  split_and!; [|done..]. split; [done|]. simpl.
  destruct (ai_tree (after_image point)) as [|n0 ns] eqn:Et.
  - rewrite (Hnil eq_refl). subst t. by split.
  - destruct (Hlast ltac:(done)) as (x & Hx & ->).
    pose proof (ne_log _ _ He) as Hlog.
    assert (image_at scan_fuel horizon (nc_log w) t (after_image_pos point) (Z.of_nat (length (n0 :: ns)) - 1)) as Hd.
    { by rewrite Hlog. }
    split; [by apply (ni_cached _ _ _ _ _ Hi' _ _ _ Hx)|]. intros Hne. split; [done|]. eexists. split; [reflexivity|].
    left. exists (after_image_pos point).
    destruct t as [|c l k v u]; [done|]. pose proof Hd as (ai & n & _ & Hp & Hoff & _).
    split; unfold located, make_address, u64, u16; cbn [IsAfterImage Node.Position Offset]; rewrite Z.mod_small; try lia; done.
Qed.
End spec.
