(* ===== verification/Publish.v ===== *)
(** Publishing a tree: the processor replays a committed intention on the last
    root, numbers the delta and installs it as the new root (src/src/db/db_impl.cc,
    [TransactionProcessorEntry]).  From then on the nodes of the delta are those
    of a processed intention, and the addresses handed out promise its after
    image. *)
From S2P Require Import Prelude Slice RBTree Node Proto PersistentTree Delta PathCopy TreeSpec TransactionTree Infect Intention Transaction.
From S2P Require Import Iterator LruCache NodeCache NodeCacheSpec Matcher EntryService EntryServiceSpec TxnFinder CommitIndex DBImpl DBWalks DBImplSpec.

(** ** The delta, seen from the new horizon *)

Section published.
Context {W : Type} {NS : NodeStore W} {NSL : NodeStoreLaws W} {SC : SliceCompare} {SL : SliceLaws}.
Context (r : Z).
Hypothesis r_i64 : i64 (u64 r) = r.
Hypothesis r_nil : delta_id ns_hor r.
Context (δ : gmap loc anode) (w : W) (hor : Z) (stored names : NodeAddress -> tree -> Prop).
Hypothesis delta_inv : winv r δ w.
Hypothesis later_horizon : ns_hor <= hor.
Hypothesis now_published : published hor r.
Hypothesis more_stored : forall a t, ns_stored w a t -> stored a t.
Hypothesis more_names : forall a t, ns_names w a t -> names a t.

Lemma old_ptr_denotes p t : w_field w p (Old t) -> ptr_denotes stored names (node_denotes hor stored names (ns_heap w) t) p t.
Proof.
  intros [_ [H1 H2]]. split.
  - destruct (ref_ p) as [x|]; [by eapply nd_weaken|]. destruct H1 as (? & a & ? & ?). eauto.
  - intros Hne. destruct (H2 Hne) as (? & a & ? & ?). eauto.
Qed.

Lemma numbered_denotes addr d : forall base, numbered_at δ addr d base ->
  (forall a t, assigned_at addr d base a t -> names a t) ->
  forall l c a k v b, d = DN l c a k v b -> node_denotes hor stored names (ns_heap w) (erase d) l.
Proof.
  assert (forall d off p, points_at addr p d off -> (forall q, w_field w q p ->
    (forall l c a k v b, d = DN l c a k v b -> names (addr off) (erase d) /\
      node_denotes hor stored names (ns_heap w) (erase d) l) ->
    ptr_denotes stored names (node_denotes hor stored names (ns_heap w) (erase d)) q (erase d))) as Hptr.
  { intros d' off p Hp q Hq Hd. destruct d' as [t|l c a k v b]; simpl in Hp.
    - destruct Hp as [->|[-> ->]]; [by apply old_ptr_denotes|]. destruct Hq as (_ & Hq & _). split; [by rewrite Hq|done].
    - subst p. destruct Hq as (Hdb & Hq & _ & Ha). destruct (Hd _ _ _ _ _ _ eq_refl) as [Hn Hnd].
      split; [by rewrite Hq|]. intros _. split; [done|]. eauto. }
  induction d as [t|l c a IHa k v b IHb]; [done|]. intros base (pa & pb & Hl & Hpa & Hpb & Ha & Hb) Hass ? ? ? ? ? ? [= <- <- <- <- <- <-].
  destruct (winv_lookup _ _ _ _ _ delta_inv Hl) as (n & Hn & Hc & Hk & Hv & Hr & _ & Hfl & Hfr). simpl in Hc, Hk, Hv, Hfl, Hfr.
  split; [eapply (delta_not_nil r r_nil); eauto|]. exists n. rewrite Hr. split_and!; try done.
  - eapply Hptr; [exact Hpa|done|]. intros l1 c1 a1 k1 v1 b1 Ed. split.
    + apply Hass. simpl. right. left. rewrite Ed. by left.
    + eapply IHa; [done| |done]. intros x t Hx. apply Hass. simpl. auto.
  - eapply Hptr; [exact Hpb|done|]. intros l1 c1 a1 k1 v1 b1 Ed. split.
    + apply Hass. simpl. right. right. rewrite Ed. by left.
    + eapply IHb; [done| |done]. intros x t Hx. apply Hass. simpl. auto.
Qed.
End published.

Lemma assigned_position pos d : forall base a t, assigned pos d base a t -> Node.Position a = u64 pos.
Proof.
  induction d as [t0|l c a IHa k v b IHb]; intros base x t; [done|]. simpl. intros [[-> _]|[?|?]]; [done|eauto..].
Qed.

(** ** Replay, the key of the commit, and infection *)

Definition commit_key (pos : Z) : string := prefix_string PREFIX_COMMITTED_INTENTION (ci_key pos).

(** An operation of a transaction: it leaves the keys of commits alone. *)
Definition op_user (op : TransactionOp) : Prop :=
  op_ok op /\ forall k, op_writes op <> Some (prefix_string PREFIX_COMMITTED_INTENTION k).

(** What committing the operations at [pos] makes of the database. *)
Definition commit_spec (pos : Z) (ops : list TransactionOp) (m : gmap string string) : gmap string string :=
  <[commit_key pos := ""]> (ops_spec ops m).

Lemma commit_key_inj p q : 0 <= p < 2 ^ 64 -> 0 <= q < 2 ^ 64 -> commit_key p = commit_key q -> p = q.
Proof. intros Hp Hq E%prefix_string_inj. by apply ci_key_inj. Qed.

Lemma ops_spec_commit_key ops m k : Forall op_user ops ->
  ops_spec ops m !! prefix_string PREFIX_COMMITTED_INTENTION k = m !! prefix_string PREFIX_COMMITTED_INTENTION k.
Proof. intros Hops. apply ops_spec_other. eapply Forall_impl; [done|]. by intros op [_ ?]. Qed.

Section replay.
Context {W : Type} {NS : NodeStore W} {NSL : NodeStoreLaws W} {SC : SliceCompare} {SL : SliceLaws}.

(** The key of the commit; the tree is not emptied, since it has the key of an
    earlier one. *)
Lemma commit_key_spec fuel r pos q s n m : i64 (u64 r) = r -> delta_id ns_hor r -> is_Some (m !! commit_key q) ->
  0 <= q < pos -> pos < 2 ^ 64 -> (n < fuel)%nat -> represents_with r False s n m ->
  wp (PutPrefixed fuel PREFIX_COMMITTED_INTENTION (ci_key pos) "") (fun _ s' => exists t, rbtree t /\ (size t <= S n)%nat /\
    to_map t = <[commit_key pos := ""]> m /\ holds r False s' t /\ t <> E /\ is_Some (pt_root s'.2) /\ later s s') s.
Proof.
  intros Hi Hn Hq Hqp Hpos Hf Hr. eapply wp_conseq.
  { unfold PutPrefixed. eapply Put_map; [done|done|exact Hf| |exact Hr]. right. exists (commit_key q). split; [|done].
    intros E. apply commit_key_inj in E; lia. }
  intros [] s2 (Hroot & (t & Hrb & Hsz & Hm & Hh) & Hl2). exists t. split_and!; try done.
  intros ->. assert (to_map E !! commit_key pos = Some ""%string) as E; [|done]. rewrite Hm. apply lookup_insert_eq.
Qed.

Definition replay_commit (fuel : nat) (i : Intention) (pos : Z) : PM (option Z) :=
  ReplayIntention fuel i;;
  PutPrefixed fuel PREFIX_COMMITTED_INTENTION (ci_key pos) "";;
  infect_self_pointers fuel pos true.

Lemma replay_commit_spec fuel i pos q s n m : let ops := pi_ops (intention_ i) in
  i64 (u64 (i64 pos)) = i64 pos -> delta_id ns_hor (i64 pos) -> is_Some (pos_ i) -> Forall op_user ops ->
  is_Some (m !! commit_key q) -> 0 <= q < pos -> pos < 2 ^ 64 -> (S (n + length ops) < fuel)%nat ->
  represents_with (i64 pos) False s n m ->
  wp (replay_commit fuel i pos) (fun o s' => exists d x, rbtree (erase d) /\ (size (erase d) <= S (n + length ops))%nat /\
    to_map (erase d) = commit_spec pos ops m /\ o = Some (dsize d - 1) /\ 0 < dsize d /\
    ready (i64 pos) pos s' d x /\ later s s') s.
Proof.
  intros ops Hi Hn Hp Hops Hq Hqp Hpos Hf Hr. unfold replay_commit. apply wp_bind. eapply wp_conseq.
  { apply (ReplayIntention_spec (i64 pos) False fuel i s n m); try done; fold ops; [lia| |right].
    - eapply Forall_impl; [done|]. by intros op [? _].
    - exists (commit_key q). split; [done|]. eapply Forall_impl; [done|]. intros op [_ Ho]. apply Ho. }
  intros [] s1 [Hr1 Hl1]. fold ops in Hr1. apply wp_bind. eapply wp_conseq.
  { eapply (commit_key_spec fuel (i64 pos) pos q); [done|done| |done|done| |exact Hr1]; [|lia].
    unfold commit_key. by rewrite ops_spec_commit_key. }
  intros [] s2 (t & Hrb & Hsz & Hm & Hh & Hne & Hroot & Hl2).
  pose proof (height_size t). eapply wp_conseq; [eapply (infect_self_pointers_spec (i64 pos)); try done; lia|].
  intros o s3 (d & x & <- & -> & Hd & Hready & He3). exists d, x. split_and!; try done.
  etransitivity; [exact Hl1|]. etransitivity; [exact Hl2|]. by apply sext_later.
Qed.

(** The tree of a transaction of this instance, whose id is negative. *)
Definition own_commit (fuel : nat) (pos : Z) : PM (option Z) :=
  PutPrefixed fuel PREFIX_COMMITTED_INTENTION (ci_key pos) "";;
  infect_self_pointers fuel pos false.

Lemma own_commit_spec fuel r pos q s n m : r < 0 -> i64 (u64 r) = r -> delta_id ns_hor r ->
  i64 (u64 (i64 pos)) = i64 pos -> delta_id ns_hor (i64 pos) -> is_Some (m !! commit_key q) ->
  0 <= q < pos -> pos < 2 ^ 64 -> (S n < fuel)%nat -> represents_with r False s n m ->
  wp (own_commit fuel pos) (fun o s' => exists d x, rbtree (erase d) /\ (size (erase d) <= S n)%nat /\
    to_map (erase d) = <[commit_key pos := ""]> m /\ o = Some (dsize d - 1) /\ 0 < dsize d /\
    ready (i64 pos) pos s' d x /\ later s s') s.
Proof.
  intros Hneg Hi Hn Hi' Hn' Hq Hqp Hpos Hf Hr. unfold own_commit. apply wp_bind. eapply wp_conseq.
  { eapply (commit_key_spec fuel r pos q); [done|done|exact Hq|done|done| |exact Hr]. lia. }
  intros [] s2 (t & Hrb & Hsz & Hm & Hh & Hne & Hroot & Hl2).
  pose proof (height_size t). eapply wp_conseq; [eapply (infect_own_spec r (i64 pos)); try done; lia|].
  intros o s3 (d & x & <- & -> & Hd & Hready & He3). exists d, x. split_and!; try done. by etransitivity.
Qed.
End replay.

(** ** The next root *)

Lemma i64_small pos : 0 <= pos < 2 ^ 63 -> i64 pos = pos /\ u64 pos = pos.
Proof. intros Hp. unfold i64, u64. rewrite !Z.mod_small by lia. lia. Qed.

Lemma i64_u64_small r : - 2 ^ 63 < r < 0 -> i64 (u64 r) = r.
Proof.
  intros Hr. unfold i64, u64. rewrite Zplus_mod_idemp_l. rewrite Z.mod_small by lia. lia.
Qed.

Lemma next_delta_id hor pos : 0 <= pos -> hor <= pos -> delta_id hor pos.
Proof.
  intros H0 Hp. assert (rid_ nil_node = - 2 ^ 63) as E by reflexivity. unfold delta_id, published. rewrite E. lia.
Qed.

Section database.
Context {G : Type} {ZG : ZLog G} {ZL : ZLogLaws G} {PC : ProtoCodec} {SC : SliceCompare} {SL : SliceLaws} {LC : LexicalCast}.
Context (std_hash : Z -> Z) (sizeof_node : Z) (scan_fuel entry_cache_size fuel bound : nat).
Hypothesis fuel_enough : (bound < fuel)%nat.
Context (logged : gmap Z slot).

#[local] Instance the_source : AfterImageSource (EntryService G) := db_source entry_cache_size fuel.
#[local] Instance the_source_laws : AfterImageSourceLaws (EntryService G) :=
  es_source_laws entry_cache_size fuel bound fuel_enough logged.
#[local] Instance the_store : NodeStore (NodeCache (EntryService G)) := db_store std_hash sizeof_node scan_fuel entry_cache_size fuel.

(** The laws of the store up to a horizon. *)
Abbreviation laws hor Pr := (node_cache_laws std_hash sizeof_node scan_fuel hor Pr).
Abbreviation db_tree hor Pr := (db_tree std_hash sizeof_node scan_fuel entry_cache_size fuel bound fuel_enough hor Pr logged).

Lemma wp_db_tree {A} tr (m : PM A) (Q : A * PersistentTree -> DBImpl G -> Prop) s :
  wp m (fun a s' => Q (a, s'.2) (set_cache s'.1 s)) (cache_ s, tr) -> wp (on_tree tr m) Q s.
Proof. unfold wp, on_tree. by destruct (m (cache_ s, tr)) as [[a [w t]]| |]. Qed.

(** What is promised once the delta of [d] is numbered. *)
Definition promise (Pr : NodeAddress -> tree -> Prop) (pos : Z) (d : dtree) (a : NodeAddress) (t : tree) : Prop :=
  Pr a t \/ assigned pos d 0 a t.

Lemma publish_spec hor Pr pos w (tr : PersistentTree) d x : 0 <= hor <= pos -> pos < 2 ^ 63 -> 0 < dsize d ->
  ready (NSL := laws hor Pr) pos pos (w, tr) d x ->
  x <> Nil /\ pt_root tr = Some x /\ ns_inv (NodeStoreLaws := laws (pos + 1) (promise Pr pos d)) w /\
  w_ptr (NSL := laws (pos + 1) (promise Pr pos d)) w (SetIntentionAddress pos (dsize d - 1) (mkNodePtr (Some x) None true)) (Old (erase d)).
Proof.
  intros Hhor Hpos Hd (δ & [Hw Ht] & Hx & Hhd & Hnd & Hnum). destruct (i64_small pos) as [Hi Hu]; [lia|].
  pose proof (next_delta_id hor pos ltac:(lia) ltac:(lia)) as Hid.
  assert (forall a t, promise Pr pos d a t -> published hor (Node.Position a) -> Pr a t) as Honly.
  { intros a t [?|Ha] Hp; [done|]. rewrite (assigned_position _ _ _ _ _ Ha), Hu in Hp. unfold published in Hp. lia. }
  destruct d as [t|l c a k v b]; [done|]. injection Hhd as ->.
  assert (is_Some (δ !! x)) as Hlive by (eapply numbered_locs; [exact Hnum|by apply elem_of_cons; left]).
  split; [by eapply (delta_not_nil (NSL := laws hor Pr) pos Hid)|]. split; [done|]. split.
  - apply (nc_inv_advance std_hash scan_fuel hor (pos + 1) Pr); [lia|by left|done|]. apply Hw.
  - assert (forall y u, nc_names scan_fuel hor Pr w y u -> nc_names scan_fuel (pos + 1) (promise Pr pos (DN x c a k v b)) w y u) as Hnames.
    { intros y u [?|?]; [left|right; by left]. eapply stored_in_mono; [|done]. lia. }
    assert (forall y u, assigned pos (DN x c a k v b) 0 y u -> nc_names scan_fuel (pos + 1) (promise Pr pos (DN x c a k v b)) w y u) as Hass.
    { intros y u ?. right. by right. }
    split.
    + change (node_denotes (pos + 1) (nc_stored scan_fuel (pos + 1) w) (nc_names scan_fuel (pos + 1) (promise Pr pos (DN x c a k v b)) w)
        (ns_heap w) (erase (DN x c a k v b)) x).
      eapply (numbered_denotes (NSL := laws hor Pr) pos); [exact Hid|exact Hw|simpl; lia|unfold published; lia| |exact Hnames|exact Hnum|exact Hass|done].
      intros y u. apply stored_in_mono. simpl. lia.
    + intros _. split; [done|]. eexists. split; [reflexivity|]. apply Hass. left. split; [|done].
      by rewrite Z.add_0_l.
Qed.

(** The tree [next_root] replays, in the state it leaves. *)
Lemma next_root_ready hor Pr s t i pos q n : let ops := pi_ops (intention_ i) in
  db_tree hor Pr s t -> rbtree t -> (size t <= n)%nat -> is_Some (to_map t !! commit_key q) -> 0 <= q < pos ->
  0 <= hor <= pos -> pos < 2 ^ 63 -> is_Some (pos_ i) -> Forall op_user ops -> (S (n + length ops) < fuel)%nat ->
  wp (next_root std_hash sizeof_node scan_fuel entry_cache_size fuel i pos None) (fun '(o, tr) s' => exists w d x,
    s' = set_cache w s /\ rbtree (erase d) /\ (size (erase d) <= S (n + length ops))%nat /\
    to_map (erase d) = commit_spec pos ops (to_map t) /\ o = Some (dsize d - 1) /\ 0 < dsize d /\
    ready (NSL := laws hor Pr) pos pos (w, tr) d x /\ wext (NSL := laws hor Pr) (cache_ s) w /\
    pt_intention tr = Some pos /\ pt_afterimage tr = None) s.
Proof.
  intros ops [Hi Hp] Hrb Hsz Hq Hqp Hhor Hpos Hip Hops Hf. destruct (i64_small pos) as [Hi64 Hu]; [lia|].
  unfold next_root. apply wp_bind, wp_get, wp_db_tree.
  eapply wp_conseq.
  { eapply (replay_commit_spec (NSL := laws hor Pr) fuel i pos q _ n (to_map t)); try done; rewrite ?Hi64.
    - by rewrite Hu.
    - apply next_delta_id; simpl; lia.
    - lia.
    - exists t. split_and!; [done..|]. exists ∅, (DL t). split_and!; [|split; [constructor|]|done].
      + split; [split; [exact Hi|]|].
        * intros l an Hl. by rewrite lookup_empty in Hl.
        * by apply tinv_empty.
      + by exists t. }
  intros o [w tr] (d & x & Hrb' & Hsz' & Hm & -> & Hd & Hready & Hl). rewrite Hi64 in Hready.
  exists w, d, x. split_and!; try done; [exact (later_w _ _ Hl)|exact (later_intention _ _ Hl)|exact (later_afterimage _ _ Hl)].
Qed.

(** The same for the tree of a transaction of this instance. *)
Lemma next_root_own hor Pr s i t r pos q n m : represents_with (NSL := laws hor Pr) r False (cache_ s, t) n m ->
  - 2 ^ 63 < r < 0 -> is_Some (m !! commit_key q) -> 0 <= q < pos -> 0 <= hor <= pos -> pos < 2 ^ 63 -> (S n < fuel)%nat ->
  wp (next_root std_hash sizeof_node scan_fuel entry_cache_size fuel i pos (Some t)) (fun '(o, tr) s' => exists w d x,
    s' = set_cache w s /\ rbtree (erase d) /\ (size (erase d) <= S n)%nat /\
    to_map (erase d) = <[commit_key pos := ""]> m /\ o = Some (dsize d - 1) /\ x <> Nil /\ pt_root tr = Some x /\
    forall s'', cache_ s'' = w -> root_ s'' = SetIntentionAddress pos (dsize d - 1) (mkNodePtr (Some x) None true) ->
      db_tree (pos + 1) (promise Pr pos d) s'' (erase d)) s.
Proof.
  intros Hr Hneg Hq Hqp Hhor Hpos Hf. destruct (i64_small pos) as [Hi64 Hu]; [lia|]. apply wp_db_tree. eapply wp_conseq.
  { eapply (own_commit_spec (NSL := laws hor Pr) fuel r pos q _ n m); try done; try lia; rewrite ?Hi64.
    - by apply i64_u64_small.
    - by apply negative_delta_id.
    - by rewrite Hu.
    - apply next_delta_id; simpl; lia. }
  intros o [w tr] (d & x & Hrb & Hsz & Hm & -> & Hd & Hready & _). rewrite Hi64 in Hready.
  destruct (publish_spec hor Pr pos w tr d x) as (Hne & Hx & Hinv & Hptr); [done..|].
  exists w, d, x. split_and!; try done. intros s'' <- Hroot. split; [exact Hinv|]. by rewrite Hroot.
Qed.

(** An intention that is not committed only moves the horizon. *)
Lemma db_tree_horizon hor hor' Pr s t : hor <= hor' <= 2 ^ 63 -> db_tree hor Pr s t -> db_tree hor' Pr s t.
Proof.
  intros Hh [Hi Hp]. split; [by apply (nc_inv_advance std_hash scan_fuel hor hor' Pr Pr)|].
  assert (forall a u, nc_stored scan_fuel hor (cache_ s) a u -> nc_stored scan_fuel hor' (cache_ s) a u) as Hst.
  { intros a u. apply stored_in_mono. lia. }
  destruct Hp as [H1 H2]. split.
  - destruct (ref_ (root_ s)).
    + eapply nc_nd_advance; [exact Hh|done|exact H1].
    + destruct H1 as (? & a & ? & ?). split; [done|]. exists a. split; [done|]. by apply Hst.
  - intros Hne. destruct (H2 Hne) as (? & a & ? & [?|?]); (split; [done|]); exists a; (split; [done|]); [left; by apply Hst|by right].
Qed.

(** The commit of an intention, from what its parts do: the new root is
    published under the addresses promised. *)
Definition published_state (s : DBImpl G) (idx : CommittedIntentionIndex) (fin : FinishedTransactions) (pos off : Z) (w : NodeCache (EntryService G))
    (x : loc) (l : list PersistentTree) (f : TransactionFinder) (m : gmap Z wait_id) (dn : gmap wait_id bool) : DBImpl G :=
  set_finder f (set_waiting m dn (set_lcs l (set_last pos (set_root (SetIntentionAddress pos off (mkNodePtr (Some x) None true)) pos
    (set_cache w (set_finished fin (set_committed_index idx s))))))).

Lemma commit_intention_run (R : NodeCache (EntryService G) -> Z -> loc -> PersistentTree -> Prop) (F : TransactionFinder -> Prop) i pos serial idx o fin s :
  CommitIndex.push pos (committed_intentions_ s) = Ok (tt, idx) ->
  (if (serial : bool) then Find pos (finished_txns_ s) else Ok (None, finished_txns_ s)) = Ok (o, fin) ->
  let s4 := set_finished fin (set_committed_index idx s) in
  wp (next_root std_hash sizeof_node scan_fuel entry_cache_size fuel i pos o) (fun '(ro, tr) s' => exists w off x,
    s' = set_cache w s4 /\ ro = Some off /\ x <> Nil /\ pt_root tr = Some x /\ R w off x tr) s4 ->
  last_intention_processed_ s < pos ->
  wp (Notify (i64 (Token i)) pos true) (fun _ f' => F f') (txn_finder_ s) ->
  wp (commit_intention std_hash sizeof_node scan_fuel entry_cache_size fuel i pos serial) (fun more s' => more = true /\
    exists w off x tr f m dn, R w off x tr /\ F f /\ s' = published_state s idx fin pos off w x (lcs_trees_ s ++ [tr]) f m dn) s.
Proof.
  intros Hpush Hfind s4 Hnext Hlast Hnotify. unfold commit_intention. apply wp_bind. unfold on_index. apply wp_zoom.
  unfold wp at 1. rewrite Hpush. apply wp_bind.
  eapply (wp_conseq _ (fun o' s' => o' = o /\ s' = s4)).
  { destruct serial.
    - unfold on_finished. apply wp_zoom. unfold wp. simpl. by rewrite Hfind.
    - apply wp_ret. injection Hfind as <- <-. split; [done|]. by destruct s. }
  intros o' s' [-> ->]. apply wp_bind. eapply wp_conseq; [exact Hnext|].
  intros [ro tr] s' (w & off & x & -> & -> & Hne & -> & HR).
  apply wp_bind, wp_assert; [by apply bool_decide_eq_true|]. apply wp_bind, wp_modify, wp_bind, wp_get.
  apply wp_bind, wp_assert; [by apply Z.ltb_lt|]. apply wp_bind, wp_modify, wp_bind, wp_modify, wp_bind.
  unfold NotifyTransaction, NotifyIntention. apply wp_bind, wp_modify. unfold on_finder. apply wp_zoom.
  eapply wp_conseq; [exact Hnotify|]. intros [] f HF. apply wp_ret. split; [done|].
  by eexists w, off, x, tr, f, _, _.
Qed.
End database.
