(* ===== verification/Conflict.v ===== *)
(** The conflict decision of the transaction processor: the positions of the
    conflict zone, from the index in memory and from the keys of committed
    intentions in the tree, and what [ProcessConcurrentIntention] decides. *)
From S2P Require Import Prelude Slice RBTree Node Proto PersistentTree Delta PathCopy TreeSpec TransactionTree Intention Transaction.
From S2P Require Import Iterator IteratorSpec LruCache NodeCache NodeCacheSpec Matcher EntryService EntryServiceSpec.
From S2P Require Import TxnFinder CommitIndex DBImpl DBWalks DBImplSpec.

(** ** The keys of committed intentions, as a sorted range *)

(** Past a user key, the entries of the prefix are the next ones. *)
Lemma user_next p k l : StronglySorted slt (l.*1 : list string) ->
  user_entry p (head (beyond SideR (prefix_string p k) l)) = head (beyond SideR k (user_entries p l)).
Proof.
  simpl. induction l as [|[k0 v0] l IH]; [done|]. rewrite fmap_cons. intros [Hs HF]%StronglySorted_inv.
  apply Forall_keys in HF. specialize (IH Hs). unfold user_entries in *. simpl in HF.
  destruct (in_prefix p k0) eqn:Ep.
  - rewrite (filter_cons_True (fun kv => in_prefix p kv.1 = true)) by done. rewrite fmap_cons. simpl.
    pose proof Ep as [k' ->]%in_prefix_spec. rewrite strip_prefix.
    destruct (decide (slt k k')) as [Hk|Hk].
    + rewrite !filter_cons_True by (simpl; rewrite ?prefix_string_slt; tauto). simpl. by rewrite Ep, strip_prefix.
    + rewrite !filter_cons_False by (simpl; rewrite ?prefix_string_slt; tauto). done.
  - rewrite (filter_cons_False (fun kv => in_prefix p kv.1 = true)) by (simpl; congruence).
    destruct (decide (slt (prefix_string p k) k0)) as [Hk|Hk]; [|by rewrite filter_cons_False by (simpl; tauto)].
    rewrite filter_cons_True by (simpl; tauto). simpl. rewrite Ep.
    destruct (filter _ (_ <$> _)) as [|[k1 v1] rest] eqn:Ef; [done|]. exfalso.
    assert (Hin : (k1, v1) ∈ (k1, v1) :: rest) by set_solver.
    rewrite <- Ef in Hin. apply list_elem_of_filter in Hin as [_ ([k2 v2] & _ & Hin)%list_elem_of_fmap].
    apply list_elem_of_filter in Hin as [Hp Hin]. apply in_prefix_spec in Hp as [k' Hp]. simpl in Hp. subst k2.
    rewrite Forall_forall in HF. apply HF in Hin. simpl in Hin.
    assert (~ slt k0 (prefix_string p k)) as Hk' by (by apply slt_asym).
    destruct (prefix_convex p k k' k0 Hk' Hin) as [k'' Hk'']. rewrite (proj2 (in_prefix_spec p k0)) in Ep; eauto; done.
Qed.

Lemma user_entry_prefixed p k v : user_entry p (Some (prefix_string p k, v)) = Some (k, v).
Proof.
  assert (in_prefix p (prefix_string p k) = true) as E by (apply in_prefix_spec; eauto).
  unfold user_entry. simpl. by rewrite E, strip_prefix.
Qed.

Lemma head_of_fmap {A B} (f : A -> B) (l : list A) : f <$> head l = head (f <$> l).
Proof. by destruct l. Qed.

Definition pos_ok (p : Z) : Prop := 0 <= p < 2 ^ 64.

Lemma ci_key_slt p q : pos_ok p -> pos_ok q -> slt (ci_key p) (ci_key q) <-> p < q.
Proof.
  unfold pos_ok. intros Hp Hq. split; [|intros ?; apply ci_key_lt; lia].
  intros Hs. destruct (Z.lt_total p q) as [|[->|Hlt]]; [done|by apply slt_irrefl in Hs|].
  exfalso. apply (slt_asym _ _ Hs). apply ci_key_lt; lia.
Qed.

(** Filters on the keys are filters on the positions. *)
Lemma filter_keys (Q : string -> Prop) (R : Z -> Prop) `{!forall x, Decision (Q x), !forall x, Decision (R x)} (U : list (string * string)) cs :
  U.*1 = ci_key <$> cs -> Forall (fun c => Q (ci_key c) <-> R c) cs -> (filter (fun kv => Q kv.1) U).*1 = ci_key <$> filter R cs.
Proof.
  revert cs. induction U as [|[k v] U IH]; intros [|c cs] E HF; try done. rewrite !fmap_cons in E. simpl in E.
  injection E as -> E. apply Forall_cons in HF as [Hc HF]. specialize (IH cs E HF).
  destruct (decide (R c)) as [Hr|Hr].
  - rewrite !filter_cons_True by (simpl; tauto). rewrite !fmap_cons, IH. done.
  - rewrite !filter_cons_False by (simpl; tauto). done.
Qed.

Lemma sorted_mid pre x ys : StronglySorted Z.lt (pre ++ x :: ys) ->
  filter (fun y => x < y) (pre ++ x :: ys) = ys /\ filter (fun y => x <= y) (pre ++ x :: ys) = x :: ys /\ Forall (fun y => x < y) ys /\ Forall (fun y => y < x) pre.
Proof.
  induction pre as [|z pre IH]; simpl.
  - intros [Hs HF]%StronglySorted_inv. split_and!; [| |done|constructor].
    + rewrite filter_cons_False by lia. by apply filter_all.
    + rewrite filter_cons_True by lia. f_equal. apply filter_all. eapply Forall_impl; [exact HF|]. simpl. lia.
  - intros [Hs HF]%StronglySorted_inv. destruct (IH Hs) as (H1 & H2 & H3 & H4).
    assert (z < x) by (rewrite Forall_forall in HF; apply HF; set_solver).
    rewrite !filter_cons_False by lia. split_and!; [done..|by constructor].
Qed.

Lemma last_elem (l : list Z) x : last l = Some x -> x ∈ l.
Proof. intros Hl. apply last_Some in Hl as [l' ->]. set_solver. Qed.

Lemma sorted_last (l : list Z) x : StronglySorted Z.lt l -> last l = Some x -> forall y, y ∈ l -> y <= x.
Proof.
  intros Hs [l' ->]%last_Some y [Hy|Hy%list_elem_of_singleton]%elem_of_app; [|lia].
  destruct (sorted_mid l' x [] Hs) as (_ & _ & _ & HF). rewrite Forall_forall in HF. apply HF in Hy. lia.
Qed.

Lemma sorted_suffix (pre w : list Z) : StronglySorted Z.lt (pre ++ w) -> StronglySorted Z.lt w.
Proof. induction pre as [|x pre IH]; [done|]. simpl. by intros [? _]%StronglySorted_inv; apply IH. Qed.

(** The positions of a sorted list before [f]. *)
Fixpoint before (f : Z) (ys : list Z) : list Z :=
  match ys with [] => [] | y :: ys => if y =? f then [] else y :: before f ys end.

Lemma elem_of_before f ys p : StronglySorted Z.lt ys -> f ∈ ys -> p ∈ before f ys <-> p ∈ ys /\ p < f.
Proof.
  induction ys as [|y ys IH]; [set_solver|]. intros [Hs HF]%StronglySorted_inv Hf. rewrite Forall_forall in HF. simpl.
  destruct (Z.eqb_spec y f) as [->|Hne].
  - split; [set_solver|]. intros [[->|Hp]%elem_of_cons ?]; [lia|]. apply HF in Hp. lia.
  - apply elem_of_cons in Hf as [?|Hf]; [congruence|]. rewrite !elem_of_cons, IH by done.
    split; [|tauto]. intros [->|?]; [|tauto]. split; [by left|]. by apply HF.
Qed.

Section zone.
Context {W : Type} {NS : NodeStore W} {NSL : NodeStoreLaws W} {SC : SliceCompare} {SL : SliceLaws}.
Context {LC : LexicalCast} {LCL : LexicalCastLaws}.
Context (r : Z) (t : tree) (w0 : W) (fuel : nat) (cs : list Z).
Hypothesis Ht : bst t.
Hypothesis Hfuel : (height t < fuel)%nat.
Hypothesis Hkeys : (user_entries PREFIX_COMMITTED_INTENTION (elements t)).*1 = ci_key <$> cs.
Hypothesis Hsorted : StronglySorted Z.lt cs.
Hypothesis Hrange : Forall pos_ok cs.

Abbreviation P := PREFIX_COMMITTED_INTENTION.

(** The iterator stands at the committed position that is first of [ys]. *)
Definition at_positions (ys : list Z) (s : W * RawIteratorImpl) : Prop :=
  exists c, cursor r t w0 c s /\ fst <$> user_entry P c = head (ci_key <$> ys).

Lemma at_positions_inv y ys s : at_positions (y :: ys) s ->
  exists v, cursor r t w0 (Some (prefix_string P (ci_key y), v)) s.
Proof.
  intros ([[k v]|] & Hc & He); [|done]. unfold user_entry in He. simpl in He.
  destruct (in_prefix P k) eqn:Ep; [|done]. injection He as He. apply in_prefix_spec in Ep as [k' ->].
  rewrite strip_prefix in He. subst k'. by exists v.
Qed.

Lemma wp_zone_valid ys s : at_positions ys s ->
  wp (Prefix_Valid P) (fun b s' => at_positions ys s' /\ b = match ys with [] => false | _ => true end) s.
Proof.
  intros (c & Hc & He). eapply wp_conseq; [by eapply wp_Prefix_Valid|]. intros b s' [Hc' ->]. split; [by exists c|].
  destruct c as [[k v]|]; unfold user_entry in He; simpl in He; [|by destruct ys]. destruct (in_prefix P k); by destruct ys.
Qed.

Lemma wp_committed_pos y ys s : pos_ok y -> at_positions (y :: ys) s ->
  wp committed_pos (fun p s' => at_positions (y :: ys) s' /\ p = y) s.
Proof.
  intros Hy Ha. pose proof Ha as (c & Hc0 & He). destruct (at_positions_inv _ _ _ Ha) as (v & Hc).
  unfold committed_pos. apply wp_bind. unfold Filtered_key. apply wp_bind.
  eapply wp_conseq; [by eapply wp_at_key|]. intros a s1 [Hc1 ->]. apply wp_ret.
  fold (strip P (prefix_string P (ci_key y))). rewrite strip_prefix, lexical_cast_key by done. apply wp_ret.
  split; [|done]. eexists. split; [exact Hc1|]. by rewrite user_entry_prefixed.
Qed.

Lemma wp_zone_next pre y ys s : cs = pre ++ y :: ys -> at_positions (y :: ys) s ->
  wp (Next fuel) (fun _ s' => at_positions ys s') s.
Proof.
  intros Ecs Ha. destruct (at_positions_inv _ _ _ Ha) as (v & Hc).
  eapply wp_conseq; [eapply (wp_iter_step r t Ht w0 fuel ItNext (Some (prefix_string P (ci_key y), v))); [done|reflexivity|done]|]. intros [] s' Hc'. eexists. split; [exact Hc'|].
  rewrite user_next by apply Ht. pose proof Hsorted as Hs. rewrite Ecs in Hs. destruct (sorted_mid _ _ _ Hs) as (E & _).
  assert (Forall (fun c => slt (ci_key y) (ci_key c) <-> y < c) cs) as HF.
  { apply Forall_forall. intros c Hc2. rewrite Forall_forall in Hrange. apply ci_key_slt; apply Hrange; [rewrite Ecs; set_solver|done]. }
  simpl. rewrite head_of_fmap. pose proof (filter_keys (fun k => slt (ci_key y) k) (fun c => y < c) _ cs Hkeys HF) as Ef.
  rewrite Ef. rewrite Ecs at 1. by rewrite E.
Qed.

Lemma zone_loop_spec n : forall pre ys f z s, (length ys < n)%nat -> cs = pre ++ ys -> at_positions ys s ->
  wp (zone_loop n fuel (f :: z)) (fun out s' => out = (f :: z) ++ before f ys /\ exists ys', at_positions ys' s') s.
Proof.
  induction n as [|n IH]; intros pre ys f z s Hn Ecs Ha; [lia|]. cbn [zone_loop].
  apply wp_bind. eapply wp_conseq; [by apply wp_zone_valid|]. intros b s1 [Ha1 ->].
  destruct ys as [|y ys]; [apply wp_ret; rewrite app_nil_r; eauto|].
  assert (pos_ok y) as Hy by (rewrite Forall_forall in Hrange; apply Hrange; rewrite Ecs; set_solver).
  apply wp_bind. eapply wp_conseq; [by eapply wp_committed_pos|]. intros p s2 [Ha2 ->]. simpl.
  destruct (Z.eqb_spec y f) as [->|Hne]; [apply wp_ret; rewrite app_nil_r; eauto|].
  apply wp_bind. eapply wp_conseq; [by eapply wp_zone_next|]. intros [] s3 Ha3.
  eapply wp_conseq; [apply (IH (pre ++ [y]) ys f (z ++ [y])); [simpl in Hn; lia|by rewrite <- app_assoc|done]|].
  intros out s4 [-> ?]. split; [|done]. simpl. by rewrite <- app_assoc.
Qed.

Lemma read_zone_spec pre snap ys f z s : cs = pre ++ snap :: ys -> ys <> [] -> (length ys < fuel)%nat -> cursor r t w0 None s ->
  wp (read_zone fuel snap (f :: z)) (fun out s' => out = (f :: z) ++ before f ys /\ exists ys', at_positions ys' s') s.
Proof.
  intros Ecs Hne Hn Hc. assert (pos_ok snap) as Hsn by (rewrite Forall_forall in Hrange; apply Hrange; rewrite Ecs; set_solver).
  unfold read_zone. apply wp_bind. unfold Prefix_Seek.
  eapply wp_conseq; [eapply (wp_iter_step r t Ht w0 fuel (ItSeek (prefix_string P (ci_key snap))) None); [done|reflexivity|done]|]. intros [] s1 Hc1.
  assert (at_positions (snap :: ys) s1) as Ha1.
  { eexists. split; [exact Hc1|]. rewrite user_seek by apply Ht. unfold from. rewrite head_of_fmap.
    pose proof Hsorted as Hs. rewrite Ecs in Hs. destruct (sorted_mid _ _ _ Hs) as (_ & E & _).
    assert (Forall (fun c => ~ slt (ci_key c) (ci_key snap) <-> snap <= c) cs) as HF.
    { apply Forall_forall. intros c Hc2. rewrite ci_key_slt; [lia| |done]. rewrite Forall_forall in Hrange. by apply Hrange. }
    pose proof (filter_keys (fun k => ~ slt k (ci_key snap)) (fun c => snap <= c) _ cs Hkeys HF) as Ef.
    rewrite Ef. rewrite Ecs at 1. by rewrite E. }
  apply wp_bind. eapply wp_conseq; [by apply wp_zone_valid|]. intros b s2 [Ha2 ->]. apply wp_bind, wp_assert; [done|].
  apply wp_bind. eapply wp_conseq; [by eapply wp_committed_pos|]. intros p s3 [Ha3 ->].
  apply wp_bind, wp_assert; [apply Z.eqb_refl|].
  apply wp_bind. eapply wp_conseq; [by eapply wp_zone_next|]. intros [] s4 Ha4.
  apply wp_bind. eapply wp_conseq; [by apply wp_zone_valid|]. intros b s5 [Ha5 ->]. apply wp_bind, wp_assert; [by destruct ys|].
  eapply (zone_loop_spec fuel (pre ++ [snap])); [done|by rewrite <- app_assoc|done].
Qed.
End zone.

(** ** The decision *)

Section decision.
Context {G : Type} {ZG : ZLog G} {ZL : ZLogLaws G} {PC : ProtoCodec} {SC : SliceCompare} {SL : SliceLaws}.
Context {LC : LexicalCast} {LCL : LexicalCastLaws}.
Context (std_hash : Z -> Z) (sizeof_node : Z) (scan_fuel entry_cache_size fuel bound : nat).
Hypothesis fuel_enough : (bound < fuel)%nat.
Context (horizon : Z) (promised : NodeAddress -> tree -> Prop) (logged : gmap Z slot).

#[local] Instance the_source : AfterImageSource (EntryService G) := db_source entry_cache_size fuel.
#[local] Instance the_source_laws : AfterImageSourceLaws (EntryService G) :=
  es_source_laws entry_cache_size fuel bound fuel_enough logged.
#[local] Instance the_store : NodeStore (NodeCache (EntryService G)) := db_store std_hash sizeof_node scan_fuel entry_cache_size fuel.
#[local] Instance the_store_laws : NodeStoreLaws (NodeCache (EntryService G)) :=
  node_cache_laws std_hash sizeof_node scan_fuel horizon promised.

Abbreviation db_tree := (db_tree std_hash sizeof_node scan_fuel entry_cache_size fuel bound fuel_enough horizon promised logged).

(** The history of a database at root [t]: [cs] are the positions committed, all
    with a key in the tree and an intention in the log, [w] the last of them,
    that the index still has, and the last of all is the root's. *)
Record history (s : DBImpl G) (t : tree) (cs w : list Z) : Prop := {
  hi_keys : (user_entries PREFIX_COMMITTED_INTENTION (elements t)).*1 = ci_key <$> cs;
  hi_sorted : StronglySorted Z.lt cs;
  hi_range : Forall pos_ok cs;
  hi_index : committed_intentions_ s = list_to_set w;
  hi_suffix : exists pre, cs = pre ++ w;
  hi_last : last cs = Some (root_snapshot_ s);
  hi_logged p : p ∈ cs -> exists i, intention_in (nc_src (cache_ s)) p i;
}.

Definition conflicts (i j : Intention) : Prop := ~ OpKeys i ## UpdateOpKeys j.

(** The zone the decision reads. *)
Lemma zone_spec s t cs w snap : db_tree s t -> bst t -> (height t < fuel)%nat -> (length cs < fuel)%nat ->
  history s t cs w -> snap ∈ cs -> snap < root_snapshot_ s ->
  exists irange complete, range snap (root_snapshot_ s) (committed_intentions_ s) = Ok (irange, complete) /\
    wp (if (complete : bool) then mret irange else on_iterator (root_ s) (read_zone fuel snap irange))
      (fun zone s' => (db_tree s' t /\ exists w', s' = set_cache w' s) /\ slots (nc_src (cache_ s')) = slots (nc_src (cache_ s)) /\
        forall p, p ∈ zone <-> p ∈ cs /\ (if bool_decide (snap ∈ w) then snap <= p else snap < p)) s.
Proof.
  intros Hdb Hb Hh Hl Hhist Hsn Hlt.
  pose proof (hi_suffix _ _ _ _ Hhist) as [pre Ecs]. pose proof (hi_last _ _ _ _ Hhist) as Hlast.
  pose proof (hi_sorted _ _ _ _ Hhist) as Hs. pose proof (sorted_last _ _ Hs Hlast) as Hmax.
  assert (StronglySorted Z.lt w) as Hsw by (rewrite Ecs in Hs; by eapply sorted_suffix).
  (* the part read from the tree, when the zone starts with [f] *)
  assert (forall f z, f ∈ cs -> snap < f -> snap ∉ w -> (forall p, p ∈ f :: z <-> p ∈ cs /\ f <= p) ->
    wp (on_iterator (root_ s) (read_zone fuel snap (f :: z)))
      (fun zone s' => (db_tree s' t /\ exists w', s' = set_cache w' s) /\ slots (nc_src (cache_ s')) = slots (nc_src (cache_ s)) /\
        forall p, p ∈ zone <-> p ∈ cs /\ (if bool_decide (snap ∈ w) then snap <= p else snap < p)) s) as Hread.
  { intros f z Hf Hsf Hnw Hz. rewrite bool_decide_false by done.
    apply list_elem_of_split in Hsn as (l1 & ys & El).
    pose proof Hs as Hs'. rewrite El in Hs'. destruct (sorted_mid _ _ _ Hs') as (_ & _ & HF & HF').
    rewrite Forall_forall in HF. rewrite Forall_forall in HF'.
    assert (f ∈ ys) as Hfy.
    { rewrite El in Hf. apply elem_of_app in Hf as [Hf|[->|Hf]%elem_of_cons]; [apply HF' in Hf; lia|lia|done]. }
    assert (StronglySorted Z.lt ys) as Hsy.
    { eapply (sorted_suffix (l1 ++ [snap])). by rewrite <- app_assoc. }
    assert (wp (read_zone fuel snap (f :: z)) (fun out s' => out = (f :: z) ++ before f ys /\ exists ys', at_positions 0 t (cache_ s) ys' s')
      (cache_ s, new_raw_iterator (root_ s))) as Hz'.
    { eapply (read_zone_spec 0 t (cache_ s) fuel cs Hb Hh); [apply Hhist|done|apply Hhist|exact El|by intros ->; apply not_elem_of_nil in Hfy| |].
      - rewrite El, length_app in Hl. simpl in Hl. lia.
      - apply cursor_new; [by eapply db_winv|apply Hdb]. }
    unfold on_iterator, wp in *. destruct (read_zone _ _ _ _) as [[out [w' it]]| |]; [|done|done].
    destruct Hz' as (-> & ys' & c & (ts & d & Hok & _) & _). pose proof (ok_w _ _ _ _ _ _ Hok) as Hw'.
    pose proof (ok_root _ _ _ _ _ _ Hok) as [_ He]. simpl in Hw', He. split_and!.
    - by eapply db_tree_step.
    - by eexists.
    - simpl. destruct Hw' as [Hi' _]. destruct Hdb as [Hi _]. destruct (ni_src _ _ _ _ _ Hi') as [_ E1].
      destruct (ni_src _ _ _ _ _ Hi) as [_ E2]. congruence.
    - intros p. rewrite elem_of_app, Hz, elem_of_before by done. split.
      + intros [[Hp ?]|[Hp ?]]; [split; [done|lia]|]. split; [rewrite El; set_solver|]. by apply HF.
      + intros [Hp Hsp]. destruct (Z.le_gt_cases f p) as [|Hpf]; [by left|right]. split; [|done].
        rewrite El in Hp. apply elem_of_app in Hp as [Hp|[->|Hp]%elem_of_cons]; [apply HF' in Hp; lia|lia|done]. }
  rewrite (hi_index _ _ _ _ Hhist). destruct w as [|w0 w].
  - exists [root_snapshot_ s], false. split.
    { unfold range. rewrite (proj2 (Z.ltb_lt _ _)) by done. by rewrite bool_decide_true. }
    apply Hread; [by apply last_elem|done|set_solver|]. intros p. rewrite list_elem_of_singleton. split.
    + intros ->. split; [by apply last_elem|lia].
    + intros [Hp ?]. apply Hmax in Hp. lia.
  - assert (root_snapshot_ s ∈ w0 :: w) as Hrw.
    { rewrite Ecs, last_app in Hlast. apply last_elem. destruct (last (w0 :: w)) eqn:E; [congruence|]. by apply last_None in E. }
    eexists _, _. split; [by apply range_spec|].
    destruct (bool_decide (snap ∈ w0 :: w)) eqn:Hin.
    + apply bool_decide_eq_true in Hin. apply wp_ret. split_and!; [done|by exists (cache_ s); destruct s|done|]. intros p. rewrite list_elem_of_filter. split.
      * intros [[? ?] Hp]. split; [rewrite Ecs; set_solver|done].
      * intros [Hp ?]. split; [split; [done|by apply Hmax]|]. rewrite Ecs in Hp. apply elem_of_app in Hp as [Hp|Hp]; [|done].
        exfalso. apply list_elem_of_split in Hin as (l1 & l2 & El). rewrite Ecs, El, app_assoc in Hs.
        destruct (sorted_mid _ _ _ Hs) as (_ & _ & _ & HF). rewrite Forall_forall in HF. specialize (HF p ltac:(set_solver)). lia.
    + pose proof Hin as Hnw. apply bool_decide_eq_false in Hnw.
      assert (forall y, y ∈ w0 :: w -> snap < y) as Hgt.
      { intros y Hy. rewrite Ecs in Hsn. apply elem_of_app in Hsn as [Hsn|?]; [|done].
        apply list_elem_of_split in Hy as (l1 & l2 & El). rewrite Ecs, El, app_assoc in Hs.
        destruct (sorted_mid _ _ _ Hs) as (_ & _ & _ & HF). rewrite Forall_forall in HF. apply HF. set_solver. }
      rewrite filter_all.
      2: { apply Forall_forall. intros y Hy. split; [specialize (Hgt y Hy); lia|]. apply Hmax. rewrite Ecs. set_solver. }
      apply Hread; [rewrite Ecs; set_solver|apply Hgt; set_solver|done|]. intros p. split.
      * intros Hp. split; [rewrite Ecs; set_solver|]. apply StronglySorted_inv in Hsw as [_ HF]. rewrite Forall_forall in HF.
        apply elem_of_cons in Hp as [->|Hp]; [lia|]. apply HF in Hp. lia.
      * intros [Hp ?]. rewrite Ecs in Hp. apply elem_of_app in Hp as [Hp|Hp]; [|done]. exfalso.
        rewrite Ecs in Hs. destruct (sorted_mid _ _ _ Hs) as (_ & _ & _ & HF). rewrite Forall_forall in HF. apply HF in Hp. lia.
Qed.
Lemma intention_in_slots (es es' : EntryService G) p i : slots es' = slots es -> intention_in es' p i <-> intention_in es p i.
Proof. intros E. unfold intention_in, log_entry. by rewrite E. Qed.

Lemma intention_in_fun (es : EntryService G) p i j : intention_in es p i -> intention_in es p j -> i = j.
Proof. unfold intention_in. congruence. Qed.

Lemma forall_choice (es : EntryService G) ps : (forall p, p ∈ ps -> exists i, intention_in es p i) -> exists js, Forall2 (intention_in es) ps js.
Proof.
  induction ps as [|p ps IH]; intros Hp; [by exists []|]. destruct (Hp p ltac:(set_solver)) as [i Hi].
  destruct IH as [js Hjs]; [intros q Hq; apply Hp; set_solver|]. exists (i :: js). by constructor.
Qed.

Lemma decision_spec s t cs w i : db_tree s t -> bst t -> (height t < fuel)%nat -> (length cs < fuel)%nat ->
  history s t cs w -> Snapshot i ∈ cs -> Snapshot i < root_snapshot_ s ->
  wp (ProcessConcurrentIntention std_hash sizeof_node scan_fuel entry_cache_size fuel i) (fun abort s' =>
    (db_tree s' t /\ (exists w', s' = set_cache w' s) /\ slots (nc_src (cache_ s')) = slots (nc_src (cache_ s))) /\
    (abort = true <-> exists p j, p ∈ cs /\ (if bool_decide (Snapshot i ∈ w) then Snapshot i <= p else Snapshot i < p) /\
      intention_in (nc_src (cache_ s)) p j /\ conflicts i j)) s.
Proof.
  intros Hdb Hb Hh Hl Hhist Hsn Hlt. unfold ProcessConcurrentIntention. apply wp_bind, wp_get.
  destruct (zone_spec s t cs w (Snapshot i) Hdb Hb Hh Hl Hhist Hsn Hlt) as (irange & complete & -> & Hz).
  apply wp_bind. eapply wp_conseq; [exact Hz|]. intros zone s1 ((Hdb1 & w1 & ->) & Hsl & Hzone). set (s1 := set_cache w1 s) in *.
  assert (forall p j, intention_in (nc_src (cache_ s1)) p j <-> intention_in (nc_src (cache_ s)) p j) as Hsame.
  { intros p j. by apply intention_in_slots. }
  destruct (forall_choice (nc_src (cache_ s1)) zone) as [js Hjs].
  { intros p [Hp _]%Hzone. setoid_rewrite Hsame. by eapply hi_logged. }
  pose proof Hdb1 as [Hi1 _]. destruct (ni_src _ _ _ _ _ Hi1) as [Hsrc _].
  apply wp_bind. unfold on_es, on_cache. apply wp_zoom, wp_zoom.
  eapply wp_conseq; [by eapply (ReadIntentions_spec entry_cache_size fuel bound zone js); [lia| |]|].
  intros out es ((Hes & Hles) & qs & Hperm & H2). apply wp_ret.
  assert (slots es = slots (nc_src (cache_ s1))) as Hsles by (by apply same_log_slots).
  split; [split_and!; [by apply (db_tree_src std_hash sizeof_node scan_fuel entry_cache_size fuel bound fuel_enough)|by eexists|simpl; congruence]|].
  rewrite existsb_exists. split.
  - intros (j & Hj & Hc). apply list_elem_of_In, list_elem_of_lookup in Hj as [k Hk].
    destruct (Forall2_lookup_r _ _ _ _ _ H2 Hk) as (p & Hp & Hin). apply list_elem_of_lookup_2 in Hp. rewrite <- Hperm in Hp.
    apply Hzone in Hp as [Hp Hle]. exists p, j. split_and!; [done|done|by apply Hsame|].
    apply negb_true_iff, bool_decide_eq_false in Hc. exact Hc.
  - intros (p & j & Hp & Hle & Hin & Hc). assert (p ∈ qs) as Hq by (rewrite <- Hperm; by apply Hzone).
    apply list_elem_of_lookup in Hq as [k Hk]. destruct (Forall2_lookup_l _ _ _ _ _ H2 Hk) as (j' & Hj' & Hin').
    assert (j' = j) as -> by (eapply intention_in_fun; [exact Hin'|by apply Hsame]).
    exists j. split; [by apply list_elem_of_lookup_2, list_elem_of_In in Hj'|]. by apply negb_true_iff, bool_decide_eq_false.
Qed.
End decision.
