(* ===== verification/DBProps.v ===== *)
(** The properties of the database as a whole: what a restored database serves,
    what [Validate] accepts, and a run of all its parts on a log in memory. *)
From S2P Require Import Prelude Slice RBTree Node Proto PersistentTree Delta PathCopy TreeSpec TransactionTree Intention Transaction.
From S2P Require Import Iterator IteratorSpec LruCache NodeCache NodeCacheSpec Matcher EntryService EntryServiceSpec MemLog.
From S2P Require Import TxnFinder CommitIndex DBImpl DBWalks DBImplSpec Images.

Section properties.
Context {G : Type} {ZG : ZLog G} {ZL : ZLogLaws G} {PC : ProtoCodec} {SC : SliceCompare} {SL : SliceLaws}.
Context (std_hash : Z -> Z) (sizeof_node : Z) (scan_fuel entry_cache_size fuel bound : nat).
Context (fuel_enough : (bound < fuel)%nat) (horizon : Z) (promised : NodeAddress -> tree -> Prop) (logged : gmap Z slot).

Abbreviation db_tree := (db_tree std_hash sizeof_node scan_fuel entry_cache_size fuel bound fuel_enough horizon promised logged).
Abbreviation log_holds := (log_holds scan_fuel entry_cache_size bound horizon logged).

(** Reads of a restored database: a database constructed at a restore point
    answers [Get] with what the tree in the log's after image says, resolving
    every node it misses through the node cache and the log. *)
Theorem restored_database_reads_log imap point es t key : log_holds es point t -> rbtree t -> (height t < fuel)%nat ->
  exists s, new_db std_hash sizeof_node imap point es = Ok s /\
    wp (Get std_hash sizeof_node scan_fuel entry_cache_size fuel key) (fun res s' =>
      res = spec_get (to_map t) (prefix_string PREFIX_USER key) /\ root_ s' = root_ s) s.
Proof.
  intros Hl (_ & _ & Hb) Hf.
  destruct (new_db_spec std_hash sizeof_node scan_fuel entry_cache_size fuel bound fuel_enough horizon promised logged imap point es t Hl)
    as (s & Hs & Ht & _). exists s. split; [done|].
  eapply wp_conseq; [by eapply db_Get_spec|]. intros res s' (-> & _ & w & ->). split; [|done].
  unfold spec_get. by rewrite lookup_find.
Qed.

(** transactions on a restored database. [BeginTransaction] on it gives an
    open transaction whose calls behave as the same calls on the finite map of
    user keys the log holds. *)
Theorem restored_database_serves_transactions imap point es t n token us u :
  log_holds es point t -> rbtree t -> (size t <= n)%nat -> (n + length us < fuel)%nat -> user_view (to_map t) u ->
  exists s, new_db std_hash sizeof_node imap point es = Ok s /\
    wp (BeginTransaction token) (fun tx s' => in_flight_txn_rid_ s' = -2 /\ root_ s' = root_ s /\
      let NS := db_store std_hash sizeof_node scan_fuel entry_cache_size fuel in
      wp (run_user fuel us) (fun out _ => out = fst (user_spec us u)) (cache_ s', tx)) s.
Proof.
  intros Hl Hrb Hn Hf Hu.
  destruct (new_db_spec std_hash sizeof_node scan_fuel entry_cache_size fuel bound fuel_enough horizon promised logged imap point es t Hl)
    as (s & Hs & Ht & Hrid & _). exists s. split; [done|].
  eapply wp_conseq; [apply (BeginTransaction_spec std_hash sizeof_node scan_fuel entry_cache_size fuel bound fuel_enough horizon promised logged token s t n)|].
  - done.
  - lia.
  - done.
  - done.
  - intros tx s' (-> & _ & Ho). rewrite Hrid in *. split_and!; [done..|]. intros NS.
    destruct (spec_ops_user us (to_map t) u Hu) as [H1 _]. rewrite <- H1.
    eapply wp_conseq; [eapply (client_calls_spec (-1) True fuel us); [reflexivity|by apply negative_delta_id|exact Hf|by left|exact (Ho True)]|].
    by intros out x (-> & _).
Qed.

(** C26: [Validate] returns exactly on a root whose tree has the red-black shape
    and whose nodes are each in order with their own children; otherwise its
    assertion fails.
    The entry cache can hold the whole log. *)
Theorem validate_accepts s t : db_tree s t -> (height t < fuel)%nat ->
  (exists s', Validate std_hash sizeof_node scan_fuel entry_cache_size fuel s = Ok (tt, s')) <->
  (exists n, rb n t) /\ local_order t.
Proof.
  intros Hs Hf. rewrite <- black_height_accepts.
  destruct (Validate_result std_hash sizeof_node scan_fuel entry_cache_size fuel bound fuel_enough horizon promised logged s t Hs Hf) as [w ->].
  destruct (Z.eqb_spec (black_height t) 0) as [E|Hne]; [rewrite E; by split; [intros []|]|]. split; [done|]. by eexists.
Qed.

(** [Validate] does not see every disorder: it accepts a tree that is not a
    search tree, in which [Get] does not find a key the tree holds. *)
Theorem validate_misses_order s : let t := T false (T true (T false E "a" "1" E) "b" "2" (T false E "z" "3" E)) "m" "4" (T true (T false E "n" "5" E) "p" "6" (T false E "q" "7" E)) in
  db_tree s t -> (4 <= fuel)%nat ->
  (exists s', Validate std_hash sizeof_node scan_fuel entry_cache_size fuel s = Ok (tt, s')) /\
  ~ bst t /\ ("z", "3")%string ∈ elements t /\ find "z" t = None.
Proof.
  intros t Hs Hf.
  destruct (Validate_result std_hash sizeof_node scan_fuel entry_cache_size fuel bound fuel_enough horizon promised logged s t Hs) as [w ->].
  { simpl. lia. }
  split_and!; [by eexists| |subst t; simpl; set_solver|done].
  intros Hb. unfold bst, keys in Hb. simpl in Hb. do 2 apply StronglySorted_inv in Hb as [Hb _].
  apply StronglySorted_inv in Hb as [_ Hb]. by apply Forall_inv in Hb.
Qed.
End properties.

(** ** Concrete logs: a filled position, then the given entries *)

Definition stored_log (ls : list LogEntry) : MemLog := Junk :: ((fun e => Data (pb_serialize e)) <$> ls).
Definition stored_es (ls : list LogEntry) : EntryService MemLog :=
  with_max_pos (Z.of_nat (length ls)) (new_entry_service (stored_log ls)).

Definition entry_of (p : Z) (e : LogEntry) : CacheEntry :=
  match le_type e with
  | AFTER_IMAGE => AFTERIMAGE_ENTRY (default (mkAfterImage 0 []) (le_after_image e))
  | INTENTION => INTENTION_ENTRY (intention_at (default (mkProtoIntention 0 0 false []) (le_intention e)) p)
  end.

Lemma stored_entries ls p : log_entry (stored_es ls) p =
  if p <? 0 then None else match Z.to_nat p with O => Some FILLED_ENTRY | S n => entry_of p <$> ls !! n end.
Proof.
  unfold log_entry, slots. cbn [zl_slots mem_log_laws]. rewrite mem_log_lookup.
  change (log_ (stored_es ls)) with (stored_log ls). destruct (Z.ltb_spec p 0); [done|].
  destruct (Z.to_nat p) as [|n]; [done|]. unfold stored_log.
  match goal with |- context [(Junk :: ?l) !! S n] => change ((Junk :: l) !! S n) with (l !! n) end.
  rewrite list_lookup_fmap. destruct (ls !! n) as [e|]; [|done].
  change (parse_entry p (pb_serialize e) = Some (entry_of p e)). unfold parse_entry, entry_of. rewrite mem_codec_laws.
  by destruct (le_type e).
Qed.

Lemma stored_slot ls p : is_Some (slots (stored_es ls) !! p) -> 0 <= p <= Z.of_nat (length ls).
Proof.
  unfold slots. cbn [zl_slots mem_log_laws]. rewrite mem_log_lookup. destruct (Z.ltb_spec p 0); [by intros []|].
  intros [x Hx%lookup_lt_Some]. unfold stored_es, stored_log in Hx. simpl in Hx. rewrite length_fmap in Hx. lia.
Qed.

Lemma stored_src_ok cache_size bound ls : (length ls < bound)%nat -> (bound <= cache_size)%nat -> Z.of_nat bound < 2 ^ 64 ->
  src_ok cache_size bound (stored_es ls).
Proof.
  intros Hl Hb H64. split; [| | |done].
  - intros p e Hp. change ((∅ : gmap Z CacheEntry) !! p = Some e) in Hp. by rewrite lookup_empty in Hp.
  - intros p Hp%stored_slot. simpl. lia.
  - intros p q Hp%stored_slot Hq. rewrite stored_entries. destruct (Z.ltb_spec q 0); [lia|].
    destruct (Z.to_nat q) as [|n] eqn:En; [by eexists|]. apply fmap_is_Some, lookup_lt_is_Some. lia.
Qed.

(** A log of intentions that ends with an after image of the tree [t]. *)
Definition tree_log (ps : list ProtoIntention) (i : Z) (t : tree) : list LogEntry :=
  ((fun p => mkLogEntry INTENTION (Some p) None) <$> ps) ++ [mkLogEntry AFTER_IMAGE None (Some (mkAfterImage i (image_nodes t 0)))].
Definition tree_point (ps : list ProtoIntention) (i : Z) (t : tree) : RestorePoint :=
  mkRestorePoint (i + 1) (Z.of_nat (length ps) + 1) (mkAfterImage i (image_nodes t 0)).

Lemma tree_log_length ps i t : length (tree_log ps i t) = S (length ps).
Proof. unfold tree_log. rewrite length_app, length_fmap. simpl. lia. Qed.

Lemma tree_log_images ps i t p : es_src_log (stored_es (tree_log ps i t)) !! p =
  if decide (p = Z.of_nat (length ps) + 1) then Some (mkAfterImage i (image_nodes t 0)) else None.
Proof.
  apply option_eq. intros ai. rewrite es_src_log_entry, stored_entries. destruct (Z.ltb_spec p 0).
  { rewrite decide_False by lia. done. }
  destruct (Z.to_nat p) as [|n] eqn:En; [rewrite decide_False by lia; done|].
  destruct (decide (p = Z.of_nat (length ps) + 1)) as [->|Hne].
  - unfold tree_log. rewrite lookup_app_r, length_fmap by (rewrite length_fmap; lia).
    replace (n - length ps)%nat with 0%nat by lia. simpl. split; by intros [= ->].
  - split; [|done]. intros He. exfalso. apply fmap_Some in He as (e & Hn & He). unfold tree_log in Hn.
    apply lookup_app_Some in Hn as [Hn|[Hn1 Hn]].
    + rewrite list_lookup_fmap in Hn. apply fmap_Some in Hn as (q & _ & ->). done.
    + rewrite length_fmap in *. apply lookup_lt_Some in Hn. simpl in Hn. lia.
Qed.

Lemma tree_log_intention ps i t k q : ps !! k = Some q ->
  intention_in (stored_es (tree_log ps i t)) (Z.of_nat (S k)) (intention_at q (Z.of_nat (S k))).
Proof.
  intros Hk. unfold intention_in. rewrite stored_entries. destruct (Z.ltb_spec (Z.of_nat (S k)) 0); [lia|].
  rewrite Nat2Z.id. unfold tree_log. rewrite lookup_app_l by (rewrite length_fmap; by eapply lookup_lt_Some).
  by rewrite list_lookup_fmap, Hk.
Qed.

Lemma tree_log_holds hor ps i t : (length ps < 8)%nat -> 0 <= i < hor -> hor <= 2 ^ 63 -> t <> E -> Z.of_nat (size t) <= 2 ^ 16 ->
  log_holds 100 10 10 hor (slots (stored_es (tree_log ps i t))) (stored_es (tree_log ps i t)) (tree_point ps i t) t.
Proof.
  intros Hps Hi Hhor Hne Hs. split; [| | | | | |].
  - apply stored_src_ok; [rewrite tree_log_length; lia|lia|lia].
  - done.
  - intros p ai. rewrite tree_log_images. destruct (decide _); [|done]. intros [= <-]. apply image_nodes_ok.
  - exact Hhor.
  - unfold published. simpl. lia.
  - rewrite tree_log_images. simpl. by rewrite decide_True.
  - simpl. assert (image_nodes t 0 <> []) as Hn.
    { intros E. apply (f_equal length) in E. rewrite length_image_nodes in E. pose proof (size_pos t Hne). simpl in E. lia. }
    destruct (image_nodes t 0) eqn:En; [done|]. rewrite <- En.
    apply (image_whole 100 hor _ (Z.of_nat (length ps) + 1) (mkAfterImage i (image_nodes t 0))).
    + rewrite tree_log_images. by rewrite decide_True.
    + lia.
    + simpl. lia.
    + done.
    + done.
    + done.
Qed.

Definition demo_es (t : tree) : EntryService MemLog := stored_es (tree_log [mkProtoIntention 0 0 false []] 1 t).
Definition demo_point (t : tree) : RestorePoint := tree_point [mkProtoIntention 0 0 false []] 1 t.

Lemma demo_fuel : (10 < 20)%nat.
Proof. lia. Qed.

Definition demo_users : tree :=
  T false (T true E (prefix_string PREFIX_COMMITTED_INTENTION (ci_key 1)) "" E) (prefix_string PREFIX_USER "a") "x" E.

Lemma demo_users_rb : rbtree demo_users.
Proof. split; [done|]. split; [exists 1%nat; repeat constructor|]. unfold bst. by repeat constructor. Qed.

Lemma demo_users_view : user_view (to_map demo_users) {["a" := "x"]}%string.
Proof.
  intros k. destruct (decide (k = "a"%string)) as [->|Hne]; [by vm_compute|].
  rewrite lookup_singleton_ne by done. apply not_elem_of_list_to_map_1.
  intros [Hin|[Hin|Hin%not_elem_of_nil]%elem_of_cons]%elem_of_cons; [done| |done]. by apply prefix_string_inj in Hin.
Qed.

Lemma restored_database_reads_log_witness :
  exists s, new_db (fun z => z) 100 4 (demo_point demo_users) (demo_es demo_users) = Ok s /\
    wp (Get (fun z => z) 100 100 10 20 "a") (fun res s' =>
      res = spec_get (to_map demo_users) (prefix_string PREFIX_USER "a") /\ root_ s' = root_ s) s.
Proof.
  apply (restored_database_reads_log (fun z => z) 100 100 10 20 10 demo_fuel 9 (fun _ _ => False) (slots (demo_es demo_users)) 4
    (demo_point demo_users) (demo_es demo_users) demo_users "a").
  - apply tree_log_holds; [simpl; lia|lia|lia|done|]. by vm_compute.
  - exact demo_users_rb.
  - simpl. lia.
Defined.

Lemma restored_database_serves_transactions_witness :
  exists s, new_db (fun z => z) 100 4 (demo_point demo_users) (demo_es demo_users) = Ok s /\
    wp (BeginTransaction 7) (fun tx s' => in_flight_txn_rid_ s' = -2 /\ root_ s' = root_ s /\
      let NS := db_store (fun z => z) 100 100 10 50 in
      wp (run_user 50 demo_user) (fun out _ => out = fst (user_spec demo_user {["a" := "x"]}%string)) (cache_ s', tx)) s.
Proof.
  apply (restored_database_serves_transactions (fun z => z) 100 100 10 50 10 ltac:(lia) 9 (fun _ _ => False) (slots (demo_es demo_users)) 4
    (demo_point demo_users) (demo_es demo_users) demo_users 2 7 demo_user {["a" := "x"]}%string).
  - apply tree_log_holds; [simpl; lia|lia|lia|done|]. by vm_compute.
  - exact demo_users_rb.
  - by vm_compute.
  - simpl. lia.
  - exact demo_users_view.
Defined.

Lemma validate_accepts_witness :
  exists s, new_db (fun z => z) 100 4 (demo_point demo_users) (demo_es demo_users) = Ok s /\
    ((exists s', Validate (fun z => z) 100 100 10 20 s = Ok (tt, s')) <->
     (exists n, rb n demo_users) /\ local_order demo_users).
Proof.
  destruct (new_db_spec (fun z => z) 100 100 10 20 10 demo_fuel 9 (fun _ _ => False) (slots (demo_es demo_users)) 4 (demo_point demo_users)
    (demo_es demo_users) demo_users) as (s & Hs & Ht & _); [apply tree_log_holds; [simpl; lia|lia|lia|done|by vm_compute]|].
  exists s. split; [done|]. apply (validate_accepts (fun z => z) 100 100 10 20 10 demo_fuel 9 (fun _ _ => False) (slots (demo_es demo_users))); [exact Ht|simpl; lia].
Defined.

Lemma validate_misses_order_witness :
  let t := T false (T true (T false E "a" "1" E) "b" "2" (T false E "z" "3" E)) "m" "4" (T true (T false E "n" "5" E) "p" "6" (T false E "q" "7" E)) in
  exists s, new_db (fun z => z) 100 4 (demo_point t) (demo_es t) = Ok s /\
  (exists s', Validate (fun z => z) 100 100 10 20 s = Ok (tt, s')) /\
  ~ bst t /\ ("z", "3")%string ∈ elements t /\ find "z" t = None.
Proof.
  intros t. destruct (new_db_spec (fun z => z) 100 100 10 20 10 demo_fuel 9 (fun _ _ => False) (slots (demo_es t)) 4 (demo_point t)
    (demo_es t) t) as (s & Hs & Ht & _); [apply tree_log_holds; [simpl; lia|lia|lia|done|by vm_compute]|].
  exists s. split; [done|].
  apply (validate_misses_order (fun z => z) 100 100 10 20 10 demo_fuel 9 (fun _ _ => False) (slots (demo_es t))); [exact Ht|lia].
Defined.
