(* ===== verification/ConflictProps.v ===== *)
(** What the transaction processor decides for a concurrent intention, and how
    the decision depends on what is still cached. *)
From S2P Require Import Prelude Slice RBTree Node Proto PersistentTree Delta PathCopy TreeSpec TransactionTree Intention Transaction.
From S2P Require Import Iterator IteratorSpec LruCache NodeCache NodeCacheSpec Matcher EntryService EntryServiceSpec MemLog.
From S2P Require Import TxnFinder CommitIndex DBImpl DBWalks DBImplSpec Conflict Images DBProps.

Section properties.
Context {G : Type} {ZG : ZLog G} {ZL : ZLogLaws G} {PC : ProtoCodec} {SC : SliceCompare} {SL : SliceLaws}.
Context {LC : LexicalCast} {LCL : LexicalCastLaws}.
Context (std_hash : Z -> Z) (sizeof_node : Z) (scan_fuel entry_cache_size fuel bound : nat).
Context (fuel_enough : (bound < fuel)%nat) (horizon : Z) (promised : NodeAddress -> tree -> Prop) (logged : gmap Z slot).

Abbreviation db_tree := (db_tree std_hash sizeof_node scan_fuel entry_cache_size fuel bound fuel_enough horizon promised logged).
Abbreviation decide_conflict := (ProcessConcurrentIntention std_hash sizeof_node scan_fuel entry_cache_size fuel).

(** C27: the conflict decision. An intention whose snapshot is behind the root is
    aborted iff one of its keys is updated by an intention of its conflict zone:
    those committed after its snapshot, found in the index in memory and, for
    what is no longer there, through the keys of committed intentions in the
    tree; when the snapshot is still in the index, also by the snapshot's own
    intention.
    The entry cache can hold the whole log. *)
Theorem conflict_decision s t cs w i : db_tree s t -> bst t -> (height t < fuel)%nat -> (length cs < fuel)%nat ->
  history s t cs w -> Snapshot i ∈ cs -> Snapshot i < root_snapshot_ s ->
  wp (decide_conflict i) (fun abort _ =>
    abort = true <-> exists p j, p ∈ cs /\ (if bool_decide (Snapshot i ∈ w) then Snapshot i <= p else Snapshot i < p) /\
      intention_in (nc_src (cache_ s)) p j /\ conflicts i j) s.
Proof.
  intros Hdb Hb Hh Hl Hhist Hsn Hlt.
  eapply wp_conseq; [by eapply (decision_spec std_hash sizeof_node scan_fuel entry_cache_size fuel bound fuel_enough horizon promised logged)|].
  by intros abort s' [_ ?].
Qed.

(** C28: the decision depends on the cache. For one history, an intention that
    conflicts with nothing after its snapshot, only with the intention that made
    the snapshot, is aborted when the index still has the snapshot and committed
    when it does not: two instances of the database over one log can disagree.
    The entry cache can hold the whole log. *)
Theorem decision_depends_on_index s s' t cs w w' i j :
  db_tree s t -> db_tree s' t -> bst t -> (height t < fuel)%nat -> (length cs < fuel)%nat ->
  history s t cs w -> history s' t cs w' -> Snapshot i ∈ w -> Snapshot i ∉ w' ->
  Snapshot i < root_snapshot_ s -> Snapshot i < root_snapshot_ s' -> slots (nc_src (cache_ s')) = slots (nc_src (cache_ s)) ->
  intention_in (nc_src (cache_ s)) (Snapshot i) j -> conflicts i j ->
  (forall p k, p ∈ cs -> Snapshot i < p -> intention_in (nc_src (cache_ s)) p k -> ~ conflicts i k) ->
  wp (decide_conflict i) (fun abort _ => abort = true) s /\ wp (decide_conflict i) (fun abort _ => abort = false) s'.
Proof.
  intros Hdb Hdb' Hb Hh Hl Hhist Hhist' Hw Hw' Hlt Hlt' Hsl Hj Hc Hno.
  assert (Snapshot i ∈ cs) as Hsn by (destruct (hi_suffix _ _ _ _ Hhist) as [pre ->]; set_solver). split.
  - eapply wp_conseq; [by eapply (decision_spec std_hash sizeof_node scan_fuel entry_cache_size fuel bound fuel_enough horizon promised logged)|].
    intros abort s2 [_ ->]. exists (Snapshot i), j. rewrite bool_decide_true by done. split_and!; [done|lia|done|done].
  - eapply wp_conseq; [by eapply (decision_spec std_hash sizeof_node scan_fuel entry_cache_size fuel bound fuel_enough horizon promised logged s')|].
    intros abort s2 [_ Habort]. apply not_true_is_false. intros Ha. apply Habort in Ha as (p & k & Hp & Hlp & Hk & Hck).
    rewrite bool_decide_false in Hlp by done. apply (Hno p k Hp Hlp); [|done]. by apply (intention_in_slots _ _ p k Hsl).
Qed.
End properties.

(** ** A history of two intentions *)

Definition put_intention (snapshot : Z) (k v : string) : ProtoIntention :=
  mkProtoIntention snapshot 0 false (recorded <$> [UPut k v]).

Definition two_tree : tree :=
  T false (T true E (prefix_string PREFIX_COMMITTED_INTENTION (ci_key 1)) "" E)
    (prefix_string PREFIX_COMMITTED_INTENTION (ci_key 2)) ""
    (T true E (prefix_string PREFIX_USER "a") "1" E).
Definition two_puts : list ProtoIntention := [put_intention 0 "a" "1"; put_intention 1 "b" "2"].
Definition two_es : EntryService MemLog := stored_es (tree_log two_puts 2 two_tree).

(** It overwrites what the first intention put. *)
Definition two_late : Intention := mkIntention (put_intention 1 "a" "3") (Some 4).

Lemma two_tree_bst : bst two_tree.
Proof. unfold bst. by repeat constructor. Qed.

Lemma two_positions p : p ∈ [1; 2] -> p = 1 \/ p = 2.
Proof. intros [->|Hp%list_elem_of_singleton]%elem_of_cons; auto. Qed.

(** The database restored from it, with any index. *)
Lemma two_db : exists s, new_db (fun z => z) 100 4 (tree_point two_puts 2 two_tree) two_es = Ok s /\
  forall w, w = [1; 2] \/ w = [] -> let s := set_committed_index (list_to_set w) s in
    DBImplSpec.db_tree (fun z => z) 100 100 10 20 10 demo_fuel 9 (fun _ _ => False) (slots two_es) s two_tree /\
    history s two_tree [1; 2] w /\ root_snapshot_ s = 2 /\ slots (nc_src (cache_ s)) = slots two_es.
Proof.
  destruct (new_db_spec (fun z => z) 100 100 10 20 10 demo_fuel 9 (fun _ _ => False) (slots two_es) 4 (tree_point two_puts 2 two_tree)
    two_es two_tree) as (s & Hs & Ht & _ & Hr & _); [apply tree_log_holds; [simpl; lia|lia|lia|done|by vm_compute]|].
  exists s. split; [done|]. intros w Hw s1. assert (slots (nc_src (cache_ s1)) = slots two_es) as Hsl.
  { destruct Ht as [Hi _]. by destruct (ni_src _ _ _ _ _ Hi) as [_ ?]. }
  split_and!; [exact Ht| |exact Hr|exact Hsl]. split.
  - by vm_compute.
  - repeat constructor.
  - repeat constructor; lia.
  - done.
  - destruct Hw as [->| ->]; [by exists []|]. exists [1; 2]. done.
  - simpl. by rewrite Hr.
  - intros p [->| ->]%two_positions.
    + eexists. apply (intention_in_slots _ _ _ _ Hsl). by apply (tree_log_intention two_puts 2 two_tree 0).
    + eexists. apply (intention_in_slots _ _ _ _ Hsl). by apply (tree_log_intention two_puts 2 two_tree 1).
Qed.

Lemma conflict_decision_witness : exists s,
  wp (ProcessConcurrentIntention (fun z => z) 100 100 10 20 two_late) (fun abort _ =>
    abort = true <-> exists p j, p ∈ [1; 2] /\ (if bool_decide (Snapshot two_late ∈ [1; 2]) then Snapshot two_late <= p else Snapshot two_late < p) /\
      intention_in (nc_src (cache_ s)) p j /\ conflicts two_late j) s.
Proof.
  destruct two_db as (s & _ & Hs). destruct (Hs [1; 2] (or_introl eq_refl)) as (Ht & Hh & Hr & _).
  exists (set_committed_index (list_to_set [1; 2]) s).
  apply (conflict_decision (fun z => z) 100 100 10 20 10 demo_fuel 9 (fun _ _ => False) (slots two_es) _ two_tree);
    [exact Ht|exact two_tree_bst|simpl; lia|simpl; lia|exact Hh|left|rewrite Hr; reflexivity].
Defined.

Lemma decision_depends_on_index_witness : exists s s',
  slots (nc_src (cache_ s')) = slots (nc_src (cache_ s)) /\
  wp (ProcessConcurrentIntention (fun z => z) 100 100 10 20 two_late) (fun abort _ => abort = true) s /\
  wp (ProcessConcurrentIntention (fun z => z) 100 100 10 20 two_late) (fun abort _ => abort = false) s'.
Proof.
  destruct two_db as (s & _ & Hs). destruct (Hs [1; 2] (or_introl eq_refl)) as (Ht & Hh & Hr & Hsl).
  destruct (Hs [] (or_intror eq_refl)) as (Ht' & Hh' & Hr' & Hsl').
  eexists _, _. split; [exact (eq_trans Hsl' (eq_sym Hsl))|].
  apply (decision_depends_on_index (fun z => z) 100 100 10 20 10 demo_fuel 9 (fun _ _ => False) (slots two_es) _ _ two_tree
    [1; 2] [1; 2] [] two_late (intention_at (put_intention 0 "a" "1") 1));
    [exact Ht|exact Ht'|exact two_tree_bst|simpl; lia|simpl; lia|exact Hh|exact Hh'|left|apply not_elem_of_nil|rewrite Hr; reflexivity
    |rewrite Hr'; reflexivity|exact (eq_trans Hsl' (eq_sym Hsl))| | |].
  - apply (intention_in_slots _ _ _ _ Hsl). by apply (tree_log_intention two_puts 2 two_tree 0).
  - intros Hd. apply (Hd (prefix_string PREFIX_USER "a")); by apply (bool_decide_unpack _); vm_compute.
  - intros p k Hp Hlt Hk Hc. assert (p = 2) as -> by (change (1 < p) in Hlt; apply two_positions in Hp; lia).
    assert (k = intention_at (put_intention 1 "b" "2") 2) as ->.
    { eapply intention_in_fun; [exact Hk|]. apply (intention_in_slots _ _ _ _ Hsl). by apply (tree_log_intention two_puts 2 two_tree 1). }
    apply Hc. by apply (bool_decide_unpack _); vm_compute.
Defined.
