(* ===== verification/Replica.v ===== *)
(** Log replay: what any instance of the database makes of the log, as a machine
    over the finite map of keys, and that the rounds of the transaction
    processor follow it (src/src/db/db_impl.cc, [TransactionProcessorEntry]). *)
From S2P Require Import Prelude Slice RBTree Node Proto PersistentTree Delta PathCopy TreeSpec TransactionTree Infect Intention Transaction.
From S2P Require Import Iterator IteratorSpec LruCache NodeCache NodeCacheSpec Matcher EntryService EntryServiceSpec.
From S2P Require Import TxnFinder CommitIndex DBImpl DBWalks DBImplSpec Conflict Publish.

(** ** The keys of commits in the map and in the tree *)

Definition commit_keys (m : gmap string string) (cs : list Z) : Prop :=
  forall k, is_Some (m !! prefix_string PREFIX_COMMITTED_INTENTION k) <-> k ∈ ci_key <$> cs.

Lemma slt_sorted_NoDup l : StronglySorted slt l -> NoDup l.
Proof.
  induction l as [|x l IH]; [constructor|]. intros [Hs HF]%StronglySorted_inv. constructor; [|by apply IH].
  intros Hx. rewrite Forall_forall in HF. by apply HF, slt_irrefl in Hx.
Qed.

Lemma slt_sorted_eq l l' : StronglySorted slt l -> StronglySorted slt l' -> (forall x, x ∈ l <-> x ∈ l') -> l = l'.
Proof.
  intros Hs Hs' Hx. assert (AntiSymm (=) slt) by (intros x y ??; exfalso; by eapply (slt_asym x y)).
  eapply StronglySorted_unique; [done..|]. apply NoDup_Permutation; auto using slt_sorted_NoDup.
Qed.

Lemma elem_of_user_entries p k l : k ∈ (user_entries p l).*1 <-> prefix_string p k ∈ l.*1.
Proof.
  unfold user_entries. rewrite !list_elem_of_fmap. split.
  - intros ([k1 v1] & -> & ([k0 v0] & [= -> ->] & [Hp Hin]%list_elem_of_filter)%list_elem_of_fmap).
    apply in_prefix_spec in Hp as [k' Hp]. simpl in Hp. subst k0. simpl. rewrite strip_prefix. by exists (prefix_string p k', v0).
  - intros ([k0 v0] & E & Hin). simpl in E. subst k0. exists (k, v0). split; [done|]. apply list_elem_of_fmap.
    exists (prefix_string p k, v0). simpl. rewrite strip_prefix. split; [done|]. apply list_elem_of_filter. split; [|done].
    apply in_prefix_spec. by eexists.
Qed.

Lemma user_entries_sorted p l : StronglySorted slt l.*1 -> StronglySorted slt (user_entries p l).*1.
Proof.
  induction l as [|[k0 v0] l IH]; [constructor|]. rewrite fmap_cons. intros [Hs HF]%StronglySorted_inv. specialize (IH Hs).
  unfold user_entries in *. destruct (decide (in_prefix p k0 = true)) as [E|E]; [|by rewrite filter_cons_False].
  rewrite filter_cons_True, !fmap_cons by done. constructor; [done|]. apply Forall_forall. intros k Hk.
  apply (elem_of_user_entries p k l) in Hk. rewrite Forall_forall in HF. apply HF in Hk. simpl in *.
  apply in_prefix_spec in E as [k' ->]. rewrite strip_prefix. by apply prefix_string_slt in Hk.
Qed.

Lemma commit_entries t cs : bst t -> StronglySorted Z.lt cs -> Forall pos_ok cs -> commit_keys (to_map t) cs ->
  (user_entries PREFIX_COMMITTED_INTENTION (elements t)).*1 = ci_key <$> cs.
Proof.
  intros Hb Hs Hr Hk. apply slt_sorted_eq.
  - by apply user_entries_sorted.
  - clear Hk. induction cs as [|c cs IH]; [constructor|]. apply StronglySorted_inv in Hs as [Hs HF].
    apply Forall_cons in Hr as [Hc Hr]. rewrite fmap_cons. constructor; [by apply IH|]. apply Forall_fmap.
    rewrite Forall_forall in HF, Hr. apply Forall_forall. intros x Hx. apply ci_key_slt; auto.
  - intros k. rewrite elem_of_user_entries. unfold commit_keys in Hk. rewrite <- Hk. unfold to_map. split.
    + intros Hin. apply elem_of_dom. rewrite dom_list_to_map. by apply elem_of_list_to_set.
    + intros Hin%elem_of_dom. rewrite dom_list_to_map in Hin. by apply elem_of_list_to_set in Hin.
Qed.

Lemma commit_keys_commit m cs pos ops : commit_keys m cs -> Forall op_user ops -> commit_keys (commit_spec pos ops m) (cs ++ [pos]).
Proof.
  intros Hk Hops k. unfold commit_keys in Hk. unfold commit_spec, commit_key. rewrite fmap_app, elem_of_app. simpl.
  rewrite list_elem_of_singleton, <- Hk.
  destruct (decide (k = ci_key pos)) as [->|Hne].
  - rewrite lookup_insert_eq. split; [by right|by eexists].
  - rewrite lookup_insert_ne by (by intros ?%prefix_string_inj). rewrite ops_spec_commit_key by done. tauto.
Qed.

(** ** The machine *)

(** The intention the log holds at a position. *)
Definition logged_intention `{ProtoCodec} (log : gmap Z slot) (p : Z) : option Intention :=
  x ← log !! p;
  match slot_entry p x with Some (INTENTION_ENTRY i) => Some i | _ => None end.

(** The keys, the positions committed, and the last of them that this instance
    has in memory. *)
Record log_state : Type := mkLogState {
  ls_map : gmap string string;
  ls_commits : list Z;
  ls_index : list Z;
}.

Section machine.
Context {PC : ProtoCodec} (log : gmap Z slot).

Definition in_zone (st : log_state) (snap p : Z) : bool :=
  if bool_decide (snap ∈ ls_index st) then snap <=? p else snap <? p.

(** The intention [i] conflicts with one committed in its zone. *)
Definition conflicting (st : log_state) (i : Intention) : bool :=
  existsb (fun p => in_zone st (Snapshot i) p &&
    match logged_intention log p with Some j => negb (bool_decide (OpKeys i ## UpdateOpKeys j)) | None => false end)
    (ls_commits st).

Definition commit_at (pos : Z) (i : Intention) (st : log_state) : log_state :=
  mkLogState (commit_spec pos (pi_ops (intention_ i)) (ls_map st)) (ls_commits st ++ [pos]) (window (ls_index st ++ [pos])).

(** One intention: the state it leaves, and whether it is committed; none if its
    snapshot is no committed state. *)
Definition log_step (st : log_state) (pos : Z) (i : Intention) : option (log_state * bool) :=
  if bool_decide (last (ls_commits st) = Some (Snapshot i)) || Flush i then Some (commit_at pos i st, true)
  else if bool_decide (Snapshot i ∈ ls_commits st) then
    if conflicting st i then Some (st, false) else Some (commit_at pos i st, true)
  else None.

(** The intentions at the positions [ps], in turn. *)
Fixpoint log_run (st : log_state) (ps : list Z) : option (log_state * list bool) :=
  match ps with
  | [] => Some (st, [])
  | p :: ps =>
    i ← logged_intention log p;
    '(st, committed) ← log_step st p i;
    '(st, out) ← log_run st ps;
    Some (st, committed :: out)
  end.

(** [ps] are the positions of the next intentions from [start] on. *)
Fixpoint next_intentions (start : Z) (ps : list Z) : Prop :=
  match ps with
  | [] => True
  | p :: ps => start <= p /\ (exists i, logged_intention log p = Some i) /\
      (forall q, start <= q < p -> logged_intention log q = None) /\ next_intentions (p + 1) ps
  end.

(** The operations of an intention, and of a run. *)
Definition ops_at (p : Z) : list TransactionOp :=
  match logged_intention log p with Some i => pi_ops (intention_ i) | None => [] end.

Fixpoint run_size (ps : list Z) : nat :=
  match ps with [] => 0 | p :: ps => S (length (ops_at p) + run_size ps) end.

Lemma logged_position p i : logged_intention log p = Some i -> pos_ i = Some p.
Proof.
  unfold logged_intention. intros (x & _ & Hx)%bind_Some. destruct x as [d|]; simpl in Hx; [|done].
  unfold parse_entry in Hx. destruct (pb_parse d) as [e|]; [|done]. simpl in Hx. destruct (le_type e); by simplify_eq.
Qed.
End machine.

(** ** An instance that follows the log *)

Section replica.
Context {G : Type} {ZG : ZLog G} {ZL : ZLogLaws G} {PC : ProtoCodec} {SC : SliceCompare} {SL : SliceLaws}.
Context {LC : LexicalCast} {LCL : LexicalCastLaws}.
Context (std_hash : Z -> Z) (sizeof_node : Z) (scan_fuel entry_cache_size fuel bound : nat).
Hypothesis fuel_enough : (bound < fuel)%nat.
(** Positions are also root ids, which are signed. *)
Hypothesis signed_positions : Z.of_nat bound <= 2 ^ 63.
Context (logged : gmap Z slot).

#[local] Instance the_source : AfterImageSource (EntryService G) := db_source entry_cache_size fuel.
#[local] Instance the_source_laws : AfterImageSourceLaws (EntryService G) :=
  es_source_laws entry_cache_size fuel bound fuel_enough logged.
#[local] Instance the_store : NodeStore (NodeCache (EntryService G)) := db_store std_hash sizeof_node scan_fuel entry_cache_size fuel.

Abbreviation db_tree hor Pr := (db_tree std_hash sizeof_node scan_fuel entry_cache_size fuel bound fuel_enough hor Pr logged).
Abbreviation process := (process_intention std_hash sizeof_node scan_fuel entry_cache_size fuel).

(** The instance [s] is at state [st] of the log; it has no transaction of its
    own on the way to the log, and at most [n] keys. *)
Record replica (s : DBImpl G) (st : log_state) (n : nat) : Prop := {
  re_tree : exists Pr t, db_tree (last_intention_processed_ s + 1) Pr s t /\ rbtree t /\ (size t <= n)%nat /\ to_map t = ls_map st;
  re_keys : commit_keys (ls_map st) (ls_commits st);
  re_sorted : StronglySorted Z.lt (ls_commits st);
  re_range : Forall pos_ok (ls_commits st);
  re_suffix : exists pre, ls_commits st = pre ++ ls_index st;
  re_limit : (length (ls_index st) <= limit_)%nat;
  re_index : committed_intentions_ s = list_to_set (ls_index st);
  re_last : last (ls_commits st) = Some (root_snapshot_ s);
  re_logged p : p ∈ ls_commits st -> is_Some (logged_intention logged p);
  re_processed : 0 <= root_snapshot_ s <= last_intention_processed_ s /\ last_intention_processed_ s < intention_iterator_ s;
  re_finished p : last_intention_processed_ s < p -> finished_txns_ s !! p = None;
  re_waiters : token_waiters_ (txn_finder_ s) = ∅;
}.

Lemma logged_in (es : EntryService G) p i : slots es = logged -> intention_in es p i <-> logged_intention logged p = Some i.
Proof.
  intros <-. unfold intention_in, log_entry, logged_intention. destruct (slots es !! p) as [x|]; [|done]. simpl.
  destruct (slot_entry p x) as [[j|ai|]|]; split; intros ?; congruence.
Qed.

Lemma db_tree_slots hor Pr s t : db_tree hor Pr s t -> src_ok entry_cache_size bound (nc_src (cache_ s)) /\ slots (nc_src (cache_ s)) = logged.
Proof. intros [Hi _]. by destruct (ni_src _ _ _ _ _ Hi). Qed.

(** What [db_tree] is about. *)
Lemma db_tree_eq hor Pr s s' t : cache_ s' = cache_ s -> root_ s' = root_ s -> db_tree hor Pr s t -> db_tree hor Pr s' t.
Proof. intros Hc Hr [Hi Hp]. split; by rewrite Hc, ?Hr. Qed.

Lemma replica_history s st n Pr t : replica s st n -> db_tree (last_intention_processed_ s + 1) Pr s t -> rbtree t -> to_map t = ls_map st ->
  history s t (ls_commits st) (ls_index st).
Proof.
  intros [] Hdb (_ & _ & Hb) Hm. destruct (db_tree_slots _ _ _ _ Hdb) as [_ Hsl]. split; try done.
  - apply commit_entries; try done. by rewrite Hm.
  - intros p Hp. destruct (re_logged0 p Hp) as [i Hi]. exists i. by apply logged_in.
Qed.

(** *** The rounds' tail: waking whoever waits *)

Lemma NotifyTransaction_spec token pos c (s : DBImpl G) : token_waiters_ (txn_finder_ s) = ∅ ->
  wp (NotifyTransaction token pos c) (fun _ s' => exists m d, s' = set_waiting m d s) s.
Proof.
  intros Hw. unfold NotifyTransaction, NotifyIntention. apply wp_bind, wp_modify. unfold on_finder. apply wp_zoom.
  unfold Notify. apply wp_bind, wp_get. cbn [set_waiting txn_finder_]. rewrite Hw, lookup_empty. apply wp_ret.
  eexists _, _. by destruct s.
Qed.

(** *** The conflict decision, on the machine *)

Lemma conflicting_spec s st i : slots (nc_src (cache_ s)) = logged ->
  (conflicting logged st i = true <-> exists p j, p ∈ ls_commits st /\
    (if bool_decide (Snapshot i ∈ ls_index st) then Snapshot i <= p else Snapshot i < p) /\
    intention_in (nc_src (cache_ s)) p j /\ conflicts i j).
Proof.
  intros Hsl. unfold conflicting. rewrite existsb_exists. unfold in_zone. split.
  - intros (p & Hp & [Hz Hc]%andb_true_iff). destruct (logged_intention logged p) as [j|] eqn:Hj; [|done].
    exists p, j. split_and!; [by apply list_elem_of_In| |by apply logged_in|].
    + destruct (bool_decide _); [by apply Z.leb_le|by apply Z.ltb_lt].
    + by apply negb_true_iff, bool_decide_eq_false in Hc.
  - intros (p & j & Hp & Hz & Hj & Hc). exists p. split; [by apply list_elem_of_In|].
    apply (logged_in _ _ _ Hsl) in Hj. rewrite Hj. apply andb_true_iff. split.
    + destruct (bool_decide _); [by apply Z.leb_le|by apply Z.ltb_lt].
    + by apply negb_true_iff, bool_decide_eq_false.
Qed.

Lemma decision_machine s st n i Pr t : replica s st n -> db_tree (last_intention_processed_ s + 1) Pr s t -> rbtree t ->
  (size t <= n)%nat -> to_map t = ls_map st -> Snapshot i ∈ ls_commits st -> root_snapshot_ s <> Snapshot i ->
  (n < fuel)%nat -> (length (ls_commits st) < fuel)%nat ->
  wp (ProcessConcurrentIntention std_hash sizeof_node scan_fuel entry_cache_size fuel i) (fun abort s' =>
    abort = conflicting logged st i /\ (exists w', s' = set_cache w' s) /\ db_tree (last_intention_processed_ s + 1) Pr s' t) s.
Proof.
  intros Hr Hdb Hrb Hsz Hm Hsn Hne Hn Hcs. pose proof (replica_history s st n Pr t Hr Hdb Hrb Hm) as Hh.
  destruct (db_tree_slots _ _ _ _ Hdb) as [_ Hsl]. pose proof (height_size t).
  pose proof (sorted_last (ls_commits st) (root_snapshot_ s) ltac:(apply Hr) ltac:(apply Hr) _ Hsn).
  eapply wp_conseq.
  { eapply (decision_spec std_hash sizeof_node scan_fuel entry_cache_size fuel bound fuel_enough _ Pr logged s t); [exact Hdb|apply Hrb|lia|exact Hcs|exact Hh|exact Hsn|lia]. }
  intros abort s' [(Hdb' & Hw & _) Habort]. split_and!; [|done|done].
  apply Bool.eq_iff_eq_true. rewrite Habort. symmetry. by apply conflicting_spec.
Qed.

(** *** One round *)

(** The commit of an intention, up to the notification. *)
Lemma replica_commit s st n Pr i pos d s' : replica s st n ->
  let ops := pi_ops (intention_ i) in
  logged_intention logged pos = Some i -> Forall op_user ops -> intention_iterator_ s <= pos -> pos < 2 ^ 63 ->
  rbtree (erase d) -> (size (erase d) <= S (n + length ops))%nat -> to_map (erase d) = commit_spec pos ops (ls_map st) ->
  db_tree (pos + 1) (promise Pr pos d) s' (erase d) ->
  committed_intentions_ s' = list_to_set (window (ls_index st ++ [pos])) -> root_snapshot_ s' = pos ->
  last_intention_processed_ s' = pos -> intention_iterator_ s' = pos + 1 ->
  (forall p, pos < p -> finished_txns_ s' !! p = None) -> token_waiters_ (txn_finder_ s') = ∅ ->
  replica s' (commit_at pos i st) (S (n + length ops)).
Proof.
  intros Hr ops Hi Hops Hit Hpos Hrb Hsz Hm Hdb Eidx Eroot Elast Eit Hfin Hwait. pose proof Hr as []. destruct re_processed0 as [? ?].
  assert (forall p, p ∈ ls_commits st -> p < pos) as Hlt.
  { intros p Hp. pose proof (sorted_last _ _ re_sorted0 re_last0 p Hp). lia. }
  split; rewrite ?Eidx, ?Eroot, ?Elast, ?Eit; try done.
  - exists (promise Pr pos d), (erase d). by split_and!.
  - by apply commit_keys_commit.
  - apply sorted_snoc; [done|]. by apply Forall_forall.
  - apply Forall_app. split; [done|]. constructor; [|constructor]. unfold pos_ok. lia.
  - destruct re_suffix0 as [pre Ep]. simpl. rewrite Ep. unfold window.
    exists (pre ++ take (length (ls_index st ++ [pos]) - limit_) (ls_index st ++ [pos])).
    by rewrite <- !app_assoc, take_drop.
  - unfold commit_at, window. simpl. rewrite length_drop. lia.
  - simpl. by rewrite last_snoc.
  - intros p [Hp|Hp]%elem_of_app; [by apply re_logged0|]. apply list_elem_of_singleton in Hp as ->. by eexists.
  - lia.
Qed.

(** The position goes into the index, which keeps the last thousand. *)
Lemma replica_push s st n pos : replica s st n -> intention_iterator_ s <= pos ->
  CommitIndex.push pos (committed_intentions_ s) = Ok (tt, list_to_set (window (ls_index st ++ [pos]))).
Proof.
  intros [] Hit. rewrite re_index0. apply push_window; [|done]. destruct re_suffix0 as [pre Ep].
  apply (sorted_suffix pre). rewrite app_assoc, <- Ep. apply sorted_snoc; [done|].
  apply Forall_forall. intros p Hp. pose proof (sorted_last _ _ re_sorted0 re_last0 p Hp). lia.
Qed.

Lemma Notify_nobody token pos c (f : TransactionFinder) : token_waiters_ f = ∅ -> Notify token pos c f = Ok (tt, f).
Proof. intros Hf. unfold Notify, mbind, M_bind, get. by rewrite Hf, lookup_empty. Qed.

Lemma replica_weaken s st n n' : (n <= n')%nat -> replica s st n -> replica s st n'.
Proof. intros Hn [(Pr & t & ? & ? & ? & ?)]. split; try done. exists Pr, t. split_and!; try done. lia. Qed.

(** The iterator finds the next intention. *)
Lemma next_intention s st n Pr t pos i : replica s st n -> db_tree (last_intention_processed_ s + 1) Pr s t ->
  logged_intention logged pos = Some i -> intention_iterator_ s <= pos ->
  (forall q, intention_iterator_ s <= q < pos -> logged_intention logged q = None) ->
  pos < Z.of_nat bound /\
  wp (on_es (IntentionIterator_Next entry_cache_size fuel (intention_iterator_ s))) (fun x s' =>
    x = (Some i, pos + 1) /\ (exists w, s' = set_cache w s) /\ db_tree (last_intention_processed_ s + 1) Pr s' t) s.
Proof.
  intros Hr Hdb Hi Hpos Hnone. destruct (db_tree_slots _ _ _ _ Hdb) as [Hsrc Hsl].
  apply (logged_in _ _ _ Hsl) in Hi as Hin. pose proof (log_entry_slot _ _ _ Hin) as Hslot.
  pose proof (so_range _ _ _ Hsrc pos Hslot) as [Hp _]. split; [lia|].
  pose proof (re_processed _ _ _ Hr) as Hproc. unfold on_es, on_cache. apply wp_zoom, wp_zoom.
  eapply wp_conseq; [apply (IntentionIterator_spec entry_cache_size fuel bound fuel_enough fuel _ pos i); [lia|exact Hsrc|exact Hin|lia|]|].
  - intros q j Hq Hj. apply (logged_in _ _ _ Hsl) in Hj. rewrite Hnone in Hj by done. done.
  - intros x es (-> & Hes & Hl). split_and!; [done|by eexists|].
    eapply db_tree_src; [exact Hdb|exact Hes|]. by apply same_log_slots.
Qed.

(** A state the processor passes through in a round. *)
Lemma replica_reading s st n Pr t w p : replica s st n -> rbtree t -> (size t <= n)%nat -> to_map t = ls_map st ->
  last_intention_processed_ s < p -> let s' := set_iterator p (set_cache w s) in
  db_tree (last_intention_processed_ s' + 1) Pr s' t -> replica s' st n.
Proof. intros [] Hrb Hsz Hm Hp s' Hdb. split; try done; [by exists Pr, t|]. simpl. lia. Qed.

(** The decision of a round: the machine's. *)
Lemma round_decision s st n Pr t i pos st' out : replica s st n -> db_tree (last_intention_processed_ s + 1) Pr s t -> rbtree t ->
  (size t <= n)%nat -> to_map t = ls_map st -> (n < fuel)%nat -> (length (ls_commits st) < fuel)%nat ->
  log_step logged st pos i = Some (st', out) ->
  wp (if (root_snapshot_ s =? Snapshot i) || Flush i then mret false
      else ProcessConcurrentIntention std_hash sizeof_node scan_fuel entry_cache_size fuel i)
    (fun abort s' => out = negb abort /\ st' = (if abort then st else commit_at pos i st) /\
      (exists w, s' = set_cache w s) /\ db_tree (last_intention_processed_ s + 1) Pr s' t) s.
Proof.
  intros Hr Hdb Hrb Hsz Hm Hn Hcs. unfold log_step. pose proof (re_last _ _ _ Hr) as Hlast.
  assert (bool_decide (last (ls_commits st) = Some (Snapshot i)) = (root_snapshot_ s =? Snapshot i)) as ->.
  { apply Bool.eq_iff_eq_true. rewrite bool_decide_eq_true, Hlast, Z.eqb_eq. split; congruence. }
  destruct (Z.eqb_spec (root_snapshot_ s) (Snapshot i)) as [E|Hne]; simpl.
  { intros [= <- <-]. apply wp_ret. split_and!; [done..|by exists (cache_ s); destruct s|done]. }
  destruct (Flush i).
  { intros [= <- <-]. apply wp_ret. split_and!; [done..|by exists (cache_ s); destruct s|done]. }
  destruct (bool_decide (Snapshot i ∈ ls_commits st)) eqn:Hsn; [|done]. apply bool_decide_eq_true in Hsn. intros Hstep.
  eapply wp_conseq; [by eapply decision_machine|]. intros abort s' (-> & Hw & Hdb').
  destruct (conflicting logged st i); injection Hstep as <- <-; by split_and!.
Qed.

(** What a round that commits leaves for the writer of after images: the tree it
    put at the end of the list, whose new nodes are those of the new root. *)
Record left_for_writer (s s' : DBImpl G) (Pr : NodeAddress -> tree -> Prop) (pos : Z) (d : dtree) (x : loc) (tr : PersistentTree) : Prop := {
  lw_trees : lcs_trees_ s' = lcs_trees_ s ++ [tr];
  lw_intention : pt_intention tr = Some pos;
  lw_afterimage : pt_afterimage tr = None;
  lw_root : root_ s' = SetIntentionAddress pos (dsize d - 1) (mkNodePtr (Some x) None true);
  lw_size : 0 < dsize d;
  lw_ready : ready (NSL := node_cache_laws std_hash sizeof_node scan_fuel (last_intention_processed_ s + 1) Pr) pos pos (cache_ s', tr) d x;
}.

(** The commit of a round, from the state that has read the intention. *)
Lemma replica_commit_round s st n Pr t pos i w serial : let ops := pi_ops (intention_ i) in
  let s3 := set_iterator (pos + 1) (set_cache w s) in
  replica s st n -> intention_iterator_ s <= pos -> db_tree (last_intention_processed_ s + 1) Pr s3 t -> rbtree t -> (size t <= n)%nat ->
  to_map t = ls_map st -> logged_intention logged pos = Some i -> pos < 2 ^ 63 -> Forall op_user ops -> (S (n + length ops) < fuel)%nat ->
  wp (commit_intention std_hash sizeof_node scan_fuel entry_cache_size fuel i pos serial) (fun more s' => more = true /\
    replica s' (commit_at pos i st) (S (n + length ops)) /\ intention_iterator_ s' = pos + 1 /\ last_intention_processed_ s' = pos /\
    stop_ s' = stop_ s /\ exists d x tr, rbtree (erase d) /\ (size (erase d) <= S (n + length ops))%nat /\
      to_map (erase d) = commit_spec pos ops (ls_map st) /\ left_for_writer s s' Pr pos d x tr) s3.
Proof.
  intros ops s3 Hr Hit Hdb Hrb Hsz Hm Hi Hpos Hops Hf. pose proof Hr as []. pose proof (logged_position _ _ _ Hi) as Hip.
  set (hor := last_intention_processed_ s + 1) in *.
  eapply wp_conseq.
  { apply (commit_intention_run std_hash sizeof_node scan_fuel entry_cache_size fuel
      (fun w off x tr => exists d, (off = dsize d - 1 /\ rbtree (erase d) /\ (size (erase d) <= S (n + length ops))%nat /\
          to_map (erase d) = commit_spec pos ops (ls_map st)) /\ (pt_intention tr = Some pos /\ pt_afterimage tr = None) /\ 0 < dsize d /\
        ready (NSL := node_cache_laws std_hash sizeof_node scan_fuel hor Pr) pos pos (w, tr) d x) (fun f => f = txn_finder_ s)
      i pos serial (list_to_set (window (ls_index st ++ [pos]))) None (finished_txns_ s) s3).
    - by eapply (replica_push s st n).
    - destruct serial; [|done]. change (finished_txns_ s3) with (finished_txns_ s). unfold Find. by rewrite re_finished0 by lia.
    - eapply wp_conseq.
      { eapply (next_root_ready std_hash sizeof_node scan_fuel entry_cache_size fuel bound fuel_enough logged hor Pr _ t i pos (root_snapshot_ s) n);
          [eapply db_tree_eq; [..|exact Hdb]; done|done|done| |lia|simpl; lia|lia|by eexists|done|exact Hf].
        rewrite Hm. apply re_keys0. apply list_elem_of_fmap. exists (root_snapshot_ s). split; [done|]. by apply last_elem. }
      intros [o tr] s5 (w5 & d & x & -> & Hrb' & Hsz' & Hm' & -> & Hd & Hready & _ & Hti & Hta). exists w5, (dsize d - 1), x.
      destruct (publish_spec std_hash sizeof_node scan_fuel entry_cache_size fuel bound fuel_enough logged hor Pr pos w5 tr d x)
        as (Hne & Hx & _); [lia|lia|done|done|].
      split_and!; try done. exists d. rewrite Hm in Hm'. by split_and!.
    - simpl. lia.
    - unfold wp. by rewrite Notify_nobody. }
  intros more s' (-> & w5 & off & x & tr & f & m & dn & (d & (-> & Hrb' & Hsz' & Hm') & [Hti Hta] & Hd & Hready) & -> & ->).
  destruct (publish_spec std_hash sizeof_node scan_fuel entry_cache_size fuel bound fuel_enough logged hor Pr pos w5 tr d x)
    as (_ & _ & Hinv & Hptr); [lia|lia|done|done|].
  split_and!; [done| |done|done|done|exists d, x, tr; split_and!; [done..|by split]].
  eapply (replica_commit s st n Pr i pos d); try done. intros p Hp. apply re_finished0. lia.
Qed.

Lemma process_tree_step s st n Pr t pos i st' out : let ops := pi_ops (intention_ i) in
  replica s st n -> db_tree (last_intention_processed_ s + 1) Pr s t -> rbtree t -> (size t <= n)%nat -> to_map t = ls_map st ->
  logged_intention logged pos = Some i -> intention_iterator_ s <= pos ->
  (forall q, intention_iterator_ s <= q < pos -> logged_intention logged q = None) ->
  Forall op_user ops -> (S (n + length ops) < fuel)%nat -> (length (ls_commits st) < fuel)%nat ->
  log_step logged st pos i = Some (st', out) ->
  wp process (fun more s' => more = true /\ replica s' st' (S (n + length ops)) /\ intention_iterator_ s' = pos + 1 /\
    last_intention_processed_ s' = pos /\ stop_ s' = stop_ s /\
    (out = true -> exists d x tr, rbtree (erase d) /\ (size (erase d) <= S (n + length ops))%nat /\ to_map (erase d) = ls_map st' /\
      left_for_writer s s' Pr pos d x tr)) s.
Proof.
  intros ops Hr Hdb Hrb Hsz Hm Hi Hit Hnone Hops Hf Hcs Hstep. pose proof Hr as [].
  destruct (next_intention s st n Pr t pos i Hr Hdb Hi Hit Hnone) as [Hbound Hnext].
  pose proof (logged_position _ _ _ Hi) as Hip.
  unfold process_intention. apply wp_bind, wp_get, wp_bind. eapply wp_conseq; [exact Hnext|].
  intros x s1 (-> & (w1 & ->) & Hdb1). apply wp_bind, wp_modify, wp_bind.
  unfold Position. rewrite Hip. apply wp_ret, wp_bind, wp_get.
  set (s2 := set_iterator (pos + 1) (set_cache w1 s)).
  assert (db_tree (last_intention_processed_ s2 + 1) Pr s2 t) as Hdb2 by (by eapply db_tree_eq; [..|exact Hdb1]).
  assert (replica s2 st n) as Hr2 by (eapply replica_reading; try done; lia).
  apply wp_bind, wp_assert; [apply Z.ltb_lt; simpl; lia|].
  apply wp_bind. eapply wp_conseq; [eapply (round_decision s2); try done; lia|].
  intros abort s3 (-> & -> & (w3 & ->) & Hdb3).
  change (set_cache w3 s2) with (set_iterator (pos + 1) (set_cache w3 s)) in *.
  set (s3 := set_iterator (pos + 1) (set_cache w3 s)) in *.
  assert (replica s3 st n) as Hr3 by (eapply replica_reading; try done; lia).
  destruct abort.
  - (* aborted *)
    apply wp_bind. eapply wp_conseq; [by apply NotifyTransaction_spec|]. intros [] s4 (wm & wd & ->).
    apply wp_bind, wp_get, wp_bind, wp_assert; [apply Z.ltb_lt; simpl; lia|]. apply wp_bind, wp_modify, wp_ret.
    split_and!; [done| |done|done|done|done]. apply (replica_weaken _ _ n); [lia|]. split; try done; [|simpl; lia|].
    + exists Pr, t. split_and!; try done. eapply db_tree_eq; [done..|]. eapply db_tree_horizon; [|exact Hdb3]. simpl. lia.
    + intros p Hp. apply re_finished0. simpl in Hp. lia.
  - (* committed *)
    eapply wp_conseq; [eapply (replica_commit_round s st n Pr t pos i w3); try done; lia|].
    intros more s' (-> & Hr' & Hit' & Hl & Hst & d & x & tr & Hleft). by split_and!; [..|intros _; exists d, x, tr].
Qed.

Lemma process_step s st n pos i st' out : let ops := pi_ops (intention_ i) in
  replica s st n -> logged_intention logged pos = Some i -> intention_iterator_ s <= pos ->
  (forall q, intention_iterator_ s <= q < pos -> logged_intention logged q = None) ->
  Forall op_user ops -> (S (n + length ops) < fuel)%nat -> (length (ls_commits st) < fuel)%nat ->
  log_step logged st pos i = Some (st', out) ->
  wp process (fun more s' => more = true /\ replica s' st' (S (n + length ops)) /\ intention_iterator_ s' = pos + 1 /\
    last_intention_processed_ s' = pos) s.
Proof.
  intros ops Hr Hi Hit Hnone Hops Hf Hcs Hstep. destruct (re_tree _ _ _ Hr) as (Pr & t & Hdb & Hrb & Hsz & Hm).
  eapply wp_conseq; [by eapply process_tree_step|]. by intros more s' (? & ? & ? & ? & _).
Qed.

(** *** The loop *)

(** The loop of [TransactionProcessorEntry], for as many rounds. *)
Fixpoint process_rounds (n : nat) : DBM bool :=
  match n with
  | O => mret true
  | S n => more ← process; if (more : bool) then process_rounds n else mret false
  end.

Lemma process_rounds_spec ps : forall s st n st' out, replica s st n -> next_intentions logged (intention_iterator_ s) ps ->
  log_run logged st ps = Some (st', out) -> Forall (fun p => Forall op_user (ops_at logged p)) ps ->
  (n + run_size logged ps < fuel)%nat -> (length (ls_commits st) + length ps < fuel)%nat ->
  wp (process_rounds (length ps)) (fun more s' => more = true /\ replica s' st' (n + run_size logged ps) /\
    last_intention_processed_ s <= last_intention_processed_ s' /\ Forall (fun p => p <= last_intention_processed_ s') ps) s.
Proof.
  induction ps as [|p ps IH]; intros s st n st' out Hr Hnext Hrun Hops Hf Hcs.
  { injection Hrun as <- <-. apply wp_ret. simpl. rewrite Nat.add_0_r. split_and!; [done|done|lia|constructor]. }
  destruct Hnext as (Hp & [i Hi] & Hnone & Hnext). apply Forall_cons in Hops as [Hop Hops].
  cbn [log_run] in Hrun. rewrite Hi in Hrun. cbn [mbind option_bind] in Hrun.
  destruct (log_step logged st p i) as [[st1 c]|] eqn:Hstep; [|done]. cbn [mbind option_bind] in Hrun.
  destruct (log_run logged st1 ps) as [[st2 out2]|] eqn:Hrest; [|done]. injection Hrun as <- <-.
  simpl in Hf, Hcs |- *. unfold ops_at in Hop, Hf. unfold ops_at. rewrite Hi in *.
  apply wp_bind. eapply wp_conseq; [eapply process_step; try done; lia|].
  intros more s1 (-> & Hr1 & Hit & Hl1). assert (length (ls_commits st1) <= S (length (ls_commits st)))%nat as Hlen.
  { unfold log_step in Hstep. destruct (_ || _); [|destruct (bool_decide _); [destruct (conflicting _ _ _)|done]];
      injection Hstep as <- _; simpl; rewrite ?length_app; simpl; lia. }
  eapply wp_conseq; [eapply (IH s1 st1); [exact Hr1|by rewrite Hit|exact Hrest|done|lia|lia]|].
  intros more s2 (-> & Hr2 & Hl2 & HF). pose proof (re_processed _ _ _ Hr). split_and!; [done| |lia|constructor; [lia|done]].
  eapply replica_weaken; [|exact Hr2]. unfold ops_at. lia.
Qed.

(** Reads of an instance that follows the log. *)
Lemma replica_reads s st n key : replica s st n -> (n < fuel)%nat ->
  wp (Get std_hash sizeof_node scan_fuel entry_cache_size fuel key)
    (fun res _ => res = spec_get (ls_map st) (prefix_string PREFIX_USER key)) s.
Proof.
  intros [(Pr & t & Hdb & (_ & _ & Hb) & Hsz & Hm)] Hn. pose proof (height_size t).
  eapply wp_conseq.
  { eapply (db_Get_spec std_hash sizeof_node scan_fuel entry_cache_size fuel bound fuel_enough _ Pr logged key t s); [exact Hdb|lia]. }
  intros res s' (-> & _). unfold spec_get. by rewrite lookup_find, Hm.
Qed.

(** ** Where an instance starts *)

(** The log, through its entry service, holds the state of the commits [cs] in
    the after image of [point]. *)
Record restorable (es : EntryService G) (point : RestorePoint) (t : tree) (cs : list Z) : Prop := {
  rs_holds : log_holds scan_fuel entry_cache_size bound (ai_intention (after_image point) + 1) logged es point t;
  rs_valid : rbtree t;
  rs_keys : commit_keys (to_map t) cs;
  rs_sorted : StronglySorted Z.lt cs;
  rs_range : Forall pos_ok cs;
  rs_last : last cs = Some (ai_intention (after_image point));
  rs_logged p : p ∈ cs -> is_Some (logged_intention logged p);
  rs_start : ai_intention (after_image point) < replay_start_pos point;
}.

Lemma restored_replica imap point es t cs n : restorable es point t cs -> (size t <= n)%nat ->
  exists s, new_db std_hash sizeof_node imap point es = Ok s /\ replica s (mkLogState (to_map t) cs []) n /\
    intention_iterator_ s = replay_start_pos point /\ last_intention_processed_ s = ai_intention (after_image point) /\
    in_flight_txn_rid_ s = -1.
Proof.
  intros [] Hn.
  destruct (new_db_spec std_hash sizeof_node scan_fuel entry_cache_size fuel bound fuel_enough _ (fun _ _ => False) logged imap point es t rs_holds0)
    as (s & Hs & Hdb & Hrid & Hroot & Hlast & Hit & Hidx & Hfin & Htf).
  exists s. split_and!; [done| |done|done|done]. pose proof (lh_processed _ _ _ _ _ _ _ _ rs_holds0) as Hpub. unfold published in Hpub.
  split; try done.
  - exists (fun _ _ => False), t. rewrite Hlast. by split_and!.
  - exists cs. simpl. by rewrite app_nil_r.
  - simpl. lia.
  - by rewrite Hroot.
  - rewrite Hroot, Hlast, Hit. lia.
  - intros p _. rewrite Hfin. done.
  - by rewrite Htf.
Qed.
End replica.
