(* ===== verification/ReplicaProps.v ===== *)
(** The properties of log replay: an instance follows the machine of Replica.v,
    from a restore point to its reads, and the after image written for a
    processed intention is the state the processor left. *)
From S2P Require Import Prelude Slice RBTree Node Proto PersistentTree Delta PathCopy TreeSpec TransactionTree Infect Intention Transaction.
From S2P Require Import Iterator IteratorSpec LruCache NodeCache NodeCacheSpec Images Serialize Matcher EntryService EntryServiceSpec MemLog.
From S2P Require Import TxnFinder CommitIndex DBImpl DBWalks DBImplSpec Publish Conflict DBProps ConflictProps Replica.

Section properties.
Context {G : Type} {ZG : ZLog G} {ZL : ZLogLaws G} {PC : ProtoCodec} {SC : SliceCompare} {SL : SliceLaws}.
Context {LC : LexicalCast} {LCL : LexicalCastLaws}.
Context (std_hash : Z -> Z) (sizeof_node : Z) (scan_fuel entry_cache_size fuel bound : nat).
Context (fuel_enough : (bound < fuel)%nat) (signed_positions : Z.of_nat bound <= 2 ^ 63) (logged : gmap Z slot).

#[local] Instance the_source : AfterImageSource (EntryService G) := db_source entry_cache_size fuel.
#[local] Instance the_source_laws : AfterImageSourceLaws (EntryService G) :=
  es_source_laws entry_cache_size fuel bound fuel_enough logged.
#[local] Instance the_store : NodeStore (NodeCache (EntryService G)) := db_store std_hash sizeof_node scan_fuel entry_cache_size fuel.

Abbreviation db_tree hor Pr := (db_tree std_hash sizeof_node scan_fuel entry_cache_size fuel bound fuel_enough hor Pr logged).
Abbreviation replica := (replica std_hash sizeof_node scan_fuel entry_cache_size fuel bound fuel_enough logged).

(** C3: one round of the transaction processor is one step of the log machine.
    On an instance at state [st], with no transaction of its own in flight, the
    round takes the next intention of the log, aborts or commits it as the
    machine does, and leaves an instance at the machine's next state: the
    operations applied, the position recorded as a key and in the index, the
    new tree published.
    The entry cache can hold the whole log. *)
Theorem processor_follows_log s st n pos i st' out : let ops := pi_ops (intention_ i) in
  replica s st n -> logged_intention logged pos = Some i -> intention_iterator_ s <= pos ->
  (forall q, intention_iterator_ s <= q < pos -> logged_intention logged q = None) ->
  Forall op_user ops -> (S (n + length ops) < fuel)%nat -> (length (ls_commits st) < fuel)%nat ->
  log_step logged st pos i = Some (st', out) ->
  wp (process_intention std_hash sizeof_node scan_fuel entry_cache_size fuel) (fun more s' =>
    more = true /\ replica s' st' (S (n + length ops)) /\ intention_iterator_ s' = pos + 1 /\
    last_intention_processed_ s' = pos) s.
Proof. intros. by eapply process_step. Qed.

(** The after image of a tree whose new nodes are numbered. *)
Lemma serialized_ready hor Pr s pos w tr d x : let L := node_cache_laws std_hash sizeof_node scan_fuel hor Pr in
  hor <= pos -> 0 <= pos < 2 ^ 63 -> ready (NSL := L) pos pos (w, tr) d x -> dsize d <= 2 ^ 16 -> (height (erase d) < fuel)%nat ->
  wp (DBImpl.on_tree tr (SerializeAfterImage fuel pos)) (fun '((ai, delta), _) _ =>
    ai_intention ai = pos /\ encodes (nc_names scan_fuel hor Pr w) d 0 (ai_tree ai) /\ delta = postorder d) (set_cache w s).
Proof.
  intros L Hhor Hpos Hready Hsz Hf. pose proof (i64_small pos Hpos) as [Hi64 Hu]. apply wp_db_tree. eapply wp_conseq.
  { eapply (SerializeAfterImage_spec (NSL := L) pos); [by rewrite Hu|apply next_delta_id; simpl; lia|exact Hready|lia|exact Hf]. }
  by intros [ai delta] [w' tr'] (Hai & Henc & Hdelta & _).
Qed.

(** C7: the after image round trip. Publishing the tree a replay left promises
    addresses for its new nodes; the after image then serialized from it keeps
    the promise: in any log that has the image at a position and the older trees
    where their addresses say, every address promised is the node of that offset,
    and the last node is the root of the committed map. A delta of more than
    [2^16] nodes has no such image: offsets are 16 bits wide.
    The entry cache can hold the whole log. *)
Theorem after_image_round_trip hor Pr s t i pos q n : let ops := pi_ops (intention_ i) in
  db_tree hor Pr s t -> rbtree t -> (size t <= n)%nat -> is_Some (to_map t !! commit_key q) -> 0 <= q < pos ->
  0 <= hor <= pos -> pos < 2 ^ 63 -> is_Some (pos_ i) -> Forall op_user ops -> (S (n + length ops) < fuel)%nat ->
  wp (next_root std_hash sizeof_node scan_fuel entry_cache_size fuel i pos None) (fun '(o, tr) s' =>
    exists off x Pr' t', o = Some off /\ pt_root tr = Some x /\ rbtree t' /\ to_map t' = commit_spec pos ops (to_map t) /\
      (forall s'', cache_ s'' = cache_ s' -> root_ s'' = SetIntentionAddress pos off (mkNodePtr (Some x) None true) ->
        db_tree (pos + 1) Pr' s'' t') /\
      (off < 2 ^ 16 -> wp (DBImpl.on_tree tr (SerializeAfterImage fuel pos)) (fun '((ai, _), _) _ =>
        ai_intention ai = pos /\ Z.of_nat (length (ai_tree ai)) = off + 1 /\
        forall log p, log !! p = Some ai -> 0 <= p < 2 ^ 64 ->
          (forall a u, nc_names scan_fuel hor Pr (cache_ s) a u -> u <> E -> stored_in scan_fuel (pos + 1) log a u) ->
          image_at scan_fuel (pos + 1) log t' p off /\
          forall a u, Pr' a u -> Pr a u \/ image_at scan_fuel (pos + 1) log u p (Offset a)) s')) s.
Proof.
  intros ops Hdb Hrb Hsz Hq Hqp Hhor Hpos Hip Hops Hf. pose proof (i64_small pos ltac:(lia)) as [Hi64 Hu].
  set (L := node_cache_laws std_hash sizeof_node scan_fuel hor Pr).
  eapply wp_conseq; [by eapply (next_root_ready std_hash sizeof_node scan_fuel entry_cache_size fuel bound fuel_enough logged hor Pr s t i pos q n)|].
  intros [o tr] s' (w & d & x & -> & Hrb' & Hsz' & Hm & -> & Hd & Hready & Hext & _).
  destruct (publish_spec std_hash sizeof_node scan_fuel entry_cache_size fuel bound fuel_enough logged hor Pr pos w tr d x) as (_ & Hx & Hinv & Hptr); [done..|].
  exists (dsize d - 1), x, (promise Pr pos d), (erase d). split_and!; [done..| |].
  { intros s'' Hc Hroot. split; rewrite Hc; [exact Hinv|]. by rewrite Hroot. }
  intros Hoff. pose proof (height_size (erase d)). eapply wp_conseq.
  { apply (serialized_ready hor Pr s pos w tr d x); [lia|lia|exact Hready|lia|unfold ops in *; lia]. }
  intros [[ai delta] tr'] _ (Hai & Henc & _). pose proof (encodes_length _ _ _ _ Henc) as Hlen. split_and!; [done|lia|].
  intros log p Hlog Hp Hwritten. rewrite <- Hai.
  assert (forall a u, ns_names (NodeStoreLaws := L) (w, tr).1 a u -> u <> E -> stored_in scan_fuel (ai_intention ai + 1) log a u) as Hw.
  { intros a u Hn Hne. rewrite Hai. apply Hwritten; [|done].
    change (ns_names (NodeStoreLaws := L) (cache_ s) a u). rewrite <- (wext_names (NSL := L) _ _ Hext). exact Hn. }
  destruct Hready as (δ & _ & _ & Hhd & _ & _). destruct d as [u|l c a k v b]; [done|]. split.
  - rewrite <- (Z.add_0_l (dsize _)).
    eapply (encoded_root scan_fuel log p ai Hlog Hp) with (pre := []) (post := []);
      [rewrite Hai; lia|exact Hw|exact Henc|by rewrite app_nil_r|done|lia|done].
  - intros y u [?|Hy]; [by left|right].
    eapply (encoded_assigned scan_fuel log p ai Hlog Hp) with (pre := []) (post := []);
      [rewrite Hai; lia|exact Hw|intros; by apply make_address_offset|exact Henc|by rewrite app_nil_r|done|lia|exact Hy].
Qed.

(** C8: the type of after images. Whatever intention a replay applied, the after
    image serialized from its tree is well-formed: it is not empty, every child
    pointer sets the fields of exactly one of the four forms of the message, self
    pointers go back to earlier nodes of the image, and positions and offsets
    fit their fields; the delta lists one node for each message.
    The entry cache can hold the whole log. *)
Theorem serialized_image_typed hor Pr s t i pos q n : let ops := pi_ops (intention_ i) in
  db_tree hor Pr s t -> rbtree t -> (size t <= n)%nat -> is_Some (to_map t !! commit_key q) -> 0 <= q < pos ->
  0 <= hor <= pos -> pos < 2 ^ 63 -> is_Some (pos_ i) -> Forall op_user ops -> (S (n + length ops) < fuel)%nat -> wide_names Pr ->
  wp (next_root std_hash sizeof_node scan_fuel entry_cache_size fuel i pos None) (fun '(o, tr) s' => exists off, o = Some off /\
    (off < 2 ^ 16 -> wp (DBImpl.on_tree tr (SerializeAfterImage fuel pos)) (fun '((ai, delta), _) _ =>
      image_typed ai = true /\ length delta = length (ai_tree ai)) s')) s.
Proof.
  intros ops Hdb Hrb Hsz Hq Hqp Hhor Hpos Hip Hops Hf Hwide.
  eapply wp_conseq; [by eapply (next_root_ready std_hash sizeof_node scan_fuel entry_cache_size fuel bound fuel_enough logged hor Pr s t i pos q n)|].
  intros [o tr] s' (w & d & x & -> & _ & Hsz' & _ & -> & Hd & Hready & _). exists (dsize d - 1). split; [done|].
  intros Hoff. pose proof (height_size (erase d)). eapply wp_conseq.
  { apply (serialized_ready hor Pr s pos w tr d x); [lia|lia|exact Hready|lia|unfold ops in *; lia]. }
  intros [[ai delta] tr'] _ (Hai & Henc & ->). pose proof (encodes_length _ _ _ _ Henc) as Hlen.
  pose proof (postorder_length d). split; [|lia].
  assert (wide_names (nc_names scan_fuel hor Pr w)) as Hw by (intros a u [?|?] Hne; [by eapply stored_range|by eapply Hwide]).
  unfold image_typed. rewrite Hai, (encodes_typed _ d Hw 0) by (try done; lia).
  rewrite (proj2 (in_width_spec 64 pos)) by lia. by rewrite bool_decide_eq_false_2 by lia.
Qed.
End properties.

(** ** A log with intentions past its restore point *)

Definition late_puts : list ProtoIntention :=
  [put_intention 0 "a" "x"; put_intention 1 "b" "2"; put_intention 1 "a" "3"; put_intention 1 "b" "4"].
Definition late_es : EntryService MemLog := stored_es (tree_log late_puts 1 demo_users).
Definition late_point : RestorePoint := tree_point late_puts 1 demo_users.

Lemma tree_log_logged ps i t k q : ps !! k = Some q ->
  logged_intention (slots (stored_es (tree_log ps i t))) (Z.of_nat (S k)) = Some (intention_at q (Z.of_nat (S k))).
Proof. intros Hk. apply (logged_in _ (stored_es (tree_log ps i t))); [done|]. by apply tree_log_intention. Qed.

Lemma late_logged k q : late_puts !! k = Some q ->
  logged_intention (slots late_es) (Z.of_nat (S k)) = Some (intention_at q (Z.of_nat (S k))).
Proof. apply tree_log_logged. Qed.

(** A log whose first intention has the image of [demo_users]. *)
Lemma users_restorable ps q : ps !! 0%nat = Some q -> (length ps < 8)%nat ->
  restorable 100 10 10 (slots (stored_es (tree_log ps 1 demo_users))) (stored_es (tree_log ps 1 demo_users)) (tree_point ps 1 demo_users) demo_users [1].
Proof.
  intros Hq Hps. split.
  - apply tree_log_holds; [done|simpl; lia|simpl; lia|done|]. by vm_compute.
  - exact demo_users_rb.
  - intros k. simpl. rewrite list_elem_of_singleton. split.
    + intros [v Hv]. apply elem_of_list_to_map_2 in Hv. apply elem_of_cons in Hv as [Hv|[Hv|Hv%not_elem_of_nil]%elem_of_cons]; [|done..].
      injection Hv as Hv _. done.
    + intros ->. by eexists.
  - repeat constructor.
  - repeat constructor; lia.
  - done.
  - intros p ->%list_elem_of_singleton. eexists. exact (tree_log_logged ps 1 demo_users 0 _ Hq).
  - simpl. lia.
Qed.

Lemma late_restorable : restorable 100 10 10 (slots late_es) late_es late_point demo_users [1].
Proof. apply (users_restorable late_puts (put_intention 0 "a" "x") eq_refl). simpl. lia. Qed.

(** The intention at 3 is concurrent and commits, the one at 4 conflicts. *)
Definition late_state : log_state :=
  commit_at 3 (intention_at (put_intention 1 "a" "3") 3) (commit_at 2 (intention_at (put_intention 1 "b" "2") 2)
    (mkLogState (to_map demo_users) [1] [])).

Lemma late_run : log_run (slots late_es) (mkLogState (to_map demo_users) [1] []) [2; 3; 4] = Some (late_state, [true; true; false]).
Proof.
  assert (logged_intention (slots late_es) 1 = Some (intention_at (put_intention 0 "a" "x") 1)) as H1 by exact (late_logged 0 _ eq_refl).
  assert (logged_intention (slots late_es) 2 = Some (intention_at (put_intention 1 "b" "2") 2)) as H2 by exact (late_logged 1 _ eq_refl).
  assert (logged_intention (slots late_es) 3 = Some (intention_at (put_intention 1 "a" "3") 3)) as H3 by exact (late_logged 2 _ eq_refl).
  assert (logged_intention (slots late_es) 4 = Some (intention_at (put_intention 1 "b" "4") 4)) as H4 by exact (late_logged 3 _ eq_refl).
  revert H1 H2 H3 H4. generalize (slots late_es). intros log H1 H2 H3 H4. unfold late_state.
  cbn [log_run]. rewrite H2. cbn [mbind option_bind].
  set (st := mkLogState _ _ _). change (log_step log st 2 (intention_at (put_intention 1 "b" "2") 2))
    with (Some (commit_at 2 (intention_at (put_intention 1 "b" "2") 2) st, true)).
  cbn [mbind option_bind]. rewrite H3. cbn [mbind option_bind]. set (st2 := commit_at 2 _ st).
  assert (log_step log st2 3 (intention_at (put_intention 1 "a" "3") 3) =
    Some (commit_at 3 (intention_at (put_intention 1 "a" "3") 3) st2, true)) as ->.
  { unfold log_step, conflicting, st2, st, commit_at. cbn [ls_commits app existsb]. rewrite H1, H2. by vm_compute. }
  cbn [mbind option_bind]. rewrite H4. cbn [mbind option_bind]. set (st3 := commit_at 3 _ st2).
  assert (log_step log st3 4 (intention_at (put_intention 1 "b" "4") 4) = Some (st3, false)) as ->; [|done].
  unfold log_step, conflicting, st3, st2, st, commit_at. cbn [ls_commits app existsb]. rewrite H1, H2, H3. by vm_compute.
Qed.

Lemma late_next : next_intentions (slots late_es) 2 [2; 3; 4].
Proof.
  cbn [next_intentions]. split_and!; try lia; try done.
  - eexists. exact (late_logged 1 _ eq_refl).
  - eexists. exact (late_logged 2 _ eq_refl).
  - eexists. exact (late_logged 3 _ eq_refl).
Qed.

Lemma late_put_user snapshot k v : Forall op_user (pi_ops (intention_ (intention_at (put_intention snapshot k v) 0))).
Proof. constructor; [|constructor]. split; [by eexists|]. intros k'. by intros [= E]. Qed.

Lemma late_ops_at k q : late_puts !! k = Some q -> ops_at (slots late_es) (Z.of_nat (S k)) = pi_ops q.
Proof. intros Hk. unfold ops_at. by rewrite (late_logged k q Hk). Qed.

Lemma late_ops : Forall (fun p => Forall op_user (ops_at (slots late_es) p)) [2; 3; 4].
Proof.
  apply Forall_cons. split; [rewrite (late_ops_at 1 _ eq_refl : ops_at _ 2 = _); apply late_put_user|].
  apply Forall_cons. split; [rewrite (late_ops_at 2 _ eq_refl : ops_at _ 3 = _); apply late_put_user|].
  apply Forall_singleton. rewrite (late_ops_at 3 _ eq_refl : ops_at _ 4 = _). apply late_put_user.
Qed.

Lemma late_size : run_size (slots late_es) [2; 3; 4] = 6%nat.
Proof.
  cbn [run_size]. by rewrite (late_ops_at 1 _ eq_refl : ops_at _ 2 = _), (late_ops_at 2 _ eq_refl : ops_at _ 3 = _),
    (late_ops_at 3 _ eq_refl : ops_at _ 4 = _).
Qed.

Lemma late_fuel : (10 < 20)%nat.
Proof. lia. Qed.
Lemma late_signed : Z.of_nat 10 <= 2 ^ 63.
Proof. lia. Qed.

(** The instance the processor starts from. *)
Lemma late_replica : exists s, new_db (fun z => z) 100 4 late_point late_es = Ok s /\
  Replica.replica (fun z => z) 100 100 10 20 10 late_fuel (slots late_es) s (mkLogState (to_map demo_users) [1] []) 2 /\
  intention_iterator_ s = 2 /\ last_intention_processed_ s = 1 /\ in_flight_txn_rid_ s = -1.
Proof.
  apply (restored_replica (fun z => z) 100 100 10 20 10 late_fuel (slots late_es) 4 late_point late_es demo_users [1] 2 late_restorable).
  by vm_compute.
Qed.

Lemma processor_follows_log_witness : exists s,
  wp (process_intention (fun z => z) 100 100 10 20) (fun more s' => more = true /\
    Replica.replica (fun z => z) 100 100 10 20 10 late_fuel (slots late_es) s'
      (commit_at 2 (intention_at (put_intention 1 "b" "2") 2) (mkLogState (to_map demo_users) [1] [])) 4 /\
    intention_iterator_ s' = 3 /\ last_intention_processed_ s' = 2) s.
Proof.
  destruct late_replica as (s & _ & Hr & Hit & _). exists s.
  apply (processor_follows_log (fun z => z) 100 100 10 20 10 late_fuel late_signed (slots late_es) s
    (mkLogState (to_map demo_users) [1] []) 2 2 (intention_at (put_intention 1 "b" "2") 2) _ true);
    [exact Hr|exact (late_logged 1 _ eq_refl)|lia|intros q Hq; lia|apply late_put_user|simpl; lia|simpl; lia|reflexivity].
Defined.

#[local] Instance late_store : NodeStore (NodeCache (EntryService MemLog)) := db_store (fun z => z) 100 100 10 20.

Lemma after_image_round_trip_witness : exists s, new_db (fun z => z) 100 4 late_point late_es = Ok s /\
  wp (next_root (fun z => z) 100 100 10 20 (intention_at (put_intention 1 "b" "2") 2) 2 None) (fun '(o, tr) s' =>
    exists off x t', o = Some off /\ pt_root tr = Some x /\ rbtree t' /\
      to_map t' = commit_spec 2 (pi_ops (put_intention 1 "b" "2")) (to_map demo_users) /\
      (off < 2 ^ 16 -> wp (DBImpl.on_tree tr (SerializeAfterImage 20 2)) (fun '((ai, _), _) _ =>
        ai_intention ai = 2 /\ Z.of_nat (length (ai_tree ai)) = off + 1) s')) s.
Proof.
  destruct (new_db_spec (fun z => z) 100 100 10 20 10 late_fuel 2 (fun _ _ => False) (slots late_es) 4 late_point late_es demo_users)
    as (s & Hs & Hdb & _); [apply tree_log_holds; [simpl; lia|simpl; lia|simpl; lia|done|by vm_compute]|].
  exists s. split; [done|]. eapply wp_conseq.
  { apply (after_image_round_trip (fun z => z) 100 100 10 20 10 late_fuel (slots late_es) 2 (fun _ _ => False) s demo_users
      (intention_at (put_intention 1 "b" "2") 2) 2 1 2);
      [exact Hdb|exact demo_users_rb|by vm_compute|by eexists|lia|lia|lia|by eexists|apply late_put_user|simpl; lia]. }
  intros [o tr] s' (off & x & Pr' & t' & Ho & Hx & Hrb & Hm & _ & Hser). exists off, x, t'. split_and!; [done..|].
  intros Hoff. eapply wp_conseq; [by apply Hser|]. intros [[ai delta] tr'] s'' (H1 & H2 & _). by split.
Defined.

Lemma serialized_image_typed_witness : exists s, new_db (fun z => z) 100 4 late_point late_es = Ok s /\
  wp (next_root (fun z => z) 100 100 10 20 (intention_at (put_intention 1 "b" "2") 2) 2 None) (fun '(o, tr) s' => exists off, o = Some off /\
    (off < 2 ^ 16 -> wp (DBImpl.on_tree tr (SerializeAfterImage 20 2)) (fun '((ai, delta), _) _ =>
      image_typed ai = true /\ length delta = length (ai_tree ai)) s')) s.
Proof.
  destruct (new_db_spec (fun z => z) 100 100 10 20 10 late_fuel 2 (fun _ _ => False) (slots late_es) 4 late_point late_es demo_users)
    as (s & Hs & Hdb & _); [apply tree_log_holds; [simpl; lia|simpl; lia|simpl; lia|done|by vm_compute]|].
  exists s. split; [done|].
  apply (serialized_image_typed (fun z => z) 100 100 10 20 10 late_fuel (slots late_es) 2 (fun _ _ => False) s demo_users
    (intention_at (put_intention 1 "b" "2") 2) 2 1 2);
    [exact Hdb|exact demo_users_rb|by vm_compute|by eexists|lia|lia|lia|by eexists|apply late_put_user|simpl; lia|by intros a t []].
Defined.
