(* ===== verification/Restore.v ===== *)
(** Opening a database on a log that has been written: the search for the
    restore point, down from the tail (src/src/db/db_impl.cc, [FindRestorePoint]),
    what it leaves in the log, and [DB::Open] (src/src/db/db.cc). *)
From S2P Require Import Prelude Slice RBTree Node Proto PersistentTree Delta PathCopy TreeSpec TransactionTree Infect Intention Transaction.
From S2P Require Import Iterator IteratorSpec LruCache NodeCache NodeCacheSpec Images Matcher EntryService EntryServiceSpec MemLog.
From S2P Require Import TxnFinder CommitIndex DBImpl DBWalks DBImplSpec Conflict Publish DBProps Replica ReplicaProps.

(** ** Holes filled

    The log once the unwritten positions of [(lo, hi]] are filled. *)
Definition filled (lo hi : Z) (log : gmap Z slot) : gmap Z slot :=
  log ∪ gset_to_gmap Junk (list_to_set (seqZ (lo + 1) (hi - lo))).

Lemma lookup_filled lo hi log q :
  filled lo hi log !! q = match log !! q with Some x => Some x | None => if decide (lo < q <= hi) then Some Junk else None end.
Proof.
  unfold filled. destruct (log !! q) as [x|] eqn:E; [by apply lookup_union_Some_l|]. rewrite lookup_union_r by done.
  rewrite lookup_gset_to_gmap. case_decide as Hq.
  - by rewrite option_guard_True by (apply elem_of_list_to_set, elem_of_seqZ; lia).
  - by rewrite option_guard_False by (rewrite elem_of_list_to_set, elem_of_seqZ; lia).
Qed.

Lemma filled_none hi log : filled hi hi log = log.
Proof. apply map_eq. intros q. rewrite lookup_filled. destruct (log !! q); [done|]. by rewrite decide_False by lia. Qed.

Lemma filled_step p hi log : p <= hi -> <[p := default Junk (log !! p)]> (filled p hi log) = filled (p - 1) hi log.
Proof.
  intros Hp. apply map_eq. intros q. rewrite lookup_insert, !lookup_filled. destruct (decide (p = q)) as [->|Hne].
  - destruct (log !! q); [done|]. by rewrite decide_True by lia.
  - destruct (log !! q); [done|]. case_decide; [by rewrite decide_True by lia|by rewrite decide_False by lia].
Qed.

(** ** What the search looks for *)

Section target.
Context `{ProtoCodec} (log : gmap Z slot).

(** The after images of a log. *)
Definition image_log : gmap Z AfterImage := omap after_image_of log.

(** The first after image of the intention [i] past [pos]. *)
Definition first_image (pos i q : Z) (ai : AfterImage) : Prop :=
  pos < q /\ image_log !! q = Some ai /\ ai_intention ai = i /\
  forall q' ai', pos < q' < q -> image_log !! q' = Some ai' -> ai_intention ai' <> i.

(** The last intention that has an after image behind it, and the first of them. *)
Definition restore_target (p q : Z) (ai : AfterImage) : Prop :=
  is_Some (logged_intention log p) /\ first_image p p q ai /\
  forall p' q' ai', p < p' -> is_Some (logged_intention log p') -> ~ first_image p' p' q' ai'.

Definition latest_intention (p : Z) : Prop :=
  is_Some (logged_intention log p) /\ forall q, p < q -> logged_intention log q = None.

(** What the loop has seen above [pos]. *)
Definition images_seen (pos : Z) (m : gmap Z (Z * AfterImage)) : Prop :=
  forall i q ai, m !! i = Some (q, ai) <-> first_image pos i q ai.

Definition latest_seen (pos : Z) (l : option Z) : Prop :=
  match l with Some x => pos < x /\ latest_intention x | None => forall y, pos < y -> logged_intention log y = None end.

Lemma seen_image pos m ai : image_log !! pos = Some ai -> images_seen pos m ->
  images_seen (pos - 1) (<[ai_intention ai := (pos, ai)]> m).
Proof.
  intros Hai Hm i q a. destruct (decide (ai_intention ai = i)) as [<-|Hne].
  - rewrite lookup_insert_eq. split.
    + intros [= <- <-]. split_and!; [lia|done|done|]. intros; lia.
    + intros (Hq & Ha & Hi & Hno). destruct (decide (q = pos)) as [->|]; [by rewrite Hai in Ha; injection Ha as <-|].
      exfalso. apply (Hno pos ai); [lia|done|done].
  - rewrite lookup_insert_ne by done. unfold images_seen in Hm. rewrite Hm. split; intros (Hq & Ha & Hi & Hno).
    + split_and!; [lia|done|done|]. intros q' ai' Hq' Hai'. destruct (decide (q' = pos)) as [->|]; [congruence|].
      apply (Hno q'); [lia|done].
    + split_and!; [|done|done|intros q' ai' Hq'; apply Hno; lia].
      destruct (decide (q = pos)) as [->|]; [congruence|lia].
Qed.

Lemma seen_other pos m : image_log !! pos = None -> images_seen pos m -> images_seen (pos - 1) m.
Proof.
  intros Hn Hm i q a. unfold images_seen in Hm. rewrite Hm. split; intros (Hq & Ha & Hi & Hno).
  - split_and!; [lia|done|done|]. intros q' ai' Hq' Hai'. destruct (decide (q' = pos)) as [->|]; [congruence|].
    apply (Hno q'); [lia|done].
  - split_and!; [|done|done|intros q' ai' Hq'; apply Hno; lia]. destruct (decide (q = pos)) as [->|]; [congruence|lia].
Qed.

Lemma seen_start pos : (forall q, pos < q -> log !! q = None) -> images_seen pos ∅ /\ latest_seen pos None.
Proof.
  intros Hn. split.
  - intros i q ai. rewrite lookup_empty. split; [done|]. intros (Hq & Ha & _). unfold image_log in Ha.
    rewrite lookup_omap, Hn in Ha by done. done.
  - intros y Hy. unfold logged_intention. by rewrite Hn.
Qed.

Lemma latest_seen_intention pos l : is_Some (logged_intention log pos) -> latest_seen pos l ->
  latest_seen (pos - 1) (Some (default pos l)) /\ latest_intention (default pos l).
Proof.
  intros Hi. destruct l as [x|]; simpl.
  - intros [? ?]. split; [|done]. split; [lia|done].
  - intros Hn. assert (latest_intention pos) by (by split). split; [|done]. split; [lia|done].
Qed.

Lemma latest_seen_other pos l : logged_intention log pos = None -> latest_seen pos l -> latest_seen (pos - 1) l.
Proof.
  intros Hi. destruct l as [x|]; simpl; [intros [? ?]; split; [lia|done]|]. intros Hn y Hy.
  destruct (decide (y = pos)) as [->|]; [done|]. apply Hn. lia.
Qed.

Lemma after_image_slot p x ai : after_image_of x = Some ai <-> slot_entry p x = Some (AFTERIMAGE_ENTRY ai).
Proof.
  unfold after_image_of. destruct x as [d|]; simpl; [|done]. unfold parse_entry. destruct (pb_parse d) as [e|]; [|done].
  destruct (le_type e); split; try done; by intros [= ->].
Qed.

Lemma entry_kind pos e : slot_entry pos (default Junk (log !! pos)) = Some e ->
  match e with
  | INTENTION_ENTRY _ => is_Some (logged_intention log pos) /\ image_log !! pos = None
  | AFTERIMAGE_ENTRY ai => logged_intention log pos = None /\ image_log !! pos = Some ai
  | FILLED_ENTRY => logged_intention log pos = None /\ image_log !! pos = None
  end.
Proof.
  unfold logged_intention, image_log. rewrite lookup_omap. destruct (log !! pos) as [x|]; simpl; [|by intros [= <-]].
  intros He. rewrite He. destruct e as [i|ai|].
  - split; [by eexists|]. apply eq_None_not_Some. intros [a Ha%(after_image_slot pos)]. congruence.
  - split; [done|]. by apply (after_image_slot pos).
  - split; [done|]. apply eq_None_not_Some. intros [a Ha%(after_image_slot pos)]. congruence.
Qed.
End target.

Section restore.
Context {G : Type} {ZG : ZLog G} {ZL : ZLogLaws G} {ZF : ZLogFillLaws G} {PC : ProtoCodec}.
Context (cache_size fuel bound : nat).
Implicit Types s : EntryService G.

(** What the search needs of the entry service: less than [src_ok], since the log
    may have holes. *)
Record readable s : Prop := {
  rd_coherent : coherent s;
  rd_range p : is_Some (slots s !! p) -> 0 <= p < Z.of_nat bound;
  rd_bound : (bound <= cache_size)%nat /\ Z.of_nat bound < 2 ^ 64;
}.

Lemma readable_fits s p : readable s -> 0 <= p < Z.of_nat bound -> entry_cache_ s !! p = None ->
  (base.size (entry_cache_ s) < cache_size)%nat.
Proof.
  intros [Hc Hr Hb] Hp Hn.
  assert (base.size ({[p]} ∪ dom (entry_cache_ s)) <= base.size (list_to_set (C := gset Z) (seqZ 0 (Z.of_nat bound))))%nat as Hsub.
  { apply subseteq_size. intros q [->%elem_of_singleton|[e He]%elem_of_dom]%elem_of_union; apply elem_of_list_to_set, elem_of_seqZ.
    - lia.
    - apply Hc, log_entry_slot, Hr in He. lia. }
  rewrite size_union, size_singleton, size_dom, size_list_to_set, length_seqZ in Hsub; [lia|apply NoDup_seqZ|].
  apply disjoint_singleton_l. rewrite not_elem_of_dom. done.
Qed.

Lemma unwritten_uncached s p : coherent s -> slots s !! p = None -> entry_cache_ s !! p = None.
Proof. intros Hc Hn. apply eq_None_not_Some. intros [e He%Hc]. apply log_entry_slot in He as [x Hx]. congruence. Qed.

Lemma with_log_coherent g s p : coherent s -> slots s !! p = None -> zl_slots g = <[p := Junk]> (slots s) -> coherent (with_log g s).
Proof.
  intros Hc Hn Hg q e He. apply Hc in He. unfold log_entry, slots in *. simpl. rewrite Hg, lookup_insert_ne; [exact He|].
  intros <-. rewrite Hn in He. done.
Qed.

(** A log filled down from its tail is one a database can run on. *)
Lemma filled_src_ok s tail p log : readable s -> slots s = filled (p - 1) tail log -> tail <= max_pos_ s ->
  (forall r x, log !! r = Some x -> r < tail /\ is_Some (slot_entry r x)) -> (forall r, 0 <= r < p -> is_Some (log !! r)) ->
  src_ok cache_size bound s.
Proof.
  intros [Hc Hr Hb] Hs Hm Hparse Hbelow. split; [done| | |done].
  - intros r Hin. split; [by apply Hr|]. rewrite Hs, lookup_filled in Hin. destruct (log !! r) as [x|] eqn:Hx.
    + apply Hparse in Hx. lia.
    + case_decide; [lia|by destruct Hin].
  - intros r r' Hin Hr'. unfold log_entry. rewrite Hs, lookup_filled. destruct (log !! r') as [x|] eqn:Hx.
    + by apply (Hparse r').
    + rewrite decide_True; [by eexists|]. rewrite Hs, lookup_filled in Hin. split.
      * destruct (decide (p <= r')); [lia|]. destruct (Hbelow r') as [y Hy]; [lia|congruence].
      * destruct (log !! r) as [x|] eqn:Hx'; [apply Hparse in Hx'; lia|]. case_decide; [lia|by destruct Hin].
Qed.

Hypothesis fuel_enough : (bound < fuel)%nat.

(** [Read] with [fill]: what is written, or the position filled. *)
Lemma Read_fill p e s : readable s -> 0 <= p < Z.of_nat bound -> p <= max_pos_ s ->
  (slots s !! p = None -> zlog_check_tail (log_ s) = (0, p, log_ s) \/ exists q, p < q /\ is_Some (slots s !! q)) ->
  slot_entry p (default Junk (slots s !! p)) = Some e ->
  wp (Read cache_size fuel p true) (fun x s' => x = Some e /\ readable s' /\
    slots s' = <[p := default Junk (slots s !! p)]> (slots s) /\ max_pos_ s' = max_pos_ s) s.
Proof.
  intros Hrd Hp Hmax Hfill He. destruct (slots s !! p) as [x|] eqn:Hx; simpl in He.
  - assert (log_entry s p = Some e) as Hlog by (unfold log_entry; by rewrite Hx).
    assert (entry_cache_ s !! p = None -> fits cache_size p s) as Hfits by (intros Hn; left; by eapply readable_fits).
    eapply (wp_conseq _ (fun x s' => x = Some e /\ coherent s' /\ same_log s s')).
    { destruct (entry_cache_ s !! p) as [e'|] eqn:Hn.
      - pose proof (rd_coherent _ Hrd _ _ Hn) as He'. rewrite Hlog in He'. injection He' as <-.
        unfold Read. apply wp_bind, wp_get. rewrite Hn. apply wp_ret. split_and!; try done. apply Hrd.
      - eapply wp_conseq; [apply Read_spec; try done; [lia|apply Hrd|by apply Hfits]|]. intros y s' (? & ? & ? & _). done. }
    intros y s' (-> & Hc & Hl). destruct (same_log_slots _ _ Hl) as [Hs _]. split_and!; [done| |by rewrite insert_id, Hs by done|apply Hl].
    split; [done| |apply Hrd]. intros q. rewrite Hs. apply Hrd.
  - injection He as <-. pose proof (unwritten_uncached s p (rd_coherent _ Hrd) Hx) as Hn.
    destruct (zlog_read_unwritten p (log_ s) ltac:(lia) Hx) as [d Hd].
    destruct (zlog_fill_unwritten p (log_ s) ltac:(lia) Hx (Hfill eq_refl)) as (g & Hg & Hsl).
    pose proof (with_log_coherent g s p (rd_coherent _ Hrd) Hx Hsl) as Hc.
    unfold Read. apply wp_bind, wp_get. rewrite Hn, (proj2 (Z.ltb_ge _ _)) by lia. apply wp_bind, wp_ret, wp_bind, wp_get. cbn [andb].
    destruct fuel as [|[|k]]; [lia..|]. apply wp_bind. cbn [read_retry]. apply wp_bind.
    eapply (wp_conseq _ (fun x s' => x = (- ENOENT, d) /\ s' = s)).
    { unfold wp, on_log. rewrite Hd. split; [done|]. by destruct s. }
    intros x s1 [-> ->]. rewrite !decide_False, decide_True by done. apply wp_bind, wp_bind.
    eapply (wp_conseq _ (fun x s' => x = 0 /\ s' = with_log g s)); [unfold wp, on_log; by rewrite Hg|].
    intros x s1 [-> ->]. apply wp_assert; [done|]. apply wp_bind.
    apply on_log_read_junk; [unfold slots; simpl; by rewrite Hsl, lookup_insert_eq|]. intros d'.
    rewrite decide_False, decide_True by done. apply wp_ret, wp_bind, wp_ret, wp_bind.
    assert (log_entry (with_log g s) p = Some FILLED_ENTRY) as Hlog.
    { unfold log_entry, slots. simpl. by rewrite Hsl, lookup_insert_eq. }
    eapply wp_conseq; [apply emplace_and_get_spec; [exact Hc|exact Hlog|exact Hn|left; exact (readable_fits s p Hrd Hp Hn)]|].
    intros e s' (-> & Hc' & Hl & _). destruct (same_log_slots _ _ Hl) as [Hs _]. apply wp_ret.
    assert (slots s' = <[p := Junk]> (slots s)) as Hs' by (by rewrite Hs).
    split_and!; [done| |exact Hs'|apply Hl]. split; [done| |apply Hrd].
    intros q. rewrite Hs', lookup_insert. destruct (decide (p = q)) as [<-|]; [done|apply Hrd].
Qed.

(** *** The loop *)

Section loop.
Context (log : gmap Z slot) (tail p q : Z) (ai : AfterImage) (target : restore_target log p q ai).
Hypothesis parses : forall p' x, log !! p' = Some x -> is_Some (slot_entry p' x).
Hypothesis tail_range : 0 <= p <= tail /\ tail < Z.of_nat bound.

(** The search is at [pos]: everything above it, up to the tail, is written. *)
Record searching (pos : Z) (m : gmap Z (Z * AfterImage)) (l : option Z) s : Prop := {
  se_readable : readable s;
  se_slots : slots s = filled pos tail log;
  se_max : tail <= max_pos_ s;
  se_tail : pos = tail -> zlog_check_tail (log_ s) = (0, pos, log_ s);
  se_images : images_seen log pos m;
  se_latest : latest_seen log pos l;
}.

(** One step of the iterator: the entry, and the log one position further down. *)
Lemma search_read pos m l s : p <= pos <= tail -> searching pos m l s ->
  exists e, slot_entry pos (default Junk (log !! pos)) = Some e /\
  wp (ReverseIterator_Next cache_size fuel pos true) (fun x s' => x = (Some (pos, e), u64 (pos - 1)) /\
    readable s' /\ slots s' = filled (pos - 1) tail log /\ max_pos_ s' = max_pos_ s) s.
Proof.
  intros Hpos [Hrd Hs Hmax Ht _ _].
  assert (slots s !! pos = log !! pos) as Hslot.
  { rewrite Hs, lookup_filled. destruct (log !! pos); [done|]. by rewrite decide_False by lia. }
  assert (exists e, slot_entry pos (default Junk (log !! pos)) = Some e) as [e He].
  { destruct (log !! pos) as [x|] eqn:Hx; [apply (parses _ _ Hx)|by eexists]. }
  exists e. split; [done|]. unfold ReverseIterator_Next, NextEntry. apply wp_bind. eapply wp_conseq.
  { apply (Read_fill pos e s Hrd); [lia|lia| |by rewrite Hslot]. intros _.
    destruct (decide (pos = tail)) as [->|]; [left; by apply Ht|right]. exists tail. split; [lia|].
    rewrite Hs, lookup_filled. destruct (log !! tail); [by eexists|]. rewrite decide_True by lia. by eexists. }
  intros x s' (-> & Hrd' & Hs' & Hm'). apply wp_ret. split_and!; [done|done| |done].
  rewrite Hs', Hslot, Hs. apply filled_step. lia.
Qed.

Lemma restore_loop_spec n : forall pos m l s, (Z.to_nat (pos - p) < n)%nat -> p <= pos <= tail -> searching pos m l s ->
  wp (restore_loop cache_size fuel n pos m l) (fun x s' =>
    (exists latest, x = (mkRestorePoint (p + 1) q ai, Some latest) /\ latest_intention log latest) /\
    readable s' /\ slots s' = filled (p - 1) tail log /\ max_pos_ s' = max_pos_ s) s.
Proof.
  induction n as [|n IH]; intros pos m l s Hn Hpos Hse; [lia|]. cbn [restore_loop].
  destruct (search_read pos m l s Hpos Hse) as (e & He & Hread). apply wp_bind. eapply wp_conseq; [exact Hread|].
  intros x s1 (-> & Hrd & Hs1 & Hm1). destruct target as (Hint & Hfirst & Hlast).
  pose proof (entry_kind log pos e He) as Hk. pose proof (se_images _ _ _ _ Hse) as Hm. pose proof (se_latest _ _ _ _ Hse) as Hl.
  assert (forall m' l', pos <> p -> images_seen log (pos - 1) m' -> latest_seen log (pos - 1) l' ->
    wp (restore_loop cache_size fuel n (u64 (pos - 1)) m' l') (fun x s' =>
      (exists latest, x = (mkRestorePoint (p + 1) q ai, Some latest) /\ latest_intention log latest) /\
      readable s' /\ slots s' = filled (p - 1) tail log /\ max_pos_ s' = max_pos_ s) s1) as Hgo.
  { intros m' l' Hne Hm' Hl'. pose proof (rd_bound _ Hrd) as [_ Hb]. unfold u64. rewrite Z.mod_small by lia. rewrite <- Hm1.
    apply IH; [lia|lia|]. split; try done; [rewrite Hm1; apply Hse|]. intros; lia. }
  destruct e as [i|a|].
  - destruct Hk as [Hi Hno]. destruct (latest_seen_intention log pos l Hi Hl) as [Hl' Hlat].
    destruct (m !! pos) as [[q' a]|] eqn:Hfound.
    + assert (pos = p) as ->.
      { apply Hm in Hfound. destruct (decide (pos = p)); [done|]. exfalso. apply (Hlast pos q' a); [lia|done|done]. }
      pose proof (rd_bound _ Hrd) as [_ Hb]. destruct Hfirst as (Hq & Hai & Hip & Hfirst).
      assert (m !! p = Some (q, ai)) as Hmp by (by apply Hm). rewrite Hfound in Hmp. injection Hmp as -> ->.
      apply wp_bind, wp_assert; [by apply Z.eqb_eq|]. apply wp_ret. split_and!; [|done|done|done].
      exists (default p l). split; [|done]. unfold u64. rewrite Z.mod_small by lia. by destruct l.
    + apply Hgo; [|by apply seen_other|].
      * intros ->. apply Hm in Hfirst. congruence.
      * by destruct l.
  - destruct Hk as [Hi Hai]. apply wp_bind, wp_assert.
    { apply Z.ltb_lt. destruct (decide (pos = p)) as [->|]; [rewrite Hi in Hint; by destruct Hint|lia]. }
    apply Hgo; [|by apply seen_image|by apply latest_seen_other].
    intros ->. rewrite Hi in Hint. by destruct Hint.
  - destruct Hk as [Hi Hai]. apply Hgo; [|by apply seen_other|by apply latest_seen_other].
    intros ->. rewrite Hi in Hint. by destruct Hint.
Qed.
End loop.

(** [FindRestorePoint]: the target, and the latest intention; the log below the
    tail has no hole above the restore point any more, and its tail is filled. *)
Lemma FindRestorePoint_spec s tail p q ai : let log := slots s in
  restore_target log p q ai -> (forall p' x, log !! p' = Some x -> is_Some (slot_entry p' x)) ->
  zlog_check_tail (log_ s) = (0, tail, log_ s) -> tail < Z.of_nat bound -> readable s ->
  wp (FindRestorePoint cache_size fuel) (fun x s' =>
    (exists latest, x = Some (mkRestorePoint (p + 1) q ai, Some latest) /\ latest_intention log latest) /\
    readable s' /\ slots s' = filled (p - 1) tail log /\ tail <= max_pos_ s') s.
Proof.
  intros log Ht Hparse Htail Hb Hrd. destruct (zlog_tail_law (log_ s)) as (tail' & Htail' & Hbelow).
  rewrite Htail in Htail'. injection Htail' as <-.
  assert (0 <= p < tail) as Hp.
  { destruct Ht as ([i Hi] & (Hpq & Hq & _) & _). unfold logged_intention in Hi. apply bind_Some in Hi as (x & Hx & _).
    assert (is_Some (log !! p)) as Hpl by (by eexists). apply (rd_range _ Hrd) in Hpl as ?.
    unfold image_log in Hq. rewrite lookup_omap in Hq. apply bind_Some in Hq as (y & Hy & _).
    assert (is_Some (log !! q)) as Hql by (by eexists). apply Hbelow in Hql. lia. }
  unfold FindRestorePoint, CheckTail. apply wp_bind, wp_bind.
  eapply (wp_conseq _ (fun x s' => x = (0, tail) /\ s' = s)).
  { unfold wp, on_log. rewrite Htail. split; [done|]. by destruct s. }
  intros x s1 [-> ->]. rewrite decide_True by done. apply wp_bind, wp_modify, wp_ret.
  rewrite (proj2 (Z.eqb_neq _ _)) by lia. set (s1 := with_max_pos _ s).
  assert (readable s1) as Hrd1 by (by destruct Hrd).
  destruct (seen_start log tail) as [Hseen Hlat].
  { intros r Hr. apply eq_None_not_Some. intros Hs%Hbelow. lia. }
  apply wp_bind. eapply wp_conseq.
  { apply (restore_loop_spec log tail p q ai Ht Hparse); [lia|lia|lia|].
    split; [done| |simpl; lia|by intros|done|done]. by rewrite filled_none. }
  intros x s2 ((latest & -> & Hlatest) & Hrd2 & Hs2 & Hm2). apply wp_ret. split_and!; [by eexists|done|done|].
  rewrite Hm2. simpl. lia.
Qed.

Lemma filled_images lo hi log : image_log (filled lo hi log) = image_log log.
Proof.
  apply map_eq. intros r. unfold image_log. rewrite !lookup_omap, lookup_filled.
  destruct (log !! r); [done|]. by destruct (decide _).
Qed.

Lemma filled_intention lo hi log r : logged_intention (filled lo hi log) r = logged_intention log r.
Proof. unfold logged_intention. rewrite lookup_filled. destruct (log !! r); [done|]. by destruct (decide _). Qed.

End restore.

(** *** The machine sees only the intentions *)

Section same_intentions.
Context `{ProtoCodec} (log log' : gmap Z slot) (same : forall r, logged_intention log' r = logged_intention log r).

Lemma log_run_same ps : forall st, log_run log' st ps = log_run log st ps.
Proof using same.
  assert (forall st i, conflicting log' st i = conflicting log st i) as Hc.
  { intros st i. unfold conflicting. induction (ls_commits st) as [|c cs IH]; [done|]. simpl. by rewrite same, IH. }
  induction ps as [|r ps IH]; intros st; [done|]. cbn [log_run]. rewrite same. destruct (logged_intention log r) as [i|]; [|done].
  cbn [mbind option_bind]. assert (log_step log' st r i = log_step log st r i) as -> by (unfold log_step; by rewrite Hc).
  destruct (log_step log st r i) as [[st1 c]|]; [|done]. cbn [mbind option_bind]. by rewrite IH.
Qed.

Lemma next_intentions_same ps : forall start, next_intentions log start ps -> next_intentions log' start ps.
Proof using same.
  induction ps as [|r ps IH]; intros start; [done|]. intros (Hr & Hi & Hno & Hps). cbn [next_intentions].
  rewrite same. split_and!; [done|done| |by apply IH]. intros r' Hr'. rewrite same. by apply Hno.
Qed.

Lemma ops_at_same r : ops_at log' r = ops_at log r.
Proof using same. unfold ops_at. by rewrite same. Qed.

Lemma run_size_same ps : run_size log' ps = run_size log ps.
Proof using same. induction ps as [|r ps IH]; [done|]. simpl. by rewrite ops_at_same, IH. Qed.
End same_intentions.

(** ** Opening *)

(** A log that a database can be opened on: the tree of the commits [cs] is in
    the first after image of the restore point, and nothing below is missing. *)
Record recoverable `{ProtoCodec} `{SliceCompare} (scan_fuel : nat) (log : gmap Z slot) (p q : Z) (ai : AfterImage)
    (t : tree) (cs : list Z) : Prop := {
  rc_target : restore_target log p q ai;
  rc_parse r x : log !! r = Some x -> 0 <= r /\ is_Some (slot_entry r x);
  rc_below r : 0 <= r < p -> is_Some (log !! r);
  rc_images : images_ok (image_log log);
  rc_tree : match ai_tree ai with
    | [] => t = E
    | _ => image_at scan_fuel (p + 1) (image_log log) t q (Z.of_nat (length (ai_tree ai)) - 1)
    end;
  rc_valid : rbtree t;
  rc_keys : commit_keys (to_map t) cs;
  rc_sorted : StronglySorted Z.lt cs;
  rc_range : Forall pos_ok cs;
  rc_last : last cs = Some p;
  rc_logged r : r ∈ cs -> is_Some (logged_intention log r);
}.

Section opening.
Context {G : Type} {ZG : ZLog G} {ZL : ZLogLaws G} {ZF : ZLogFillLaws G} {PC : ProtoCodec} {SC : SliceCompare} {SL : SliceLaws}.
Context {LC : LexicalCast} {LCL : LexicalCastLaws}.
Context (std_hash : Z -> Z) (sizeof_node : Z) (scan_fuel entry_cache_size fuel bound : nat).
Context (fuel_enough : (bound < fuel)%nat) (signed_positions : Z.of_nat bound <= 2 ^ 63).
Context (cache_enough : (bound <= entry_cache_size)%nat).

(** [DB::Open] on a written log: an instance at the restore point, on the log
    with its holes filled. *)
Lemma Open_spec create imap g tail p q ai t cs n : let log := zl_slots g in
  recoverable scan_fuel log p q ai t cs -> zlog_check_tail g = (0, tail, g) -> tail < Z.of_nat bound -> (size t <= n)%nat ->
  exists s latest, Open std_hash sizeof_node scan_fuel entry_cache_size fuel create imap g = Ok (Some (s, Some latest)) /\
    latest_intention log latest /\
    replica std_hash sizeof_node scan_fuel entry_cache_size fuel bound fuel_enough (filled (p - 1) tail log) s (mkLogState (to_map t) cs []) n /\
    intention_iterator_ s = p + 1 /\ last_intention_processed_ s = p.
Proof.
  intros log Hrc Htail Hb Hn. set (es := new_entry_service g).
  destruct (zlog_tail_law g) as (tail' & Ht' & Hbelow). rewrite Htail in Ht'. injection Ht' as <-.
  assert (readable entry_cache_size bound es) as Hrd.
  { split; [|intros r [x Hx]; split; [by eapply rc_parse|]|lia].
    - intros r e. change ((∅ : gmap Z CacheEntry) !! r = Some e -> log_entry es r = Some e). by rewrite lookup_empty.
    - assert (r < tail) by (apply Hbelow; by eexists). lia. }
  pose proof (rc_target _ _ _ _ _ _ _ Hrc) as (_ & (Hpq & Himg & Hip & _) & _).
  pose proof (rc_range _ _ _ _ _ _ _ Hrc) as Hcs. pose proof (rc_last _ _ _ _ _ _ _ Hrc) as Hlast.
  assert (q < tail) as Hq.
  { unfold image_log in Himg. rewrite lookup_omap in Himg. apply bind_Some in Himg as (x & Hx & _). apply Hbelow. by eexists. }
  assert (0 <= p) as Hp.
  { rewrite Forall_forall in Hcs. destruct (Hcs p (last_elem _ _ Hlast)). lia. }
  pose proof (FindRestorePoint_spec entry_cache_size fuel bound fuel_enough es tail p q ai (rc_target _ _ _ _ _ _ _ Hrc)) as Hfind.
  apply wp_run in Hfind as (x & es' & Hfind & (latest & -> & Hlatest) & Hrd' & Hsl & Hmax);
    [|intros r y Hy; by eapply rc_parse|done|done|done].
  change (slots es) with log in Hsl, Hlatest.
  assert (restorable scan_fuel entry_cache_size bound (filled (p - 1) tail log) es' (mkRestorePoint (p + 1) q ai) t cs) as Hre.
  { split; simpl; try (by apply Hrc); try lia.
    - assert (es_src_log es' = image_log log) as Hil by (unfold es_src_log; rewrite Hsl; apply filled_images).
      split; simpl; rewrite ?Hil, ?Hip; try (by apply Hrc); try done; [|lia|unfold published; lia].
      eapply (filled_src_ok entry_cache_size bound); [exact Hrd'|exact Hsl|exact Hmax| |by eapply rc_below].
      intros r y Hy. split; [apply Hbelow; by eexists|by eapply rc_parse].
    - by rewrite Hip.
    - intros r Hr. rewrite filled_intention. by eapply rc_logged. }
  destruct (restored_replica std_hash sizeof_node scan_fuel entry_cache_size fuel bound fuel_enough _ imap _ es' t cs n Hre Hn)
    as (s & Hs & Hr & Hit & Hl & _).
  exists s, latest. split_and!; [|done|done|done|by rewrite Hl].
  unfold Open. fold es. assert (CheckTail false es = Ok (tail, es)) as Hct.
  { unfold CheckTail, mbind, M_bind, on_log. change (log_ es) with g. by rewrite Htail. }
  unfold mbind, M_bind. rewrite Hct, (proj2 (Z.eqb_neq _ _)) by lia. simpl. by rewrite Hfind, Hs.
Qed.

(** C2: opening. [DB::Open] on a written log restores the last intention that has
    an after image behind it, from the first of these images, filling the holes
    above it; once the processor has taken the intentions that follow, the call
    does not wait for the latest one, and reads answer with what the log machine
    makes of the whole log.
    The entry cache can hold the whole log. *)
Theorem open_replays_log create imap g tail p q ai t cs n ps st' out w key : let log := zl_slots g in
  recoverable scan_fuel log p q ai t cs -> zlog_check_tail g = (0, tail, g) -> tail < Z.of_nat bound -> (size t <= n)%nat ->
  next_intentions log (p + 1) ps -> (forall r, p < r -> is_Some (logged_intention log r) -> r ∈ ps) ->
  log_run log (mkLogState (to_map t) cs []) ps = Some (st', out) -> Forall (fun r => Forall op_user (ops_at log r)) ps ->
  (n + run_size log ps < fuel)%nat -> (length cs + length ps < fuel)%nat ->
  exists s latest, Open std_hash sizeof_node scan_fuel entry_cache_size fuel create imap g = Ok (Some (s, Some latest)) /\
    latest_intention log latest /\
    wp (process_rounds std_hash sizeof_node scan_fuel entry_cache_size fuel (length ps);;
        waits ← WaitOnIntention w latest;
        res ← Get std_hash sizeof_node scan_fuel entry_cache_size fuel key;
        mret (waits, res))
      (fun x _ => x = (false, spec_get (ls_map st') (prefix_string PREFIX_USER key))) s.
Proof.
  intros log Hrc Htail Hb Hn Hnext Hall Hrun Hops Hf Hcs. pose proof (filled_intention (p - 1) tail log) as Hsame.
  destruct (Open_spec create imap g tail p q ai t cs n Hrc Htail Hb Hn) as (s & latest & Hs & Hlat & Hr & Hit & Hl).
  exists s, latest. split_and!; [done|done|]. apply wp_bind. eapply wp_conseq.
  { eapply (process_rounds_spec std_hash sizeof_node scan_fuel entry_cache_size fuel bound fuel_enough signed_positions _ ps);
      [exact Hr|rewrite Hit; by eapply next_intentions_same|by rewrite (log_run_same log)| |by rewrite (run_size_same log)|done].
    eapply Forall_impl; [exact Hops|]. intros r. by rewrite (ops_at_same log). }
  intros more s' (_ & Hr' & Hmono & HF). apply wp_bind.
  assert (latest <= last_intention_processed_ s') as Hle.
  { destruct (decide (p < latest)); [|lia]. rewrite Forall_forall in HF. apply HF, Hall; [done|apply Hlat]. }
  unfold WaitOnIntention. apply wp_bind, wp_get. rewrite (proj2 (Z.leb_le _ _)) by done. apply wp_ret, wp_bind.
  eapply wp_conseq; [eapply replica_reads; [exact Hr'|by rewrite (run_size_same log)]|].
  intros res s2 ->. by apply wp_ret.
Qed.
End opening.

(** ** The log of ReplicaProps.v, opened *)

Definition late_log : MemLog := log_ late_es.
Definition late_image : AfterImage := mkAfterImage 1 (image_nodes demo_users 0).

Lemma late_images q ai : image_log (zl_slots late_log) !! q = Some ai -> q = 5 /\ ai = late_image.
Proof.
  change (es_src_log late_es !! q = Some ai -> q = 5 /\ ai = late_image). unfold late_es. rewrite tree_log_images.
  case_decide as Hq; [|done]. intros [= <-]. split; [exact Hq|done].
Qed.

Lemma late_image_at : image_log (zl_slots late_log) !! 5 = Some late_image.
Proof. change (es_src_log late_es !! 5 = Some late_image). unfold late_es. rewrite tree_log_images. by rewrite decide_True. Qed.

Lemma late_recoverable : recoverable 100 (zl_slots late_log) 1 5 late_image demo_users [1].
Proof.
  pose proof late_restorable as [Hholds Hvalid Hkeys Hsorted Hrange Hlast Hlogged _]. pose proof (lh_src _ _ _ _ _ _ _ _ Hholds) as Hok.
  pose proof (lh_image _ _ _ _ _ _ _ _ Hholds) as Himg. change (es_src_log late_es !! 5 = Some late_image) in Himg.
  split; [| | |exact (lh_images _ _ _ _ _ _ _ _ Hholds)|exact (lh_tree _ _ _ _ _ _ _ _ Hholds)|exact Hvalid|exact Hkeys|exact Hsorted|exact Hrange|exact Hlast|exact Hlogged].
  - split_and!; [eexists; exact (late_logged 0 _ eq_refl)| |].
    + split_and!; [lia|exact late_image_at|done|]. intros q' ai' Hq' [-> _]%late_images. lia.
    + intros p' q' ai' Hp' _ (_ & [_ ->]%late_images & Hi & _). simpl in Hi. lia.
  - intros r x Hx. assert (is_Some (slots late_es !! r)) as Hs by (by eexists). split; [by apply (so_range _ _ _ Hok)|].
    destruct (so_dense _ _ _ Hok r r Hs) as [e He]; [apply stored_slot in Hs; lia|].
    unfold log_entry in He. change (zl_slots late_log) with (slots late_es) in Hx. rewrite Hx in He. by eexists.
  - intros r Hr. apply es_src_log_entry, log_entry_slot in Himg as Hs5.
    destruct (so_dense _ _ _ Hok 5 r Hs5) as [e He]; [lia|]. by eapply log_entry_slot.
Qed.

Lemma late_all r : 1 < r -> is_Some (logged_intention (zl_slots late_log) r) -> r ∈ [2; 3; 4].
Proof.
  intros Hr Hi. assert (r <> 5) as Hne.
  { intros ->. pose proof late_image_at as Ha. unfold image_log in Ha. rewrite lookup_omap in Ha. destruct Hi as [i Hi].
    unfold logged_intention in Hi. apply bind_Some in Ha as (x & Hx & Ha), Hi as (y & Hy & Hi).
    rewrite Hx in Hy. injection Hy as <-. apply (after_image_slot 5) in Ha. by rewrite Ha in Hi. }
  assert (is_Some (slots late_es !! r)) as Hs%stored_slot.
  { destruct Hi as [i Hi]. unfold logged_intention in Hi. apply bind_Some in Hi as (x & Hx & _). by exists x. }
  simpl in Hs. rewrite !elem_of_cons. lia.
Qed.

Lemma late_reads : spec_get (ls_map late_state) (prefix_string PREFIX_USER "a") = (0, Some "3"%string).
Proof. by vm_compute. Qed.

Lemma open_replays_log_witness : exists s latest, Open (fun z => z) 100 100 10 20 true 4 late_log = Ok (Some (s, Some latest)) /\
  wp (process_rounds (fun z => z) 100 100 10 20 3;;
      waits ← WaitOnIntention 0 latest;
      res ← Get (fun z => z) 100 100 10 20 "a";
      mret (waits, res)) (fun x _ => x = (false, (0, Some "3"%string))) s.
Proof.
  destruct (open_replays_log (fun z => z) 100 100 10 20 10 late_fuel late_signed ltac:(lia) true 4 late_log 6 1 5 late_image demo_users [1] 2
    [2; 3; 4] late_state [true; true; false] 0 "a") as (s & latest & Hs & _ & Hw).
  - exact late_recoverable.
  - reflexivity.
  - lia.
  - by vm_compute.
  - exact late_next.
  - exact late_all.
  - exact late_run.
  - exact late_ops.
  - change (zl_slots late_log) with (slots late_es). rewrite late_size. lia.
  - simpl. lia.
  - exists s, latest. split; [exact Hs|]. rewrite <- late_reads. exact Hw.
Defined.
