(* ===== verification/OwnCommit.v ===== *)
(** Commits of this instance's own transactions: a client's calls, the append of
    the intention, the round of the processor that takes the transaction's own
    tree as the next root, and the wait that returns the decision
    (src/src/db/db_impl.cc, [CompleteTransaction] and [TransactionProcessorEntry]). *)
From S2P Require Import Prelude Slice RBTree Node Proto PersistentTree Delta PathCopy TreeSpec TransactionTree Infect Intention Transaction.
From S2P Require Import Iterator IteratorSpec LruCache NodeCache NodeCacheSpec Images Matcher EntryService EntryServiceSpec MemLog EntryServiceProps.
From S2P Require Import TxnFinder CommitIndex DBImpl DBWalks DBImplSpec Conflict Publish DBProps ConflictProps Replica ReplicaProps.

(** ** The same state under other laws *)

Section across.
Context {W : Type} {NS : NodeStore W} {L L' : NodeStoreLaws W} (w w' : W).
Context (same_heap : ns_heap w' = ns_heap w) (same_hor : ns_hor (NodeStoreLaws := L') = ns_hor (NodeStoreLaws := L)).
Context (same_stored : ns_stored (NodeStoreLaws := L') w' = ns_stored (NodeStoreLaws := L) w).
Context (same_names : ns_names (NodeStoreLaws := L') w' = ns_names (NodeStoreLaws := L) w).
Context (inv' : ns_inv (NodeStoreLaws := L') w').

Lemma across_ptr p a : w_ptr (NSL := L) w p a -> w_ptr (NSL := L') w' p a.
Proof using same_heap same_hor same_stored same_names.
  unfold w_ptr, w_nd. by rewrite same_heap, same_hor, same_stored, same_names.
Qed.

Lemma across_node r n an : w_node (NSL := L) r w n an -> w_node (NSL := L') r w' n an.
Proof using same_heap same_hor same_stored same_names.
  intros (? & ? & ? & ? & ? & [? ?] & [? ?]). split_and!; try done; (split; [done|]); by apply across_ptr.
Qed.

Lemma across_winv r δ : winv (NSL := L) r δ w -> winv (NSL := L') r δ w'.
Proof using All.
  intros [_ Hd]. split; [done|]. intros l an Hl. destruct (Hd l an Hl) as (n & Hn & Hw). exists n.
  rewrite same_heap. split; [done|]. by apply across_node.
Qed.

Lemma across_represents r P t n m : represents_with (NSL := L) r P (w, t) n m -> represents_with (NSL := L') r P (w', t) n m.
Proof using All.
  intros (t0 & Hrb & Hsz & Hm & δ & d & [Hw Ht] & [Hnd Hd] & He). exists t0. split_and!; try done.
  exists δ, d. split_and!; [split; [by apply across_winv|exact Ht]|split; [done|]|done]. simpl in *.
  destruct (pt_root t); [exact Hd|]. destruct Hd as (u & -> & Hp). exists u. split; [done|]. exact (across_ptr _ (Old u) Hp).
Qed.

Lemma across_ready r pos tr d x : ready (NSL := L) r pos (w, tr) d x -> ready (NSL := L') r pos (w', tr) d x.
Proof using All.
  intros (δ & [Hw Ht] & Hx & Hd & Hnd & Hnum). exists δ. split_and!; [split; [by apply across_winv|exact Ht]|done..].
Qed.
End across.

(** ** The append *)

Section append.
Context {G : Type} {ZG : ZLog G} {ZL : ZLogLaws G} {ZF : ZLogFillLaws G} {PC : ProtoCodec} {PL : ProtoLaws}.
Context (cache_size fuel bound : nat).
Implicit Types log : gmap Z slot.

(** What the log gets for an intention. *)
Definition intention_slot (h : ProtoIntention) : slot := Data (pb_serialize (mkLogEntry INTENTION (Some h) None)).

Lemma intention_slot_entry p h : slot_entry p (intention_slot h) = Some (INTENTION_ENTRY (intention_at h p)).
Proof using PL. unfold slot_entry, intention_slot, parse_entry. by rewrite pb_parse_serialize. Qed.

Lemma insert_intention_images log p h : log !! p = None -> omap after_image_of (<[p := intention_slot h]> log) = omap after_image_of log.
Proof using PL.
  intros Hn. apply map_eq. intros q. rewrite !lookup_omap. destruct (decide (p = q)) as [<-|Hne]; [|by rewrite lookup_insert_ne].
  rewrite lookup_insert_eq, Hn. simpl. unfold after_image_of. by rewrite intention_slot_entry.
Qed.

Lemma insert_intention log p h q : log !! p = None ->
  logged_intention (<[p := intention_slot h]> log) q = if decide (q = p) then Some (intention_at h p) else logged_intention log q.
Proof using PL.
  intros Hn. unfold logged_intention. destruct (decide (q = p)) as [->|Hne]; [|by rewrite lookup_insert_ne].
  rewrite lookup_insert_eq. cbn [mbind option_bind]. by rewrite intention_slot_entry.
Qed.

(** A log that is dense below its tail, with one more slot there. *)
Lemma src_ok_append (s s' : EntryService G) tail x : src_ok cache_size bound s -> slots s' = <[tail := x]> (slots s) ->
  (forall q, is_Some (slots s !! q) -> q < tail) -> (forall q, 0 <= q < tail -> is_Some (slots s !! q)) ->
  0 <= tail < Z.of_nat bound -> (forall q, is_Some (slot_entry q x)) -> coherent s' -> max_pos_ s <= max_pos_ s' -> tail <= max_pos_ s' ->
  src_ok cache_size bound s'.
Proof using Type.
  intros Hok Hsl Hq Hdense Hb Hx Hc Hm Ht. split; [done| | |apply Hok].
  - intros q. rewrite Hsl. intros [<-|Hin]%lookup_insert_is_Some'; [lia|]. apply (so_range _ _ _ Hok) in Hin. lia.
  - intros q q' Hin Hq'. unfold log_entry. rewrite Hsl in *. assert (q <= tail) as Hle.
    { apply lookup_insert_is_Some' in Hin as [<-|Hin]; [lia|]. apply Hq in Hin. lia. }
    destruct (decide (tail = q')) as [<-|Hne]; [rewrite lookup_insert_eq; apply Hx|].
    rewrite lookup_insert_ne by done. destruct (Hdense q') as [y Hy]; [lia|].
    apply (so_dense _ _ _ Hok q' q'); [by eexists|lia].
Qed.

Lemma AppendIntention_tail i c tail (s : EntryService G) : (0 < fuel)%nat -> src_ok cache_size bound s ->
  unpositioned i = true -> uniform (pi_ops (intention_ i)) = Some c -> zlog_check_tail (log_ s) = (0, tail, log_ s) ->
  (forall q, 0 <= q < tail -> is_Some (slots s !! q)) -> tail < Z.of_nat bound ->
  wp (AppendIntention cache_size fuel i) (fun pos s' => pos = tail /\ src_ok cache_size bound s' /\ 0 <= tail /\ slots s !! tail = None /\
    slots s' = <[tail := intention_slot (intention_ (set_flush c i))]> (slots s)) s.
Proof.
  intros Hf Hok Hu Hun Htail Hdense Hb. set (h := intention_ (set_flush c i)).
  destruct (zlog_append_tail (pb_serialize (mkLogEntry INTENTION (Some h) None)) (log_ s) tail Htail) as [g Hg].
  destruct (zlog_append_law (pb_serialize (mkLogEntry INTENTION (Some h) None)) (log_ s)) as (p & g' & Ha & H0 & Hq & Hs).
  rewrite Hg in Ha. injection Ha as <- <-.
  assert (slots s !! tail = None) as Hnew.
  { destruct (slots s !! tail) eqn:E; [|done]. specialize (Hq tail ltac:(by eexists)). lia. }
  assert (entry_cache_ s !! tail = None) as Hcn.
  { apply eq_None_not_Some. intros [e He%(so_coherent _ _ _ Hok)]. apply log_entry_slot in He. rewrite Hnew in He. by destruct He. }
  unfold AppendIntention. apply wp_bind. unfold wp at 1. rewrite (Serialize_ok _ _ _ Hu Hun). apply wp_bind.
  destruct fuel as [|k]; [lia|]. cbn [append_blob]. apply wp_bind. unfold wp at 1, on_log.
  change (intention_ (set_flush c i)) with h. rewrite Hg, decide_True by done.
  apply wp_ret, wp_bind. unfold SetPosition. apply wp_bind, wp_assert; [done|]. apply wp_ret.
  apply wp_bind, wp_modify, wp_bind, wp_modify, wp_bind, wp_modify, wp_ret. cbn [with_log entry_cache_]. rewrite Hcn.
  set (s' := with_max_pos _ _). assert (slots s' = <[tail := intention_slot h]> (slots s)) as Hsl by exact Hs.
  split_and!; [done| |done|done|exact Hsl].
  apply (src_ok_append s s' tail (intention_slot h)); [done|exact Hsl|exact Hq|exact Hdense|lia|intros q; eexists; apply intention_slot_entry| |simpl; lia|].
  - intros q e He. simpl in He. apply gc_cache_sub in He. unfold log_entry. rewrite Hsl.
    apply lookup_insert_Some in He as [[<- <-]|[Hne He]]; [rewrite lookup_insert_eq; apply intention_slot_entry|].
    rewrite lookup_insert_ne by done. by apply (so_coherent _ _ _ Hok).
  - simpl. lia.
Qed.
End append.

(** ** The rendezvous of one client *)

Section rendezvous.
Context (w : waiter_id) (tok pos : Z) (token_range : 0 <= tok < 2 ^ 64).

Definition waiting_as (ws : list waiter_id) (x : Waiter) (f : TransactionFinder) : Prop :=
  token_waiters_ f = {[tok := mkRendezvous ws ∅]} /\ handles f !! w = Some (x, tok).

Lemma AddTokenWaiter_alone f : token_waiters_ f = ∅ ->
  wp (AddTokenWaiter w tok) (fun _ f' => waiting_as [w] (mkWaiter false false None) f') f.
Proof.
  intros Hf. unfold AddTokenWaiter. apply wp_bind, wp_get, wp_bind, wp_modify, wp_modify. rewrite Hf, lookup_empty.
  split; [done|]. apply lookup_insert_eq.
Qed.

Lemma wait_enter_alone f : waiting_as [w] (mkWaiter false false None) f ->
  wp (wait_enter w pos) (fun _ f' => waiting_as [w] (mkWaiter false false (Some pos)) f') f.
Proof.
  intros [Ht Hw]. unfold wait_enter. apply wp_bind. unfold wp at 1, get_handle. rewrite Hw.
  apply wp_bind, wp_assert; [done|]. apply wp_modify. split; [done|]. apply lookup_insert_eq.
Qed.

Lemma Notify_alone c f : waiting_as [w] (mkWaiter false false (Some pos)) f ->
  wp (Notify (i64 tok) pos c) (fun _ f' => waiting_as [] (mkWaiter true c (Some pos)) f') f.
Proof using token_range.
  intros [Ht Hw]. assert (u64 (i64 tok) = tok) as Etok.
  { unfold u64, i64. rewrite Zminus_mod_idemp_l. replace (tok + 2 ^ 63 - 2 ^ 63) with tok by lia. by apply Z.mod_small. }
  unfold Notify. apply wp_bind, wp_get. rewrite Etok, Ht, lookup_singleton_eq. cbn [waiters results].
  apply wp_bind. unfold wp at 1, get_handle. rewrite Hw, decide_True by done.
  apply wp_bind, wp_modify, wp_modify. split; [|apply lookup_insert_eq].
  simpl. by rewrite Ht, insert_singleton_eq.
Qed.

Lemma wait_check_alone c f : waiting_as [] (mkWaiter true c (Some pos)) f ->
  wp (wait_check w pos) (fun o f' => o = Some c /\ token_waiters_ f' = ∅) f.
Proof.
  intros [Ht Hw]. unfold wait_check. apply wp_bind. unfold wp at 1, get_handle. rewrite Hw. cbn [complete committed].
  apply wp_bind. unfold wait_leave. apply wp_bind. unfold wp at 1, token_entry. rewrite Ht, lookup_singleton_eq.
  cbn [waiters results]. rewrite !bool_decide_eq_true_2 by done. simpl. apply wp_modify, wp_ret. split; [done|].
  simpl. rewrite Ht. apply delete_singleton_eq.
Qed.
End rendezvous.

(** ** A client's transaction, from its begin to the decision *)

Section client.
Context {G : Type} {ZG : ZLog G} {PC : ProtoCodec} {SC : SliceCompare} {LC : LexicalCast}.
Context (std_hash : Z -> Z) (sizeof_node : Z) (scan_fuel entry_cache_size fuel : nat).

#[local] Instance client_store : NodeStore (NodeCache (EntryService G)) := db_store std_hash sizeof_node scan_fuel entry_cache_size fuel.

(** The calls a transaction makes on its database, and on the node cache. *)
Definition on_db {A} (m : M (DBImpl G) A) : M (DBImpl G * TransactionImpl) A := zoom fst (fun s x => (s, x.2)) m.
Definition on_txn {A} (m : M (NodeCache (EntryService G) * TransactionImpl) A) : M (DBImpl G * TransactionImpl) A :=
  zoom (fun x => (cache_ x.1, x.2)) (fun y x => (set_cache y.1 x.1, y.2)) m.

(** [CompleteTransaction] of the client [w]; [turn] is what the other threads do
    while it waits. *)
Definition CompleteTransaction (turn : M (DBImpl G) bool) (w : waiter_id) : M (DBImpl G * TransactionImpl) bool :=
  '(_, tx) ← get;
  '(pos, tx) ← on_db (CompleteTransaction_start entry_cache_size fuel w tx);
  modify (fun x => (x.1, tx));;
  on_db turn;;
  on_db (CompleteTransaction_finish w pos).

(** The calls [us], then [Commit], with one round of the processor while the
    client waits. *)
Definition client_calls (w : waiter_id) (us : list user_op) : M (DBImpl G * TransactionImpl) (list (Z * option string) * bool) :=
  out ← on_txn (run_user fuel us);
  committed ← tx_Commit (CompleteTransaction (process_intention std_hash sizeof_node scan_fuel entry_cache_size fuel) w);
  mret (out, committed).

(** A client holds the transaction object to its end. *)
Definition with_txn {A} (tx : TransactionImpl) (m : M (DBImpl G * TransactionImpl) A) : M (DBImpl G) A := fun s =>
  match m (s, tx) with
  | Ok (x, (s, _)) => Ok (x, s)
  | AssertFail => AssertFail
  | OutOfFuel => OutOfFuel
  end.

Definition own_transaction (w : waiter_id) (token : Z) (us : list user_op) : M (DBImpl G) (list (Z * option string) * bool) :=
  tx ← BeginTransaction token;
  with_txn tx (client_calls w us).

Lemma wp_with_txn {A} tx (m : M (DBImpl G * TransactionImpl) A) (Q : A -> DBImpl G -> Prop) s :
  wp m (fun a x => Q a x.1) (s, tx) -> wp (with_txn tx m) Q s.
Proof. unfold wp, with_txn. by destruct (m (s, tx)) as [[a [s' tx']]| |]. Qed.
End client.

(** What a client records is one intention of reads and updates. *)
Lemma recorded_user us : Forall op_user (recorded <$> us).
Proof.
  apply Forall_fmap, Forall_forall. intros op _. split; [apply recorded_ok|].
  intros k. destruct op as [k'|k' v|k']; [done|..]; intros [= E]; discriminate E.
Qed.

Lemma recorded_uniform us : us <> [] -> uniform (recorded <$> us) = Some false.
Proof.
  assert (forall op, is_copy (recorded op) = false) as Hc by (by intros []).
  destruct us as [|op us]; [done|]. intros _. simpl. rewrite Hc.
  replace (forallb _ _) with true; [done|]. symmetry. apply forallb_forall. intros x Hx.
  apply list_elem_of_In, list_elem_of_fmap in Hx as (op' & -> & _). by rewrite Hc.
Qed.

Lemma user_view_commit m u pos : user_view m u -> user_view (<[commit_key pos := ""%string]> m) u.
Proof. intros H k. unfold commit_key. rewrite lookup_insert_ne; [apply H|]. intros E. discriminate E. Qed.

(** ** The commit, step by step *)

Section commit.
Context {G : Type} {ZG : ZLog G} {ZL : ZLogLaws G} {ZF : ZLogFillLaws G} {PC : ProtoCodec} {PL : ProtoLaws}.
Context {SC : SliceCompare} {SL : SliceLaws} {LC : LexicalCast} {LCL : LexicalCastLaws}.
Context (std_hash : Z -> Z) (sizeof_node : Z) (scan_fuel entry_cache_size fuel bound : nat).
Context (fuel_enough : (bound < fuel)%nat) (signed_positions : Z.of_nat bound <= 2 ^ 63).

#[local] Instance the_store : NodeStore (NodeCache (EntryService G)) := db_store std_hash sizeof_node scan_fuel entry_cache_size fuel.

(** The laws of the node cache on a log. *)
Abbreviation log_laws log hor Pr := (node_cache_laws (AL := es_source_laws entry_cache_size fuel bound fuel_enough log)
  std_hash sizeof_node scan_fuel hor Pr).
Abbreviation db_tree log hor Pr := (db_tree std_hash sizeof_node scan_fuel entry_cache_size fuel bound fuel_enough hor Pr log).
Abbreviation replica log := (replica std_hash sizeof_node scan_fuel entry_cache_size fuel bound fuel_enough log).
Abbreviation process := (process_intention std_hash sizeof_node scan_fuel entry_cache_size fuel).

(** *** The same images in a longer log *)

Section relog.
Context (log log' : gmap Z slot) (same_images : omap after_image_of log' = omap after_image_of log).
Context (hor : Z) (Pr : NodeAddress -> tree -> Prop) (w : NodeCache (EntryService G)) (es : EntryService G).
Context (old_inv : ns_inv (NodeStoreLaws := log_laws log hor Pr) w) (es_ok : src_ok entry_cache_size bound es) (es_slots : slots es = log').

Lemma relog_images : es_src_log es = nc_log (AL := es_source_laws entry_cache_size fuel bound fuel_enough log) w.
Proof using All.
  destruct (ni_src _ _ _ _ _ old_inv) as [_ Hsl]. unfold nc_log. simpl. unfold es_src_log. by rewrite es_slots, Hsl, same_images.
Qed.

Lemma relog_inv : ns_inv (NodeStoreLaws := log_laws log' hor Pr) (with_src es w).
Proof using All. eapply nc_inv_relog; [exact relog_images|exact old_inv|]. by split. Qed.

Lemma relog_stored : nc_stored (AL := es_source_laws entry_cache_size fuel bound fuel_enough log') scan_fuel hor (with_src es w) =
  nc_stored (AL := es_source_laws entry_cache_size fuel bound fuel_enough log) scan_fuel hor w.
Proof using All. unfold nc_stored. by rewrite <- relog_images. Qed.

Lemma relog_names : nc_names (AL := es_source_laws entry_cache_size fuel bound fuel_enough log') scan_fuel hor Pr (with_src es w) =
  nc_names (AL := es_source_laws entry_cache_size fuel bound fuel_enough log) scan_fuel hor Pr w.
Proof using All. unfold nc_names. by rewrite relog_stored. Qed.

Lemma relog_represents r P t n m : represents_with (NSL := log_laws log hor Pr) r P (w, t) n m ->
  represents_with (NSL := log_laws log' hor Pr) r P (with_src es w, t) n m.
Proof using All.
  apply (across_represents (L := log_laws log hor Pr) (L' := log_laws log' hor Pr)); [done|done|exact relog_stored|exact relog_names|exact relog_inv].
Qed.

Lemma relog_db_tree s t : cache_ s = w -> db_tree log hor Pr s t -> db_tree log' hor Pr (set_cache (with_src es w) s) t.
Proof using All.
  intros Hc [_ Hp]. split; [exact relog_inv|]. rewrite Hc in Hp.
  by apply (across_ptr (L := log_laws log hor Pr) (L' := log_laws log' hor Pr) w (with_src es w) eq_refl eq_refl relog_stored relog_names _ (Old t)).
Qed.
End relog.

(** What a state has in common with an instance at the state [st]. *)
Lemma replica_frame log log' s s' st n Pr t : replica log s st n ->
  (forall p, is_Some (logged_intention log p) -> is_Some (logged_intention log' p)) ->
  db_tree log' (last_intention_processed_ s + 1) Pr s' t -> rbtree t -> (size t <= n)%nat -> to_map t = ls_map st ->
  committed_intentions_ s' = committed_intentions_ s -> root_snapshot_ s' = root_snapshot_ s ->
  last_intention_processed_ s' = last_intention_processed_ s -> intention_iterator_ s' = intention_iterator_ s ->
  finished_txns_ s' = finished_txns_ s -> txn_finder_ s' = txn_finder_ s -> replica log' s' st n.
Proof.
  intros [] Hlog Hdb Hrb Hsz Hm E1 E2 E3 E4 E5 E6. split; rewrite ?E1, ?E2, ?E3, ?E4, ?E5, ?E6; auto. by exists Pr, t.
Qed.

(** Nothing of the log is left to process: no position has been handed out and not
    written, and no intention is past the iterator. *)
Record caught_up (log : gmap Z slot) (s : DBImpl G) (tail : Z) : Prop := {
  cu_tail g : zl_slots g = log -> zlog_check_tail g = (0, tail, g);
  cu_written q : 0 <= q < tail -> is_Some (log !! q);
  cu_iterator : intention_iterator_ s <= tail < Z.of_nat bound;
  cu_none q : intention_iterator_ s <= q -> logged_intention log q = None;
}.

(** The first half of [CompleteTransaction]: the intention is at the tail of the
    log, its tree in the table of finished transactions, the client waiting. *)
Lemma start_spec log s w tx tr h tail : caught_up log s tail ->
  src_ok entry_cache_size bound (nc_src (cache_ s)) -> slots (nc_src (cache_ s)) = log ->
  token_waiters_ (txn_finder_ s) = ∅ -> finished_txns_ s !! tail = None ->
  tx_tree tx = Some tr -> pt_intention tr = None -> tx_intention tx = Some (mkIntention h None) ->
  uniform (pi_ops h) = Some false -> pi_flush h = false ->
  wp (CompleteTransaction_start entry_cache_size fuel w tx) (fun '(pos, _) s' => pos = tail /\ 0 <= tail /\ log !! tail = None /\
    exists es f, src_ok entry_cache_size bound es /\ slots es = <[tail := intention_slot h]> log /\
      waiting_as w (tx_token tx) [w] (mkWaiter false false (Some tail)) f /\
      s' = set_finder f (set_finished (<[tail := Some (with_intention (Some tail) tr)]> (finished_txns_ s)) (set_cache (with_src es (cache_ s)) s))) s.
Proof using ZF PL fuel_enough.
  intros [Htail Hwritten Hit Hnone] Hok Hsl Hw Hfin Htr Hpt Hi Hun Hfl. unfold CompleteTransaction_start.
  apply wp_bind. unfold on_finder. apply wp_zoom. eapply wp_conseq; [by apply AddTokenWaiter_alone|]. intros [] f1 Hf1.
  rewrite Hi, Htr. apply wp_bind. unfold on_es, on_cache. apply wp_zoom, wp_zoom. eapply wp_conseq.
  { eapply (AppendIntention_tail entry_cache_size fuel bound (mkIntention h None) false tail (nc_src (cache_ s)));
      [lia|exact Hok|done|exact Hun|by apply Htail|intros q Hq; rewrite Hsl; by apply Hwritten|lia]. }
  intros pos es (-> & Hes & H0 & Hnew & Hsl'). rewrite Hsl in Hnew, Hsl'.
  assert (intention_ (set_flush false (mkIntention h None)) = h) as Eh by (destruct h; simpl in *; by subst).
  rewrite Eh in Hsl'. apply wp_bind. unfold SetIntention. apply wp_bind, wp_assert; [by apply bool_decide_eq_true|]. apply wp_ret.
  apply wp_bind. unfold on_finished. apply wp_zoom. unfold wp at 1, Insert. cbn [finished_txns_ set_finder set_cache].
  match goal with |- context [?f !! tail] => replace (f !! tail) with (None (A := option PersistentTree)) by (symmetry; exact Hfin) end.
  apply wp_bind, wp_zoom. eapply wp_conseq; [by apply wait_enter_alone|]. intros [] f2 Hf2. apply wp_ret.
  split_and!; [done..|]. by exists es, f2.
Qed.

(** The round of the processor that takes the intention: it finds the snapshot to
    be the root, takes the transaction's own tree and publishes it. *)
Lemma round_spec log s st n Pr t tr r n' h w es f tail : let ops := pi_ops h in let log' := <[tail := intention_slot h]> log in
  replica log s st n -> db_tree log (last_intention_processed_ s + 1) Pr s t -> rbtree t -> (size t <= n)%nat -> to_map t = ls_map st ->
  represents_with (NSL := log_laws log (last_intention_processed_ s + 1) Pr) r False (cache_ s, tr) n' (ops_spec ops (ls_map st)) ->
  - 2 ^ 63 < r < 0 -> caught_up log s tail -> log !! tail = None -> Forall op_user ops -> (n' <= n + length ops)%nat -> (S n' < fuel)%nat ->
  pi_snapshot h = root_snapshot_ s -> 0 <= pi_token h < 2 ^ 64 ->
  src_ok entry_cache_size bound es -> slots es = log' ->
  waiting_as w (pi_token h) [w] (mkWaiter false false (Some tail)) f ->
  wp process (fun more s' => more = true /\ waiting_as w (pi_token h) [] (mkWaiter true true (Some tail)) (txn_finder_ s') /\
      forall f', token_waiters_ f' = ∅ -> replica log' (set_finder f' s') (commit_at tail (intention_at h tail) st) (S (n + length ops)))
    (set_finder f (set_finished (<[tail := Some tr]> (finished_txns_ s)) (set_cache (with_src es (cache_ s)) s))).
Proof using All.
  intros ops log' Hr Hdb Hrb Hsz Hm Hrep Hneg [Htail Hwritten Hit Hnone] Hnew Hops Hn' Hf Hsnap Htok Hes Hsl Hwait.
  set (s4 := set_finder f _). set (i := intention_at h tail).
  assert (logged_intention log' tail = Some i) as Hi by (unfold log'; rewrite insert_intention, decide_True by done; done).
  assert (forall p, is_Some (logged_intention log p) -> is_Some (logged_intention log' p)) as Hmore.
  { intros p Hp. unfold log'. rewrite insert_intention by done. case_decide; [by eexists|done]. }
  destruct (re_processed _ _ _ _ _ _ _ _ _ _ _ Hr) as [[? ?] ?].
  unfold process_intention. apply wp_bind, wp_get, wp_bind.
  eapply (wp_conseq _ (fun x s' => x = (Some i, tail + 1) /\ exists es5, src_ok entry_cache_size bound es5 /\ slots es5 = log' /\
    s' = set_cache (with_src es5 (cache_ s)) s4)).
  { unfold on_es, on_cache. apply wp_zoom, wp_zoom. eapply wp_conseq.
    - apply (IntentionIterator_spec entry_cache_size fuel bound fuel_enough fuel _ tail i); [simpl; lia|exact Hes| |simpl; lia|].
      + by apply (logged_in log' es).
      + intros q j Hq Hj. apply (logged_in log' es) in Hj; [|exact Hsl]. unfold log' in Hj.
        rewrite insert_intention, decide_False in Hj by (done || lia). rewrite Hnone in Hj by (simpl in Hq; lia). done.
    - intros x es5 (-> & Hes5 & Hl). split; [done|]. exists es5. apply same_log_slots in Hl as [Hl _]. split_and!; [done|rewrite Hl; exact Hsl|done]. }
  intros x s5 (-> & es5 & Hes5 & Hsl5 & ->). apply wp_bind, wp_modify, wp_bind. apply wp_ret, wp_bind, wp_get.
  set (s6 := set_iterator (tail + 1) _).
  apply wp_bind, wp_assert; [apply Z.ltb_lt; simpl; lia|].
  assert ((root_snapshot_ s6 =? Snapshot i) || Flush i = true) as -> by (apply orb_true_iff; left; apply Z.eqb_eq; symmetry; exact Hsnap).
  apply wp_bind, wp_ret.
  assert (omap after_image_of log' = omap after_image_of log) as Himg by (by apply insert_intention_images).
  set (w5 := with_src es5 (cache_ s)).
  eapply wp_conseq.
  { apply (commit_intention_run std_hash sizeof_node scan_fuel entry_cache_size fuel
      (fun w off x _ => exists d, (off = dsize d - 1 /\ rbtree (erase d) /\ (size (erase d) <= S n')%nat /\
          to_map (erase d) = commit_spec tail ops (ls_map st)) /\
        forall s'', cache_ s'' = w -> root_ s'' = SetIntentionAddress tail off (mkNodePtr (Some x) None true) ->
          db_tree log' (tail + 1) (promise Pr tail d) s'' (erase d))
      (waiting_as w (pi_token h) [] (mkWaiter true true (Some tail))) i tail true
      (list_to_set (window (ls_index st ++ [tail]))) (Some tr) (<[tail := None]> (<[tail := Some tr]> (finished_txns_ s))) s6).
    - eapply (replica_push std_hash sizeof_node scan_fuel entry_cache_size fuel bound fuel_enough log s st n tail); [exact Hr|lia].
    - exact (Find_inserted tail (Some tr) (finished_txns_ s)).
    - eapply wp_conseq.
      { eapply (next_root_own std_hash sizeof_node scan_fuel entry_cache_size fuel bound fuel_enough log' (last_intention_processed_ s + 1) Pr _ i tr r tail (root_snapshot_ s) n');
          [eapply (relog_represents log log' Himg _ _ (cache_ s) es5); [apply Hdb|exact Hes5|exact Hsl5|exact Hrep]|exact Hneg| |lia|lia|lia|exact Hf].
        unfold commit_key. rewrite ops_spec_commit_key by exact Hops. apply (re_keys _ _ _ _ _ _ _ _ _ _ _ Hr), list_elem_of_fmap.
        exists (root_snapshot_ s). split; [done|]. apply last_elem, (re_last _ _ _ _ _ _ _ _ _ _ _ Hr). }
      intros [o tr'] s' (w7 & d & x & -> & Hrb' & Hsz' & Hm' & -> & Hne & Hx & Hdb7). exists w7, (dsize d - 1), x. split_and!; try done.
      exists d. by split_and!.
    - simpl. lia.
    - by apply Notify_alone. }
  intros more s' (-> & w7 & off & x & l & f7 & wm & wd & (d & (-> & Hrb' & Hsz' & Hm') & Hdb') & HF & ->).
  split_and!; [done|exact HF|]. intros f' Hf'.
  eapply (replica_commit std_hash sizeof_node scan_fuel entry_cache_size fuel bound fuel_enough log' (set_cache w5 s) st n Pr i tail d);
    [|done|done|simpl; lia|lia|done|change (pi_ops (intention_ i)) with ops; lia|done| |done..| |done].
  - eapply (replica_frame log log' s (set_cache w5 s) st n Pr t); [done|done| |done..].
    apply (relog_db_tree log log' Himg _ _ (cache_ s) es5); [apply Hdb|done|done|done|exact Hdb].
  - by apply Hdb'.
  - intros p Hp. apply (taken_elsewhere tail (Some tr) p (finished_txns_ s)); [lia|]. by apply (re_finished _ _ _ _ _ _ _ _ _ _ _ Hr); lia.
Qed.

(** [CompleteTransaction] of a transaction that is up to date with the log. *)
Lemma CompleteTransaction_spec log s st n Pr t tr r n' h tx w tail : let ops := pi_ops h in let log' := <[tail := intention_slot h]> log in
  replica log s st n -> db_tree log (last_intention_processed_ s + 1) Pr s t -> rbtree t -> (size t <= n)%nat -> to_map t = ls_map st ->
  represents_with (NSL := log_laws log (last_intention_processed_ s + 1) Pr) r False (cache_ s, tr) n' (ops_spec ops (ls_map st)) ->
  - 2 ^ 63 < r < 0 -> caught_up log s tail -> Forall op_user ops -> (n' <= n + length ops)%nat -> (S n' < fuel)%nat ->
  pi_snapshot h = root_snapshot_ s -> 0 <= pi_token h < 2 ^ 64 -> uniform ops = Some false -> pi_flush h = false ->
  tx_tree tx = Some tr -> pt_intention tr = None -> tx_intention tx = Some (mkIntention h None) -> tx_token tx = pi_token h ->
  wp (CompleteTransaction entry_cache_size fuel process w) (fun c x => c = true /\ log !! tail = None /\
    replica log' x.1 (commit_at tail (intention_at h tail) st) (S (n + length ops))) (s, tx).
Proof using All.
  intros ops log' Hr Hdb Hrb Hsz Hm Hrep Hneg Hcu Hops Hn' Hf Hsnap Htok Hun Hfl Htr Hpt Hi Etok.
  destruct (db_tree_slots std_hash sizeof_node scan_fuel entry_cache_size fuel bound fuel_enough log _ _ _ _ Hdb) as [Hok Hsl].
  destruct (re_processed _ _ _ _ _ _ _ _ _ _ _ Hr) as [_ Hproc].
  unfold CompleteTransaction. apply wp_bind, wp_get, wp_bind. apply wp_zoom. eapply wp_conseq.
  { eapply (start_spec log s w tx tr h tail Hcu Hok Hsl); try done; [apply (re_waiters _ _ _ _ _ _ _ _ _ _ _ Hr)|].
    apply (re_finished _ _ _ _ _ _ _ _ _ _ _ Hr). pose proof (cu_iterator _ _ _ Hcu). lia. }
  intros [pos tx'] s1 (-> & H0 & Hnew & es & f & Hes & Hsl' & Hwait & ->). rewrite Etok in Hwait.
  apply wp_bind, wp_modify, wp_bind, wp_zoom. eapply wp_conseq.
  { by eapply (round_spec log s st n Pr t (with_intention (Some tail) tr) r n' h w es f tail). }
  intros more s2 (-> & Hw2 & Hrep2). apply wp_zoom. unfold CompleteTransaction_finish, on_finder. apply wp_bind, wp_zoom.
  eapply wp_conseq; [by eapply wait_check_alone|]. intros o f2 [-> Hf2]. apply wp_ret. split_and!; [done..|by apply Hrep2].
Qed.

(** C4: the effect of a transaction. On an instance that is up to date with the
    log, a client begins a transaction, makes the calls [us] and commits, the
    processor taking the intention while it waits. The calls answer as on the
    finite map of user keys, the commit is decided and succeeds, and the instance
    is again up to date: the log has the intention at its tail, the machine steps
    to the next state by it, and the user keys are those the calls leave, unless
    the transaction wrote nothing and the log stays as it was.
    The entry cache can hold the whole log. *)
Theorem own_commit_takes_effect log s st n w token us u tail :
  replica log s st n -> caught_up log s tail -> - 2 ^ 63 < in_flight_txn_rid_ s < 0 -> 0 <= token < 2 ^ 64 ->
  user_view (ls_map st) u -> us <> [] -> (S (n + length us) < fuel)%nat ->
  wp (own_transaction std_hash sizeof_node scan_fuel entry_cache_size fuel w token us) (fun '(out, committed) s' =>
    out = fst (user_spec us u) /\ committed = true /\
    exists log' st', replica log' s' st' (S (n + length us)) /\ user_view (ls_map st') (snd (user_spec us u)) /\
      ((log' = log /\ st' = st) \/
       exists i, log' = <[tail := intention_slot (intention_ i)]> log /\ logged_intention log' tail = Some i /\
         pi_ops (intention_ i) = recorded <$> us /\ log_step log' st tail i = Some (st', true))) s.
Proof using All.
  intros Hr Hcu Hneg Htok Hu Hus Hf. destruct (re_tree _ _ _ _ _ _ _ _ _ _ _ Hr) as (Pr & t & Hdb & Hrb & Hsz & Hm).
  set (r := in_flight_txn_rid_ s) in *. unfold own_transaction. apply wp_bind. eapply wp_conseq.
  { apply (BeginTransaction_spec std_hash sizeof_node scan_fuel entry_cache_size fuel bound fuel_enough _ Pr log token s t n Hdb); [lia|done|done]. }
  intros tx s1 (Es1 & Htree & Hopen). specialize (Hopen False). fold r in Hopen, Htree. rewrite Hm in Hopen.
  apply wp_with_txn. unfold client_calls. apply wp_bind, wp_zoom. eapply wp_conseq.
  { eapply (client_calls_spec (NSL := log_laws log (last_intention_processed_ s + 1) Pr) r False fuel us _ n); [by apply i64_u64_small|by apply negative_delta_id|lia| |exact Hopen].
    right. exists (commit_key (root_snapshot_ s)). split.
    - apply (re_keys _ _ _ _ _ _ _ _ _ _ _ Hr), list_elem_of_fmap. exists (root_snapshot_ s). split; [done|].
      apply last_elem, (re_last _ _ _ _ _ _ _ _ _ _ _ Hr).
    - eapply Forall_impl; [apply recorded_user|]. intros op [_ Ho]. apply Ho. }
  intros out [w2 tx2] (-> & (t2 & Ht2 & Hi2 & Hc2 & Htok2 & Hrep2) & (t1' & t2' & Ht1 & Ht2' & Hl & Hro)).
  cbn [fst snd] in *. rewrite Ht2 in Ht2'. injection Ht2' as <-. rewrite Htree in Ht1. injection Ht1 as <-.
  destruct (spec_ops_user us (ls_map st) u Hu) as [Hout Hview].
  set (s2 := set_cache w2 s1). assert (cache_ s1 = cache_ s) as Ec by (by rewrite Es1). rewrite Ec in Hl.
  assert (db_tree log (last_intention_processed_ s + 1) Pr s2 t) as Hdb2.
  { destruct Hrep2 as (? & _ & _ & _ & δ & d & [[Hw _] _] & _). eapply (db_tree_step _ _ _ _ _ _ _ _ _ _ r).
    - subst s1. exact Hdb.
    - apply winv_empty. exact Hw.
    - rewrite Ec. exact (later_w _ _ Hl). }
  assert (replica log s2 st n) as Hr2 by (eapply (replica_frame log log s s2 st n Pr t); [exact Hr|done|exact Hdb2|done|done|done|unfold s2; by rewrite Es1..]).
  assert (caught_up log s2 tail) as Hcu2 by (subst s1; destruct Hcu; by split).
  assert (last_intention_processed_ s2 = last_intention_processed_ s) as El by (by subst s1).
  unfold tx_Commit. apply wp_bind, wp_bind, wp_get. rewrite Ht2. apply wp_bind, wp_assert; [by rewrite Hc2|].
  apply wp_bind, wp_modify. destruct (ReadOnly t2) eqn:Ero.
  - apply bool_decide_eq_true, Hro in Ero. rewrite Ero in Hview. apply wp_ret, wp_ret. split_and!; [exact Hout|done|].
    exists log, st. split_and!; [|exact Hview|by left]. eapply replica_weaken; [|exact Hr2]. lia.
  - set (h := mkProtoIntention (root_snapshot_ s) token false (recorded <$> us)).
    rewrite <- ops_spec_recorded in Hview, Hrep2. eapply wp_conseq.
    { eapply (CompleteTransaction_spec log s2 st n Pr t t2 r (n + length us) h (with_committed tx2) w tail); try done; rewrite ?El; try done.
      - apply recorded_user.
      - simpl. rewrite length_fmap. lia.
      - subst s1. done.
      - by apply recorded_uniform.
      - exact (later_intention _ _ Hl). }
    intros c [s3 tx3] (-> & Hnew & Hr3). apply wp_ret. split_and!; [exact Hout|done|].
    eexists _, _. split; [simpl in Hr3; rewrite length_fmap in Hr3; exact Hr3|]. split; [by apply user_view_commit|]. right.
    exists (intention_at h tail). split_and!; [done|by rewrite insert_intention, decide_True|done|].
    unfold log_step. rewrite bool_decide_eq_true_2; [done|]. apply (re_last _ _ _ _ _ _ _ _ _ _ _ Hr).
Qed.
End commit.

(** ** A concrete run: a log whose only intention has its after image *)

Definition once_puts : list ProtoIntention := [put_intention 0 "a" "x"].
Definition once_es : EntryService MemLog := stored_es (tree_log once_puts 1 demo_users).
Definition once_point : RestorePoint := tree_point once_puts 1 demo_users.

Lemma once_replica : exists s, Replica.replica (fun z => z) 100 100 10 20 10 late_fuel (slots once_es) s (mkLogState (to_map demo_users) [1] []) 2 /\
  intention_iterator_ s = 2 /\ in_flight_txn_rid_ s = -1.
Proof.
  destruct (restored_replica (fun z => z) 100 100 10 20 10 late_fuel (slots once_es) 4 once_point once_es demo_users [1] 2)
    as (s & _ & Hr & Hit & _ & Hrid); [apply (users_restorable once_puts (put_intention 0 "a" "x") eq_refl); simpl; lia|by vm_compute|].
  by exists s.
Qed.

Lemma once_caught_up (s : DBImpl MemLog) : intention_iterator_ s = 2 -> caught_up 10 (slots once_es) s 3.
Proof.
  intros Hit. split; rewrite ?Hit.
  - intros g Hg. apply (mem_log_slots g (log_ once_es)) in Hg. by subst g.
  - intros q Hq. unfold slots. cbn [zl_slots mem_log_laws]. rewrite mem_log_lookup.
    destruct (Z.ltb_spec q 0); [lia|]. apply lookup_lt_is_Some. simpl. lia.
  - simpl. lia.
  - intros q Hq. destruct (logged_intention (slots once_es) q) as [i|] eqn:Hi; [exfalso|done].
    apply (logged_in _ once_es) in Hi; [|done]. pose proof (log_entry_slot _ _ _ Hi) as Hs%stored_slot.
    rewrite tree_log_length in Hs. simpl in Hs. assert (q = 2) as -> by lia. unfold intention_in, once_es in Hi.
    by rewrite stored_entries in Hi.
Qed.

Definition once_calls : list user_op := [UGet "a"; UPut "a" "7"; UGet "a"; UDelete "b"; UGet "b"]%string.

Lemma own_commit_takes_effect_witness : exists s,
  wp (own_transaction (fun z => z) 100 100 10 20 5 7 once_calls) (fun '(out, committed) _ =>
    out = [(0, Some "x"); (0, Some "7"); (- ENOENT, None)]%string /\ committed = true) s.
Proof.
  destruct once_replica as (s & Hr & Hit & Hrid). exists s. eapply wp_conseq.
  { apply (own_commit_takes_effect (fun z => z) 100 100 10 20 10 late_fuel late_signed (slots once_es) s
      (mkLogState (to_map demo_users) [1] []) 2 5 7 once_calls {["a" := "x"]}%string 3);
      [exact Hr|by apply once_caught_up|lia|lia|exact demo_users_view|done|simpl; lia]. }
  intros [out committed] s' (-> & -> & _). by split.
Defined.
