(* ===== verification/Writer.v ===== *)
(** The after image writer redeems the promises of the processor: the addresses a
    commit handed out for its new nodes are, after the writer's round, the nodes
    of an after image in the log (src/src/db/db_impl.cc,
    [AfterImageWriterEntry]). *)
From S2P Require Import Prelude Slice RBTree Node Proto PersistentTree Delta PathCopy TreeSpec TransactionTree Infect Intention Transaction.
From S2P Require Import Iterator IteratorSpec LruCache NodeCache NodeCacheSpec Images Serialize Matcher EntryService EntryServiceSpec MemLog EntryServiceProps.
From S2P Require Import TxnFinder CommitIndex DBImpl DBWalks DBImplSpec Conflict Publish DBProps ConflictProps Replica ReplicaProps Restore OwnCommit.

(** ** A log that gets an after image at its tail *)

(** The addresses the nodes of an image, at position [q], have for their children. *)
Definition child_of (q : Z) (ai : AfterImage) (a : NodeAddress) : Prop :=
  exists n, n ∈ ai_tree ai /\ exists c, (c = pn_left n \/ c = pn_right n) /\ np_nil c = false /\ child_address q c = Some a.

(** The images of a log are of intentions before [pos], at positions before [p],
    and refer to no later ones. *)
Record log_before (log : gmap Z AfterImage) (pos p : Z) : Prop := {
  lb_tail q : is_Some (log !! q) -> q < p;
  lb_intention q ai : log !! q = Some ai -> ai_intention ai < pos;
  lb_child q ai a : log !! q = Some ai -> child_of q ai a -> if IsAfterImage a then Node.Position a < p else Node.Position a < pos;
}.

Section grow.
Context (scan_fuel : nat) (log : gmap Z AfterImage) (pos p : Z) (ai : AfterImage).
Hypothesis before : log_before log pos p.
Hypothesis image_of : ai_intention ai = pos.

Abbreviation log' := (<[p := ai]> log).

Lemma grow_new : log !! p = None.
Proof using before. apply eq_None_not_Some. intros H%(lb_tail _ _ _ before). lia. Qed.

Lemma grow_other q x : q <> p -> log' !! q = Some x <-> log !! q = Some x.
Proof. intros Hq. by rewrite lookup_insert_ne by done. Qed.

Lemma grow_keep q x : log !! q = Some x -> log' !! q = Some x.
Proof using before. intros Hq. rewrite lookup_insert_ne; [done|]. intros <-. by rewrite grow_new in Hq. Qed.

(** The first image of an intention stays the first. *)
Lemma grow_primary i q : primary scan_fuel log i q -> primary scan_fuel log' i q.
Proof using before.
  intros (Hi & (x & Hx & Hxi) & Hfirst & Hf). split_and!; [lia|lia|exists x; split; [by apply grow_keep|done]| |done].
  intros q' x' Hq' Hx'. assert (q < p) by (apply (lb_tail _ _ _ before); by eexists).
  apply grow_other in Hx'; [|lia]. by apply (Hfirst q').
Qed.

Lemma grow_located a q : located scan_fuel log a q -> located scan_fuel log' a q.
Proof using before. unfold located. destruct (IsAfterImage a); [done|apply grow_primary]. Qed.

Lemma grow_image t : forall h q off, image_at scan_fuel h log t q off -> image_at scan_fuel h log' t q off.
Proof using before.
  assert (forall t q c h, (forall q off, image_at scan_fuel h log t q off -> image_at scan_fuel h log' t q off) ->
    child_denotes scan_fuel log (image_at scan_fuel h log t) q c t -> child_denotes scan_fuel log' (image_at scan_fuel h log' t) q c t) as Hchild.
  { intros u q c h IH. unfold child_denotes. destruct (np_nil c); [done|]. intros (Hne & a & p0 & Ha & Hl & Hi).
    split; [done|]. exists a, p0. split_and!; [done|by apply grow_located|by apply IH]. }
  induction t as [|c l IHl k v r IHr]; intros h q off; [done|]. intros (x & n & Hx & Hq & Ho & Hi & Hn & Hc & Hk & Hv & Hl & Hr).
  exists x, n. split_and!; try done; try lia; [by apply grow_keep|apply Hchild; [intros; by apply IHl|done]|apply Hchild; [intros; by apply IHr|done]].
Qed.

Lemma grow_stored h a t : stored_in scan_fuel h log a t -> stored_in scan_fuel h log' a t.
Proof using before. intros (q & Hl & Hi). exists q. split; [by apply grow_located|by apply grow_image]. Qed.

(** What an older image says, it said before. *)
Lemma grow_located_back a q0 x q : log !! q0 = Some x -> child_of q0 x a -> located scan_fuel log' a q -> located scan_fuel log a q /\ q <> p.
Proof using before image_of.
  intros Hx Ha. pose proof (lb_child _ _ _ before q0 x a Hx Ha) as Hc. unfold located. destruct (IsAfterImage a); [intros ->; split; [done|lia]|].
  intros (Hi & (y & Hy & Hyi) & Hfirst & Hf). assert (q <> p) as Hne.
  { intros ->. rewrite lookup_insert_eq in Hy. injection Hy as <-. lia. }
  split; [|done]. apply grow_other in Hy; [|done]. split_and!; [lia|lia|by exists y| |done].
  intros q' z Hq' Hz. apply (Hfirst q' z Hq'). by apply grow_keep.
Qed.

Lemma grow_image_back t : forall h q off, q <> p -> image_at scan_fuel h log' t q off -> image_at scan_fuel h log t q off.
Proof using before image_of.
  assert (forall t q x n c h, log !! q = Some x -> n ∈ ai_tree x -> (c = pn_left n \/ c = pn_right n) ->
    (forall q off, q <> p -> image_at scan_fuel h log' t q off -> image_at scan_fuel h log t q off) ->
    child_denotes scan_fuel log' (image_at scan_fuel h log' t) q c t -> child_denotes scan_fuel log (image_at scan_fuel h log t) q c t) as Hchild.
  { intros u q x n c h Hx Hn Hc IH. unfold child_denotes. destruct (np_nil c) eqn:En; [done|]. intros (Hne & a & p0 & Ha & Hl & Hi).
    split; [done|]. destruct (grow_located_back a q x p0 Hx) as [Hl' Hp0]; [exists n; split; [done|by exists c]|done|].
    exists a, p0. split_and!; [done|done|by apply IH]. }
  induction t as [|c l IHl k v r IHr]; intros h q off Hq; [done|]. intros (x & n & Hx & Hqr & Ho & Hi & Hn & Hc & Hk & Hv & Hl & Hr).
  apply grow_other in Hx; [|done]. pose proof (list_elem_of_lookup_2 _ _ _ Hn) as Hin.
  exists x, n. split_and!; try done; try lia;
    [eapply Hchild; [exact Hx|exact Hin|by left|intros; by apply IHl|done]|eapply Hchild; [exact Hx|exact Hin|by right|intros; by apply IHr|done]].
Qed.

(** The new image is the first of its intention. *)
Lemma grow_first : 0 <= pos < p -> (Z.to_nat (p - pos) <= scan_fuel)%nat -> primary scan_fuel log' pos p.
Proof using before image_of.
  intros Hp Hf. split_and!; [lia|lia|exists ai; split; [apply lookup_insert_eq|done]| |done].
  intros q x Hq Hx. apply grow_other in Hx; [|lia]. apply (lb_intention _ _ _ before) in Hx. lia.
Qed.

Lemma grow_before : 0 <= pos < p -> (forall a, child_of p ai a -> if IsAfterImage a then Node.Position a <= p else Node.Position a <= pos) ->
  log_before log' (pos + 1) (p + 1).
Proof using before image_of.
  intros Hp Hc. destruct before as [H1 H2 H3]. split.
  - intros q [->|Hq]%lookup_insert_is_Some'; [lia|]. apply H1 in Hq. lia.
  - intros q x [[<- <-]|[_ Hx]]%lookup_insert_Some; [lia|]. apply H2 in Hx. lia.
  - intros q x a [[<- <-]|[_ Hx]]%lookup_insert_Some Ha.
    + specialize (Hc a Ha). destruct (IsAfterImage a); lia.
    + specialize (H3 q x a Hx Ha). destruct (IsAfterImage a); lia.
Qed.
End grow.

(** What an encoded delta refers to: itself, and what it has names for. *)
Lemma encoded_children names d q : 0 <= q < 2 ^ 64 -> wide_names names -> forall base ns, encodes names d base ns ->
  forall n c a, n ∈ ns -> (c = pn_left n \/ c = pn_right n) -> np_nil c = false -> child_address q c = Some a ->
  a = mkNodeAddress q (Offset a) true \/ exists t, t <> E /\ names a t.
Proof.
  intros Hq Hw. assert (forall d off c a, enc_ptr names c d off -> np_nil c = false -> child_address q c = Some a ->
    a = mkNodeAddress q (Offset a) true \/ exists t, t <> E /\ names a t) as Hptr.
  { intros [[|c l k v r]|l c x k v y] off ptr a; simpl.
    - by intros ->.
    - intros (b & Hb & ->) _ Ha. right. destruct (Hw _ _ Hb ltac:(discriminate)) as [Hp Ho].
      assert (child_address q (ptr_to b) = Some b) as Hb'.
      { unfold ptr_to, child_address, make_address, u64, u16. destruct b as [bp bo []]; cbn [IsAfterImage Node.Position Offset np_self np_afterimage np_intention np_off default] in *;
          by rewrite !(Z.mod_small bo), (Z.mod_small bp) by lia. }
      rewrite Hb' in Ha. injection Ha as <-. by exists (T c l k v r).
    - intros -> _ [= <-]. left. unfold make_address. cbn [Offset]. unfold u64. by rewrite (Z.mod_small q). }
  induction d as [t|l c x IHx k v y IHy]; intros base ns; simpl; [intros ->; by intros n ? ? ?%not_elem_of_nil|].
  intros (na & nb & ql & qr & -> & Ha & Hb & Hl & Hr) n ptr a Hn Hc Hnil Haddr.
  apply elem_of_app in Hn as [Hn|[Hn|Hn%list_elem_of_singleton]%elem_of_app]; [by eapply IHx|by eapply IHy|]. subst n.
  destruct Hc as [->| ->]; [by eapply (Hptr x)|by eapply (Hptr y)].
Qed.

Lemma encodes_proto_ok names d : forall base ns, encodes names d base ns -> Forall proto_ok ns.
Proof.
  assert (forall d q off, enc_ptr names q d off -> np_nil q = true \/ is_Some (child_address 0 q)) as Hptr.
  { intros [[|c l k v r]|l c x k v y] off ptr; simpl; [intros ->; by left| |intros ->; right; by eexists].
    intros (a & _ & ->). right. unfold ptr_to, child_address. destruct (IsAfterImage a); by eexists. }
  induction d as [t|l c x IHx k v y IHy]; intros base ns; simpl; [intros ->; constructor|].
  intros (na & nb & ql & qr & -> & Ha & Hb & Hl & Hr).
  repeat apply Forall_app_2; [by eapply IHx|by eapply IHy|]. constructor; [|constructor]. split; by eapply Hptr.
Qed.

(** An image of a delta over the trees of the log, at its tail. *)
Section at_tail.
Context (scan_fuel : nat) (log : gmap Z AfterImage) (hor pos p : Z) (ai : AfterImage) (d : dtree) (names : NodeAddress -> tree -> Prop).
Hypothesis before : log_before log pos p.
Hypothesis image_of : ai_intention ai = pos.
Hypothesis range : 0 <= pos < p /\ p < 2 ^ 63 /\ hor <= pos.
Hypothesis scans : (Z.to_nat (p - pos) <= scan_fuel)%nat.
Hypothesis stored : forall a t, names a t -> stored_in scan_fuel hor log a t.
Hypothesis encoded : encodes names d 0 (ai_tree ai).
Hypothesis sized : 0 < dsize d <= 2 ^ 16.

Abbreviation log' := (<[p := ai]> log).

Lemma tail_written a t : names a t -> t <> E -> stored_in scan_fuel (ai_intention ai + 1) log' a t.
Proof using All.
  intros Hn _. apply grow_stored with (pos := pos); [done|]. eapply stored_in_mono; [|by apply stored]. lia.
Qed.

Lemma tail_children a : child_of p ai a -> if IsAfterImage a then Node.Position a <= p else Node.Position a <= pos.
Proof using All.
  intros (n & Hn & c & Hc & Hnil & Ha).
  assert (wide_names names) as Hw by (intros b t Hb Ht; by eapply stored_range, stored).
  destruct (encoded_children names d p ltac:(lia) Hw 0 _ encoded n c a Hn Hc Hnil Ha) as [->|(t & Hne & Hst%stored)]; [simpl; lia|].
  destruct Hst as (q & Hl & Hi). apply image_at_intention in Hi as (x & Hx & _).
  unfold located in Hl. destruct (IsAfterImage a).
  - subst q. pose proof (lb_tail _ _ _ before _ ltac:(by eexists)). lia.
  - destruct Hl as (_ & (y & Hy & <-) & _). pose proof (lb_intention _ _ _ before _ _ Hy). lia.
Qed.

Lemma tail_before : log_before log' (pos + 1) (p + 1).
Proof using All. apply grow_before; [done|done|lia|exact tail_children]. Qed.

Lemma tail_root : image_at scan_fuel (pos + 1) log' (erase d) p (dsize d - 1).
Proof using All.
  assert (exists l c a k v b, d = DN l c a k v b) as (l & c & a & k & v & b & Ed).
  { clear -sized. destruct d as [u|l c a k v b]; [simpl in *; lia|by repeat eexists]. }
  rewrite <- image_of, <- (Z.add_0_l (dsize d)).
  eapply (encoded_root scan_fuel log' p ai (lookup_insert_eq _ _ _)) with (pre := []) (post := []);
    [lia|lia|exact tail_written|exact encoded|by rewrite app_nil_r|done|lia|exact Ed].
Qed.

Lemma tail_image addr a t : (forall off, 0 <= off < 2 ^ 16 -> Offset (addr off) = off) -> assigned_at addr d 0 a t ->
  image_at scan_fuel (pos + 1) log' t p (Offset a).
Proof using All.
  intros Haddr Ha. rewrite <- image_of. eapply (encoded_assigned scan_fuel log' p ai (lookup_insert_eq _ _ _)) with (pre := []) (post := []);
    [lia|lia|exact tail_written|exact Haddr|exact encoded|by rewrite app_nil_r|done|lia|exact Ha].
Qed.

Lemma tail_assigned a t : assigned pos d 0 a t -> stored_in scan_fuel (pos + 1) log' a t.
Proof using All.
  intros Ha. exists p. split; [|eapply tail_image; [|exact Ha]; intros; by apply make_address_offset].
  pose proof (assigned_position _ _ _ _ _ Ha) as Hp. destruct (i64_small pos ltac:(lia)) as [_ Hu]. rewrite Hu in Hp.
  assert (IsAfterImage a = false) as Hk.
  { clear -Ha. revert Ha. generalize 0. clear. induction d as [u|l c x IHx k v y IHy]; intros base; simpl; [done|]. intros [[-> _]|[?|?]]; [done|eauto..]. }
  unfold located. rewrite Hk, Hp. apply grow_first; try done. lia.
Qed.
End at_tail.

Lemma dsize_size d : dsize d <= Z.of_nat (size (erase d)).
Proof. induction d as [t|l c x IHx k v y IHy]; unfold size in *; simpl; rewrite ?length_app; simpl; lia. Qed.

(** ** The node cache, when what was promised is in the log *)

Section settle.
Context {L : Type} {AS : AfterImageSource L} {AL AL' : AfterImageSourceLaws L}.
Context (std_hash : Z -> Z) (scan_fuel : nat) (hor pos p : Z) (ai : AfterImage) (Pr Pr' : NodeAddress -> tree -> Prop).
Context (w : NodeCache L) (l : L).
Hypothesis before : log_before (nc_log (AL := AL) w) pos p.
Hypothesis image_of : ai_intention ai = pos.
Hypothesis grown : src_log (AfterImageSourceLaws := AL') l = <[p := ai]> (nc_log (AL := AL) w).
Hypothesis fewer : forall a t, Pr' a t -> Pr a t.
Hypothesis redeemed : forall a t, Pr a t -> Pr' a t \/ stored_in scan_fuel hor (<[p := ai]> (nc_log (AL := AL) w)) a t.
Hypothesis unknown : m_map (nc_imap w) !! pos = None.

Lemma settle_stored a t : nc_stored (AL := AL) scan_fuel hor w a t -> nc_stored (AL := AL') scan_fuel hor (with_src l w) a t.
Proof using before grown. unfold nc_stored. unfold nc_log at 2. cbn [with_src nc_src]. rewrite grown. by apply grow_stored with (pos := pos). Qed.

Lemma settle_names a t : nc_names (AL := AL) scan_fuel hor Pr w a t -> nc_names (AL := AL') scan_fuel hor Pr' (with_src l w) a t.
Proof using before grown redeemed.
  intros [Hs|Hp]; [left; by apply settle_stored|]. destruct (redeemed a t Hp) as [?|Hs]; [by right|left].
  unfold nc_stored, nc_log. cbn [with_src nc_src]. by rewrite grown.
Qed.

Lemma settle_nd t x : nc_nd (AL := AL) scan_fuel hor Pr w t x -> nc_nd (AL := AL') scan_fuel hor Pr' (with_src l w) t x.
Proof using before grown redeemed. apply nd_weaken; [done|apply settle_stored|apply settle_names]. Qed.

Lemma nc_inv_settle : nc_inv (AL := AL) std_hash scan_fuel hor Pr w -> src_inv (AfterImageSourceLaws := AL') l ->
  Forall proto_ok (ai_tree ai) -> nc_inv (AL := AL') std_hash scan_fuel hor Pr' (with_src l w).
Proof using before image_of grown fewer redeemed unknown.
  intros [] Hl Hproto. assert (nc_log (AL := AL') (with_src l w) = <[p := ai]> (nc_log (AL := AL) w)) as Elog by exact grown.
  pose proof (grow_new _ _ _ before) as Hnew. split; rewrite ?Elog; try done.
  - intros q x [[<- <-]|[_ Hx]]%lookup_insert_Some; [done|by eapply ni_images].
  - intros q off x Hx. destruct (ni_cached q off x Hx) as [(y & Hy & Hi) Ht]. assert (q <> p) as Hq by (intros ->; by rewrite Hnew in Hy).
    split; rewrite Elog.
    + exists y. split; [by rewrite lookup_insert_ne by done|done].
    + intros t Him. apply settle_nd, Ht. by eapply grow_image_back.
  - intros i q q' Hi Hq. cbn [with_src nc_imap] in Hi. assert (i <> pos) as Hne by (intros ->; by rewrite unknown in Hi).
    apply (ni_primary i q q' Hi). destruct Hq as (Hr & (y & Hy & Hyi) & Hfirst & Hf).
    assert (q' <> p) as Hq' by (intros ->; rewrite lookup_insert_eq in Hy; injection Hy as <-; congruence).
    rewrite lookup_insert_ne in Hy by done. split_and!; [lia|lia|by exists y| |done].
    intros q'' z Hz Hzl. apply (Hfirst q'' z Hz). rewrite lookup_insert_ne; [done|]. intros <-. by rewrite Hnew in Hzl.
  - intros i q off t Hi Hpr. apply grow_image with (pos := pos); [done|]. eapply ni_promised; [done|]. by apply fewer.
Qed.
End settle.

(** What reads and appends leave alone: the matcher, and how far the scanner is. *)
Abbreviation kept := (same (fun s => (ai_matcher s, max_pos_ s))).

(** ** The append *)

Section append.
Context {G : Type} {ZG : ZLog G} {ZL : ZLogLaws G} {ZF : ZLogFillLaws G} {PC : ProtoCodec} {PL : ProtoLaws}.
Context (cache_size fuel bound : nat).
Implicit Types log : gmap Z slot.

(** What the log gets for an after image. *)
Definition image_slot (ai : AfterImage) : slot := Data (pb_serialize (mkLogEntry AFTER_IMAGE None (Some ai))).

Lemma image_slot_entry p ai : slot_entry p (image_slot ai) = Some (AFTERIMAGE_ENTRY ai).
Proof using PL. unfold slot_entry, image_slot, parse_entry. by rewrite pb_parse_serialize. Qed.

Lemma insert_image_images log p ai : image_log (<[p := image_slot ai]> log) = <[p := ai]> (image_log log).
Proof using PL.
  apply map_eq. intros q. unfold image_log. rewrite lookup_omap. destruct (decide (p = q)) as [<-|Hne].
  - rewrite !lookup_insert_eq. simpl. unfold after_image_of. by rewrite image_slot_entry.
  - by rewrite !lookup_insert_ne, lookup_omap by done.
Qed.

Lemma insert_image_intention log p ai q : log !! p = None -> logged_intention (<[p := image_slot ai]> log) q = logged_intention log q.
Proof using PL.
  intros Hn. unfold logged_intention. destruct (decide (p = q)) as [<-|Hne]; [|by rewrite lookup_insert_ne].
  rewrite lookup_insert_eq, Hn. cbn [mbind option_bind]. by rewrite image_slot_entry.
Qed.

(** The tail has to be scanned: what is behind [max_pos_] cannot be read yet. *)
Lemma AppendAfterImage_tail ai tail (s : EntryService G) : (0 < fuel)%nat -> src_ok cache_size bound s ->
  zlog_check_tail (log_ s) = (0, tail, log_ s) -> (forall q, 0 <= q < tail -> is_Some (slots s !! q)) ->
  tail < Z.of_nat bound -> tail <= max_pos_ s ->
  wp (AppendAfterImage fuel ai) (fun pos s' => pos = tail /\ src_ok cache_size bound s' /\ 0 <= tail /\ slots s !! tail = None /\
    (forall q, is_Some (slots s !! q) -> q < tail) /\ slots s' = <[tail := image_slot ai]> (slots s) /\
    kept s s') s.
Proof.
  intros Hf Hok Htail Hdense Hb Hmax.
  destruct (zlog_append_tail (pb_serialize (mkLogEntry AFTER_IMAGE None (Some ai))) (log_ s) tail Htail) as [g Hg].
  destruct (zlog_append_law (pb_serialize (mkLogEntry AFTER_IMAGE None (Some ai))) (log_ s)) as (p & g' & Ha & H0 & Hq & Hs).
  rewrite Hg in Ha. injection Ha as <- <-.
  assert (slots s !! tail = None) as Hnew.
  { destruct (slots s !! tail) eqn:E; [|done]. specialize (Hq tail ltac:(by eexists)). lia. }
  unfold AppendAfterImage. destruct fuel as [|k]; [lia|]. cbn [append_blob]. apply wp_bind. unfold wp at 1, on_log.
  rewrite Hg, decide_True by done. apply wp_ret. split_and!; [done| |done|done|done|exact Hs|done].
  apply (src_ok_append cache_size bound s _ tail (image_slot ai)); try done; [intros q; eexists; apply image_slot_entry|].
  intros q e He. apply (so_coherent _ _ _ Hok) in He as Hle. unfold log_entry, slots in *. cbn [log_ with_log] in *. rewrite Hs.
  rewrite lookup_insert_ne; [done|]. intros <-. rewrite Hnew in Hle. done.
Qed.
End append.

(** ** Reads leave the matcher and the scanner's position alone *)

Section keeping.
Context {G : Type} {ZG : ZLog G} {ZL : ZLogLaws G} {PC : ProtoCodec}.
Context (cache_size fuel bound : nat) (fuel_enough : (bound < fuel)%nat) (logged : gmap Z slot).

Lemma kept_on_log {A} (f : G -> A * G) : respects kept (on_log f).
Proof. intros s a s'. unfold on_log. destruct (f (log_ s)) as [r g]. by intros [= _ <-]. Qed.

#[local] Hint Resolve kept_on_log : respects.

Lemma kept_emplace_and_get pos e : respects kept (emplace_and_get (G := G) cache_size pos e).
Proof.
  unfold emplace_and_get, emplace, entry_cache_gc. apply respects_bind; [apply _| |intros _; apply respects_bind; [apply _| |intros _]].
  - apply respects_modify. intros s. by destruct (entry_cache_ s !! pos).
  - by apply respects_modify.
  - intros s x s'. unfold deref. destruct (entry_cache_ s !! pos); [|done]. by intros [= _ <-].
Qed.

Lemma kept_parsed pos d : respects kept (parsed (G := G) pos d).
Proof. unfold parsed. auto with respects. Qed.

Lemma kept_read_retry n pos fill : respects kept (read_retry (G := G) n pos fill).
Proof. induction n as [|n IH]; simpl; auto 12 with respects. Qed.

Lemma kept_read_image_retry n pos : respects kept (read_image_retry (G := G) n pos).
Proof. induction n as [|n IH]; simpl; auto 12 with respects. Qed.

#[local] Hint Resolve kept_emplace_and_get kept_parsed kept_read_retry kept_read_image_retry : respects.

Lemma kept_Read n pos fill : respects kept (Read (G := G) cache_size n pos fill).
Proof. unfold Read. auto 15 with respects. Qed.

Lemma kept_ReadAfterImage n pos : respects kept (ReadAfterImage (G := G) cache_size n pos).
Proof. unfold ReadAfterImage. auto 15 with respects. Qed.

#[local] Hint Resolve kept_Read : respects.

Lemma kept_AfterImageIterator n : forall pos, respects kept (AfterImageIterator_Next (G := G) cache_size n pos).
Proof. induction n as [|n IH]; intros pos; cbn [AfterImageIterator_Next]; unfold NextEntry; auto 15 with respects. Qed.

(** The reads of the log, with what they leave alone. *)
Program Definition keeping_laws (m : Matcher) (mx : Z) : @AfterImageSourceLaws (EntryService G) (es_source cache_size fuel) := {|
  src_inv s := (src_ok cache_size bound s /\ slots s = logged) /\ (ai_matcher s, max_pos_ s) = (m, mx);
  src_log := es_src_log;
|}.
Next Obligation.
  intros m mx p ai s [Hs Hk] He. eapply wp_conseq.
  { apply wp_respects; [apply kept_ReadAfterImage|].
    exact (src_read_law (AfterImageSourceLaws := es_source_laws cache_size fuel bound fuel_enough logged) p ai s Hs He). }
  intros x s' [(-> & Hs' & E) Hk']. split_and!; [done|apply Hs'|apply Hs'|by rewrite Hk'|done].
Qed.
Next Obligation.
  intros m mx pos p ai s [Hs Hk] He Hpos Hnone. eapply wp_conseq.
  { apply wp_respects; [apply kept_AfterImageIterator|].
    exact (src_next_law (AfterImageSourceLaws := es_source_laws cache_size fuel bound fuel_enough logged) pos p ai s Hs He Hpos Hnone). }
  intros x s' [(-> & Hs' & E) Hk']. split_and!; [done|apply Hs'|apply Hs'|by rewrite Hk'|done].
Qed.
End keeping.

(** ** The writer's round *)

(** No address is promised. *)
Definition no_promise (a : NodeAddress) (t : tree) : Prop := False.

Section writer.
Context {G : Type} {ZG : ZLog G} {ZL : ZLogLaws G} {ZF : ZLogFillLaws G} {PC : ProtoCodec} {PL : ProtoLaws}.
Context {SC : SliceCompare} {SL : SliceLaws} {LC : LexicalCast} {LCL : LexicalCastLaws}.
Context (std_hash : Z -> Z) (sizeof_node : Z) (scan_fuel entry_cache_size fuel bound : nat).
Context (fuel_enough : (bound < fuel)%nat) (signed_positions : Z.of_nat bound <= 2 ^ 63).

#[local] Instance the_store : NodeStore (NodeCache (EntryService G)) := db_store std_hash sizeof_node scan_fuel entry_cache_size fuel.

Abbreviation log_source log := (es_source_laws entry_cache_size fuel bound fuel_enough log).
Abbreviation log_laws log hor Pr := (node_cache_laws (AL := log_source log) std_hash sizeof_node scan_fuel hor Pr).
Abbreviation keep_laws log m mx hor Pr := (node_cache_laws (AL := keeping_laws entry_cache_size fuel bound fuel_enough log m mx)
  std_hash sizeof_node scan_fuel hor Pr).
Abbreviation db_tree log hor Pr := (db_tree std_hash sizeof_node scan_fuel entry_cache_size fuel bound fuel_enough hor Pr log).
Abbreviation replica log := (replica std_hash sizeof_node scan_fuel entry_cache_size fuel bound fuel_enough log).
Abbreviation process := (process_intention std_hash sizeof_node scan_fuel entry_cache_size fuel).
Abbreviation writer := (AfterImageWriter_round std_hash sizeof_node scan_fuel entry_cache_size fuel).

(** The tree of a commit, whatever the entry service did meanwhile. *)
Lemma ready_meanwhile log hor Pr pos w tr d x es : ready (NSL := log_laws log hor Pr) pos pos (w, tr) d x ->
  src_ok entry_cache_size bound es -> slots es = log ->
  ready (NSL := keep_laws log (ai_matcher es) (max_pos_ es) hor Pr) pos pos (with_src es w, tr) d x.
Proof using Type.
  intros Hr Hes Hsl. pose proof Hr as (δ & [[Hi _] _] & _).
  assert (es_src_log es = nc_log (AL := log_source log) w) as E.
  { destruct (ni_src _ _ _ _ _ Hi) as [_ Hl]. simpl in Hl. unfold nc_log. simpl. unfold es_src_log. by rewrite Hsl, Hl. }
  assert (nc_stored (AL := keeping_laws entry_cache_size fuel bound fuel_enough log (ai_matcher es) (max_pos_ es)) scan_fuel hor (with_src es w) =
    nc_stored (AL := log_source log) scan_fuel hor w) as Est by (unfold nc_stored; by rewrite <- E).
  revert Hr. apply (across_ready (L := log_laws log hor Pr)); [done|done|exact Est| |].
  - unfold ns_names. simpl. unfold nc_names. by rewrite Est.
  - eapply nc_inv_relog; [exact E|exact Hi|done].
Qed.

(** And back to the laws of the log. *)
Lemma ready_kept log m mx hor Pr pos w tr d x : ready (NSL := keep_laws log m mx hor Pr) pos pos (w, tr) d x ->
  ready (NSL := log_laws log hor Pr) pos pos (w, tr) d x /\ src_ok entry_cache_size bound (nc_src w) /\ slots (nc_src w) = log /\
  ai_matcher (nc_src w) = m /\ max_pos_ (nc_src w) = mx.
Proof using Type.
  intros Hr. pose proof Hr as (δ & [[Hi _] _] & _). pose proof (ni_src _ _ _ _ _ Hi) as [[Hok Hsl] Hk]. injection Hk as Hm Hx.
  split_and!; [|done..]. revert Hr. apply (across_ready (L := keep_laws log m mx hor Pr)); try done.
  assert (with_src (nc_src w) w = w) as Ew by (by destruct w).
  cut (nc_inv (AL := log_source log) std_hash scan_fuel hor Pr (with_src (nc_src w) w)); [by rewrite Ew|]. eapply nc_inv_relog; [|exact Hi|done]. done.
Qed.

(** What the cache takes for the log, and what its index cannot know yet. *)
Lemma cache_images log hor Pr w : nc_inv (AL := log_source log) std_hash scan_fuel hor Pr w -> nc_log (AL := log_source log) w = image_log log.
Proof using Type. intros Hi. destruct (ni_src _ _ _ _ _ Hi) as [_ Hl]. unfold nc_log. simpl in *. unfold es_src_log, image_log. by rewrite Hl. Qed.

Lemma not_indexed log hor Pr w pos : nc_inv (AL := log_source log) std_hash scan_fuel hor Pr w -> hor <= pos -> m_map (nc_imap w) !! pos = None.
Proof using Type.
  intros Hi Hp. destruct (m_map (nc_imap w) !! pos) as [y|] eqn:E; [|done]. exfalso.
  pose proof (ni_processed _ _ _ _ _ Hi pos (fst y)) as Hpub. rewrite E in Hpub. specialize (Hpub eq_refl). unfold published in Hpub. lia.
Qed.

(** With the image at the tail of the log, the new root of a commit is a root of
    trees the log has, and nothing is promised any more. *)
Lemma image_redeems log hor pos w tr d x ai p es : let log' := <[p := image_slot ai]> log in
  ready (NSL := log_laws log hor no_promise) pos pos (w, tr) d x -> log_before (image_log log) pos p ->
  0 <= hor <= pos -> 0 <= pos < p -> p < 2 ^ 63 -> (Z.to_nat (p - pos) <= scan_fuel)%nat ->
  ai_intention ai = pos -> encodes (nc_names (AL := log_source log) scan_fuel hor no_promise w) d 0 (ai_tree ai) -> 0 < dsize d <= 2 ^ 16 ->
  src_ok entry_cache_size bound es -> slots es = log' ->
  nc_inv (AL := log_source log') std_hash scan_fuel (pos + 1) no_promise (with_src es w) /\
  w_ptr (NSL := log_laws log' (pos + 1) no_promise) (with_src es w)
    (SetIntentionAddress pos (dsize d - 1) (mkNodePtr (Some x) None true)) (Old (erase d)).
Proof using PL.
  intros log' Hready Hbef Hhor Hp Hp63 Hf Hai Henc Hd Hes Hsl.
  destruct (publish_spec std_hash sizeof_node scan_fuel entry_cache_size fuel bound fuel_enough log hor no_promise pos w tr d x)
    as (_ & _ & Hinv & Hptr); [lia|lia|lia|done|].
  pose proof Hready as (δ & [[Hold _] _] & _).
  pose proof (cache_images log _ _ w Hinv) as Elog.
  assert (forall a t, nc_names (AL := log_source log) scan_fuel hor no_promise w a t -> stored_in scan_fuel hor (image_log log) a t) as Hst.
  { intros a t [Hs|[]]. unfold nc_stored in Hs. by rewrite Elog in Hs. }
  assert (forall a t, promise no_promise pos d a t -> no_promise a t \/ stored_in scan_fuel (pos + 1) (<[p := ai]> (nc_log (AL := log_source log) w)) a t) as Hred.
  { intros a t [[]|Ha]. right. rewrite Elog. 
    eapply (tail_assigned scan_fuel (image_log log) hor pos p ai d); [done|done|lia|done|exact Hst|exact Henc|done|exact Ha]. }
  assert (src_log (AfterImageSourceLaws := log_source log') es = <[p := ai]> (nc_log (AL := log_source log) w)) as Hgrown.
  { rewrite Elog, <- insert_image_images. simpl. unfold es_src_log. by rewrite Hsl. }
  assert (log_before (nc_log (AL := log_source log) w) pos p) as Hbef' by (by rewrite Elog).
  split.
  - eapply (nc_inv_settle (AL := log_source log) (AL' := log_source log') std_hash scan_fuel (pos + 1) pos p ai (promise no_promise pos d) no_promise);
      try done; [|by eapply encodes_proto_ok].
    eapply not_indexed; [exact Hold|lia].
  - destruct Hptr as [H1 H2]. split.
    + eapply (settle_nd (AL := log_source log) (AL' := log_source log')); [exact Hbef'|exact Hgrown|exact Hred|exact H1].
    + intros Hne. destruct (H2 Hne) as (Hdb & a & Ha & Hn). split; [done|]. exists a. split; [done|].
      eapply (settle_names (AL := log_source log) (AL' := log_source log')); [exact Hbef'|exact Hgrown|exact Hred|exact Hn].
Qed.

(** The tree of the commit, in the longer log. *)
Lemma ready_grown log hor pos w tr d x ai p es : let log' := <[p := image_slot ai]> log in
  ready (NSL := log_laws log hor no_promise) pos pos (w, tr) d x -> log_before (image_log log) pos p -> hor <= pos -> 0 <= pos < p ->
  ai_intention ai = pos -> Forall proto_ok (ai_tree ai) -> src_ok entry_cache_size bound es -> slots es = log' ->
  ready (NSL := log_laws log' hor no_promise) pos pos (with_src es w, tr) d x.
Proof using PL.
  intros log' (δ & [[Hold Hnodes] Ht] & Hx & Hhd & Hnd & Hnum) Hbef Hhor Hp Hai Hproto Hes Hsl.
  pose proof (cache_images log _ _ w Hold) as Elog.
  assert (src_log (AfterImageSourceLaws := log_source log') es = <[p := ai]> (nc_log (AL := log_source log) w)) as Hgrown.
  { rewrite Elog, <- insert_image_images. simpl. unfold es_src_log. by rewrite Hsl. }
  assert (log_before (nc_log (AL := log_source log) w) pos p) as Hbef' by (by rewrite Elog).
  assert (forall u y, w_nd (NSL := log_laws log hor no_promise) w u y -> w_nd (NSL := log_laws log' hor no_promise) (with_src es w) u y) as Hwnd.
  { intros u y. eapply (settle_nd (AL := log_source log) (AL' := log_source log')); [exact Hbef'|exact Hgrown|by left]. }
  exists δ. split_and!; try done. split; [|exact Ht]. split.
  - eapply (nc_inv_settle (AL := log_source log) (AL' := log_source log') std_hash scan_fuel hor pos p ai no_promise no_promise);
      try done.
    eapply not_indexed; [exact Hold|lia].
  - intros l an Hl. destruct (Hnodes l an Hl) as (n & Hn & ? & ? & ? & ? & ? & Hfl & Hfr). exists n. split; [exact Hn|].
    assert (forall f a, w_field (NSL := log_laws log hor no_promise) w f a -> w_field (NSL := log_laws log' hor no_promise) (with_src es w) f a) as Hf.
    { intros f [y|y a|u] [Hdb Hf]; (split; [exact Hdb|]); [exact Hf|exact Hf|]. destruct Hf as [Href Hnm]. split.
      - destruct (ref_ f); [by apply Hwnd|]. destruct Href as (? & a & ? & ?). split; [done|]. exists a. split; [done|].
        by eapply (settle_stored (AL := log_source log) (AL' := log_source log')); [exact Hbef'|exact Hgrown|].
      - intros Hne. destruct (Hnm Hne) as (? & a & ? & ?). split; [done|]. exists a. split; [done|].
        eapply (settle_names (AL := log_source log) (AL' := log_source log')); [exact Hbef'|exact Hgrown|by left|done]. }
    split_and!; auto.
Qed.

(** A log written up to its tail, with room for an image there. *)
Record log_ends (log : gmap Z slot) (tail : Z) : Prop := {
  le_tail g : zl_slots g = log -> zlog_check_tail g = (0, tail, g);
  le_written q : 0 <= q < tail -> is_Some (log !! q);
  le_room : tail < Z.of_nat bound;
}.

(** The entry service, ready for an append and for the watch of [pos]. *)
Record watching (es : EntryService G) (rv : rendezvous) (pos tail : Z) : Prop := {
  wa_scanned : tail <= max_pos_ es;
  wa_matches : matches rv (ai_matcher es);
  wa_order j : is_Some (rv_watched rv !! j) -> j < pos;
}.

(** What a round of the writer leaves: the image in the log. *)
Record image_written (log : gmap Z slot) (pos tail : Z) (d : dtree) (s s' : DBImpl G) (ai : AfterImage) : Prop := {
  iw_frame : exists w, s' = set_cache w (set_lcs [] s);
  iw_ai : ai_intention ai = pos /\ Z.of_nat (length (ai_tree ai)) = dsize d;
  iw_new : log !! tail = None /\ pos < tail /\ forall q, is_Some (log !! q) -> q < tail;
  iw_root : image_at scan_fuel (pos + 1) (image_log (<[tail := image_slot ai]> log)) (erase d) tail (dsize d - 1);
  iw_before : log_before (image_log (<[tail := image_slot ai]> log)) (pos + 1) (tail + 1);
  iw_tree : db_tree (<[tail := image_slot ai]> log) (pos + 1) no_promise s' (erase d);
}.

(** What the writer leaves for the finalizer: the tree, numbered by its intention,
    and the image of its nodes, the first of the intention. *)
Record to_finalize (log : gmap Z slot) (hor pos tail : Z) (d : dtree) (x : loc) (t : PersistentTree) (w : NodeCache (EntryService G)) : Prop := {
  tf_ready : ready (NSL := log_laws log hor no_promise) pos pos (w, t) d x;
  tf_range : 0 <= hor <= pos /\ pos < tail /\ tail < 2 ^ 63 /\ 0 < dsize d <= 2 ^ 16;
  tf_tree : pt_intention t = Some pos /\ pt_afterimage t = None;
  tf_primary : primary scan_fuel (image_log log) pos tail;
  tf_images addr a u : (forall off, 0 <= off < 2 ^ 16 -> Offset (addr off) = off) -> assigned_at addr d 0 a u ->
    image_at scan_fuel (pos + 1) (image_log log) u tail (Offset a);
}.

Lemma write_after_image_spec log hor pos tr d x tail rv (s : DBImpl G) :
  ready (NSL := log_laws log hor no_promise) pos pos (cache_ s, tr) d x -> pt_intention tr = Some pos -> pt_afterimage tr = None ->
  root_ s = SetIntentionAddress pos (dsize d - 1) (mkNodePtr (Some x) None true) ->
  log_ends log tail -> log_before (image_log log) pos tail -> 0 < pos -> is_Some (log !! pos) -> (Z.to_nat (tail - pos) <= scan_fuel)%nat ->
  src_ok entry_cache_size bound (nc_src (cache_ s)) -> slots (nc_src (cache_ s)) = log ->
  watching (nc_src (cache_ s)) rv pos tail -> 0 <= hor <= pos -> 0 < dsize d <= 2 ^ 16 -> (height (erase d) < fuel)%nat ->
  wp (write_after_image std_hash sizeof_node scan_fuel entry_cache_size fuel tr) (fun _ s' => exists ai t, image_written log pos tail d s s' ai /\
    watching (nc_src (cache_ s')) (rv_step (Watch pos (postorder d) t) rv) (pos + 1) tail /\
    to_finalize (<[tail := image_slot ai]> log) hor pos tail d x t (cache_ s')) (set_lcs [] s).
Proof using All.
  intros Hready Hti Hta Hroot [Htail Hwritten Hroom] Hbef Hpos Hslot Hnear Hok Hsl [Hscan Hm Hord] Hhor Hd Hf.
  set (w := cache_ s) in *. set (es := nc_src w) in *.
  pose proof (ready_meanwhile log hor no_promise pos w tr d x es Hready Hok Hsl) as Hr1.
  assert (with_src es w = w) as Ew by (unfold es; by destruct w). rewrite Ew in Hr1.
  destruct (zlog_tail_law (log_ es)) as (t0 & Ht0 & Hbelow). rewrite Htail in Ht0 by exact Hsl. injection Ht0 as <-.
  change (zl_slots (log_ es)) with (slots es) in Hbelow. rewrite Hsl in Hbelow.
  pose proof (Hbelow pos Hslot) as Hpt. pose proof (i64_small pos ltac:(lia)) as [Hi64 Hu].
  unfold write_after_image. apply wp_bind. unfold Intention_pos. rewrite Hti. apply wp_ret, wp_bind, wp_db_tree. eapply wp_conseq.
  { eapply (SerializeAfterImage_spec (NSL := keep_laws log (ai_matcher es) (max_pos_ es) hor no_promise) pos);
      [by rewrite Hu|apply next_delta_id; simpl; lia|exact Hr1|lia|exact Hf]. }
  intros [ai delta] [w1 tr1] (Hai & Henc & -> & Hr2 & Hext). rewrite <- (wext_names _ _ (sext_w _ _ Hext)) in Henc.
  pose proof (sext_intention _ _ Hext) as Eti. pose proof (sext_afterimage _ _ Hext) as Eta. cbn [fst snd] in Henc, Eti, Eta.
  destruct (ready_kept log (ai_matcher es) (max_pos_ es) hor no_promise pos w1 tr1 d x Hr2) as (Hr3 & Hok1 & Hsl1 & Em & Ex).
  cbn [fst snd]. apply wp_bind, wp_assert; [by apply Z.eqb_eq|].
  apply wp_bind. unfold on_matcher, on_es, on_cache, EntryService.on_matcher. apply wp_zoom, wp_zoom, wp_zoom. eapply wp_conseq.
  { apply (watch_spec rv _ pos (postorder d) tr1); [rewrite <- Em in Hm; exact Hm|]. simpl. split_and!; [lia|congruence|congruence|done]. }
  intros [] m1 Hm1. set (es1 := with_matcher m1 (nc_src w1)).
  assert (src_ok entry_cache_size bound es1) as Hok1' by (by destruct Hok1).
  apply wp_bind, wp_zoom, wp_zoom. eapply wp_conseq.
  { apply (AppendAfterImage_tail entry_cache_size fuel bound ai tail es1); [lia|exact Hok1'|apply Htail; exact Hsl1| |done|].
    - intros q Hq. change (slots es1) with (slots (nc_src w1)). rewrite Hsl1. by apply Hwritten.
    - change (tail <= max_pos_ (nc_src w1)). by rewrite Ex. }
  intros q es2 (-> & Hok2 & H0 & Hnew & _ & Hsl2 & Hk2). injection Hk2 as Em2 Ex2. change (slots es1) with (slots (nc_src w1)) in Hnew, Hsl2. rewrite Hsl1 in Hnew, Hsl2.
  apply wp_ret. exists ai, tr1.
  destruct (image_redeems log hor pos w1 tr1 d x ai tail es2 Hr3 Hbef) as [Hinv Hptr]; [lia|lia|lia|done|done|exact Henc|done|done|done|].
  assert (forall a t, nc_names (AL := log_source log) scan_fuel hor no_promise w1 a t -> stored_in scan_fuel hor (image_log log) a t) as Hst.
  { intros a t [Hs|[]]. unfold nc_stored, nc_log in Hs. simpl in Hs. unfold es_src_log in Hs. by rewrite Hsl1 in Hs. }
  split_and!.
  - split.
    + by eexists.
    + split; [done|]. pose proof (encodes_length _ _ _ _ Henc). lia.
    + by split_and!.
    + rewrite insert_image_images. eapply (tail_root scan_fuel (image_log log) hor pos tail ai d); [done|done|lia|done|exact Hst|exact Henc|done].
    + rewrite insert_image_images. eapply (tail_before scan_fuel (image_log log) hor pos tail ai d); [done|done|lia|done|exact Hst|exact Henc|done].
    + split; [exact Hinv|]. simpl. rewrite Hroot. exact Hptr.
  - split.
    + change (tail <= max_pos_ es2). rewrite Ex2. change (tail <= max_pos_ (nc_src w1)). by rewrite Ex.
    + change (matches (rv_step (Watch pos (postorder d) tr1) rv) (ai_matcher es2)). rewrite Em2. exact Hm1.
    + intros j Hj. cbn [rv_step rv_watched] in Hj. apply lookup_insert_is_Some' in Hj as [<-|Hj]; [lia|]. apply Hord in Hj. lia.
  - split; [|lia|by rewrite Eti, Eta|rewrite insert_image_images; eapply grow_first; [exact Hbef|exact Hai|lia|done]|].
    + apply (ready_grown log hor pos w1 tr1 d x ai tail es2); try done; try lia. by eapply encodes_proto_ok.
    + intros addr a u Haddr Ha. rewrite insert_image_images.
      eapply (tail_image scan_fuel (image_log log) hor pos tail ai d); [done|done|lia|done|exact Hst|exact Henc|done|exact Haddr|exact Ha].
Qed.

(** The log an image of [pos] was appended to can be opened at [pos]. *)
Lemma image_recoverable log pos tail d s s' ai st n : image_written log pos tail d s s' ai -> log_ends log tail ->
  log_before (image_log log) pos tail -> 0 < dsize d -> rbtree (erase d) -> to_map (erase d) = ls_map st ->
  replica (<[tail := image_slot ai]> log) s' st n -> last (ls_commits st) = Some pos ->
  recoverable scan_fuel (<[tail := image_slot ai]> log) pos tail ai (erase d) (ls_commits st).
Proof using PL.
  intros [_ [Hai Hlen] (Hnew & Hpt & _) Hroot Hbef' Hdb] [_ Hwritten _] Hbef Hd Hrb Hm Hr Hlast.
  destruct (db_tree_slots std_hash sizeof_node scan_fuel entry_cache_size fuel bound fuel_enough _ _ _ _ _ Hdb) as [Hok Hsl].
  set (log' := <[tail := image_slot ai]> log) in *. assert (log' !! tail = Some (image_slot ai)) as Ht by apply lookup_insert_eq.
  split; try (by apply Hr); try done.
  - split; [|split].
    + apply (re_logged _ _ _ _ _ _ _ _ _ _ _ Hr). by apply last_elem.
    + split_and!; [done|unfold log'; by rewrite insert_image_images, lookup_insert_eq|done|].
      intros q x Hq Hx Hxi. unfold log' in Hx. rewrite insert_image_images, lookup_insert_ne in Hx by lia.
      apply (lb_intention _ _ _ Hbef) in Hx. lia.
    + intros p' q' x Hp' _ (_ & Hx & Hxi & _). apply (lb_intention _ _ _ Hbef') in Hx. lia.
  - intros r x Hx. rewrite <- Hsl in Hx. split; [by eapply (so_range _ _ _ Hok)|].
    destruct (so_dense _ _ _ Hok r r) as [e He]; [by eexists| |].
    + assert (0 <= r); [|lia]. by eapply (so_range _ _ _ Hok).
    + unfold log_entry in He. rewrite Hx in He. by exists e.
  - intros r Hr'. apply lookup_insert_is_Some'. right. apply Hwritten. lia.
  - destruct Hdb as [Hinv _]. pose proof (ni_images _ _ _ _ _ Hinv) as Himg. unfold nc_log in Himg. simpl in Himg.
    unfold es_src_log in Himg. by rewrite Hsl in Himg.
  - destruct (ai_tree ai) eqn:E; [simpl in Hlen; lia|]. rewrite Hlen. exact Hroot.
  - rewrite Hm. apply Hr.
Qed.

(** An instance that is at a state of the log and waits for nothing of it: every
    node of its tree is in an after image of the log. *)
Record settled (log : gmap Z slot) (s : DBImpl G) (st : log_state) (n : nat) (tail : Z) : Prop := {
  sd_replica : replica log s st n;
  sd_tree : exists t, db_tree log (last_intention_processed_ s + 1) no_promise s t /\ rbtree t /\ (size t <= n)%nat /\ to_map t = ls_map st;
  sd_before : log_before (image_log log) (last_intention_processed_ s + 1) tail;
  sd_idle : lcs_trees_ s = [] /\ stop_ s = false;
}.

Lemma log_before_mono images pos pos' p : pos <= pos' -> log_before images pos p -> log_before images pos' p.
Proof.
  intros Hp [H1 H2 H3]. split; [done| |].
  - intros q ai Hq. specialize (H2 q ai Hq). lia.
  - intros q ai a Hq Ha. specialize (H3 q ai a Hq Ha). destruct (IsAfterImage a); lia.
Qed.

Lemma log_step_commits log st pos i st' : log_step log st pos i = Some (st', true) -> st' = commit_at pos i st.
Proof. unfold log_step. destruct (_ || _); [by intros [= <-]|]. destruct (bool_decide _); [|done]. destruct (conflicting _ _ _); [done|]. by intros [= <-]. Qed.

(** A round of the writer with one tree on its list. *)
Lemma writer_one (Q : DBImpl G -> Prop) s tr : lcs_trees_ s = [tr] -> stop_ s = false ->
  wp (write_after_image std_hash sizeof_node scan_fuel entry_cache_size fuel tr) (fun _ s' => Q s') (set_lcs [] s) ->
  wp writer (fun more s' => more = true /\ Q s') s.
Proof using Type.
  intros Ht Hs Hw. unfold AfterImageWriter_round. apply wp_bind. unfold wp at 1, wait_until. rewrite Ht. simpl.
  apply wp_bind, wp_get. rewrite Hs, Ht. apply wp_bind, wp_modify, wp_bind. cbn [write_after_images]. apply wp_bind.
  eapply wp_conseq; [exact Hw|]. intros [] s' HQ. by apply wp_ret, wp_ret.
Qed.

(** What the two rounds make of a commit. *)
Record wrote_commit (log : gmap Z slot) (hor pos tail : Z) (st' : log_state) (n' : nat) (rv : rendezvous) (s'' : DBImpl G) (ai : AfterImage)
    (d : dtree) (x : loc) (t : PersistentTree) : Prop := {
  wc_ai : ai_intention ai = pos;
  wc_settled : settled (<[tail := image_slot ai]> log) s'' st' n' (tail + 1);
  wc_watching : watching (nc_src (cache_ s'')) (rv_step (Watch pos (postorder d) t) rv) (pos + 1) tail;
  wc_finalize : to_finalize (<[tail := image_slot ai]> log) hor pos tail d x t (cache_ s'');
  wc_recoverable : recoverable scan_fuel (<[tail := image_slot ai]> log) pos tail ai (erase d) (ls_commits st');
  wc_tree : (size (erase d) <= n')%nat /\ to_map (erase d) = ls_map st' /\ last_intention_processed_ s'' = pos /\
    root_ s'' = SetIntentionAddress pos (dsize d - 1) (mkNodePtr (Some x) None true);
}.

(** The premises of a commit that is to be written. *)
Record commit_due (log : gmap Z slot) (s : DBImpl G) (st : log_state) (n : nat) (tail pos : Z) (i : Intention) (st' : log_state) : Prop := {
  cd_settled : settled log s st n tail;
  cd_ends : log_ends log tail;
  cd_logged : logged_intention log pos = Some i;
  cd_next : intention_iterator_ s <= pos /\ forall q, intention_iterator_ s <= q < pos -> logged_intention log q = None;
  cd_ops : Forall op_user (pi_ops (intention_ i));
  cd_size : (S (n + length (pi_ops (intention_ i))) < fuel)%nat /\ Z.of_nat (S (n + length (pi_ops (intention_ i)))) <= 2 ^ 16 /\
    (length (ls_commits st) < fuel)%nat;
  cd_near : (Z.to_nat (tail - pos) <= scan_fuel)%nat;
  cd_commits : log_step log st pos i = Some (st', true);
}.

Lemma commit_writes log s st n tail pos i st' : let n' := S (n + length (pi_ops (intention_ i))) in
  commit_due log s st n tail pos i st' ->
  wp process (fun more s' => more = true /\ exists tr, lcs_trees_ s' = [tr] /\
    forall es rv, src_ok entry_cache_size bound es -> slots es = log -> watching es rv pos tail ->
      wp writer (fun more s'' => more = true /\ exists ai d x t,
        wrote_commit log (last_intention_processed_ s + 1) pos tail st' n' rv s'' ai d x t) (set_cache (with_src es (cache_ s')) s')) s.
Proof using All.
  intros n' [[Hr (t & Hdb & Hrb & Hsz & Hm) Hbef [Hlcs Hstop]] Hends Hi [Hit Hnone] Hops (Hf & Hn16 & Hcs) Hnear Hstep].
  destruct (re_processed _ _ _ _ _ _ _ _ _ _ _ Hr) as [[? ?] ?].
  eapply wp_conseq; [by eapply (process_tree_step std_hash sizeof_node scan_fuel entry_cache_size fuel bound fuel_enough signed_positions log s st n no_promise t)|].
  intros more s' (-> & Hr' & Hit' & Hl' & Hst' & Hout). destruct (Hout eq_refl) as (d & x & tr & Hrb' & Hsz' & Hm' & [Htr Hti Hta Hroot Hd Hready]).
  rewrite Hlcs in Htr. split; [done|]. exists tr. split; [done|]. intros es rv Hes Hsl Hw.
  set (s2 := set_cache (with_src es (cache_ s')) s').
  apply (log_before_mono _ _ pos) in Hbef; [|lia]. pose proof (height_size (erase d)). pose proof (dsize_size d).
  assert (size (erase d) <= n')%nat as Hszn by exact Hsz'.
  assert (ready (NSL := log_laws log (last_intention_processed_ s + 1) no_promise) pos pos (cache_ s2, tr) d x) as Hr2.
  { eapply ready_kept. by apply ready_meanwhile. }
  eapply wp_conseq.
  { apply (writer_one (fun s'' => exists ai t, image_written log pos tail d s2 s'' ai /\
      watching (nc_src (cache_ s'')) (rv_step (Watch pos (postorder d) t) rv) (pos + 1) tail /\
      to_finalize (<[tail := image_slot ai]> log) (last_intention_processed_ s + 1) pos tail d x t (cache_ s'')) s2 tr); [done|by simpl; rewrite Hst'|].
    eapply (write_after_image_spec log (last_intention_processed_ s + 1) pos tr d x tail rv s2); try done; [lia| |lia|lia|lia].
    unfold logged_intention in Hi. apply bind_Some in Hi as (y & Hy & _). by eexists. }
  intros more s'' (-> & ai & t' & Hwr & Hw' & Hfin). split; [done|]. exists ai, d, x, t'.
  set (log' := <[tail := image_slot ai]> log). pose proof Hwr as [[w Ew] [Hai _] (Hnew & _ & _) _ Hbef' Hdb'].
  assert (replica log' s'' st' n') as Hr''.
  { eapply (replica_frame std_hash sizeof_node scan_fuel entry_cache_size fuel bound fuel_enough log log' s' s'' st' n' no_promise (erase d)); try done;
      rewrite ?Ew; try done.
    - intros p Hp. unfold log'. by rewrite insert_image_intention.
    - rewrite Hl', <- Ew. exact Hdb'. }
  assert (last_intention_processed_ s'' = pos) as El by (by rewrite Ew).
  split; [done| |exact Hw'|exact Hfin| |].
  - split; rewrite ?El; [done|by exists (erase d)|exact Hbef'|rewrite Ew; split; [done|by rewrite <- Hstop]].
  - apply (image_recoverable log pos tail d s2 s'' ai st' n'); try done. rewrite (log_step_commits _ _ _ _ _ Hstep). simpl. by rewrite last_snoc.
  - split_and!; [done|done|done|]. rewrite Ew. exact Hroot.
Qed.

(** C5: a commit becomes durable. From an instance all of whose tree is in the
    log, the round of the processor that commits an intention, then, whatever the
    entry service read or scanned in between, the round of the writer: the log
    gets one after image of the intention at its tail, every address the commit
    handed out is a node the log has, so that the instance is again one all of
    whose tree is in the log, the matcher watches the intention, and a database
    opened on that log starts from the state of this commit.
    The entry cache can hold the whole log. *)
Theorem commit_becomes_durable log s st n tail pos i st' : let n' := S (n + length (pi_ops (intention_ i))) in
  commit_due log s st n tail pos i st' ->
  wp process (fun more s' => more = true /\ exists tr, lcs_trees_ s' = [tr] /\
    forall es rv, src_ok entry_cache_size bound es -> slots es = log -> watching es rv pos tail ->
      wp writer (fun more s'' => more = true /\ exists ai delta t, let log' := <[tail := image_slot ai]> log in
          ai_intention ai = pos /\ settled log' s'' st' n' (tail + 1) /\
          watching (nc_src (cache_ s'')) (rv_step (Watch pos delta t) rv) (pos + 1) tail /\
          forall create imap g tail', zl_slots g = log' -> zlog_check_tail g = (0, tail', g) -> tail' < Z.of_nat bound ->
            exists s4 latest, Open std_hash sizeof_node scan_fuel entry_cache_size fuel create imap g = Ok (Some (s4, Some latest)) /\
              replica (filled (pos - 1) tail' log') s4 (mkLogState (ls_map st') (ls_commits st') []) n' /\
              last_intention_processed_ s4 = pos)
        (set_cache (with_src es (cache_ s')) s')) s.
Proof using All.
  intros n' Hdue. eapply wp_conseq; [by eapply commit_writes|]. intros more s' (-> & tr & Htr & Hw). split; [done|]. exists tr. split; [done|].
  intros es rv Hes Hsl Hwa. eapply wp_conseq; [by apply Hw|]. intros more s'' (-> & ai & d & x & t & [Hai Hset Hwatch _ Hrec (Hsz & Hm & _)]).
  split; [done|]. exists ai, (postorder d), t. split_and!; [done..|]. intros create imap g tail' Hg Htail' Hb. rewrite <- Hg in Hrec.
  destruct (Open_spec std_hash sizeof_node scan_fuel entry_cache_size fuel bound fuel_enough signed_positions ltac:(apply (so_bound _ _ _ Hes))
    create imap g tail' pos tail ai (erase d) (ls_commits st') n' Hrec Htail' Hb Hsz) as (s4 & latest & Hopen & _ & Hr4 & _ & Hl4).
  exists s4, latest. rewrite Hg, Hm in Hr4. by split_and!.
Qed.
End writer.

(** ** A concrete run *)

(** A database opened on a log is settled. *)
Lemma restored_settled {G} {ZG : ZLog G} {ZL : ZLogLaws G} {PC : ProtoCodec} {SC : SliceCompare} {SL : SliceLaws} {LC : LexicalCast}
    {LCL : LexicalCastLaws} std_hash sizeof_node scan_fuel entry_cache_size fuel bound fuel_enough log imap point (es : EntryService G) t cs n tail :
  restorable scan_fuel entry_cache_size bound log es point t cs -> (RBTree.size t <= n)%nat ->
  log_before (image_log log) (ai_intention (after_image point) + 1) tail ->
  exists s, new_db std_hash sizeof_node imap point es = Ok s /\
    settled std_hash sizeof_node scan_fuel entry_cache_size fuel bound fuel_enough log s (mkLogState (to_map t) cs []) n tail /\
    intention_iterator_ s = replay_start_pos point.
Proof.
  intros Hre Hn Hbef.
  destruct (restored_replica std_hash sizeof_node scan_fuel entry_cache_size fuel bound fuel_enough log imap point es t cs n Hre Hn)
    as (s & Hs & Hr & Hit & Hlast & _).
  destruct (new_db_spec std_hash sizeof_node scan_fuel entry_cache_size fuel bound fuel_enough _ no_promise log imap point es t
    (rs_holds _ _ _ _ _ _ _ _ Hre)) as (s1 & Hs1 & Hdb & _). rewrite Hs in Hs1. injection Hs1 as <-.
  exists s. split_and!; [done| |done]. split; rewrite ?Hlast; [done|exists t|done|].
  - split_and!; [done|by eapply rs_valid|done|done].
  - unfold new_db in Hs. destruct (CacheAfterImage _ _ _ _ _) as [[root w]| |]; [|done..]. by injection Hs as <-.
Qed.

Lemma tree_log_before ps i t : (length ps < 8)%nat -> 0 <= i ->
  log_before (image_log (slots (stored_es (tree_log ps i t)))) (i + 1) (Z.of_nat (length ps) + 2).
Proof.
  intros Hps Hi. assert (forall q x, image_log (slots (stored_es (tree_log ps i t))) !! q = Some x ->
    q = Z.of_nat (length ps) + 1 /\ x = mkAfterImage i (image_nodes t 0)) as Him.
  { intros q x Hx. change (es_src_log (stored_es (tree_log ps i t)) !! q = Some x) in Hx. rewrite tree_log_images in Hx.
    destruct (decide _) as [->|]; [by injection Hx as <-|done]. }
  split.
  - intros q [x Hx]. apply Him in Hx as [-> _]. lia.
  - intros q x Hx. apply Him in Hx as [_ ->]. simpl. lia.
  - intros q x a Hx Ha. apply Him in Hx as [-> ->]. destruct Ha as (n & Hn & c & Hc & Hnil & Hca).
    destruct (encoded_children no_promise (all_new t) (Z.of_nat (length ps) + 1) ltac:(lia) ltac:(by intros b u []) 0 _ (image_nodes_encode _ _ _) n c a Hn Hc Hnil Hca)
      as [->|(u & _ & [])]. simpl. lia.
Qed.

Lemma late_ends : log_ends 10 (slots late_es) 6.
Proof.
  split; [| |lia].
  - intros g Hg. apply (mem_log_slots g (log_ late_es)) in Hg. by subst g.
  - intros q Hq. unfold slots. cbn [zl_slots mem_log_laws]. rewrite mem_log_lookup.
    destruct (Z.ltb_spec q 0); [lia|]. apply lookup_lt_is_Some. simpl. lia.
Qed.

Lemma late_before : log_before (image_log (slots late_es)) (ai_intention (after_image late_point) + 1) 6.
Proof. apply (tree_log_before late_puts 1 demo_users); [simpl; lia|lia]. Qed.

(** The scanner has reached the tail, and has matched nothing. *)
Definition scanned_es : EntryService MemLog := with_max_pos 6 late_es.

Lemma scanned_ok : src_ok 10 10 scanned_es.
Proof.
  destruct (stored_src_ok 10 10 (tree_log late_puts 1 demo_users)) as [H1 H2 H3 H4]; [simpl; lia|lia|lia|]. split; [exact H1| |exact H3|exact H4].
  intros p Hp. destruct (H2 p Hp) as [? Hm]. split; [done|]. simpl in *. lia.
Qed.

Lemma late_due s : settled (fun z => z) 100 100 10 20 10 late_fuel (slots late_es) s (mkLogState (to_map demo_users) [1] []) 2 6 ->
  intention_iterator_ s = 2 ->
  commit_due (fun z => z) 100 100 10 20 10 late_fuel (slots late_es) s (mkLogState (to_map demo_users) [1] []) 2 6 2
    (intention_at (put_intention 1 "b" "2") 2)
    (commit_at 2 (intention_at (put_intention 1 "b" "2") 2) (mkLogState (to_map demo_users) [1] [])).
Proof.
  intros Hs Hit. split; [exact Hs|exact late_ends|exact (late_logged 1 _ eq_refl)| |apply late_put_user|simpl; lia|simpl; lia|reflexivity].
  rewrite Hit. split; [done|]. intros q Hq. lia.
Qed.

Lemma commit_becomes_durable_witness : exists s,
  wp (process_intention (fun z => z) 100 100 10 20) (fun more s' => more = true /\
    wp (AfterImageWriter_round (fun z => z) 100 100 10 20) (fun more s'' => more = true /\ exists ai, ai_intention ai = 2 /\
        settled (fun z => z) 100 100 10 20 10 late_fuel (<[6 := image_slot ai]> (slots late_es)) s''
          (commit_at 2 (intention_at (put_intention 1 "b" "2") 2) (mkLogState (to_map demo_users) [1] [])) 4 7)
      (set_cache (with_src scanned_es (cache_ s')) s')) s.
Proof.
  destruct (restored_settled (fun z => z) 100 100 10 20 10 late_fuel (slots late_es) 4 late_point late_es demo_users [1] 2 6)
    as (s & _ & Hs & Hit); [exact late_restorable|by vm_compute|exact late_before|].
  exists s. eapply wp_conseq.
  { apply (commit_becomes_durable (fun z => z) 100 100 10 20 10 late_fuel late_signed (slots late_es) s
      (mkLogState (to_map demo_users) [1] []) 2 6 2 (intention_at (put_intention 1 "b" "2") 2)
      (commit_at 2 (intention_at (put_intention 1 "b" "2") 2) (mkLogState (to_map demo_users) [1] []))).
    by apply late_due. }
  intros more s' (-> & tr & _ & Hw). split; [done|]. eapply wp_conseq.
  { apply (Hw scanned_es (Matcher.mkRendezvous ∅ ∅ []) scanned_ok eq_refl). split; [done|exact new_matches|].
    intros j Hj. change (is_Some ((∅ : gmap Z (list loc * PersistentTree)) !! j)) in Hj. rewrite lookup_empty in Hj. by destruct Hj. }
  intros more s'' (-> & ai & delta & t & Hai & Hset & _). split; [done|]. by exists ai.
Defined.
