(* ===== verification/Finalizer.v ===== *)
(** The after image finalizer: the new nodes of a commit get the addresses they
    have in the after image, the index learns where the image is, and the nodes
    go into the cache (src/src/db/db_impl.cc, [AfterImageFinalizerEntry],
    [SetDeltaPosition] of persistent_tree.cc, [ApplyAfterImageDelta] of
    node_cache.cc). *)
From S2P Require Import Prelude Slice RBTree Node Proto PersistentTree Delta PathCopy TreeSpec TransactionTree Infect Intention Transaction.
From S2P Require Import Iterator IteratorSpec LruCache NodeCache NodeCacheSpec Images Serialize Vacuum Matcher EntryService EntryServiceSpec MemLog EntryServiceProps.
From S2P Require Import TxnFinder CommitIndex DBImpl DBWalks DBImplSpec Conflict Publish DBProps ConflictProps Replica ReplicaProps Restore OwnCommit Writer.

(** ** The pointers of the delta *)

(** Addresses in the image at [q]. *)
Definition in_image (q off : Z) : NodeAddress := make_address q off true.

Section positions.
Context {W : Type} {NS : NodeStore W} {NSL : NodeStoreLaws W} {SC : SliceCompare} {SL : SliceLaws}.
Context (r : Z).
Hypothesis r_i64 : i64 (u64 r) = r.
Hypothesis r_nil : delta_id ns_hor r.
Context (pos q : Z).
Hypothesis pos_range : 0 <= pos < q /\ q < 2 ^ 64.

Abbreviation sinv := (sinv r False).

Lemma set_delta_ptr_spec δ l an sd d off s : sinv δ s -> δ !! l = Some an -> points pos (an_child sd an) d off ->
  (forall l, l ∈ dlocs d -> is_Some (δ !! l)) -> (0 < dsize d -> 0 <= off < 2 ^ 16) ->
  wp (set_delta_ptr sd l q) (fun _ s' => exists p, points_at (in_image q) p d off /\
    sinv (<[l := an_set_child sd p an]> δ) s' /\ sext s s') s.
Proof.
  intros Hs Hl Hp Hdom Hoff. pose proof (points_aims _ _ _ _ Hp) as Haims. unfold set_delta_ptr.
  apply wp_bind. eapply wp_conseq; [by eapply (wp_ref_child_notrace_aims r r_nil)|]. intros x s1 (Hs1 & He1 & Hx).
  pose proof (lands_case r r_nil δ s1.1 d x (proj1 Hs1) Hx Hdom) as Hc.
  destruct d as [t|l' c a k v b].
  - destruct Hc as (_ & n & Hn & Hr). apply wp_bind. eapply wp_rid_of; [done|]. apply wp_bind.
    eapply (wp_tree_rid r False); [done|]. rewrite decide_False by done. apply wp_ret.
    exists (an_child sd an). split; [exact Hp|]. split; [|done]. rewrite insert_id; [done|]. rewrite Hl. f_equal. by destruct sd, an.
  - destruct Hc as (_ & _ & n & Hn & Hr). apply wp_bind. eapply wp_rid_of; [done|]. apply wp_bind.
    eapply (wp_tree_rid r False); [done|]. rewrite decide_True by done.
    apply wp_bind. eapply (wp_get_child r False); [done..|]. intros p [Hdb Hpw]. simpl in Hp. rewrite Hp in Hpw.
    destruct Hpw as (Href & Hlive & Haddr). apply wp_bind. unfold ConvertToAfterImage. rewrite Haddr.
    assert (0 <= off < 2 ^ 16) as Ho by (apply Hoff, dsize_DN).
    apply wp_bind, wp_assert; [done|]. apply wp_bind, wp_assert.
    { apply Z.ltb_lt. simpl. unfold u64. rewrite Z.mod_small; lia. }
    apply wp_ret. eapply wp_conseq; [eapply (wp_put_child r False r_nil δ l an sd _ (Self l' (in_image q off))); [done..|]|].
    { split; [done|]. split_and!; [exact Href|exact Hlive|]. simpl. unfold in_image, make_address. f_equal. f_equal.
      unfold u16. by rewrite Z.mod_mod. }
    intros _ s3 [Hs3 He3]. exists (Self l' (in_image q off)). split_and!; [done|done|]. by etransitivity.
Qed.
Lemma SetDeltaPosition_app xs ys (s : W * PersistentTree) :
  SetDeltaPosition (xs ++ ys) q s = (SetDeltaPosition xs q;; SetDeltaPosition ys q) s.
Proof.
  revert s. induction xs as [|x xs IH]; intros s; [done|]. cbn [app SetDeltaPosition]. unfold mbind, M_bind.
  destruct (set_delta_ptr SideL x q s) as [[[] s1]| |]; [|done..].
  destruct (set_delta_ptr SideR x q s1) as [[[] s2]| |]; [|done..]. rewrite IH. reflexivity.
Qed.

Lemma wp_SetDeltaPosition_app xs ys (Q : unit -> W * PersistentTree -> Prop) s :
  wp (SetDeltaPosition xs q) (fun _ s' => wp (SetDeltaPosition ys q) Q s') s -> wp (SetDeltaPosition (xs ++ ys) q) Q s.
Proof. intros H. unfold wp at 1. rewrite SetDeltaPosition_app. by apply wp_bind. Qed.

Lemma SetDeltaPosition_spec d : forall base δ s, sinv δ s -> numbered δ pos d base -> NoDup (dlocs d) -> 0 <= base -> base + dsize d <= 2 ^ 16 ->
  wp (SetDeltaPosition (postorder d) q) (fun _ s' => sext s s' /\ exists δ', sinv δ' s' /\ numbered_at δ' (in_image q) d base /\
    forall l, l ∉ dlocs d -> δ' !! l = δ !! l) s.
Proof.
  induction d as [t|l c a IHa k v b IHb]; intros base δ s Hs Hnum Hnd H0 Hb.
  { apply wp_ret. split; [done|]. by exists δ. }
  destruct Hnum as (pa & pb & Hl & Hpa & Hpb & Ha & Hbn). simpl in Hnd.
  apply NoDup_cons in Hnd as [Hlab (Hna & Hdis & Hnb)%NoDup_app]. pose proof (dsize_nonneg a). pose proof (dsize_nonneg b). cbn [dsize] in Hb.
  cbn [postorder]. apply wp_SetDeltaPosition_app. eapply wp_conseq; [apply (IHa base δ s); [done..|lia]|].
  intros [] s1 (He1 & δ1 & Hs1 & Hna1 & Hsame1).
  apply wp_SetDeltaPosition_app. eapply wp_conseq.
  { apply (IHb (base + dsize a) δ1 s1); [done| |done|lia|lia]. eapply numbered_ext; [|exact Hbn].
    intros x Hx. apply Hsame1. intros ?. by eapply Hdis. }
  intros [] s2 (He2 & δ2 & Hs2 & Hnb2 & Hsame2).
  assert (δ2 !! l = Some (AN c k v pa pb)) as Hl2 by (rewrite Hsame2, Hsame1 by set_solver; done).
  assert (numbered_at δ2 (in_image q) a base) as Hna2.
  { eapply numbered_ext; [|exact Hna1]. intros x Hx. apply Hsame2. intros ?. by eapply Hdis. }
  cbn [SetDeltaPosition]. apply wp_bind. eapply wp_conseq.
  { eapply (set_delta_ptr_spec δ2 l _ SideL a); [exact Hs2|exact Hl2|exact Hpa| |lia]. intros x Hx. by eapply numbered_locs. }
  intros [] s3 (pa' & Hpa' & Hs3 & He3). apply wp_bind. eapply wp_conseq.
  { eapply (set_delta_ptr_spec _ l _ SideR b); [exact Hs3|apply lookup_insert_eq|exact Hpb| |lia].
    intros x Hx. apply lookup_insert_is_Some'. right. by eapply numbered_locs; [exact Hnb2|]. }
  intros [] s4 (pb' & Hpb' & Hs4 & He4). apply wp_ret. rewrite insert_insert_eq in Hs4. simpl in Hs4.
  assert (forall an d' base', l ∉ dlocs d' -> numbered_at δ2 (in_image q) d' base' -> numbered_at (<[l := an]> δ2) (in_image q) d' base') as Hframe.
  { intros an d' base' Hnl. apply numbered_ext. intros x Hx. rewrite lookup_insert_ne; [done|]. by intros ->. }
  split; [by do 3 (etransitivity; [eassumption|])|]. eexists. split; [exact Hs4|]. split.
  - exists pa', pb'. rewrite lookup_insert_eq. split_and!; [done|done|done| |]; apply Hframe; set_solver.
  - intros x Hx. simpl in Hx. rewrite lookup_insert_ne by set_solver. rewrite Hsame2, Hsame1 by set_solver. done.
Qed.
End positions.

(** ** The cache takes the new nodes *)

Lemma nd_read_only hor stored names h l n t : h !! l = Some n -> l <> Nil -> forall x,
  node_denotes hor stored names h t x -> node_denotes hor stored names (<[l := with_read_only n]> h) t x.
Proof.
  intros Hl Hne. induction t as [|c tl IHl k v tr IHr]; intros x; [done|].
  intros (Hx & m & Hm & Hrid & Hc & Hk & Hv & Hpl & Hpr). split; [done|].
  assert (forall p t, (forall x, node_denotes hor stored names h t x -> node_denotes hor stored names (<[l := with_read_only n]> h) t x) ->
    ptr_denotes stored names (node_denotes hor stored names h t) p t ->
    ptr_denotes stored names (node_denotes hor stored names (<[l := with_read_only n]> h) t) p t) as Hptr.
  { intros p u Hu. by apply ptr_denotes_mono. }
  destruct (decide (l = x)) as [<-|Hlx].
  - rewrite Hl in Hm. injection Hm as <-. exists (with_read_only n). rewrite lookup_insert_eq. split_and!; try done; by apply Hptr.
  - exists m. rewrite lookup_insert_ne by done. split_and!; try done; by apply Hptr.
Qed.

Section apply.
Context {L : Type} {AS : AfterImageSource L} {AL : AfterImageSourceLaws L}.
Context (std_hash : Z -> Z) (sizeof_node : Z) (scan_fuel : nat) (hor : Z) (Pr : NodeAddress -> tree -> Prop).

Abbreviation nc_inv := (nc_inv std_hash scan_fuel hor Pr).
Abbreviation nc_nd := (nc_nd scan_fuel hor Pr).
Abbreviation entry_ok := (NodeCacheSpec.entry_ok scan_fuel hor Pr).
Abbreviation cached := (cached std_hash).

(** What trees stand for, the log and the index stay; nodes may become read-only
    and enter the cache. *)
Record only_caches (w w' : NodeCache L) : Prop := {
  oc_src : nc_src w' = nc_src w;
  oc_imap : nc_imap w' = nc_imap w;
  oc_heap l n : nc_heap w !! l = Some n -> exists n', nc_heap w' !! l = Some n' /\ (n' = n \/ n' = with_read_only n);
  oc_nd t x : nc_nd w t x -> nc_nd w' t x;
}.

#[local] Instance only_caches_preorder : PreOrder only_caches.
Proof.
  split; [by split; eauto|]. intros w1 w2 w3 [? ? H1 ?] [? ? H2 ?]. split; [congruence|congruence| |auto]. intros l n Hn.
  destruct (H1 l n Hn) as (n1 & Hn1 & E1), (H2 l n1 Hn1) as (n2 & Hn2 & E2). exists n2. split; [done|].
  destruct E1 as [->| ->]; [done|]. right. by destruct E2 as [->| ->].
Qed.

Lemma only_caches_entry w w' p off x : only_caches w w' -> entry_ok w p off x -> entry_ok w' p off x.
Proof. intros [Hs _ _ Hn] [Ha Ht]. unfold NodeCacheSpec.entry_ok, nc_log in *. rewrite Hs. split; [done|]. intros t Hi. by apply Hn, Ht. Qed.

Lemma set_read_only_spec l n w : nc_inv w -> nc_heap w !! l = Some n -> read_only_ n = false -> l <> Nil ->
  wp (nc_set_read_only l) (fun _ w' => w' = with_heap (<[l := with_read_only n]> (nc_heap w)) w /\ nc_inv w' /\ only_caches w w') w.
Proof.
  intros Hi Hl Hro Hne. unfold wp, nc_set_read_only. rewrite Hl, Hro. split; [done|].
  set (w' := with_heap _ w). assert (only_caches w w') as Hoc.
  { split; [done|done| |intros t x; by apply nd_read_only]. intros y m Hm. simpl.
    destruct (decide (l = y)) as [<-|Hly]; [|rewrite lookup_insert_ne by done; eauto].
    rewrite lookup_insert_eq. rewrite Hl in Hm. injection Hm as <-. eauto. }
  split; [|done]. pose proof Hi as []. split; try done.
  - simpl. by rewrite lookup_insert_ne.
  - intros p off x Hx. eapply only_caches_entry; [exact Hoc|]. by apply ni_cached.
Qed.

Lemma apply_delta_spec q ls : forall off w, nc_inv w -> NoDup ls ->
  (forall k l, ls !! k = Some l -> l <> Nil /\ (exists n, nc_heap w !! l = Some n /\ read_only_ n = false) /\ entry_ok w q (off + Z.of_nat k) l) ->
  (forall k, (k < length ls)%nat -> cached w (q, off + Z.of_nat k) = None) ->
  wp (apply_delta std_hash sizeof_node ls q off) (fun _ w' => nc_inv w' /\ only_caches w w' /\
    (forall k l, ls !! k = Some l -> cached w' (q, off + Z.of_nat k) = Some l /\ exists n, nc_heap w' !! l = Some n /\ read_only_ n = true) /\
    forall key, (forall k, (k < length ls)%nat -> key <> (q, off + Z.of_nat k)) -> cached w' key = cached w key) w.
Proof.
  induction ls as [|l ls IH]; intros off w Hi Hnd Hls Hnew; [by apply wp_ret|]. cbn [apply_delta].
  apply NoDup_cons in Hnd as [Hnl Hnd]. destruct (Hls 0%nat l eq_refl) as (Hne & (n & Hn & Hro) & Hok). rewrite Z.add_0_r in Hok.
  apply wp_bind. eapply wp_conseq; [by eapply set_read_only_spec|]. intros [] w1 (Ew1 & Hi1 & Hoc1).
  assert (forall key, cached w1 key = cached w key) as Hc1 by (by intros key; rewrite Ew1).
  pose proof (Hnew 0%nat ltac:(simpl; lia)) as Hnew0. rewrite Z.add_0_r in Hnew0.
  apply wp_bind. eapply wp_conseq.
  { eapply (shard_add_spec std_hash sizeof_node scan_fuel hor Pr (q, off) l w1); [done|by rewrite Hc1| |by eapply only_caches_entry].
    rewrite Ew1. simpl. rewrite lookup_insert_eq. by eexists. }
  intros [] w2 (Hi2 & Hss & Hc2). assert (only_caches w1 w2) as Hoc2.
  { destruct Hss as [Hh Hs Him _]. split; [done|done|rewrite Hh; eauto|]. intros t x. apply nc_nd_mono. split; [by rewrite Hh|]. unfold nc_log. by rewrite Hs. }
  assert (only_caches w w2) as Hoc by (by etransitivity).
  assert (forall key, key <> (q, off) -> cached w2 key = cached w key) as Hc by (intros key Hk; by rewrite Hc2, decide_False, Hc1 by done).
  assert (forall k, (q, off + 1 + Z.of_nat k) = (q, off + Z.of_nat (S k))) as Ek by (intros k; f_equal; lia).
  eapply wp_conseq.
  { apply (IH (off + 1) w2); [done|done| |].
    - intros k y Hk. destruct (Hls (S k) y Hk) as (Hy & (m & Hm & Hmr) & Hyok). split_and!; [done| |].
      + exists m. split; [|done]. rewrite (ss_heap _ _ Hss), Ew1. simpl. rewrite lookup_insert_ne; [done|].
        intros ->. apply Hnl. by eapply list_elem_of_lookup_2.
      + replace (off + 1 + Z.of_nat k) with (off + Z.of_nat (S k)) by lia. by eapply only_caches_entry.
    - intros k Hk. rewrite Ek, Hc by (intros [=]; lia). apply Hnew. simpl. lia. }
  intros [] w3 (Hi3 & Hoc3 & Hls3 & Hother). split_and!; [done|by etransitivity| |].
  - intros [|k] y Hk.
    + injection Hk as <-. rewrite Z.add_0_r, Hother by (intros k _ [=]; lia). rewrite Hc2, decide_True by done. split; [done|].
      assert (only_caches w1 w3) as [_ _ Hheap _] by (by etransitivity).
      destruct (Hheap l (with_read_only n)) as (n' & Hn' & [->| ->]); [rewrite Ew1; apply lookup_insert_eq|by eexists..].
    + rewrite <- Ek. by apply Hls3.
  - intros key Hkey. rewrite Hother by (intros k Hk; rewrite Ek; apply Hkey; simpl; lia).
    apply Hc. specialize (Hkey 0%nat ltac:(simpl; lia)). by rewrite Z.add_0_r in Hkey.
Qed.
End apply.

Lemma postorder_dlocs d : postorder d ≡ₚ dlocs d.
Proof.
  induction d as [t|l c a IHa k v b IHb]; [done|]. simpl. rewrite IHa, IHb, app_assoc, <- Permutation_cons_append. done.
Qed.

Lemma assigned_at_addr addr d a t : forall base, assigned_at addr d base a t -> exists off, a = addr off.
Proof. induction d as [u|l c x IHx k v y IHy]; intros base; [done|]. intros [[-> _]|[?|?]]; eauto. Qed.

(** Every node of a numbered delta, in postorder, is the root of the tree its
    address is assigned. *)
Section nodes.
Context {W : Type} {NS : NodeStore W} {NSL : NodeStoreLaws W} {SC : SliceCompare} {SL : SliceLaws}.
Context (r : Z).
Hypothesis r_nil : delta_id ns_hor r.
Context (δ : gmap loc anode) (w : W) (hor : Z) (stored names : NodeAddress -> tree -> Prop) (addr : Z -> NodeAddress).
Hypothesis delta_inv : winv r δ w.
Hypothesis later_horizon : ns_hor <= hor.
Hypothesis now_published : published hor r.
Hypothesis more_stored : forall a t, ns_stored w a t -> stored a t.
Hypothesis more_names : forall a t, ns_names w a t -> names a t.

Lemma numbered_nodes d : forall base, numbered_at δ addr d base -> (forall a t, assigned_at addr d base a t -> names a t) ->
  forall k l, postorder d !! k = Some l -> is_Some (δ !! l) /\ exists t, assigned_at addr d base (addr (base + Z.of_nat k)) t /\
    node_denotes hor stored names (ns_heap w) t l.
Proof using All.
  induction d as [t|l c a IHa kk v b IHb]; intros base Hnum Hass k y Hk; [done|]. pose proof Hnum as (pa & pb & Hl & _ & _ & Ha & Hb).
  pose proof (postorder_length a) as La. pose proof (postorder_length b) as Lb. cbn [postorder] in Hk.
  destruct (decide (k < length (postorder a))%nat) as [Hka|Hka].
  { rewrite lookup_app_l in Hk by done. destruct (IHa base Ha) with (k := k) (l := y) as (Hy & t & Ht & Hn); [intros; apply Hass; simpl; auto|done|].
    split; [done|]. exists t. simpl. auto. }
  rewrite lookup_app_r in Hk by lia. destruct (decide (k - length (postorder a) < length (postorder b))%nat) as [Hkb|Hkb].
  { rewrite lookup_app_l in Hk by done.
    destruct (IHb (base + dsize a) Hb) with (k := (k - length (postorder a))%nat) (l := y) as (Hy & t & Ht & Hn); [intros; apply Hass; simpl; auto|done|].
    split; [done|]. exists t. split; [|done]. simpl. right. right.
    replace (base + Z.of_nat k) with (base + dsize a + Z.of_nat (k - length (postorder a))) by lia. done. }
  rewrite lookup_app_r in Hk by lia. apply list_lookup_singleton_Some in Hk as [Hk <-]. split; [by eexists|].
  exists (erase (DN l c a kk v b)). split.
  - simpl. left. split; [|done]. f_equal. cbn [dsize]. lia.
  - by eapply (numbered_denotes r r_nil δ w hor stored names).
Qed.
End nodes.

(** A pointer from a new node to a new node has the address of its target. *)
Lemma numbered_children δ addr d : forall base, numbered_at δ addr d base -> forall k l an sd, postorder d !! k = Some l -> δ !! l = Some an ->
  (exists j y, postorder d !! j = Some y /\ an_child sd an = Self y (addr (base + Z.of_nat j))) \/
  (exists t, an_child sd an = Old t) \/ an_child sd an = Ref Nil.
Proof.
  induction d as [t|l c a IHa kk v b IHb]; intros base Hnum k y an sd Hk Hy; [done|]. destruct Hnum as (pa & pb & Hl & Hpa & Hpb & Ha & Hb).
  pose proof (postorder_length a) as La. pose proof (postorder_length b) as Lb. cbn [postorder] in Hk |- *.
  assert (forall da p off pre post, points_at addr p da off -> off = base + Z.of_nat (length pre) + dsize da - 1 ->
    postorder a ++ postorder b ++ [l] = pre ++ postorder da ++ post ->
    (exists j x, (postorder a ++ postorder b ++ [l]) !! j = Some x /\ p = Self x (addr (base + Z.of_nat j))) \/ (exists t, p = Old t) \/ p = Ref Nil) as Hptr.
  { intros [t|x c' d1 k' v' d2] p off pre post Hp -> E; [destruct Hp as [->|[_ ->]]; eauto|]. left. rewrite E.
    pose proof (postorder_length (DN x c' d1 k' v' d2)) as Hlen. exists (length pre + length (postorder d1 ++ postorder d2))%nat, x. split.
    - rewrite lookup_app_r by lia. rewrite lookup_app_l by (cbn [postorder]; rewrite !length_app; simpl; lia).
      cbn [postorder]. rewrite app_assoc, lookup_app_r by lia. by replace (_ - _)%nat with 0%nat by lia.
    - rewrite Hp. do 2 f_equal. cbn [postorder] in Hlen. rewrite app_assoc, length_app in Hlen. cbn [length] in Hlen. lia. }
  apply lookup_app_Some in Hk as [Hk|[Hge Hk]].
  { destruct (IHa base Ha k y an sd Hk Hy) as [(j & x & Hj & E)|H]; [|by right]. left. exists j, x. split; [by apply lookup_app_l_Some|done]. }
  apply lookup_app_Some in Hk as [Hk|[Hge' Hk]].
  - destruct (IHb _ Hb _ y an sd Hk Hy) as [(j & x & Hj & E)|H]; [|by right]. left. exists (length (postorder a) + j)%nat, x. split.
    + rewrite lookup_app_r by lia. replace (_ + j - _)%nat with j by lia. by apply lookup_app_l_Some.
    + rewrite E. do 2 f_equal. lia.
  - apply list_lookup_singleton_Some in Hk as [_ <-]. rewrite Hl in Hy. injection Hy as <-. destruct sd.
    + by eapply (Hptr a _ _ []); [exact Hpa|simpl; lia|].
    + by eapply (Hptr b _ _ (postorder a)); [exact Hpb|lia|].
Qed.

Section addressed.
Context {W : Type} {NS : NodeStore W} {NSL : NodeStoreLaws W} {SC : SliceCompare} {SL : SliceLaws}.
Context (r : Z) (r_nil : delta_id ns_hor r) (δ : gmap loc anode) (w : W) (delta_inv : winv r δ w).

Lemma child_addressed addr d base k j l n sd x : numbered_at δ addr d base -> NoDup (dlocs d) -> postorder d !! k = Some l ->
  ns_heap w !! l = Some n -> ref_ (child sd n) = Some x -> postorder d !! j = Some x -> address_ (child sd n) = Some (addr (base + Z.of_nat j)).
Proof using All.
  intros Hnum Hnd Hk Hn Href Hj.
  assert (forall y i, postorder d !! i = Some y -> is_Some (δ !! y)) as Hin.
  { intros y i Hi. eapply numbered_locs; [exact Hnum|]. rewrite <- postorder_dlocs. by eapply list_elem_of_lookup_2. }
  destruct (Hin l k Hk) as [an Hl]. destruct (winv_lookup _ _ _ _ _ delta_inv Hl) as (n' & Hn' & Hm). rewrite Hn in Hn'. injection Hn' as <-.
  pose proof (w_node_child _ _ _ _ sd Hm) as Hp. destruct (Hin x j Hj) as [anx Hx].
  pose proof (delta_not_nil r r_nil δ w x delta_inv ltac:(by eexists)) as Hnil.
  destruct (numbered_children δ addr d base Hnum k l an sd Hk Hl) as [(i & y & Hi & E)|[(t & E)|E]]; rewrite E in Hp.
  - destruct Hp as (Hy & _ & Ha). rewrite Href in Hy. injection Hy as <-. rewrite Ha. do 3 f_equal.
    f_equal. eapply NoDup_lookup; [|exact Hi|exact Hj]. by rewrite postorder_dlocs.
  - exfalso. destruct Hp as [Hp _]. rewrite Href in Hp. destruct t as [|c tl kk v tr]; [done|]. destruct Hp as (_ & m & Hm' & Hpub & _).
    destruct (winv_lookup _ _ _ _ _ delta_inv Hx) as (nx & Hnx & _ & _ & _ & Hrid & _). rewrite Hnx in Hm'. injection Hm' as <-.
    rewrite Hrid in Hpub. by apply r_nil in Hpub.
  - destruct Hp as [Hp _]. rewrite Href in Hp. by injection Hp as ->.
Qed.
End addressed.

(** ** The index learns of the image *)

Lemma spec_find_take {V} n k (l : list (Z * V)) v : spec_find k (take n l) = Some v -> spec_find k l = Some v.
Proof.
  unfold spec_find. intros Hv. rewrite <- (take_drop n l), list_to_map_app. by apply lookup_union_Some_l.
Qed.

Section mapping.
Context {L : Type} {AS : AfterImageSource L} {AL : AfterImageSourceLaws L}.
Context (std_hash : Z -> Z) (scan_fuel : nat) (hor : Z) (Pr : NodeAddress -> tree -> Prop).

Lemma SetIntentionMapping_spec i p (w : NodeCache L) : nc_inv std_hash scan_fuel hor Pr w -> (0 < m_capacity (nc_imap w))%nat ->
  m_map (nc_imap w) !! i = None -> primary scan_fuel (nc_log w) i p -> published hor i ->
  (forall off t, Pr (mkNodeAddress i off false) t -> image_at scan_fuel hor (nc_log w) t p off) ->
  wp (SetIntentionMapping i p) (fun _ w' => nc_inv std_hash scan_fuel hor Pr w' /\ (exists m, w' = with_imap m w) /\
    fst <$> m_map (nc_imap w') !! i = Some p) w.
Proof.
  intros Hi Hcap Hnone Hp Hpub Hpr. pose proof Hi as []. destruct ni_imap as [l Hl]. unfold SetIntentionMapping, on_imap. apply wp_zoom.
  eapply wp_conseq; [by apply lru_insert_spec|]. intros [] c [_ Hc].
  assert (spec_find i l = None) as Hf by (by rewrite (spec_find_map _ _ _ Hl), Hnone).
  unfold spec_lru_insert in Hc. rewrite Hf in Hc.
  assert (fst <$> m_map c !! i = Some p) as Hnew.
  { rewrite <- (spec_find_map _ _ _ Hc). unfold spec_find. simpl. by rewrite lookup_insert_eq. }
  assert (forall j y, fst <$> m_map c !! j = Some y -> j <> i -> fst <$> m_map (nc_imap w) !! j = Some y) as Hold.
  { intros j y Hj Hne. rewrite <- (spec_find_map _ _ _ Hc) in Hj. unfold spec_find in Hj. simpl in Hj. rewrite lookup_insert_ne in Hj by done.
    rewrite <- (spec_find_map _ _ _ Hl). by eapply spec_find_take. }
  split_and!; [|by eexists|exact Hnew]. split; try done.
  - by eexists.
  - intros j y y' Hj Hy'. simpl in Hj. destruct (decide (j = i)) as [->|Hne]; [|eapply ni_primary; [by apply Hold|done]].
    rewrite Hnew in Hj. injection Hj as <-. by eapply primary_fun.
  - intros j y Hj. simpl in Hj. destruct (decide (j = i)) as [->|Hne]; [done|]. eapply ni_processed. by apply Hold.
  - intros j y off t Hj Ht. simpl in Hj. destruct (decide (j = i)) as [->|Hne].
    + rewrite Hnew in Hj. injection Hj as <-. by apply Hpr.
    + eapply ni_promised; [by apply Hold|done].
Qed.
End mapping.

(** The new addresses leave the index as large as it is. *)
Section capacity.
Context {L : Type} {AS : AfterImageSource L} (std_hash : Z -> Z) (sizeof_node : Z) (scan_fuel : nat).
#[local] Instance the_cache : NodeStore (NodeCache L) := node_cache_store std_hash sizeof_node scan_fuel.

Abbreviation capacity := (fun w : NodeCache L => m_capacity (nc_imap w)).
Abbreviation on_part := (same (fun s : NodeCache L * list NodeAddress => capacity s.1)).
Abbreviation on_whole := (same (fun s : NodeCache L * PersistentTree => capacity s.1)).

Lemma capacity_load l : respects on_part (load l).
Proof. intros [w tr] n s'. unfold load. destruct (ns_heap w !! l); [|done]. by intros [= _ <-]. Qed.

Lemma capacity_store l n : respects on_part (store l n).
Proof. by intros [w tr] u s' [= _ <-]. Qed.

Lemma capacity_push_trace a : respects on_part (push_trace a).
Proof. by intros [w tr] u s' [= _ <-]. Qed.

Lemma capacity_notrace {A} (m : TM A) : respects on_part m -> respects on_part (notrace m).
Proof.
  intros Hm [w tr] a s'. unfold notrace. destruct (m (w, [])) as [[b [w' tr']]| |] eqn:E; [|done..]. intros [= _ <-].
  exact (Hm _ _ _ E).
Qed.

Lemma capacity_fetch a : respects on_part (ns_fetch a).
Proof. exact (cache_respects_fetch std_hash sizeof_node scan_fuel (same capacity) a). Qed.

Lemma capacity_tm {A} (m : TM A) : respects on_part m -> respects on_whole (tm m).
Proof. intros Hm. apply (respects_zoom _ on_part); [done|]. intros [w t] [w' tr] H. exact H. Qed.

#[local] Hint Resolve capacity_load capacity_store capacity_push_trace capacity_fetch capacity_tm capacity_notrace : respects.

Lemma capacity_ref_child s l : respects on_part (ref_child_notrace s l).
Proof. unfold ref_child_notrace, ref_child, ref, ptr_fetch. auto 30 with respects. Qed.

#[local] Hint Resolve capacity_ref_child : respects.

Lemma capacity_SetDeltaPosition delta q : respects on_whole (SetDeltaPosition delta q).
Proof.
  induction delta as [|l delta IH]; cbn [SetDeltaPosition]; unfold set_delta_ptr, node_rid, tree_rid, get_tree, get_child, put_child, ConvertToAfterImage;
    auto 30 with respects.
Qed.
End capacity.

(** ** The round *)

Section finalizer.
Context {G : Type} {ZG : ZLog G} {ZL : ZLogLaws G} {ZF : ZLogFillLaws G} {PC : ProtoCodec} {PL : ProtoLaws}.
Context {SC : SliceCompare} {SL : SliceLaws} {LC : LexicalCast} {LCL : LexicalCastLaws}.
Context (std_hash : Z -> Z) (sizeof_node : Z) (scan_fuel entry_cache_size fuel bound : nat).
Context (fuel_enough : (bound < fuel)%nat) (signed_positions : Z.of_nat bound <= 2 ^ 63).

#[local] Instance the_store : NodeStore (NodeCache (EntryService G)) := db_store std_hash sizeof_node scan_fuel entry_cache_size fuel.

Abbreviation log_source log := (es_source_laws entry_cache_size fuel bound fuel_enough log).
Abbreviation log_laws log hor Pr := (node_cache_laws (AL := log_source log) std_hash sizeof_node scan_fuel hor Pr).
Abbreviation db_tree log hor Pr := (db_tree std_hash sizeof_node scan_fuel entry_cache_size fuel bound fuel_enough hor Pr log).
Abbreviation to_finalize := (to_finalize std_hash sizeof_node scan_fuel entry_cache_size fuel bound fuel_enough).
Abbreviation settled := (settled std_hash sizeof_node scan_fuel entry_cache_size fuel bound fuel_enough).
Abbreviation commit_due := (commit_due std_hash sizeof_node scan_fuel entry_cache_size fuel bound fuel_enough).
Abbreviation process := (process_intention std_hash sizeof_node scan_fuel entry_cache_size fuel).
Abbreviation writer := (AfterImageWriter_round std_hash sizeof_node scan_fuel entry_cache_size fuel).
Abbreviation finalizer := (AfterImageFinalizer_round std_hash sizeof_node scan_fuel entry_cache_size fuel).

Lemma to_finalize_meanwhile log hor pos q d x t w es : to_finalize log hor pos q d x t w ->
  src_ok entry_cache_size bound es -> slots es = log -> to_finalize log hor pos q d x t (with_src es w).
Proof using Type. intros [Hr Hrange Ht Hp Him] Hes Hsl. split; try done. eapply ready_kept. by apply ready_meanwhile. Qed.

(** A new node, read-only, with the image's addresses of its new children. *)
Definition frozen_in (q : Z) (new : list loc) (n : Node) : Prop :=
  read_only_ n = true /\ forall sd x j, ref_ (child sd n) = Some x -> new !! j = Some x -> address_ (child sd n) = Some (in_image q (Z.of_nat j)).

(** The new nodes of a commit, in the image's terms: nothing is left to do. *)
Record finalized (log : gmap Z slot) (pos q : Z) (d : dtree) (x : loc) (w : NodeCache (EntryService G)) : Prop := {
  fi_inv : nc_inv (AL := log_source log) std_hash scan_fuel (pos + 1) no_promise w;
  fi_root : nc_nd (AL := log_source log) scan_fuel (pos + 1) no_promise w (erase d) x;
  fi_cached k l : postorder d !! k = Some l -> cached std_hash w (q, Z.of_nat k) = Some l /\ exists n, nc_heap w !! l = Some n /\ frozen_in q (postorder d) n;
  fi_indexed : fst <$> m_map (nc_imap w) !! pos = Some q;
}.

(** *** From the delta with its new addresses to the cache *)

Section delta.
Context (log : gmap Z slot) (hor pos q : Z) (d : dtree) (x : loc) (w : NodeCache (EntryService G)) (δ : gmap loc anode).
Context (delta_inv : winv (NSL := log_laws log hor no_promise) pos δ w) (numbered : numbered_at δ (in_image q) d 0).
Context (range : 0 <= hor <= pos /\ pos < q /\ q < 2 ^ 63 /\ 0 < dsize d <= 2 ^ 16).
Context (first : primary scan_fuel (image_log log) pos q).
Context (images : forall a u, assigned_at (in_image q) d 0 a u -> image_at scan_fuel (pos + 1) (image_log log) u q (Offset a)).

Abbreviation stored := (nc_stored (AL := log_source log) scan_fuel (pos + 1) w).
Abbreviation names := (nc_names (AL := log_source log) scan_fuel (pos + 1) no_promise w).

Lemma delta_log : nc_log (AL := log_source log) w = image_log log.
Proof using delta_inv. eapply cache_images. apply delta_inv. Qed.

(** Nothing of the image is in the cache: its intention is not below the horizon. *)
Lemma image_uncached off : cached std_hash w (q, off) = None.
Proof using delta_inv range first.
  pose proof first as (_ & (ai & Hai & Hpos) & _). destruct (cached std_hash w (q, off)) as [y|] eqn:E; [exfalso|done].
  destruct (ni_cached _ _ _ _ _ (proj1 delta_inv) q off y E) as [(ai' & Ha & Hp) _].
  unfold published in Hp. rewrite delta_log, Hai in Ha. injection Ha as <-. lia.
Qed.

Lemma delta_cache_inv : nc_inv (AL := log_source log) std_hash scan_fuel (pos + 1) no_promise w.
Proof using delta_inv range. apply (nc_inv_advance std_hash scan_fuel hor (pos + 1) no_promise no_promise); [lia|done|done|]. apply delta_inv. Qed.

Lemma delta_assigned a u : assigned_at (in_image q) d 0 a u -> names a u.
Proof using delta_inv range images.
  intros Ha. left. unfold nc_stored. rewrite delta_log. exists q. split; [|by apply images].
  destruct (assigned_at_addr _ _ _ _ _ Ha) as [off ->]. unfold located. simpl. unfold u64. by rewrite Z.mod_small by lia.
Qed.

Lemma delta_stored a u : stored_in scan_fuel hor (nc_log (AL := log_source log) w) a u -> stored a u.
Proof using range. apply stored_in_mono. lia. Qed.

Lemma delta_names a u : nc_names (AL := log_source log) scan_fuel hor no_promise w a u -> names a u.
Proof using range. intros [Hs|[]]. left. by apply delta_stored. Qed.

Lemma delta_root : head (dlocs d) = Some x -> nc_nd (AL := log_source log) scan_fuel (pos + 1) no_promise w (erase d) x.
Proof using All.
  intros Hx. pose proof (next_delta_id hor pos ltac:(lia) ltac:(lia)) as Hid.
  assert (exists c a k v b, d = DN x c a k v b) as (c & a & k & v & b & Ed).
  { clear -Hx. destruct d as [u|l c a k v b]; [done|]. injection Hx as <-. by repeat eexists. }
  eapply (numbered_denotes (NSL := log_laws log hor no_promise) pos Hid δ w (pos + 1));
    [exact delta_inv|simpl; lia|unfold published; lia|exact delta_stored|exact delta_names|exact numbered|exact delta_assigned|exact Ed].
Qed.

(** A new node may enter the cache. *)
Lemma delta_node k l : postorder d !! k = Some l -> l <> Nil /\ (exists n, nc_heap w !! l = Some n /\ read_only_ n = false) /\
  NodeCacheSpec.entry_ok (AL := log_source log) scan_fuel (pos + 1) no_promise w q (0 + Z.of_nat k) l.
Proof using All.
  intros Hk. pose proof (next_delta_id hor pos ltac:(lia) ltac:(lia)) as Hid.
  destruct (numbered_nodes (NSL := log_laws log hor no_promise) pos Hid δ w (pos + 1) stored names (in_image q) delta_inv)
    with (d := d) (base := 0) (k := k) (l := l) as ([an Hl] & t & Ht & Hn);
    [simpl; lia|unfold published; lia|exact delta_stored|exact delta_names|exact numbered|exact delta_assigned|exact Hk|].
  destruct (winv_lookup _ _ _ _ _ delta_inv Hl) as (n & Hnl & _ & _ & _ & _ & Hro & _).
  split; [eapply (delta_not_nil (NSL := log_laws log hor no_promise) pos Hid); [exact delta_inv|by eexists]|].
  split; [by exists n|]. pose proof first as (_ & (ai & Hai & Hpos) & _). split.
  { exists ai. rewrite delta_log. split; [done|]. unfold published. lia. }
  intros t' Ht'. rewrite delta_log in Ht'. apply lookup_lt_Some in Hk. pose proof (postorder_length d).
  apply images in Ht. unfold in_image in Ht. rewrite make_address_offset in Ht by lia.
  by rewrite (image_at_fun _ _ _ _ _ _ _ _ Ht' Ht).
Qed.

Lemma delta_finalized : head (dlocs d) = Some x -> NoDup (dlocs d) -> (0 < m_capacity (nc_imap w))%nat ->
  wp (SetIntentionMapping pos q;; ApplyAfterImageDelta std_hash sizeof_node (postorder d) q) (fun _ w' => finalized log pos q d x w') w.
Proof using All.
  intros Hx Hnd Hcap. pose proof (delta_root Hx) as Hroot. pose proof (postorder_length d) as Hlen.
  assert (m_map (nc_imap w) !! pos = None) as Hnone.
  { eapply (not_indexed std_hash scan_fuel entry_cache_size fuel bound fuel_enough log hor no_promise w pos); [apply delta_inv|lia]. }
  apply wp_bind. eapply wp_conseq.
  { eapply (SetIntentionMapping_spec (AL := log_source log) std_hash scan_fuel (pos + 1) no_promise pos q w delta_cache_inv Hcap Hnone);
      [by rewrite delta_log|unfold published; lia|by intros]. }
  intros [] w1 (Hi2 & [m ->] & Hidx). unfold ApplyAfterImageDelta. destruct (last (postorder d)) as [root|] eqn:Elast.
  2: { apply last_None in Elast. rewrite Elast in Hlen. simpl in Hlen. lia. }
  apply wp_bind. eapply wp_conseq.
  { apply (apply_delta_spec (AL := log_source log) std_hash sizeof_node scan_fuel (pos + 1) no_promise q (postorder d) 0 (with_imap m w) Hi2);
      [by rewrite postorder_dlocs|exact delta_node|]. intros k _. apply image_uncached. }
  intros [] w2 (Hi3 & [_ Him2 Hheap Hnd2] & Hc2 & _). unfold SetAfterImageAddress. apply wp_bind, wp_assert; [done|]. apply wp_ret.
  split; [done|by apply Hnd2| |by rewrite Him2].
  intros k l Hk. destruct (Hc2 k l Hk) as (Hc & n' & Hn' & Hro). split; [exact Hc|]. exists n'. split; [done|]. split; [done|].
  destruct (delta_node k l Hk) as (_ & (n & Hn & _) & _). destruct (Hheap l n Hn) as (n2 & Hn2 & E). rewrite Hn' in Hn2. injection Hn2 as <-.
  assert (forall sd, child sd n' = child sd n) as Hch by (by destruct E as [->| ->]).
  intros sd y j. rewrite Hch. apply (child_addressed (NSL := log_laws log hor no_promise) pos (next_delta_id hor pos ltac:(lia) ltac:(lia)) δ w delta_inv
    (in_image q) d 0 k j l n sd y numbered Hnd Hk Hn).
Qed.
End delta.

(** *** The round *)

Lemma match_spec delta t m : shutdown_ m = false -> head (matched_ m) = Some (delta, t) ->
  wp match_ (fun x _ => x = (delta, Some t)) m.
Proof using Type.
  intros Hs Hm. unfold match_. apply wp_bind. unfold wp at 1, wait_until. destruct (matched_ m) as [|y rest] eqn:E; [done|].
  injection Hm as ->. simpl. apply wp_bind, wp_get. rewrite Hs, E. by apply wp_bind, wp_put, wp_ret.
Qed.

Lemma wp_cache_then {A B C} (m : M (NodeCache (EntryService G)) A) (k : M (NodeCache (EntryService G)) B) (f : B -> DBM C) Q (s : DBImpl G) :
  wp (m;; k) (fun b w => wp (f b) Q (set_cache w s)) (cache_ s) -> wp (on_cache m;; b ← on_cache k; f b) Q s.
Proof using Type.
  unfold wp, mbind, M_bind, on_cache, zoom. destruct (m (cache_ s)) as [[a w]| |]; [|done..].
  simpl. by destruct (k w) as [[b w']| |].
Qed.

Lemma finalizer_spec log hor pos q d x t s : to_finalize log hor pos q d x t (cache_ s) -> shutdown_ (ai_matcher (nc_src (cache_ s))) = false ->
  head (matched_ (ai_matcher (nc_src (cache_ s)))) = Some (postorder d, with_afterimage (Some q) t) -> (0 < m_capacity (nc_imap (cache_ s)))%nat ->
  wp finalizer (fun more s' => more = negb (stop_ s) /\ exists w, s' = set_cache w s /\ finalized log pos q d x w) s.
Proof using All.
  intros Hfin Hrun Hfirst Hcap. set (w := cache_ s) in *. set (es := nc_src w) in *.
  unfold AfterImageFinalizer_round. apply wp_bind. unfold on_matcher, on_es, on_cache, EntryService.on_matcher. apply wp_zoom, wp_zoom, wp_zoom.
  eapply wp_conseq; [by apply match_spec|]. intros [delta tree] m1 [= -> ->].
  assert (src_ok entry_cache_size bound es /\ slots es = log) as [Hok Hsl].
  { destruct (tf_ready _ _ _ _ _ _ _ _ _ _ _ _ _ _ _ Hfin) as (δ & [[Hi _] _] & _). by destruct (ni_src _ _ _ _ _ Hi). }
  apply (to_finalize_meanwhile log hor pos q d x t w (with_matcher m1 es)) in Hfin; [|by destruct Hok|exact Hsl].
  set (w1 := with_src (with_matcher m1 es) w) in *.
  destruct Hfin as [(δ & Hs & Hx & Hhd & Hnd & Hnum) (Hhor & Hpq & Hq & Hd) [Hti Hta] Hprim Him].
  destruct (i64_small pos ltac:(lia)) as [Hi64 Hu].
  apply wp_bind. unfold Intention_pos. cbn [pt_intention with_afterimage]. rewrite Hti. apply wp_ret.
  apply wp_bind. unfold AfterImage_pos. cbn [pt_afterimage with_afterimage]. apply wp_ret.
  apply wp_bind, wp_assert; [by apply Z.ltb_lt|]. apply wp_bind, wp_db_tree.
  assert (respects (same (fun s => m_capacity (nc_imap s.1))) (SetDeltaPosition (W := NodeCache (EntryService G)) (postorder d) q)) as Hkeep.
  { exact (capacity_SetDeltaPosition std_hash sizeof_node scan_fuel (postorder d) q). }
  eapply wp_conseq.
  { eapply wp_respects; [exact Hkeep|].
    eapply (SetDeltaPosition_spec (NSL := log_laws log hor no_promise) pos ltac:(by rewrite Hu) (next_delta_id hor pos ltac:(lia) ltac:(lia)) pos q ltac:(lia) d 0 δ);
      [exact Hs|exact Hnum|exact Hnd|lia|lia]. }
  intros [] [w2 t2] [(_ & δ2 & [Hw2 _] & Hnum2 & _) Hc2]. simpl in Hw2, Hc2.
  pose proof (delta_finalized log hor pos q d x w2 δ2 Hw2 Hnum2 ltac:(lia) Hprim) as Hrest.
  apply (wp_cache_then _ _ _ _ (set_cache w2 s)). eapply wp_conseq; [apply Hrest; try done|].
  - intros a u. apply Him. intros off Hoff. by apply make_address_offset.
  - unfold same in Hc2. cbn [fst] in Hc2. by rewrite Hc2.
  - intros [] w3 Hf. apply wp_bind, wp_get, wp_ret. split; [done|]. by exists w3.
Qed.
(** *** The commit, all the way *)

(** The root of the commit, read through what the finalizer leaves. *)
Lemma finalized_tree log hor pos q d x t w0 s : to_finalize log hor pos q d x t w0 -> finalized log pos q d x (cache_ s) ->
  root_ s = SetIntentionAddress pos (dsize d - 1) (mkNodePtr (Some x) None true) -> db_tree log (pos + 1) no_promise s (erase d).
Proof using Type.
  intros [_ (Hhor & Hpq & Hq & Hd) _ Hprim Him] [Hinv Hnd _ _] Hroot. split; [exact Hinv|]. rewrite Hroot. split; [exact Hnd|].
  intros _. split; [done|]. eexists. split; [reflexivity|]. left. unfold nc_stored.
  rewrite (cache_images std_hash scan_fuel entry_cache_size fuel bound fuel_enough log (pos + 1) no_promise) by exact Hinv.
  destruct (i64_small pos ltac:(lia)) as [_ Hu]. exists q. split; [unfold located; simpl; by rewrite Hu|].
  apply (Him (fun off => make_address pos off false)); [intros; by apply make_address_offset|].
  destruct d as [u|l c a k v b]; [simpl in Hd; lia|]. by left.
Qed.

Lemma finalized_settled log hor pos q d x t st n tail (s : DBImpl G) w0 w : to_finalize log hor pos q d x t w0 ->
  settled log s st n tail -> rbtree (erase d) -> (size (erase d) <= n)%nat -> to_map (erase d) = ls_map st ->
  last_intention_processed_ s = pos -> root_ s = SetIntentionAddress pos (dsize d - 1) (mkNodePtr (Some x) None true) ->
  finalized log pos q d x w -> settled log (set_cache w s) st n tail.
Proof using Type.
  intros Hfin [Hr _ Hbef Hidle] Hrb Hsz Hm Hl Hroot Hdone.
  assert (db_tree log (last_intention_processed_ (set_cache w s) + 1) no_promise (set_cache w s) (erase d)) as Hdb.
  { simpl. rewrite Hl. by eapply finalized_tree. }
  split; [|by exists (erase d)|exact Hbef|exact Hidle].
  by eapply (replica_frame std_hash sizeof_node scan_fuel entry_cache_size fuel bound fuel_enough log log s (set_cache w s) st n no_promise (erase d)).
Qed.

(** C6: a commit reaches the node cache.  After the round of the processor that
    commits an intention, the round of the writer, and, once the scanner has
    found the image (whatever else the entry service did), the round of the
    finalizer: every new node is read-only, is in the cache under its address in
    the after image, and points to other new nodes by such addresses; the index
    maps the intention to the image; and the instance stands where the log
    stands, with all of its tree in the log.
    The entry cache can hold the whole log. *)
Theorem commit_reaches_cache log s st n tail pos i st' : let n' := S (n + length (pi_ops (intention_ i))) in
  commit_due log s st n tail pos i st' ->
  wp process (fun more s' => more = true /\
    forall es rv, src_ok entry_cache_size bound es -> slots es = log -> watching es rv pos tail ->
      rv_out rv = [] -> rv_first rv !! pos = None ->
      wp writer (fun more s'' => more = true /\ exists ai delta t, let log' := <[tail := image_slot ai]> log in ai_intention ai = pos /\
        src_ok entry_cache_size bound (nc_src (cache_ s'')) /\ slots (nc_src (cache_ s'')) = log' /\
        matches (rv_step (Watch pos delta t) rv) (ai_matcher (nc_src (cache_ s''))) /\
        forall es', src_ok entry_cache_size bound es' -> slots es' = log' -> shutdown_ (ai_matcher es') = false ->
          matches (rv_step (Push pos tail) (rv_step (Watch pos delta t) rv)) (ai_matcher es') ->
          (0 < m_capacity (nc_imap (cache_ s'')))%nat ->
          wp finalizer (fun more s3 => more = true /\ settled log' s3 st' n' (tail + 1) /\ delta <> [] /\
              (forall k l, delta !! k = Some l -> cached std_hash (cache_ s3) (tail, Z.of_nat k) = Some l /\
                exists n, nc_heap (cache_ s3) !! l = Some n /\ frozen_in tail delta n) /\
              fst <$> m_map (nc_imap (cache_ s3)) !! pos = Some tail)
            (set_cache (with_src es' (cache_ s'')) s''))
        (set_cache (with_src es (cache_ s')) s')) s.
Proof using All.
  intros n' Hdue. eapply wp_conseq; [by eapply commit_writes|]. intros more s' (-> & tr & _ & Hw). split; [done|].
  intros es rv Hes Hsl Hwa Hout Hfirst. eapply wp_conseq; [by apply Hw|].
  intros more s'' (-> & ai & d & x & t & [Hai Hset [_ Hwatch _] Hfin Hrec (Hsz & Hm & Hl & Hroot)]). split; [done|].
  pose proof (sd_tree _ _ _ _ _ _ _ _ _ _ _ _ Hset) as (u & Hdb & _). apply db_tree_slots in Hdb as [Hok Hslots].
  exists ai, (postorder d), t. split_and!; [done..|]. intros es' Hes' Hsl' Hrun Hmatch Hcap.
  set (log' := <[tail := image_slot ai]> log) in *. set (s2 := set_cache (with_src es' (cache_ s'')) s'').
  assert (to_finalize log' (last_intention_processed_ s + 1) pos tail d x t (cache_ s2)) as Hfin2 by (by apply to_finalize_meanwhile).
  eapply wp_conseq.
  { apply (finalizer_spec log' _ pos tail d x t s2 Hfin2 Hrun); [|exact Hcap].
    apply mm_out in Hmatch. change (ai_matcher (nc_src (cache_ s2))) with (ai_matcher es'). rewrite Hmatch.
    cbn [rv_step rv_first]. rewrite Hfirst. cbn [rv_out rv_watched]. by rewrite lookup_insert_eq, Hout. }
  intros more s3 (-> & w & -> & Hdone). pose proof Hset as [_ _ _ [_ Hstop]]. split; [simpl; by rewrite Hstop|].
  split_and!; [|intros E|apply Hdone|apply Hdone].
  - eapply (finalized_settled log' _ pos tail d x t st' n' (tail + 1) s'' _ w Hfin); try done. apply Hrec.
  - apply (f_equal length) in E. pose proof (postorder_length d). pose proof (tf_range _ _ _ _ _ _ _ _ _ _ _ _ _ _ _ Hfin) as Hr.
    destruct Hr as (_ & _ & _ & Hd). simpl in E. lia.
Qed.
End finalizer.

(** ** A concrete run *)

(** The room in the index once the two rounds are over. *)
Definition room_left : bool :=
  match new_db (fun z => z) 100 4 late_point late_es with
  | Ok s => match process_intention (fun z => z) 100 100 10 20 s with
    | Ok (_, s') => match AfterImageWriter_round (fun z => z) 100 100 10 20 (set_cache (with_src scanned_es (cache_ s')) s') with
      | Ok (_, s'') => (0 <? m_capacity (nc_imap (cache_ s'')))%nat
      | _ => false
      end
    | _ => false
    end
  | _ => false
  end.

Lemma room_after s : new_db (fun z => z) 100 4 late_point late_es = Ok s ->
  forall b s', process_intention (fun z => z) 100 100 10 20 s = Ok (b, s') ->
  forall b' s'', AfterImageWriter_round (fun z => z) 100 100 10 20 (set_cache (with_src scanned_es (cache_ s')) s') = Ok (b', s'') ->
  (0 < m_capacity (nc_imap (cache_ s'')))%nat.
Proof.
  intros Hs b s' Hp b' s'' Hw. assert (room_left = true) as Hroom by (by vm_compute).
  unfold room_left in Hroom. rewrite Hs, Hp, Hw in Hroom. by apply Nat.ltb_lt.
Qed.

(** The matcher of the witness: the watched intention meets its image. *)
Lemma pushed_matcher rv i p m : matches rv m -> exists m', matches (rv_step (Push i p) rv) m' /\ shutdown_ m' = false.
Proof.
  intros Hm. pose proof (push_spec rv m i p Hm) as Hp. apply wp_run in Hp as (? & m' & _ & []).
  exists (mkMatcher false (matched_watermark_ m') (afterimages_ m') (matched_ m')). done.
Qed.

Lemma commit_reaches_cache_witness : exists s,
  wp (process_intention (fun z => z) 100 100 10 20) (fun more s' => more = true /\
    wp (AfterImageWriter_round (fun z => z) 100 100 10 20) (fun more s'' => more = true /\ exists ai es', ai_intention ai = 2 /\
        wp (AfterImageFinalizer_round (fun z => z) 100 100 10 20) (fun more s3 => more = true /\
            settled (fun z => z) 100 100 10 20 10 late_fuel (<[6 := image_slot ai]> (slots late_es)) s3
              (commit_at 2 (intention_at (put_intention 1 "b" "2") 2) (mkLogState (to_map demo_users) [1] [])) 4 7 /\
            is_Some (cached (fun z => z) (cache_ s3) (6, 0)) /\ fst <$> m_map (nc_imap (cache_ s3)) !! 2 = Some 6)
          (set_cache (with_src es' (cache_ s'')) s''))
      (set_cache (with_src scanned_es (cache_ s')) s')) s.
Proof.
  destruct (restored_settled (fun z => z) 100 100 10 20 10 late_fuel (slots late_es) 4 late_point late_es demo_users [1] 2 6)
    as (s & Hnew & Hs & Hit); [exact late_restorable|by vm_compute|exact late_before|].
  exists s. pose proof (commit_reaches_cache (fun z => z) 100 100 10 20 10 late_fuel late_signed (slots late_es) s
      (mkLogState (to_map demo_users) [1] []) 2 6 2 (intention_at (put_intention 1 "b" "2") 2)
      (commit_at 2 (intention_at (put_intention 1 "b" "2") 2) (mkLogState (to_map demo_users) [1] [])) (late_due s Hs Hit)) as H.
  apply wp_run in H as (more & s' & Hp & -> & H). unfold wp at 1. rewrite Hp. split; [done|].
  specialize (H scanned_es (Matcher.mkRendezvous ∅ ∅ []) scanned_ok eq_refl).
  assert (watching scanned_es (Matcher.mkRendezvous ∅ ∅ []) 2 6) as Hwa.
  { split; [done|exact new_matches|]. intros j Hj. change (is_Some ((∅ : gmap Z (list loc * PersistentTree)) !! j)) in Hj.
    rewrite lookup_empty in Hj. by destruct Hj. }
  specialize (H Hwa eq_refl (lookup_empty 2)).
  apply wp_run in H as (more & s'' & Hw & -> & ai & delta & t & Hai & Hok & Hsl & Hm & Hfin). unfold wp at 1. rewrite Hw. split; [done|].
  destruct (pushed_matcher _ 2 6 _ Hm) as (m' & Hm' & Hrun). exists ai, (with_matcher m' (nc_src (cache_ s''))). split; [done|].
  eapply wp_conseq; [apply Hfin; [by destruct Hok|exact Hsl|exact Hrun|exact Hm'|by eapply room_after]|].
  intros more s3 (-> & Hset & Hne & Hc & Hidx). split_and!; [done|exact Hset| |exact Hidx].
  destruct delta as [|l delta]; [done|]. exists l. by apply (Hc 0%nat).
Defined.
