(* ===== verification/Waiters.v ===== *)
(** Waiting for an intention to be processed: [WaitOnIntention] and
    [NotifyIntention] of src/src/db/db_impl.cc, under every sequence of the
    database's operations. *)
From S2P Require Import Prelude Slice RBTree Node Proto PersistentTree TransactionTree Intention Transaction.
From S2P Require Import Iterator LruCache NodeCache NodeCacheSpec Matcher EntryService EntryServiceSpec TxnFinder CommitIndex MemLog DBImpl DBImplSpec Images DBProps.

Section waiters.
Context {G : Type} {ZG : ZLog G} {PC : ProtoCodec} {SC : SliceCompare} {LC : LexicalCast}.
Context (std_hash : Z -> Z) (sizeof_node cache_size : Z) (scan_fuel entry_cache_size fuel : nat).

(** What a waiting client depends on. *)
Definition waits (s : DBImpl G) : gmap Z wait_id * gmap wait_id bool * Z :=
  (waiting_on_log_entry_ s, done_ s, last_intention_processed_ s).

Lemma keeps_on_tree {A} t (m : M (NodeCache (EntryService G) * PersistentTree) A) : respects (same waits) (on_tree t m).
Proof. intros s a s'. unfold on_tree. destruct (m (cache_ s, t)) as [[b [w u]]| |]; [|done|done]. by intros [= _ <-]. Qed.

Lemma keeps_on_iterator {A} root (m : M (NodeCache (EntryService G) * RawIteratorImpl) A) : respects (same waits) (on_iterator root m).
Proof. intros s a s'. unfold on_iterator. destruct (m _) as [[b [w u]]| |]; [|done|done]. by intros [= _ <-]. Qed.

Lemma keeps_traced {A} (m : M (NodeCache (EntryService G) * list NodeAddress) A) : respects (same waits) (traced m).
Proof. intros s a s'. unfold traced. destruct (m _) as [[b [w u]]| |]; [|done|done]. by intros [= _ <-]. Qed.

#[local] Hint Resolve keeps_on_tree keeps_on_iterator keeps_traced : respects.
#[local] Hint Extern 1 (respects _ (on_cache _)) => apply respects_zoom_any; reflexivity : respects.
#[local] Hint Extern 1 (respects _ (on_es _)) => apply respects_zoom_any; reflexivity : respects.
#[local] Hint Extern 1 (respects _ (on_matcher _)) => apply respects_zoom_any; reflexivity : respects.
#[local] Hint Extern 1 (respects _ (on_finder _)) => apply respects_zoom_any; reflexivity : respects.
#[local] Hint Extern 1 (respects _ (on_finished _)) => apply respects_zoom_any; reflexivity : respects.
#[local] Hint Extern 1 (respects _ (on_index _)) => apply respects_zoom_any; reflexivity : respects.

Ltac keeps := auto 30 with respects.

(** ** The operations of the database, but for the waits themselves *)

Inductive db_op : Type :=
| OpProcess
| OpWriter
| OpFinalizer
| OpJanitor
| OpVaccum
| OpBegin (token : Z)
| OpComplete (w : waiter_id) (txn : TransactionImpl)
| OpFinish (w : waiter_id) (pos : Z)
| OpGet (key : string)
| OpValidate
| OpClearCaches
| OpStats
| OpGc
| OpClose.

Definition run_op (o : db_op) : DBM unit :=
  match o with
  | OpProcess => process_intention std_hash sizeof_node scan_fuel entry_cache_size fuel;; mret tt
  | OpWriter => AfterImageWriter_round std_hash sizeof_node scan_fuel entry_cache_size fuel;; mret tt
  | OpFinalizer => AfterImageFinalizer_round std_hash sizeof_node scan_fuel entry_cache_size fuel;; mret tt
  | OpJanitor => Janitor_round;; mret tt
  | OpVaccum => on_cache (do_vaccum_ std_hash sizeof_node cache_size fuel);; mret tt
  | OpBegin token => BeginTransaction token;; mret tt
  | OpComplete w txn => CompleteTransaction_start entry_cache_size fuel w txn;; mret tt
  | OpFinish w pos => CompleteTransaction_finish w pos;; mret tt
  | OpGet key => Get std_hash sizeof_node scan_fuel entry_cache_size fuel key;; mret tt
  | OpValidate => Validate std_hash sizeof_node scan_fuel entry_cache_size fuel
  | OpClearCaches => ClearCaches sizeof_node fuel
  | OpStats => reachable_node_stats std_hash sizeof_node scan_fuel entry_cache_size fuel;; mret tt
  | OpGc => gc std_hash sizeof_node scan_fuel entry_cache_size fuel;; mret tt
  | OpClose => close_db
  end.

Lemma keeps_write_after_images ts : respects (same waits) (write_after_images std_hash sizeof_node scan_fuel entry_cache_size fuel ts).
Proof. induction ts as [|t ts IH]; simpl; [keeps|]. apply respects_bind; [apply _| |done]. unfold write_after_image, Intention_pos. keeps. Qed.

Lemma keeps_usage_stats addrs : forall usage, respects (same waits) (usage_stats scan_fuel entry_cache_size fuel addrs usage).
Proof. induction addrs as [|[a k] addrs IH]; intros usage; simpl; keeps. Qed.

Lemma keeps_flush addrs : forall i, respects (same waits) (flush_intention addrs i).
Proof. induction addrs as [|[a k] addrs IH]; intros i; simpl; [keeps|]. apply respects_bind; [apply _| |done]. unfold Intention_Copy. keeps. Qed.

#[local] Hint Resolve keeps_write_after_images keeps_usage_stats keeps_flush : respects.

Lemma run_op_keeps o : o <> OpProcess -> respects (same waits) (run_op o).
Proof.
  intros Ho. destruct o; try done; simpl.
  - unfold AfterImageWriter_round. keeps.
  - unfold AfterImageFinalizer_round, Intention_pos, AfterImage_pos. keeps.
  - unfold Janitor_round. keeps.
  - keeps.
  - unfold BeginTransaction, new_transaction. keeps.
  - unfold CompleteTransaction_start, SetIntention. keeps.
  - unfold CompleteTransaction_finish. keeps.
  - unfold Get, GetSnapshot, UpdateLRU. keeps.
  - unfold Validate. keeps.
  - unfold ClearCaches. keeps.
  - unfold reachable_node_stats, ref_root. keeps.
  - unfold gc, ref_root. keeps.
  - unfold close_db. keeps.
Qed.

(** ** The processor's round *)

Abbreviation process := (process_intention std_hash sizeof_node scan_fuel entry_cache_size fuel).

(** A wait up to [pos] is over: its handle is set, and it waits no more. *)
Definition notified (pos : Z) (s s' : DBImpl G) : Prop :=
  last_intention_processed_ s < pos /\ last_intention_processed_ s' = pos /\
  (forall p, waiting_on_log_entry_ s' !! p = if decide (p <= pos) then None else waiting_on_log_entry_ s !! p) /\
  (forall w, (exists p, p <= pos /\ waiting_on_log_entry_ s !! p = Some w) -> done_ s' !! w = Some true) /\
  (forall w, (forall p, p <= pos -> waiting_on_log_entry_ s !! p <> Some w) -> done_ s' !! w = done_ s !! w).

Lemma mark_done (m : gmap Z wait_id) (d : gmap wait_id bool) : forall w,
  ((exists p, m !! p = Some w) -> map_fold (fun _ w d => <[w := true]> d) d m !! w = Some true) /\
  ((forall p, m !! p <> Some w) -> map_fold (fun _ w d => <[w := true]> d) d m !! w = d !! w).
Proof.
  intros w. induction m as [|p w' m Hp Hf IH] using map_first_key_ind.
  { rewrite map_fold_empty. split; [|done]. by intros [p Hp%lookup_empty_Some]. }
  rewrite map_fold_insert_first_key by done. destruct IH as [IH1 IH2]. split.
  - intros [q Hq]. destruct (decide (w' = w)) as [->|Hne]; [by rewrite lookup_insert_eq|].
    rewrite lookup_insert_ne by done. apply IH1. exists q.
    destruct (decide (q = p)) as [->|]; [by rewrite lookup_insert_eq in Hq; simplify_eq|].
    by rewrite lookup_insert_ne in Hq.
  - intros Hq. rewrite lookup_insert_ne.
    + apply IH2. intros q E. apply (Hq q). rewrite lookup_insert_ne; [done|]. intros <-. congruence.
    + intros <-. apply (Hq p). by rewrite lookup_insert_eq.
Qed.

Lemma NotifyIntention_waits pos (s s' : DBImpl G) : NotifyIntention pos s = Ok (tt, s') ->
  last_intention_processed_ s' = last_intention_processed_ s /\
  (forall p, waiting_on_log_entry_ s' !! p = if decide (p <= pos) then None else waiting_on_log_entry_ s !! p) /\
  (forall w, (exists p, p <= pos /\ waiting_on_log_entry_ s !! p = Some w) -> done_ s' !! w = Some true) /\
  (forall w, (forall p, p <= pos -> waiting_on_log_entry_ s !! p <> Some w) -> done_ s' !! w = done_ s !! w).
Proof.
  intros [= <-]. simpl. split_and!; [done|..].
  - intros p. destruct (decide (p <= pos)) as [Hp|Hp].
    + apply map_lookup_filter_None. right. simpl. by intros x _ [].
    + destruct (waiting_on_log_entry_ s !! p) as [w|] eqn:E.
      * by apply map_lookup_filter_Some.
      * apply map_lookup_filter_None. by left.
  - intros w (p & Hp & Hw). apply mark_done. exists p. by apply map_lookup_filter_Some.
  - intros w Hw. apply mark_done. intros p [Hp Hle]%map_lookup_filter_Some. by eapply Hw.
Qed.

Lemma NotifyTransaction_waits token pos c (s s' : DBImpl G) : NotifyTransaction token pos c s = Ok (tt, s') ->
  exists s1, NotifyIntention pos s = Ok (tt, s1) /\ waits s' = waits s1.
Proof.
  intros ([] & s1 & H1 & H2)%bind_Ok. exists s1. split; [done|]. revert H2. by apply (respects_zoom_any (same waits)).
Qed.

Lemma assert_Ok {S} b (s : S) x s' : assert_that b s = Ok (x, s') -> b = true /\ s' = s.
Proof. unfold assert_that. destruct b; [by intros [= _ ->]|done]. Qed.

Lemma keeps_on_es_waits {A} (m : M (EntryService G) A) : respects (same waits) (on_es m).
Proof. keeps. Qed.

Lemma keeps_position i : respects (same waits) (Position i).
Proof. unfold Position. keeps. Qed.

(** The two orders of the end of a round. *)
Lemma notified_intro pos c token (s s1 s2 s' : DBImpl G) : waits s1 = waits s -> last_intention_processed_ s < pos ->
  NotifyTransaction token pos c (set_last pos s1) = Ok (tt, s') \/
  (NotifyTransaction token pos c s1 = Ok (tt, s2) /\ s' = set_last pos s2) ->
  notified pos s s'.
Proof.
  intros Hw Hlt Hor. unfold waits in Hw. injection Hw as W D L. unfold notified.
  destruct Hor as [(s3 & H1 & H2)%NotifyTransaction_waits|[(s3 & H1 & H2)%NotifyTransaction_waits ->]].
  all: apply NotifyIntention_waits in H1 as (L3 & W3 & D3 & D3'); unfold waits in H2; injection H2 as W4 D4 L4;
    simpl in *; rewrite ?W in *; rewrite ?D in *; rewrite ?W4, ?D4.
  - split_and!; [done|congruence|done..].
  - split_and!; [done|done|done..].
Qed.

Lemma keeps_ProcessConcurrentIntention i : respects (same waits) (ProcessConcurrentIntention std_hash sizeof_node scan_fuel entry_cache_size fuel i).
Proof. unfold ProcessConcurrentIntention. keeps. Qed.

Lemma keeps_next_root i pos f : respects (same waits) (next_root std_hash sizeof_node scan_fuel entry_cache_size fuel i pos f).
Proof. unfold next_root. keeps. Qed.

#[local] Hint Resolve keeps_position keeps_ProcessConcurrentIntention keeps_next_root : respects.

(** A round that processes an intention ends every wait up to it, whatever it
    decides; a round that finds no intention changes no wait. *)
Lemma process_waits s b s' : process s = Ok (b, s') ->
  if (b : bool) then exists pos, notified pos s s' else waits s' = waits s.
Proof.
  unfold process_intention, commit_intention. intros H.
  apply bind_get_Ok, bind_Ok in H as ([o p] & s1 & Hn & H). apply bind_modify_Ok in H. apply keeps_on_es_waits in Hn.
  destruct o as [intention|]; [|by injection H as <- <-].
  apply bind_Ok in H as (pos & s2 & Hp & H). apply keeps_position in Hp.
  apply bind_get_Ok, bind_assert_Ok in H as [_ H].
  apply bind_Ok in H as (abort & s3 & Ha & H). assert (waits s3 = waits s) as W3.
  { transitivity (waits s2); [|by rewrite Hp]. revert Ha. clear. match goal with |- ?m _ = _ -> _ => assert (respects (same waits) m) as Hk by keeps end. apply Hk. }
  clear Hn Hp Ha s1 p. destruct abort.
  - apply bind_Ok in H as ([] & s4 & Hn & H). apply bind_get_Ok, bind_assert_Ok in H as [Hlt%Z.ltb_lt H].
    apply bind_modify_Ok in H. injection H as <- <-. exists pos. pose proof Hn as (s5 & Hi & W5)%NotifyTransaction_waits.
    apply NotifyIntention_waits in Hi as (L5 & _).
    eapply (notified_intro pos false _ s s3 s4); [done| |by right]. unfold waits in *. congruence.
  - apply bind_Ok in H as ([] & s4 & Hi & H). apply (respects_zoom_any (same waits)) in Hi; [|done].
    apply bind_Ok in H as (f & s5 & Hf & H). assert (waits s5 = waits s) as W5.
    { transitivity (waits s4); [|congruence]. revert Hf. clear. match goal with |- ?m _ = _ -> _ => assert (respects (same waits) m) as Hk by keeps end. apply Hk. }
    apply bind_Ok in H as ([ro t] & s6 & Hr & H). apply keeps_next_root in Hr.
    destruct ro as [offset|], (pt_root t) as [x|]; try done.
    apply bind_assert_Ok in H as [_ H]. apply bind_modify_Ok, bind_get_Ok, bind_assert_Ok in H as [Hlt%Z.ltb_lt H].
    apply bind_modify_Ok, bind_modify_Ok, bind_Ok in H as ([] & s8 & Hn & H). injection H as <- <-. exists pos.
    simpl in Hlt. assert (waits s6 = waits s) as W6 by congruence.
    refine (notified_intro pos true _ s (set_lcs _ (set_root _ pos s6)) s8 _ W6 _ (or_introl Hn)).
    unfold waits in W6. congruence.
Qed.

(** ** Runs *)

(** A call of [WaitOnIntention] takes a handle of its own. *)
Inductive db_step : DBImpl G -> DBImpl G -> Prop :=
| step_op o s s' : run_op o s = Ok (tt, s') -> db_step s s'
| step_wait w pos b s s' : done_ s !! w = None -> WaitOnIntention w pos s = Ok (b, s') -> db_step s s'.

Lemma run_op_waits o s s' : run_op o s = Ok (tt, s') -> waits s' = waits s \/ exists pos, notified pos s s'.
Proof.
  intros H. assert (o = OpProcess \/ o <> OpProcess) as [->|Ho] by (destruct o; auto).
  - apply bind_Ok in H as (b & s1 & Hp & [= <-]). apply process_waits in Hp. destruct b; [by right|by left].
  - left. revert H. by apply run_op_keeps.
Qed.

(** A handle that waits for [pos], or is done. *)
Definition tracked (w : wait_id) (pos : Z) (s : DBImpl G) : Prop :=
  if pos <=? last_intention_processed_ s then
    done_ s !! w = Some true /\ forall p, waiting_on_log_entry_ s !! p <> Some w
  else
    done_ s !! w = Some false /\ waiting_on_log_entry_ s !! pos = Some w /\
    forall p, waiting_on_log_entry_ s !! p = Some w -> p = pos.

(** A handle that is in no entry of the table. *)
Definition lost (w : wait_id) (s : DBImpl G) : Prop :=
  done_ s !! w = Some false /\ forall p, waiting_on_log_entry_ s !! p <> Some w.

(** Every handle in the table is one that was given out. *)
Definition handles_ok (s : DBImpl G) : Prop := forall p w, waiting_on_log_entry_ s !! p = Some w -> is_Some (done_ s !! w).

Lemma wait_step w pos b (s s' : DBImpl G) : done_ s !! w = None -> WaitOnIntention w pos s = Ok (b, s') ->
  last_intention_processed_ s' = last_intention_processed_ s /\ b = negb (pos <=? last_intention_processed_ s) /\
  (forall p, waiting_on_log_entry_ s' !! p = if decide (p = pos) then
     if b then match waiting_on_log_entry_ s !! pos with Some v => Some v | None => Some w end else waiting_on_log_entry_ s !! pos
     else waiting_on_log_entry_ s !! p) /\
  (forall v, v <> w -> done_ s' !! v = done_ s !! v) /\ (b = true -> done_ s' !! w = Some false) /\ (b = false -> s' = s).
Proof.
  intros Hf. unfold WaitOnIntention, mbind, M_bind, get. destruct (pos <=? last_intention_processed_ s).
  - intros [= <- <-]. split_and!; try done. intros p. by destruct (decide (p = pos)) as [->|].
  - intros [= <- <-]. simpl. split_and!; try done.
    + intros p. destruct (waiting_on_log_entry_ s !! pos) eqn:E; destruct (decide (p = pos)) as [->|]; try done.
      * by rewrite lookup_insert_eq.
      * by rewrite lookup_insert_ne.
    + intros v Hv. by rewrite lookup_insert_ne.
    + intros _. by rewrite lookup_insert_eq.
Qed.

(** A call of one handle does not change what another waits for. *)
Lemma wait_step_other w v pos b (s : DBImpl G) s' : done_ s !! v = None -> WaitOnIntention v pos s = Ok (b, s') -> w <> v ->
  done_ s' !! w = done_ s !! w /\ forall p, waiting_on_log_entry_ s' !! p = Some w <-> waiting_on_log_entry_ s !! p = Some w.
Proof.
  intros Hf (_ & _ & Hw & Hd & _)%wait_step Hne; [|done]. split; [by apply Hd|]. intros p. rewrite Hw.
  destruct (decide (p = pos)) as [->|], b; try done. by destruct (waiting_on_log_entry_ s !! pos) eqn:E; [|split; congruence].
Qed.

Lemma waits_eq (s s' : DBImpl G) : waits s' = waits s -> waiting_on_log_entry_ s' = waiting_on_log_entry_ s /\
  done_ s' = done_ s /\ last_intention_processed_ s' = last_intention_processed_ s.
Proof. by intros [= ? ? ?]. Qed.

Lemma handles_ok_step s s' : db_step s s' -> handles_ok s -> handles_ok s'.
Proof.
  intros [o s0 s0' [E|(pos & _ & _ & Hw & Hd & Hd')]%run_op_waits|w pos b s0 s0' Hf (_ & _ & Hw & Hd & Hdw & Hs)%wait_step] Hok p v; [..|done].
  - destruct (waits_eq _ _ E) as (EW & ED & EL); rewrite ?EW, ?ED, ?EL. apply Hok.
  - rewrite Hw. destruct (decide (p <= pos)); [done|]. intros Hp.
    destruct (decide (exists q, q ∈ dom (waiting_on_log_entry_ s0) /\ q <= pos /\ waiting_on_log_entry_ s0 !! q = Some v)) as [(q & _ & Hq)|Hn].
    + rewrite Hd; [by eexists|by exists q].
    + rewrite Hd'; [by eapply Hok|]. intros q Hq E. apply Hn. exists q. split; [by apply elem_of_dom|done].
  - destruct b; [|by rewrite Hs; [apply Hok|]]. specialize (Hdw eq_refl). rewrite Hw.
    destruct (decide (v = w)) as [->|Hv]; [intros _; rewrite Hdw; by eexists|]. rewrite Hd by done.
    destruct (decide (p = pos)) as [->|]; [|apply Hok]. destruct (waiting_on_log_entry_ s0 !! pos) as [u|] eqn:E; [|congruence].
    intros [= ->]. by eapply Hok.
Qed.

Lemma db_step_last s s' : db_step s s' -> last_intention_processed_ s <= last_intention_processed_ s'.
Proof.
  intros [o s0 s0' [E|(pos & Hlt & -> & _)]%run_op_waits|w pos b s0 s0' Hf (-> & _)%wait_step]; [|lia|lia|done].
  destruct (waits_eq _ _ E) as (EW & ED & EL); rewrite ?EW, ?ED, ?EL. lia.
Qed.

Lemma lost_step w s s' : db_step s s' -> lost w s -> lost w s'.
Proof.
  intros [o s0 s0' [E|(pos & _ & _ & Hw & Hd & Hd')]%run_op_waits|v pos b s0 s0' Hf Hwait] [Hl1 Hl2].
  - destruct (waits_eq _ _ E) as (EW & ED & EL). unfold lost. by rewrite EW, ED.
  - split; [rewrite Hd'; [done|intros; apply Hl2]|]. intros p. rewrite Hw. by destruct (decide _).
  - destruct (wait_step_other w v pos b s0 s0' Hf Hwait ltac:(congruence)) as [Hd Hw]. split; [by rewrite Hd|].
    intros p. rewrite Hw. apply Hl2.
Qed.

Lemma tracked_step w pos s s' : db_step s s' -> tracked w pos s -> tracked w pos s'.
Proof.
  unfold tracked. intros [o s0 s0' [E|(q & Hlt & -> & Hw & Hd & Hd')]%run_op_waits|v q b s0 s0' Hf Hwait].
  - destruct (waits_eq _ _ E) as (EW & ED & EL); rewrite ?EW, ?ED, ?EL. done.
  - destruct (Z.leb_spec pos (last_intention_processed_ s0)), (Z.leb_spec pos q); try lia.
    + intros [H1 H2]. split; [rewrite Hd'; [done|intros; apply H2]|]. intros p. rewrite Hw. by destruct (decide _).
    + intros (H1 & H2 & H3). split; [apply Hd; by exists pos|]. intros p. rewrite Hw. destruct (decide _) as [|Hp]; [done|].
      intros E%H3. lia.
    + intros (H1 & H2 & H3). rewrite Hw, decide_False by lia. rewrite Hd' by (intros p Hp E%H3; lia). split_and!; [done..|].
      intros p. rewrite Hw. destruct (decide _); [done|]. apply H3.
  - pose proof (wait_step v q b s0 s0' Hf Hwait) as (-> & _).
    intros Ht. assert (w <> v) as Hne by (intros ->; destruct (pos <=? _); destruct Ht; congruence).
    destruct (wait_step_other w v q b s0 s0' Hf Hwait Hne) as [-> Hw].
    destruct (pos <=? _); setoid_rewrite Hw; done.
Qed.

Lemma rtc_keeps (Q : DBImpl G -> Prop) s s' : (forall x y, db_step x y -> Q x -> Q y) -> rtc db_step s s' -> Q s -> Q s'.
Proof. intros HQ. induction 1; eauto. Qed.

(** A database no call waits on yet, as every constructed one. *)
Definition no_waits (s : DBImpl G) : Prop := waiting_on_log_entry_ s = ∅ /\ done_ s = ∅.

Lemma new_db_no_waits imap point es s : new_db std_hash sizeof_node imap point es = Ok s -> no_waits s.
Proof. unfold new_db. destruct (CacheAfterImage _ _ _ _ _) as [[q w]| |]; [|done|done]. by intros [= <-]. Qed.

Lemma run_handles_ok s s' : no_waits s -> rtc db_step s s' -> handles_ok s'.
Proof.
  intros [Hw Hd] Hr. apply (rtc_keeps handles_ok s); [apply handles_ok_step|done|].
  intros p w. rewrite Hw, lookup_empty. done.
Qed.

(** C29: a caller of [WaitOnIntention] whose position no other caller waits for
    goes on exactly when the processor has decided the intention at that
    position, or a later one: at once if it already has, and otherwise after the
    first round that reaches it, whatever the round decides and whatever else
    the database does in between. *)
Theorem waiter_released s0 s b s1 s2 w pos : no_waits s0 -> rtc db_step s0 s ->
  done_ s !! w = None -> waiting_on_log_entry_ s !! pos = None ->
  WaitOnIntention w pos s = Ok (b, s1) -> rtc db_step s1 s2 ->
  if b then wait_done w s2 = (if pos <=? last_intention_processed_ s2 then Ok (tt, s2) else OutOfFuel)
  else pos <= last_intention_processed_ s2.
Proof.
  intros Hn Hr Hf Hp Hwait Hr'. pose proof (run_handles_ok s0 s Hn Hr) as Hok.
  destruct (wait_step w pos b s s1 Hf Hwait) as (Hl & Hb & Hw & _ & Hdw & _). destruct b.
  - assert (tracked w pos s1) as Ht.
    { unfold tracked. rewrite Hl. destruct (pos <=? last_intention_processed_ s); [done|]. split; [by apply Hdw|].
      setoid_rewrite Hw. rewrite decide_True, Hp by done. split; [done|]. intros p. destruct (decide (p = pos)); [done|].
      intros E. destruct (Hok _ _ E). congruence. }
    apply (rtc_keeps (tracked w pos) s1 s2 (tracked_step w pos)) in Ht; [|done]. unfold tracked, wait_done, wait_until in *.
    destruct (pos <=? last_intention_processed_ s2); destruct Ht as [-> _]; done.
  - symmetry in Hb. apply negb_false_iff, Z.leb_le in Hb. rewrite <- Hl in Hb.
    apply (rtc_keeps (fun s => pos <= last_intention_processed_ s) s1 s2); [|done|done].
    intros x y Hs%db_step_last Hx. lia.
Qed.

(** C30: [WaitOnIntention] keeps one waiter per position ([emplace] in a [map]),
    so a caller that starts to wait for a position another caller is already
    waiting for is never woken: in no run after it does its wait end, whatever
    intentions are processed. *)
Theorem second_waiter_never_wakes s0 s s1 s2 w pos : no_waits s0 -> rtc db_step s0 s ->
  is_Some (waiting_on_log_entry_ s !! pos) -> done_ s !! w = None ->
  WaitOnIntention w pos s = Ok (true, s1) -> rtc db_step s1 s2 -> wait_done w s2 = OutOfFuel.
Proof.
  intros Hn Hr0 [v Hv] Hf Hwait Hr. pose proof (run_handles_ok s0 s Hn Hr0) as Hok.
  destruct (wait_step w pos true s s1 Hf Hwait) as (_ & _ & Hw & _ & Hdw & _).
  assert (lost w s1) as Hl.
  { split; [by apply Hdw|]. intros p. rewrite Hw, Hv. destruct (decide (p = pos)); intros E.
    - injection E as ->. destruct (Hok _ _ Hv). congruence.
    - destruct (Hok _ _ E). congruence. }
  apply (rtc_keeps (lost w) s1 s2 (lost_step w)) in Hl as [Hd _]; [|done]. unfold wait_done, wait_until. by rewrite Hd.
Qed.
End waiters.

(** ** A run: two callers wait for the intention after the restore point *)

#[local] Existing Instance plain_cast.

Definition waiting_log : list LogEntry :=
  tree_log [mkProtoIntention 0 0 false []; mkProtoIntention 1 0 false [mkTransactionOp PUT "u" (Some "1")]] 1 demo_users.

Definition waiting_run : res (DBImpl MemLog * DBImpl MemLog * DBImpl MemLog * DBImpl MemLog) :=
  match new_db (fun z => z) 100 4 (tree_point [mkProtoIntention 0 0 false []; mkProtoIntention 1 0 false []] 1 demo_users) (stored_es waiting_log) with
  | Ok s =>
    match WaitOnIntention 1 2 s with
    | Ok (true, s1) =>
      match WaitOnIntention 2 2 s1 with
      | Ok (true, s2) =>
        match run_op (fun z => z) 100 100 100 10 50 OpProcess s2 with
        | Ok (tt, s3) => Ok (s, s1, s2, s3)
        | _ => AssertFail
        end
      | _ => AssertFail
      end
    | _ => AssertFail
    end
  | _ => AssertFail
  end.

Lemma waiting_run_spec : exists s s1 s2 s3, no_waits s /\ WaitOnIntention 1 2 s = Ok (true, s1) /\ WaitOnIntention 2 2 s1 = Ok (true, s2) /\
  run_op (fun z => z) 100 100 100 10 50 OpProcess s2 = Ok (tt, s3) /\ last_intention_processed_ s3 = 2 /\
  done_ s = ∅ /\ done_ s1 !! 2 = None /\ waiting_on_log_entry_ s = ∅ /\ is_Some (waiting_on_log_entry_ s1 !! 2).
Proof.
  assert (exists q, waiting_run = Ok q /\ last_intention_processed_ q.2 = 2 /\ done_ q.1.1.2 !! 2 = None /\
    is_Some (waiting_on_log_entry_ q.1.1.2 !! 2)) as ([[[s s1] s2] s3] & E & Hl & Hd & Hw).
  { assert (match waiting_run with Ok q => bool_decide (last_intention_processed_ q.2 = 2) && bool_decide (done_ q.1.1.2 !! 2 = None) &&
      bool_decide (is_Some (waiting_on_log_entry_ q.1.1.2 !! 2)) | _ => false end = true) as E by (vm_compute; reflexivity).
    destruct waiting_run as [q| |]; [|done|done]. apply andb_true_iff in E as [[E1 E2]%andb_true_iff E3]. exists q.
    split_and!; [done|by eapply bool_decide_eq_true_1..]. }
  unfold waiting_run in E. destruct (new_db _ _ _ _ _) as [s0| |] eqn:E0; [|done|done].
  destruct (WaitOnIntention 1 2 s0) as [[[] s1']| |] eqn:E1; [|done..].
  destruct (WaitOnIntention 2 2 s1') as [[[] s2']| |] eqn:E2; [|done..].
  destruct (run_op _ _ _ _ _ _ _ s2') as [[[] s3']| |] eqn:E3; [|done..].
  injection E as -> -> -> ->. apply new_db_no_waits in E0 as Hn. exists s, s1, s2, s3. destruct Hn. by split_and!.
Qed.

Abbreviation demo_step := (db_step (fun z => z) 100 100 100 10 50).

Lemma waiter_released_witness : exists s s1 s3, WaitOnIntention 1 2 s = Ok (true, s1) /\ rtc demo_step s1 s3 /\
  last_intention_processed_ s3 = 2 /\ wait_done 1 s3 = (if 2 <=? last_intention_processed_ s3 then Ok (tt, s3) else OutOfFuel).
Proof.
  destruct waiting_run_spec as (s & s1 & s2 & s3 & Hn & H1 & H2 & H3 & Hl & Hd & Hd2 & Hw & Hw2).
  assert (rtc demo_step s1 s3) as Hr.
  { eapply rtc_l; [by eapply step_wait|]. by eapply rtc_once, step_op. }
  exists s, s1, s3. split_and!; [done..|].
  apply (waiter_released (fun z => z) 100 100 100 10 50 s s true s1 s3 1 2 Hn (rtc_refl _ _)); [by rewrite Hd|by rewrite Hw|done|done].
Defined.

Lemma second_waiter_never_wakes_witness : exists s1 s2 s3, WaitOnIntention 2 2 s1 = Ok (true, s2) /\ rtc demo_step s2 s3 /\
  last_intention_processed_ s3 = 2 /\ wait_done 2 s3 = OutOfFuel.
Proof.
  destruct waiting_run_spec as (s & s1 & s2 & s3 & Hn & H1 & H2 & H3 & Hl & Hd & Hd2 & Hw & Hw2).
  assert (rtc demo_step s2 s3) as Hr by (by eapply rtc_once, step_op).
  exists s1, s2, s3. split_and!; [done..|].
  apply (second_waiter_never_wakes (fun z => z) 100 100 100 10 50 s s1 s2 s3 2 2 Hn); [|done..].
  eapply rtc_once, step_wait; [|exact H1]. by rewrite Hd.
Defined.
